(* ===== verification/_CoqProject ===== *)
-Q . S2P
Prelude.v
GoNet.v
CIDRTheory.v
CIDRText.v
NetUtils.v
MultiCIDRSet.v
IndexTheory.v
IndexProps.v
SetProps.v
SetConstruction.v
SetSpec.v
SetTheorems.v
ContainerHeap.v
PriorityQueue.v
Kubernetes.v
Validation.v
Allocator.v
NodeHandlers.v
ClusterCIDRHandlers.v
EventHandlers.v
Stable.v
AllocatorInv.v
AllocateProps.v
MatchProps.v
NodeProps.v
Reference.v
AllocatorKeeps.v
Controller.v
Workers.v
WorkerProps.v
HandlerProps.v
MapInv.v
Examples.v
AllocatorTheorems.v
ValidationTheorems.v
SelectorTheorems.v
ReleaseProps.v
HandlerTheorems.v
DefaultTheorems.v
NodeTheorems.v
IsolationTheorems.v
Retention.v
Records.v
SystemTheorems.v
RestartTheorems.v
LifecycleTheorems.v
ServiceTheorems.v
InformerFactory.v
InformerProps.v
InformerTheorems.v
DeepCopy.v
DeepCopyProps.v
DeepCopyTheorems.v
Clientset.v
FakeClientset.v
Process.v
WorkerTheorems.v
ProcessTheorems.v
FaultTheorems.v
