(* ===== verification/Prelude.v ===== *)
(** A development for the node IPAM controller (src/).

    * The program

    The controller gives every node of a Kubernetes cluster its PodCIDRs.  Users
    describe ranges as ClusterCIDR objects: an IPv4 and an IPv6 CIDR, a number of
    host bits per node, a node selector.  For each ClusterCIDR the controller keeps
    an internal object with one [MultiCIDRSet] per family, filed under the text of
    its selector ([cidrMap]).  A work item for a node orders the ClusterCIDRs whose
    selector the node matches with a priority queue, takes a free block per family
    from the first that has them, and patches the node; a node that already has
    PodCIDRs has them occupied; a deleted node has them released.  A work item for
    a ClusterCIDR creates and maps its internal object, or marks it terminating and
    unmaps it when no node uses it.  At start-up all of this is rebuilt from the
    API server.  main.go builds the clients and the informers, takes part in a leader
    election and, once elected, starts the controller.

    * The files

    Prelude: results of Go functions ([exit]: value, error or panic), the state
    monad of the methods ([M]), its rules, the invariant rules [keeps], machine
    integers, ranges.
    GoNet: net.IP, net.IPMask, net.IPNet, encoding/binary, math/bits as functions
    on bytes.  CIDRTheory: an IPNet as the block [block w v p] of [w]-bit addresses
    from [v] with prefix length [p]; containment, overlap.  CIDRText: the text of a
    CIDR is injective and can be parsed back.  NetUtils: the interface of
    k8s.io/utils/net and its laws.
    MultiCIDRSet: multicidrset/multi_cidr_set.go, method by method, and the updates
    of metrics.go as a log.  IndexTheory, IndexProps: the index arithmetic.
    SetProps: the set invariant [set_inv L A s], "the set [s] of layout [L] has
    exactly the blocks [A] allocated".  SetConstruction: NewMultiCIDRSet.  SetSpec:
    the abstract set it refines.  SetTheorems: the theorems about it.
    ContainerHeap: container/heap over an interface [HeapInterface]; with the laws
    [HeapLaws] it keeps the queue's contents and pops in order.  PriorityQueue:
    multi_cidr_priority_queue.go, an instance of both.
    Kubernetes: the API objects, the interfaces [Labels] (label selectors) and
    [Cluster] (API server, informer caches, work queues), node selectors and
    [matchCIDRLabels].  Validation: pkg/apis/clustercidr/v1/validation, over the
    interfaces [FieldErrors] and [ApiValidation] of apimachinery.
    Allocator, NodeHandlers, ClusterCIDRHandlers: multi_cidr_range_allocator.go,
    function by function; [AllocState] is the state behind the fields of
    multiCIDRRangeAllocator.  EventHandlers: the informer callbacks the constructor
    registers.  Controller: the transition system of workers and callbacks.
    Workers: the worker loops, and [Run] as a relation whose middle is any run of
    that system.  InformerFactory: client/informers/externalversions, the factory as
    a state and its methods.  DeepCopy: zz_generated.deepcopy.go over a memory of
    cells where slices alias, and the edits of the copies.  Clientset:
    client/clientset/versioned; FakeClientset: its fake twin and the registration of
    both with runtime schemes.  Process: main.go, leaderelection, signals, the probe
    server and the registration of the metrics.
    Stable: properties that no write of the handlers can break, and that every
    handler preserves them.
    AllocatorInv: the invariant [alloc_ok] of that state.  AllocateProps,
    MatchProps, NodeProps, ReleaseProps, HandlerProps: running the operations on a
    well-formed state.  AllocatorKeeps: every handler keeps the invariant.  MapInv:
    the invariant of the map, which needs no assumption on the inputs.  WorkerProps:
    the handlers' effect on the queues.  InformerProps, DeepCopyProps: the invariant
    of the factory; copies lie in new memory.
    Retention: [loses N bs], what can go between two states in which only nodes [N]
    and CIDRs [bs] are released, and the rule by which every handler keeps to it.
    Records: the CIDRs recorded for nodes, the runs [system] of critical sections, and
    that each section keeps the records isolated.
    Reference, Examples: concrete parameters and states for the witnesses.
    AllocatorTheorems, NodeTheorems, HandlerTheorems, IsolationTheorems,
    ServiceTheorems, DefaultTheorems, ValidationTheorems, SelectorTheorems,
    WorkerTheorems, InformerTheorems, DeepCopyTheorems, ProcessTheorems,
    FaultTheorems, SystemTheorems, RestartTheorems, LifecycleTheorems: the theorems.

    * What the theorems show

    The set: any sequence of method calls on a [MultiCIDRSet] answers what an
    abstract set of indices with a cursor answers; block [i] of a range is where it
    should be and the index of an address is the inverse; occupying and releasing
    change exactly the blocks that the CIDR meets; the next candidate is the first
    free block; membership tests are exact.
    Allocation: a block handed out shares no address with a block in use in any
    mapped ClusterCIDR, is allocated afterwards, and failure means exhaustion; the
    matching ClusterCIDRs come in the documented order; from the work item to the
    patch, a node is given exactly the texts of fresh blocks.
    Isolation: over any sequence of the bodies under r.lock, each with any object and
    failing or not, no address is recorded for two nodes, the records are the
    associations, and what is recorded is allocated (SystemTheorems, over the run
    relation [system], of which the turns of the workers are parts).  Two things are
    assumed of the objects along the run: a node that arrives with PodCIDRs shows
    CIDRs of the block size that are recorded for it or apart from all records
    ([arrives]), and a node released while its name is associated shows PodCIDRs
    recorded for that name ([leaves]).  A node that was released already can be
    released again at any time, as the delete callback does.  The same for bare
    allocations (IsolationTheorems).  Filtering out a service range marks what it
    meets in the ClusterCIDRs mapped then, and no node gets its addresses there as
    long as they stay mapped and nothing that meets the marks is given back; it does
    nothing for a ClusterCIDR created later (ServiceTheorems, FaultTheorems).
    Restart: the PodCIDRs of the listed nodes, where a ClusterCIDR offered to the
    node covers them, are recorded when the constructor returns, and later
    allocations avoid them (RestartTheorems); if they also have the block size, and
    are apart, the run that follows starts with them as its records and stays isolated
    (LifecycleTheorems).  Without that two nodes can come to share a block; the
    release of one frees it, and RestartTheorems has this in general and as an
    execution from start-up to the overlap.
    State: every state reachable by an interleaving of bodies under the lock, work
    items and callbacks is well formed, and maps a ClusterCIDR at most once.
    Termination: the loop of [allocateCIDR] ends within MaxCIDRs rounds; when [Run]
    returns the queues are shut down, and the workers of a queue that is shut down
    end.  Liveness: an item in a queue is synced after the items before it.
    Validation: exactly which specs and updates are accepted; what the controller
    makes of an accepted one; how a node selector is converted and matched.
    Start-up: the default ClusterCIDR for every shape of the flags.
    Informers: each is run at most once and shared by all who ask for it; after
    Shutdown none runs.  Copies: a deep copy is equal to the object and apart from
    it, so that editing finalizers does not touch the informer cache and amounts to
    the values the handlers of this development send.
    Process: the exit codes of main; a replica that is not elected does nothing; the
    controllers that are started run in well-formed states until Run returns.
    Handlers: releasing, occupying, patching, creating and deleting on every
    branch, and the work-queue protocol.
    Departures from the comments: nil set pointers, leaks for dual-stack ranges and
    after a failed occupy, service ranges in a ClusterCIDR created later,
    terminating ClusterCIDRs that are still offered, and a restart that forgets the
    nodes of any ClusterCIDR whose generation is above one (FaultTheorems); the
    reservation that stays when the lister fails (NodeTheorems); selector terms that
    are conjoined (SelectorTheorems); an IPv4-mapped text that is accepted but makes
    no set (ValidationTheorems).

    * How the code is translated

    A function that can fail or panic returns [exit]; a method that mutates state
    is an [M] over that state, and writes made before an error stay.  int and int32
    are [Z] with the wrap-around written out where it can happen ([s32], [u32],
    [s64]).  A pointer to a ClusterCIDR is an address in a store, so aliases share
    writes; a pointer to a set is the field it was read from.  The order of a Go
    range over a map is the parameter [MapIter], a new order at each loop.  Methods
    hold r.lock, so the body of one is one transition.  A worker reads the object it
    works on from the informer's cache before the lock is taken (line 473), and the
    cache can change before line 726 reads it again.  So a transition takes any object
    ([step] of Controller, [system] of Records), and a change of the world, the cache
    included, is a transition that can come between any two.  [syncNode] and the
    turns, which read and then call, are the case that none comes in between.  A
    section reads the cache once at most, before its API calls, the outcome of which
    is a parameter, so changes in the middle of a section are not transitions.
    Logging is left out.  Metrics are a log in call order.

    Loops: Go's [for] over a slice is structural recursion.  [allocateLoop] has as
    fuel the number of blocks: its counter grows in every round, so it ends before
    the fuel does.  [nextCandidateLoop] and the heap's loops are bounded in
    the same way, and their theorems give the result without a fuel hypothesis.

    [runWorker] has as fuel the number of rounds, and says whether the loop has
    ended: the theorem about it gives a number that is enough.

    * Not modelled

    The probe server's sockets, the windows list of signals, the test helpers of
    controller/ipam/test.  Nothing but its tests calls the validation package.
    Code outside the repository is a parameter.  Documented laws are assumed of
    k8s.io/utils/net, of the deep copies of apimachinery and k8s.io/api (CopyLaws),
    of label selectors in the theorem about node selectors only (LabelsLaws), that a
    range over a map visits each entry once (MapIterLaws),
    of the work queues in the theorems about the workers only (fifo, drains,
    shuts_down), of ValidateImmutableField in the theorem about updates, and, where
    runs are concerned, that the informers show well-formed objects, calls keep them
    so ([world_closed]), and a lister finds a node under its name ([world_named]).
    The API server's answers, the back-off helper, informers, REST clients, the
    election and apimachinery's other validators have none. *)
From stdpp Require Export base list gmap strings numbers sorting pretty.
From Stdlib Require Export ZArith Lia.

#[export] Set Warnings "-clear-no-such-hyp".

Create HintDb cidr.

#[global] Open Scope Z_scope.

(** * Results of Go code

    A Go function ends in one of three ways: it returns normally, it returns a
    non-nil [error], or it panics.  [error] is the Go interface value: the typed
    errors the source declares keep a constructor each; every
    [fmt.Errorf]/[errors.New] is [Errorf] with its format string and its printed
    arguments, and [ErrorfW] when a [%w] verb wraps an error.  Failures that come back from the
    API server or from an informer cache are [ApiError] with their status
    reason. *)
Inductive error : Type :=
| CIDRRangeNoCIDRsRemainingErr (CIDR : string)
| CIDRSetSubNetTooBigErr (cidr : string) (subnetMaskSize clusterMaskSize : Z)
| ApiError (reason : string)
| Errorf (format : string) (args : list string)
| ErrorfW (format : string) (args : list string) (wraps : error).

(** The run-time panics the modelled code can raise. *)
Inductive panic : Type :=
| NilDereference
| IndexOutOfRange
| DivideByZero.

#[export] Instance panic_eq_dec : EqDecision panic.
Proof. solve_decision. Defined.

Inductive exit (A : Type) : Type :=
| Ok (a : A)
| Err (e : error)
| Panic (p : panic).
Arguments Ok {A} _.
Arguments Err {A} _.
Arguments Panic {A} _.

#[export] Instance exit_ret : MRet exit := λ A a, Ok a.
#[export] Instance exit_bind : MBind exit := λ A B f m,
  match m with Ok a => f a | Err e => Err e | Panic p => Panic p end.

(** * The state monad of the methods

    A method that mutates its receiver is a function from the state to the way
    it ended and the state it left: an error or a panic does not undo the writes
    made before it. *)
Definition M (S A : Type) : Type := S → exit A * S.

Section monad.
Context {S : Type}.

#[export] Instance M_ret : MRet (M S) := λ A a s, (Ok a, s).
#[export] Instance M_bind : MBind (M S) := λ A B f m s,
  match m s with
  | (Ok a, s') => f a s'
  | (Err e, s') => (Err e, s')
  | (Panic p, s') => (Panic p, s')
  end.

Definition get : M S S := λ s, (Ok s, s).
Definition put (s : S) : M S unit := λ _, (Ok tt, s).
Definition modify (f : S → S) : M S unit := λ s, (Ok tt, f s).
Definition fail {A} (e : error) : M S A := λ s, (Err e, s).
Definition crash {A} (p : panic) : M S A := λ s, (Panic p, s).
Definition lift {A} (m : exit A) : M S A := λ s, (m, s).

(** [x, err := m()]: the error becomes a value, a panic is not caught. *)
Definition attempt {A} (m : M S A) : M S (error + A) := λ s,
  match m s with
  | (Ok a, s') => (Ok (inr a), s')
  | (Err e, s') => (Ok (inl e), s')
  | (Panic p, s') => (Panic p, s')
  end.

(** [if err := m(); err != nil { return wrap(err) }] *)
Definition wrapErr {A} (f : error → error) (m : M S A) : M S A := λ s,
  match m s with
  | (Err e, s') => (Err (f e), s')
  | r => r
  end.

(** A [for] over a list whose body does not return. *)
Fixpoint forM_ {A} (l : list A) (f : A → M S unit) : M S unit :=
  match l with
  | [] => mret tt
  | x :: l => f x ;; forM_ l f
  end.

(** A [for] over a list whose body may [return] a value ([Some]). *)
Fixpoint forReturn {A R} (l : list A) (f : A → M S (option R)) : M S (option R) :=
  match l with
  | [] => mret None
  | x :: l =>
      r ← f x;
      match r with Some v => mret (Some v) | None => forReturn l f end
  end.
End monad.

Lemma M_bind_Ok {S A B} (m : M S A) (f : A → M S B) s a s' :
  m s = (Ok a, s') → (m ≫= f) s = f a s'.
Proof. intros H. unfold mbind, M_bind. by rewrite H. Qed.

Lemma M_bind_Err {S A B} (m : M S A) (f : A → M S B) s e s' :
  m s = (Err e, s') → (m ≫= f) s = (Err e, s').
Proof. intros H. unfold mbind, M_bind. by rewrite H. Qed.

Lemma M_bind_Panic {S A B} (m : M S A) (f : A → M S B) s p s' :
  m s = (Panic p, s') → (m ≫= f) s = (Panic p, s').
Proof. intros H. unfold mbind, M_bind. by rewrite H. Qed.

Lemma M_bind_inv {S A B} (m : M S A) (f : A → M S B) s b s' :
  (m ≫= f) s = (Ok b, s') → ∃ a s1, m s = (Ok a, s1) ∧ f a s1 = (Ok b, s').
Proof. unfold mbind, M_bind. destruct (m s) as [[a|e|p] s1]; naive_solver. Qed.

Lemma attempt_Ok {S A} (m : M S A) s a s' : m s = (Ok a, s') → attempt m s = (Ok (inr a), s').
Proof. intros E. unfold attempt. by rewrite E. Qed.

Lemma attempt_Err {S A} (m : M S A) s e s' : m s = (Err e, s') → attempt m s = (Ok (inl e), s').
Proof. intros E. unfold attempt. by rewrite E. Qed.

Lemma wrapErr_Ok {S A} g (m : M S A) s a s' : m s = (Ok a, s') → wrapErr g m s = (Ok a, s').
Proof. intros E. unfold wrapErr. by rewrite E. Qed.

Lemma wrapErr_Err {S A} g (m : M S A) s e s' : m s = (Err e, s') → wrapErr g m s = (Err (g e), s').
Proof. intros E. unfold wrapErr. by rewrite E. Qed.

Lemma wrapErr_inv {S A} g (m : M S A) s a s' : wrapErr g m s = (Ok a, s') → m s = (Ok a, s').
Proof. unfold wrapErr. destruct (m s) as [[b|e|p] s1]; naive_solver. Qed.

Lemma forReturn_next {S A R} x (l : list A) (f : A → M S (option R)) s s' :
  f x s = (Ok None, s') → forReturn (x :: l) f s = forReturn l f s'.
Proof. intros E. cbn [forReturn]. by rewrite (M_bind_Ok _ _ _ _ _ E). Qed.

Lemma forReturn_stop {S A R} x (l : list A) (f : A → M S (option R)) s s' v :
  f x s = (Ok (Some v), s') → forReturn (x :: l) f s = (Ok (Some v), s').
Proof. intros E. cbn [forReturn]. by rewrite (M_bind_Ok _ _ _ _ _ E). Qed.

Lemma forM_next {S A} x (l : list A) (f : A → M S unit) s s' u :
  f x s = (Ok u, s') → forM_ (x :: l) f s = forM_ l f s'.
Proof. intros E. cbn [forM_]. by rewrite (M_bind_Ok _ _ _ _ _ E). Qed.

(** [mstep E] runs the first call of a sequence, which [E] says succeeds. *)
Tactic Notation "mstep" constr(E) := rewrite (M_bind_Ok _ _ _ _ _ E); cbn beta iota.

(** Exposes the monadic operations of the goal and computes away what is known. *)
Ltac mred :=
  unfold mbind, mret, M_bind, M_ret, exit_bind, exit_ret, lift, fail, crash, get, put, modify,
    attempt, wrapErr; cbn beta iota.

(** * Invariants of stateful code

    [keeps P m Q]: however [m] ends it leaves a state with [P], if it started in
    one, and a value it returns has [Q].  One rule per construct. *)
Definition keeps {S A} (P : S → Prop) (m : M S A) (Q : A → Prop) : Prop :=
  ∀ s, P s → P (m s).2 ∧ ∀ a, (m s).1 = Ok a → Q a.

Section keeps.
Context {S : Type} (P : S → Prop).

Lemma keeps_ret {A} (a : A) (Q : A → Prop) : Q a → keeps P (mret a) Q.
Proof. intros Ha s Hs. split; [done|]. by intros ? [= <-]. Qed.

Lemma keeps_bind {A B} (m : M S A) (f : A → M S B) Q R :
  keeps P m Q → (∀ a, Q a → keeps P (f a) R) → keeps P (m ≫= f) R.
Proof.
  intros Hm Hf s Hs. destruct (Hm s Hs) as [H1 H2]. unfold mbind, M_bind.
  destruct (m s) as [[a|e|p] s']; simpl in *; [|by split..]. apply Hf; [by apply H2|done].
Qed.

Lemma keeps_fail {A} e (Q : A → Prop) : keeps P (fail e) Q.
Proof. by intros s Hs. Qed.

Lemma keeps_lift {A} (m : exit A) (Q : A → Prop) : (∀ a, m = Ok a → Q a) → keeps P (lift m) Q.
Proof. by intros Hm s Hs. Qed.

Lemma keeps_modify (g : S → S) Q : (∀ s, P s → P (g s)) → Q tt → keeps P (modify g) Q.
Proof. intros Hg HQ s Hs. split; [by apply Hg|]. by intros [] _. Qed.

Lemma keeps_get (Q : S → Prop) : (∀ s, P s → Q s) → keeps P get Q.
Proof. intros HQ s Hs. split; [done|]. intros a [= <-]. by apply HQ. Qed.

Lemma keeps_attempt {A} (m : M S A) Q :
  keeps P m Q → keeps P (attempt m) (λ r, match r with inr a => Q a | inl _ => True end).
Proof.
  intros Hm s Hs. destruct (Hm s Hs) as [H1 H2]. unfold attempt.
  destruct (m s) as [[a|e|p] s']; simpl in *; (split; [done|]); try done; intros ? [= <-]; [by apply H2|done].
Qed.

Lemma keeps_wrapErr {A} g (m : M S A) Q : keeps P m Q → keeps P (wrapErr g m) Q.
Proof.
  intros Hm s Hs. destruct (Hm s Hs) as [H1 H2]. unfold wrapErr. by destruct (m s) as [[a|e|p] s'].
Qed.

Lemma keeps_forM {A} (l : list A) (f : A → M S unit) (Q : A → Prop) :
  Forall Q l → (∀ x, Q x → keeps P (f x) (λ _, True)) → keeps P (forM_ l f) (λ _, True).
Proof.
  intros Hl Hf. induction Hl as [|x l Hx Hl IH]; [by apply keeps_ret|]. cbn [forM_].
  eapply keeps_bind; [by apply Hf|]. done.
Qed.

Lemma keeps_forReturn {A R} (l : list A) (f : A → M S (option R)) (Q : A → Prop) (T : R → Prop) :
  Forall Q l → (∀ x, Q x → keeps P (f x) (λ r, ∀ v, r = Some v → T v)) →
  keeps P (forReturn l f) (λ r, ∀ v, r = Some v → T v).
Proof.
  intros Hl Hf. induction Hl as [|x l Hx Hl IH]; [by apply keeps_ret|]. cbn [forReturn].
  eapply keeps_bind; [by apply Hf|]. intros [v|] Hv; [|done]. apply keeps_ret. naive_solver.
Qed.

Lemma keeps_if {A} (b : bool) (m n : M S A) Q : keeps P m Q → keeps P n Q → keeps P (if b then m else n) Q.
Proof. by destruct b. Qed.
End keeps.

(** A decidable closed proposition by evaluation. *)
Ltac by_decision := apply (bool_decide_eq_true_1 _); vm_compute; reflexivity.

(** * Fixed-width integers

    Go integers are [Z]; a conversion to an unsigned type reduces modulo its
    width, and a shift count that reaches the width yields zero. *)
Definition u32 (x : Z) : Z := x mod 2 ^ 32.
Definition u64 (x : Z) : Z := x mod 2 ^ 64.
Definition s64 (x : Z) : Z := (x + 2 ^ 63) mod 2 ^ 64 - 2 ^ 63.
Definition s32 (x : Z) : Z := (x + 2 ^ 31) mod 2 ^ 32 - 2 ^ 31.
Definition shl32 (x k : Z) : Z := if 32 <=? k then 0 else u32 (Z.shiftl x k).
Definition shl64 (x k : Z) : Z := if 64 <=? k then 0 else u64 (Z.shiftl x k).
Definition shr32 (x k : Z) : Z := if 32 <=? k then 0 else Z.shiftr x k.
Definition shr64 (x k : Z) : Z := if 64 <=? k then 0 else Z.shiftr x k.
Definition not32 (x : Z) : Z := 2 ^ 32 - 1 - x.
Definition not64 (x : Z) : Z := 2 ^ 64 - 1 - x.
Definition MaxInt : Z := 2 ^ 63 - 1.

(** The indices of [for i := lo; i <= hi; i++]. *)
Fixpoint zrange_from (n : nat) (lo : Z) : list Z :=
  match n with O => [] | S n => lo :: zrange_from n (lo + 1) end.
Definition zrange (lo hi : Z) : list Z := zrange_from (Z.to_nat (hi - lo + 1)) lo.

Lemma zrange_from_seqZ n lo : zrange_from n lo = seqZ lo (Z.of_nat n).
Proof.
  revert lo. induction n as [|n IH]; intros lo; [done|].
  rewrite seqZ_cons by lia. simpl. rewrite IH. do 2 f_equal; lia.
Qed.

Lemma elem_of_zrange lo hi x : x ∈ zrange lo hi ↔ lo ≤ x ≤ hi.
Proof. unfold zrange. rewrite zrange_from_seqZ, elem_of_seqZ. lia. Qed.

Lemma NoDup_zrange lo hi : NoDup (zrange lo hi).
Proof. unfold zrange. rewrite zrange_from_seqZ. apply NoDup_seqZ. Qed.

(** * Sorted lists *)

Lemma StronglySorted_weaken {A} (R R' : A → A → Prop) l :
  (∀ a b, R a b → R' a b) → StronglySorted R l → StronglySorted R' l.
Proof. intros HR Hl. induction Hl as [|a l _ IH Ha]; constructor; [done|]. eapply Forall_impl; [exact Ha|]. eauto. Qed.

Lemma StronglySorted_fmap {A B} (f : A → B) (R : B → B → Prop) l :
  StronglySorted R (f <$> l) → StronglySorted (λ a b, R (f a) (f b)) l.
Proof.
  induction l as [|a l IH]; [intros _; apply SSorted_nil|]. intros Hl. apply StronglySorted_inv in Hl as [Hl Ha].
  apply SSorted_cons; [by apply IH|]. change (Forall (R (f a)) (f <$> l)) in Ha. rewrite Forall_fmap in Ha. exact Ha.
Qed.
