(* ===== verification/GoNet.v ===== *)
(** The part of Go's standard library the allocator computes with: [net.IP],
    [net.IPMask] and [net.IPNet] as byte slices, [encoding/binary.BigEndian],
    [math/bits.LeadingZeros64], and the text form of a CIDR ([IPNet.String]).
    A nil slice and an empty one behave alike in every function used here and are
    both [[]]; a byte is a [Z] in [0, 256). *)
From Stdlib Require Import Ascii.
From S2P Require Import Prelude.

Definition IPv4len : Z := 4.
Definition IPv6len : Z := 16.

(** * Big-endian integers *)

Definition be_val (l : list Z) : Z := foldl (λ acc b, acc * 256 + b) 0 l.

Fixpoint be_bytes (n : nat) (v : Z) : list Z :=
  match n with
  | O => []
  | S n => v / 256 ^ Z.of_nat n mod 256 :: be_bytes n v
  end.

(** [binary.BigEndian.Uint32(b)]: the first four bytes; a shorter slice panics. *)
Definition Uint32 (b : list Z) : exit Z :=
  if decide (length b < 4)%nat then Panic IndexOutOfRange else Ok (be_val (take 4 b)).
Definition Uint64 (b : list Z) : exit Z :=
  if decide (length b < 8)%nat then Panic IndexOutOfRange else Ok (be_val (take 8 b)).

(** [PutUint32] and [PutUint64] into a fresh slice of that size. *)
Definition PutUint32 (v : Z) : list Z := be_bytes 4 v.
Definition PutUint64 (v : Z) : list Z := be_bytes 8 v.

(** [64 - bits.LeadingZeros64(x)] is the bit length of [x]. *)
Definition LeadingZeros64 (x : Z) : Z := if x =? 0 then 64 else 63 - Z.log2 x.

(** * Addresses and masks *)

Definition IP : Type := list Z.
Definition IPMask : Type := list Z.

Record IPNet : Type := mkIPNet { IPNet_IP : IP; IPNet_Mask : IPMask }.

#[export] Instance IPNet_eq_dec : EqDecision IPNet.
Proof. solve_decision. Defined.

Definition v4InV6Prefix : list Z := replicate 10 0 ++ [255; 255].

(** [ip.To4()]; [None] is nil. *)
Definition To4 (ip : IP) : option IP :=
  if decide (length ip = 4%nat) then Some ip
  else if decide (length ip = 16%nat ∧ take 12 ip = v4InV6Prefix) then Some (drop 12 ip)
  else None.

Definition land_bytes (a b : list Z) : list Z := zip_with Z.land a b.

(** [ip.Mask(mask)] *)
Definition IP_Mask (ip : IP) (mask : IPMask) : IP :=
  let mask := if decide (length mask = 16%nat ∧ length ip = 4%nat
                         ∧ take 12 mask = replicate 12 255)
              then drop 12 mask else mask in
  let ip := if decide (length mask = 4%nat ∧ length ip = 16%nat
                       ∧ take 12 ip = v4InV6Prefix)
            then drop 12 ip else ip in
  if decide (length ip = length mask) then land_bytes ip mask else [].

(** [simpleMaskLength]: the number of leading ones, [-1] when a one follows a
    zero. *)
Fixpoint leadingOnes (k : nat) (v : Z) : Z :=
  match k with
  | O => 0
  | S k => if Z.testbit v (Z.of_nat k) then 1 + leadingOnes k v else 0
  end.

Fixpoint simpleMaskLength (mask : IPMask) : Z :=
  match mask with
  | [] => 0
  | v :: mask =>
      if v =? 255 then
        let l := simpleMaskLength mask in if l =? -1 then -1 else 8 + l
      else
        let n := leadingOnes 8 v in
        if (v =? 256 - 2 ^ (8 - n)) && forallb (Z.eqb 0) mask then n else -1
  end.

(** [mask.Size()]: ones and bits, both 0 for a non-canonical mask. *)
Definition Mask_Size (m : IPMask) : Z * Z :=
  let ones := simpleMaskLength m in
  if ones =? -1 then (0, 0) else (ones, Z.of_nat (length m) * 8).

Fixpoint maskBytes (l : nat) (n : Z) : IPMask :=
  match l with
  | O => []
  | S l => if 8 <=? n then 255 :: maskBytes l (n - 8)
           else 255 - Z.shiftr 255 n :: maskBytes l 0
  end.

(** [net.CIDRMask(ones, bits)] *)
Definition CIDRMask (ones bits : Z) : IPMask :=
  if negb ((bits =? 32) || (bits =? 128)) then []
  else if (ones <? 0) || (bits <? ones) then []
  else maskBytes (Z.to_nat (bits / 8)) ones.

(** [networkNumberAndMask]; [([], [])] is the pair of nils. *)
Definition networkNumberAndMask (n : IPNet) : IP * IPMask :=
  let k (ip : IP) : IP * IPMask :=
    let m := IPNet_Mask n in
    if decide (length m = 4%nat) then
      if decide (length ip = 4%nat) then (ip, m) else ([], [])
    else if decide (length m = 16%nat) then
      if decide (length ip = 4%nat) then (ip, drop 12 m) else (ip, m)
    else ([], []) in
  match To4 (IPNet_IP n) with
  | Some ip => k ip
  | None => if decide (length (IPNet_IP n) = 16%nat) then k (IPNet_IP n) else ([], [])
  end.

(** [n.Contains(ip)] *)
Definition Contains (n : IPNet) (ip : IP) : bool :=
  let '(nn, m) := networkNumberAndMask n in
  let ip := default ip (To4 ip) in
  bool_decide (length ip = length nn) && bool_decide (land_bytes nn m = land_bytes ip m).

(** * Text form *)

Fixpoint join (sep : string) (l : list string) : string :=
  match l with
  | [] => EmptyString
  | [s] => s
  | s :: l => s +:+ sep +:+ join sep l
  end.

(** [itoa.Uitoa] *)
Definition Uitoa (n : Z) : string := pretty (Z.to_N n).

Definition hexDigit (n : Z) : Ascii.ascii :=
  default "0"%char (String.get (Z.to_nat n) "0123456789abcdef").

(** [appendHex]: a 16-bit group without leading zeros. *)
Definition hex16 (x : Z) : string :=
  (if 4096 <=? x then String (hexDigit (Z.shiftr x 12)) EmptyString else EmptyString) +:+
  (if 256 <=? x then String (hexDigit (Z.land (Z.shiftr x 8) 15)) EmptyString else EmptyString) +:+
  (if 16 <=? x then String (hexDigit (Z.land (Z.shiftr x 4) 15)) EmptyString else EmptyString) +:+
  String (hexDigit (Z.land x 15)) EmptyString.

(** [hexString], used for a mask that is not canonical. *)
Definition hexString (b : list Z) : string :=
  foldr (λ v s, String (hexDigit (Z.shiftr v 4)) (String (hexDigit (Z.land v 15)) s)) EmptyString b.

Fixpoint groups (ip : list Z) : list Z :=
  match ip with
  | a :: b :: ip => a * 256 + b :: groups ip
  | _ => []
  end.

(** The run of zero groups that [Addr.appendTo6] compresses: the first longest
    one of length at least two, as (start, length); length 0 when there is none. *)
Fixpoint zeroRun (g : list Z) : nat :=
  match g with
  | 0 :: g => S (zeroRun g)
  | _ => O
  end.

Fixpoint bestZeroRun (i : nat) (g : list Z) (best : nat * nat) : nat * nat :=
  match g with
  | [] => best
  | _ :: g' =>
      let l := zeroRun g in
      bestZeroRun (S i) g' (if decide (2 ≤ l ∧ best.2 < l)%nat then (i, l) else best)
  end.

(** An address of 4 or 16 bytes as text ([netip.Addr.String]). *)
Definition Addr_String (ip : IP) : string :=
  match To4 ip with
  | Some p4 => join "." (Uitoa <$> p4)
  | None =>
      let g := groups ip in
      let '(start, len) := bestZeroRun 0 g (0%nat, 0%nat) in
      if decide (len = 0%nat) then join ":" (hex16 <$> g)
      else join ":" (hex16 <$> take start g) +:+ "::" +:+ join ":" (hex16 <$> drop (start + len) g)
  end.

(** [ip.String()] *)
Definition IP_String (ip : IP) : string :=
  if decide (ip = []) then "<nil>"
  else if decide (length ip = 4%nat ∨ length ip = 16%nat) then Addr_String ip
  else "?" +:+ hexString ip.

(** [n.String()] *)
Definition IPNet_String (n : IPNet) : string :=
  let '(nn, m) := networkNumberAndMask n in
  if decide (nn = [] ∨ m = []) then "<nil>"
  else
    let l := simpleMaskLength m in
    if l =? -1 then IP_String nn +:+ "/" +:+ hexString m
    else IP_String nn +:+ "/" +:+ Uitoa l.

#[global] Arguments Uint32 _ : simpl never.
#[global] Arguments Uint64 _ : simpl never.
#[global] Arguments PutUint32 _ : simpl never.
#[global] Arguments PutUint64 _ : simpl never.
#[global] Arguments To4 _ : simpl never.
#[global] Arguments IP_Mask _ _ : simpl never.
#[global] Arguments Mask_Size _ : simpl never.
#[global] Arguments CIDRMask _ _ : simpl never.
#[global] Arguments Contains _ _ : simpl never.
#[global] Arguments IPNet_String _ : simpl never.
#[global] Arguments IP_String _ : simpl never.
