(* ===== verification/CIDRTheory.v ===== *)
(** CIDR blocks as intervals of integers.

    [block w v p] is the [net.IPNet] of width [w] (32 or 128 bits), network
    address [v] and prefix length [p]; [valid_block] is what [net.ParseCIDR]
    guarantees of the networks it returns.  The lemmas carry the byte-level
    operations of [GoNet] ([To4], [IP_Mask], [Contains], [Mask_Size]) over to
    arithmetic on [v] and [p]; [overlaps_spec] is the one the allocator's deep
    check rests on. *)
From S2P Require Import Prelude GoNet.

(** * Big-endian byte strings *)

Definition is_byte (b : Z) : Prop := 0 ≤ b < 256.
Abbreviation bytes l := (Forall is_byte l).

Lemma pow256 (n : Z) : 0 ≤ n → 256 ^ n = 2 ^ (8 * n).
Proof. intros. change 256 with (2 ^ 8). by rewrite <- Z.pow_mul_r by lia. Qed.

Lemma pow2_pos k : 0 ≤ k → 0 < 2 ^ k.
Proof. intros. apply Z.pow_pos_nonneg; lia. Qed.

Lemma be_val_foldl l a : foldl (λ acc b, acc * 256 + b) a l = a * 256 ^ Z.of_nat (length l) + be_val l.
Proof.
  unfold be_val. revert a. induction l as [|x l IH]; intros a; simpl; [lia|].
  rewrite IH, (IH (0 * 256 + x)). replace (Z.of_nat (S (length l))) with (1 + Z.of_nat (length l)) by lia.
  rewrite Z.pow_add_r by lia. lia.
Qed.

Lemma be_val_app l k : be_val (l ++ k) = be_val l * 256 ^ Z.of_nat (length k) + be_val k.
Proof. unfold be_val at 1. rewrite foldl_app. apply be_val_foldl. Qed.

Lemma be_val_cons x l : be_val (x :: l) = x * 256 ^ Z.of_nat (length l) + be_val l.
Proof. apply (be_val_app [x] l). Qed.

Lemma be_val_bound l : bytes l → 0 ≤ be_val l < 256 ^ Z.of_nat (length l).
Proof.
  induction 1 as [|x l Hx _ IH]; [done|]. rewrite be_val_cons. simpl length.
  unfold is_byte in Hx.
  replace (Z.of_nat (S (length l))) with (1 + Z.of_nat (length l)) by lia.
  rewrite Z.pow_add_r by lia. nia.
Qed.

Lemma be_bytes_length n v : length (be_bytes n v) = n.
Proof. induction n; simpl; congruence. Qed.

Lemma be_bytes_bytes n v : bytes (be_bytes n v).
Proof.
  induction n; simpl; constructor; [|done]. apply Z.mod_pos_bound. lia.
Qed.

Lemma be_val_be_bytes n v : be_val (be_bytes n v) = v mod 256 ^ Z.of_nat n.
Proof.
  induction n as [|n IH]; [by rewrite Z.mod_1_r|].
  simpl be_bytes. rewrite be_val_cons, IH, be_bytes_length.
  replace (Z.of_nat (S n)) with (Z.of_nat n + 1) by lia.
  rewrite Z.pow_add_r, Z.rem_mul_r by lia. change (256 ^ 1) with 256. lia.
Qed.

Lemma mul_add_unique x y a b P :
  0 ≤ a < P → 0 ≤ b < P → x * P + a = y * P + b → x = y ∧ a = b.
Proof. intros. apply (Z.div_mod_unique P); lia. Qed.

Lemma be_val_inj l k : bytes l → bytes k → length l = length k → be_val l = be_val k → l = k.
Proof.
  intros Hl. revert k. induction Hl as [|x l Hx Hl IH]; intros [|y k] Hk Hlen Heq; try done.
  inversion Hk as [|?? Hy Hk']; subst. simpl in Hlen. injection Hlen as Hlen.
  rewrite !be_val_cons, Hlen in Heq.
  pose proof (be_val_bound l Hl). pose proof (be_val_bound k Hk').
  rewrite Hlen in *. apply mul_add_unique in Heq as [-> Heq]; [|done|done].
  f_equal. by apply IH.
Qed.

Lemma be_bytes_be_val l n : bytes l → length l = n → be_bytes n (be_val l) = l.
Proof.
  intros Hl <-. apply be_val_inj; [apply be_bytes_bytes|done|apply be_bytes_length|].
  rewrite be_val_be_bytes. apply Z.mod_small, be_val_bound, Hl.
Qed.

Lemma be_bytes_app n m v : 0 ≤ v → be_bytes (n + m) v = be_bytes n (v / 256 ^ Z.of_nat m) ++ be_bytes m v.
Proof.
  intros Hv. induction n as [|n IH]; [done|]. simpl. rewrite IH. f_equal.
  rewrite Nat2Z.inj_add, Z.pow_add_r, Z.div_div by lia. by rewrite Z.mul_comm.
Qed.

Lemma be_bytes_mod n v : be_bytes n (v mod 256 ^ Z.of_nat n) = be_bytes n v.
Proof.
  apply be_val_inj; try apply be_bytes_bytes; [by rewrite !be_bytes_length|].
  rewrite !be_val_be_bytes. apply Z.mod_mod. lia.
Qed.

Lemma take_be_bytes n m v : 0 ≤ v → take n (be_bytes (n + m) v) = be_bytes n (v / 256 ^ Z.of_nat m).
Proof. intros. rewrite be_bytes_app by done. apply take_app_length'. by rewrite be_bytes_length. Qed.

Lemma drop_be_bytes n m v : 0 ≤ v → drop n (be_bytes (n + m) v) = be_bytes m v.
Proof. intros. rewrite be_bytes_app by done. apply drop_app_length'. by rewrite be_bytes_length. Qed.

(** * Bitwise operations on concatenated words *)

Lemma lor_disjoint_add x y k : 0 ≤ k → 0 ≤ y < 2 ^ k → Z.lor (x * 2 ^ k) y = x * 2 ^ k + y.
Proof.
  intros Hk Hy. rewrite Z.add_nocarry_lxor, Z.lxor_lor; [done| |]; apply Z.bits_inj'; intros n Hn;
    rewrite Z.land_spec, Z.bits_0, <- Z.shiftl_mul_pow2 by done;
    (destruct (decide (n < k)); [by rewrite Z.shiftl_spec_low by lia|]);
    rewrite <- (Z.mod_small y (2 ^ k)) by lia; rewrite Z.mod_pow2_bits_high by lia; apply andb_false_r.
Qed.

Lemma testbit_add_low x y k n : 0 ≤ n < k → 0 ≤ y < 2 ^ k →
  Z.testbit (x * 2 ^ k + y) n = Z.testbit y n.
Proof.
  intros Hn Hy. rewrite <- lor_disjoint_add, Z.lor_spec by lia.
  rewrite Z.mul_pow2_bits_low by lia. done.
Qed.

Lemma testbit_add_high x y k n : 0 ≤ k ≤ n → 0 ≤ y < 2 ^ k →
  Z.testbit (x * 2 ^ k + y) n = Z.testbit x (n - k).
Proof.
  intros Hn Hy. rewrite <- lor_disjoint_add, Z.lor_spec by lia.
  rewrite Z.mul_pow2_bits by lia. rewrite <- (Z.mod_small y (2 ^ k)) by lia.
  rewrite Z.mod_pow2_bits_high by lia. apply orb_false_r.
Qed.

Lemma land_add_pow2 x y x' y' k : 0 ≤ k → 0 ≤ y < 2 ^ k → 0 ≤ y' < 2 ^ k →
  Z.land (x * 2 ^ k + y) (x' * 2 ^ k + y') = Z.land x x' * 2 ^ k + Z.land y y'.
Proof.
  intros Hk Hy Hy'. apply Z.bits_inj'. intros n Hn. rewrite Z.land_spec.
  assert (0 ≤ Z.land y y' < 2 ^ k) as Hland.
  { split; [apply Z.land_nonneg; lia|].
    rewrite <- (Z.mod_small y (2 ^ k)) by lia. rewrite <- Z.land_ones by lia.
    rewrite (Z.land_comm _ (Z.ones k)), <- Z.land_assoc, Z.land_comm, Z.land_ones by lia.
    apply Z.mod_pos_bound. lia. }
  destruct (decide (n < k)).
  - by rewrite !testbit_add_low, Z.land_spec by lia.
  - by rewrite !testbit_add_high, Z.land_spec by lia.
Qed.

Lemma be_val_land l k : bytes l → bytes k → length l = length k →
  be_val (land_bytes l k) = Z.land (be_val l) (be_val k).
Proof.
  intros Hl. revert k. induction Hl as [|x l Hx Hl IH]; intros [|y k] Hk Hlen; try done.
  inversion Hk; subst. simpl in Hlen. injection Hlen as Hlen.
  unfold land_bytes in *. simpl. rewrite !be_val_cons, IH by done.
  rewrite length_zip_with, Hlen, Nat.min_id, pow256 by lia.
  rewrite land_add_pow2; [done|lia|..]; rewrite <- pow256 by lia; [rewrite <- Hlen|]; by apply be_val_bound.
Qed.

Lemma land_bytes_bytes l k : bytes l → bytes k → bytes (land_bytes l k).
Proof.
  intros Hl. revert k. induction Hl as [|x l Hx Hl IH]; intros [|y k] Hk; simpl; try constructor.
  - inversion Hk; subst. unfold is_byte in *. split; [apply Z.land_nonneg; lia|].
    rewrite <- (Z.mod_small x (2 ^ 8)) by lia. rewrite <- Z.land_ones by lia.
    rewrite (Z.land_comm x), <- Z.land_assoc, Z.land_comm, Z.land_ones by lia.
    apply (Z.mod_pos_bound _ 256). lia.
  - inversion Hk; subst. by apply IH.
Qed.

Lemma land_bytes_length l k : length l = length k → length (land_bytes l k) = length l.
Proof. intros. unfold land_bytes. rewrite length_zip_with. lia. Qed.

(** * Network masks *)

Lemma leadingOnes_mask n : 0 ≤ n ≤ 8 → leadingOnes 8 (255 - Z.shiftr 255 n) = n.
Proof.
  intros Hn. assert (Forall (λ n, leadingOnes 8 (255 - Z.shiftr 255 n) = n) (seqZ 0 9)) as H.
  { vm_compute. repeat constructor. }
  rewrite Forall_seqZ in H. apply H. lia.
Qed.

Lemma mask_byte n : 0 ≤ n ≤ 8 → 255 - Z.shiftr 255 n = 256 - 2 ^ (8 - n).
Proof.
  intros Hn. assert (Forall (λ n, 255 - Z.shiftr 255 n = 256 - 2 ^ (8 - n)) (seqZ 0 9)) as H.
  { vm_compute. repeat constructor. }
  rewrite Forall_seqZ in H. apply H. lia.
Qed.

Lemma maskBytes_length l n : length (maskBytes l n) = l.
Proof. revert n. induction l as [|l IH]; intros n; simpl; [done|]. case_match; simpl; by rewrite IH. Qed.

Lemma maskBytes_bytes l n : 0 ≤ n → bytes (maskBytes l n).
Proof.
  revert n. induction l as [|l IH]; intros n Hn; simpl; [constructor|].
  destruct (Z.leb_spec 8 n); constructor; try (apply IH; lia); unfold is_byte; [lia|].
  rewrite mask_byte by lia. pose proof (pow2_pos (8 - n)).
  assert (2 ^ (8 - n) ≤ 2 ^ 8) by (apply Z.pow_le_mono_r; lia). lia.
Qed.

Lemma maskBytes_0_forallb l : forallb (Z.eqb 0) (maskBytes l 0) = true.
Proof. by induction l. Qed.

Lemma simpleMaskLength_maskBytes l n : 0 ≤ n ≤ 8 * Z.of_nat l → simpleMaskLength (maskBytes l n) = n.
Proof.
  revert n. induction l as [|l IH]; intros n Hn; cbn [maskBytes]; [simpl; lia|].
  destruct (Z.leb_spec 8 n) as [H8|H8]; cbn [simpleMaskLength].
  - rewrite Z.eqb_refl, IH by lia. destruct (Z.eqb_spec (n - 8) (-1)); lia.
  - assert (255 - Z.shiftr 255 n ≠ 255) as Hne.
    { rewrite mask_byte by lia. intros Heq.
      assert (2 ^ 1 ≤ 2 ^ (8 - n)) by (apply Z.pow_le_mono_r; lia). lia. }
    apply Z.eqb_neq in Hne. rewrite Hne, leadingOnes_mask, maskBytes_0_forallb by lia.
    rewrite mask_byte, Z.eqb_refl by lia. done.
Qed.

Lemma be_val_maskBytes l n : 0 ≤ n ≤ 8 * Z.of_nat l →
  be_val (maskBytes l n) = 2 ^ (8 * Z.of_nat l) - 2 ^ (8 * Z.of_nat l - n).
Proof.
  revert n. induction l as [|l IH]; intros n Hn; cbn [maskBytes].
  { assert (n = 0) as -> by lia. done. }
  replace (8 * Z.of_nat (S l)) with (8 + 8 * Z.of_nat l) in * by lia.
  destruct (Z.leb_spec 8 n) as [H8|H8]; rewrite be_val_cons, maskBytes_length, pow256, IH by lia.
  - replace (8 + 8 * Z.of_nat l - n) with (8 * Z.of_nat l - (n - 8)) by lia.
    rewrite Z.pow_add_r by lia. lia.
  - rewrite mask_byte, Z.sub_0_r by lia.
    replace (8 + 8 * Z.of_nat l - n) with ((8 - n) + 8 * Z.of_nat l) by lia.
    rewrite !Z.pow_add_r by lia. lia.
Qed.

(** Clearing the host bits. *)
Definition trunc (k x : Z) : Z := x - x mod 2 ^ k.

Lemma land_mask w k x : 0 ≤ k ≤ w → 0 ≤ x < 2 ^ w → Z.land x (2 ^ w - 2 ^ k) = trunc k x.
Proof.
  intros Hk Hx. unfold trunc. pose proof (pow2_pos k).
  assert (2 ^ w = 2 ^ (w - k) * 2 ^ k) as Hw by (rewrite <- Z.pow_add_r by lia; f_equal; lia).
  replace (2 ^ w - 2 ^ k) with ((2 ^ (w - k) - 1) * 2 ^ k + 0) by lia.
  pose proof (Z.div_mod x (2 ^ k)) as Hdm. rewrite (Z.mul_comm (2 ^ k)) in Hdm.
  rewrite Hdm at 1 by lia. pose proof (Z.mod_pos_bound x (2 ^ k)).
  rewrite land_add_pow2, Z.land_0_r by lia.
  replace (2 ^ (w - k) - 1) with (Z.ones (w - k)) by (rewrite Z.ones_equiv; lia).
  rewrite Z.land_ones, Z.mod_small by lia || (split; [apply Z.div_pos; lia|apply Z.div_lt_upper_bound; lia]).
  lia.
Qed.

Lemma trunc_bound k x : 0 ≤ k → 0 ≤ x → 0 ≤ trunc k x ≤ x.
Proof.
  intros Hk Hx. unfold trunc. pose proof (pow2_pos k). pose proof (Z.mod_pos_bound x (2 ^ k)).
  pose proof (Z.mod_le x (2 ^ k)). lia.
Qed.

Lemma trunc_mul k x : 0 ≤ k → trunc k x = x / 2 ^ k * 2 ^ k.
Proof. intros Hk. unfold trunc. pose proof (pow2_pos k). pose proof (Z.div_mod x (2 ^ k)). lia. Qed.

Lemma trunc_id k x : x mod 2 ^ k = 0 → trunc k x = x.
Proof. unfold trunc. lia. Qed.

Lemma trunc_div k x : 0 ≤ k → trunc k x / 2 ^ k = x / 2 ^ k.
Proof. intros. rewrite trunc_mul by done. apply Z.div_mul. pose proof (pow2_pos k). lia. Qed.

(** Two aligned blocks meet exactly when one contains the other's base. *)
Lemma aligned_overlap k1 v1 k2 v2 :
  0 ≤ k1 → 0 ≤ k2 → v1 mod 2 ^ k1 = 0 → v2 mod 2 ^ k2 = 0 →
  (v2 / 2 ^ k1 = v1 / 2 ^ k1 ∨ v1 / 2 ^ k2 = v2 / 2 ^ k2)
  ↔ ∃ x, v1 ≤ x < v1 + 2 ^ k1 ∧ v2 ≤ x < v2 + 2 ^ k2.
Proof.
  intros Hk1 Hk2 Hv1 Hv2. pose proof (pow2_pos k1 Hk1). pose proof (pow2_pos k2 Hk2).
  pose proof (Z.div_mod v1 (2 ^ k1)) as D1. pose proof (Z.div_mod v2 (2 ^ k2)) as D2.
  pose proof (Z.div_mod v1 (2 ^ k2)) as D12. pose proof (Z.div_mod v2 (2 ^ k1)) as D21.
  pose proof (Z.mod_pos_bound v1 (2 ^ k2)). pose proof (Z.mod_pos_bound v2 (2 ^ k1)).
  split.
  - intros [Heq|Heq]; [exists v2|exists v1]; rewrite Heq in *; lia.
  - intros [x [Hx1 Hx2]]. destruct (Z.le_ge_cases v1 v2) as [Hle|Hle]; [left|right].
    + symmetry. apply (Z.div_unique _ _ _ (v2 - v1)); lia.
    + symmetry. apply (Z.div_unique _ _ _ (v1 - v2)); lia.
Qed.

(** * Blocks *)

(** The address [v] of a family of width [w] as a slice of [w/8] bytes. *)
Definition ipOf (w v : Z) : IP := be_bytes (Z.to_nat (w / 8)) v.
Definition block (w v p : Z) : IPNet := mkIPNet (ipOf w v) (CIDRMask p w).

Lemma block_IP w v p : IPNet_IP (block w v p) = ipOf w v.
Proof. done. Qed.

Lemma block_Mask w v p : IPNet_Mask (block w v p) = CIDRMask p w.
Proof. done. Qed.

(** A 16-byte address in [::ffff:0:0/96] is the IPv4 address it maps, not an
    IPv6 one; [valid_addr] leaves these out. *)
Definition valid_addr (w v : Z) : Prop :=
  (w = 32 ∨ w = 128) ∧ 0 ≤ v < 2 ^ w ∧ (w = 128 → v / 2 ^ 32 ≠ 65535).

Record valid_block (w v p : Z) : Prop := {
  vb_addr : valid_addr w v;
  vb_len : 0 ≤ p ≤ w;
  vb_aligned : v mod 2 ^ (w - p) = 0
}.

#[export] Instance valid_addr_dec w v : Decision (valid_addr w v).
Proof. unfold valid_addr. apply _. Defined.

#[export] Instance valid_block_dec w v p : Decision (valid_block w v p).
Proof.
  refine (cast_if (decide (valid_addr w v ∧ 0 ≤ p ≤ w ∧ v mod 2 ^ (w - p) = 0))).
  - abstract (destruct_and!; by split).
  - abstract (intros []; naive_solver).
Defined.

Lemma width_bytes w : w = 32 ∨ w = 128 → 8 * Z.of_nat (Z.to_nat (w / 8)) = w.
Proof. by intros [->| ->]. Qed.

Lemma ipOf_length w v : length (ipOf w v) = Z.to_nat (w / 8).
Proof. apply be_bytes_length. Qed.

Lemma be_val_ipOf w v : valid_addr w v → be_val (ipOf w v) = v.
Proof.
  intros (Hw & Hv & _). unfold ipOf. rewrite be_val_be_bytes, pow256, width_bytes by (done || lia).
  by apply Z.mod_small.
Qed.

Lemma ipOf_inj w v v' : valid_addr w v → valid_addr w v' → ipOf w v = ipOf w v' → v = v'.
Proof. intros Hv Hv' Heq. rewrite <- (be_val_ipOf w v), <- (be_val_ipOf w v') by done. by f_equal. Qed.

Lemma take_ipOf128 n m v : (n + m = 16)%nat → 0 ≤ v → take n (ipOf 128 v) = be_bytes n (v / 256 ^ Z.of_nat m).
Proof. intros Hnm Hv. unfold ipOf. change (Z.to_nat (128 / 8)) with 16%nat. rewrite <- Hnm. by apply take_be_bytes. Qed.

Lemma drop_ipOf128 n m v : (n + m = 16)%nat → 0 ≤ v → drop n (ipOf 128 v) = be_bytes m v.
Proof. intros Hnm Hv. unfold ipOf. change (Z.to_nat (128 / 8)) with 16%nat. rewrite <- Hnm. by apply drop_be_bytes. Qed.

Lemma not_mapped v : valid_addr 128 v → take 12 (ipOf 128 v) ≠ v4InV6Prefix.
Proof.
  intros (_ & Hv & Hm) Heq. rewrite (take_ipOf128 12 4) in Heq by lia.
  apply (f_equal be_val) in Heq. rewrite be_val_be_bytes in Heq.
  change (be_val v4InV6Prefix) with 65535 in Heq. change (256 ^ Z.of_nat 4) with (2 ^ 32) in Heq.
  rewrite Z.mod_small in Heq; [by apply Hm|]. change (256 ^ Z.of_nat 12) with (2 ^ 96).
  split; [apply Z.div_pos; lia|]. apply Z.div_lt_upper_bound; lia.
Qed.

Lemma To4_ipOf w v : valid_addr w v → To4 (ipOf w v) = if decide (w = 32) then Some (ipOf w v) else None.
Proof.
  intros Hv. destruct (Hv) as ([->| ->] & _); unfold To4; rewrite ipOf_length; simpl; [done|].
  destruct (decide _) as [[_ Hm]|_]; [|done]. by apply not_mapped in Hm.
Qed.

Lemma default_To4_ipOf w v : valid_addr w v → default (ipOf w v) (To4 (ipOf w v)) = ipOf w v.
Proof. intros Hv. rewrite To4_ipOf by done. by destruct (decide _). Qed.

Lemma trunc_valid_addr w k v : 0 ≤ k → valid_addr w v → valid_addr w (trunc k v).
Proof.
  intros Hk (Hw & Hv & Hm). pose proof (trunc_bound k v Hk).
  split; [done|]. split; [lia|]. intros E Heq. apply (Hm E). clear Hm E Hw.
  assert (k ≤ 32 ∨ 32 < k) as [Hle|Hgt] by lia.
  - rewrite <- Heq. rewrite trunc_mul by done.
    assert (2 ^ 32 = 2 ^ k * 2 ^ (32 - k)) as -> by (rewrite <- Z.pow_add_r by lia; f_equal; lia).
    pose proof (pow2_pos k). pose proof (pow2_pos (32 - k)).
    rewrite <- !Z.div_div by lia. by rewrite Z.div_mul by lia.
  - exfalso. rewrite trunc_mul in Heq by done.
    assert (2 ^ k = 2 ^ (k - 33) * 2 * 2 ^ 32) as Hpk.
    { change (2 ^ (k - 33) * 2) with (2 ^ (k - 33) * 2 ^ 1). rewrite <- !Z.pow_add_r by lia.
      f_equal; lia. }
    rewrite Hpk, Z.mul_assoc, Z.div_mul in Heq by lia. lia.
Qed.

Lemma CIDRMask_maskBytes w p : w = 32 ∨ w = 128 → 0 ≤ p ≤ w → CIDRMask p w = maskBytes (Z.to_nat (w / 8)) p.
Proof.
  intros Hw Hp. unfold CIDRMask. assert ((w =? 32) || (w =? 128) = true) as -> by (destruct Hw as [->| ->]; done).
  destruct (Z.ltb_spec p 0), (Z.ltb_spec w p); simpl; lia || done.
Qed.

Lemma CIDRMask_length w p : w = 32 ∨ w = 128 → 0 ≤ p ≤ w → length (CIDRMask p w) = Z.to_nat (w / 8).
Proof. intros. by rewrite CIDRMask_maskBytes, maskBytes_length by done. Qed.

Lemma Mask_Size_CIDRMask w p : w = 32 ∨ w = 128 → 0 ≤ p ≤ w → Mask_Size (CIDRMask p w) = (p, w).
Proof.
  intros Hw Hp. pose proof (width_bytes w Hw). unfold Mask_Size.
  rewrite CIDRMask_length, CIDRMask_maskBytes, simpleMaskLength_maskBytes by (done || lia).
  destruct (Z.eqb_spec p (-1)); f_equal; lia.
Qed.

Lemma be_val_CIDRMask w p : w = 32 ∨ w = 128 → 0 ≤ p ≤ w → be_val (CIDRMask p w) = 2 ^ w - 2 ^ (w - p).
Proof.
  intros Hw Hp. pose proof (width_bytes w Hw) as E.
  rewrite CIDRMask_maskBytes, be_val_maskBytes by (done || lia). by rewrite E.
Qed.

Lemma CIDRMask_bytes w p : w = 32 ∨ w = 128 → 0 ≤ p ≤ w → bytes (CIDRMask p w).
Proof. intros. rewrite CIDRMask_maskBytes by done. apply maskBytes_bytes. lia. Qed.

Lemma land_ipOf_mask w v p : valid_addr w v → 0 ≤ p ≤ w →
  land_bytes (ipOf w v) (CIDRMask p w) = ipOf w (trunc (w - p) v).
Proof.
  intros Hv Hp. destruct (Hv) as (Hw & Hb & _).
  assert (length (ipOf w v) = length (CIDRMask p w)) as Hlen by (by rewrite ipOf_length, CIDRMask_length).
  apply be_val_inj.
  - apply land_bytes_bytes; [apply be_bytes_bytes|by apply CIDRMask_bytes].
  - apply be_bytes_bytes.
  - by rewrite land_bytes_length, !ipOf_length.
  - rewrite be_val_land by (done || apply be_bytes_bytes || by apply CIDRMask_bytes).
    rewrite be_val_ipOf, be_val_CIDRMask, land_mask by (done || lia).
    by rewrite be_val_ipOf by (apply trunc_valid_addr; [lia|done]).
Qed.

Lemma IP_Mask_ipOf w v p : valid_addr w v → 0 ≤ p ≤ w →
  IP_Mask (ipOf w v) (CIDRMask p w) = ipOf w (trunc (w - p) v).
Proof.
  intros Hv Hp. destruct (Hv) as (Hw & _). rewrite <- land_ipOf_mask by done.
  pose proof (ipOf_length w v) as Hl1. pose proof (CIDRMask_length w p Hw Hp) as Hl2.
  unfold IP_Mask.
  destruct (decide (length (CIDRMask p w) = 16%nat ∧ _)) as [(? & ? & _)|_]; [congruence|].
  destruct (decide (_ ∧ _)) as [(? & ? & _)|_]; [congruence|].
  by rewrite decide_True by congruence.
Qed.

Lemma networkNumberAndMask_block w v p : valid_addr w v → 0 ≤ p ≤ w →
  networkNumberAndMask (block w v p) = (ipOf w v, CIDRMask p w).
Proof.
  intros Hv Hp. destruct (Hv) as (Hw & _).
  pose proof (ipOf_length w v) as Hl1. pose proof (CIDRMask_length w p Hw Hp) as Hl2.
  unfold networkNumberAndMask, block; simpl. rewrite To4_ipOf by done.
  destruct Hw as [->| ->]; simpl in *; rewrite ?Hl1, ?Hl2; simpl; done.
Qed.

Lemma Contains_block w v p x : valid_addr w v → 0 ≤ p ≤ w → valid_addr w x →
  Contains (block w v p) (ipOf w x) = bool_decide (x / 2 ^ (w - p) = v / 2 ^ (w - p)).
Proof.
  intros Hv Hp Hx. unfold Contains. rewrite networkNumberAndMask_block by done.
  rewrite default_To4_ipOf, !ipOf_length, !land_ipOf_mask by done.
  rewrite (bool_decide_true (Z.to_nat _ = _)) by done. simpl.
  apply bool_decide_ext. pose proof (pow2_pos (w - p)).
  split.
  - intros Heq%ipOf_inj; try (apply trunc_valid_addr; [lia|done]).
    rewrite !trunc_mul in Heq by lia. apply Z.mul_reg_r in Heq; lia.
  - intros Heq. rewrite !trunc_mul, Heq by lia. done.
Qed.

(** The intersection test the source writes three times: one block contains the
    other's address masked to its own prefix, or the converse. *)
Definition overlaps (a b : IPNet) : bool :=
  Contains a (IP_Mask (IPNet_IP b) (IPNet_Mask a)) || Contains b (IP_Mask (IPNet_IP a) (IPNet_Mask b)).

Definition in_block (w v p x : Z) : Prop := v ≤ x < v + 2 ^ (w - p).

Lemma overlaps_div w v1 p1 v2 p2 : valid_block w v1 p1 → valid_block w v2 p2 →
  overlaps (block w v1 p1) (block w v2 p2) = true
  ↔ v2 / 2 ^ (w - p1) = v1 / 2 ^ (w - p1) ∨ v1 / 2 ^ (w - p2) = v2 / 2 ^ (w - p2).
Proof.
  intros [A1 L1 _] [A2 L2 _]. unfold overlaps. rewrite !block_IP, !block_Mask.
  rewrite !IP_Mask_ipOf by done.
  rewrite !Contains_block by (done || apply trunc_valid_addr; done || lia).
  rewrite !trunc_div by lia. rewrite orb_true_iff, !bool_decide_eq_true. tauto.
Qed.

(** The test is exact: it holds when the two blocks share an address. *)
Lemma overlaps_spec w v1 p1 v2 p2 : valid_block w v1 p1 → valid_block w v2 p2 →
  overlaps (block w v1 p1) (block w v2 p2) = true ↔ ∃ x, in_block w v1 p1 x ∧ in_block w v2 p2 x.
Proof.
  intros V1 V2. rewrite overlaps_div by done.
  pose proof (vb_len _ _ _ V1). pose proof (vb_len _ _ _ V2).
  apply aligned_overlap; [lia|lia|apply V1|apply V2].
Qed.

Lemma overlaps_comm a b : overlaps a b = overlaps b a.
Proof. apply orb_comm. Qed.

(** Every address of a block is a valid one when the block lies above
    [::/80], the range that holds the IPv4-mapped addresses. *)
Lemma in_block_valid w v p x : valid_block w v p → (w = 128 → 2 ^ 48 ≤ v) →
  in_block w v p x → valid_addr w x.
Proof.
  intros [(Hw & Hv & Hm) Hp Ha] Hs [Hx1 Hx2]. split; [done|].
  pose proof (Z.div_mod v (2 ^ (w - p))) as D. pose proof (pow2_pos (w - p)).
  assert (2 ^ w = 2 ^ p * 2 ^ (w - p)) as E by (rewrite <- Z.pow_add_r by lia; f_equal; lia).
  assert (v / 2 ^ (w - p) < 2 ^ p) by (apply Z.div_lt_upper_bound; lia).
  split; [nia|]. intros E128. specialize (Hs E128).
  assert (65536 ≤ x / 2 ^ 32) by (apply Z.div_le_lower_bound; lia). lia.
Qed.
