(* ===== verification/CIDRText.v ===== *)
(** The text form of a CIDR can be read back: [parseCIDR] is a reader for what
    [IPNet.String] writes, and [parseCIDR_String] the round trip.  Two uses: the
    injectivity of [IPNet_String], on which the allocation map keyed by CIDR
    strings rests ([IPNet_String_inj]), and a concrete parser with which the
    interface of [NetUtils] can be instantiated. *)
From Stdlib Require Import Ascii.
From S2P Require Import Prelude GoNet CIDRTheory.

(** * Splitting at a character *)

Fixpoint split_on (c : ascii) (s : string) : list string :=
  match s with
  | EmptyString => [EmptyString]
  | String a s =>
      let r := split_on c s in
      if decide (a = c) then EmptyString :: r
      else match r with [] => [String a EmptyString] | h :: t => String a h :: t end
  end.

Fixpoint no_char (c : ascii) (s : string) : bool :=
  match s with
  | EmptyString => true
  | String a s => bool_decide (a ≠ c) && no_char c s
  end.

Lemma split_on_sep c s t : no_char c s → split_on c (s +:+ String c t) = s :: split_on c t.
Proof.
  induction s as [|a s IH]; simpl.
  - by rewrite decide_True.
  - intros [Ha%bool_decide_unpack Hs]%andb_prop_elim. rewrite decide_False by done. by rewrite IH.
Qed.

Lemma split_on_none c s : no_char c s → split_on c s = [s].
Proof.
  induction s as [|a s IH]; simpl; [done|].
  intros [Ha%bool_decide_unpack Hs]%andb_prop_elim. rewrite decide_False by done. by rewrite IH.
Qed.

Lemma string_app_nil (b : string) : EmptyString +:+ b = b.
Proof. done. Qed.

Lemma string_app_cons c (a b : string) : String c a +:+ b = String c (a +:+ b).
Proof. done. Qed.

Lemma string_app_assoc (a b c : string) : (a +:+ b) +:+ c = a +:+ (b +:+ c).
Proof. induction a as [|x a IH]; [done|].
  change (String x ((a +:+ b) +:+ c) = String x (a +:+ (b +:+ c))). by rewrite IH. Qed.

Lemma join_cons sep s l : l ≠ [] → join sep (s :: l) = s +:+ sep +:+ join sep l.
Proof. by destruct l. Qed.

(** The fields of a joined list: joining nothing still leaves one empty field. *)
Definition fields (l : list string) : list string :=
  match l with [] => [EmptyString] | _ => l end.

Abbreviation char_str c := (String c EmptyString).

Lemma split_on_join_sep c l t : Forall (no_char c) l →
  split_on c (join (char_str c) l +:+ String c t) = fields l ++ split_on c t.
Proof.
  induction 1 as [|s l Hs Hl IH]; [simpl; by rewrite decide_True|].
  destruct l as [|s' l]; [by apply split_on_sep|].
  rewrite join_cons, !string_app_assoc by done.
  rewrite (string_app_cons c EmptyString). rewrite string_app_nil.
  by rewrite split_on_sep, IH.
Qed.

Lemma split_on_join c l : Forall (no_char c) l → split_on c (join (char_str c) l) = fields l.
Proof.
  induction 1 as [|s l Hs Hl IH]; [done|].
  destruct l as [|s' l]; [by apply split_on_none|].
  rewrite join_cons by done. rewrite (string_app_cons c EmptyString). rewrite string_app_nil.
  by rewrite split_on_sep, IH.
Qed.

(** * Digits *)

Definition digitVal (a : ascii) : option Z :=
  let n := Z.of_nat (nat_of_ascii a) in
  if (48 <=? n) && (n <=? 57) then Some (n - 48)
  else if (97 <=? n) && (n <=? 102) then Some (n - 87)
  else None.

Fixpoint parseDigits (base acc : Z) (s : string) : option Z :=
  match s with
  | EmptyString => Some acc
  | String a s =>
      match digitVal a with
      | Some d => if d <? base then parseDigits base (acc * base + d) s else None
      | None => None
      end
  end.

Definition parseNat (base : Z) (s : string) : option Z :=
  match s with EmptyString => None | _ => parseDigits base 0 s end.

Definition plain (s : string) : bool :=
  no_char "/" s && no_char "." s && no_char ":" s && bool_decide (s ≠ EmptyString).

(** Decimal bytes and hexadecimal digits are finite: their round trips are
    checked by running them. *)
Lemma Uitoa_roundtrip n : 0 ≤ n < 256 → parseNat 10 (Uitoa n) = Some n ∧ plain (Uitoa n) = true.
Proof.
  intros Hn.
  assert (forallb (λ n, bool_decide (parseNat 10 (Uitoa n) = Some n) && plain (Uitoa n)) (seqZ 0 256) = true) as H
    by (vm_compute; done).
  rewrite forallb_forall in H. specialize (H n). rewrite <- list_elem_of_In, elem_of_seqZ in H.
  specialize (H ltac:(lia)). apply andb_prop in H as [H1 H2].
  apply bool_decide_eq_true in H1. done.
Qed.

Definition plainChar (a : ascii) : bool :=
  bool_decide (a ≠ "/"%char) && bool_decide (a ≠ "."%char) && bool_decide (a ≠ ":"%char).

Lemma hexDigit_roundtrip n : 0 ≤ n < 16 → digitVal (hexDigit n) = Some n ∧ plainChar (hexDigit n) = true.
Proof.
  intros Hn.
  assert (forallb (λ n, bool_decide (digitVal (hexDigit n) = Some n) && plainChar (hexDigit n)) (seqZ 0 16) = true) as H
    by (vm_compute; done).
  rewrite forallb_forall in H. specialize (H n). rewrite <- list_elem_of_In, elem_of_seqZ in H.
  specialize (H ltac:(lia)). apply andb_prop in H as [H1 H2].
  apply bool_decide_eq_true in H1. done.
Qed.

Lemma parseDigits_hexDigit acc n s : 0 ≤ n < 16 →
  parseDigits 16 acc (String (hexDigit n) s) = parseDigits 16 (acc * 16 + n) s.
Proof.
  intros Hn. cbn [parseDigits]. rewrite (proj1 (hexDigit_roundtrip n Hn)).
  destruct (Z.ltb_spec n 16); [done|lia].
Qed.

Lemma no_char_hexDigit c n s : c = "/"%char ∨ c = "."%char ∨ c = ":"%char → 0 ≤ n < 16 →
  no_char c (String (hexDigit n) s) = no_char c s.
Proof.
  intros Hc Hn. destruct (hexDigit_roundtrip n Hn) as [_ H].
  apply andb_prop in H as [[H1 H2]%andb_prop H3]. cbn [no_char].
  destruct Hc as [->|[->| ->]]; by rewrite ?H1, ?H2, ?H3.
Qed.

(** The significant nibbles of a 16-bit group. *)
Definition nibbles (x : Z) : list Z :=
  (if 4096 <=? x then [x / 4096] else []) ++ (if 256 <=? x then [x / 256 mod 16] else []) ++
  (if 16 <=? x then [x / 16 mod 16] else []) ++ [x mod 16].

Lemma hex16_nibbles x : 0 ≤ x → hex16 x = foldr (λ d s, String (hexDigit d) s) EmptyString (nibbles x).
Proof.
  intros Hx. unfold hex16, nibbles. change 15 with (Z.ones 4).
  rewrite !Z.land_ones, !Z.shiftr_div_pow2 by lia.
  change (2 ^ 12) with 4096. change (2 ^ 8) with 256. change (2 ^ 4) with 16.
  by destruct (4096 <=? x), (256 <=? x), (16 <=? x).
Qed.

Lemma nibbles_range x : 0 ≤ x < 65536 → Forall (λ d, 0 ≤ d < 16) (nibbles x).
Proof.
  intros Hx. unfold nibbles.
  repeat apply Forall_app_2; repeat case_match; repeat constructor;
    try (apply Z.mod_pos_bound; lia); try (apply Z.div_pos; lia); apply Z.div_lt_upper_bound; lia.
Qed.

Lemma nibbles_value x : 0 ≤ x → foldl (λ acc d, acc * 16 + d) 0 (nibbles x) = x.
Proof.
  intros Hx. unfold nibbles.
  pose proof (Z.div_mod x 16). pose proof (Z.div_mod (x / 16) 16). pose proof (Z.div_mod (x / 256) 16).
  assert (x / 16 / 16 = x / 256) as E1 by (by rewrite Z.div_div by lia).
  assert (x / 256 / 16 = x / 4096) as E2 by (by rewrite Z.div_div by lia).
  rewrite E1, E2 in *.
  pose proof (Z.div_pos x 4096). pose proof (Z.mod_pos_bound (x / 256) 16).
  pose proof (Z.mod_pos_bound (x / 16) 16). pose proof (Z.mod_pos_bound x 16).
  destruct (Z.leb_spec 4096 x), (Z.leb_spec 256 x), (Z.leb_spec 16 x); simpl; lia.
Qed.

Lemma hex16_roundtrip x : 0 ≤ x < 65536 → parseNat 16 (hex16 x) = Some x ∧ plain (hex16 x) = true.
Proof.
  intros Hx. pose proof (nibbles_range x Hx) as Hr. pose proof (nibbles_value x ltac:(lia)) as Hv.
  rewrite hex16_nibbles by lia.
  assert (nibbles x ≠ []) as Hne by (unfold nibbles; intros []%app_eq_nil; destruct (16 <=? x), (256 <=? x); done).
  split.
  - assert (∀ acc l, Forall (λ d, 0 ≤ d < 16) l →
      parseDigits 16 acc (foldr (λ d s, String (hexDigit d) s) EmptyString l)
      = Some (foldl (λ acc d, acc * 16 + d) acc l)) as Hp.
    { intros acc l Hl. revert acc. induction Hl as [|d l Hd Hl IH]; intros acc; [done|].
      cbn [foldr foldl]. by rewrite parseDigits_hexDigit, IH. }
    unfold parseNat. rewrite <- Hv at 2. rewrite <- Hp by done. by destruct (nibbles x).
  - assert (∀ c l, c = "/"%char ∨ c = "."%char ∨ c = ":"%char → Forall (λ d, 0 ≤ d < 16) l →
      no_char c (foldr (λ d s, String (hexDigit d) s) EmptyString l) = true) as Hp.
    { intros c l Hc. induction 1 as [|d l Hd Hl IH]; [done|]. cbn [foldr]. by rewrite no_char_hexDigit. }
    unfold plain. rewrite !Hp by auto. by destruct (nibbles x).
Qed.

(** * Zero compression *)

Lemma zeroRun_take g : take (zeroRun g) g = replicate (zeroRun g) 0 ∧ (zeroRun g ≤ length g)%nat.
Proof.
  induction g as [|x g [IH1 IH2]]; [done|]. destruct x; [|split; simpl; [done|lia]..]. simpl. rewrite IH1. split; [done|lia].
Qed.

Definition zero_slice (g : list Z) (r : nat * nat) : Prop :=
  r.2 = 0%nat ∨ (take r.2 (drop r.1 g) = replicate r.2 0 ∧ (r.1 + r.2 ≤ length g)%nat).

Lemma bestZeroRun_slice pre g best : zero_slice (pre ++ g) best →
  zero_slice (pre ++ g) (bestZeroRun (length pre) g best).
Proof.
  revert pre best. induction g as [|x g IH]; intros pre best Hb; [done|].
  cbn [bestZeroRun]. set (b := if decide _ then _ else _).
  assert (zero_slice (pre ++ x :: g) b) as Hb'.
  { subst b. case_decide; [|done]. right. cbn [fst snd].
    destruct (zeroRun_take (x :: g)) as [Ht Hl]. rewrite drop_app_length, length_app. split; [done|].
    by apply Nat.add_le_mono_l. }
  specialize (IH (pre ++ [x]) b). rewrite <- app_assoc, length_app, Nat.add_1_r in IH.
  by apply IH.
Qed.

Lemma zero_slice_split g s l : zero_slice g (s, l) → l ≠ 0%nat →
  g = take s g ++ replicate l 0 ++ drop (s + l) g ∧
  (length (take s g) + l + length (drop (s + l) g) = length g)%nat.
Proof.
  intros [H|[H Hle]] Hl; [done|]. simpl in *. split.
  - by rewrite <- H, <- drop_drop, !take_drop.
  - rewrite length_take, length_drop. lia.
Qed.

(** * Reading addresses *)

Fixpoint ungroups (g : list Z) : list Z :=
  match g with [] => [] | x :: g => x / 256 :: x mod 256 :: ungroups g end.

Lemma groups_ind (P : list Z → Prop) :
  P [] → (∀ a, P [a]) → (∀ a b l, P l → P (a :: b :: l)) → ∀ l, P l.
Proof.
  intros H0 H1 H2. assert (∀ l, P l ∧ ∀ a, P (a :: l)) as H by (intros l; induction l as [|a l [IH1 IH2]]; split; auto).
  apply H.
Qed.

Lemma ungroups_groups l n : bytes l → length l = (2 * n)%nat → ungroups (groups l) = l.
Proof.
  revert n. induction l as [|a|a b l IH] using groups_ind; intros n Hb Hl; [done|simpl in Hl; lia|].
  inversion Hb as [|?? Ha Hb']; subst. inversion Hb' as [|?? Hb1 Hb2]; subst. unfold is_byte in *.
  destruct n as [|n]; [simpl in Hl; lia|]. simpl in *. rewrite (IH n) by (done || lia).
  rewrite Z.div_add_l, (Z.div_small b), Z.add_0_r by lia.
  rewrite Z.add_comm, Z.mod_add, Z.mod_small by lia. done.
Qed.

Lemma groups_range l : bytes l → Forall (λ x, 0 ≤ x < 65536) (groups l).
Proof.
  induction l as [|a|a b l IH] using groups_ind; intros Hb; [constructor|constructor|].
  inversion Hb as [|?? Ha Hb']; subst. inversion Hb'; subst. unfold is_byte in *.
  constructor; [lia|auto].
Qed.

Lemma groups_length l n : length l = (2 * n)%nat → length (groups l) = n.
Proof.
  revert n. induction l as [|a|a b l IH] using groups_ind; intros n Hl; simpl in *; try lia.
  destruct n; [lia|]. rewrite (IH n); lia.
Qed.

Fixpoint span_nonempty (l : list string) : list string * list string :=
  match l with
  | [] => ([], [])
  | s :: l' => if decide (s = EmptyString) then ([], l)
               else let '(a, b) := span_nonempty l' in (s :: a, b)
  end.

Fixpoint drop_empty (l : list string) : list string :=
  match l with
  | [] => []
  | s :: l' => if decide (s = EmptyString) then drop_empty l' else l
  end.

Definition parseIPv6 (a : string) : option IP :=
  let f := split_on ":" a in
  let '(hi, rest) := span_nonempty f in
  let lo := drop_empty rest in
  hi ← mapM (parseNat 16) hi;
  lo ← mapM (parseNat 16) lo;
  let g := hi ++ replicate (8 - length hi - length lo) 0 ++ lo in
  if decide (length g = 8%nat) then Some (ungroups g) else None.

Definition parseIPv4 (a : string) : option IP :=
  ip ← mapM (parseNat 10) (split_on "." a);
  if decide (length ip = 4%nat) then Some ip else None.

Definition parseIP (a : string) : option IP :=
  if no_char ":" a then parseIPv4 a else parseIPv6 a.

(** The address and the network, which has the host bits cleared. *)
Definition parseCIDR (s : string) : option (IP * IPNet) :=
  match split_on "/" s with
  | [a; l] =>
      ip ← parseIP a;
      p ← parseNat 10 l;
      let m := CIDRMask p (8 * Z.of_nat (length ip)) in
      if decide (m = []) then None else Some (ip, mkIPNet (IP_Mask ip m) m)
  | _ => None
  end.

Lemma plain_parts s : plain s = true →
  no_char "/" s ∧ no_char "." s ∧ no_char ":" s ∧ s ≠ EmptyString.
Proof.
  unfold plain. intros [[[H1 H2]%andb_prop H3]%andb_prop H4]%andb_prop.
  apply bool_decide_eq_true in H4. by rewrite H1, H2, H3.
Qed.

Lemma span_nonempty_app l t : Forall (λ s, s ≠ EmptyString) l →
  span_nonempty (l ++ EmptyString :: t) = (l, EmptyString :: t) ∧ span_nonempty l = (l, []).
Proof.
  induction 1 as [|s l Hs Hl [IH1 IH2]]; simpl; [done|].
  by rewrite !decide_False, IH1, IH2 by done.
Qed.

Lemma drop_empty_nonempty l : Forall (λ s, s ≠ EmptyString) l → drop_empty l = l.
Proof. destruct 1; simpl; [done|]. by rewrite decide_False. Qed.

Lemma mapM_parse (base : Z) (f : Z → string) (P : Z → Prop) l :
  (∀ n, P n → parseNat base (f n) = Some n) → Forall P l → mapM (parseNat base) (f <$> l) = Some l.
Proof. intros Hf Hl. apply mapM_Some_2, Forall2_fmap_l, Forall_Forall2_diag. eapply Forall_impl; eauto. Qed.

Lemma Forall_hex16 (Q : string → Prop) g :
  (∀ x, plain x = true → Q x) → Forall (λ x, 0 ≤ x < 65536) g → Forall Q (hex16 <$> g).
Proof. intros HQ Hg. apply Forall_fmap. eapply Forall_impl; [exact Hg|]. intros x Hx. apply HQ, hex16_roundtrip, Hx. Qed.

Lemma parseIPv6_hex16 (g : list Z) hi lo n :
  g = hi ++ replicate n 0 ++ lo → length g = 8%nat → (0 < n)%nat →
  Forall (λ x, 0 ≤ x < 65536) hi → Forall (λ x, 0 ≤ x < 65536) lo →
  parseIPv6 (join ":" (hex16 <$> hi) +:+ "::" +:+ join ":" (hex16 <$> lo)) = Some (ungroups g).
Proof.
  intros Hg Hlen Hn Hhi Hlo. unfold parseIPv6.
  change ("::" +:+ join ":" (hex16 <$> lo)) with (String ":" (EmptyString +:+ String ":" (join ":" (hex16 <$> lo)))).
  assert (∀ l, Forall (λ x, 0 ≤ x < 65536) l → Forall (no_char ":") (hex16 <$> l)) as Hnc.
  { intros l Hl. apply Forall_hex16; [|done]. by intros x (? & ? & ? & ?)%plain_parts. }
  assert (∀ l, Forall (λ x, 0 ≤ x < 65536) l → Forall (λ s, s ≠ EmptyString) (hex16 <$> l)) as Hne.
  { intros l Hl. apply Forall_hex16; [|done]. by intros x (? & ? & ? & ?)%plain_parts. }
  rewrite split_on_join_sep, split_on_sep, split_on_join by auto.
  assert (∃ t, fields (hex16 <$> hi) ++ EmptyString :: fields (hex16 <$> lo)
    = (hex16 <$> hi) ++ EmptyString :: t ∧ drop_empty (EmptyString :: t) = hex16 <$> lo) as (t & -> & Ht).
  { assert (drop_empty (fields (hex16 <$> lo)) = hex16 <$> lo) as E.
    { specialize (Hne lo Hlo). destruct lo as [|y lo]; [done|]. by apply drop_empty_nonempty. }
    destruct hi as [|y hi]; [exists (EmptyString :: fields (hex16 <$> lo))|exists (fields (hex16 <$> lo))];
      (split; [done|]; simpl; by rewrite ?E). }
  rewrite (proj1 (span_nonempty_app _ t (Hne hi Hhi))), Ht.
  rewrite !(mapM_parse 16 hex16 (λ x, 0 ≤ x < 65536)) by (done || apply hex16_roundtrip).
  simpl. assert (length g = (length hi + n + length lo)%nat) as Hl by (rewrite Hg, !length_app, length_replicate; lia).
  replace (8 - length hi - length lo)%nat with n by lia. rewrite <- Hg. by rewrite decide_True.
Qed.

Lemma parseIPv6_plain (g : list Z) : length g = 8%nat → Forall (λ x, 0 ≤ x < 65536) g →
  parseIPv6 (join ":" (hex16 <$> g)) = Some (ungroups g).
Proof.
  intros Hlen Hg. unfold parseIPv6.
  rewrite split_on_join by (apply Forall_hex16; [|done]; by intros x (? & ? & ? & ?)%plain_parts).
  assert (fields (hex16 <$> g) = hex16 <$> g) as -> by (by destruct g).
  assert (Forall (λ s, s ≠ EmptyString) (hex16 <$> g)) as Hne
    by (apply Forall_hex16; [|done]; by intros x (? & ? & ? & ?)%plain_parts).
  rewrite (proj2 (span_nonempty_app _ [] Hne)). simpl drop_empty.
  rewrite !(mapM_parse 16 hex16 (λ x, 0 ≤ x < 65536)) by (done || apply hex16_roundtrip).
  simpl. rewrite Hlen. simpl. rewrite app_nil_r. by rewrite decide_True.
Qed.

Lemma parseIPv6_Addr_String ip : bytes ip → length ip = (2 * 8)%nat → To4 ip = None →
  parseIPv6 (Addr_String ip) = Some ip.
Proof.
  intros Hb Hl H4. unfold Addr_String. rewrite H4.
  pose proof (groups_range ip Hb) as Hr. pose proof (groups_length ip 8 Hl) as Hg8.
  pose proof (bestZeroRun_slice [] (groups ip) (0%nat, 0%nat) (or_introl eq_refl)) as Hz.
  change ([] ++ groups ip) with (groups ip) in Hz. change (length (@nil Z)) with 0%nat in Hz.
  destruct (bestZeroRun 0 (groups ip) (0%nat, 0%nat)) as [start len] eqn:Hbest.
  case_decide as Hlen.
  - by rewrite parseIPv6_plain, (ungroups_groups ip 8) by done.
  - destruct (zero_slice_split _ _ _ Hz Hlen) as [Heq _].
    rewrite (parseIPv6_hex16 (groups ip) _ _ len), (ungroups_groups ip 8);
      try done; try lia; [by apply Forall_take|by apply Forall_drop].
Qed.

Lemma parseIPv4_Addr_String ip : bytes ip → length ip = 4%nat → parseIPv4 (Addr_String ip) = Some ip.
Proof.
  intros Hb Hl. unfold Addr_String, To4. rewrite decide_True by done. unfold parseIPv4.
  rewrite split_on_join.
  2:{ apply Forall_fmap. eapply Forall_impl; [exact Hb|]. intros x Hx.
      apply (plain_parts (Uitoa x)), Uitoa_roundtrip, Hx. }
  assert (fields (Uitoa <$> ip) = Uitoa <$> ip) as -> by (by destruct ip).
  rewrite (mapM_parse 10 Uitoa is_byte) by (done || apply Uitoa_roundtrip). simpl. by rewrite decide_True.
Qed.

(** * The round trip *)

Lemma no_char_app c a b : no_char c (a +:+ b) = no_char c a && no_char c b.
Proof.
  induction a as [|x a IH]; [done|]. rewrite string_app_cons. cbn [no_char]. by rewrite IH, andb_assoc.
Qed.

Lemma no_char_join c sep l : no_char c sep → Forall (no_char c) l → no_char c (join sep l).
Proof.
  intros Hs. induction 1 as [|s l Hl Hls IH]; [done|]. destruct l as [|s' l]; [done|].
  rewrite join_cons, !no_char_app by done. by repeat (apply andb_prop_intro; split).
Qed.

Lemma no_char_join_false c l : (2 ≤ length l)%nat → no_char c (join (char_str c) l) = false.
Proof.
  destruct l as [|a [|b l]]; simpl; [lia|lia|]. intros _.
  rewrite no_char_app, (string_app_cons c EmptyString). cbn [no_char].
  rewrite bool_decide_false by naive_solver. apply andb_false_r.
Qed.

Lemma Addr_String_v4_chars ip : bytes ip → length ip = 4%nat →
  no_char ":" (Addr_String ip) = true ∧ no_char "/" (Addr_String ip) = true.
Proof.
  intros Hb Hl. unfold Addr_String, To4. rewrite decide_True by done.
  split; apply Is_true_true, no_char_join; try done; apply Forall_fmap;
    (eapply Forall_impl; [exact Hb|]; intros x Hx; apply (plain_parts (Uitoa x)), Uitoa_roundtrip, Hx).
Qed.

Lemma Addr_String_v6_chars ip : bytes ip → length ip = (2 * 8)%nat → To4 ip = None →
  no_char ":" (Addr_String ip) = false ∧ no_char "/" (Addr_String ip) = true.
Proof.
  intros Hb Hl H4. unfold Addr_String. rewrite H4.
  pose proof (groups_range ip Hb) as Hr. pose proof (groups_length ip 8 Hl) as Hg8.
  destruct (bestZeroRun 0 (groups ip) _) as [start len].
  assert (∀ l, Forall (λ x, 0 ≤ x < 65536) l → no_char "/" (join ":" (hex16 <$> l))) as Hsl.
  { intros l Hr'. apply no_char_join; [done|]. apply Forall_hex16; [|done]. by intros x (? & ? & ? & ?)%plain_parts. }
  case_decide.
  - split; [apply no_char_join_false; rewrite length_fmap; lia|apply Is_true_true; auto].
  - rewrite !no_char_app. split; [by rewrite andb_false_r|].
    assert (no_char "/" (join ":" (hex16 <$> take start (groups ip))) = true) as ->
      by (apply Is_true_true, Hsl, Forall_take, Hr).
    assert (no_char "/" (join ":" (hex16 <$> drop (start + len) (groups ip))) = true) as ->
      by (apply Is_true_true, Hsl, Forall_drop, Hr). done.
Qed.

Lemma IP_String_Addr ip : length ip = 4%nat ∨ length ip = 16%nat → IP_String ip = Addr_String ip.
Proof.
  intros Hl. unfold IP_String. rewrite decide_False by (intros ->; destruct Hl; done).
  by rewrite decide_True.
Qed.

Lemma IP_String_roundtrip w v : valid_addr w v →
  parseIP (IP_String (ipOf w v)) = Some (ipOf w v) ∧ no_char "/" (IP_String (ipOf w v)) = true.
Proof.
  intros Hv. pose proof (To4_ipOf w v Hv) as H4. pose proof (ipOf_length w v) as Hl.
  pose proof (be_bytes_bytes (Z.to_nat (w / 8)) v : bytes (ipOf w v)) as Hb.
  rewrite IP_String_Addr by (rewrite Hl; destruct Hv as ([->| ->] & _); auto).
  unfold parseIP. destruct Hv as ([->| ->] & _).
  - destruct (Addr_String_v4_chars _ Hb Hl) as [-> ->]. split; [by apply parseIPv4_Addr_String|done].
  - destruct (Addr_String_v6_chars _ Hb Hl H4) as [-> ->]. split; [by apply parseIPv6_Addr_String|done].
Qed.

Lemma IPNet_String_block w v p : valid_addr w v → 0 ≤ p ≤ w →
  IPNet_String (block w v p) = IP_String (ipOf w v) +:+ String "/" (Uitoa p).
Proof.
  intros Hv Hp. destruct (Hv) as (Hw & _). unfold IPNet_String.
  rewrite networkNumberAndMask_block by done.
  assert (∀ l : list Z, length l = Z.to_nat (w / 8) → l ≠ []) as Hne.
  { intros l Hl ->. destruct Hw as [->| ->]; done. }
  rewrite decide_False.
  2:{ intros [H|H]; revert H; apply Hne; [apply ipOf_length|by apply CIDRMask_length]. }
  rewrite CIDRMask_maskBytes, simpleMaskLength_maskBytes by (done || (rewrite width_bytes by done; lia)).
  destruct (Z.eqb_spec p (-1)); [lia|done].
Qed.

(** Reading back the text of a valid block gives its address and the block. *)
Lemma parseCIDR_String w v p : valid_block w v p →
  parseCIDR (IPNet_String (block w v p)) = Some (ipOf w v, block w v p).
Proof.
  intros [Hv Hp Ha]. destruct (Hv) as (Hw & _). destruct (IP_String_roundtrip w v Hv) as [Hr Hs].
  destruct (Uitoa_roundtrip p) as [Hu Hpl]; [destruct Hw as [->| ->]; lia|].
  unfold parseCIDR. rewrite IPNet_String_block, split_on_sep, split_on_none by
    (done || (apply Is_true_true; done) || by apply (plain_parts _ Hpl)).
  rewrite Hr. simpl. rewrite Hu. simpl. rewrite ipOf_length, width_bytes by done. rewrite decide_False.
  2:{ intros E. apply (f_equal length) in E. rewrite CIDRMask_length in E by done. destruct Hw as [->| ->]; done. }
  rewrite IP_Mask_ipOf, trunc_id by done. done.
Qed.

Lemma block_inj w v p w' v' p' : valid_block w v p → valid_block w' v' p' →
  block w v p = block w' v' p' → w = w' ∧ v = v' ∧ p = p'.
Proof.
  intros [(Hw & Hv & Hm) Hp _] [(Hw' & Hv' & Hm') Hp' _] [= Hip Hmask].
  assert (w = w') as <-.
  { apply (f_equal length) in Hip. rewrite !ipOf_length in Hip. destruct Hw as [->| ->], Hw' as [->| ->]; done. }
  split; [done|]. split; [by apply (ipOf_inj w)|].
  apply (f_equal Mask_Size) in Hmask. rewrite !Mask_Size_CIDRMask in Hmask by done. congruence.
Qed.

(** Distinct blocks have distinct text. *)
Lemma IPNet_String_inj w v p w' v' p' : valid_block w v p → valid_block w' v' p' →
  IPNet_String (block w v p) = IPNet_String (block w' v' p') → w = w' ∧ v = v' ∧ p = p'.
Proof.
  intros H H' Heq. apply (f_equal parseCIDR) in Heq. rewrite !parseCIDR_String in Heq by done.
  injection Heq as _ Hip Hm. apply block_inj; [done|done|]. unfold block. congruence.
Qed.
