(* ===== verification/NetUtils.v ===== *)
(** The interface of [k8s.io/utils/net], which the repository imports but does
    not contain: the functions are parameters ([NetUtils]), and what the
    allocator relies on is [NetUtilsLaws], their documented behaviour on
    well-formed addresses and on the text Go itself prints for a network.
    [refNetUtils] is a concrete instance, used to evaluate the model. *)
From S2P Require Import Prelude GoNet CIDRTheory CIDRText.

Class NetUtils : Type := {
  IsIPv4 : IP → bool;
  IsIPv6 : IP → bool;
  IsIPv4CIDR : IPNet → bool;
  IsIPv6CIDR : IPNet → bool;
  ParseCIDRSloppy : string → error + (IP * IPNet)
}.

Class NetUtilsLaws {N : NetUtils} : Prop := {
  (** "IsIPv4 returns true if the IP is a valid IPv4 address", likewise IPv6;
      a nil IP is neither. *)
  IsIPv4_valid w v : valid_addr w v → IsIPv4 (ipOf w v) = bool_decide (w = 32);
  IsIPv6_valid w v : valid_addr w v → IsIPv6 (ipOf w v) = bool_decide (w = 128);
  IsIPv4_nil : IsIPv4 [] = false;
  IsIPv6_nil : IsIPv6 [] = false;
  (** "IsIPv4CIDR returns true if cidr is a valid IPv4 CIDR", likewise IPv6. *)
  IsIPv4CIDR_valid w v p : valid_block w v p → IsIPv4CIDR (block w v p) = bool_decide (w = 32);
  IsIPv6CIDR_valid w v p : valid_block w v p → IsIPv6CIDR (block w v p) = bool_decide (w = 128);
  (** [ParseCIDRSloppy] accepts every CIDR [net.ParseCIDR] accepts, in particular
      the text [IPNet.String] prints, and returns the same network. *)
  ParseCIDRSloppy_String w v p : valid_block w v p →
    ParseCIDRSloppy (IPNet_String (block w v p)) = inr (ipOf w v, block w v p)
}.
Arguments NetUtilsLaws : clear implicits.

(** A concrete instance. *)
Definition refIsIPv4 (ip : IP) : bool := bool_decide (is_Some (To4 ip)).
Definition refIsIPv6 (ip : IP) : bool := bool_decide (length ip = 16%nat) && bool_decide (To4 ip = None).

Definition refNetUtils : NetUtils := {|
  IsIPv4 := refIsIPv4;
  IsIPv6 := refIsIPv6;
  IsIPv4CIDR n := refIsIPv4 (IPNet_IP n);
  IsIPv6CIDR n := refIsIPv6 (IPNet_IP n);
  ParseCIDRSloppy s := match parseCIDR s with
                       | Some r => inr r
                       | None => inl (Errorf "invalid CIDR address" [s])
                       end
|}.

Lemma refIsIPv4_valid w v : valid_addr w v → refIsIPv4 (ipOf w v) = bool_decide (w = 32).
Proof.
  intros Hv. unfold refIsIPv4. rewrite To4_ipOf by done. case_decide.
  - by rewrite !bool_decide_true by eauto.
  - rewrite !bool_decide_false by (done || by intros [? ?]). done.
Qed.

Lemma refIsIPv6_valid w v : valid_addr w v → refIsIPv6 (ipOf w v) = bool_decide (w = 128).
Proof.
  intros Hv. unfold refIsIPv6. rewrite To4_ipOf, ipOf_length by done.
  by destruct Hv as ([->| ->] & _).
Qed.

#[export] Instance refNetUtils_laws : NetUtilsLaws refNetUtils.
Proof.
  split.
  - apply refIsIPv4_valid.
  - apply refIsIPv6_valid.
  - done.
  - done.
  - intros w v p [Hv _ _]. by apply refIsIPv4_valid.
  - intros w v p [Hv _ _]. by apply refIsIPv6_valid.
  - intros w v p Hb. simpl. by rewrite parseCIDR_String.
Qed.
