(* ===== verification/MultiCIDRSet.v ===== *)
(** Package [multicidrset] (src/pkg/controller/ipam/multicidrset): the CIDR set
    of one family of a ClusterCIDR and the internal ClusterCIDR object.  Each
    exported method holds [mu] for its whole critical section, so a method is
    one state transformation; the fields it reads before taking the lock are
    never written after construction. *)
From S2P Require Import Prelude GoNet CIDRTheory NetUtils.

(** The Prometheus calls, in the order they are made.  The registry is outside
    the repository; the events keep the label values ([Label], the ClusterCIDR
    name) and the numbers the gauge or histogram is given. *)
Inductive MetricEvent : Type :=
| cidrSetMaxCidrs_Set (label name : string) (v : Z)
| cidrSetAllocations_Inc (label name : string)
| cidrSetReleases_Inc (label name : string)
| cidrSetUsage_Set (label name : string) (allocated max : Z)
| cidrSetAllocationTries_Observe (label name : string) (evaluated : Z).

Record MultiCIDRSet : Type := mkMultiCIDRSet {
  set_ClusterCIDR : IPNet;
  NodeMaskSize : Z;
  MaxCIDRs : Z;
  Label : string;
  allocatedCIDRMap : gmap string bool;
  clusterMaskSize : Z;
  clusterCIDRName : string;
  nodeMask : IPMask;
  allocatedCIDRs : Z;
  nextCandidate : Z
}.

(** The internal ClusterCIDR object.  Its two sets are reachable through it
    alone; a nil set pointer is [None]. *)
Record ClusterCIDR : Type := mkClusterCIDR {
  Name : string;
  IPv4CIDRSet : option MultiCIDRSet;
  IPv6CIDRSet : option MultiCIDRSet;
  AssociatedNodes : gmap string bool;
  Terminating : bool
}.

Definition clusterSubnetMaxDiff : Z := 16.

(** The [Error] methods of the two typed errors. *)
Definition CIDRRangeNoCIDRsRemainingErr_Error (CIDR : string) : string :=
  "CIDR allocation failed; there are no remaining CIDRs left to allocate in the range " +:+ CIDR.
Definition CIDRSetSubNetTooBigErr_Error (cidr : string) (subnetMaskSize clusterMaskSize : Z) : string :=
  "Creation of New CIDR Set failed for " +:+ cidr +:+ ". PerNodeMaskSize " +:+ pretty subnetMaskSize
  +:+ " is too big for CIDR Mask " +:+ pretty clusterMaskSize +:+ ", Maximum difference allowed is "
  +:+ pretty clusterSubnetMaxDiff.

Definition SetState : Type := MultiCIDRSet * list MetricEvent.

Definition getSet : M SetState MultiCIDRSet := λ '(s, t), (Ok s, (s, t)).
Definition modifySet (f : MultiCIDRSet → MultiCIDRSet) : M SetState unit :=
  λ '(s, t), (Ok tt, (f s, t)).
Definition emit (e : MetricEvent) : M SetState unit := λ '(s, t), (Ok tt, (s, t ++ [e])).

Definition with_map (f : gmap string bool → gmap string bool) (s : MultiCIDRSet) : MultiCIDRSet :=
  mkMultiCIDRSet (set_ClusterCIDR s) (NodeMaskSize s) (MaxCIDRs s) (Label s) (f (allocatedCIDRMap s))
    (clusterMaskSize s) (clusterCIDRName s) (nodeMask s) (allocatedCIDRs s) (nextCandidate s).
Definition with_count (f : Z → Z) (s : MultiCIDRSet) : MultiCIDRSet :=
  mkMultiCIDRSet (set_ClusterCIDR s) (NodeMaskSize s) (MaxCIDRs s) (Label s) (allocatedCIDRMap s)
    (clusterMaskSize s) (clusterCIDRName s) (nodeMask s) (f (allocatedCIDRs s)) (nextCandidate s).
Definition with_next (n : Z) (s : MultiCIDRSet) : MultiCIDRSet :=
  mkMultiCIDRSet (set_ClusterCIDR s) (NodeMaskSize s) (MaxCIDRs s) (Label s) (allocatedCIDRMap s)
    (clusterMaskSize s) (clusterCIDRName s) (nodeMask s) (allocatedCIDRs s) n.

(** [1 << uint32(subNetMaskSize-clusterMaskSize)] as an [int]. *)
Definition getMaxCIDRs (subNetMaskSize clusterMaskSize : Z) : Z :=
  let k := u32 (subNetMaskSize - clusterMaskSize) in
  if 64 <=? k then 0 else s64 (Z.shiftl 1 k).

Section MultiCIDRSet.
Context `{NetUtils}.

Definition NewMultiCIDRSet (clusterCIDRName : string) (cidrConfig : IPNet) (perNodeHostBits : Z)
    : M (list MetricEvent) MultiCIDRSet :=
  let '(clusterMaskSize, bits) := Mask_Size (IPNet_Mask cidrConfig) in
  let subNetMaskSize :=
    if IsIPv4 (IPNet_IP cidrConfig) then 32 - perNodeHostBits
    else if IsIPv6 (IPNet_IP cidrConfig) then 128 - perNodeHostBits
    else 0 in
  if IsIPv6 (IPNet_IP cidrConfig) && (clusterSubnetMaxDiff <? subNetMaskSize - clusterMaskSize) then
    fail (CIDRSetSubNetTooBigErr (IPNet_String cidrConfig) subNetMaskSize clusterMaskSize)
  else
    let maxCIDRs := getMaxCIDRs subNetMaskSize clusterMaskSize in
    let multiCIDRSet := {|
      set_ClusterCIDR := cidrConfig;
      clusterCIDRName := clusterCIDRName;
      nodeMask := CIDRMask subNetMaskSize bits;
      clusterMaskSize := clusterMaskSize;
      MaxCIDRs := maxCIDRs;
      NodeMaskSize := subNetMaskSize;
      Label := IPNet_String cidrConfig;
      allocatedCIDRMap := ∅;
      allocatedCIDRs := 0;
      nextCandidate := 0 |} in
    modify (λ t, t ++ [cidrSetMaxCidrs_Set (Label multiCIDRSet) clusterCIDRName maxCIDRs]) ;;
    mret multiCIDRSet.

Definition indexToCIDRBlock (s : MultiCIDRSet) (index : Z) : exit IPNet :=
  let clusterIP := IPNet_IP (set_ClusterCIDR s) in
  ip ←
    (if IsIPv4 clusterIP then
       let j := shl32 (u32 index) (u32 (32 - NodeMaskSize s)) in
       c ← Uint32 clusterIP;
       mret (PutUint32 (Z.lor c j))
     else if IsIPv6 clusterIP then
       leftClusterIP ← Uint64 (take 8 clusterIP);
       rightClusterIP ← Uint64 (drop 8 clusterIP);
       if NodeMaskSize s <=? 64 then
         let leftClusterIP := Z.lor leftClusterIP (shl64 (u64 index) (u64 (64 - NodeMaskSize s))) in
         mret (PutUint64 leftClusterIP ++ PutUint64 rightClusterIP)
       else
         let leftClusterIP :=
           if clusterMaskSize s <? 64 then
             let btl := u64 (NodeMaskSize s - 64) in
             let indexMaxBit := u64 (64 - LeadingZeros64 (u64 index)) in
             if btl <? indexMaxBit then Z.lor leftClusterIP (shr64 (u64 index) btl) else leftClusterIP
           else leftClusterIP in
         let rightClusterIP := Z.lor rightClusterIP (shl64 (u64 index) (u64 (128 - NodeMaskSize s))) in
         mret (PutUint64 leftClusterIP ++ PutUint64 rightClusterIP)
     else Err (Errorf "invalid IP: %s" [IP_String clusterIP]));
  mret (mkIPNet ip (nodeMask s)).

(** The [for] of [NextCandidate]: [n] iterations are left, [i] were made. *)
Fixpoint nextCandidateLoop (n : nat) (i candidate : Z) : M SetState (Z * (error + IPNet)) :=
  s ← getSet;
  match n with
  | O => mret (MaxCIDRs s, inl (CIDRRangeNoCIDRsRemainingErr (Label s)))
  | S n =>
      match indexToCIDRBlock s candidate with
      | Panic p => crash p
      | Err err => mret (i, inl err)
      | Ok nextCandidateCIDR =>
          match allocatedCIDRMap s !! IPNet_String nextCandidateCIDR with
          | None =>
              modifySet (with_next (Z.rem (candidate + 1) (MaxCIDRs s))) ;;
              mret (i, inr nextCandidateCIDR)
          | Some _ => nextCandidateLoop n (i + 1) (Z.rem (candidate + 1) (MaxCIDRs s))
          end
      end
  end.

(** Returns the evaluated count with the candidate or the error. *)
Definition NextCandidate : M SetState (Z * (error + IPNet)) :=
  s ← getSet;
  if allocatedCIDRs s =? MaxCIDRs s then
    mret (0, inl (CIDRRangeNoCIDRsRemainingErr (Label s)))
  else nextCandidateLoop (Z.to_nat (MaxCIDRs s)) 0 (nextCandidate s).

Definition getIndexForIP (s : MultiCIDRSet) (ip : IP) : exit Z :=
  let clusterIP := IPNet_IP (set_ClusterCIDR s) in
  match To4 ip with
  | Some ip4 =>
      c ← Uint32 clusterIP;
      i ← Uint32 ip4;
      let cidrIndex := shr32 (Z.lxor c i) (u32 (32 - NodeMaskSize s)) in
      if u32 (MaxCIDRs s) <=? cidrIndex then
        Err (Errorf "CIDR: %v/%v is out of the range of CIDR allocator" [IP_String ip; pretty (NodeMaskSize s)])
      else mret cidrIndex
  | None =>
      if IsIPv6 ip then
        let bigIP := Z.lxor (be_val clusterIP) (be_val ip) in
        let cidrIndexBig := Z.shiftr bigIP (u64 (IPv6len * 8 - NodeMaskSize s)) in
        let cidrIndex := u64 cidrIndexBig in
        if u64 (MaxCIDRs s) <=? cidrIndex then
          Err (Errorf "CIDR: %v/%v is out of the range of CIDR allocator" [IP_String ip; pretty (NodeMaskSize s)])
        else mret (s64 cidrIndex)
      else Err (Errorf "invalid IP: %v" [IP_String ip])
  end.

Definition getBeginningAndEndIndices (s : MultiCIDRSet) (cidr : option IPNet) : exit (Z * Z) :=
  let cluster := set_ClusterCIDR s in
  match cidr with
  | None => Err (Errorf "error getting indices for cluster cidr %v, cidr is nil" [IPNet_String cluster])
  | Some cidr =>
      let '(maskSize, _) := Mask_Size (IPNet_Mask cidr) in
      if negb (Contains cluster (IP_Mask (IPNet_IP cidr) (IPNet_Mask cluster)))
         && negb (Contains cidr (IP_Mask (IPNet_IP cluster) (IPNet_Mask cidr))) then
        Err (Errorf "cidr %v is out the range of cluster cidr %v" [IPNet_String cidr; IPNet_String cluster])
      else if clusterMaskSize s <? maskSize then
        begin ← getIndexForIP s (IP_Mask (IPNet_IP cidr) (nodeMask s));
        ip ←
          (if IsIPv4 (IPNet_IP cidr) then
             i ← Uint32 (IPNet_IP cidr);
             m ← Uint32 (IPNet_Mask cidr);
             mret (PutUint32 (Z.lor i (not32 m)))
           else
             il ← Uint64 (take 8 (IPNet_IP cidr));
             ml ← Uint64 (take 8 (IPNet_Mask cidr));
             ir ← Uint64 (drop 8 (IPNet_IP cidr));
             mr ← Uint64 (drop 8 (IPNet_Mask cidr));
             (* ip has ipSize bytes: 16 for an IPv6 address, else 4, too short to slice *)
             if IsIPv6 (IPNet_IP cidr) then
               mret (PutUint64 (Z.lor il (not64 ml)) ++ PutUint64 (Z.lor ir (not64 mr)))
             else Panic IndexOutOfRange);
        end_ ← getIndexForIP s (IP_Mask ip (nodeMask s));
        mret (begin, end_)
      else mret (0, MaxCIDRs s - 1)
  end.

(** The body of the loop of [Release]: free block [i] if it is allocated. *)
Definition releaseBlock (i : Z) : M SetState unit :=
  s ← getSet;
  currCIDR ← lift (indexToCIDRBlock s i);
  match allocatedCIDRMap s !! IPNet_String currCIDR with
  | Some _ =>
      modifySet (with_map (delete (IPNet_String currCIDR))) ;;
      modifySet (with_count (λ n, n - 1)) ;;
      emit (cidrSetReleases_Inc (Label s) (clusterCIDRName s))
  | None => mret tt
  end.

Definition Release (cidr : option IPNet) : M SetState unit :=
  s ← getSet;
  '(begin, end_) ← lift (getBeginningAndEndIndices s cidr);
  forM_ (zrange begin end_) releaseBlock ;;
  s ← getSet;
  emit (cidrSetUsage_Set (Label s) (clusterCIDRName s) (allocatedCIDRs s) (MaxCIDRs s)).

(** The body of the loop of [Occupy]: mark block [i] unless it is allocated. *)
Definition occupyBlock (i : Z) : M SetState unit :=
  s ← getSet;
  currCIDR ← lift (indexToCIDRBlock s i);
  match allocatedCIDRMap s !! IPNet_String currCIDR with
  | None =>
      modifySet (with_map (insert (IPNet_String currCIDR) true)) ;;
      emit (cidrSetAllocations_Inc (Label s) (clusterCIDRName s)) ;;
      modifySet (with_count (λ n, n + 1))
  | Some _ => mret tt
  end.

Definition Occupy (cidr : option IPNet) : M SetState unit :=
  s ← getSet;
  '(begin, end_) ← lift (getBeginningAndEndIndices s cidr);
  forM_ (zrange begin end_) occupyBlock ;;
  s ← getSet;
  emit (cidrSetUsage_Set (Label s) (clusterCIDRName s) (allocatedCIDRs s) (MaxCIDRs s)).

Definition UpdateEvaluatedCount (evaluated : Z) : M SetState unit :=
  s ← getSet;
  emit (cidrSetAllocationTries_Observe (Label s) (clusterCIDRName s) evaluated).

(** [_, ok := s.allocatedCIDRMap[cidr.String()]] *)
Definition CIDRAllocated (s : MultiCIDRSet) (cidr : IPNet) : bool :=
  bool_decide (is_Some (allocatedCIDRMap s !! IPNet_String cidr)).

(** The iteration order over the map does not matter: the result is a
    disjunction over its keys ([CIDROverlaps_order] below). *)
Definition CIDROverlaps_keys (keys : list string) (cidr : IPNet) : bool :=
  existsb (λ allocated,
    match ParseCIDRSloppy allocated with
    | inl _ => false
    | inr (_, allocatedCIDR) =>
        Contains cidr (IP_Mask (IPNet_IP allocatedCIDR) (IPNet_Mask cidr))
        || Contains allocatedCIDR (IP_Mask (IPNet_IP cidr) (IPNet_Mask allocatedCIDR))
    end) keys.

Definition CIDROverlaps (s : MultiCIDRSet) (cidr : IPNet) : bool :=
  CIDROverlaps_keys (map_to_list (allocatedCIDRMap s)).*1 cidr.
End MultiCIDRSet.

#[global] Arguments indexToCIDRBlock {_} _ _ : simpl never.
#[global] Arguments getIndexForIP {_} _ _ : simpl never.
#[global] Arguments getBeginningAndEndIndices {_} _ _ : simpl never.
#[global] Arguments CIDRAllocated _ _ : simpl never.
#[global] Arguments CIDROverlaps {_} _ _ : simpl never.
