(* ===== verification/IndexTheory.v ===== *)
(** Index arithmetic of a CIDR set: the block of an index, the index of an
    address and the indices a CIDR touches.

    A [layout] is the geometry of a set: family width, network address, cluster
    prefix and node prefix.  [set_layout] says a [MultiCIDRSet] has that geometry;
    [node_block L i] is the [i]-th of its [nmax L] node blocks. *)
From S2P Require Import Prelude GoNet CIDRTheory CIDRText NetUtils MultiCIDRSet.

Record layout : Type := mkLayout { width : Z; base : Z; clen : Z; nlen : Z }.

(** [layout_ok]: the cluster CIDR is a valid block, the node prefix lies between
    the cluster prefix and the width, an index fits in 31 bits ([NewMultiCIDRSet]
    allows 16 for IPv6), and an IPv6 cluster does not reach into [::/80], where
    Go takes addresses for IPv4. *)
Record layout_ok (L : layout) : Prop := {
  lo_block : valid_block (width L) (base L) (clen L);
  lo_nlen : clen L ≤ nlen L ≤ width L;
  lo_diff : nlen L - clen L < 32;
  lo_safe : width L = 128 → 2 ^ 48 ≤ base L
}.

Definition nmax (L : layout) : Z := 2 ^ (nlen L - clen L).
Definition hostbits (L : layout) : Z := width L - nlen L.
Definition node_addr (L : layout) (i : Z) : Z := base L + i * 2 ^ hostbits L.
Definition node_block (L : layout) (i : Z) : IPNet := block (width L) (node_addr L i) (nlen L).
Definition cluster_block (L : layout) : IPNet := block (width L) (base L) (clen L).

Record set_layout (L : layout) (s : MultiCIDRSet) : Prop := {
  sl_cluster : set_ClusterCIDR s = cluster_block L;
  sl_node : NodeMaskSize s = nlen L;
  sl_clen : clusterMaskSize s = clen L;
  sl_mask : nodeMask s = CIDRMask (nlen L) (width L);
  sl_max : MaxCIDRs s = nmax L
}.

(** * Bit operations *)

Lemma lor_div a b n : 0 ≤ n → Z.lor a b / 2 ^ n = Z.lor (a / 2 ^ n) (b / 2 ^ n).
Proof. intros. by rewrite <- !Z.shiftr_div_pow2, Z.shiftr_lor by done. Qed.

Lemma lor_mod a b n : 0 ≤ n → Z.lor a b mod 2 ^ n = Z.lor (a mod 2 ^ n) (b mod 2 ^ n).
Proof. intros. by rewrite <- !Z.land_ones, Z.land_lor_distr_l by done. Qed.

(** An aligned base absorbs a small offset under [|] and [^] as under [+]. *)
Lemma lor_aligned a y k : 0 ≤ k → a mod 2 ^ k = 0 → 0 ≤ y < 2 ^ k → Z.lor a y = a + y.
Proof.
  intros Hk Ha Hy. pose proof (pow2_pos k Hk). pose proof (Z.div_mod a (2 ^ k)).
  replace a with (a / 2 ^ k * 2 ^ k) by lia. by apply lor_disjoint_add.
Qed.

Lemma lxor_aligned a y k : 0 ≤ k → a mod 2 ^ k = 0 → 0 ≤ y < 2 ^ k → Z.lxor a (a + y) = y.
Proof.
  intros Hk Ha Hy. rewrite <- (lor_aligned a y k) by done.
  assert (Z.land a y = 0) as Hl.
  { pose proof (pow2_pos k Hk). pose proof (Z.div_mod a (2 ^ k)).
    replace a with (a / 2 ^ k * 2 ^ k + 0) by lia. replace y with (0 * 2 ^ k + y) by lia.
    rewrite land_add_pow2, Z.land_0_r, Z.land_0_l by lia. lia. }
  rewrite <- Z.lxor_lor by done. rewrite <- Z.lxor_assoc, Z.lxor_nilpotent. apply Z.lxor_0_l.
Qed.

Lemma mod_pow2_le a k m : 0 ≤ m ≤ k → a mod 2 ^ k = 0 → a mod 2 ^ m = 0.
Proof.
  intros Hm Ha. pose proof (pow2_pos m). pose proof (pow2_pos k).
  apply Z.mod_divide; [lia|]. apply Z.mod_divide in Ha; [|lia].
  etrans; [|exact Ha]. exists (2 ^ (k - m)). rewrite <- Z.pow_add_r by lia. f_equal. lia.
Qed.

Lemma Uint32_ipOf v : valid_addr 32 v → Uint32 (ipOf 32 v) = Ok v.
Proof.
  intros Hv. unfold Uint32. rewrite ipOf_length. simpl decide. f_equal.
  rewrite take_ge by (by rewrite ipOf_length). by apply be_val_ipOf.
Qed.

Lemma Uint64_be_bytes v : 0 ≤ v < 2 ^ 64 → Uint64 (be_bytes 8 v) = Ok v.
Proof.
  intros Hv. unfold Uint64. rewrite be_bytes_length. simpl decide. f_equal.
  rewrite take_ge by (by rewrite be_bytes_length). rewrite be_val_be_bytes.
  apply Z.mod_small. done.
Qed.

Lemma Uint64_left v : 0 ≤ v < 2 ^ 128 → Uint64 (take 8 (ipOf 128 v)) = Ok (v / 2 ^ 64).
Proof.
  intros Hv. rewrite (take_ipOf128 8 8) by (done || lia). apply Uint64_be_bytes.
  change (256 ^ Z.of_nat 8) with (2 ^ 64).
  split; [apply Z.div_pos; lia|apply Z.div_lt_upper_bound; lia].
Qed.

Lemma Uint64_right v : 0 ≤ v < 2 ^ 128 → Uint64 (drop 8 (ipOf 128 v)) = Ok (v mod 2 ^ 64).
Proof.
  intros Hv. rewrite (drop_ipOf128 8 8) by (done || lia).
  rewrite <- (be_bytes_mod 8 v). apply Uint64_be_bytes.
  change (256 ^ Z.of_nat 8) with (2 ^ 64). apply Z.mod_pos_bound. lia.
Qed.

Lemma Uint32_mask p : 0 ≤ p ≤ 32 → Uint32 (CIDRMask p 32) = Ok (2 ^ 32 - 2 ^ (32 - p)).
Proof.
  intros Hp. unfold Uint32. rewrite CIDRMask_length by auto. simpl decide.
  rewrite take_ge by (by rewrite CIDRMask_length by auto). by rewrite be_val_CIDRMask by auto.
Qed.

Lemma CIDRMask_ipOf w p : w = 32 ∨ w = 128 → 0 ≤ p ≤ w → CIDRMask p w = ipOf w (2 ^ w - 2 ^ (w - p)).
Proof.
  intros Hw Hp. rewrite <- be_val_CIDRMask by done. unfold ipOf. symmetry.
  apply be_bytes_be_val; [by apply CIDRMask_bytes|by apply CIDRMask_length].
Qed.

(** The complement of a 128-bit value, half by half. *)
Lemma not64_halves m : 0 ≤ m < 2 ^ 128 →
  not64 (m / 2 ^ 64) = (2 ^ 128 - 1 - m) / 2 ^ 64 ∧ not64 (m mod 2 ^ 64) = (2 ^ 128 - 1 - m) mod 2 ^ 64.
Proof.
  intros Hm. pose proof (Z.div_mod m (2 ^ 64)). pose proof (Z.mod_pos_bound m (2 ^ 64)).
  unfold not64. split.
  - apply (Z.div_unique _ _ _ (2 ^ 64 - 1 - m mod 2 ^ 64)); lia.
  - apply (Z.mod_unique _ _ (2 ^ 64 - 1 - m / 2 ^ 64)); lia.
Qed.

Lemma PutUint64_halves t : 0 ≤ t → PutUint64 (t / 2 ^ 64) ++ PutUint64 (t mod 2 ^ 64) = ipOf 128 t.
Proof.
  intros Ht. unfold PutUint64, ipOf. change (Z.to_nat (128 / 8)) with (8 + 8)%nat.
  rewrite be_bytes_app by done. f_equal. apply (be_bytes_mod 8).
Qed.

(** * Geometry *)

Section layout.
Context (L : layout) (HL : layout_ok L).

Lemma width_cases : width L = 32 ∨ width L = 128.
Proof using HL. apply HL. Qed.

Lemma clen_bound : 0 ≤ clen L ≤ width L.
Proof using HL. apply HL. Qed.

Lemma hostbits_nonneg : 0 ≤ hostbits L.
Proof using HL. pose proof (lo_nlen L HL). unfold hostbits. lia. Qed.

Lemma nmax_pos : 0 < nmax L.
Proof using HL. pose proof (lo_nlen L HL). apply pow2_pos. lia. Qed.

Lemma nmax_bound : nmax L ≤ 2 ^ 31.
Proof using HL. pose proof (lo_nlen L HL). pose proof (lo_diff L HL). apply Z.pow_le_mono_r; lia. Qed.

Lemma cluster_size : 2 ^ (width L - clen L) = nmax L * 2 ^ hostbits L.
Proof using HL.
  pose proof (lo_nlen L HL). unfold nmax, hostbits. rewrite <- Z.pow_add_r by lia. f_equal. lia.
Qed.

Lemma base_bound : 0 ≤ base L.
Proof using HL. destruct HL as [[(_ & Hb & _) _ _] _ _ _]. lia. Qed.

Lemma base_aligned : base L mod 2 ^ (width L - clen L) = 0.
Proof using HL. apply HL. Qed.

Lemma base_aligned_host : base L mod 2 ^ hostbits L = 0.
Proof using HL.
  pose proof (lo_nlen L HL). pose proof clen_bound.
  apply (mod_pow2_le _ (width L - clen L)); [unfold hostbits; lia|apply base_aligned].
Qed.

Lemma offset_bound i : 0 ≤ i < nmax L → 0 ≤ i * 2 ^ hostbits L < 2 ^ (width L - clen L).
Proof using HL. intros. rewrite cluster_size. pose proof (pow2_pos _ hostbits_nonneg). nia. Qed.

(** Every node block lies in the cluster block, and is valid. *)
Lemma node_addr_in_cluster i : 0 ≤ i < nmax L → in_block (width L) (base L) (clen L) (node_addr L i).
Proof using HL. intros Hi%offset_bound. unfold in_block, node_addr. lia. Qed.

Lemma cluster_addr_valid x : in_block (width L) (base L) (clen L) x → valid_addr (width L) x.
Proof using HL. apply in_block_valid; apply HL. Qed.

Lemma node_addr_valid i : 0 ≤ i < nmax L → valid_addr (width L) (node_addr L i).
Proof using HL. intros. by apply cluster_addr_valid, node_addr_in_cluster. Qed.

Lemma node_block_valid i : 0 ≤ i < nmax L → valid_block (width L) (node_addr L i) (nlen L).
Proof using HL.
  intros Hi. pose proof (lo_nlen L HL). pose proof clen_bound.
  split; [by apply node_addr_valid|lia|]. unfold node_addr.
  pose proof (pow2_pos _ hostbits_nonneg). fold (hostbits L).
  rewrite Z.mod_add by lia. apply base_aligned_host.
Qed.

Lemma node_addr_inj i j : node_addr L i = node_addr L j → i = j.
Proof using HL. unfold node_addr. pose proof (pow2_pos _ hostbits_nonneg). nia. Qed.

(** Distinct indices have distinct keys in the allocation map. *)
Lemma node_key_inj i j : 0 ≤ i < nmax L → 0 ≤ j < nmax L →
  IPNet_String (node_block L i) = IPNet_String (node_block L j) → i = j.
Proof using HL.
  intros Hi%node_block_valid Hj%node_block_valid Heq.
  apply IPNet_String_inj in Heq as (_ & Heq & _); [|done|done]. by apply node_addr_inj.
Qed.
End layout.

#[export] Hint Resolve node_block_valid node_addr_valid node_addr_in_cluster : cidr.
