(* ===== verification/IndexProps.v ===== *)
(** The index functions of [MultiCIDRSet] against the geometry: the block of an
    index, the index of an address (mutually inverse), and the exactness of
    [getBeginningAndEndIndices]. *)
From S2P Require Import Prelude GoNet CIDRTheory CIDRText NetUtils MultiCIDRSet IndexTheory.

Section index.
Context `{HN : !NetUtils} (HNL : NetUtilsLaws HN).
Context (L : layout) (HL : layout_ok L) (s : MultiCIDRSet) (Hs : set_layout L s).

Lemma cluster_IP : IPNet_IP (set_ClusterCIDR s) = ipOf (width L) (base L).
Proof using Hs. by rewrite (sl_cluster _ _ Hs). Qed.

Lemma base_valid : valid_addr (width L) (base L).
Proof using HL. apply HL. Qed.

(** [left] and [right] after the IPv6 arithmetic are the halves of the sum. *)
Lemma node_addr_lor i : 0 ≤ i < nmax L → node_addr L i = Z.lor (base L) (i * 2 ^ hostbits L).
Proof using HL.
  intros Hi. symmetry. apply (lor_aligned _ _ (width L - clen L)).
  - pose proof (clen_bound L HL). lia.
  - by apply base_aligned.
  - by apply offset_bound.
Qed.

Lemma index_bound i : 0 ≤ i < nmax L → 0 ≤ i < 2 ^ 31.
Proof using HL. pose proof (nmax_bound L HL). lia. Qed.

Lemma index_u32 i : 0 ≤ i < nmax L → u32 i = i.
Proof using HL. intros Hi%index_bound. apply Z.mod_small. lia. Qed.

Lemma index_u64 i : 0 ≤ i < nmax L → u64 i = i.
Proof using HL. intros Hi%index_bound. apply Z.mod_small. lia. Qed.

Lemma shl_mod (W i k : Z) : 0 ≤ k → 0 < W → (if W <=? k then 0 else Z.shiftl i k mod 2 ^ W) = (i * 2 ^ k) mod 2 ^ W.
Proof using.
  intros Hk HW. destruct (Z.leb_spec W k); [|by rewrite Z.shiftl_mul_pow2].
  replace k with ((k - W) + W) by lia. rewrite Z.pow_add_r, Z.mul_assoc, Z.mod_mul by (pose proof (pow2_pos W); lia).
  done.
Qed.

Lemma index_block_v4 i : width L = 32 → 0 ≤ i < nmax L →
  indexToCIDRBlock s i = Ok (node_block L i).
Proof using HNL HL Hs.
  intros Hw Hi. unfold indexToCIDRBlock. rewrite cluster_IP, IsIPv4_valid by apply base_valid.
  rewrite bool_decide_true by done. rewrite (sl_node _ _ Hs), index_u32 by done.
  pose proof (lo_nlen L HL). pose proof (clen_bound L HL).
  assert (u32 (32 - nlen L) = hostbits L) as -> by (unfold u32, hostbits; rewrite Hw, Z.mod_small; lia).
  unfold shl32, u32. rewrite shl_mod by (apply hostbits_nonneg || lia; done).
  pose proof (offset_bound L HL i Hi) as Hob.
  assert (2 ^ (width L - clen L) ≤ 2 ^ 32) by (apply Z.pow_le_mono_r; lia).
  rewrite Z.mod_small by lia. pose proof base_valid as Hb. rewrite Hw in Hb |- *.
  rewrite Uint32_ipOf by done. simpl. rewrite <- node_addr_lor by done.
  unfold node_block, block. by rewrite (sl_mask _ _ Hs), Hw.
Qed.

(** The two halves of the offset [i * 2^(128-n)]. *)
Lemma offset_left_low i n : 0 ≤ n ≤ 64 → 0 ≤ i * 2 ^ (128 - n) < 2 ^ 128 →
  shl64 i (u64 (64 - n)) = i * 2 ^ (128 - n) / 2 ^ 64 ∧ (i * 2 ^ (128 - n)) mod 2 ^ 64 = 0.
Proof using.
  intros Hn Hi. replace (128 - n) with ((64 - n) + 64) in * by lia.
  rewrite Z.pow_add_r, Z.mul_assoc in * by lia.
  rewrite Z.div_mul, Z.mod_mul by lia. split; [|done].
  assert (u64 (64 - n) = 64 - n) as -> by (apply Z.mod_small; lia).
  unfold shl64, u64. rewrite shl_mod by lia. apply Z.mod_small. lia.
Qed.

Lemma offset_right i n : 64 < n ≤ 128 → shl64 i (u64 (128 - n)) = (i * 2 ^ (128 - n)) mod 2 ^ 64.
Proof using.
  intros Hn. assert (u64 (128 - n) = 128 - n) as -> by (apply Z.mod_small; lia).
  unfold shl64, u64. by rewrite shl_mod by lia.
Qed.

Lemma offset_left_high i n : 64 < n ≤ 128 → i * 2 ^ (128 - n) / 2 ^ 64 = i / 2 ^ (n - 64).
Proof using.
  intros Hn. pose proof (pow2_pos (128 - n)). pose proof (pow2_pos (n - 64)).
  assert (2 ^ 64 = 2 ^ (128 - n) * 2 ^ (n - 64)) as -> by (rewrite <- Z.pow_add_r by lia; f_equal; lia).
  rewrite <- Z.div_div, Z.div_mul by lia. done.
Qed.

(** The guard [indexMaxBit > btl] skips exactly the shifts that yield zero. *)
Lemma shifted_index i btl : 0 ≤ btl ≤ 64 → 0 ≤ i < 2 ^ 31 →
  (if u64 btl <? u64 (64 - LeadingZeros64 i) then shr64 i (u64 btl) else 0) = i / 2 ^ btl.
Proof using.
  intros Hb Hi. assert (u64 btl = btl) as -> by (apply Z.mod_small; lia).
  unfold LeadingZeros64, shr64. destruct (Z.eqb_spec i 0) as [->|Hne].
  - rewrite Z.div_0_l by (pose proof (pow2_pos btl); lia). change (u64 (64 - 64)) with 0.
    destruct (Z.ltb_spec btl 0); [lia|done].
  - pose proof (Z.log2_spec i ltac:(lia)) as Hlog. pose proof (Z.log2_nonneg i).
    assert (Z.log2 i < 31) by (apply Z.log2_lt_pow2; lia).
    assert (u64 (64 - (63 - Z.log2 i)) = Z.log2 i + 1) as -> by (unfold u64; rewrite Z.mod_small; lia).
    destruct (Z.ltb_spec btl (Z.log2 i + 1)).
    + destruct (Z.leb_spec 64 btl); [lia|]. apply Z.shiftr_div_pow2. lia.
    + symmetry. apply Z.div_small. split; [lia|].
      eapply Z.lt_le_trans; [apply Hlog|]. apply Z.pow_le_mono_r; lia.
Qed.

Lemma left_half_high i : width L = 128 → 64 < nlen L → 0 ≤ i < nmax L →
  (if clen L <? 64
   then if u64 (nlen L - 64) <? u64 (64 - LeadingZeros64 i)
        then Z.lor (base L / 2 ^ 64) (shr64 i (u64 (nlen L - 64)))
        else base L / 2 ^ 64
   else base L / 2 ^ 64) = Z.lor (base L / 2 ^ 64) (i * 2 ^ (128 - nlen L) / 2 ^ 64).
Proof using HL.
  intros Hw Hn Hi. pose proof (lo_nlen L HL). pose proof (index_bound i Hi).
  rewrite offset_left_high by lia. destruct (Z.ltb_spec (clen L) 64).
  - rewrite <- (shifted_index i (nlen L - 64)) by lia.
    destruct (_ <? _); [done|]. by rewrite Z.lor_0_r.
  - rewrite <- offset_left_high by lia. rewrite (Z.div_small (i * _)); [by rewrite Z.lor_0_r|].
    pose proof (offset_bound L HL i Hi) as Hob. unfold hostbits in Hob. rewrite Hw in Hob.
    assert (2 ^ (128 - clen L) ≤ 2 ^ 64) by (apply Z.pow_le_mono_r; lia). lia.
Qed.

Lemma index_block_v6 i : width L = 128 → 0 ≤ i < nmax L →
  indexToCIDRBlock s i = Ok (node_block L i).
Proof using HNL HL Hs.
  intros Hw Hi. unfold indexToCIDRBlock.
  rewrite cluster_IP, IsIPv4_valid, IsIPv6_valid by apply base_valid.
  rewrite bool_decide_false by lia. rewrite bool_decide_true by done.
  rewrite (sl_node _ _ Hs), (sl_clen _ _ Hs), index_u64 by done.
  pose proof base_valid as Hb. rewrite Hw in Hb |- *.
  rewrite Uint64_left, Uint64_right by apply Hb. simpl.
  pose proof (lo_nlen L HL). pose proof (clen_bound L HL). pose proof (base_bound L HL).
  pose proof (pow2_pos _ (hostbits_nonneg L HL)).
  pose proof (node_addr_lor i Hi) as Hsum. pose proof (offset_bound L HL i Hi) as Hob.
  assert (2 ^ (width L - clen L) ≤ 2 ^ 128) by (apply Z.pow_le_mono_r; lia).
  assert (Hfin : ∀ l r, l = node_addr L i / 2 ^ 64 → r = node_addr L i mod 2 ^ 64 →
    mkIPNet (PutUint64 l ++ PutUint64 r) (nodeMask s) = node_block L i).
  { intros l r -> ->. rewrite PutUint64_halves by (unfold node_addr; nia).
    unfold node_block, block. by rewrite (sl_mask _ _ Hs), Hw. }
  assert (hostbits L = 128 - nlen L) as Hh by (unfold hostbits; lia).
  rewrite Hh in Hsum, Hob. destruct (Z.leb_spec (nlen L) 64) as [Hn|Hn]; simpl; f_equal; apply Hfin;
    rewrite Hsum, ?lor_div, ?lor_mod by lia.
  - f_equal. apply offset_left_low; lia.
  - rewrite (proj2 (offset_left_low i (nlen L) ltac:(lia) ltac:(lia))). by rewrite Z.lor_0_r.
  - by apply left_half_high.
  - f_equal. apply offset_right. lia.
Qed.

(** The block of an index is the [i]-th node block, for both families. *)
Lemma indexToCIDRBlock_node i : 0 ≤ i < nmax L → indexToCIDRBlock s i = Ok (node_block L i).
Proof using HNL HL Hs.
  intros Hi. destruct (width_cases L HL); [by apply index_block_v4|by apply index_block_v6].
Qed.

(** * From an address to its index *)

Definition index_of (x : Z) : Z := (x - base L) / 2 ^ hostbits L.

Lemma index_of_bound x : in_block (width L) (base L) (clen L) x → 0 ≤ index_of x < nmax L.
Proof using HL.
  unfold in_block. rewrite cluster_size by done. intros Hx.
  pose proof (pow2_pos _ (hostbits_nonneg L HL)). unfold index_of.
  split; [apply Z.div_pos; lia|apply Z.div_lt_upper_bound; lia].
Qed.

Lemma index_of_trunc x : base L ≤ x → index_of (trunc (hostbits L) x) = index_of x.
Proof using HL.
  intros Hx. pose proof (hostbits_nonneg L HL) as Hh. pose proof (pow2_pos _ Hh).
  pose proof (base_aligned_host L HL) as Hb. unfold index_of.
  apply Z.mod_divide in Hb as [b Hb]; [|lia]. rewrite trunc_mul, Hb by done.
  replace (x / 2 ^ hostbits L * 2 ^ hostbits L - b * 2 ^ hostbits L)
    with ((x / 2 ^ hostbits L - b) * 2 ^ hostbits L) by lia.
  rewrite Z.div_mul by lia. replace (x - b * 2 ^ hostbits L) with (x + (- b) * 2 ^ hostbits L) by lia.
  rewrite Z.div_add by lia. lia.
Qed.

Lemma trunc_in_cluster x : in_block (width L) (base L) (clen L) x →
  in_block (width L) (base L) (clen L) (trunc (hostbits L) x).
Proof using HL.
  unfold in_block. intros Hx. pose proof (hostbits_nonneg L HL) as Hh. pose proof (pow2_pos _ Hh).
  pose proof (base_aligned_host L HL) as Hb. pose proof (base_bound L HL).
  pose proof (trunc_bound (hostbits L) x Hh). split; [|lia].
  rewrite trunc_mul by done. pose proof (Z.div_mod (base L) (2 ^ hostbits L)).
  assert (base L / 2 ^ hostbits L ≤ x / 2 ^ hostbits L) by (apply Z.div_le_mono; lia). nia.
Qed.

Lemma lxor_base x : in_block (width L) (base L) (clen L) x → Z.lxor (base L) x = x - base L.
Proof using HL.
  unfold in_block. intros Hx. pose proof (clen_bound L HL).
  replace x with (base L + (x - base L)) at 1 by lia.
  apply (lxor_aligned _ _ (width L - clen L)); [lia|by apply base_aligned|lia].
Qed.

Lemma getIndexForIP_v4 x : width L = 32 → in_block (width L) (base L) (clen L) x →
  getIndexForIP s (ipOf (width L) x) = Ok (index_of x).
Proof using HL Hs.
  intros Hw Hx. pose proof (cluster_addr_valid L HL x Hx) as Hv. pose proof base_valid as Hb.
  unfold getIndexForIP. rewrite cluster_IP, To4_ipOf, decide_True by done.
  assert (∀ v, valid_addr (width L) v → Uint32 (ipOf (width L) v) = Ok v) as Hu
    by (rewrite Hw; apply Uint32_ipOf).
  rewrite !Hu by done. simpl.
  rewrite (sl_node _ _ Hs), (sl_max _ _ Hs), lxor_base by done.
  pose proof (lo_nlen L HL). pose proof (clen_bound L HL). pose proof (index_of_bound x Hx).
  pose proof (nmax_bound L HL). unfold in_block in Hx.
  assert (u32 (32 - nlen L) = hostbits L) as -> by (unfold u32, hostbits; rewrite Hw, Z.mod_small; lia).
  assert (shr32 (x - base L) (hostbits L) = index_of x) as ->.
  { unfold shr32, index_of. destruct (Z.leb_spec 32 (hostbits L)) as [Hh|Hh].
    - symmetry. apply Z.div_small. destruct Hv as (_ & Hv & _). rewrite Hw in Hv.
      assert (2 ^ 32 ≤ 2 ^ hostbits L) by (apply Z.pow_le_mono_r; lia). pose proof (base_bound L HL). lia.
    - apply Z.shiftr_div_pow2. apply hostbits_nonneg. done. }
  assert (u32 (nmax L) = nmax L) as -> by (apply Z.mod_small; lia).
  destruct (Z.leb_spec (nmax L) (index_of x)); [lia|done].
Qed.

Lemma getIndexForIP_v6 x : width L = 128 → in_block (width L) (base L) (clen L) x →
  getIndexForIP s (ipOf (width L) x) = Ok (index_of x).
Proof using HL HNL Hs.
  intros Hw Hx. pose proof (cluster_addr_valid L HL x Hx) as Hv. pose proof base_valid as Hb.
  unfold getIndexForIP. rewrite cluster_IP, To4_ipOf, IsIPv6_valid by done.
  rewrite decide_False by lia. rewrite bool_decide_true by done.
  rewrite !be_val_ipOf, (sl_node _ _ Hs), (sl_max _ _ Hs), lxor_base by done.
  pose proof (lo_nlen L HL). pose proof (clen_bound L HL). pose proof (index_of_bound x Hx).
  pose proof (nmax_bound L HL).
  assert (u64 (IPv6len * 8 - nlen L) = hostbits L) as ->
    by (unfold u64, hostbits, IPv6len; rewrite Hw, Z.mod_small; lia).
  rewrite Z.shiftr_div_pow2 by (by apply hostbits_nonneg). fold (index_of x).
  assert (u64 (index_of x) = index_of x) as -> by (apply Z.mod_small; lia).
  assert (u64 (nmax L) = nmax L) as -> by (apply Z.mod_small; lia).
  destruct (Z.leb_spec (nmax L) (index_of x)); [lia|]. simpl. f_equal.
  unfold s64. rewrite Z.mod_small; lia.
Qed.

(** The index of an address of the cluster is that of the node block holding it. *)
Lemma getIndexForIP_addr x : in_block (width L) (base L) (clen L) x →
  getIndexForIP s (ipOf (width L) x) = Ok (index_of x).
Proof using HL HNL Hs.
  intros Hx. destruct (width_cases L HL); [by apply getIndexForIP_v4|by apply getIndexForIP_v6].
Qed.

Lemma getIndexForIP_masked x : in_block (width L) (base L) (clen L) x →
  getIndexForIP s (IP_Mask (ipOf (width L) x) (nodeMask s)) = Ok (index_of x).
Proof using HL HNL Hs.
  intros Hx. pose proof (lo_nlen L HL). pose proof (clen_bound L HL).
  rewrite (sl_mask _ _ Hs), IP_Mask_ipOf by (lia || by apply cluster_addr_valid).
  fold (hostbits L). rewrite getIndexForIP_addr by (by apply trunc_in_cluster).
  unfold in_block in Hx. by rewrite index_of_trunc by lia.
Qed.

Lemma index_of_node_addr i : index_of (node_addr L i) = i.
Proof using HL.
  unfold index_of, node_addr. pose proof (pow2_pos _ (hostbits_nonneg L HL)).
  replace (base L + i * 2 ^ hostbits L - base L) with (i * 2 ^ hostbits L) by lia. apply Z.div_mul. lia.
Qed.

(** An address lies in the node block of its index, and in no other. *)
Lemma index_of_in_block x i : in_block (width L) (node_addr L i) (nlen L) x ↔ index_of x = i.
Proof using HL.
  unfold in_block, node_addr, index_of. fold (hostbits L).
  pose proof (pow2_pos _ (hostbits_nonneg L HL)) as Hp.
  pose proof (Z.div_mod (x - base L) (2 ^ hostbits L) ltac:(lia)).
  pose proof (Z.mod_pos_bound (x - base L) (2 ^ hostbits L) Hp). split.
  - intros Hx. symmetry. apply (Z.div_unique _ _ _ (x - base L - i * 2 ^ hostbits L)); lia.
  - intros <-. lia.
Qed.

(** * The indices a CIDR touches *)

Definition last_addr (v p : Z) : Z := v + 2 ^ (width L - p) - 1.

Lemma cluster_overlap_test v p : valid_block (width L) v p →
  negb (Contains (set_ClusterCIDR s) (IP_Mask (ipOf (width L) v) (IPNet_Mask (set_ClusterCIDR s))))
  && negb (Contains (block (width L) v p) (IP_Mask (IPNet_IP (set_ClusterCIDR s)) (CIDRMask p (width L))))
  = negb (overlaps (cluster_block L) (block (width L) v p)).
Proof using Hs. intros Hv. unfold overlaps. by rewrite negb_orb, (sl_cluster _ _ Hs). Qed.

(** The code's last address: [ip | ^mask]. *)
Lemma lor_hostmask v p : valid_block (width L) v p → Z.lor v (2 ^ (width L - p) - 1) = last_addr v p.
Proof using.
  intros [(_ & Hv & _) Hp Ha]. pose proof (pow2_pos (width L - p)).
  rewrite (lor_aligned _ _ (width L - p)) by (done || lia). unfold last_addr. lia.
Qed.

Lemma last_addr_cluster v p : valid_block (width L) v p → clen L < p →
  overlaps (cluster_block L) (block (width L) v p) = true →
  in_block (width L) (base L) (clen L) v ∧ in_block (width L) (base L) (clen L) (last_addr v p).
Proof using HL.
  intros Hv Hp Ho. apply overlaps_div in Ho; [|apply HL|done].
  destruct (Hv) as [_ Hpw Ha]. pose proof (clen_bound L HL).
  assert (v / 2 ^ (width L - clen L) = base L / 2 ^ (width L - clen L)) as Heq.
  { destruct Ho as [Ho|Ho]; [done|].
    assert (2 ^ (width L - clen L) = 2 ^ (width L - p) * 2 ^ (p - clen L)) as ->
      by (rewrite <- Z.pow_add_r by lia; f_equal; lia).
    pose proof (pow2_pos (width L - p)). pose proof (pow2_pos (p - clen L)).
    rewrite <- !Z.div_div by lia. by rewrite Ho. }
  pose proof (base_aligned L HL) as Hb. unfold in_block, last_addr.
  pose proof (pow2_pos (width L - clen L)). pose proof (pow2_pos (width L - p)).
  pose proof (Z.div_mod v (2 ^ (width L - clen L))) as D1.
  pose proof (Z.div_mod (base L) (2 ^ (width L - clen L))) as D2.
  pose proof (Z.mod_pos_bound v (2 ^ (width L - clen L))).
  assert (v mod 2 ^ (width L - clen L) + 2 ^ (width L - p) ≤ 2 ^ (width L - clen L)) as Hle.
  { apply Z.mod_divide in Ha as [q Hq]; [|lia].
    assert (2 ^ (width L - clen L) = 2 ^ (p - clen L) * 2 ^ (width L - p)) as E
      by (rewrite <- Z.pow_add_r by lia; f_equal; lia).
    rewrite E, Hq, Z.mul_mod_distr_r by (pose proof (pow2_pos (p - clen L)); lia).
    pose proof (Z.mod_pos_bound q (2 ^ (p - clen L)) (pow2_pos (p - clen L) ltac:(lia))). nia. }
  rewrite Heq in D1. lia.
Qed.

Lemma Mask_Size_block v p : valid_block (width L) v p → Mask_Size (CIDRMask p (width L)) = (p, width L).
Proof using HL. intros [(Hw & _) Hp _]. by apply Mask_Size_CIDRMask. Qed.

Lemma indices_v4 v p : width L = 32 → valid_block (width L) v p → clen L < p →
  overlaps (cluster_block L) (block (width L) v p) = true →
  getBeginningAndEndIndices s (Some (block (width L) v p)) = Ok (index_of v, index_of (last_addr v p)).
Proof using HL HNL Hs.
  intros Hw Hv Hp Ho. destruct (last_addr_cluster v p Hv Hp Ho) as [Hin Hlast].
  unfold getBeginningAndEndIndices. rewrite block_IP, block_Mask, (Mask_Size_block v), cluster_overlap_test, Ho by done.
  simpl negb. rewrite (sl_clen _ _ Hs). destruct (Z.ltb_spec (clen L) p); [|lia].
  rewrite getIndexForIP_masked, IsIPv4_valid by (done || apply Hv). cbn [mbind exit_bind mret exit_ret].
  rewrite bool_decide_true by done.
  assert (Uint32 (ipOf (width L) v) = Ok v) as -> by (rewrite Hw in Hv |- *; apply Uint32_ipOf, Hv).
  assert (Uint32 (CIDRMask p (width L)) = Ok (2 ^ 32 - 2 ^ (32 - p))) as ->
    by (rewrite Hw; apply Uint32_mask; destruct Hv; lia).
  cbn [mbind exit_bind mret exit_ret]. unfold not32.
  replace (2 ^ 32 - 1 - (2 ^ 32 - 2 ^ (32 - p))) with (2 ^ (width L - p) - 1) by (rewrite Hw; lia).
  rewrite lor_hostmask by done.
  assert (PutUint32 (last_addr v p) = ipOf (width L) (last_addr v p)) as -> by (by rewrite Hw).
  by rewrite getIndexForIP_masked.
Qed.

Lemma indices_v6 v p : width L = 128 → valid_block (width L) v p → clen L < p →
  overlaps (cluster_block L) (block (width L) v p) = true →
  getBeginningAndEndIndices s (Some (block (width L) v p)) = Ok (index_of v, index_of (last_addr v p)).
Proof using HL HNL Hs.
  intros Hw Hv Hp Ho. destruct (last_addr_cluster v p Hv Hp Ho) as [Hin Hlast].
  unfold getBeginningAndEndIndices. rewrite block_IP, block_Mask, (Mask_Size_block v), cluster_overlap_test, Ho by done.
  simpl negb. rewrite (sl_clen _ _ Hs). destruct (Z.ltb_spec (clen L) p); [|lia].
  rewrite getIndexForIP_masked, IsIPv4_valid, IsIPv6_valid by (done || apply Hv). cbn [mbind exit_bind mret exit_ret].
  rewrite bool_decide_false by lia. rewrite bool_decide_true by done.
  pose proof (lor_hostmask v p Hv) as Hlor. destruct (Hv) as [(_ & Hvb & _) Hpw _].
  assert (CIDRMask p (width L) = ipOf (width L) (2 ^ width L - 2 ^ (width L - p))) as ->
    by (apply CIDRMask_ipOf; [by apply width_cases|lia]).
  pose proof (pow2_pos (width L - p)). assert (2 ^ (width L - p) ≤ 2 ^ width L) by (apply Z.pow_le_mono_r; lia).
  rewrite Hw in * |- . rewrite Hw.
  rewrite !Uint64_left, !Uint64_right by lia. cbn [mbind exit_bind mret exit_ret].
  destruct (not64_halves (2 ^ 128 - 2 ^ (128 - p))) as [-> ->]; [lia|].
  replace (2 ^ 128 - 1 - (2 ^ 128 - 2 ^ (128 - p))) with (2 ^ (128 - p) - 1) by lia.
  rewrite <- lor_div, <- lor_mod, Hlor by lia.
  rewrite PutUint64_halves by (unfold in_block in Hlast; pose proof (base_bound L HL); lia).
  rewrite <- Hw at 1. by rewrite getIndexForIP_masked by (by rewrite Hw).
Qed.

Lemma indices_inside v p : valid_block (width L) v p → clen L < p →
  overlaps (cluster_block L) (block (width L) v p) = true →
  getBeginningAndEndIndices s (Some (block (width L) v p)) = Ok (index_of v, index_of (last_addr v p)).
Proof using HL HNL Hs. destruct (width_cases L HL); [by apply indices_v4|by apply indices_v6]. Qed.

Lemma indices_covering v p : valid_block (width L) v p → p ≤ clen L →
  overlaps (cluster_block L) (block (width L) v p) = true →
  getBeginningAndEndIndices s (Some (block (width L) v p)) = Ok (0, nmax L - 1).
Proof using HL Hs.
  intros Hv Hp Ho. unfold getBeginningAndEndIndices.
  rewrite block_IP, block_Mask, (Mask_Size_block v), cluster_overlap_test, Ho by done. simpl negb.
  rewrite (sl_clen _ _ Hs), (sl_max _ _ Hs). destruct (Z.ltb_spec (clen L) p); [lia|done].
Qed.

Lemma indices_outside v p : valid_block (width L) v p →
  overlaps (cluster_block L) (block (width L) v p) = false →
  getBeginningAndEndIndices s (Some (block (width L) v p))
  = Err (Errorf "cidr %v is out the range of cluster cidr %v"
           [IPNet_String (block (width L) v p); IPNet_String (cluster_block L)]).
Proof using HL Hs.
  intros Hv Ho. unfold getBeginningAndEndIndices.
  rewrite block_IP, block_Mask, (Mask_Size_block v), cluster_overlap_test, Ho by done. simpl negb.
  by rewrite (sl_cluster _ _ Hs).
Qed.

(** The node blocks that share an address with a CIDR. *)
Definition touches (v p i : Z) : bool := overlaps (node_block L i) (block (width L) v p).

Lemma touches_spec v p i : valid_block (width L) v p → 0 ≤ i < nmax L →
  touches v p i = true ↔ ∃ x, index_of x = i ∧ in_block (width L) v p x.
Proof using HL.
  intros Hv Hi. unfold touches, node_block. rewrite overlaps_spec by auto using node_block_valid.
  apply exist_proper. intros x. by rewrite index_of_in_block.
Qed.

Lemma index_of_mono x y : x ≤ y → index_of x ≤ index_of y.
Proof using HL. intros. apply Z.div_le_mono; [apply pow2_pos, hostbits_nonneg, HL|lia]. Qed.

(** Inside the cluster, exactly the indices from the first to the last address. *)
Lemma touches_range v p i : valid_block (width L) v p → clen L < p →
  overlaps (cluster_block L) (block (width L) v p) = true → 0 ≤ i < nmax L →
  touches v p i = true ↔ index_of v ≤ i ≤ index_of (last_addr v p).
Proof using HL.
  intros Hv Hp Ho Hi. rewrite touches_spec by done.
  pose proof (pow2_pos (hostbits L) (hostbits_nonneg L HL)) as Hh.
  assert (0 < 2 ^ (width L - p)) by (destruct Hv; apply pow2_pos; lia). unfold in_block. split.
  - intros (x & <- & Hx). split; apply index_of_mono; unfold last_addr; lia.
  - intros Hr. unfold index_of in Hr. pose proof (Z.div_mod (v - base L) (2 ^ hostbits L) ltac:(lia)).
    pose proof (Z.div_mod (last_addr v p - base L) (2 ^ hostbits L) ltac:(lia)).
    pose proof (Z.mod_pos_bound (v - base L) (2 ^ hostbits L) Hh).
    pose proof (Z.mod_pos_bound (last_addr v p - base L) (2 ^ hostbits L) Hh).
    exists (Z.max v (node_addr L i)). unfold last_addr, node_addr in *.
    split; [|nia]. apply index_of_in_block. unfold in_block, node_addr. fold (hostbits L). nia.
Qed.

(** A CIDR that covers the cluster touches every node block. *)
Lemma touches_covering v p i : valid_block (width L) v p → p ≤ clen L →
  overlaps (cluster_block L) (block (width L) v p) = true → 0 ≤ i < nmax L → touches v p i = true.
Proof using HL.
  intros Hv Hp Ho Hi. rewrite touches_spec by done. exists (node_addr L i).
  split; [by apply index_of_node_addr|].
  pose proof (node_addr_in_cluster L HL i Hi) as Hin.
  apply overlaps_spec in Ho as (x & Hx1 & Hx2); [|apply HL|done].
  destruct (Hv) as [_ Hpw Ha]. pose proof (clen_bound L HL). pose proof (base_aligned L HL) as Hb.
  unfold in_block in *. pose proof (pow2_pos (width L - clen L)). pose proof (pow2_pos (width L - p)).
  assert (base L mod 2 ^ (width L - p) + 2 ^ (width L - clen L) ≤ 2 ^ (width L - p)) as Hle.
  { assert (2 ^ (width L - p) = 2 ^ (clen L - p) * 2 ^ (width L - clen L)) as E
      by (rewrite <- Z.pow_add_r by lia; f_equal; lia).
    apply Z.mod_divide in Hb as [q Hq]; [|lia].
    rewrite E, Hq, Z.mul_mod_distr_r by (pose proof (pow2_pos (clen L - p)); lia).
    pose proof (Z.mod_pos_bound q (2 ^ (clen L - p)) (pow2_pos (clen L - p) ltac:(lia))). nia. }
  assert (base L / 2 ^ (width L - p) = v / 2 ^ (width L - p)) as Hd.
  { pose proof (Z.div_mod v (2 ^ (width L - p))) as D.
    pose proof (Z.div_mod (base L) (2 ^ (width L - p))) as D'.
    pose proof (Z.mod_pos_bound (base L) (2 ^ (width L - p))). rewrite Ha in D. nia. }
  pose proof (Z.div_mod v (2 ^ (width L - p))). pose proof (Z.div_mod (base L) (2 ^ (width L - p))).
  pose proof (Z.mod_pos_bound (base L) (2 ^ (width L - p))). rewrite Hd in *. lia.
Qed.
End index.
