(* ===== verification/SetProps.v ===== *)
(** [MultiCIDRSet] refines a set of indices.

    [set_inv L A s]: the concrete set [s] has geometry [L] and its allocation map
    holds exactly the keys of the indices in [A]; its counter is the size of [A]
    and its cursor is an index.  Every method is characterised by what it does to
    [A]: [Occupy] adds the touched indices, [Release] removes them,
    [NextCandidate] finds the first free index from the cursor on,
    [CIDRAllocated] and [CIDROverlaps] are membership tests. *)
From S2P Require Import Prelude GoNet CIDRTheory CIDRText NetUtils MultiCIDRSet IndexTheory IndexProps.

Definition key (L : layout) (i : Z) : string := IPNet_String (node_block L i).

Record set_inv (L : layout) (A : gset Z) (s : MultiCIDRSet) : Prop := {
  si_layout : set_layout L s;
  si_bound : ∀ i, i ∈ A → 0 ≤ i < nmax L;
  si_map : ∀ k, is_Some (allocatedCIDRMap s !! k) ↔ ∃ i, i ∈ A ∧ k = key L i;
  si_count : allocatedCIDRs s = Z.of_nat (size A);
  si_next : 0 ≤ nextCandidate s < nmax L
}.

(** What the methods never write. *)
Definition params (s : MultiCIDRSet) : MultiCIDRSet :=
  with_next 0 (with_count (λ _, 0) (with_map (λ _, ∅) s)).

Definition is_alloc (e : MetricEvent) : bool :=
  match e with cidrSetAllocations_Inc _ _ => true | _ => false end.
Definition is_release (e : MetricEvent) : bool :=
  match e with cidrSetReleases_Inc _ _ => true | _ => false end.
Definition count_events (f : MetricEvent → bool) (t : list MetricEvent) : Z :=
  Z.of_nat (length (filter f t)).

(** The counters exported to Prometheus move in step with the set's own. *)
Definition metric_balance (st : SetState) : Z :=
  allocatedCIDRs st.1 - (count_events is_alloc st.2 - count_events is_release st.2).

(** All the indices of a geometry. *)
Definition indices (L : layout) : gset Z := list_to_set (zrange 0 (nmax L - 1)).

Definition touched (L : layout) (v p : Z) : gset Z :=
  list_to_set (filter (λ i, touches L v p i = true) (zrange 0 (nmax L - 1))).

Lemma params_layout L s s' : params s' = params s → set_layout L s → set_layout L s'.
Proof.
  unfold params, with_next, with_count, with_map. simpl.
  intros [= ???????] [?????]. split; congruence.
Qed.

Lemma params_label s s' : params s' = params s → Label s' = Label s ∧ clusterCIDRName s' = clusterCIDRName s.
Proof. unfold params, with_next, with_count, with_map. simpl. by intros [= ???????]. Qed.

(** [mred] for the methods of a set. *)
Ltac sred := unfold getSet, modifySet, emit; mred.

Section abstraction.
Context (L : layout) (HL : layout_ok L).
Implicit Types (A : gset Z) (s : MultiCIDRSet) (t : list MetricEvent).

Lemma elem_of_indices i : i ∈ indices L ↔ 0 ≤ i < nmax L.
Proof. unfold indices. rewrite elem_of_list_to_set, elem_of_zrange. lia. Qed.

Lemma size_indices : Z.of_nat (size (indices L)) = nmax L.
Proof using HL.
  unfold indices. rewrite size_list_to_set by apply NoDup_zrange.
  unfold zrange. rewrite zrange_from_seqZ, length_seqZ. pose proof (nmax_pos L HL). lia.
Qed.

Lemma alloc_size_bound A s : set_inv L A s → Z.of_nat (size A) ≤ nmax L.
Proof using HL.
  intros Hs. rewrite <- size_indices. apply Nat2Z.inj_le, subseteq_size.
  intros i Hi%(si_bound _ _ _ Hs). by apply elem_of_indices.
Qed.

(** A set that counts as many blocks as it has has them all. *)
Lemma full_alloc A s i : set_inv L A s → Z.of_nat (size A) = nmax L → 0 ≤ i < nmax L → i ∈ A.
Proof using HL.
  intros Hs Hfull Hi%elem_of_indices. assert (A ≡ indices L) as ->; [|done]. apply set_subseteq_size_equiv.
  - intros x Hx%(si_bound _ _ _ Hs). by apply elem_of_indices.
  - pose proof size_indices. lia.
Qed.

Lemma elem_of_touched v p i : i ∈ touched L v p ↔ 0 ≤ i < nmax L ∧ touches L v p i = true.
Proof. unfold touched. rewrite elem_of_list_to_set, list_elem_of_filter, elem_of_zrange. naive_solver lia. Qed.

Lemma lookup_key A s i : set_inv L A s → 0 ≤ i < nmax L →
  (i ∈ A ↔ is_Some (allocatedCIDRMap s !! key L i)).
Proof using HL.
  intros Hs Hi. rewrite (si_map _ _ _ Hs). split; [by eauto|].
  intros (j & Hj & Heq). apply node_key_inj in Heq as ->; [done|done|done|].
  by eapply si_bound.
Qed.

(** * Occupying and releasing one block *)

Lemma set_inv_insert A s i : set_inv L A s → 0 ≤ i < nmax L → i ∉ A →
  set_inv L ({[i]} ∪ A) (with_count (λ n, n + 1) (with_map (insert (key L i) true) s)).
Proof using HL.
  intros Hs Hi HiA. split; simpl.
  - eapply params_layout; [|apply Hs]. done.
  - intros j [->%elem_of_singleton|Hj]%elem_of_union; [done|]. by eapply si_bound.
  - intros k. rewrite lookup_insert_is_Some'. rewrite (si_map _ _ _ Hs). set_solver.
  - rewrite (si_count _ _ _ Hs), size_union, size_singleton by set_solver. lia.
  - apply (si_next _ _ _ Hs).
Qed.

Lemma set_inv_delete A s i : set_inv L A s → 0 ≤ i < nmax L → i ∈ A →
  set_inv L (A ∖ {[i]}) (with_count (λ n, n - 1) (with_map (delete (key L i)) s)).
Proof using HL.
  intros Hs Hi HiA. split; simpl.
  - eapply params_layout; [|apply Hs]. done.
  - intros j [Hj _]%elem_of_difference. by eapply si_bound.
  - intros k. rewrite lookup_delete_is_Some, (si_map _ _ _ Hs). split.
    + intros (Hne & j & Hj & ->). exists j. set_solver.
    + intros (j & [Hj Hne]%elem_of_difference & ->). split; [|by eauto].
      intros Heq. apply node_key_inj in Heq as ->; [set_solver|done|done|by eapply si_bound].
  - rewrite (si_count _ _ _ Hs), size_difference, size_singleton by set_solver.
    assert (size A ≠ 0%nat) by (intros E%size_empty_inv; set_solver). lia.
  - apply (si_next _ _ _ Hs).
Qed.
End abstraction.

Section setprops.
Context `{HN : !NetUtils} (HNL : NetUtilsLaws HN).
Context (L : layout) (HL : layout_ok L).
Implicit Types (A : gset Z) (s : MultiCIDRSet) (t : list MetricEvent).

Lemma set_block A s i : set_inv L A s → 0 ≤ i < nmax L → indexToCIDRBlock s i = Ok (node_block L i).
Proof using HNL HL. intros Hs Hi. apply indexToCIDRBlock_node; [done|done|apply Hs|done]. Qed.

Lemma occupyBlock_spec A s t i : set_inv L A s → 0 ≤ i < nmax L →
  ∃ s' t', occupyBlock i (s, t) = (Ok tt, (s', t')) ∧ set_inv L ({[i]} ∪ A) s' ∧ params s' = params s
    ∧ nextCandidate s' = nextCandidate s ∧ metric_balance (s', t') = metric_balance (s, t).
Proof using HNL HL.
  intros Hs Hi. unfold occupyBlock. sred. rewrite (set_block A) by done. cbn beta iota.
  destruct (decide (i ∈ A)) as [HiA|HiA].
  - destruct (proj1 (lookup_key L HL A s i Hs Hi) HiA) as [b Hb]. unfold key in Hb. rewrite Hb.
    exists s, t. split_and!; try done. by replace ({[i]} ∪ A) with A by set_solver.
  - destruct (allocatedCIDRMap s !! IPNet_String (node_block L i)) eqn:Hb.
    { exfalso. apply HiA, (lookup_key L HL A s i Hs Hi). by eexists. }
    eexists _, _. split; [reflexivity|]. split; [by apply set_inv_insert|].
    split_and!; [done|done|]. unfold metric_balance, count_events; simpl.
    rewrite !filter_app, !length_app. simpl. lia.
Qed.

Lemma releaseBlock_spec A s t i : set_inv L A s → 0 ≤ i < nmax L →
  ∃ s' t', releaseBlock i (s, t) = (Ok tt, (s', t')) ∧ set_inv L (A ∖ {[i]}) s' ∧ params s' = params s
    ∧ nextCandidate s' = nextCandidate s ∧ metric_balance (s', t') = metric_balance (s, t).
Proof using HNL HL.
  intros Hs Hi. unfold releaseBlock. sred. rewrite (set_block A) by done. cbn beta iota.
  destruct (decide (i ∈ A)) as [HiA|HiA].
  - destruct (proj1 (lookup_key L HL A s i Hs Hi) HiA) as [b Hb]. unfold key in Hb. rewrite Hb.
    eexists _, _. split; [reflexivity|]. split; [by apply set_inv_delete|].
    split_and!; [done|done|]. unfold metric_balance, count_events; simpl.
    rewrite !filter_app, !length_app. simpl. lia.
  - destruct (allocatedCIDRMap s !! IPNet_String (node_block L i)) eqn:Hb.
    { exfalso. apply HiA, (lookup_key L HL A s i Hs Hi). by eexists. }
    exists s, t. split_and!; try done. by replace (A ∖ {[i]}) with A by set_solver.
Qed.

(** A loop of block operations, each of which changes the index set by [f]. *)
Lemma block_loop (op : Z → M SetState unit) (f : Z → gset Z → gset Z) l A s t :
  (∀ A s t i, set_inv L A s → 0 ≤ i < nmax L →
    ∃ s' t', op i (s, t) = (Ok tt, (s', t')) ∧ set_inv L (f i A) s' ∧ params s' = params s
      ∧ nextCandidate s' = nextCandidate s ∧ metric_balance (s', t') = metric_balance (s, t)) →
  (∀ i, i ∈ l → 0 ≤ i < nmax L) → set_inv L A s →
  ∃ s' t', forM_ l op (s, t) = (Ok tt, (s', t')) ∧ set_inv L (foldl (λ A i, f i A) A l) s'
    ∧ params s' = params s ∧ nextCandidate s' = nextCandidate s
    ∧ metric_balance (s', t') = metric_balance (s, t).
Proof.
  intros Hop. revert A s t. induction l as [|i l IH]; intros A s t Hl Hs; [by exists s, t|].
  destruct (Hop A s t i Hs) as (s1 & t1 & E1 & Hs1 & Hp1 & Hn1 & Hm1); [set_solver|].
  destruct (IH (f i A) s1 t1) as (s2 & t2 & E2 & Hs2 & Hp2 & Hn2 & Hm2); [set_solver|done|].
  exists s2, t2. cbn [forM_]. rewrite (M_bind_Ok _ _ _ _ _ E1). split_and!; [done|done|congruence..].
Qed.

Lemma foldl_insert A l : foldl (λ A i, {[i]} ∪ A) A l = A ∪ list_to_set l.
Proof. revert A. induction l as [|i l IH]; intros A; simpl; [set_solver|]. rewrite IH. set_solver. Qed.

Lemma foldl_delete A l : foldl (λ A i, A ∖ {[i]}) A l = A ∖ list_to_set l.
Proof. revert A. induction l as [|i l IH]; intros A; simpl; [set_solver|]. rewrite IH. set_solver. Qed.

(** The range of indices the methods loop over is what the CIDR touches. *)
Lemma indices_touched A s v p : set_inv L A s → valid_block (width L) v p →
  overlaps (cluster_block L) (block (width L) v p) = true →
  ∃ b e, getBeginningAndEndIndices s (Some (block (width L) v p)) = Ok (b, e)
    ∧ (list_to_set (zrange b e) : gset Z) = touched L v p.
Proof using HNL HL.
  intros Hs Hv Ho. destruct (decide (clen L < p)) as [Hp|Hp].
  - eexists _, _. split; [apply indices_inside; try done; apply Hs|].
    apply set_eq. intros i. rewrite elem_of_list_to_set, elem_of_zrange, elem_of_touched.
    destruct (last_addr_cluster L HL v p Hv Hp Ho) as [H1 H2].
    pose proof (index_of_bound L HL _ H1). pose proof (index_of_bound L HL _ H2).
    split; [intros Hr|intros [Hi Ht]].
    + assert (0 ≤ i < nmax L) by lia. split; [done|]. by apply touches_range.
    + by apply touches_range in Ht.
  - eexists _, _. split; [apply indices_covering; try done; [apply Hs|lia]|].
    apply set_eq. intros i. rewrite elem_of_list_to_set, elem_of_zrange, elem_of_touched.
    split; [intros Hr|lia]. split; [lia|]. apply touches_covering; [done|done|lia|done|lia].
Qed.

Lemma usage_balance s t label name a m :
  metric_balance (s, t ++ [cidrSetUsage_Set label name a m]) = metric_balance (s, t).
Proof using. unfold metric_balance, count_events; simpl. by rewrite !filter_app, !length_app, !Nat.add_0_r. Qed.

(** * Occupy and Release *)

(** What a method does to a set: the new index set, and the frame. *)
Definition set_step A s t A' (r : exit unit * SetState) : Prop :=
  ∃ s' t', r = (Ok tt, (s', t')) ∧ set_inv L A' s' ∧ params s' = params s
    ∧ nextCandidate s' = nextCandidate s ∧ metric_balance (s', t') = metric_balance (s, t).

Lemma Occupy_inside A s t v p : set_inv L A s → valid_block (width L) v p →
  overlaps (cluster_block L) (block (width L) v p) = true →
  set_step A s t (A ∪ touched L v p) (Occupy (Some (block (width L) v p)) (s, t)).
Proof using HNL HL.
  intros Hs Hv Ho. destruct (indices_touched A s v p Hs Hv Ho) as (b & e & Hidx & Htouched).
  destruct (block_loop occupyBlock (λ i A, {[i]} ∪ A) (zrange b e) A s t)
    as (s' & t' & Hrun & Hs' & Hp & Hn & Hm); [by apply occupyBlock_spec| |done|].
  { intros i Hi. eapply elem_of_touched. rewrite <- Htouched. by apply elem_of_list_to_set. }
  rewrite foldl_insert, Htouched in Hs'. unfold set_step, Occupy. sred. rewrite Hidx.
  cbn beta iota. rewrite Hrun. do 2 eexists. split; [reflexivity|]. by rewrite usage_balance.
Qed.

Lemma Release_inside A s t v p : set_inv L A s → valid_block (width L) v p →
  overlaps (cluster_block L) (block (width L) v p) = true →
  set_step A s t (A ∖ touched L v p) (Release (Some (block (width L) v p)) (s, t)).
Proof using HNL HL.
  intros Hs Hv Ho. destruct (indices_touched A s v p Hs Hv Ho) as (b & e & Hidx & Htouched).
  destruct (block_loop releaseBlock (λ i A, A ∖ {[i]}) (zrange b e) A s t)
    as (s' & t' & Hrun & Hs' & Hp & Hn & Hm); [by apply releaseBlock_spec| |done|].
  { intros i Hi. eapply elem_of_touched. rewrite <- Htouched. by apply elem_of_list_to_set. }
  rewrite foldl_delete, Htouched in Hs'. unfold set_step, Release. sred. rewrite Hidx.
  cbn beta iota. rewrite Hrun. do 2 eexists. split; [reflexivity|]. by rewrite usage_balance.
Qed.

Definition out_of_range_err v p : error :=
  Errorf "cidr %v is out the range of cluster cidr %v"
    [IPNet_String (block (width L) v p); IPNet_String (cluster_block L)].

Lemma Occupy_outside A s t v p : set_inv L A s → valid_block (width L) v p →
  overlaps (cluster_block L) (block (width L) v p) = false →
  Occupy (Some (block (width L) v p)) (s, t) = (Err (out_of_range_err v p), (s, t)).
Proof using HL.
  intros Hs Hv Ho. unfold Occupy. sred. by rewrite (indices_outside L) by (done || apply Hs).
Qed.

Lemma Release_outside A s t v p : set_inv L A s → valid_block (width L) v p →
  overlaps (cluster_block L) (block (width L) v p) = false →
  Release (Some (block (width L) v p)) (s, t) = (Err (out_of_range_err v p), (s, t)).
Proof using HL.
  intros Hs Hv Ho. unfold Release. sred. by rewrite (indices_outside L) by (done || apply Hs).
Qed.

(** A node block touches itself alone. *)
Lemma node_block_in_cluster i : 0 ≤ i < nmax L → overlaps (cluster_block L) (node_block L i) = true.
Proof using HL.
  intros Hi. apply overlaps_spec; [apply HL|by apply node_block_valid|].
  exists (node_addr L i). split; [by apply node_addr_in_cluster|]. unfold in_block.
  pose proof (pow2_pos _ (hostbits_nonneg L HL)). unfold hostbits in *. lia.
Qed.

Lemma touched_node_block i : 0 ≤ i < nmax L → touched L (node_addr L i) (nlen L) = {[i]}.
Proof using HL.
  intros Hi. apply set_eq. intros j. rewrite elem_of_touched, elem_of_singleton. split.
  - intros [Hj Ht]. apply touches_spec in Ht as (x & <- & Hx); [|done|by apply node_block_valid|done].
    by apply index_of_in_block in Hx.
  - intros ->. split; [done|]. apply touches_spec; [done|by apply node_block_valid|done|].
    exists (node_addr L i). rewrite index_of_node_addr by done. split; [done|].
    unfold in_block. pose proof (pow2_pos _ (hostbits_nonneg L HL)). unfold hostbits in *. lia.
Qed.

Lemma Occupy_node A s t i : set_inv L A s → 0 ≤ i < nmax L →
  set_step A s t ({[i]} ∪ A) (Occupy (Some (node_block L i)) (s, t)).
Proof using HNL HL.
  intros Hs Hi. rewrite (union_comm_L {[i]} A), <- touched_node_block by done.
  apply Occupy_inside; [done|by apply node_block_valid|by apply node_block_in_cluster].
Qed.

(** * Membership *)

Lemma CIDRAllocated_node A s i : set_inv L A s → 0 ≤ i < nmax L →
  CIDRAllocated s (node_block L i) = bool_decide (i ∈ A).
Proof using HL.
  intros Hs Hi. unfold CIDRAllocated. apply bool_decide_ext. symmetry. by apply lookup_key.
Qed.

Lemma CIDROverlaps_keys_spec A s keys v p : set_inv L A s → valid_block (width L) v p →
  Permutation keys (map_to_list (allocatedCIDRMap s)).*1 →
  CIDROverlaps_keys keys (block (width L) v p) = true ↔ ∃ i, i ∈ A ∧ touches L v p i = true.
Proof using HNL HL.
  intros Hs Hv Hperm.
  assert (∀ k, In k keys ↔ ∃ i, i ∈ A ∧ k = key L i) as Hk.
  { intros k. rewrite <- (si_map _ _ _ Hs), Hperm, <- list_elem_of_In, list_elem_of_fmap. split.
    - intros ([k' b] & -> & Hkb%elem_of_map_to_list). by exists b.
    - intros [b Hb]. exists (k, b). by rewrite elem_of_map_to_list. }
  unfold CIDROverlaps_keys. rewrite existsb_exists.
  assert (∀ i, i ∈ A → ParseCIDRSloppy (key L i) = inr (ipOf (width L) (node_addr L i), node_block L i)) as Hparse.
  { intros i Hi%(si_bound _ _ _ Hs). by apply ParseCIDRSloppy_String, node_block_valid. }
  split.
  - intros (k & (i & Hi & ->)%Hk & Hov). exists i. split; [done|].
    rewrite Hparse in Hov by done. unfold touches. by rewrite overlaps_comm.
  - intros (i & Hi & Ht). exists (key L i). split; [apply Hk; by eexists|].
    rewrite Hparse by done. unfold touches in Ht. by rewrite overlaps_comm in Ht.
Qed.

Lemma CIDROverlaps_spec A s v p : set_inv L A s → valid_block (width L) v p →
  CIDROverlaps s (block (width L) v p) = true ↔ ∃ i, i ∈ A ∧ touches L v p i = true.
Proof using HNL HL. intros Hs Hv. by apply (CIDROverlaps_keys_spec A s). Qed.

(** * The cursor *)

Lemma rem_succ c : 0 ≤ c < nmax L → Z.rem (c + 1) (nmax L) = (c + 1) mod nmax L.
Proof using HL. intros Hc. pose proof (nmax_pos L HL). apply Z.rem_mod_nonneg; lia. Qed.

Definition slot (c j : Z) : Z := (c + j) mod nmax L.

Lemma slot_bound c j : 0 ≤ slot c j < nmax L.
Proof using HL. apply Z.mod_pos_bound, nmax_pos, HL. Qed.

Lemma slot_succ c j : slot (slot c 1) j = slot c (j + 1).
Proof using HL.
  unfold slot. pose proof (nmax_pos L HL). rewrite Zplus_mod_idemp_l. f_equal. lia.
Qed.

Lemma slot_0 c : 0 ≤ c < nmax L → slot c 0 = c.
Proof using. intros. unfold slot. rewrite Z.add_0_r. by apply Z.mod_small. Qed.

(** Scanning from [c] finds the first free slot, if one is within reach. *)
Lemma nextCandidateLoop_free A s t n i c j : set_inv L A s → 0 ≤ c < nmax L →
  0 ≤ j < Z.of_nat n → (∀ k, 0 ≤ k < j → slot c k ∈ A) → slot c j ∉ A →
  nextCandidateLoop n i c (s, t)
  = (Ok (i + j, inr (node_block L (slot c j))), (with_next (slot c (j + 1)) s, t)).
Proof using HNL HL.
  revert i c j. induction n as [|n IH]; intros i c j Hs Hc Hj Hfull Hfree; [lia|].
  cbn [nextCandidateLoop]. sred. rewrite (set_block A) by done. rewrite (sl_max L s) by apply Hs.
  destruct (allocatedCIDRMap s !! IPNet_String (node_block L c)) eqn:Hk.
  - assert (c ∈ A) as HcA by (apply (lookup_key L HL A s c Hs Hc); by eexists).
    destruct (decide (j = 0)) as [->|Hj0]; [by rewrite slot_0 in Hfree|].
    rewrite rem_succ by done. fold (slot c 1).
    rewrite (IH (i + 1) (slot c 1) (j - 1)); try done.
    + rewrite !slot_succ. do 2 f_equal; [|do 2 f_equal; lia]. f_equal; [lia|]. do 3 f_equal. lia.
    + apply slot_bound.
    + lia.
    + intros k Hk'. rewrite slot_succ. apply Hfull. lia.
    + rewrite slot_succ. by replace (j - 1 + 1) with j by lia.
  - assert (c ∉ A) as HcA.
    { intros [b Hb]%(lookup_key L HL A s c Hs Hc). unfold key in Hb. congruence. }
    assert (j = 0) as ->.
    { destruct (decide (j = 0)); [done|]. exfalso. apply HcA. rewrite <- (slot_0 c) by done. apply Hfull. lia. }
    rewrite slot_0, Z.add_0_r, rem_succ by done. done.
Qed.

(** A set that is not full has a free slot within one turn of the cursor. *)
Lemma free_slot A s c : set_inv L A s → 0 ≤ c < nmax L → Z.of_nat (size A) < nmax L →
  ∃ j, 0 ≤ j < nmax L ∧ (∀ k, 0 ≤ k < j → slot c k ∈ A) ∧ slot c j ∉ A.
Proof using HL.
  intros Hs Hc Hsz.
  destruct (decide (Forall (λ j, slot c j ∈ A) (zrange 0 (nmax L - 1)))) as [Hall|Hsome].
  - exfalso. assert (indices L ⊆ A) as Hsub.
    { intros i Hi%elem_of_indices. rewrite Forall_forall in Hall.
      specialize (Hall ((i - c) mod nmax L)). unfold slot in Hall.
      rewrite Zplus_mod_idemp_r in Hall. replace (c + (i - c)) with i in Hall by lia.
      rewrite (Z.mod_small i) in Hall by done. apply Hall, elem_of_zrange.
      pose proof (Z.mod_pos_bound (i - c) (nmax L) (nmax_pos L HL)). lia. }
    apply subseteq_size in Hsub. pose proof (size_indices L HL). lia.
  - assert (∃ j : nat, slot c (Z.of_nat j) ∉ A) as Hex.
    { apply not_Forall_Exists in Hsome; [|apply _]. apply Exists_exists in Hsome as (j & Hj & Hf).
      apply elem_of_zrange in Hj. exists (Z.to_nat j). by rewrite Z2Nat.id by lia. }
    assert (∃ j : nat, slot c (Z.of_nat j) ∉ A ∧ ∀ k : nat, (k < j)%nat → slot c (Z.of_nat k) ∈ A) as (j & Hj & Hmin).
    { destruct Hex as [j Hj]. induction (lt_wf j) as [j _ IH].
      destruct (decide (Exists (λ k : nat, slot c (Z.of_nat k) ∉ A) (seq 0 j))) as [(k & Hk & Hf)%Exists_exists|Hno].
      - apply elem_of_seq in Hk. by apply (IH k); [lia|].
      - exists j. split; [done|]. intros k Hk. destruct (decide (slot c (Z.of_nat k) ∈ A)); [done|].
        exfalso. apply Hno, Exists_exists. exists k. split; [apply elem_of_seq; lia|done]. }
    exists (Z.of_nat j). split; [|split; [|done]].
    + split; [lia|]. destruct (decide (Z.of_nat j < nmax L)) as [|Hge]; [done|exfalso].
      apply Hsome, Forall_forall. intros k Hk%elem_of_zrange.
      rewrite <- (Z2Nat.id k) by lia. apply Hmin. lia.
    + intros k Hk. rewrite <- (Z2Nat.id k) by lia. apply Hmin. lia.
Qed.

Lemma NextCandidate_free A s t j : set_inv L A s → 0 ≤ j < nmax L →
  (∀ k, 0 ≤ k < j → slot (nextCandidate s) k ∈ A) → slot (nextCandidate s) j ∉ A →
  NextCandidate (s, t)
  = (Ok (j, inr (node_block L (slot (nextCandidate s) j))), (with_next (slot (nextCandidate s) (j + 1)) s, t)).
Proof using HNL HL.
  intros Hs Hj Hfull Hfree. unfold NextCandidate. sred.
  assert (Z.of_nat (size A) < nmax L) as Hsz.
  { pose proof (size_indices L HL). pose proof (slot_bound (nextCandidate s) j).
    assert (A ⊂ indices L) as Hlt%subset_size; [|lia].
    apply strict_spec_alt. split.
    - intros i Hi%(si_bound _ _ _ Hs). by apply elem_of_indices.
    - intros ->. by apply Hfree, elem_of_indices. }
  rewrite (si_count _ _ _ Hs), (sl_max L s) by apply Hs.
  destruct (Z.eqb_spec (Z.of_nat (size A)) (nmax L)); [lia|].
  rewrite (nextCandidateLoop_free A s t _ 0 _ j); [done|done|apply (si_next _ _ _ Hs)|lia|done|done].
Qed.

Lemma NextCandidate_full A s t : set_inv L A s → Z.of_nat (size A) = nmax L →
  NextCandidate (s, t) = (Ok (0, inl (CIDRRangeNoCIDRsRemainingErr (Label s))), (s, t)).
Proof using.
  intros Hs Hsz. unfold NextCandidate. sred.
  rewrite (si_count _ _ _ Hs), (sl_max L s), Hsz, Z.eqb_refl by apply Hs. done.
Qed.

Lemma set_inv_with_next A s c : set_inv L A s → 0 ≤ c < nmax L → set_inv L A (with_next c s).
Proof using.
  intros Hs Hc. split; simpl; [|by apply Hs..|done].
  eapply params_layout; [|apply Hs]. done.
Qed.
End setprops.
