(* ===== verification/SetConstruction.v ===== *)
(** [NewMultiCIDRSet]: the geometry of the set it builds, the configurations it
    rejects and those for which it builds a set that never hands out a block. *)
From S2P Require Import Prelude GoNet CIDRTheory CIDRText NetUtils MultiCIDRSet IndexTheory IndexProps SetProps.

(** The geometry [cidrConfig = block w v p] and [perNodeHostBits = h] ask for. *)
Definition geometry (w v p h : Z) : layout := mkLayout w v p (w - h).

(** A CIDR and a host-bit count that name a usable geometry: the node blocks fit
    in the cluster block, an IPv6 cluster is split by at most
    [clusterSubnetMaxDiff] bits, and an IPv4 one by less than 32. *)
Definition usable (w v p h : Z) : Prop :=
  valid_block w v p ∧ 0 ≤ h ≤ w - p ∧ w - h - p < 32 ∧
  (w = 128 → w - h - p ≤ clusterSubnetMaxDiff ∧ 2 ^ 48 ≤ v).

#[export] Instance usable_dec w v p h : Decision (usable w v p h).
Proof. unfold usable. apply _. Defined.

Lemma geometry_ok w v p h : usable w v p h → layout_ok (geometry w v p h).
Proof. intros (Hv & Hh & Hd & Hw). split; simpl; [done|destruct Hv; lia|lia|]. intros E. by apply Hw. Qed.

Lemma getMaxCIDRs_pow n c : 0 ≤ n - c < 32 → getMaxCIDRs n c = 2 ^ (n - c).
Proof.
  intros Hd. unfold getMaxCIDRs, u32. rewrite (Z.mod_small (n - c)) by lia.
  destruct (Z.leb_spec 64 (n - c)); [lia|]. rewrite Z.shiftl_1_l. unfold s64.
  assert (0 < 2 ^ (n - c) ≤ 2 ^ 31) by (split; [apply pow2_pos; lia|apply Z.pow_le_mono_r; lia]).
  rewrite Z.mod_small; lia.
Qed.

(** A negative shift count becomes a huge unsigned one, which shifts everything out. *)
Lemma getMaxCIDRs_negative n c : - 2 ^ 31 ≤ n - c < 0 → getMaxCIDRs n c = 0.
Proof.
  intros Hd. unfold getMaxCIDRs, u32.
  rewrite <- (Z.mod_unique (n - c) (2 ^ 32) (-1) (n - c + 2 ^ 32)) by lia.
  by destruct (Z.leb_spec 64 (n - c + 2 ^ 32)); [|lia].
Qed.

(** The object [NewMultiCIDRSet] allocates. *)
Definition newSet (name : string) (w v p h : Z) : MultiCIDRSet :=
  mkMultiCIDRSet (block w v p) (w - h) (getMaxCIDRs (w - h) p) (IPNet_String (block w v p)) ∅ p name
    (CIDRMask (w - h) w) 0 0.

(** A set with no capacity: every operation finds it full or out of range. *)
Record set_inert (s : MultiCIDRSet) : Prop := {
  in_max : MaxCIDRs s = 0;
  in_map : allocatedCIDRMap s = ∅;
  in_count : allocatedCIDRs s = 0
}.

Lemma newSet_inv name w v p h : usable w v p h → set_inv (geometry w v p h) ∅ (newSet name w v p h).
Proof.
  intros Hu. pose proof (geometry_ok w v p h Hu) as HL.
  assert (getMaxCIDRs (w - h) p = nmax (geometry w v p h)) as Hmax.
  { destruct Hu as (Hb & Hh & Hd & _). apply getMaxCIDRs_pow. destruct Hb. lia. }
  split; simpl.
  - by split.
  - set_solver.
  - intros k. rewrite lookup_empty. split; [by intros [? ?]|set_solver].
  - done.
  - pose proof (nmax_pos _ HL). lia.
Qed.

(** More host bits than the CIDR has. *)
Lemma newSet_inert name w v p h : valid_block w v p → w - p < h ≤ 2 ^ 31 → set_inert (newSet name w v p h).
Proof.
  intros [(Hw & _) Hp _] Hh. split; simpl; try done. apply getMaxCIDRs_negative.
  destruct Hw as [->| ->]; lia.
Qed.

Section construction.
Context `{HN : !NetUtils} (HNL : NetUtilsLaws HN).

(** Every valid configuration, usable or not. *)
Lemma NewMultiCIDRSet_block name w v p h t : valid_block w v p →
  NewMultiCIDRSet name (block w v p) h t =
  if bool_decide (w = 128) && (clusterSubnetMaxDiff <? w - h - p)
  then (Err (CIDRSetSubNetTooBigErr (IPNet_String (block w v p)) (w - h) p), t)
  else (Ok (newSet name w v p h),
        t ++ [cidrSetMaxCidrs_Set (IPNet_String (block w v p)) name (getMaxCIDRs (w - h) p)]).
Proof using HNL.
  intros Hb. destruct (Hb) as [Hv Hp _]. unfold NewMultiCIDRSet.
  rewrite block_IP, block_Mask, Mask_Size_CIDRMask by (apply Hv || lia).
  rewrite IsIPv4_valid, IsIPv6_valid by done.
  assert ((if bool_decide (w = 32) then 32 - h else if bool_decide (w = 128) then 128 - h else 0) = w - h) as ->.
  { destruct Hv as ([->| ->] & _); done. }
  destruct (bool_decide (w = 128) && (clusterSubnetMaxDiff <? w - h - p)); by mred.
Qed.

Lemma NewMultiCIDRSet_usable name w v p h t : usable w v p h →
  NewMultiCIDRSet name (block w v p) h t
  = (Ok (newSet name w v p h),
     t ++ [cidrSetMaxCidrs_Set (IPNet_String (block w v p)) name (nmax (geometry w v p h))]).
Proof using HNL.
  intros Hu. destruct (Hu) as (Hb & Hh & Hd & H6). rewrite NewMultiCIDRSet_block by done.
  replace (bool_decide (w = 128) && (clusterSubnetMaxDiff <? w - h - p)) with false.
  - by rewrite getMaxCIDRs_pow by (destruct Hb; lia).
  - symmetry. destruct (decide (w = 128)) as [->|]; [|by rewrite bool_decide_false].
    rewrite bool_decide_true by done. apply Z.ltb_ge. by apply H6.
Qed.

Lemma inert_NextCandidate s t : set_inert s →
  NextCandidate (s, t) = (Ok (0, inl (CIDRRangeNoCIDRsRemainingErr (Label s))), (s, t)).
Proof using. intros [Hm _ Hc]. unfold NextCandidate. sred. by rewrite Hm, Hc. Qed.
End construction.
