(* ===== verification/SetSpec.v ===== *)
(** The abstract specification of a CIDR set and the simulation.

    [spec_state] is what a user of package [multicidrset] may think the set is: a
    finite set of allocated indices and a cursor.  [spec_op] gives each method its
    meaning there, [impl_op] runs the code; [op_simulated] relates them step by
    step, for any sequence of calls. *)
From S2P Require Import Prelude GoNet CIDRTheory CIDRText NetUtils MultiCIDRSet IndexTheory IndexProps SetProps SetConstruction.

Inductive set_op : Type :=
| OpNextCandidate
| OpOccupy (v p : Z)
| OpRelease (v p : Z)
| OpCIDRAllocated (v p : Z)
| OpCIDROverlaps (v p : Z)
| OpUpdateEvaluatedCount (n : Z).

Inductive set_out : Type :=
| OutDone
| OutErr (e : error)
| OutBool (b : bool)
| OutCandidate (evaluated : Z) (cidr : IPNet).

(** A panic is not an answer: [None]. *)
Definition out_of {A} (f : A → set_out) (r : exit A) : option set_out :=
  match r with Ok a => Some (f a) | Err e => Some (OutErr e) | Panic _ => None end.

Definition candidate_out (r : Z * (error + IPNet)) : set_out :=
  match r with (_, inl e) => OutErr e | (n, inr c) => OutCandidate n c end.

Section impl.
Context `{HN : !NetUtils}.

Definition impl_op (w : Z) (op : set_op) (st : SetState) : option set_out * SetState :=
  match op with
  | OpNextCandidate => let '(r, st') := NextCandidate st in (out_of candidate_out r, st')
  | OpOccupy v p => let '(r, st') := Occupy (Some (block w v p)) st in (out_of (λ _, OutDone) r, st')
  | OpRelease v p => let '(r, st') := Release (Some (block w v p)) st in (out_of (λ _, OutDone) r, st')
  | OpCIDRAllocated v p => (Some (OutBool (CIDRAllocated st.1 (block w v p))), st)
  | OpCIDROverlaps v p => (Some (OutBool (CIDROverlaps st.1 (block w v p))), st)
  | OpUpdateEvaluatedCount n =>
      let '(r, st') := UpdateEvaluatedCount n st in (out_of (λ _, OutDone) r, st')
  end.

Fixpoint impl_run (w : Z) (ops : list set_op) (st : SetState) : list (option set_out) * SetState :=
  match ops with
  | [] => ([], st)
  | op :: ops =>
      let '(o, st) := impl_op w op st in
      let '(os, st) := impl_run w ops st in (o :: os, st)
  end.
End impl.

Record spec_state : Type := mkSpec { sp_alloc : gset Z; sp_next : Z }.

Section spec.
Context (L : layout) (label : string).

(** How many taken slots precede the first free one, going round from [c]. *)
Definition firstFree (A : gset Z) (c : Z) : option Z :=
  snd <$> list_find (λ j, slot L c j ∉ A) (zrange 0 (nmax L - 1)).

Definition spec_op (op : set_op) (st : spec_state) : set_out * spec_state :=
  match op with
  | OpNextCandidate =>
      match firstFree (sp_alloc st) (sp_next st) with
      | Some j => (OutCandidate j (node_block L (slot L (sp_next st) j)),
                   mkSpec (sp_alloc st) (slot L (sp_next st) (j + 1)))
      | None => (OutErr (CIDRRangeNoCIDRsRemainingErr label), st)
      end
  | OpOccupy v p =>
      if overlaps (cluster_block L) (block (width L) v p)
      then (OutDone, mkSpec (sp_alloc st ∪ touched L v p) (sp_next st))
      else (OutErr (out_of_range_err L v p), st)
  | OpRelease v p =>
      if overlaps (cluster_block L) (block (width L) v p)
      then (OutDone, mkSpec (sp_alloc st ∖ touched L v p) (sp_next st))
      else (OutErr (out_of_range_err L v p), st)
  | OpCIDRAllocated v p =>
      (OutBool (bool_decide (set_Exists (λ i, v = node_addr L i ∧ p = nlen L) (sp_alloc st))), st)
  | OpCIDROverlaps v p =>
      (OutBool (bool_decide (set_Exists (λ i, touches L v p i = true) (sp_alloc st))), st)
  | OpUpdateEvaluatedCount _ => (OutDone, st)
  end.

Fixpoint spec_run (ops : list set_op) (st : spec_state) : list set_out * spec_state :=
  match ops with
  | [] => ([], st)
  | op :: ops =>
      let '(o, st) := spec_op op st in
      let '(os, st) := spec_run ops st in (o :: os, st)
  end.

(** The CIDRs a caller passes are well formed. *)
Definition valid_op (op : set_op) : Prop :=
  match op with
  | OpOccupy v p | OpRelease v p | OpCIDRAllocated v p | OpCIDROverlaps v p => valid_block (width L) v p
  | _ => True
  end.

#[export] Instance valid_op_dec op : Decision (valid_op op).
Proof. destruct op; apply _. Defined.

(** The abstraction relation. *)
Definition refines (st : SetState) (sp : spec_state) : Prop :=
  set_inv L (sp_alloc sp) st.1 ∧ nextCandidate st.1 = sp_next sp ∧ Label st.1 = label
  ∧ metric_balance st = 0.

Lemma firstFree_Some A c j : firstFree A c = Some j ↔
  0 ≤ j < nmax L ∧ (∀ k, 0 ≤ k < j → slot L c k ∈ A) ∧ slot L c j ∉ A.
Proof.
  unfold firstFree. rewrite fmap_Some. split.
  - intros ([i x] & (Hl & Hx & Hmin)%list_find_Some & ->). cbn [snd].
    unfold zrange in *. rewrite zrange_from_seqZ in *.
    assert (∀ (i : nat) x, seqZ 0 (Z.of_nat (Z.to_nat (nmax L - 1 - 0 + 1))) !! i = Some x ↔ x = Z.of_nat i ∧ x < nmax L) as Hl'.
    { intros i' x'. rewrite lookup_seqZ. lia. }
    apply Hl' in Hl as [-> Hb]. split_and!; [lia|lia| |done].
    intros k Hk. destruct (decide (slot L c k ∈ A)) as [|Hn]; [done|exfalso].
    refine (Hmin (Z.to_nat k) k _ _ Hn); [apply Hl'; lia|lia].
  - intros (Hj & Hbelow & Hfree). exists (Z.to_nat j, j). split; [|done].
    apply list_find_Some. unfold zrange. rewrite zrange_from_seqZ, lookup_seqZ.
    split_and!; [lia|lia|done|]. intros i y Hy Hi Hn. apply lookup_seqZ in Hy. apply Hn, Hbelow. lia.
Qed.

Lemma firstFree_None A c : layout_ok L → firstFree A c = None → indices L ⊆ A.
Proof.
  intros HL Hnone i Hi%elem_of_indices. unfold firstFree in Hnone.
  apply fmap_None, list_find_None in Hnone. rewrite Forall_forall in Hnone.
  specialize (Hnone ((i - c) mod nmax L)). pose proof (nmax_pos L HL).
  pose proof (Z.mod_pos_bound (i - c) (nmax L)).
  destruct (decide (i ∈ A)) as [|Hn]; [done|exfalso]. apply Hnone; [apply elem_of_zrange; lia|].
  unfold slot. rewrite Zplus_mod_idemp_r. replace (c + (i - c)) with i by lia. by rewrite Z.mod_small.
Qed.
End spec.

Section simulation.
Context `{HN : !NetUtils} (HNL : NetUtilsLaws HN).
Context (L : layout) (HL : layout_ok L) (label : string).

Lemma refines_step st sp A' r : refines L label st sp → set_step L (sp_alloc sp) st.1 st.2 A' r →
  ∃ st', r = (Ok tt, st') ∧ refines L label st' (mkSpec A' (sp_next sp)).
Proof using.
  intros (Hs & Hn & Hl & Hb) (s' & t' & -> & Hs' & Hp & Hn' & Hm). exists (s', t').
  apply params_label in Hp as [Hp _]. split; [done|]. split_and!; simpl in *; [done|congruence|congruence|].
  rewrite Hm. destruct st. done.
Qed.

Lemma CIDRAllocated_spec A s v p : set_inv L A s → valid_block (width L) v p →
  CIDRAllocated s (block (width L) v p)
  = bool_decide (set_Exists (λ i, v = node_addr L i ∧ p = nlen L) A).
Proof using HL.
  intros Hs Hv. unfold CIDRAllocated. apply bool_decide_ext. rewrite (si_map _ _ _ Hs). split.
  - intros (i & Hi & Heq). exists i. split; [done|].
    apply IPNet_String_inj in Heq as (_ & -> & ->); [done|done|].
    apply node_block_valid; [done|]. by eapply si_bound.
  - intros (i & Hi & -> & ->). by exists i.
Qed.

Lemma next_simulated st sp : refines L label st sp →
  let '(o, st') := impl_op (width L) OpNextCandidate st in
  let '(o', sp') := spec_op L label OpNextCandidate sp in
  o = Some o' ∧ refines L label st' sp'.
Proof using HNL HL.
  destruct st as [s t]. intros (Hs & Hn & Hl & Hb). simpl in *.
  destruct (firstFree L (sp_alloc sp) (sp_next sp)) as [j|] eqn:Hf.
  - apply firstFree_Some in Hf as (Hj & Hbelow & Hfree). rewrite <- Hn in *.
    rewrite (NextCandidate_free HNL L HL (sp_alloc sp) s t j) by done. split; [done|].
    pose proof (slot_bound L HL (nextCandidate s) (j + 1)).
    split_and!; simpl; [by apply set_inv_with_next|done|done|done].
  - apply firstFree_None in Hf; [|done].
    rewrite (NextCandidate_full L (sp_alloc sp)); [by rewrite Hl|done|].
    pose proof (alloc_size_bound L HL (sp_alloc sp) s Hs).
    apply subseteq_size in Hf. pose proof (size_indices L HL). lia.
Qed.

(** One call: the code answers what the specification answers, and the states
    stay related. *)
Lemma op_simulated op st sp : refines L label st sp → valid_op L op →
  let '(o, st') := impl_op (width L) op st in
  let '(o', sp') := spec_op L label op sp in
  o = Some o' ∧ refines L label st' sp'.
Proof using HNL HL.
  intros Hr Hv. destruct op as [|v p|v p|v p|v p|n]; [by apply next_simulated|..]; destruct st as [s t].
  - cbn [impl_op spec_op]. destruct (overlaps (cluster_block L) (block (width L) v p)) eqn:Ho.
    + destruct (refines_step (s, t) sp _ _ Hr (Occupy_inside HNL L HL _ s t v p (proj1 Hr) Hv Ho)) as ([s' t'] & -> & Hr').
      done.
    + by rewrite (Occupy_outside L HL (sp_alloc sp)) by (done || apply Hr).
  - cbn [impl_op spec_op]. destruct (overlaps (cluster_block L) (block (width L) v p)) eqn:Ho.
    + destruct (refines_step (s, t) sp _ _ Hr (Release_inside HNL L HL _ s t v p (proj1 Hr) Hv Ho)) as ([s' t'] & -> & Hr').
      done.
    + by rewrite (Release_outside L HL (sp_alloc sp)) by (done || apply Hr).
  - simpl. rewrite (CIDRAllocated_spec (sp_alloc sp)) by (done || apply Hr). done.
  - simpl. split; [|done]. do 2 f_equal. apply eq_true_iff_eq.
    rewrite bool_decide_eq_true. by apply (CIDROverlaps_spec HNL L HL); [apply Hr|].
  - simpl. split; [done|]. destruct Hr as (Hs & Hn & Hl & Hb). split_and!; simpl; [done..|].
    unfold metric_balance, count_events in *; simpl in *.
    rewrite !filter_app, !length_app, !Nat.add_0_r. done.
Qed.
End simulation.
