(* ===== verification/SetTheorems.v ===== *)
(** The theorems about package [multicidrset].

    They are stated on any set of a usable geometry whose allocated indices are
    the finite set [A] ([set_inv]); [NewMultiCIDRSet] establishes that invariant
    with [A] empty, and every method keeps it.  The witnesses evaluate the code on
    10.0.0.0/24 and fd00::/112 split in sixteen blocks. *)
From S2P Require Import Prelude GoNet CIDRTheory CIDRText NetUtils MultiCIDRSet IndexTheory IndexProps SetProps SetConstruction SetSpec.

(** * Concrete sets for the witnesses *)

#[local] Existing Instance refNetUtils.

Definition ex4_base : Z := 10 * 2 ^ 24.
Definition ex6_base : Z := 253 * 2 ^ 120.
Definition ex4 : layout := geometry 32 ex4_base 24 4.
Definition ex6 : layout := geometry 128 ex6_base 112 12.
Definition ex4_set : MultiCIDRSet := newSet "cc" 32 ex4_base 24 4.
Definition ex6_set : MultiCIDRSet := newSet "cc" 128 ex6_base 112 12.

Lemma ex4_usable : usable 32 ex4_base 24 4.
Proof. by_decision. Qed.
Lemma ex6_usable : usable 128 ex6_base 112 12.
Proof. by_decision. Qed.
Lemma ex4_ok : layout_ok ex4.
Proof. apply geometry_ok, ex4_usable. Qed.
Lemma ex6_ok : layout_ok ex6.
Proof. apply geometry_ok, ex6_usable. Qed.
Lemma ex4_inv : set_inv ex4 ∅ ex4_set.
Proof. apply newSet_inv, ex4_usable. Qed.
Lemma ex6_inv : set_inv ex6 ∅ ex6_set.
Proof. apply newSet_inv, ex6_usable. Qed.

(** The IPv4 set after block 2 was taken. *)
Definition ex4_set2 : MultiCIDRSet := (occupyBlock 2 (ex4_set, [])).2.1.

Lemma ex4_inv2 : set_inv ex4 ({[2]} ∪ ∅) ex4_set2.
Proof.
  destruct (occupyBlock_spec refNetUtils_laws ex4 ex4_ok ∅ ex4_set [] 2 ex4_inv) as (s & t & E & Hs & _);
    [by vm_compute|]. unfold ex4_set2. by rewrite E.
Qed.

(** * Simulation of whole runs *)

Section runs.
Context `{HN : !NetUtils} (HNL : NetUtilsLaws HN).

Lemma run_simulated L label ops st sp : layout_ok L → Forall (valid_op L) ops → refines L label st sp →
  (impl_run (width L) ops st).1 = Some <$> (spec_run L label ops sp).1
  ∧ refines L label (impl_run (width L) ops st).2 (spec_run L label ops sp).2.
Proof using HNL.
  intros HL. revert st sp. induction ops as [|op ops IH]; intros st sp Hv Hr; [done|].
  apply Forall_cons in Hv as [Hop Hv]. pose proof (op_simulated HNL L HL label op st sp Hr Hop) as Hstep.
  cbn [impl_run spec_run]. destruct (impl_op (width L) op st) as [o st1], (spec_op L label op sp) as [o' sp1].
  destruct Hstep as [-> Hr1]. specialize (IH st1 sp1 Hv Hr1).
  destruct (impl_run (width L) ops st1) as [os st2], (spec_run L label ops sp1) as [os' sp2].
  simpl in *. naive_solver.
Qed.
End runs.

(** C3. Refinement: build a set with [NewMultiCIDRSet] from a usable
    configuration and call its methods in any order on well-formed CIDRs; no call
    panics, every answer (candidates, evaluated counts, errors, membership tests)
    is the one the abstract set of indices gives, the final state represents the
    final abstract set, and the Prometheus counters agree with the set's own
    count. *)
Theorem MultiCIDRSet_refines `{HN : !NetUtils} (HNL : NetUtilsLaws HN) name w v p h ops
  (Hu : usable w v p h) (Hops : Forall (valid_op (geometry w v p h)) ops) :
  ∃ s t, NewMultiCIDRSet name (block w v p) h [] = (Ok s, t) ∧
    let L := geometry w v p h in
    let '(answers, st) := impl_run w ops (s, t) in
    let '(spec_answers, sp) := spec_run L (IPNet_String (block w v p)) ops (mkSpec ∅ 0) in
    answers = Some <$> spec_answers ∧ set_inv L (sp_alloc sp) st.1
    ∧ nextCandidate st.1 = sp_next sp ∧ metric_balance st = 0.
Proof.
  eexists _, _. split; [by apply NewMultiCIDRSet_usable|]. cbn zeta.
  pose proof (run_simulated HNL (geometry w v p h) (IPNet_String (block w v p)) ops
    (newSet name w v p h, [cidrSetMaxCidrs_Set (IPNet_String (block w v p)) name (nmax (geometry w v p h))])
    (mkSpec ∅ 0) (geometry_ok _ _ _ _ Hu) Hops) as [Ho Hr].
  { split_and!; [by apply newSet_inv|done..]. }
  simpl app in *. cbn [width geometry] in *.
  destruct (impl_run _ _ _) as [os st], (spec_run _ _ _ _) as [os' sp]. simpl in *.
  destruct Hr as (? & ? & _ & ?). done.
Qed.

Definition ex4_ops : list set_op :=
  [OpNextCandidate; OpOccupy (ex4_base + 16) 28; OpNextCandidate; OpCIDROverlaps ex4_base 24;
   OpRelease ex4_base 27; OpCIDRAllocated (ex4_base + 16) 28].

Lemma ex4_valid_ops : Forall (valid_op ex4) ex4_ops.
Proof. by_decision. Qed.

Lemma MultiCIDRSet_refines_witness :
  ∃ s t, NewMultiCIDRSet "cc" (block 32 ex4_base 24) 4 [] = (Ok s, t) ∧
    let '(answers, st) := impl_run 32 ex4_ops (s, t) in
    let '(spec_answers, sp) := spec_run ex4 (IPNet_String (block 32 ex4_base 24)) ex4_ops (mkSpec ∅ 0) in
    answers = Some <$> spec_answers ∧ set_inv ex4 (sp_alloc sp) st.1
    ∧ nextCandidate st.1 = sp_next sp ∧ metric_balance st = 0.
Proof.
  exact (MultiCIDRSet_refines refNetUtils_laws "cc" 32 ex4_base 24 4 ex4_ops ex4_usable ex4_valid_ops).
Defined.

(** * Index arithmetic *)

(** C19. Round trip of the index arithmetic: [indexToCIDRBlock] maps the indices of
    a set to blocks of the node prefix that tile the cluster CIDR.  Every address
    of the cluster lies in the block of exactly one index, and [getIndexForIP]
    computes that index from the address; no block reaches outside the cluster. *)
Theorem index_roundtrip `{HN : !NetUtils} (HNL : NetUtilsLaws HN) L A s
  (HL : layout_ok L) (Hs : set_inv L A s) :
  (∀ i, 0 ≤ i < nmax L → indexToCIDRBlock s i = Ok (node_block L i) ∧
    ∀ x, in_block (width L) (node_addr L i) (nlen L) x →
      in_block (width L) (base L) (clen L) x ∧ getIndexForIP s (ipOf (width L) x) = Ok i) ∧
  (∀ x, in_block (width L) (base L) (clen L) x →
    ∃ i, 0 ≤ i < nmax L ∧ getIndexForIP s (ipOf (width L) x) = Ok i ∧
      ∀ j, in_block (width L) (node_addr L j) (nlen L) x ↔ j = i).
Proof.
  pose proof (si_layout _ _ _ Hs) as Hlay. split.
  - intros i Hi. split; [by apply indexToCIDRBlock_node|]. intros x Hx.
    assert (in_block (width L) (base L) (clen L) x) as Hc.
    { pose proof (cluster_size L HL). pose proof (pow2_pos _ (hostbits_nonneg L HL)).
      unfold in_block, node_addr, hostbits in *. nia. }
    split; [done|]. rewrite getIndexForIP_addr by done. f_equal. by apply index_of_in_block.
  - intros x Hx. exists (index_of L x). split; [by apply index_of_bound|].
    split; [by apply getIndexForIP_addr|]. intros j. rewrite index_of_in_block by done. naive_solver.
Qed.

Lemma index_roundtrip_witness :
  indexToCIDRBlock ex4_set 3 = Ok (node_block ex4 3) ∧
  indexToCIDRBlock ex6_set 15 = Ok (node_block ex6 15) ∧
  IPNet_String (node_block ex4 3) = "10.0.0.48/28" ∧
  IPNet_String (node_block ex6 15) = "fd00::f000/116".
Proof.
  split_and!.
  - by apply (proj1 (index_roundtrip refNetUtils_laws ex4 ∅ ex4_set ex4_ok ex4_inv) 3).
  - by apply (proj1 (index_roundtrip refNetUtils_laws ex6 ∅ ex6_set ex6_ok ex6_inv) 15).
  - vm_compute. reflexivity.
  - vm_compute. reflexivity.
Defined.

(** C20. [getBeginningAndEndIndices] is exact: for a CIDR that meets the cluster
    it returns the first and last index whose block shares an address with the
    CIDR, whether the CIDR is smaller or larger than a node block or the cluster;
    for any other CIDR, and for nil, it returns the documented error. *)
Theorem getBeginningAndEndIndices_exact `{HN : !NetUtils} (HNL : NetUtilsLaws HN) L A s v p
  (HL : layout_ok L) (Hs : set_inv L A s) (Hv : valid_block (width L) v p) :
  (if overlaps (cluster_block L) (block (width L) v p) then
    ∃ b e, getBeginningAndEndIndices s (Some (block (width L) v p)) = Ok (b, e) ∧
      ∀ i, b ≤ i ≤ e ↔ 0 ≤ i < nmax L ∧
        ∃ x, in_block (width L) (node_addr L i) (nlen L) x ∧ in_block (width L) v p x
   else getBeginningAndEndIndices s (Some (block (width L) v p)) = Err (out_of_range_err L v p)) ∧
  getBeginningAndEndIndices s None =
    Err (Errorf "error getting indices for cluster cidr %v, cidr is nil" [IPNet_String (cluster_block L)]).
Proof.
  split.
  - destruct (overlaps _ _) eqn:Ho; [|by apply indices_outside; [done|apply Hs|..]].
    destruct (indices_touched HNL L HL A s v p Hs Hv Ho) as (b & e & Hidx & Htouched).
    exists b, e. split; [done|]. intros i. rewrite <- elem_of_zrange, <- (elem_of_list_to_set (C:=gset Z)), Htouched.
    rewrite elem_of_touched. split; (intros [Hi Ht]; split; [done|]).
    + apply touches_spec in Ht as (x & Hx1 & Hx2); [|done..]. exists x. by rewrite index_of_in_block.
    + destruct Ht as (x & Hx1%index_of_in_block & Hx2); [|done]. apply touches_spec; [done..|]. by exists x.
  - unfold getBeginningAndEndIndices. by rewrite (sl_cluster L s) by apply Hs.
Qed.

Lemma getBeginningAndEndIndices_exact_witness :
  ∃ b e, getBeginningAndEndIndices ex4_set (Some (block 32 (ex4_base + 64) 26)) = Ok (b, e) ∧
    (∀ i, b ≤ i ≤ e ↔ 0 ≤ i < 16 ∧
      ∃ x, in_block 32 (node_addr ex4 i) 28 x ∧ in_block 32 (ex4_base + 64) 26 x).
Proof.
  apply (getBeginningAndEndIndices_exact refNetUtils_laws ex4 ∅ ex4_set (ex4_base + 64) 26 ex4_ok ex4_inv).
  by_decision.
Defined.

(** * Occupy and Release *)

(** [Occupy] on every branch: a CIDR that meets the cluster adds exactly the
    indices whose blocks it touches, whatever was allocated before, leaving the
    cursor and the parameters alone; a CIDR outside the cluster, and a nil CIDR,
    end in an error and leave the whole state as it was. *)
Theorem Occupy_functional `{HN : !NetUtils} (HNL : NetUtilsLaws HN) L A s t v p
  (HL : layout_ok L) (Hs : set_inv L A s) (Hv : valid_block (width L) v p) :
  (if overlaps (cluster_block L) (block (width L) v p)
   then set_step L A s t (A ∪ touched L v p) (Occupy (Some (block (width L) v p)) (s, t))
   else Occupy (Some (block (width L) v p)) (s, t) = (Err (out_of_range_err L v p), (s, t))) ∧
  ∃ e, Occupy None (s, t) = (Err e, (s, t)).
Proof.
  split; [|by eexists]. destruct (overlaps _ _) eqn:Ho.
  - by apply Occupy_inside.
  - by apply (Occupy_outside L HL A).
Qed.

Lemma Occupy_functional_witness :
  set_step ex6 ∅ ex6_set [] (∅ ∪ touched ex6 ex6_base 113) (Occupy (Some (block 128 ex6_base 113)) (ex6_set, [])) ∧
  Occupy (Some (block 128 (2 ^ 120) 113)) (ex6_set, []) = (Err (out_of_range_err ex6 (2 ^ 120) 113), (ex6_set, [])).
Proof.
  split.
  - apply (Occupy_functional refNetUtils_laws ex6 ∅ ex6_set [] ex6_base 113 ex6_ok ex6_inv). by_decision.
  - apply (Occupy_functional refNetUtils_laws ex6 ∅ ex6_set [] (2 ^ 120) 113 ex6_ok ex6_inv). by_decision.
Defined.

(** [Release] on every branch: a CIDR that meets the cluster removes exactly
    the indices whose blocks it touches; otherwise an error and no change. *)
Theorem Release_functional `{HN : !NetUtils} (HNL : NetUtilsLaws HN) L A s t v p
  (HL : layout_ok L) (Hs : set_inv L A s) (Hv : valid_block (width L) v p) :
  (if overlaps (cluster_block L) (block (width L) v p)
   then set_step L A s t (A ∖ touched L v p) (Release (Some (block (width L) v p)) (s, t))
   else Release (Some (block (width L) v p)) (s, t) = (Err (out_of_range_err L v p), (s, t))) ∧
  ∃ e, Release None (s, t) = (Err e, (s, t)).
Proof.
  split; [|by eexists]. destruct (overlaps _ _) eqn:Ho.
  - by apply Release_inside.
  - by apply (Release_outside L HL A).
Qed.

Lemma Release_functional_witness :
  set_step ex4 ∅ ex4_set [] (∅ ∖ touched ex4 0 0) (Release (Some (block 32 0 0)) (ex4_set, [])).
Proof.
  apply (Release_functional refNetUtils_laws ex4 ∅ ex4_set [] 0 0 ex4_ok ex4_inv). by_decision.
Defined.

(** C21. Round trip: occupy a free node block and release it again.  In between
    [CIDRAllocated] reports it and every CIDR that meets it overlaps; afterwards
    the allocated indices, the count and the cursor are what they were. *)
Theorem occupy_release_roundtrip `{HN : !NetUtils} (HNL : NetUtilsLaws HN) L A s t i
  (HL : layout_ok L) (Hs : set_inv L A s) (Hi : 0 ≤ i < nmax L) (Hfree : i ∉ A) :
  ∃ s1 t1 s2 t2, Occupy (Some (node_block L i)) (s, t) = (Ok tt, (s1, t1))
    ∧ CIDRAllocated s (node_block L i) = false ∧ CIDRAllocated s1 (node_block L i) = true
    ∧ (∀ v p, valid_block (width L) v p → overlaps (node_block L i) (block (width L) v p) = true →
         CIDROverlaps s1 (block (width L) v p) = true)
    ∧ Release (Some (node_block L i)) (s1, t1) = (Ok tt, (s2, t2))
    ∧ CIDRAllocated s2 (node_block L i) = false
    ∧ set_inv L A s2 ∧ params s2 = params s
    ∧ allocatedCIDRs s2 = allocatedCIDRs s ∧ nextCandidate s2 = nextCandidate s.
Proof.
  destruct (Occupy_node HNL L HL A s t i Hs Hi) as (s1 & t1 & E1 & Hs1 & Hp1 & Hn1 & _).
  destruct (Release_inside HNL L HL _ s1 t1 (node_addr L i) (nlen L) Hs1) as (s2 & t2 & E2 & Hs2 & Hp2 & Hn2 & _);
    [by apply node_block_valid|by apply node_block_in_cluster|].
  rewrite touched_node_block in Hs2 by done. replace (({[i]} ∪ A) ∖ {[i]}) with A in Hs2 by set_solver.
  exists s1, t1, s2, t2. split_and!; [done|..|done| |done|congruence| |congruence].
  - rewrite (CIDRAllocated_node L HL A) by done. by apply bool_decide_eq_false.
  - rewrite (CIDRAllocated_node L HL _ s1 i Hs1) by done. apply bool_decide_eq_true. set_solver.
  - intros v p Hv Ho. apply (CIDROverlaps_spec HNL L HL _ _ _ _ Hs1 Hv). exists i. split; [set_solver|done].
  - rewrite (CIDRAllocated_node L HL A) by done. by apply bool_decide_eq_false.
  - by rewrite (si_count _ _ _ Hs), (si_count _ _ _ Hs2).
Qed.

Lemma occupy_release_roundtrip_witness :
  ∃ s1 t1 s2 t2, Occupy (Some (node_block ex4 5)) (ex4_set, []) = (Ok tt, (s1, t1))
    ∧ CIDRAllocated s1 (node_block ex4 5) = true
    ∧ Release (Some (node_block ex4 5)) (s1, t1) = (Ok tt, (s2, t2))
    ∧ allocatedCIDRs s2 = 0.
Proof.
  destruct (occupy_release_roundtrip refNetUtils_laws ex4 ∅ ex4_set [] 5 ex4_ok ex4_inv ltac:(by vm_compute)
    ltac:(set_solver)) as (s1 & t1 & s2 & t2 & E1 & _ & H1 & _ & E2 & _ & _ & _ & Hc & _).
  exists s1, t1, s2, t2. done.
Defined.

(** * Candidates and membership *)

(** C22. [NextCandidate] terminates on every set with an answer: while a block is
    free it returns the first free one at or after the cursor, going round, with
    the number of taken blocks it skipped, and leaves the cursor just behind it
    (so consecutive calls cover the whole ring); it never returns an allocated
    block, allocates nothing, and fails exactly when every block is allocated. *)
Theorem NextCandidate_functional `{HN : !NetUtils} (HNL : NetUtilsLaws HN) L A s t
  (HL : layout_ok L) (Hs : set_inv L A s) :
  (∃ j, 0 ≤ j < nmax L ∧ (∀ k, 0 ≤ k < j → slot L (nextCandidate s) k ∈ A)
     ∧ slot L (nextCandidate s) j ∉ A
     ∧ NextCandidate (s, t) = (Ok (j, inr (node_block L (slot L (nextCandidate s) j))),
                               (with_next (slot L (nextCandidate s) (j + 1)) s, t))
     ∧ CIDRAllocated s (node_block L (slot L (nextCandidate s) j)) = false)
  ∨ ((∀ i, 0 ≤ i < nmax L → i ∈ A)
     ∧ NextCandidate (s, t) = (Ok (0, inl (CIDRRangeNoCIDRsRemainingErr (Label s))), (s, t))).
Proof.
  pose proof (alloc_size_bound L HL A s Hs). destruct (decide (Z.of_nat (size A) = nmax L)) as [Hfull|Hn].
  - right. split; [|by apply (NextCandidate_full L A)]. intros i. by apply (full_alloc L HL A s).
  - left. destruct (free_slot L HL A s (nextCandidate s)) as (j & Hj & Hbelow & Hfree);
      [done|apply (si_next _ _ _ Hs)|lia|].
    exists j. split; [done|]. split; [done|]. split; [done|]. split; [by apply (NextCandidate_free HNL L HL A)|].
    rewrite (CIDRAllocated_node L HL A) by (done || by apply slot_bound). by apply bool_decide_eq_false.
Qed.

Lemma NextCandidate_functional_witness :
  ∃ j, 0 ≤ j < 16 ∧ NextCandidate (ex6_set, []) =
    (Ok (j, inr (node_block ex6 (slot ex6 0 j))), (with_next (slot ex6 0 (j + 1)) ex6_set, [])).
Proof.
  destruct (NextCandidate_functional refNetUtils_laws ex6 ∅ ex6_set [] ex6_ok ex6_inv)
    as [(j & Hj & _ & _ & E & _)|(Hfull & _)].
  - exists j. split; [exact Hj|exact E].
  - assert (0 ≤ 0 < nmax ex6) as H0 by by_decision. exfalso. pose proof (Hfull 0 H0). set_solver.
Defined.

(** C23. [CIDRAllocated] and [CIDROverlaps] are exact: the first holds of the
    allocated node blocks and of no other CIDR, the second of the CIDRs that share
    an address with an allocated block; neither depends on the order in which Go
    iterates over the allocation map. *)
Theorem membership_exact `{HN : !NetUtils} (HNL : NetUtilsLaws HN) L A s v p
  (HL : layout_ok L) (Hs : set_inv L A s) (Hv : valid_block (width L) v p) :
  (CIDRAllocated s (block (width L) v p) = true ↔ ∃ i, i ∈ A ∧ v = node_addr L i ∧ p = nlen L) ∧
  (CIDROverlaps s (block (width L) v p) = true ↔
    ∃ i x, i ∈ A ∧ in_block (width L) (node_addr L i) (nlen L) x ∧ in_block (width L) v p x) ∧
  (∀ keys, Permutation keys (map_to_list (allocatedCIDRMap s)).*1 →
    CIDROverlaps_keys keys (block (width L) v p) = CIDROverlaps s (block (width L) v p)).
Proof.
  split; [|split].
  - rewrite (CIDRAllocated_spec L HL A), bool_decide_eq_true by done. done.
  - rewrite (CIDROverlaps_spec HNL L HL A) by done. split.
    + intros (i & Hi & Ht). apply (touches_spec L HL v p i Hv (si_bound _ _ _ Hs i Hi)) in Ht as (x & Hx & Hvx).
      exists i, x. by rewrite index_of_in_block.
    + intros (i & x & Hi & Hx & Hvx). exists i. split; [done|].
      apply (touches_spec L HL v p i Hv (si_bound _ _ _ Hs i Hi)). exists x. by rewrite index_of_in_block in Hx.
  - intros keys Hk. apply eq_true_iff_eq. by rewrite (CIDROverlaps_keys_spec HNL L HL A), (CIDROverlaps_spec HNL L HL A).
Qed.

Lemma membership_exact_witness :
  (CIDRAllocated ex4_set2 (block 32 (ex4_base + 32) 28) = true ↔
    ∃ i : Z, i ∈ ({[2]} ∪ ∅ : gset Z) ∧ ex4_base + 32 = node_addr ex4 i ∧ 28 = 28) ∧
  CIDRAllocated ex4_set2 (block 32 (ex4_base + 32) 28) = true.
Proof.
  assert (valid_block 32 (ex4_base + 32) 28) as Hv by by_decision. split; [|vm_compute; reflexivity].
  apply (membership_exact refNetUtils_laws ex4 ({[2]} ∪ ∅) ex4_set2 (ex4_base + 32) 28 ex4_ok ex4_inv2 Hv).
Defined.

(** * Construction *)

(** C24. [NewMultiCIDRSet] on every well-formed CIDR: a usable configuration gives
    an empty set of the geometry asked for, with [2^(bits - hostBits - prefix)]
    blocks, announced to the metrics; an IPv6 CIDR split by more than
    [clusterSubnetMaxDiff] bits is refused with [CIDRSetSubNetTooBigErr] and
    announces nothing; more host bits than the CIDR has give a set without an
    error whose [NextCandidate] always fails. *)
Theorem NewMultiCIDRSet_functional `{HN : !NetUtils} (HNL : NetUtilsLaws HN) name w v p h t
  (Hv : valid_block w v p) :
  (usable w v p h → ∃ s, NewMultiCIDRSet name (block w v p) h t
     = (Ok s, t ++ [cidrSetMaxCidrs_Set (IPNet_String (block w v p)) name (2 ^ (w - h - p))])
     ∧ set_inv (geometry w v p h) ∅ s) ∧
  (w = 128 → clusterSubnetMaxDiff < 128 - h - p → NewMultiCIDRSet name (block w v p) h t
     = (Err (CIDRSetSubNetTooBigErr (IPNet_String (block w v p)) (128 - h) p), t)) ∧
  (w - p < h ≤ 2 ^ 31 → ∃ s t', NewMultiCIDRSet name (block w v p) h t = (Ok s, t') ∧ MaxCIDRs s = 0 ∧
     ∀ t, NextCandidate (s, t) = (Ok (0, inl (CIDRRangeNoCIDRsRemainingErr (Label s))), (s, t))).
Proof.
  split; [|split].
  - intros Hu. eexists. split; [by apply NewMultiCIDRSet_usable|by apply newSet_inv].
  - intros -> Hd. rewrite NewMultiCIDRSet_block by done. rewrite bool_decide_true by done.
    by destruct (Z.ltb_spec clusterSubnetMaxDiff (128 - h - p)); [|lia].
  - intros Hh. rewrite NewMultiCIDRSet_block by done.
    replace (bool_decide (w = 128) && (clusterSubnetMaxDiff <? w - h - p)) with false.
    + eexists _, _. split; [done|]. pose proof (newSet_inert name w v p h Hv Hh) as Hin.
      split; [apply Hin|]. intros t'. by apply inert_NextCandidate.
    + symmetry. apply andb_false_iff. right. apply Z.ltb_ge. unfold clusterSubnetMaxDiff. lia.
Qed.

Lemma NewMultiCIDRSet_functional_witness :
  (∃ s, NewMultiCIDRSet "cc" (block 32 ex4_base 24) 4 []
     = (Ok s, [cidrSetMaxCidrs_Set (IPNet_String (block 32 ex4_base 24)) "cc" 16]) ∧ set_inv ex4 ∅ s) ∧
  NewMultiCIDRSet "cc" (block 128 ex6_base 64) 8 []
    = (Err (CIDRSetSubNetTooBigErr (IPNet_String (block 128 ex6_base 64)) 120 64), []) ∧
  (∃ s t', NewMultiCIDRSet "cc" (block 32 ex4_base 24) 9 [] = (Ok s, t') ∧ MaxCIDRs s = 0).
Proof.
  split; [|split].
  - apply (NewMultiCIDRSet_functional refNetUtils_laws "cc" 32 ex4_base 24 4 [] ltac:(by_decision)), ex4_usable.
  - apply (NewMultiCIDRSet_functional refNetUtils_laws "cc" 128 ex6_base 64 8 [] ltac:(by_decision)); [reflexivity|].
    vm_compute. reflexivity.
  - destruct (proj2 (proj2 (NewMultiCIDRSet_functional refNetUtils_laws "cc" 32 ex4_base 24 9 [] ltac:(by_decision))))
      as (s & t' & E & Hm & _); [split; vm_compute; congruence|].
    exists s, t'. split; [exact E|exact Hm].
Defined.

(** C25. Overflow: [getMaxCIDRs] is a power of two while the shift count stays
    below 63; a count of exactly 63 overflows Go's [int] to its minimum, a larger
    one shifts the bit out, and a negative difference is converted to a huge
    unsigned count, so the result is zero and never a fault. *)
Theorem getMaxCIDRs_bounds n c (Hd : - 2 ^ 31 ≤ n - c < 2 ^ 31) :
  getMaxCIDRs n c = if decide (0 ≤ n - c < 63) then 2 ^ (n - c)
                    else if decide (n - c = 63) then - 2 ^ 63 else 0.
Proof.
  destruct (decide (n - c < 0)); [rewrite getMaxCIDRs_negative by lia; repeat case_decide; lia|].
  unfold getMaxCIDRs, u32. rewrite (Z.mod_small (n - c)) by lia.
  destruct (Z.leb_spec 64 (n - c)); [by repeat case_decide; try lia|]. rewrite Z.shiftl_1_l.
  repeat case_decide; try lia.
  - unfold s64. assert (0 < 2 ^ (n - c) ≤ 2 ^ 62) by (split; [apply pow2_pos; lia|apply Z.pow_le_mono_r; lia]).
    rewrite Z.mod_small; lia.
  - by replace (n - c) with 63 by lia.
Qed.

Lemma getMaxCIDRs_bounds_witness : getMaxCIDRs 20 24 = 0 ∧ getMaxCIDRs 28 24 = 16 ∧ getMaxCIDRs 64 1 = - 2 ^ 63.
Proof.
  split; [|split].
  - exact (getMaxCIDRs_bounds 20 24 ltac:(split; [vm_compute; congruence|vm_compute; reflexivity])).
  - exact (getMaxCIDRs_bounds 28 24 ltac:(split; [vm_compute; congruence|vm_compute; reflexivity])).
  - exact (getMaxCIDRs_bounds 64 1 ltac:(split; [vm_compute; congruence|vm_compute; reflexivity])).
Defined.
