(* ===== verification/ContainerHeap.v ===== *)
(** Go's [container/heap] over its [heap.Interface].

    [HeapInterface] is the Go interface; [HeapLaws] what its documentation asks of
    an implementation, stated on the list of values a queue holds.  [Push] and
    [Pop] are the library's functions with their sift loops; the theorems are that
    a queue built by [Push] and emptied by [Pop] yields its values in order. *)
From S2P Require Import Prelude.

Class HeapInterface (Q X : Type) : Type := {
  Len : Q → Z;
  Less : Q → Z → Z → exit bool;
  Swap : Q → Z → Z → exit Q;
  HPush : Q → X → Q;
  HPop : Q → exit (X * Q)
}.

Section heap.
Context {Q X : Type} {HI : HeapInterface Q X}.

(** [up(h, j)]; the index decreases, so [j] iterations are enough. *)
Fixpoint up (fuel : nat) (q : Q) (j : Z) : exit Q :=
  match fuel with
  | O => Ok q
  | S fuel =>
      let i := Z.quot (j - 1) 2 in
      if i =? j then Ok q
      else
        less ← Less q j i;
        if less : bool then q ← Swap q i j; up fuel q i else Ok q
  end.

(** [down(h, i, n)]; the index grows, so [n] iterations are enough. *)
Fixpoint down (fuel : nat) (q : Q) (i n : Z) : exit Q :=
  match fuel with
  | O => Ok q
  | S fuel =>
      let j1 := 2 * i + 1 in
      if (n <=? j1) || (j1 <? 0) then Ok q
      else
        let j2 := j1 + 1 in
        right ← (if j2 <? n then Less q j2 j1 else Ok false);
        let j := if right : bool then j2 else j1 in
        less ← Less q j i;
        if less : bool then q ← Swap q i j; down fuel q j n else Ok q
  end.

Definition Push (q : Q) (x : X) : exit Q :=
  let q := HPush q x in
  let j := Len q - 1 in
  up (S (Z.to_nat j)) q j.

Definition Pop (q : Q) : exit (X * Q) :=
  let n := Len q - 1 in
  q ← Swap q 0 n;
  q ← down (S (Z.to_nat n)) q 0 n;
  HPop q.
End heap.

(** * Lists as heaps *)

Definition swap_list {V} (i j : nat) (l : list V) : list V :=
  match l !! i, l !! j with
  | Some a, Some b => <[i:=b]> (<[j:=a]> l)
  | _, _ => l
  end.

Lemma swap_list_lookup {V} (l : list V) i j a b k : l !! i = Some a → l !! j = Some b →
  swap_list i j l !! k = if decide (k = i) then Some b else if decide (k = j) then Some a else l !! k.
Proof.
  intros Hi Hj. unfold swap_list. rewrite Hi, Hj.
  pose proof (lookup_lt_Some _ _ _ Hi). pose proof (lookup_lt_Some _ _ _ Hj).
  destruct (decide (k = i)) as [->|]; [by rewrite list_lookup_insert_eq by (by rewrite length_insert)|].
  rewrite list_lookup_insert_ne by done.
  destruct (decide (k = j)) as [->|]; [by rewrite list_lookup_insert_eq|].
  by rewrite list_lookup_insert_ne.
Qed.

Lemma swap_list_length {V} (l : list V) i j : length (swap_list i j l) = length l.
Proof. unfold swap_list. repeat case_match; by rewrite ?length_insert. Qed.

Lemma swap_list_perm {V} (l : list V) i j : swap_list i j l ≡ₚ l.
Proof.
  unfold swap_list. destruct (l !! i) as [a|] eqn:Hi; [|done].
  destruct (l !! j) as [b|] eqn:Hj; [|done]. by apply Permutation_insert_swap.
Qed.

(** * The heap order on lists *)

Section order.
Context {V : Type} (lt : V → V → bool) (ok : V → Prop).

(** [le a b]: [b] is not strictly before [a]. *)
Definition le (a b : V) : Prop := lt b a = false.

(** A strict weak order on the values a queue may hold. *)
Record strict_weak_order : Prop := {
  so_asym a b : ok a → ok b → lt a b = true → le a b;
  so_trans a b c : ok a → ok b → ok c → le a b → le b c → le a c
}.

Lemma le_refl a : strict_weak_order → ok a → le a a.
Proof using.
  intros Hso Ha. unfold le. destruct (lt a a) eqn:E; [|done].
  apply (so_asym Hso) in E as E'; [|done..]. unfold le in E'. congruence.
Qed.

Definition parent (k : nat) : nat := (k - 1) / 2.

(** The order holds between [k] and its parent. *)
Definition edge (l : list V) (k : nat) : Prop :=
  ∀ a b, l !! parent k = Some a → l !! k = Some b → le a b.

Definition heap (n : nat) (l : list V) : Prop := ∀ k, (0 < k < n)%nat → edge l k.

(** A heap but for the edge above [j]; the edges around it would hold without [j]. *)
Definition up_inv (l : list V) (j : nat) : Prop :=
  (∀ k, (0 < k)%nat → k ≠ j → edge l k) ∧
  (∀ k a b, (0 < k)%nat → (0 < j)%nat → parent k = j → l !! parent j = Some a → l !! k = Some b → le a b).

(** A heap on the first [n] values but for the edges below [i]. *)
Definition down_inv (n : nat) (l : list V) (i : nat) : Prop :=
  (∀ k, (0 < k < n)%nat → parent k ≠ i → edge l k) ∧
  (∀ k a b, (0 < k < n)%nat → (0 < i)%nat → parent k = i → l !! parent i = Some a → l !! k = Some b → le a b).

Context (Hso : strict_weak_order).

Lemma parent_lt k : (0 < k)%nat → (parent k < k)%nat.
Proof using. intros. unfold parent. apply Nat.Div0.div_lt_upper_bound. lia. Qed.

Lemma parent_children k i : (0 < k)%nat → parent k = i ↔ k = (2 * i + 1)%nat ∨ k = (2 * i + 2)%nat.
Proof using.
  intros Hk. unfold parent. pose proof (Nat.div_mod_eq (k - 1) 2).
  pose proof (Nat.mod_upper_bound (k - 1) 2). split; intros; lia.
Qed.

Lemma heap_app l x : heap (length l) l → up_inv (l ++ [x]) (length l).
Proof using.
  intros Hh. split.
  - intros k Hk Hne a b Ha Hb. pose proof (lookup_lt_Some _ _ _ Hb) as Hlt. rewrite length_app in Hlt. simpl in Hlt.
    pose proof (parent_lt k Hk). rewrite lookup_app_l in Ha by lia. rewrite lookup_app_l in Hb by lia.
    apply (Hh k); [lia|done..].
  - intros k a b Hk _ Hp _ Hb. pose proof (lookup_lt_Some _ _ _ Hb) as Hlt. rewrite length_app in Hlt. simpl in Hlt.
    pose proof (parent_lt k Hk). lia.
Qed.

Lemma up_done l j : up_inv l j → (0 < j → edge l j)%nat → heap (length l) l.
Proof using.
  intros [Hedges _] Hj k Hk. destruct (decide (k = j)) as [->|]; [by apply Hj; lia|by apply Hedges; lia].
Qed.

(** One round of the upward sift. *)
Lemma up_step l j a b : Forall ok l → (0 < j)%nat → up_inv l j →
  l !! parent j = Some a → l !! j = Some b → lt b a = true →
  up_inv (swap_list (parent j) j l) (parent j).
Proof using Hso.
  intros Hok Hj [Hedges Hgrand] Ha Hb Hlt. pose proof (parent_lt j Hj) as Hp.
  pose proof (λ k, swap_list_lookup l (parent j) j a b k Ha Hb) as Hl.
  rewrite Forall_lookup in Hok. assert (le b a) as Hba by (apply so_asym; eauto).
  assert (∀ k c, (0 < k)%nat → parent k = parent j → k ≠ j → l !! k = Some c → le b c) as Hsib.
  { intros k c Hk Hpk Hne Hc. apply (so_trans Hso b a c); eauto.
    apply (Hedges k Hk Hne); [by rewrite Hpk|done]. }
  split.
  - intros k Hk Hne x y Hx Hy. rewrite Hl in Hx, Hy. pose proof (parent_lt k Hk).
    destruct (decide (parent k = parent j)) as [E|E]; simplify_eq.
    + destruct (decide (k = parent j)); [done|].
      destruct (decide (k = j)) as [->|]; simplify_eq; [done|]. by eapply Hsib.
    + destruct (decide (k = parent j)); [done|]. destruct (decide (k = j)) as [->|]; [done|].
      destruct (decide (parent k = j)); simplify_eq.
      * by apply (Hgrand k).
      * by apply (Hedges k).
  - intros k x y Hk Hpj Hpk Hx Hy. rewrite Hl in Hx, Hy. pose proof (parent_lt (parent j) Hpj).
    rewrite !decide_False in Hx by lia. rewrite (decide_False (P:=k = parent j)) in Hy
      by (pose proof (parent_lt k Hk); lia).
    assert (le x a) as Hxa by (apply (Hedges (parent j)); [done|lia|done|done]).
    destruct (decide (k = j)) as [->|Hkj]; simplify_eq; [done|].
    apply (so_trans Hso x a y); eauto. apply (Hedges k Hk Hkj); [by rewrite Hpk|done].
Qed.

Lemma down_done n l i : down_inv n l i → (∀ k, (0 < k < n)%nat → parent k = i → edge l k) → heap n l.
Proof using.
  intros [Hedges _] Hi k Hk. destruct (decide (parent k = i)); [by apply Hi|by apply Hedges].
Qed.

(** One round of the downward sift: [j] is the least child. *)
Lemma down_step n l i j a b : Forall ok l → down_inv n l i → (0 < j < n)%nat → parent j = i →
  l !! i = Some a → l !! j = Some b → lt b a = true →
  (∀ k c, (0 < k < n)%nat → parent k = i → l !! k = Some c → le b c) →
  down_inv n (swap_list i j l) j.
Proof using Hso.
  intros Hok [Hedges Hgrand] Hj Hp Ha Hb Hlt Hmin. pose proof (parent_lt j ltac:(lia)) as Hpj.
  pose proof (λ k, swap_list_lookup l i j a b k Ha Hb) as Hl.
  rewrite Forall_lookup in Hok. assert (le b a) as Hba by (apply so_asym; eauto).
  split.
  - intros k Hk Hne x y Hx Hy. rewrite Hl in Hx, Hy. pose proof (parent_lt k ltac:(lia)).
    rewrite (decide_False (P:=parent k = j)) in Hx by done.
    destruct (decide (parent k = i)) as [E|E]; simplify_eq.
    + rewrite decide_False in Hy by lia. destruct (decide (k = j)) as [->|]; simplify_eq; [done|].
      by eapply Hmin.
    + destruct (decide (k = parent j)) as [->|]; simplify_eq.
      * eapply (Hgrand j); [done|lia|done|done|done].
      * rewrite decide_False in Hy by naive_solver. by apply (Hedges k).
  - intros k x y Hk _ Hpk Hx Hy. rewrite Hl in Hx, Hy. pose proof (parent_lt k ltac:(lia)).
    rewrite Hp in Hx. rewrite decide_True in Hx by done. simplify_eq.
    rewrite !decide_False in Hy by lia. apply (Hedges k); [done|lia|done|done].
Qed.

(** The root of a heap is least. *)
Lemma heap_root n l a k b : Forall ok l → heap n l → l !! 0%nat = Some a → (k < n)%nat → l !! k = Some b → k ≠ 0%nat → le a b.
Proof using Hso.
  intros Hok Hh Ha. rewrite Forall_lookup in Hok. revert b.
  induction (lt_wf k) as [k _ IH]. intros b Hk Hb Hne. pose proof (parent_lt k ltac:(lia)).
  destruct (lookup_lt_is_Some_2 l (parent k)) as [c Hc]; [apply lookup_lt_Some in Hb; lia|].
  assert (le c b) as Hcb by (apply (Hh k); [lia|done|done]).
  destruct (decide (parent k = 0%nat)) as [E|E]; [rewrite E in Hc; by simplify_eq|].
  apply (so_trans Hso a c b); eauto. apply (IH (parent k)); [done|lia|done|done].
Qed.

(** Dropping the last value keeps the rest a heap. *)
Lemma heap_take n l : heap n l → heap (length (take n l)) (take n l).
Proof using.
  intros Hh k Hk x y Hx Hy. rewrite length_take in Hk. pose proof (parent_lt k ltac:(lia)).
  rewrite lookup_take_lt in Hx by lia. rewrite lookup_take_lt in Hy by lia. apply (Hh k); [lia|done|done].
Qed.
End order.

(** * What [heap.Interface] asks of an implementation *)

Class HeapLaws (Q X V : Type) `{HeapInterface Q X} (elems : Q → list V) (val : X → V)
    (wf : Q → Prop) (ok : V → Prop) (lt : V → V → bool) : Prop := {
  hl_order : strict_weak_order lt ok;
  hl_len q : Len q = Z.of_nat (length (elems q));
  hl_less q i j a b : elems q !! i = Some a → elems q !! j = Some b → ok a → ok b →
    Less q (Z.of_nat i) (Z.of_nat j) = Ok (lt a b);
  hl_swap q i j : wf q → (i < length (elems q))%nat → (j < length (elems q))%nat →
    ∃ q', Swap q (Z.of_nat i) (Z.of_nat j) = Ok q' ∧ wf q' ∧ elems q' = swap_list i j (elems q);
  hl_push q x : wf q → wf (HPush q x) ∧ elems (HPush q x) = elems q ++ [val x];
  hl_pop q l a : wf q → elems q = l ++ [a] →
    ∃ x q', HPop q = Ok (x, q') ∧ val x = a ∧ wf q' ∧ elems q' = l
}.

Section correctness.
Context {Q X V : Type} `{HI : HeapInterface Q X} {elems : Q → list V} {val : X → V}.
Context {wf : Q → Prop} {ok : V → Prop} {lt : V → V → bool}.
Context {HLaws : HeapLaws Q X V elems val wf ok lt}.

(** A queue in heap order whose values can be compared. *)
Record queue_ok (q : Q) : Prop := {
  qo_wf : wf q;
  qo_ok : Forall ok (elems q);
  qo_heap : heap lt (length (elems q)) (elems q)
}.

Lemma quot_parent (j : nat) : Z.quot (Z.of_nat j - 1) 2 = Z.of_nat (parent j).
Proof using.
  unfold parent. destruct j as [|j]; [done|].
  rewrite Z.quot_div_nonneg by lia. rewrite Nat2Z.inj_div. f_equal. lia.
Qed.

Lemma up_correct fuel q j : wf q → Forall ok (elems q) → (j < length (elems q))%nat → (j < fuel)%nat →
  up_inv lt (elems q) j →
  ∃ q', up fuel q (Z.of_nat j) = Ok q' ∧ queue_ok q' ∧ elems q' ≡ₚ elems q.
Proof using HLaws.
  revert q j. induction fuel as [|fuel IH]; intros q j Hwf Hok Hlen Hfuel Hinv; [lia|].
  cbn [up]. rewrite quot_parent. destruct (Z.eqb_spec (Z.of_nat (parent j)) (Z.of_nat j)) as [E|E].
  { exists q. split_and!; [done| |done]. split; [done|done|]. eapply up_done; [done|].
    intros Hj. pose proof (parent_lt j Hj). lia. }
  assert (0 < j)%nat as Hj by (destruct j; [done|lia]). pose proof (parent_lt j Hj).
  destruct (lookup_lt_is_Some_2 (elems q) j) as [b Hb]; [done|].
  destruct (lookup_lt_is_Some_2 (elems q) (parent j)) as [a Ha]; [lia|].
  pose proof (proj1 (Forall_lookup _ _) Hok) as Hok'.
  rewrite (hl_less q j (parent j) b a) by eauto. cbn [mbind exit_bind]. destruct (lt b a) eqn:Hlt.
  - destruct (hl_swap q (parent j) j Hwf) as (q1 & E1 & Hwf1 & He1); [lia|done|]. rewrite E1.
    cbn [mbind exit_bind]. destruct (IH q1 (parent j)) as (q2 & E2 & Hq2 & Hp2); [done|..].
    + rewrite He1. by rewrite swap_list_perm.
    + rewrite He1, swap_list_length. lia.
    + lia.
    + rewrite He1. eapply up_step; [apply hl_order|done..].
    + exists q2. split_and!; [done|done|]. by rewrite Hp2, He1, swap_list_perm.
  - exists q. split_and!; [done| |done]. split; [done|done|]. eapply up_done; [done|].
    intros _ x y Hx Hy. unfold le. congruence.
Qed.

(** [Push] keeps the heap and adds the value. *)
Lemma Push_correct q x : queue_ok q → ok (val x) →
  ∃ q', Push q x = Ok q' ∧ queue_ok q' ∧ elems q' ≡ₚ val x :: elems q.
Proof using HLaws.
  intros [Hwf Hok Hheap] Hx. destruct (hl_push q x Hwf) as [Hwf' He]. unfold Push.
  rewrite hl_len, He, length_app. simpl.
  replace (Z.of_nat (length (elems q) + 1) - 1) with (Z.of_nat (length (elems q))) by lia. rewrite Nat2Z.id.
  destruct (up_correct (S (length (elems q))) (HPush q x) (length (elems q))) as (q' & E & Hq & Hp); [done|..].
  - rewrite He. apply Forall_app. split; [done|by apply Forall_singleton].
  - rewrite He, length_app. simpl. lia.
  - lia.
  - rewrite He. by apply heap_app.
  - exists q'. split_and!; [done|done|]. by rewrite Hp, He, Permutation_app_comm.
Qed.

(** The lesser child of [i], as [down] picks it. *)
Lemma least_child q i n a : wf q → Forall ok (elems q) → (n ≤ length (elems q))%nat → (2 * i + 1 < n)%nat →
  elems q !! i = Some a →
  ∃ j b (right : bool), (if Z.of_nat (2 * i + 1) + 1 <? Z.of_nat n
                then Less q (Z.of_nat (2 * i + 1) + 1) (Z.of_nat (2 * i + 1)) else Ok false) = Ok right
    ∧ (if right then Z.of_nat (2 * i + 1) + 1 else Z.of_nat (2 * i + 1)) = Z.of_nat j
    ∧ (0 < j < n)%nat ∧ parent j = i ∧ elems q !! j = Some b
    ∧ (∀ k c, (0 < k < n)%nat → parent k = i → elems q !! k = Some c → le lt b c).
Proof using HLaws.
  intros Hwf Hok Hn Hlt Ha. pose proof (proj1 (Forall_lookup _ _) Hok) as Hok'.
  pose proof (hl_order (HeapLaws:=HLaws)) as Hso. set (l := (2 * i + 1)%nat) in *.
  assert (∀ k c, elems q !! k = Some c → le lt c c) as Hrefl by (intros k c Hc; eapply le_refl; eauto).
  destruct (lookup_lt_is_Some_2 (elems q) l) as [b Hb]; [lia|].
  destruct (Z.ltb_spec (Z.of_nat l + 1) (Z.of_nat n)).
  - destruct (lookup_lt_is_Some_2 (elems q) (S l)) as [c Hc]; [lia|].
    replace (Z.of_nat l + 1) with (Z.of_nat (S l)) by lia. rewrite (hl_less q (S l) l c b) by eauto.
    assert (∀ k d, (0 < k < n)%nat → parent k = i → elems q !! k = Some d → d = b ∨ d = c) as Hch.
    { intros k d Hk Hp Hd. apply parent_children in Hp as [->| ->]; [left|right|lia]; [fold l in Hd; by simplify_eq|].
      replace (S l) with (2 * i + 2)%nat in Hc by lia. by simplify_eq. }
    destruct (lt c b) eqn:E.
    + exists (S l), c, true. split_and!; try done; try lia; try (apply parent_children; [lia|]; lia).
      intros k d Hk Hp Hd. destruct (Hch k d Hk Hp Hd) as [->| ->].
      * eapply (so_asym _ _ Hso); eauto.
      * by eapply Hrefl.
    + exists l, b, false. split_and!; try done; try lia; try (apply parent_children; [lia|]; lia).
      intros k d Hk Hp Hd. destruct (Hch k d Hk Hp Hd) as [->| ->]; [by eapply Hrefl|done].
  - exists l, b, false. split_and!; try done; try lia; try (apply parent_children; [lia|]; lia).
    intros k d Hk Hp Hd. apply parent_children in Hp as [->| ->]; [|lia|lia].
    fold l in Hd. simplify_eq. by eapply Hrefl.
Qed.

Lemma down_correct fuel q i n : wf q → Forall ok (elems q) → (n ≤ length (elems q))%nat → (n ≤ i + fuel)%nat →
  (i < length (elems q))%nat → down_inv lt n (elems q) i →
  ∃ q', down fuel q (Z.of_nat i) (Z.of_nat n) = Ok q' ∧ wf q' ∧ elems q' ≡ₚ elems q ∧ heap lt n (elems q')
    ∧ ∀ k, (n ≤ k)%nat → (i < n)%nat ∨ n = 0%nat → elems q' !! k = elems q !! k.
Proof using HLaws.
  revert q i. induction fuel as [|fuel IH]; intros q i Hwf Hok Hn Hfuel Hi Hinv.
  { exists q. split_and!; [done|done|done| |done]. eapply down_done; [done|].
    intros k Hk Hp. pose proof (parent_lt k ltac:(lia)). lia. }
  cbn [down]. replace (2 * Z.of_nat i + 1) with (Z.of_nat (2 * i + 1)) by lia.
  destruct (Z.leb_spec (Z.of_nat n) (Z.of_nat (2 * i + 1))) as [Hle|Hlt]; cbn [orb].
  { exists q. split_and!; [done|done|done| |done]. eapply down_done; [done|].
    intros k Hk Hp. apply parent_children in Hp; lia. }
  destruct (Z.ltb_spec (Z.of_nat (2 * i + 1)) 0); [lia|].
  destruct (lookup_lt_is_Some_2 (elems q) i) as [a Ha]; [done|].
  destruct (least_child q i n a Hwf Hok Hn ltac:(lia) Ha) as (j & b & right & -> & Hj & Hjn & Hp & Hb & Hmin).
  cbn [mbind exit_bind]. rewrite Hj. pose proof (proj1 (Forall_lookup _ _) Hok) as Hok'.
  rewrite (hl_less q j i b a) by eauto. cbn [mbind exit_bind]. pose proof (parent_lt j ltac:(lia)).
  destruct (lt b a) eqn:Hba.
  - destruct (hl_swap q i j Hwf) as (q1 & E1 & Hwf1 & He1); [done|lia|]. rewrite E1. cbn [mbind exit_bind].
    destruct (IH q1 j) as (q2 & E2 & Hwf2 & Hp2 & Hh2 & Hk2); [done|..].
    + rewrite He1. by rewrite swap_list_perm.
    + by rewrite He1, swap_list_length.
    + lia.
    + rewrite He1, swap_list_length. lia.
    + rewrite He1. eapply down_step; [apply hl_order|done..].
    + exists q2. split_and!; [done|done| |done|]; [by rewrite Hp2, He1, swap_list_perm|].
      intros k Hk _. rewrite Hk2 by lia. rewrite He1, (swap_list_lookup _ i j a b) by done.
      by rewrite !decide_False by lia.
  - exists q. split_and!; [done|done|done| |done]. eapply down_done; [done|].
    intros k Hk Hpk x y Hx Hy. rewrite Hpk in Hx. simplify_eq.
    eapply (so_trans _ _ (hl_order (HeapLaws:=HLaws)) a b y); eauto.
Qed.

(** [Pop] takes a least value and keeps the rest a heap. *)
Lemma Pop_correct q : queue_ok q → elems q ≠ [] →
  ∃ x q', Pop q = Ok (x, q') ∧ queue_ok q' ∧ elems q ≡ₚ val x :: elems q'
    ∧ Forall (le lt (val x)) (elems q').
Proof using HLaws.
  intros [Hwf Hok Hheap] Hne. set (n := (length (elems q) - 1)%nat).
  assert (0 < length (elems q))%nat as Hlen by (destruct (elems q); [done|simpl; lia]).
  unfold Pop. rewrite hl_len. replace (Z.of_nat (length (elems q)) - 1) with (Z.of_nat n) by lia. rewrite Nat2Z.id.
  destruct (hl_swap q 0 n Hwf) as (q1 & E1 & Hwf1 & He1); [lia|lia|]. change 0 with (Z.of_nat 0).
  rewrite E1. cbn [mbind exit_bind].
  destruct (lookup_lt_is_Some_2 (elems q) 0) as [a Ha]; [lia|].
  destruct (lookup_lt_is_Some_2 (elems q) n) as [b Hb]; [lia|].
  assert (length (elems q1) = S n) as Hl1 by (rewrite He1, swap_list_length; lia).
  destruct (down_correct (S n) q1 0 n) as (q2 & E2 & Hwf2 & Hp2 & Hh2 & Hk2); [done| |lia|lia|lia| |].
  { rewrite He1. by rewrite swap_list_perm. }
  { split; [|intros k x y Hk H0; lia]. intros k Hk Hpk x y Hx Hy. pose proof (parent_lt k ltac:(lia)).
    rewrite He1, (swap_list_lookup _ 0 n a b) in Hx, Hy by done.
    rewrite !decide_False in Hx by lia. rewrite !decide_False in Hy by lia. apply (Hheap k); [lia|done|done]. }
  rewrite E2. cbn [mbind exit_bind].
  assert (length (elems q2) = S n) as Hl2 by (by rewrite Hp2).
  assert (elems q2 !! n = Some a) as Hlast.
  { rewrite Hk2 by lia. rewrite He1, (swap_list_lookup _ 0 n a b) by done. case_decide; [|by rewrite decide_True].
    subst n. assert (length (elems q) - 1 = 0)%nat as E by done. rewrite E in Hb. by simplify_eq. }
  assert (elems q2 = take n (elems q2) ++ [a]) as Hsplit.
  { rewrite <- (take_S_r _ _ _ Hlast). by rewrite take_ge by lia. }
  destruct (hl_pop q2 _ _ Hwf2 Hsplit) as (x & q3 & E3 & Hx & Hwf3 & He3).
  assert (elems q ≡ₚ a :: elems q3) as Hperm.
  { rewrite He3, <- (swap_list_perm (elems q) 0 n), <- He1, <- Hp2, Hsplit at 1. by rewrite Permutation_app_comm. }
  exists x, q3. split_and!; [done| |by rewrite Hx|].
  - split; [done| |].
    + rewrite Hperm in Hok. by apply Forall_cons in Hok as [_ Hok].
    + rewrite He3. by apply heap_take.
  - rewrite Hx. assert (Forall (le lt a) (elems q)) as Hall.
    { apply Forall_lookup. intros k c Hc. destruct (decide (k = 0%nat)) as [->|Hk0].
      - simplify_eq. apply (le_refl lt ok). { apply hl_order. } rewrite Forall_lookup in Hok. eauto.
      - apply (heap_root lt ok hl_order (length (elems q)) (elems q) a k c); try done.
        by apply lookup_lt_Some in Hc. }
    rewrite Hperm in Hall. by apply Forall_cons in Hall as [_ Hall].
Qed.

(** * Emptying a queue *)

(** [for pq.Len() > 0 { l = append(l, heap.Pop(&pq)) }] *)
Fixpoint popAll (fuel : nat) (q : Q) : exit (list X) :=
  match fuel with
  | O => mret []
  | S fuel =>
      if 0 <? Len q then
        '(x, q) ← Pop q;
        l ← popAll fuel q;
        mret (x :: l)
      else mret []
  end.

(** [for _, x := range l { heap.Push(&pq, x) }] *)
Fixpoint pushAll (l : list X) (q : Q) : exit Q :=
  match l with
  | [] => mret q
  | x :: l => q ← Push q x; pushAll l q
  end.

Lemma pushAll_correct l q : queue_ok q → Forall ok (val <$> l) →
  ∃ q', pushAll l q = Ok q' ∧ queue_ok q' ∧ elems q' ≡ₚ (val <$> l) ++ elems q.
Proof using HLaws.
  revert q. induction l as [|x l IH]; intros q Hq Hl; [by exists q|].
  apply Forall_cons in Hl as [Hx Hl]. destruct (Push_correct q x Hq Hx) as (q1 & E1 & Hq1 & Hp1).
  destruct (IH q1 Hq1 Hl) as (q2 & E2 & Hq2 & Hp2). exists q2. cbn [pushAll]. rewrite E1.
  cbn [mbind exit_bind]. split_and!; [done|done|]. rewrite Hp2, Hp1. cbn. by rewrite <- Permutation_middle.
Qed.

(** Emptying a queue yields its values in order. *)
Lemma popAll_correct fuel q : queue_ok q → (length (elems q) ≤ fuel)%nat →
  ∃ l, popAll fuel q = Ok l ∧ (val <$> l) ≡ₚ elems q ∧ StronglySorted (le lt) (val <$> l).
Proof using HLaws.
  revert q. induction fuel as [|fuel IH]; intros q Hq Hlen.
  { exists []. destruct (elems q); simpl in *; [|lia]. split_and!; [done|done|constructor]. }
  cbn [popAll]. rewrite hl_len. destruct (Z.ltb_spec 0 (Z.of_nat (length (elems q)))) as [H0|H0].
  - destruct (Pop_correct q Hq) as (x & q1 & E1 & Hq1 & Hp1 & Hmin); [intros E; rewrite E in H0; simpl in H0; lia|].
    destruct (IH q1 Hq1) as (l & E2 & Hp2 & Hs); [rewrite Hp1 in Hlen; simpl in Hlen; lia|].
    exists (x :: l). rewrite E1. cbn [mbind exit_bind]. rewrite E2. cbn. split_and!; [done|by rewrite Hp1, Hp2|].
    constructor; [done|]. by rewrite Hp2.
  - exists []. assert (elems q = []) as -> by (destruct (elems q); [done|simpl in *; lia]).
    split_and!; [done|done|constructor].
Qed.
End correctness.
