(* ===== verification/PriorityQueue.v ===== *)
(** The priority queue of matching ClusterCIDRs
    (src/pkg/controller/ipam/multi_cidr_priority_queue.go).

    A queue item holds a pointer to an internal ClusterCIDR; [store] is the heap
    of those objects, which nothing changes while a queue is in use.  [Less],
    [Swap], [Push] and [Pop] are the methods of [heap.Interface], and [PQ_laws]
    discharges what [container/heap] expects of them. *)
From S2P Require Import Prelude GoNet CIDRTheory CIDRText NetUtils MultiCIDRSet ContainerHeap.

(** Pointers to internal ClusterCIDR objects, and the objects. *)
Abbreviation loc := positive.
Abbreviation Store := (gmap loc ClusterCIDR).

Definition deref (store : Store) (l : loc) : exit ClusterCIDR :=
  match store !! l with Some c => Ok c | None => Panic NilDereference end.

Record PriorityQueueItem : Type := mkItem {
  item_clusterCIDR : loc;
  labelMatchCount : Z;
  selectorString : string;
  index : Z
}.

Abbreviation PriorityQueue := (list PriorityQueueItem).

(** [pq[i]] *)
Definition at_ (pq : PriorityQueue) (i : Z) : exit PriorityQueueItem :=
  if i <? 0 then Panic IndexOutOfRange
  else match pq !! Z.to_nat i with Some x => Ok x | None => Panic IndexOutOfRange end.

Definition with_index (i : Z) (x : PriorityQueueItem) : PriorityQueueItem :=
  mkItem (item_clusterCIDR x) (labelMatchCount x) (selectorString x) i.

Section methods.
Context (store : Store).

Definition maxAllocatable (pqi : PriorityQueueItem) : exit Z :=
  c ← deref store (item_clusterCIDR pqi);
  let ipv4Allocatable := match IPv4CIDRSet c with Some s => MaxCIDRs s | None => MaxInt end in
  let ipv6Allocatable := match IPv6CIDRSet c with Some s => MaxCIDRs s | None => MaxInt end in
  mret (if ipv4Allocatable <? ipv6Allocatable then ipv4Allocatable else ipv6Allocatable).

Definition nodeMaskSize (pqi : PriorityQueueItem) : exit Z :=
  c ← deref store (item_clusterCIDR pqi);
  match IPv4CIDRSet c, IPv6CIDRSet c with
  | Some s, _ => mret (NodeMaskSize s)
  | None, Some s => mret (NodeMaskSize s)
  | None, None => Panic NilDereference
  end.

Definition cidrLabel (pqi : PriorityQueueItem) : exit string :=
  c ← deref store (item_clusterCIDR pqi);
  match IPv4CIDRSet c, IPv6CIDRSet c with
  | Some s, _ => mret (Label s)
  | None, Some s => mret (Label s)
  | None, None => Panic NilDereference
  end.

(** The comparison of [Less], on the two items. *)
Definition itemLess (a b : PriorityQueueItem) : exit bool :=
  if negb (labelMatchCount a =? labelMatchCount b) then mret (labelMatchCount b <? labelMatchCount a)
  else
    ma ← maxAllocatable a;
    mb ← maxAllocatable b;
    if negb (ma =? mb) then mret (ma <? mb)
    else
      na ← nodeMaskSize a;
      nb ← nodeMaskSize b;
      if negb (na =? nb) then mret (nb <? na)
      else if negb (String.eqb (selectorString a) (selectorString b)) then
        mret (String.ltb (selectorString a) (selectorString b))
      else
        la ← cidrLabel a;
        lb ← cidrLabel b;
        mret (String.ltb la lb).

Definition PQ_Len (pq : PriorityQueue) : Z := Z.of_nat (length pq).

Definition PQ_Less (pq : PriorityQueue) (i j : Z) : exit bool :=
  a ← at_ pq i;
  b ← at_ pq j;
  itemLess a b.

Definition PQ_Swap (pq : PriorityQueue) (i j : Z) : exit PriorityQueue :=
  a ← at_ pq i;
  b ← at_ pq j;
  let pq := <[Z.to_nat i := b]> (<[Z.to_nat j := a]> pq) in
  let pq := alter (with_index i) (Z.to_nat i) pq in
  let pq := alter (with_index j) (Z.to_nat j) pq in
  mret pq.

Definition PQ_Push (pq : PriorityQueue) (x : PriorityQueueItem) : PriorityQueue :=
  pq ++ [with_index (Z.of_nat (length pq)) x].

Definition PQ_Pop (pq : PriorityQueue) : exit (PriorityQueueItem * PriorityQueue) :=
  let n := PQ_Len pq in
  item ← at_ pq (n - 1);
  mret (with_index (-1) item, take (Z.to_nat (n - 1)) pq).

#[export] Instance PQ_heap : HeapInterface PriorityQueue PriorityQueueItem := {
  Len := PQ_Len;
  Less := PQ_Less;
  Swap := PQ_Swap;
  HPush := PQ_Push;
  HPop := PQ_Pop
}.
End methods.

(** * Comparisons *)

(** A total preorder given by a comparison function. *)
Record compare_laws {V : Type} (c : V → V → comparison) : Prop := {
  cl_antisym a b : c b a = CompOpp (c a b);
  cl_trans x y z : c x y ≠ Gt → c y z ≠ Gt → c x z ≠ Gt
}.

Definition then_compare {V : Type} (c d : V → V → comparison) (a b : V) : comparison :=
  match c a b with Eq => d a b | r => r end.

Lemma Z_compare_laws {V} (f : V → Z) : compare_laws (λ a b, f a ?= f b).
Proof.
  split; [intros; apply Z.compare_antisym|]. intros x y z Hxy Hyz.
  change (f x ≤ f y) in Hxy. change (f y ≤ f z) in Hyz. change (f x ≤ f z). lia.
Qed.

Lemma Z_compare_rev_laws {V} (f : V → Z) : compare_laws (λ a b, f b ?= f a).
Proof.
  split; [intros; apply Z.compare_antisym|]. intros x y z Hxy Hyz.
  change (f y ≤ f x) in Hxy. change (f z ≤ f y) in Hyz. change (f z ≤ f x). lia.
Qed.

Lemma string_compare_laws {V} (f : V → string) : compare_laws (λ a b, String.compare (f a) (f b)).
Proof.
  assert (∀ s t, String.compare s t ≠ Gt ↔ String.le s t) as Hle.
  { intros s t. unfold String.le, String.leb. destruct (String.compare s t); simpl; naive_solver. }
  split; [intros; apply String.compare_antisym|]. intros x y z. rewrite !Hle. apply (transitivity (R:=String.le)).
Qed.

Lemma compare_refl {V} (c : V → V → comparison) : compare_laws c → ∀ a, c a a = Eq.
Proof. intros Hc a. pose proof (cl_antisym _ Hc a a). by destruct (c a a). Qed.

Lemma then_compare_laws {V} (c d : V → V → comparison) :
  compare_laws c → compare_laws d → compare_laws (then_compare c d).
Proof.
  intros Hc Hd. split.
  - intros a b. unfold then_compare. rewrite (cl_antisym _ Hc a b).
    destruct (c a b); simpl; [apply Hd|done|done].
  - intros x y z. unfold then_compare. pose proof (cl_trans _ Hc x y z) as Hxyz.
    pose proof (cl_trans _ Hc z x y) as Hzxy. pose proof (cl_trans _ Hc y z x) as Hyzx.
    rewrite (cl_antisym _ Hc x z), (cl_antisym _ Hc y z) in Hzxy.
    rewrite (cl_antisym _ Hc x z), (cl_antisym _ Hc x y) in Hyzx.
    pose proof (cl_trans _ Hd x y z) as Hd'.
    destruct (c x y), (c y z), (c x z); simpl in *; try done; try (exfalso; naive_solver); naive_solver.
Qed.

Lemma compare_order {V} (c : V → V → comparison) ok : compare_laws c →
  strict_weak_order (λ a b, match c a b with Lt => true | _ => false end) ok.
Proof.
  intros Hc. split.
  - intros a b _ _. unfold le. rewrite (cl_antisym _ Hc a b). by destruct (c a b).
  - intros x y z _ _ _. unfold le. pose proof (cl_trans _ Hc x y z) as Ht.
    rewrite (cl_antisym _ Hc x y), (cl_antisym _ Hc y z), (cl_antisym _ Hc x z).
    destruct (c x y), (c y z), (c x z); simpl in *; try done; exfalso; naive_solver.
Qed.

(** * The priority, and the laws of the queue *)

Section laws.
Context (store : Store).

(** An item whose ClusterCIDR exists and has a set, as [createClusterCIDR] ensures. *)
Definition item_ok (x : PriorityQueueItem) : Prop :=
  ∃ c, store !! item_clusterCIDR x = Some c ∧ (is_Some (IPv4CIDRSet c) ∨ is_Some (IPv6CIDRSet c)).

(** What [Less] compares, without the pointers. *)
Definition value {A} (d : A) (r : exit A) : A := match r with Ok a => a | _ => d end.
Definition rank_max (x : PriorityQueueItem) : Z := value 0 (maxAllocatable store x).
Definition rank_mask (x : PriorityQueueItem) : Z := value 0 (nodeMaskSize store x).
Definition rank_label (x : PriorityQueueItem) : string := value EmptyString (cidrLabel store x).

(** P0 to P4: more matching labels, fewer allocatable CIDRs, longer node mask,
    smaller selector, smaller CIDR text. *)
Definition priority : PriorityQueueItem → PriorityQueueItem → comparison :=
  then_compare (λ a b, labelMatchCount b ?= labelMatchCount a)
  (then_compare (λ a b, rank_max a ?= rank_max b)
  (then_compare (λ a b, rank_mask b ?= rank_mask a)
  (then_compare (λ a b, String.compare (selectorString a) (selectorString b))
                (λ a b, String.compare (rank_label a) (rank_label b))))).

Definition before (a b : PriorityQueueItem) : bool :=
  match priority a b with Lt => true | _ => false end.

Lemma priority_laws : compare_laws priority.
Proof using.
  repeat apply then_compare_laws;
    (apply Z_compare_laws || apply Z_compare_rev_laws || apply string_compare_laws).
Qed.

Lemma before_order ok : strict_weak_order before ok.
Proof using. apply (compare_order priority), priority_laws. Qed.

Lemma ranks_ok x : item_ok x →
  maxAllocatable store x = Ok (rank_max x) ∧ nodeMaskSize store x = Ok (rank_mask x)
  ∧ cidrLabel store x = Ok (rank_label x).
Proof using.
  intros (c & Hc & Hset). unfold rank_max, rank_mask, rank_label, maxAllocatable, nodeMaskSize, cidrLabel, deref.
  rewrite Hc. mred. destruct (IPv4CIDRSet c), (IPv6CIDRSet c); simpl; try done. by destruct Hset as [[? ?]|[? ?]].
Qed.

(** [Less] is the priority, and does not panic. *)
Lemma itemLess_priority a b : item_ok a → item_ok b → itemLess store a b = Ok (before a b).
Proof using.
  intros (Ma & Na & La)%ranks_ok (Mb & Nb & Lb)%ranks_ok. unfold itemLess, before, priority, then_compare.
  rewrite Ma, Mb, Na, Nb, La, Lb. mred.
  destruct (Z.eqb_spec (labelMatchCount a) (labelMatchCount b)) as [E|E]; cbn [negb].
  2: { destruct (Z.compare_spec (labelMatchCount b) (labelMatchCount a)); [lia|..];
         f_equal; by destruct (Z.ltb_spec (labelMatchCount b) (labelMatchCount a)); try lia. }
  rewrite E, Z.compare_refl.
  destruct (Z.eqb_spec (rank_max a) (rank_max b)) as [E1|E1]; cbn [negb].
  2: { destruct (Z.compare_spec (rank_max a) (rank_max b)); [lia|..];
         f_equal; by destruct (Z.ltb_spec (rank_max a) (rank_max b)); try lia. }
  rewrite E1, Z.compare_refl.
  destruct (Z.eqb_spec (rank_mask a) (rank_mask b)) as [E2|E2]; cbn [negb].
  2: { destruct (Z.compare_spec (rank_mask b) (rank_mask a)); [lia|..];
         f_equal; by destruct (Z.ltb_spec (rank_mask b) (rank_mask a)); try lia. }
  rewrite E2, Z.compare_refl. unfold String.ltb.
  destruct (String.eqb_spec (selectorString a) (selectorString b)) as [E3|E3]; cbn [negb].
  - rewrite E3, (compare_refl _ (string_compare_laws selectorString) b). by destruct (String.compare _ _).
  - destruct (String.compare (selectorString a) (selectorString b)) eqn:E4; [|done..].
    by apply String.compare_eq_iff in E4.
Qed.

(** An item without the position the queue writes into it. *)
Definition strip (x : PriorityQueueItem) : PriorityQueueItem := with_index 0 x.

Lemma before_strip a b : before (strip a) (strip b) = before a b.
Proof using. done. Qed.

(** Every item knows its position. *)
Definition indexed (pq : PriorityQueue) : Prop := ∀ i x, pq !! i = Some x → index x = Z.of_nat i.

Lemma at_lookup pq i x : pq !! i = Some x → at_ pq (Z.of_nat i) = Ok x.
Proof using.
  intros Hx. unfold at_. destruct (Z.ltb_spec (Z.of_nat i) 0); [lia|]. by rewrite Nat2Z.id, Hx.
Qed.

Lemma Swap_items pq i j : indexed pq → (i < length pq)%nat → (j < length pq)%nat →
  ∃ pq', PQ_Swap pq (Z.of_nat i) (Z.of_nat j) = Ok pq' ∧ indexed pq'
    ∧ strip <$> pq' = swap_list i j (strip <$> pq).
Proof using.
  intros Hidx Hi Hj. destruct (lookup_lt_is_Some_2 pq i Hi) as [a Ha]. destruct (lookup_lt_is_Some_2 pq j Hj) as [b Hb].
  unfold PQ_Swap. rewrite (at_lookup pq i a Ha), (at_lookup pq j b Hb). mred. rewrite !Nat2Z.id.
  assert (<[i:=b]> (<[j:=a]> pq) = swap_list i j pq) as -> by (unfold swap_list; by rewrite Ha, Hb).
  eexists. split; [done|]. pose proof (λ k, swap_list_lookup pq i j a b k Ha Hb) as Hl. split.
  - intros k x Hx. destruct (decide (k = j)) as [->|Hkj].
    { rewrite list_lookup_alter_eq in Hx. apply fmap_Some in Hx as (? & _ & ->). done. }
    rewrite list_lookup_alter_ne in Hx by done. destruct (decide (k = i)) as [->|Hki].
    { rewrite list_lookup_alter_eq in Hx. apply fmap_Some in Hx as (? & _ & ->). done. }
    rewrite list_lookup_alter_ne, Hl, !decide_False in Hx by done. by apply Hidx.
  - assert (∀ (l : PriorityQueue) k z, strip <$> alter (with_index z) k l = strip <$> l) as Hst.
    { intros l k z. apply list_eq. intros m. rewrite !list_lookup_fmap.
      destruct (decide (k = m)) as [->|]; [|by rewrite list_lookup_alter_ne].
      rewrite list_lookup_alter_eq. by destruct (l !! m). }
    rewrite !Hst. unfold swap_list. rewrite !list_lookup_fmap, Ha, Hb. simpl.
    by rewrite <- !list_fmap_insert.
Qed.

#[export] Instance PQ_laws : HeapLaws (H:=PQ_heap store) PriorityQueue PriorityQueueItem PriorityQueueItem
  (fmap strip) strip indexed item_ok before.
Proof using.
  split.
  - apply before_order.
  - intros q. simpl. unfold PQ_Len. by rewrite length_fmap.
  - intros q i j a b Ha Hb Hoa Hob. rewrite list_lookup_fmap in Ha, Hb.
    apply fmap_Some in Ha as (a' & Ha & ->). apply fmap_Some in Hb as (b' & Hb & ->).
    simpl. unfold PQ_Less. rewrite (at_lookup q i a' Ha), (at_lookup q j b' Hb). mred.
    rewrite before_strip. by apply itemLess_priority.
  - intros q i j Hq. simpl. rewrite length_fmap. by apply Swap_items.
  - intros q x Hq. simpl. unfold PQ_Push. split; [|by rewrite fmap_app].
    intros i y. rewrite lookup_app_Some. intros [Hy|[Hlen Hy]]; [by apply Hq|].
    apply list_lookup_singleton_Some in Hy as [Hi <-]. simpl. lia.
  - intros q l a Hq Hel. simpl. unfold PQ_Pop, PQ_Len.
    destruct (fmap_app_inv _ _ _ _ Hel) as (l1 & l2 & E1 & E2 & ->).
    destruct l2 as [|y [|? ?]]; simplify_eq/=.
    rewrite length_app. simpl. replace (Z.of_nat (length l1 + 1) - 1) with (Z.of_nat (length l1)) by lia.
    rewrite (at_lookup _ (length l1) y) by (by rewrite lookup_app_r, Nat.sub_diag). mred.
    rewrite Nat2Z.id. eexists _, _. split; [done|]. rewrite take_app_length. split_and!; [done| |done].
    intros i z Hz. apply Hq. by apply lookup_app_l_Some.
Qed.
End laws.
