(* ===== verification/Kubernetes.v ===== *)
(** The Kubernetes API objects the controller reads, and the packages it calls
    that the repository does not contain.

    The objects keep the fields the code uses.  [k8s.io/apimachinery/pkg/labels]
    is the class [Labels], the API server with the informer caches and the work
    queues the class [Cluster]: parameters of the model, with no law assumed. *)
From S2P Require Import Prelude GoNet CIDRTheory CIDRText NetUtils MultiCIDRSet.

(** * API objects *)

(** A [*metav1.Time]: nil, or a time; 0 is the zero time. *)
Definition Timestamp : Type := option Z.

Definition IsZero (t : Timestamp) : bool :=
  match t with None => true | Some z => z =? 0 end.

Record NodeSelectorRequirement : Type := mkRequirement {
  Key : string;
  Operator : string;
  Values : list string
}.

Record NodeSelectorTerm : Type := mkTerm {
  MatchExpressions : list NodeSelectorRequirement;
  MatchFields : list NodeSelectorRequirement
}.

Record NodeSelector : Type := mkNodeSelector { NodeSelectorTerms : list NodeSelectorTerm }.

Record ClusterCIDRSpec : Type := mkSpecCC {
  spec_NodeSelector : option NodeSelector;
  PerNodeHostBits : Z;
  spec_IPv4 : string;
  spec_IPv6 : string
}.

(** The API object [v1.ClusterCIDR], as opposed to the internal [ClusterCIDR]. *)
Record v1ClusterCIDR : Type := mkCC {
  cc_Name : string;
  cc_Generation : Z;
  cc_ResourceVersion : string;
  cc_DeletionTimestamp : Timestamp;
  cc_Finalizers : list string;
  cc_Spec : ClusterCIDRSpec
}.

Definition with_finalizers (l : list string) (c : v1ClusterCIDR) : v1ClusterCIDR :=
  mkCC (cc_Name c) (cc_Generation c) (cc_ResourceVersion c) (cc_DeletionTimestamp c) l (cc_Spec c).

Record Node : Type := mkNode {
  node_Name : string;
  node_Labels : gmap string string;
  PodCIDRs : list string;
  node_DeletionTimestamp : Timestamp
}.

(** [needToAddFinalizer] *)
Definition needToAddFinalizer (deletionTimestamp : Timestamp) (finalizers : list string) (finalizer : string) : bool :=
  bool_decide (deletionTimestamp = None) && negb (bool_decide (finalizer ∈ finalizers)).

(** * The label package *)

Inductive SelectionOperator : Type :=
| selection_In | selection_NotIn | selection_Exists | selection_DoesNotExist
| selection_GreaterThan | selection_LessThan.

Class Labels : Type := {
  Selector : Type;
  Requirement : Type;
  labels_Parse : string → error + Selector;
  Requirements : Selector → list Requirement * bool;
  Requirement_Matches : Requirement → gmap string string → bool;
  NewRequirement : string → SelectionOperator → list string → error + Requirement;
  labels_Nothing : Selector;
  labels_Everything : Selector;
  labels_NewSelector : Selector;
  Selector_Add : Selector → list Requirement → Selector;
  Selector_String : Selector → string
}.

(** What its documentation says of selectors: [Nothing] is not selectable, [Everything]
    and a new selector require nothing, and adding requirements adds these. *)
Class LabelsLaws (L : Labels) : Prop := {
  nothing_selects : (Requirements labels_Nothing).2 = false;
  everything_selects : Requirements labels_Everything = ([], true);
  new_selects : Requirements labels_NewSelector = ([], true);
  add_requirements s rs : (Requirements s).2 = true → (Requirements (Selector_Add s rs)).1 ≡ₚ (Requirements s).1 ++ rs;
  add_selectable s rs : (Requirements (Selector_Add s rs)).2 = (Requirements s).2
}.

(** * The API server, the informer caches and the work queues

    [World] is their state.  A call returns its error, if any, and the next state.
    [Get] of a queue returns [None] when the queue is shut down. *)
Inductive QueueName : Type := cidrQueue | nodeQueue.

(** [wait.Backoff]; the durations in milliseconds, the factor in tenths. *)
Record Backoff : Type := mkBackoff { Duration : Z; Factor : Z; Steps : Z }.

Class Cluster : Type := {
  World : Type;
  nodeLister_Get : World → string → error + Node;
  clusterCIDRLister_Get : World → string → error + v1ClusterCIDR;
  PatchNodeCIDRs : string → list string → World → option error * World;
  networkClient_List : World → (error + list v1ClusterCIDR) * World;
  networkClient_Create : v1ClusterCIDR → World → option error * World;
  networkClient_Update : v1ClusterCIDR → World → option error * World;
  queue_Get : QueueName → World → option string * World;
  queue_Done : QueueName → string → World → World;
  queue_Forget : QueueName → string → World → World;
  queue_AddRateLimited : QueueName → string → World → World;
  ExponentialBackoff : ∀ S : Type, Backoff → (S → (error + bool) * S) → S → option error * S
}.

(** [apierrors.IsNotFound], [apierrors.IsServerTimeout]: the status reason of the
    error or of the first error it wraps that has one. *)
Fixpoint ReasonForError (e : error) : string :=
  match e with ApiError r => r | ErrorfW _ _ e => ReasonForError e | _ => EmptyString end.
Definition IsNotFound (e : error) : bool := String.eqb (ReasonForError e) "NotFound".
Definition IsServerTimeout (e : error) : bool := String.eqb (ReasonForError e) "ServerTimeout".

(** * Node selectors *)

Definition defaultClusterCIDRKey : string := "kubernetes.io/clusterCIDR".
Definition defaultClusterCIDRValue : string := "default".
Definition defaultClusterCIDRName : string := "default-cluster-cidr".
Definition clusterCIDRFinalizer : string := "networking.x-k8s.io/cluster-cidr-finalizer".
Definition ipv4MaxCIDRMask : Z := 32.
Definition ipv6MaxCIDRMask : Z := 128.
Definition minPerNodeHostBits : Z := 4.

Definition defaultNodeSelector : NodeSelector :=
  mkNodeSelector [mkTerm [mkRequirement defaultClusterCIDRKey "In" [defaultClusterCIDRValue]] []].

Section selectors.
Context `{Labels}.

Definition nodeSelectorRequirementsAsLabelRequirements (nsr : NodeSelectorRequirement) : exit Requirement :=
  op ←
    (if String.eqb (Operator nsr) "In" then Ok selection_In
     else if String.eqb (Operator nsr) "NotIn" then Ok selection_NotIn
     else if String.eqb (Operator nsr) "Exists" then Ok selection_Exists
     else if String.eqb (Operator nsr) "DoesNotExist" then Ok selection_DoesNotExist
     else if String.eqb (Operator nsr) "Gt" then Ok selection_GreaterThan
     else if String.eqb (Operator nsr) "Lt" then Ok selection_LessThan
     else Err (Errorf "%q is not a valid node selector operator" [Operator nsr]));
  match NewRequirement (Key nsr) op (Values nsr) with
  | inl e => Err e
  | inr r => Ok r
  end.

(** A [for] that converts each requirement and appends it. *)
Fixpoint appendRequirements (requirements : list Requirement) (l : list NodeSelectorRequirement)
    : exit (list Requirement) :=
  match l with
  | [] => mret requirements
  | expr :: l =>
      req ← nodeSelectorRequirementsAsLabelRequirements expr;
      appendRequirements (requirements ++ [req]) l
  end.

Fixpoint appendTerms (requirements : list Requirement) (l : list NodeSelectorTerm) : exit (list Requirement) :=
  match l with
  | [] => mret requirements
  | nsTerm :: l =>
      requirements ← appendRequirements requirements (MatchExpressions nsTerm);
      requirements ← appendRequirements requirements (MatchFields nsTerm);
      appendTerms requirements l
  end.

Definition nodeSelectorAsSelector (ns : option NodeSelector) : exit Selector :=
  match ns with
  | None => mret labels_Nothing
  | Some ns =>
      if Nat.eqb (length (NodeSelectorTerms ns)) 0 then mret labels_Everything
      else
        requirements ← appendTerms [] (NodeSelectorTerms ns);
        mret (Selector_Add labels_NewSelector requirements)
  end.

Definition nodeSelectorKey (clusterCIDR : v1ClusterCIDR) : exit string :=
  nodeSelector ←
    (match spec_NodeSelector (cc_Spec clusterCIDR) with
     | Some ns => nodeSelectorAsSelector (Some ns)
     | None => nodeSelectorAsSelector (Some defaultNodeSelector)
     end);
  mret (Selector_String nodeSelector).

(** Whether the labels of the node match every requirement of the selector whose
    text is [label], and how many they match. *)
Definition matchCIDRLabels (node : Node) (label : string) : exit (bool * Z) :=
  match labels_Parse label with
  | inl err => Err (ErrorfW "unable to parse label to labels.Selector (label=%s): %w" [label] err)
  | inr ls =>
      let '(reqs, selectable) := Requirements ls in
      if selectable : bool then
        let matchCnt := foldl (λ matchCnt req,
          if Requirement_Matches req (node_Labels node) then matchCnt + 1 else matchCnt) 0 reqs in
        mret (matchCnt =? Z.of_nat (length reqs), matchCnt)
      else mret (false, 0)
  end.
End selectors.
