(* ===== verification/Validation.v ===== *)
(** The validation of ClusterCIDR objects (pkg/apis/clustercidr/v1/validation).

    A validator returns the list of its errors; none means accepted.  The packages
    [field] and [validation] of apimachinery are parameters: [FieldErrors] builds
    paths and errors, [ApiValidation] has the validators the source calls. *)
From S2P Require Import Prelude GoNet CIDRTheory CIDRText NetUtils MultiCIDRSet Kubernetes.

(** The [interface{}] value of [field.Invalid]. *)
Inductive BadValue : Type := BadString (s : string) | BadInt (n : Z).

Class FieldErrors : Type := {
  Path : Type;
  FieldError : Type;
  NewPath : string → Path;
  Child : Path → string → Path;
  Index : Path → Z → Path;
  Required : Path → string → FieldError;
  Forbidden : Path → string → FieldError;
  Invalid : Path → BadValue → string → FieldError
}.

(** The fields compared by [ValidateImmutableField]. *)
Inductive ImmutableValue : Type :=
| ImmSelector (ns : option NodeSelector)
| ImmInt (n : Z)
| ImmString (s : string).

(** [ValidateNameFunc] *)
Definition NameFunc : Type := string → bool → list string.

Class ApiValidation `{!FieldErrors} : Type := {
  NameIsDNSLabel : NameFunc;
  NameIsDNSSubdomain : NameFunc;
  ObjectNameField : string;
  ValidateObjectMeta : v1ClusterCIDR → bool → NameFunc → Path → list FieldError;
  ValidateObjectMetaUpdate : v1ClusterCIDR → v1ClusterCIDR → Path → list FieldError;
  ValidateImmutableField : ImmutableValue → ImmutableValue → Path → list FieldError;
  ValidateLabelName : string → Path → list FieldError
}.

(** [corev1.IPFamily] *)
Inductive IPFamily : Type := IPv4Protocol | IPv6Protocol.
Definition IPFamily_string (f : IPFamily) : string := match f with IPv4Protocol => "IPv4" | IPv6Protocol => "IPv6" end.

Section validation.
Context `{HN : !NetUtils} `{HF : !FieldErrors} `{HV : !ApiValidation}.

Definition validateClusterCIDRName : NameFunc := NameIsDNSLabel.
Definition validateNodeName : NameFunc := NameIsDNSSubdomain.

Definition validateCIDRConfig (configCIDR : string) (perNodeHostBits maxMaskSize : Z) (ipFamily : IPFamily) (fldPath : Path)
    : list FieldError :=
  let minPerNodeHostBits := 4 in
  match ParseCIDRSloppy configCIDR with
  | inl _ => [Invalid (Child fldPath (IPFamily_string ipFamily)) (BadString configCIDR) ("must be a valid CIDR: " +:+ configCIDR)]
  | inr (ip, ipNet) =>
      let maxPerNodeHostBits := s32 (maxMaskSize - s32 (Mask_Size (IPNet_Mask ipNet)).1) in
      (match ipFamily with
       | IPv4Protocol =>
           if negb (IsIPv4 ip)
           then [Invalid (Child fldPath (IPFamily_string ipFamily)) (BadString configCIDR) "must be a valid IPv4 CIDR"] else []
       | IPv6Protocol =>
           if negb (IsIPv6 ip)
           then [Invalid (Child fldPath (IPFamily_string ipFamily)) (BadString configCIDR) "must be a valid IPv6 CIDR"] else []
       end) ++
      (if perNodeHostBits <? minPerNodeHostBits
       then [Invalid (Child fldPath "perNodeHostBits") (BadInt perNodeHostBits)
               ("must be greater than or equal to " +:+ pretty minPerNodeHostBits)] else []) ++
      (if maxPerNodeHostBits <? perNodeHostBits
       then [Invalid (Child fldPath "perNodeHostBits") (BadInt perNodeHostBits)
               ("must be less than or equal to " +:+ pretty maxPerNodeHostBits)] else [])
  end.

Definition ValidateNodeSelectorRequirement (rq : NodeSelectorRequirement) (fldPath : Path) : list FieldError :=
  (if String.eqb (Operator rq) "In" || String.eqb (Operator rq) "NotIn" then
     if Nat.eqb (length (Values rq)) 0
     then [Required (Child fldPath "values") "must be specified when `operator` is 'In' or 'NotIn'"] else []
   else if String.eqb (Operator rq) "Exists" || String.eqb (Operator rq) "DoesNotExist" then
     if Nat.ltb 0 (length (Values rq))
     then [Forbidden (Child fldPath "values") "may not be specified when `operator` is 'Exists' or 'DoesNotExist'"] else []
   else if String.eqb (Operator rq) "Gt" || String.eqb (Operator rq) "Lt" then
     if negb (Nat.eqb (length (Values rq)) 1)
     then [Required (Child fldPath "values") "must be specified single value when `operator` is 'Lt' or 'Gt'"] else []
   else [Invalid (Child fldPath "operator") (BadString (Operator rq)) "not a valid selector operator"]) ++
  ValidateLabelName (Key rq) (Child fldPath "key").

(** The map [nodeFieldSelectorValidators]. *)
Definition nodeFieldSelectorValidators (key : string) : option NameFunc :=
  if String.eqb key ObjectNameField then Some validateNodeName else None.

(** The loop over the values. *)
Fixpoint validateValues (vf : NameFunc) (fldPath : Path) (i : Z) (values : list string) : list FieldError :=
  match values with
  | [] => []
  | v :: values =>
      ((λ msg, Invalid (Index (Child fldPath "values") i) (BadString v) msg) <$> vf v false)
      ++ validateValues vf fldPath (i + 1) values
  end.

Definition validateNodeFieldSelectorRequirement (req : NodeSelectorRequirement) (fldPath : Path) : list FieldError :=
  (if String.eqb (Operator req) "In" || String.eqb (Operator req) "NotIn" then
     if negb (Nat.eqb (length (Values req)) 1)
     then [Required (Child fldPath "values") "must be only one value when `operator` is 'In' or 'NotIn' for node field selector"]
     else []
   else [Invalid (Child fldPath "operator") (BadString (Operator req)) "not a valid selector operator"]) ++
  match nodeFieldSelectorValidators (Key req) with
  | None => [Invalid (Child fldPath "key") (BadString (Key req)) "not a valid field selector key"]
  | Some vf => validateValues vf fldPath 0 (Values req)
  end.

(** [for j, x := range l { allErrs = append(allErrs, f(x, path.Index(j))...) }] *)
Fixpoint validateEach {A} (f : A → Path → list FieldError) (path : Path) (j : Z) (l : list A) : list FieldError :=
  match l with
  | [] => []
  | x :: l => f x (Index path j) ++ validateEach f path (j + 1) l
  end.

Definition validateNodeSelectorTerm (term : NodeSelectorTerm) (fldPath : Path) : list FieldError :=
  validateEach ValidateNodeSelectorRequirement (Child fldPath "matchExpressions") 0 (MatchExpressions term) ++
  validateEach validateNodeFieldSelectorRequirement (Child fldPath "matchFields") 0 (MatchFields term).

Definition validateNodeSelector (nodeSelector : NodeSelector) (fldPath : Path) : list FieldError :=
  let termFldPath := Child fldPath "nodeSelectorTerms" in
  if Nat.eqb (length (NodeSelectorTerms nodeSelector)) 0
  then [Required termFldPath "must have at least one node selector term"]
  else validateEach validateNodeSelectorTerm termFldPath 0 (NodeSelectorTerms nodeSelector).

Definition ValidateClusterCIDRSpec (spec : ClusterCIDRSpec) (fldPath : Path) : list FieldError :=
  match spec_NodeSelector spec with
  | Some ns => validateNodeSelector ns (Child fldPath "nodeSelector")
  | None => []
  end ++
  (if String.eqb (spec_IPv4 spec) EmptyString && String.eqb (spec_IPv6 spec) EmptyString
   then [Required fldPath "one or both of `ipv4` and `ipv6` must be specified"]
   else
     (if negb (String.eqb (spec_IPv4 spec) EmptyString)
      then validateCIDRConfig (spec_IPv4 spec) (PerNodeHostBits spec) 32 IPv4Protocol fldPath else []) ++
     (if negb (String.eqb (spec_IPv6 spec) EmptyString)
      then validateCIDRConfig (spec_IPv6 spec) (PerNodeHostBits spec) 128 IPv6Protocol fldPath else [])).

Definition ValidateClusterCIDR (cc : v1ClusterCIDR) : list FieldError :=
  ValidateObjectMeta cc false validateClusterCIDRName (NewPath "metadata") ++
  ValidateClusterCIDRSpec (cc_Spec cc) (NewPath "spec").

Definition validateClusterCIDRUpdateSpec (update old : ClusterCIDRSpec) (fldPath : Path) : list FieldError :=
  ValidateImmutableField (ImmSelector (spec_NodeSelector update)) (ImmSelector (spec_NodeSelector old)) (Child fldPath "nodeSelector") ++
  ValidateImmutableField (ImmInt (PerNodeHostBits update)) (ImmInt (PerNodeHostBits old)) (Child fldPath "perNodeHostBits") ++
  ValidateImmutableField (ImmString (spec_IPv4 update)) (ImmString (spec_IPv4 old)) (Child fldPath "ipv4") ++
  ValidateImmutableField (ImmString (spec_IPv6 update)) (ImmString (spec_IPv6 old)) (Child fldPath "ipv6").

Definition ValidateClusterCIDRUpdate (update old : v1ClusterCIDR) : list FieldError :=
  ValidateObjectMetaUpdate update old (NewPath "metadata") ++
  validateClusterCIDRUpdateSpec (cc_Spec update) (cc_Spec old) (NewPath "spec").
End validation.
