(* ===== verification/Allocator.v ===== *)
(** The allocator's state and the operations on its CIDR sets
    (src/pkg/controller/ipam/multi_cidr_range_allocator.go).

    [AllocState] holds what the fields of [multiCIDRRangeAllocator] point to.
    Internal ClusterCIDR objects are shared pointers, so they live in a store and
    [cidrMap] holds their addresses: a write through one pointer is seen through
    every other.  Every exported method runs under [r.lock], so a method is one
    state transformation.  Go's [range] over a map has no fixed order: the order is
    the parameter [iter_order], which may differ at each loop. *)
From S2P Require Import Prelude GoNet CIDRTheory CIDRText NetUtils MultiCIDRSet ContainerHeap PriorityQueue Kubernetes.

Class MapIter : Type := {
  iter_order : nat → gmap string (list loc) → list (string * list loc)
}.
Class MapIterLaws (I : MapIter) : Prop := {
  iter_perm n m : iter_order n m ≡ₚ map_to_list m
}.

(** Events recorded on API objects. *)
Inductive Event : Type :=
| NodeStatusChange (nodeName status : string)
| InvalidClusterCIDR (name : string) (err : error).

Record AllocState `{Cluster} : Type := mkState {
  objs : Store;
  cidrMap : gmap string (list loc);
  next_loc : loc;
  metrics : list MetricEvent;
  events : list Event;
  iters : nat;
  world : World
}.

(** The two set pointers of a ClusterCIDR; a [*MultiCIDRSet] is the field it was
    read from. *)
Inductive family : Type := V4 | V6.

#[export] Instance family_eq_dec : EqDecision family.
Proof. solve_decision. Defined.

Definition setPtr : Type := loc * family.

Definition get_set (f : family) (c : ClusterCIDR) : option MultiCIDRSet :=
  match f with V4 => IPv4CIDRSet c | V6 => IPv6CIDRSet c end.

Definition put_set (f : family) (s : MultiCIDRSet) (c : ClusterCIDR) : ClusterCIDR :=
  match f with
  | V4 => mkClusterCIDR (Name c) (Some s) (IPv6CIDRSet c) (AssociatedNodes c) (Terminating c)
  | V6 => mkClusterCIDR (Name c) (IPv4CIDRSet c) (Some s) (AssociatedNodes c) (Terminating c)
  end.

Definition with_nodes (g : gmap string bool → gmap string bool) (c : ClusterCIDR) : ClusterCIDR :=
  mkClusterCIDR (Name c) (IPv4CIDRSet c) (IPv6CIDRSet c) (g (AssociatedNodes c)) (Terminating c).
Definition with_terminating (b : bool) (c : ClusterCIDR) : ClusterCIDR :=
  mkClusterCIDR (Name c) (IPv4CIDRSet c) (IPv6CIDRSet c) (AssociatedNodes c) b.

(** [fmt]'s [%v] of a slice of strings. *)
Definition fmtSlice (l : list string) : string := "[" +:+ join " " l +:+ "]".

Section allocator.
Context `{HN : !NetUtils} `{HLb : !Labels} `{HC : !Cluster} `{HI : !MapIter}.

Definition with_objs (g : Store → Store) (st : AllocState) : AllocState :=
  mkState _ (g (objs st)) (cidrMap st) (next_loc st) (metrics st) (events st) (iters st) (world st).
Definition with_cidrMap (g : gmap string (list loc) → gmap string (list loc)) (st : AllocState) : AllocState :=
  mkState _ (objs st) (g (cidrMap st)) (next_loc st) (metrics st) (events st) (iters st) (world st).
Definition with_metrics (t : list MetricEvent) (st : AllocState) : AllocState :=
  mkState _ (objs st) (cidrMap st) (next_loc st) t (events st) (iters st) (world st).
Definition with_world (w : World) (st : AllocState) : AllocState :=
  mkState _ (objs st) (cidrMap st) (next_loc st) (metrics st) (events st) (iters st) w.
Definition with_event (e : Event) (st : AllocState) : AllocState :=
  mkState _ (objs st) (cidrMap st) (next_loc st) (metrics st) (events st ++ [e]) (iters st) (world st).
Definition with_iter (st : AllocState) : AllocState :=
  mkState _ (objs st) (cidrMap st) (next_loc st) (metrics st) (events st) (S (iters st)) (world st).

(** Reading and writing through a ClusterCIDR pointer. *)
Definition getObj (l : loc) : M AllocState ClusterCIDR := λ st, (deref (objs st) l, st).
Definition updObj (l : loc) (g : ClusterCIDR → ClusterCIDR) : M AllocState unit :=
  c ← getObj l; modify (with_objs (<[l := g c]>)).

(** Calling a method through a set pointer; a nil pointer panics. *)
Definition onSet {A} (p : option setPtr) (m : M SetState A) : M AllocState A := λ st,
  match p with
  | None => (Panic NilDereference, st)
  | Some (l, f) =>
      match objs st !! l ≫= λ c, s ← get_set f c; Some (c, s) with
      | None => (Panic NilDereference, st)
      | Some (c, s) =>
          let '(r, (s', t')) := m (s, metrics st) in
          (r, with_metrics t' (with_objs (<[l := put_set f s' c]>) st))
      end
  end.

Definition readSet (p : option setPtr) : M AllocState MultiCIDRSet := λ st,
  match p with
  | None => (Panic NilDereference, st)
  | Some (l, f) =>
      match objs st !! l ≫= get_set f with
      | None => (Panic NilDereference, st)
      | Some s => (Ok s, st)
      end
  end.

(** [for label, clusterCIDRList := range cidrMap]: the pairs in this loop's order. *)
Definition rangeMap : M AllocState (list (string * list loc)) := λ st,
  (Ok (iter_order (iters st) (cidrMap st)), with_iter st).

Definition recordEvent (e : Event) : M AllocState unit := modify (with_event e).

(** A call to the API server. *)
Definition callAPI (f : World → option error * World) : M AllocState (option error) := λ st,
  let '(r, w) := f (world st) in (Ok r, with_world w st).

(** * Sets of a ClusterCIDR *)

Definition associatedCIDRSet (clusterCIDR : loc) (cidr : IPNet) : M AllocState (option setPtr) :=
  if IsIPv4CIDR cidr then
    c ← getObj clusterCIDR; mret ((λ _, (clusterCIDR, V4)) <$> IPv4CIDRSet c)
  else if IsIPv6CIDR cidr then
    c ← getObj clusterCIDR; mret ((λ _, (clusterCIDR, V6)) <$> IPv6CIDRSet c)
  else fail (Errorf "invalid cidr: %v" [IPNet_String cidr]).

Definition Occupy (clusterCIDR : loc) (cidr : IPNet) : M AllocState unit :=
  currCIDRSet ← associatedCIDRSet clusterCIDR cidr;
  wrapErr (ErrorfW "unable to occupy cidr %v in cidrSet: %w" [IPNet_String cidr])
    (onSet currCIDRSet (MultiCIDRSet.Occupy (Some cidr))).

Definition Release (clusterCIDR : loc) (cidr : IPNet) : M AllocState unit :=
  currCIDRSet ← associatedCIDRSet clusterCIDR cidr;
  onSet currCIDRSet (MultiCIDRSet.Release (Some cidr)).

Definition occupyServiceCIDR (clusterCIDR : loc) (serviceCIDR : IPNet) : M AllocState unit :=
  cidrSet ← associatedCIDRSet clusterCIDR serviceCIDR;
  s ← readSet cidrSet;
  let cidr := set_ClusterCIDR s in
  if negb (Contains cidr (IP_Mask (IPNet_IP serviceCIDR) (IPNet_Mask cidr)))
     && negb (Contains serviceCIDR (IP_Mask (IPNet_IP cidr) (IPNet_Mask serviceCIDR))) then mret tt
  else
    wrapErr (ErrorfW "error filtering out service cidr %v from cluster cidr %v: %w"
               [IPNet_String cidr; IPNet_String serviceCIDR])
      (Occupy clusterCIDR serviceCIDR).

Definition filterOutServiceRange (serviceCIDR : IPNet) : M AllocState unit :=
  lists ← rangeMap;
  forM_ lists (λ '(_, clusterCIDRList),
    forM_ clusterCIDRList (λ clusterCIDR,
      attempt (occupyServiceCIDR clusterCIDR serviceCIDR) ;; mret tt)).

(** The loop body of the two searches: [Some tt] returns true.  A ClusterCIDR
    without a set of the CIDR's family, or a CIDR of no family, is skipped. *)
Definition testMappedSet (test : MultiCIDRSet → bool) (cidr : IPNet) (clusterCIDR : loc)
    : M AllocState (option unit) :=
  r ← attempt (associatedCIDRSet clusterCIDR cidr);
  match r with
  | inl _ | inr None => mret None
  | inr (Some p) =>
      s ← readSet (Some p);
      if test s then mret (Some tt) else mret None
  end.

(** Whether [test] holds of the set of [cidr]'s family in some mapped ClusterCIDR. *)
Definition anyMappedSet (test : MultiCIDRSet → bool) (cidr : IPNet) : M AllocState bool :=
  lists ← rangeMap;
  r ← forReturn lists (λ '(_, clusterCIDRList), forReturn clusterCIDRList (testMappedSet test cidr));
  mret (bool_decide (is_Some r)).

Definition cidrInAllocatedList (cidr : IPNet) : M AllocState bool :=
  anyMappedSet (λ s, CIDRAllocated s cidr) cidr.

Definition cidrOverlapWithAllocatedList (cidr : IPNet) : M AllocState bool :=
  anyMappedSet (λ s, CIDROverlaps s cidr) cidr.

(** * Matching ClusterCIDRs *)

(** The body of the loop over one label of [orderedMatchingClusterCIDRs]. *)
Fixpoint pushMatching (occupy : bool) (label : string) (matchCnt : Z) (l : list loc) (pq : PriorityQueue)
    : M AllocState PriorityQueue :=
  match l with
  | [] => mret pq
  | clusterCIDR :: l =>
      c ← getObj clusterCIDR;
      if negb occupy || negb (Terminating c) then
        st ← get;
        pq ← lift (Push (HI:=PQ_heap (objs st)) pq (mkItem clusterCIDR matchCnt label 0));
        pushMatching occupy label matchCnt l pq
      else pushMatching occupy label matchCnt l pq
  end.

Fixpoint pushLabels (node : Node) (occupy : bool) (l : list (string * list loc)) (pq : PriorityQueue)
    : M AllocState PriorityQueue :=
  match l with
  | [] => mret pq
  | (label, clusterCIDRList) :: l =>
      '(labelsMatch, matchCnt) ← lift (matchCIDRLabels node label);
      if negb labelsMatch then pushLabels node occupy l pq
      else
        pq ← pushMatching occupy label matchCnt clusterCIDRList pq;
        pushLabels node occupy l pq
  end.

Definition orderedMatchingClusterCIDRs (node : Node) (occupy : bool) : M AllocState (list loc) :=
  lists ← rangeMap;
  pq ← pushLabels node occupy lists [];
  st ← get;
  items ← lift (popAll (HI:=PQ_heap (objs st)) (length pq) pq);
  let matchingCIDRs := item_clusterCIDR <$> items in
  defaultSelector ← lift (nodeSelectorAsSelector (Some defaultNodeSelector));
  mret (match cidrMap st !! Selector_String defaultSelector with
        | Some clusterCIDRList => matchingCIDRs ++ clusterCIDRList
        | None => matchingCIDRs
        end).

(** * Allocation *)

(** The loop of [allocateCIDR]; [evaluated] grows in each round, so [MaxCIDRs]
    rounds are enough. *)
Fixpoint allocateLoop (fuel : nat) (evaluated : Z) (clusterCIDR : loc) (cidrSet : option setPtr)
    : M AllocState IPNet :=
  s ← readSet cidrSet;
  match fuel with
  | O => fail (CIDRRangeNoCIDRsRemainingErr (Label s))
  | S fuel =>
      if evaluated <? MaxCIDRs s then
        '(lastEvaluated, r) ← onSet cidrSet NextCandidate;
        match r with
        | inl err => fail err
        | inr candidate =>
            let evaluated := evaluated + lastEvaluated in
            b ← cidrInAllocatedList candidate;
            if b : bool then allocateLoop fuel (evaluated + 1) clusterCIDR cidrSet
            else
              b ← cidrOverlapWithAllocatedList candidate;
              if b : bool then allocateLoop fuel (evaluated + 1) clusterCIDR cidrSet
              else
                Occupy clusterCIDR candidate ;;
                onSet cidrSet (UpdateEvaluatedCount evaluated) ;;
                mret candidate
        end
      else fail (CIDRRangeNoCIDRsRemainingErr (Label s))
  end.

Definition allocateCIDR (clusterCIDR : loc) (cidrSet : option setPtr) : M AllocState IPNet :=
  s ← readSet cidrSet;
  allocateLoop (Z.to_nat (MaxCIDRs s)) 0 clusterCIDR cidrSet.

(** One family of the loop body of [prioritizedCIDRs]: [None] is [continue]. *)
Definition allocateFamily (clusterCIDR : loc) (f : family) (cidrs : list IPNet)
    : M AllocState (option (list IPNet)) :=
  c ← getObj clusterCIDR;
  match get_set f c with
  | None => mret (Some cidrs)
  | Some _ =>
      r ← attempt (allocateCIDR clusterCIDR (Some (clusterCIDR, f)));
      match r with
      | inl _ => mret None
      | inr cidr => mret (Some (cidrs ++ [cidr]))
      end
  end.

(** The loop body of [prioritizedCIDRs]; [Some] is its [return]. *)
Definition tryClusterCIDR (clusterCIDR : loc) : M AllocState (option (list IPNet * loc)) :=
  r ← allocateFamily clusterCIDR V4 [];
  match r with
  | None => mret None
  | Some cidrs =>
      r ← allocateFamily clusterCIDR V6 cidrs;
      match r with
      | None => mret None
      | Some cidrs => mret (Some (cidrs, clusterCIDR))
      end
  end.

Definition prioritizedCIDRs (node : Node) : M AllocState (list IPNet * loc) :=
  clusterCIDRList ← wrapErr (ErrorfW "unable to get a clusterCIDR for node %s: %w" [node_Name node])
    (orderedMatchingClusterCIDRs node true);
  r ← forReturn clusterCIDRList tryClusterCIDR;
  match r with
  | Some x => mret x
  | None => fail (Errorf "unable to get a clusterCIDR for node %s, no available CIDRs" [node_Name node])
  end.
End allocator.

#[global] Arguments readSet {_} _ _ : simpl never.
#[global] Arguments onSet {_ _} _ _ _ : simpl never.
#[global] Arguments anyMappedSet {_ _ _} _ _ _ : simpl never.
#[global] Arguments allocateCIDR {_ _ _} _ _ _ : simpl never.
