(* ===== verification/NodeHandlers.v ===== *)
(** The handlers of node events (multi_cidr_range_allocator.go): occupying or
    allocating the CIDRs of a node, patching the node, releasing them, and the
    worker that takes node keys off its queue. *)
From S2P Require Import Prelude GoNet CIDRTheory CIDRText NetUtils MultiCIDRSet ContainerHeap PriorityQueue Kubernetes Allocator.

Definition cidrUpdateRetries : Z := 3.

(** [nodeReservedCIDRs] and [multiCIDRNodeReservedCIDRs]. *)
Record nodeReservedCIDRs : Type := mkReserved {
  reserved_CIDRs : list IPNet;
  reserved_nodeName : string
}.
Record multiCIDRNodeReservedCIDRs : Type := mkMultiReserved {
  reserved : nodeReservedCIDRs;
  reserved_clusterCIDR : loc
}.

(** What an informer hands to its delete handler. *)
Inductive DeletedObject : Type :=
| ObjNode (node : option Node)
| ObjTombstoneNode (node : option Node)
| ObjTombstoneOther
| ObjOther.

Definition ipnetToStringList (inCIDRs : list IPNet) : list string := IPNet_String <$> inCIDRs.

Section nodes.
Context `{HN : !NetUtils} `{HLb : !Labels} `{HC : !Cluster} `{HI : !MapIter}.

(** The loop over the PodCIDRs of [occupyCIDRs]: how many were occupied before
    the first that could not be. *)
Fixpoint occupyLoop (clusterCIDR : loc) (node : Node) (cidrs : list string) (occupiedCount : Z)
    : M AllocState Z :=
  match cidrs with
  | [] => mret occupiedCount
  | cidr :: cidrs =>
      match ParseCIDRSloppy cidr with
      | inl err => fail (ErrorfW "failed to parse CIDR %s on Node %v: %w" [cidr; node_Name node] err)
      | inr (_, podCIDR) =>
          r ← attempt (Occupy clusterCIDR podCIDR);
          match r with
          | inl _ => mret occupiedCount
          | inr _ => occupyLoop clusterCIDR node cidrs (occupiedCount + 1)
          end
      end
  end.

Definition occupyCIDRs (node : Node) : M AllocState unit :=
  if Nat.eqb (length (PodCIDRs node)) 0 then mret tt
  else
    clusterCIDRList ← orderedMatchingClusterCIDRs node true;
    if Nat.eqb (length clusterCIDRList) 0 then
      fail (Errorf "could not occupy cidrs: %v, No matching ClusterCIDRs found" [fmtSlice (PodCIDRs node)])
    else
      r ← forReturn clusterCIDRList (λ clusterCIDR,
        occupiedCount ← occupyLoop clusterCIDR node (PodCIDRs node) 0;
        if occupiedCount =? Z.of_nat (length (PodCIDRs node)) then
          updObj clusterCIDR (with_nodes (insert (node_Name node) true)) ;;
          mret (Some tt)
        else mret None);
      match r with
      | Some _ => mret tt
      | None => fail (Errorf "could not occupy cidrs: %v after %d attempts"
                        [fmtSlice (PodCIDRs node); pretty (Z.of_nat (length clusterCIDRList))])
      end.

Definition RecordNodeStatusChange (node : Node) (newStatus : string) : M AllocState unit :=
  recordEvent (NodeStatusChange (node_Name node) newStatus).

(** The loop of [updateCIDRsAllocation] that gives back the reserved CIDRs. *)
Definition releaseReserved (format : string) (data : multiCIDRNodeReservedCIDRs) (node : Node) : M AllocState unit :=
  forM_ (reserved_CIDRs (reserved data)) (λ cidr,
    c ← getObj (reserved_clusterCIDR data);
    wrapErr (ErrorfW format [IPNet_String cidr; Name c; node_Name node])
      (Release (reserved_clusterCIDR data) cidr)).

(** [n] tries to patch the node are left; the error of the last one, or nil. *)
Fixpoint patchLoop (n : nat) (node : Node) (cidrs : list string) (clusterCIDR : loc) (err : option error)
    : M AllocState (option error) :=
  match n with
  | O => mret err
  | S n =>
      err ← callAPI (PatchNodeCIDRs (node_Name node) cidrs);
      match err with
      | None => updObj clusterCIDR (with_nodes (insert (node_Name node) true)) ;; mret None
      | Some _ => patchLoop n node cidrs clusterCIDR err
      end
  end.

Definition updateCIDRsAllocation (data : multiCIDRNodeReservedCIDRs) : M AllocState unit :=
  let cidrsString := ipnetToStringList (reserved_CIDRs (reserved data)) in
  st ← get;
  match nodeLister_Get (world st) (reserved_nodeName (reserved data)) with
  | inl err => fail err
  | inr node =>
      if Nat.eqb (length (PodCIDRs node)) (length (reserved_CIDRs (reserved data)))
         && forallb (λ '(a, b), String.eqb a b) (zip (PodCIDRs node) cidrsString) then mret tt
      else if negb (Nat.eqb (length (PodCIDRs node)) 0) then
        releaseReserved "failed to release cidr %s from clusterCIDR %s for node: %s: %w" data node
      else
        err ← patchLoop (Z.to_nat cidrUpdateRetries) node cidrsString (reserved_clusterCIDR data) None;
        match err with
        | None => mret tt
        | Some err =>
            RecordNodeStatusChange node "CIDRAssignmentFailed" ;;
            (if negb (IsServerTimeout err) then
               releaseReserved "failed to release cidr %q from clusterCIDR %q for node: %q: %w" data node
             else mret tt) ;;
            fail err
        end
  end.

(** A nil node is [None]. *)
Definition AllocateOrOccupyCIDR (node : option Node) : M AllocState unit :=
  match node with
  | None => mret tt
  | Some node =>
      if Nat.ltb 0 (length (PodCIDRs node)) then occupyCIDRs node
      else
        r ← attempt (prioritizedCIDRs node);
        match r with
        | inl err =>
            RecordNodeStatusChange node "CIDRNotAvailable" ;;
            fail (ErrorfW "failed to get cidrs for node %s: %w" [node_Name node] err)
        | inr (cidrs, clusterCIDR) =>
            if Nat.eqb (length cidrs) 0 then
              RecordNodeStatusChange node "CIDRNotAvailable" ;;
              fail (Errorf "no cidrSets with matching labels found for node %s" [node_Name node])
            else
              updateCIDRsAllocation (mkMultiReserved (mkReserved cidrs (node_Name node)) clusterCIDR)
        end
  end.

Definition allocatedClusterCIDR (node : Node) : M AllocState loc :=
  clusterCIDRList ← wrapErr (ErrorfW "unable to get a clusterCIDR for node %s: %w" [node_Name node])
    (orderedMatchingClusterCIDRs node false);
  r ← forReturn clusterCIDRList (λ clusterCIDR,
    c ← getObj clusterCIDR;
    if default false (AssociatedNodes c !! node_Name node) then mret (Some clusterCIDR) else mret None);
  match r with
  | Some clusterCIDR => mret clusterCIDR
  | None => fail (Errorf "no clusterCIDR found associated with node: %s" [node_Name node])
  end.

Definition ReleaseCIDR (node : option Node) : M AllocState unit :=
  match node with
  | None => mret tt
  | Some node =>
      if Nat.eqb (length (PodCIDRs node)) 0 then mret tt
      else
        clusterCIDR ← allocatedClusterCIDR node;
        forM_ (PodCIDRs node) (λ cidr,
          match ParseCIDRSloppy cidr with
          | inl err => fail (ErrorfW "failed to parse CIDR %q on Node %q: %w" [cidr; node_Name node] err)
          | inr (_, podCIDR) =>
              c ← getObj clusterCIDR;
              wrapErr (ErrorfW "failed to release cidr %q from clusterCIDR %q for node %q: %w"
                         [cidr; Name c; node_Name node])
                (Release clusterCIDR podCIDR)
          end) ;;
        updObj clusterCIDR (with_nodes (delete (node_Name node)))
  end.

Definition syncNode (key : string) : M AllocState unit :=
  st ← get;
  match nodeLister_Get (world st) key with
  | inl err => if IsNotFound err then mret tt else fail err
  | inr node =>
      if negb (IsZero (node_DeletionTimestamp node)) then ReleaseCIDR (Some node)
      else AllocateOrOccupyCIDR (Some node)
  end.

(** The delete handler logs its errors. *)
Definition handleNodeDelete (obj : DeletedObject) : M AllocState unit :=
  match obj with
  | ObjNode node | ObjTombstoneNode node => attempt (ReleaseCIDR node) ;; mret tt
  | ObjTombstoneOther | ObjOther => mret tt
  end.

(** [defer f(); m()]: [f] runs however [m] ends. *)
Definition deferred {A} (f : AllocState → AllocState) (m : M AllocState A) : M AllocState A := λ st,
  let '(r, st) := m st in (r, f st).

Definition onQueue (f : World → World) (st : AllocState) : AllocState := with_world (f (world st)) st.

(** The worker body that [processNextNodeWorkItem] and [processNextCIDRWorkItem]
    share but for the queue and the sync function; false stops the worker. *)
Definition processNextWorkItem (q : QueueName) (sync : string → M AllocState unit) : M AllocState bool := λ st,
  let '(key, w) := queue_Get q (world st) in
  let st := with_world w st in
  match key with
  | None => (Ok false, st)
  | Some key =>
      (deferred (onQueue (queue_Done q key))
         (r ← attempt (sync key);
          match r with
          | inl _ => modify (onQueue (queue_AddRateLimited q key))
          | inr _ => modify (onQueue (queue_Forget q key))
          end) ;;
       mret true) st
  end.

Definition processNextNodeWorkItem : M AllocState bool := processNextWorkItem nodeQueue syncNode.
End nodes.
