(* ===== verification/ClusterCIDRHandlers.v ===== *)
(** The handlers of ClusterCIDR events and the start of the allocator
    (multi_cidr_range_allocator.go): creating, mapping and deleting internal
    ClusterCIDR objects, the default ClusterCIDR made from the command line, and
    the constructor that rebuilds the state from the API objects. *)
From S2P Require Import Prelude GoNet CIDRTheory CIDRText NetUtils MultiCIDRSet ContainerHeap PriorityQueue Kubernetes Allocator NodeHandlers.

(** [CIDRAllocatorParams] *)
Record CIDRAllocatorParams : Type := mkParams {
  ClusterCIDRs : list IPNet;
  ServiceCIDR : option IPNet;
  SecondaryServiceCIDR : option IPNet;
  NodeCIDRMaskSizes : list Z
}.

Definition MinInt32 : Z := - 2 ^ 31.

Definition with_hostBits (n : Z) (s : ClusterCIDRSpec) : ClusterCIDRSpec :=
  mkSpecCC (spec_NodeSelector s) n (spec_IPv4 s) (spec_IPv6 s).
Definition with_IPv4 (t : string) (s : ClusterCIDRSpec) : ClusterCIDRSpec :=
  mkSpecCC (spec_NodeSelector s) (PerNodeHostBits s) t (spec_IPv6 s).
Definition with_IPv6 (t : string) (s : ClusterCIDRSpec) : ClusterCIDRSpec :=
  mkSpecCC (spec_NodeSelector s) (PerNodeHostBits s) (spec_IPv4 s) t.

Section clustercidrs.
Context `{HN : !NetUtils} `{HLb : !Labels} `{HC : !Cluster} `{HI : !MapIter}.

(** The loop of [createDefaultClusterCIDR]: the spec so far and the two
    family host-bit counts. *)
Fixpoint defaultLoop (isDualstack : bool) (sizes : list Z) (i : nat) (cidrs : list IPNet)
    (acc : ClusterCIDRSpec * Z * Z) : exit (ClusterCIDRSpec * Z * Z) :=
  match cidrs with
  | [] => mret acc
  | cidr :: cidrs =>
      let '(spec, ipv4PerNodeHostBits, ipv6PerNodeHostBits) := acc in
      acc ←
        (if IsIPv4CIDR cidr then
           match sizes !! i with
           | None => Panic IndexOutOfRange
           | Some size =>
               let ipv4PerNodeHostBits := s32 (ipv4MaxCIDRMask - s32 size) in
               let spec := with_IPv4 (IPNet_String cidr) spec in
               let spec := if negb isDualstack && (minPerNodeHostBits <? ipv4PerNodeHostBits)
                           then with_hostBits ipv4PerNodeHostBits spec else spec in
               Ok (spec, ipv4PerNodeHostBits, ipv6PerNodeHostBits)
           end
         else if IsIPv6CIDR cidr then
           match sizes !! i with
           | None => Panic IndexOutOfRange
           | Some size =>
               let ipv6PerNodeHostBits := s32 (ipv6MaxCIDRMask - s32 size) in
               let spec := with_IPv6 (IPNet_String cidr) spec in
               let spec := if negb isDualstack && (minPerNodeHostBits <? ipv6PerNodeHostBits)
                           then with_hostBits ipv6PerNodeHostBits spec else spec in
               Ok (spec, ipv4PerNodeHostBits, ipv6PerNodeHostBits)
           end
         else Ok acc);
      defaultLoop isDualstack sizes (S i) cidrs acc
  end.

(** Returns the list with the default ClusterCIDR appended, if one is wanted. *)
Definition createDefaultClusterCIDR (existing : list v1ClusterCIDR) (params : CIDRAllocatorParams)
    : exit (list v1ClusterCIDR) :=
  if Nat.eqb (length (ClusterCIDRs params)) 0 then mret existing
  else if existsb (λ c, String.eqb (cc_Name c) defaultClusterCIDRName) existing then mret existing
  else
    let isDualstack := Nat.eqb (length (ClusterCIDRs params)) 2 in
    '(spec, ipv4PerNodeHostBits, ipv6PerNodeHostBits) ←
      defaultLoop isDualstack (NodeCIDRMaskSizes params) 0 (ClusterCIDRs params)
        (mkSpecCC None minPerNodeHostBits EmptyString EmptyString, MinInt32, MinInt32);
    let spec :=
      if isDualstack then
        if (minPerNodeHostBits <=? ipv4PerNodeHostBits) && (ipv4PerNodeHostBits <=? ipv6PerNodeHostBits)
        then with_hostBits ipv4PerNodeHostBits spec
        else if (minPerNodeHostBits <=? ipv6PerNodeHostBits) && (ipv6PerNodeHostBits <=? ipv4MaxCIDRMask)
        then with_hostBits ipv6PerNodeHostBits spec
        else spec
      else spec in
    mret (existing ++ [mkCC defaultClusterCIDRName 0 EmptyString None [] spec]).

(** [NewMultiCIDRSet] in the allocator's state. *)
Definition newSetM (name : string) (cidr : IPNet) (hostBits : Z) : M AllocState MultiCIDRSet := λ st,
  let '(r, t) := NewMultiCIDRSet name cidr hostBits (metrics st) in (r, with_metrics t st).

(** One family of [createClusterCIDRSet]; the empty string means no set. *)
Definition createSet (parseMsg createMsg : string) (name cidr : string) (hostBits : Z)
    : M AllocState (option MultiCIDRSet) :=
  if String.eqb cidr EmptyString then mret None
  else
    match ParseCIDRSloppy cidr with
    | inl err => fail (ErrorfW parseMsg [] err)
    | inr (_, ipNet) =>
        s ← wrapErr (ErrorfW createMsg []) (newSetM name ipNet hostBits);
        mret (Some s)
    end.

(** The new object; its address is taken when it is stored ([newObj]). *)
Definition createClusterCIDRSet (clusterCIDR : v1ClusterCIDR) (terminating : bool) : M AllocState ClusterCIDR :=
  let spec := cc_Spec clusterCIDR in
  v4 ← createSet "unable to parse provided IPv4 CIDR: %w" "unable to create IPv4 cidrSet: %w"
         (cc_Name clusterCIDR) (spec_IPv4 spec) (PerNodeHostBits spec);
  v6 ← createSet "unable to parse provided IPv6 CIDR: %w" "unable to create IPv6 cidrSet: %w"
         (cc_Name clusterCIDR) (spec_IPv6 spec) (PerNodeHostBits spec);
  mret (mkClusterCIDR (cc_Name clusterCIDR) v4 v6 ∅ terminating).

(** The address of [&cidrset.ClusterCIDR{...}], taken when the pointer is first
    stored; an object that is rejected before that is unreachable. *)
Definition newObj (c : ClusterCIDR) : M AllocState loc := λ st,
  (Ok (next_loc st),
   mkState _ (<[next_loc st := c]> (objs st)) (cidrMap st) (Pos.succ (next_loc st)) (metrics st) (events st)
     (iters st) (world st)).

(** [slices.ContainsFunc(list, func(c) bool { return name == c.Name })] *)
Fixpoint containsName (name : string) (l : list loc) : M AllocState bool :=
  match l with
  | [] => mret false
  | x :: l =>
      c ← getObj x;
      if String.eqb name (Name c) then mret true else containsName name l
  end.

Definition mapClusterCIDRSet (nodeSelector : string) (clusterCIDRSet : option loc) : M AllocState unit :=
  match clusterCIDRSet with
  | None => fail (Errorf "invalid clusterCIDRSet, clusterCIDRSet cannot be nil" [])
  | Some p =>
      st ← get;
      match cidrMap st !! nodeSelector with
      | Some clusterCIDRSetList =>
          c ← getObj p;
          containsClusterCIDRSet ← containsName (Name c) clusterCIDRSetList;
          if negb containsClusterCIDRSet then
            modify (with_cidrMap (insert nodeSelector (clusterCIDRSetList ++ [p])))
          else mret tt
      | None => modify (with_cidrMap (insert nodeSelector [p]))
      end
  end.

(** [if _, err := call(); err != nil { return err }] *)
Definition returnErr (m : M AllocState (option error)) : M AllocState unit :=
  r ← m; match r with Some err => fail err | None => mret tt end.

Definition createClusterCIDR (clusterCIDR : v1ClusterCIDR) (terminating : bool) : M AllocState unit :=
  nodeSelector ← wrapErr (ErrorfW "unable to get labelSelector key: %w" []) (lift (nodeSelectorKey clusterCIDR));
  clusterCIDRSet ← wrapErr (ErrorfW "invalid ClusterCIDR: %w" []) (createClusterCIDRSet clusterCIDR terminating);
  if bool_decide (IPv4CIDRSet clusterCIDRSet = None) && bool_decide (IPv6CIDRSet clusterCIDRSet = None) then
    fail (Errorf "invalid ClusterCIDR: must provide IPv4 and/or IPv6 config" [])
  else
    p ← newObj clusterCIDRSet;
    wrapErr (ErrorfW "unable to map clusterCIDRSet: %w" []) (mapClusterCIDRSet nodeSelector (Some p)) ;;
    let updatedClusterCIDR :=
      if needToAddFinalizer (cc_DeletionTimestamp clusterCIDR) (cc_Finalizers clusterCIDR) clusterCIDRFinalizer
      then with_finalizers (cc_Finalizers clusterCIDR ++ [clusterCIDRFinalizer]) clusterCIDR
      else clusterCIDR in
    if String.eqb (cc_ResourceVersion updatedClusterCIDR) EmptyString then
      returnErr (callAPI (networkClient_Create updatedClusterCIDR))
    else returnErr (callAPI (networkClient_Update updatedClusterCIDR)).

Definition reconcileCreate (clusterCIDR : v1ClusterCIDR) : M AllocState unit := createClusterCIDR clusterCIDR false.

(** A ClusterCIDR whose spec was modified is mapped as terminating. *)
Definition reconcileBootstrap (clusterCIDR : v1ClusterCIDR) : M AllocState unit :=
  let terminating := 1 <? cc_Generation clusterCIDR in
  createClusterCIDR clusterCIDR terminating.

(** The loop of [deleteClusterCIDR] over the [rest] of [l], from position [i]. *)
Fixpoint deleteLoop (name labelSelector : string) (l : list loc) (i : nat) (rest : list loc) : M AllocState unit :=
  match rest with
  | [] => mret tt
  | p :: rest =>
      c ← getObj p;
      if negb (String.eqb (Name c) name) then deleteLoop name labelSelector l (S i) rest
      else
        updObj p (with_terminating true) ;;
        if Nat.ltb 0 (size (AssociatedNodes c)) then
          fail (Errorf "ClusterCIDRSet %s marked as terminating, won't be deleted until all associated nodes are deleted" [name])
        else if Nat.eqb (length l) 1 then modify (with_cidrMap (delete labelSelector))
        else modify (with_cidrMap (insert labelSelector (take i l ++ drop (S i) l)))
  end.

Definition deleteClusterCIDR (clusterCIDR : v1ClusterCIDR) : M AllocState unit :=
  labelSelector ← wrapErr (ErrorfW "unable to delete cidr: %w" []) (lift (nodeSelectorKey clusterCIDR));
  st ← get;
  match cidrMap st !! labelSelector with
  | None => mret tt
  | Some clusterCIDRSetList => deleteLoop (cc_Name clusterCIDR) labelSelector clusterCIDRSetList 0 clusterCIDRSetList
  end.

Definition reconcileDelete (clusterCIDR : v1ClusterCIDR) : M AllocState unit :=
  if bool_decide (clusterCIDRFinalizer ∈ cc_Finalizers clusterCIDR) then
    deleteClusterCIDR clusterCIDR ;;
    let cccCopy := with_finalizers (filter (λ s, s ≠ clusterCIDRFinalizer) (cc_Finalizers clusterCIDR)) clusterCIDR in
    returnErr (callAPI (networkClient_Update cccCopy))
  else mret tt.

Definition syncClusterCIDR (key : string) : M AllocState unit :=
  st ← get;
  match clusterCIDRLister_Get (world st) key with
  | inl err => if IsNotFound err then mret tt else fail err
  | inr clusterCIDR =>
      if negb (IsZero (cc_DeletionTimestamp clusterCIDR)) then reconcileDelete clusterCIDR
      else reconcileCreate clusterCIDR
  end.

Definition processNextCIDRWorkItem : M AllocState bool := processNextWorkItem cidrQueue syncClusterCIDR.

(** * Start-up *)

Definition apiserverStartupGracePeriod : string := "10m0s".

(** [wait.Backoff{Duration: 2 * time.Second, Factor: 1.6, Steps: 11}]; the
    closure leaves the list it read in the captured variable. *)
Definition listClusterCIDRs : M AllocState (option (list v1ClusterCIDR)) := λ st,
  let '(pollErr, (w, clusterCIDRList)) :=
    ExponentialBackoff (World * option (list v1ClusterCIDR)) (mkBackoff 2000 16 11)
      (λ '(w, _), match networkClient_List w with
                  | (inl _, w) => (inr false, (w, None))
                  | (inr l, w) => (inr true, (w, Some l))
                  end) (world st, None) in
  match pollErr with
  | Some _ => (Err (Errorf "failed to list all clusterCIDRs in %v, cannot proceed without updating CIDR map"
                      [apiserverStartupGracePeriod]), with_world w st)
  | None => (Ok clusterCIDRList, with_world w st)
  end.

Definition filterOut (cidr : option IPNet) : M AllocState unit :=
  match cidr with Some cidr => filterOutServiceRange cidr | None => mret tt end.

(** The constructor after its fields are set: [st] holds the empty map, or the
    test map.  [nodeList] is nil only in tests. *)
Definition NewMultiCIDRRangeAllocator (allocatorParams : CIDRAllocatorParams) (nodeList : option (list Node))
    : M AllocState unit :=
  ccList ← listClusterCIDRs;
  items ← lift (createDefaultClusterCIDR (default [] ccList) allocatorParams);
  forM_ items (λ clusterCIDR,
    r ← attempt (reconcileBootstrap clusterCIDR);
    match r with
    | inl err => recordEvent (InvalidClusterCIDR (cc_Name clusterCIDR) err)
    | inr _ => mret tt
    end) ;;
  filterOut (ServiceCIDR allocatorParams) ;;
  filterOut (SecondaryServiceCIDR allocatorParams) ;;
  match nodeList with
  | None => mret tt
  | Some nodes =>
      forM_ nodes (λ node,
        if Nat.eqb (length (PodCIDRs node)) 0 then mret tt
        else attempt (occupyCIDRs node) ;; mret tt)
  end.
End clustercidrs.
