(* ===== verification/EventHandlers.v ===== *)
(** The informer callbacks that NewMultiCIDRRangeAllocator registers
    (multi_cidr_range_allocator.go): they turn a change of an object into a key of
    a work queue.

    Objects are what client-go hands to a callback; their keys, and the comparison
    [apiequality.Semantic.DeepEqual], are parameters. *)
From S2P Require Import Prelude GoNet CIDRTheory CIDRText NetUtils MultiCIDRSet ContainerHeap PriorityQueue Kubernetes Allocator NodeHandlers ClusterCIDRHandlers.

Class Informers `{!Cluster} : Type := {
  InformerObject : Type;
  MetaNamespaceKeyFunc : InformerObject → error + string;
  DeletionHandlingMetaNamespaceKeyFunc : InformerObject → error + string;
  Semantic_DeepEqual : InformerObject → InformerObject → bool;
  queue_Add : QueueName → string → World → World
}.

Section events.
Context `{HC : !Cluster} `{HF : !Informers}.

(** [if err == nil { queue.Add(key) }] *)
Definition addKey (q : QueueName) (key : error + string) : M AllocState unit :=
  match key with
  | inl _ => mret tt
  | inr key => modify (onQueue (queue_Add q key))
  end.

Definition cidrAddFunc (obj : InformerObject) : M AllocState unit := addKey cidrQueue (MetaNamespaceKeyFunc obj).

Definition cidrUpdateFunc (old new : InformerObject) : M AllocState unit :=
  if Semantic_DeepEqual old new then mret tt else addKey cidrQueue (MetaNamespaceKeyFunc new).

(** The error is only logged. *)
Definition cidrDeleteFunc (obj : InformerObject) : M AllocState unit :=
  addKey cidrQueue (DeletionHandlingMetaNamespaceKeyFunc obj).

Definition nodeAddFunc (obj : InformerObject) : M AllocState unit := addKey nodeQueue (MetaNamespaceKeyFunc obj).

Definition nodeUpdateFunc (old new : InformerObject) : M AllocState unit := addKey nodeQueue (MetaNamespaceKeyFunc new).
End events.
