(* ===== verification/Stable.v ===== *)
(** Properties of the state that the handlers cannot touch.

    [stable P] lists the elementary writes of the handlers that [P] has to survive:
    replacing an object by one of the same name, a metric, an event, the start of a
    loop, a call to the API server.  Every handler but those that change the map
    then [preserves] P, by one rule per construct, collected in the hint database
    [stable]; for the rest [stable_map] adds the map and new objects. *)
From S2P Require Import Prelude GoNet CIDRTheory CIDRText NetUtils MultiCIDRSet ContainerHeap PriorityQueue Kubernetes Allocator NodeHandlers ClusterCIDRHandlers EventHandlers.

Create HintDb stable.

Section rules.
Context `{HC : !Cluster} (P : AllocState → Prop).
Implicit Types st : AllocState.

Definition preserves {A} (m : M AllocState A) : Prop := ∀ st, P st → P (m st).2.

Record stable : Prop := {
  sb_object st l c c' : P st → objs st !! l = Some c → Name c' = Name c → P (with_objs (<[l := c']>) st);
  sb_metrics st t : P st → P (with_metrics t st);
  sb_event st e : P st → P (with_event e st);
  sb_iter st : P st → P (with_iter st);
  sb_patch st n l : P st → P (with_world (PatchNodeCIDRs n l (world st)).2 st);
  sb_create st c : P st → P (with_world (networkClient_Create c (world st)).2 st);
  sb_update st c : P st → P (with_world (networkClient_Update c (world st)).2 st)
}.

Record stable_map : Prop := {
  sm_stable : stable;
  sm_map st g : P st → P (with_cidrMap g st);
  sm_new st c : P st → P (newObj c st).2
}.

Lemma preserves_keeps {A} (m : M AllocState A) : preserves m ↔ keeps P m (λ _, True).
Proof using. split; [intros Hm st Hst; split; [by apply Hm|done]|intros Hm st Hst; by apply Hm]. Qed.

Lemma preserves_pure {A} (m : M AllocState A) : (∀ st, (m st).2 = st) → preserves m.
Proof using. intros Hm st Hst. by rewrite Hm. Qed.
Lemma preserves_ret {A} (a : A) : preserves (mret a).
Proof using. by intros st Hst. Qed.
Lemma preserves_fail {A} e : preserves (fail e : M AllocState A).
Proof using. by intros st Hst. Qed.
Lemma preserves_lift {A} (m : exit A) : preserves (lift m).
Proof using. by intros st Hst. Qed.
Lemma preserves_get : preserves get.
Proof using. by intros st Hst. Qed.
Lemma preserves_getObj l : preserves (getObj l).
Proof using. by intros st Hst. Qed.

Lemma preserves_bind {A B} (m : M AllocState A) (f : A → M AllocState B) :
  preserves m → (∀ a, preserves (f a)) → preserves (m ≫= f).
Proof using.
  intros Hm Hf st Hst. specialize (Hm st Hst). unfold mbind, M_bind.
  destruct (m st) as [[a|e|p] st']; simpl in *; [by apply Hf|done..].
Qed.

Lemma preserves_attempt {A} (m : M AllocState A) : preserves m → preserves (attempt m).
Proof using. intros Hm st Hst. specialize (Hm st Hst). unfold attempt. by destruct (m st) as [[] ?]. Qed.
Lemma preserves_wrapErr {A} g (m : M AllocState A) : preserves m → preserves (wrapErr g m).
Proof using. intros Hm st Hst. specialize (Hm st Hst). unfold wrapErr. by destruct (m st) as [[] ?]. Qed.

Lemma preserves_forM {A} (l : list A) f : (∀ x, preserves (f x)) → preserves (forM_ l f).
Proof using. intros Hf. induction l as [|x l IH]; [by intros st Hst|]. cbn [forM_]. apply preserves_bind; [apply Hf|done]. Qed.
Lemma preserves_forReturn {A R} (l : list A) (f : A → M AllocState (option R)) :
  (∀ x, preserves (f x)) → preserves (forReturn l f).
Proof using. intros Hf. induction l as [|x l IH]; [by intros st Hst|]. cbn [forReturn]. apply preserves_bind; [apply Hf|intros [v|]; [by intros st Hst|apply IH]]. Qed.

Lemma preserves_modify g : (∀ st, P st → P (g st)) → preserves (modify g).
Proof using. intros Hg st. apply Hg. Qed.

Lemma preserves_readSet p : preserves (readSet p).
Proof using. apply preserves_pure. intros st. unfold readSet. by destruct p as [[l f]|]; [destruct (objs st !! l ≫= get_set f)|]. Qed.

Lemma preserves_returnErr m : preserves m → preserves (returnErr m).
Proof using. intros Hm. unfold returnErr. apply preserves_bind; [done|]. by intros [e|] st Hst. Qed.

Lemma preserves_callAPI f : (∀ st, P st → P (with_world (f (world st)).2 st)) → preserves (callAPI f).
Proof using. intros Hf st Hst. specialize (Hf st Hst). unfold callAPI. by destruct (f (world st)). Qed.

Context (HP : stable).

Lemma preserves_updObj l g : (∀ c, Name (g c) = Name c) → preserves (updObj l g).
Proof using HP.
  intros Hg st Hst. unfold updObj, getObj, deref. mred. destruct (objs st !! l) as [c|] eqn:Hc; [|done].
  by apply (sb_object HP st l c).
Qed.

Lemma preserves_onSet {A} p (m : M SetState A) : preserves (onSet p m).
Proof using HP.
  intros st Hst. unfold onSet. destruct p as [[l f]|]; [|done]. destruct (objs st !! l) as [c|] eqn:Hc; [|done]. simpl.
  destruct (get_set f c) as [s|] eqn:Hs; [|done]. simpl. destruct (m (s, metrics st)) as [r [s' t']]. simpl.
  apply (sb_metrics HP), (sb_object HP st l c); [done|done|by destruct f].
Qed.

Lemma preserves_recordEvent e : preserves (recordEvent e).
Proof using HP. apply preserves_modify. intros st. apply (sb_event HP). Qed.
Lemma preserves_rangeMap `{HI : !MapIter} : preserves rangeMap.
Proof using HP. intros st. apply (sb_iter HP). Qed.
Lemma preserves_patch n l : preserves (callAPI (PatchNodeCIDRs n l)).
Proof using HP. apply preserves_callAPI. intros st. apply (sb_patch HP). Qed.
Lemma preserves_create c : preserves (callAPI (networkClient_Create c)).
Proof using HP. apply preserves_callAPI. intros st. apply (sb_create HP). Qed.
Lemma preserves_updateCC c : preserves (callAPI (networkClient_Update c)).
Proof using HP. apply preserves_callAPI. intros st. apply (sb_update HP). Qed.
End rules.

#[export] Hint Resolve preserves_ret preserves_fail preserves_lift preserves_get preserves_getObj preserves_readSet preserves_onSet
  preserves_recordEvent preserves_rangeMap preserves_patch preserves_create preserves_updateCC : stable.

(** Splits a goal [preserves P m] along the code. *)
Ltac preserve_step :=
  match goal with
  | |- ∀ _, _ => intros ?
  | |- preserves _ (_ ≫= _) => apply preserves_bind
  | |- preserves _ (updObj _ _) => apply preserves_updObj; [done|intros; reflexivity]
  | |- preserves _ (returnErr _) => apply preserves_returnErr
  | |- preserves _ (match ?x with _ => _ end) => destruct x
  | |- preserves _ _ => solve [auto with stable]
  | |- preserves _ (attempt _) => apply preserves_attempt
  | |- preserves _ (wrapErr _ _) => apply preserves_wrapErr
  | |- preserves _ (forM_ _ _) => apply preserves_forM
  | |- preserves _ (forReturn _ _) => apply preserves_forReturn
  end.
Ltac preserve := repeat preserve_step.

Section operations.
Context `{HN : !NetUtils} `{HLb : !Labels} `{HC : !Cluster} `{HI : !MapIter}.
Context (P : AllocState → Prop) (HP : stable P).
Implicit Types st : AllocState.

Lemma preserves_associated l n : preserves P (associatedCIDRSet l n).
Proof. unfold associatedCIDRSet. preserve. Qed.
#[local] Hint Resolve preserves_associated : stable.

Lemma preserves_Occupy l n : preserves P (Allocator.Occupy l n).
Proof. unfold Allocator.Occupy. preserve. Qed.
Lemma preserves_Release l n : preserves P (Allocator.Release l n).
Proof. unfold Allocator.Release. preserve. Qed.
#[local] Hint Resolve preserves_Occupy preserves_Release : stable.

Lemma preserves_filterOutServiceRange n : preserves P (filterOutServiceRange n).
Proof. unfold filterOutServiceRange, occupyServiceCIDR. preserve. Qed.
Lemma preserves_anyMappedSet test n : preserves P (anyMappedSet test n).
Proof. unfold anyMappedSet, testMappedSet. preserve. Qed.

Lemma preserves_pushMatching occupy label cnt l pq : preserves P (pushMatching occupy label cnt l pq).
Proof. revert pq. induction l as [|x l IH]; intros pq; cbn [pushMatching]; preserve; apply IH. Qed.
#[local] Hint Resolve preserves_pushMatching : stable.
Lemma preserves_pushLabels node occupy ls pq : preserves P (pushLabels node occupy ls pq).
Proof. revert pq. induction ls as [|[label l] ls IH]; intros pq; cbn [pushLabels]; preserve; apply IH. Qed.
#[local] Hint Resolve preserves_pushLabels : stable.
Lemma preserves_ordered node occupy : preserves P (orderedMatchingClusterCIDRs node occupy).
Proof. unfold orderedMatchingClusterCIDRs. preserve. Qed.
#[local] Hint Resolve preserves_ordered preserves_anyMappedSet : stable.

Lemma preserves_allocateLoop fuel n l q : preserves P (allocateLoop fuel n l q).
Proof.
  revert n. induction fuel as [|fuel IH]; intros n; cbn [allocateLoop]; unfold cidrInAllocatedList, cidrOverlapWithAllocatedList;
    preserve; apply IH.
Qed.
#[local] Hint Resolve preserves_allocateLoop : stable.
Lemma preserves_allocateCIDR l q : preserves P (allocateCIDR l q).
Proof. unfold allocateCIDR. preserve. Qed.
#[local] Hint Resolve preserves_allocateCIDR : stable.
Lemma preserves_tryClusterCIDR l : preserves P (tryClusterCIDR l).
Proof. unfold tryClusterCIDR, allocateFamily. preserve. Qed.
#[local] Hint Resolve preserves_tryClusterCIDR : stable.
Lemma preserves_prioritizedCIDRs node : preserves P (prioritizedCIDRs node).
Proof. unfold prioritizedCIDRs. preserve. Qed.
#[local] Hint Resolve preserves_prioritizedCIDRs : stable.

Lemma preserves_occupyLoop l node cidrs n : preserves P (occupyLoop l node cidrs n).
Proof. revert n. induction cidrs as [|x cidrs IH]; intros n; cbn [occupyLoop]; preserve; apply IH. Qed.
#[local] Hint Resolve preserves_occupyLoop : stable.
Lemma preserves_occupyCIDRs node : preserves P (occupyCIDRs node).
Proof. unfold occupyCIDRs. preserve. Qed.
Lemma preserves_releaseReserved format data node : preserves P (releaseReserved format data node).
Proof. unfold releaseReserved. preserve. Qed.
Lemma preserves_patchLoop n node cidrs l err : preserves P (patchLoop n node cidrs l err).
Proof. revert err. induction n as [|n IH]; intros err; cbn [patchLoop]; preserve; apply IH. Qed.
#[local] Hint Resolve preserves_occupyCIDRs preserves_releaseReserved preserves_patchLoop : stable.
Lemma preserves_update data : preserves P (updateCIDRsAllocation data).
Proof. unfold updateCIDRsAllocation, RecordNodeStatusChange. preserve. Qed.
#[local] Hint Resolve preserves_update : stable.
Lemma preserves_AllocateOrOccupyCIDR node : preserves P (AllocateOrOccupyCIDR node).
Proof. unfold AllocateOrOccupyCIDR, RecordNodeStatusChange. preserve. Qed.
Lemma preserves_ReleaseCIDR node : preserves P (ReleaseCIDR node).
Proof. unfold ReleaseCIDR, allocatedClusterCIDR. preserve. Qed.
#[local] Hint Resolve preserves_AllocateOrOccupyCIDR preserves_ReleaseCIDR : stable.
Lemma preserves_syncNode key : preserves P (syncNode key).
Proof. unfold syncNode. preserve. Qed.
Lemma preserves_handleNodeDelete obj : preserves P (handleNodeDelete obj).
Proof. unfold handleNodeDelete. preserve. Qed.
Lemma preserves_createClusterCIDRSet c b : preserves P (createClusterCIDRSet c b).
Proof.
  assert (∀ name n h, preserves P (newSetM name n h)) as Hn.
  { intros name n h st. intros Hst. unfold newSetM. destruct (NewMultiCIDRSet name n h (metrics st)). by apply (sb_metrics _ HP). }
  assert (∀ m1 m2 name t h, preserves P (createSet m1 m2 name t h)) as Hs by (intros; unfold createSet; preserve; apply Hn).
  unfold createClusterCIDRSet. preserve; apply Hs.
Qed.
End operations.

(** The handlers that create, map and unmap ClusterCIDRs. *)
Section mapping.
Context `{HN : !NetUtils} `{HLb : !Labels} `{HC : !Cluster} `{HI : !MapIter}.
Context (P : AllocState → Prop) (HM : stable_map P).
Implicit Types st : AllocState.
Let HP : stable P := sm_stable P HM.

Lemma preserves_mapClusterCIDRSet key p : preserves P (mapClusterCIDRSet key p).
Proof using HM.
  assert (∀ name l, preserves P (containsName name l)) as Hc.
  { intros name l. induction l as [|x l IH]; cbn [containsName]; preserve. }
  unfold mapClusterCIDRSet. preserve; try apply Hc; apply preserves_modify; intros; by apply (sm_map P HM).
Qed.

Lemma preserves_newObj c : preserves P (newObj c).
Proof using HM. intros st. apply (sm_new P HM). Qed.

Lemma preserves_createClusterCIDR c b : preserves P (createClusterCIDR c b).
Proof using HM.
  unfold createClusterCIDR. preserve;
    try apply preserves_createClusterCIDRSet; try apply preserves_newObj; try apply preserves_mapClusterCIDRSet; done.
Qed.

Lemma preserves_deleteLoop name key l i rest : preserves P (deleteLoop name key l i rest).
Proof using HM.
  revert i. induction rest as [|p rest IH]; intros i; cbn [deleteLoop]; preserve; try apply IH;
    apply preserves_modify; intros; by apply (sm_map P HM).
Qed.

Lemma preserves_reconcileDelete c : preserves P (reconcileDelete c).
Proof using HM. unfold reconcileDelete, deleteClusterCIDR. preserve; apply preserves_deleteLoop. Qed.

Lemma preserves_syncClusterCIDR key : preserves P (syncClusterCIDR key).
Proof using HM. unfold syncClusterCIDR, reconcileCreate. preserve; [apply preserves_reconcileDelete|apply preserves_createClusterCIDR]. Qed.
End mapping.
