(* ===== verification/AllocatorInv.v ===== *)
(** The invariant of the allocator's state, and what its primitive steps do.

    [alloc_ok]: every pointer in [cidrMap] leads to an object with at least one
    set, and every set of an object satisfies the set invariant of its family.
    The lemmas below run the primitives (dereferencing, calling a set's method,
    walking the map) on such a state. *)
From S2P Require Import Prelude GoNet CIDRTheory CIDRText NetUtils MultiCIDRSet IndexTheory IndexProps SetProps.
From S2P Require Import ContainerHeap PriorityQueue Kubernetes Allocator.

Definition fam_width (f : family) : Z := match f with V4 => 32 | V6 => 128 end.

(** [s] is a set of geometry [L] in the slot [f] whose allocated indices are [A]. *)
Record set_view (f : family) (s : MultiCIDRSet) (L : layout) (A : gset Z) : Prop := {
  sv_ok : layout_ok L;
  sv_width : width L = fam_width f;
  sv_inv : set_inv L A s
}.

Definition set_ok (f : family) (s : MultiCIDRSet) : Prop := ∃ L A, set_view f s L A.

Record cluster_ok (c : ClusterCIDR) : Prop := {
  co_sets f s : get_set f c = Some s → set_ok f s;
  co_some : ∃ f, is_Some (get_set f c)
}.

(** The address [x] of family [f] is in a block allocated in [s]. *)
Definition uses (f : family) (s : MultiCIDRSet) (x : Z) : Prop :=
  ∃ L A i, set_view f s L A ∧ i ∈ A ∧ in_block (width L) (node_addr L i) (nlen L) x.

Lemma get_put_set f s c : get_set f (put_set f s c) = Some s.
Proof. by destruct f. Qed.

Lemma get_put_set_ne f g s c : f ≠ g → get_set g (put_set f s c) = get_set g c.
Proof. by destruct f, g. Qed.

Lemma put_put_set f s s' c : put_set f s (put_set f s' c) = put_set f s c.
Proof. by destruct f. Qed.

Lemma put_get_set f s c : get_set f c = Some s → put_set f s c = c.
Proof. destruct f, c; simpl; congruence. Qed.

Lemma put_set_ok f s c : cluster_ok c → set_ok f s → cluster_ok (put_set f s c).
Proof.
  intros [Hsets Hsome] Hs. split.
  - intros g s'. destruct (decide (f = g)) as [<-|Hne].
    + rewrite get_put_set. by intros [= <-].
    + rewrite get_put_set_ne by done. apply Hsets.
  - exists f. rewrite get_put_set. by eexists.
Qed.

(** A set determines its geometry and its indices. *)
Lemma set_view_unique f s L A L' A' : set_view f s L A → set_view f s L' A' → L = L' ∧ A = A'.
Proof.
  intros [HL HW Hs] [HL' HW' Hs']. pose proof (si_layout _ _ _ Hs) as Hl. pose proof (si_layout _ _ _ Hs') as Hl'.
  assert (L = L') as <-.
  { pose proof (sl_cluster _ _ Hl) as E. rewrite (sl_cluster _ _ Hl') in E.
    apply (block_inj (width L') (base L') (clen L') (width L) (base L) (clen L)) in E as (E1 & E2 & E3);
      [|by apply lo_block..].
    pose proof (sl_node _ _ Hl) as E4. rewrite (sl_node _ _ Hl') in E4. destruct L, L'. simpl in *. congruence. }
  split; [done|]. apply set_eq. intros i. split; intros Hi.
  - apply (lookup_key L HL A' s i Hs'); [by apply (si_bound _ _ _ Hs)|].
    apply (lookup_key L HL A s i Hs); [by apply (si_bound _ _ _ Hs)|done].
  - apply (lookup_key L HL A s i Hs); [by apply (si_bound _ _ _ Hs')|].
    apply (lookup_key L HL A' s i Hs'); [by apply (si_bound _ _ _ Hs')|done].
Qed.

Section state.
Context `{HC : !Cluster}.
Implicit Types st : AllocState.

(** [l] is an element of some list of the map. *)
Definition mapped st (l : loc) : Prop := ∃ label lst, cidrMap st !! label = Some lst ∧ l ∈ lst.

Record alloc_ok st : Prop := {
  ao_objs l c : objs st !! l = Some c → cluster_ok c;
  ao_mapped l : mapped st l → is_Some (objs st !! l);
  ao_fresh l : is_Some (objs st !! l) → (l < next_loc st)%positive
}.

(** What the operations on sets leave alone. *)
Record same_env st st' : Prop := {
  se_map : cidrMap st' = cidrMap st;
  se_next : next_loc st' = next_loc st;
  se_events : events st' = events st;
  se_world : world st' = world st
}.

#[export] Instance same_env_preorder : PreOrder same_env.
Proof. split; [by split|]. intros st1 st2 st3 [] []. split; congruence. Qed.

(** [st'] is [st] but for the set in the slot [f] of [l], which is now [s']. *)
Definition set_replaced l f s' st st' : Prop :=
  same_env st st' ∧ ∃ c, objs st !! l = Some c ∧ objs st' = <[l := put_set f s' c]> (objs st).

Lemma same_mapped st st' l : same_env st st' → mapped st' l ↔ mapped st l.
Proof. intros [E _ _ _]. unfold mapped. by rewrite E. Qed.

Lemma set_replaced_ok l f s' st st' : alloc_ok st → set_ok f s' → set_replaced l f s' st st' → alloc_ok st'.
Proof.
  intros [Ho Hm Hf] Hs [Hse (c & Hc & Eo)]. split.
  - intros k d. rewrite Eo, lookup_insert. case_decide; [|by apply Ho].
    intros [= <-]. apply put_set_ok; [by eapply Ho|done].
  - intros k Hk. rewrite Eo, lookup_insert_is_Some. destruct (decide (l = k)); [by left|].
    right. split; [done|]. apply Hm. by rewrite <- (same_mapped st st').
  - intros k. rewrite Eo, lookup_insert_is_Some, (se_next _ _ Hse). intros [<-|[_ Hk]]; apply Hf; [by exists c|done].
Qed.

Lemma set_replaced_trans l f s1 s2 st0 st1 st2 :
  set_replaced l f s1 st0 st1 → set_replaced l f s2 st1 st2 → set_replaced l f s2 st0 st2.
Proof.
  intros [H01 (c & Hc & E1)] [H12 (c' & Hc' & E2)]. split; [by etransitivity|].
  exists c. split; [done|]. rewrite E1, lookup_insert_eq in Hc'. injection Hc' as <-.
  by rewrite E2, E1, insert_insert_eq, put_put_set.
Qed.

Lemma set_replaced_refl l f s c st : objs st !! l = Some c → get_set f c = Some s → set_replaced l f s st st.
Proof.
  intros Hc Hs. split; [done|]. exists c. split; [done|]. rewrite put_get_set by done. by rewrite insert_id.
Qed.

Lemma set_replaced_lookup l f s' st st' : set_replaced l f s' st st' → objs st' !! l ≫= get_set f = Some s'.
Proof. intros [_ (c & _ & ->)]. rewrite lookup_insert_eq. simpl. apply get_put_set. Qed.

(** Only the named set changes. *)
Lemma set_replaced_other l f s' st st' k g : set_replaced l f s' st st' → (k, g) ≠ (l, f) →
  objs st' !! k ≫= get_set g = objs st !! k ≫= get_set g.
Proof.
  intros [_ (c & Hc & ->)] Hne. rewrite lookup_insert. case_decide as E; [|done]. subst k.
  rewrite Hc. simpl. apply get_put_set_ne. congruence.
Qed.
End state.

Section primitives.
Context `{HN : !NetUtils} `{HLb : !Labels} `{HC : !Cluster} `{HI : !MapIter}.
Context (HNL : NetUtilsLaws HN).
Implicit Types st : AllocState.

Definition set_at st (p : setPtr) : option MultiCIDRSet := objs st !! p.1 ≫= get_set p.2.

Lemma set_at_Some st l f s : set_at st (l, f) = Some s ↔ ∃ c, objs st !! l = Some c ∧ get_set f c = Some s.
Proof using. unfold set_at. simpl. rewrite bind_Some. done. Qed.

Lemma onSet_run {A} st l f s (m : M SetState A) r s' t' : set_at st (l, f) = Some s →
  m (s, metrics st) = (r, (s', t')) →
  ∃ st', onSet (Some (l, f)) m st = (r, st') ∧ set_replaced l f s' st st' ∧ iters st' = iters st.
Proof using.
  intros (c & Hc & Hs)%set_at_Some Hm. eexists. unfold onSet. rewrite Hc. simpl. rewrite Hs. simpl. rewrite Hm.
  split; [done|]. split; [|done]. split; [by split|]. by exists c.
Qed.

Lemma readSet_run st l f s : set_at st (l, f) = Some s → readSet (Some (l, f)) st = (Ok s, st).
Proof using. intros (c & Hc & Hs)%set_at_Some. unfold readSet. rewrite Hc. simpl. by rewrite Hs. Qed.

(** The set pointer of a well-formed CIDR: the slot of its family, or nil. *)
Lemma associatedCIDRSet_run st l c f v p : objs st !! l = Some c → valid_block (fam_width f) v p →
  associatedCIDRSet l (block (fam_width f) v p) st = (Ok ((λ _, (l, f)) <$> get_set f c), st).
Proof using HNL.
  intros Hc Hb. unfold associatedCIDRSet. rewrite (IsIPv4CIDR_valid _ _ _ Hb), (IsIPv6CIDR_valid _ _ _ Hb).
  unfold getObj, deref. destruct f; simpl; mred; by rewrite Hc.
Qed.

Lemma rangeMap_run st : rangeMap st = (Ok (iter_order (iters st) (cidrMap st)), with_iter st).
Proof using. done. Qed.

(** A search over the mapped sets that only reads. *)
Definition mappedAny st (f : family) (test : MultiCIDRSet → bool) : Prop :=
  ∃ l s, mapped st l ∧ set_at st (l, f) = Some s ∧ test s = true.

Lemma testMappedSet_run st f v p (test : MultiCIDRSet → bool) l : valid_block (fam_width f) v p →
  is_Some (objs st !! l) →
  ∃ r, testMappedSet test (block (fam_width f) v p) l st = (Ok r, st)
    ∧ (is_Some r ↔ ∃ s, set_at st (l, f) = Some s ∧ test s = true).
Proof using HNL.
  intros Hb [c Hc]. unfold testMappedSet.
  mstep (attempt_Ok _ _ _ _ (associatedCIDRSet_run st l c f v p Hc Hb)).
  assert (∀ s, set_at st (l, f) = Some s ↔ get_set f c = Some s) as Hat.
  { intros s. unfold set_at. simpl. by rewrite Hc. }
  destruct (get_set f c) as [s|] eqn:Hs; simpl.
  - mstep (readSet_run st l f s (proj2 (Hat s) eq_refl)).
    destruct (test s) eqn:Ht; eexists; (split; [done|]); [naive_solver|].
    split; [by intros [? ?]|]. intros (s' & Hs' & Ht'). apply Hat in Hs' as [= ->]. congruence.
  - eexists; (split; [done|]). split; [by intros [? ?]|]. by intros (s' & ?%Hat & _).
Qed.

(** One list of the search. *)
Lemma search_list st f v p (test : MultiCIDRSet → bool) lst : valid_block (fam_width f) v p →
  (∀ l, l ∈ lst → is_Some (objs st !! l)) →
  ∃ r, forReturn lst (testMappedSet test (block (fam_width f) v p)) st = (Ok r, st)
    ∧ (is_Some r ↔ ∃ l s, l ∈ lst ∧ set_at st (l, f) = Some s ∧ test s = true).
Proof using HNL.
  intros Hb. induction lst as [|l lst IH]; intros Hobjs.
  { exists None. split; [done|]. split; [by intros [? ?]|]. intros (l & s & Hl & _). by apply elem_of_nil in Hl. }
  destruct IH as (r & Hr & Hspec); [intros k Hk; apply Hobjs; by right|].
  destruct (testMappedSet_run st f v p test l Hb) as (r1 & Hr1 & Hs1); [apply Hobjs; by left|].
  destruct r1 as [u|].
  - exists (Some u). rewrite (forReturn_stop _ _ _ _ _ _ Hr1). split; [done|]. split; [|by eexists].
    intros _. destruct (proj1 Hs1) as (s & ? & ?); [by eexists|]. exists l, s. split; [by left|done].
  - exists r. rewrite (forReturn_next _ _ _ _ _ Hr1). split; [done|]. rewrite Hspec. split.
    + intros (k & s & Hk & ?). exists k, s. split; [by right|done].
    + intros (k & s & [->|Hk]%elem_of_cons & Hs & Ht); [|by exists k, s].
      exfalso. destruct (proj2 Hs1) as [? ?]; [by exists s|done].
Qed.

Lemma search_lists st f v p (test : MultiCIDRSet → bool) (ls : list (string * list loc)) :
  valid_block (fam_width f) v p →
  (∀ x l, x ∈ ls → l ∈ x.2 → is_Some (objs st !! l)) →
  ∃ r, forReturn ls (λ '(_, clusterCIDRList), forReturn clusterCIDRList (testMappedSet test (block (fam_width f) v p))) st
      = (Ok r, st)
    ∧ (is_Some r ↔ ∃ x l s, x ∈ ls ∧ l ∈ x.2 ∧ set_at st (l, f) = Some s ∧ test s = true).
Proof using HNL.
  intros Hb. induction ls as [|[label lst] ls IH]; intros Hobjs.
  { exists None. split; [done|]. split; [by intros [? ?]|]. intros (x & l & s & Hx & _). by apply elem_of_nil in Hx. }
  destruct IH as (r & Hr & Hspec); [intros x k Hx; apply Hobjs; by right|].
  destruct (search_list st f v p test lst Hb) as (r1 & Hr1 & Hs1); [intros k; apply (Hobjs (label, lst)); by left|].
  destruct r1 as [u|].
  - exists (Some u). rewrite (forReturn_stop (label, lst) _ _ _ _ _ Hr1). split; [done|]. split; [|by eexists].
    intros _. destruct (proj1 Hs1) as (l & s & ? & ? & ?); [by eexists|]. exists (label, lst), l, s. split; [by left|done].
  - exists r. rewrite (forReturn_next (label, lst) _ _ _ _ Hr1). split; [done|]. rewrite Hspec. split.
    + intros (x & l & s & Hk & ?). exists x, l, s. split; [by right|done].
    + intros (x & l & s & [->|Hx]%elem_of_cons & Hl & Hs & Ht); [|by exists x, l, s].
      exfalso. destruct (proj2 Hs1) as [? ?]; [by exists l, s|done].
Qed.

(** The pairs of a map walk are the pairs of the map. *)
Context (HIL : MapIterLaws HI).

Lemma range_elem st label lst :
  (label, lst) ∈ iter_order (iters st) (cidrMap st) ↔ cidrMap st !! label = Some lst.
Proof using HIL. by rewrite iter_perm, elem_of_map_to_list. Qed.

(** The searches read every mapped set of the family and nothing else; they
    do not depend on the iteration order. *)
Lemma anyMappedSet_run st f v p (test : MultiCIDRSet → bool) : alloc_ok st → valid_block (fam_width f) v p →
  ∃ b, anyMappedSet test (block (fam_width f) v p) st = (Ok b, with_iter st) ∧ (b = true ↔ mappedAny st f test).
Proof using HNL HIL.
  intros Hok Hb. unfold anyMappedSet. mstep (rangeMap_run st).
  destruct (search_lists (with_iter st) f v p test (iter_order (iters st) (cidrMap st)) Hb) as (r & Hr & Hspec).
  { intros [label lst] l Hx Hl. apply (ao_mapped _ Hok). exists label, lst. by rewrite <- range_elem. }
  mstep Hr. eexists. split; [done|]. rewrite bool_decide_eq_true, Hspec. unfold mappedAny, mapped. split.
  - intros ([label lst] & l & s & Hx%range_elem & Hl & Hs). exists l, s. split; [by exists label, lst|done].
  - intros (l & s & (label & lst & Hx%range_elem & Hl) & Hs). by exists (label, lst), l, s.
Qed.
End primitives.
