(* ===== verification/AllocateProps.v ===== *)
(** What [Occupy], [Release] and [allocateCIDR] of the allocator do to the set of
    a ClusterCIDR, and when [allocateCIDR] finds a CIDR.

    [conflict st f L i]: block [i] shares an address with a block in use in some
    mapped set of family [f].  [allocateCIDR] returns the first block from the
    cursor that is free in its set and has no conflict, and fails only if no block
    of the set qualifies. *)
From S2P Require Import Prelude GoNet CIDRTheory CIDRText NetUtils MultiCIDRSet IndexTheory IndexProps SetProps.
From S2P Require Import ContainerHeap PriorityQueue Kubernetes Allocator AllocatorInv.

Section allocate.
Context `{HN : !NetUtils} `{HLb : !Labels} `{HC : !Cluster} `{HI : !MapIter}.
Context (HNL : NetUtilsLaws HN) (HIL : MapIterLaws HI).
Implicit Types st : AllocState.

(** * One set *)

Lemma set_at_obj st l f s : set_at st (l, f) = Some s → ∃ c, objs st !! l = Some c ∧ get_set f c = Some s.
Proof using. by rewrite set_at_Some. Qed.

Lemma associated_set st l f s v p : set_at st (l, f) = Some s → valid_block (fam_width f) v p →
  associatedCIDRSet l (block (fam_width f) v p) st = (Ok (Some (l, f)), st).
Proof using HNL.
  intros (c & Hc & Hs)%set_at_obj Hb. rewrite (associatedCIDRSet_run HNL st l c f v p Hc Hb). by rewrite Hs.
Qed.

Lemma view_block f s L A i : set_view f s L A → 0 ≤ i < nmax L →
  node_block L i = block (fam_width f) (node_addr L i) (nlen L) ∧ valid_block (fam_width f) (node_addr L i) (nlen L).
Proof using. intros [HL HW _] Hi. rewrite <- HW. split; [done|by apply node_block_valid]. Qed.

Lemma set_step_view f s L A t A' r : set_view f s L A → set_step L A s t A' r →
  ∃ s' t', r = (Ok tt, (s', t')) ∧ set_view f s' L A' ∧ params s' = params s ∧ nextCandidate s' = nextCandidate s.
Proof using. intros [HL HW _] (s' & t' & -> & Hs' & Hp & Hn & _). by exists s', t'. Qed.

(** Occupying a CIDR that meets the set's range. *)
Lemma Occupy_run st l f s L A v p : set_at st (l, f) = Some s → set_view f s L A → valid_block (fam_width f) v p →
  overlaps (cluster_block L) (block (fam_width f) v p) = true →
  ∃ st' s', Occupy l (block (fam_width f) v p) st = (Ok tt, st') ∧ set_replaced l f s' st st' ∧ iters st' = iters st
    ∧ set_view f s' L (A ∪ touched L v p) ∧ params s' = params s ∧ nextCandidate s' = nextCandidate s.
Proof using HNL.
  intros Hat Hv Hb Ho. destruct (Hv) as [HL HW Hs].
  destruct (set_step_view f s L A (metrics st) _ _ Hv
    (Occupy_inside HNL L HL A s (metrics st) v p Hs ltac:(by rewrite HW) ltac:(by rewrite HW)))
    as (s' & t' & E & Hv' & Hp & Hn). rewrite HW in E.
  destruct (onSet_run st l f s _ _ _ _ Hat E) as (st' & E' & Hr & Hi). exists st', s'. unfold Occupy.
  mstep (associated_set st l f s v p Hat Hb). by rewrite (wrapErr_Ok _ _ _ _ _ E').
Qed.

Lemma Occupy_node_run st l f s L A i : set_at st (l, f) = Some s → set_view f s L A → 0 ≤ i < nmax L →
  ∃ st' s', Occupy l (node_block L i) st = (Ok tt, st') ∧ set_replaced l f s' st st' ∧ iters st' = iters st
    ∧ set_view f s' L ({[i]} ∪ A) ∧ params s' = params s ∧ nextCandidate s' = nextCandidate s.
Proof using HNL.
  intros Hat Hv Hi. destruct (view_block f s L A i Hv Hi) as [E Hb]. rewrite E.
  destruct (Hv) as [HL HW _]. rewrite (union_comm_L {[i]} A), <- (touched_node_block L HL i Hi).
  apply Occupy_run; [done..|]. rewrite <- E. by apply node_block_in_cluster.
Qed.

(** Occupying a CIDR outside the set's range fails and changes nothing. *)
Lemma Occupy_fail st l f s L A v p : set_at st (l, f) = Some s → set_view f s L A → valid_block (fam_width f) v p →
  overlaps (cluster_block L) (block (fam_width f) v p) = false →
  ∃ st' e, Occupy l (block (fam_width f) v p) st = (Err e, st') ∧ set_replaced l f s st st' ∧ iters st' = iters st.
Proof using HNL.
  intros Hat [HL HW Hs] Hb Ho.
  pose proof (Occupy_outside L HL A s (metrics st) v p Hs ltac:(by rewrite HW) ltac:(by rewrite HW)) as E.
  rewrite HW in E. destruct (onSet_run st l f s _ _ _ _ Hat E) as (st' & E' & Hr & Hi).
  eexists st', _. split; [|done]. unfold Occupy. mstep (associated_set st l f s v p Hat Hb).
  by rewrite (wrapErr_Err _ _ _ _ _ E').
Qed.

Lemma Release_run st l f s L A v p : set_at st (l, f) = Some s → set_view f s L A → valid_block (fam_width f) v p →
  overlaps (cluster_block L) (block (fam_width f) v p) = true →
  ∃ st' s', Release l (block (fam_width f) v p) st = (Ok tt, st') ∧ set_replaced l f s' st st' ∧ iters st' = iters st
    ∧ set_view f s' L (A ∖ touched L v p) ∧ params s' = params s ∧ nextCandidate s' = nextCandidate s.
Proof using HNL.
  intros Hat Hv Hb Ho. destruct (Hv) as [HL HW Hs].
  destruct (set_step_view f s L A (metrics st) _ _ Hv
    (Release_inside HNL L HL A s (metrics st) v p Hs ltac:(by rewrite HW) ltac:(by rewrite HW)))
    as (s' & t' & E & Hv' & Hp & Hn). rewrite HW in E.
  destruct (onSet_run st l f s _ _ _ _ Hat E) as (st' & E' & Hr & Hi). exists st', s'. unfold Release.
  mstep (associated_set st l f s v p Hat Hb). by rewrite E'.
Qed.

(** * Conflicts with the mapped sets *)

Definition conflict st (f : family) (L : layout) (i : Z) : Prop :=
  ∃ l s x, mapped st l ∧ set_at st (l, f) = Some s ∧ uses f s x ∧ in_block (width L) (node_addr L i) (nlen L) x.

Lemma overlaps_uses f s v p : set_ok f s → valid_block (fam_width f) v p →
  CIDROverlaps s (block (fam_width f) v p) = true ↔ ∃ x, uses f s x ∧ in_block (fam_width f) v p x.
Proof using HNL.
  intros (L & A & Hv) Hb. destruct (Hv) as [HL HW Hs]. rewrite <- HW in Hb |- *.
  rewrite (CIDROverlaps_spec HNL L HL A) by done. split.
  - intros (i & Hi & Ht). apply (touches_spec L HL v p i Hb (si_bound _ _ _ Hs i Hi)) in Ht as (x & Hx & Hvx).
    exists x. split; [|done]. exists L, A, i. by rewrite index_of_in_block.
  - intros (x & (L' & A' & i & Hv' & Hi & Hx) & Hvx).
    destruct (set_view_unique _ _ _ _ _ _ Hv Hv') as [<- <-]. exists i. split; [done|].
    apply (touches_spec L HL v p i Hb (si_bound _ _ _ Hs i Hi)). exists x. by rewrite index_of_in_block in Hx.
Qed.

Lemma allocated_uses f s v p : set_ok f s → valid_block (fam_width f) v p →
  CIDRAllocated s (block (fam_width f) v p) = true → CIDROverlaps s (block (fam_width f) v p) = true.
Proof using HNL.
  intros (L & A & [HL HW Hs]) Hb Ha. rewrite <- HW in *.
  unfold CIDRAllocated in Ha. apply bool_decide_eq_true, (si_map _ _ _ Hs) in Ha as (i & Hi & E).
  pose proof (si_bound _ _ _ Hs i Hi) as Hib.
  apply IPNet_String_inj in E as (_ & -> & ->); [|done|by apply node_block_valid].
  apply (CIDROverlaps_spec HNL L HL A); [done..|]. exists i. split; [done|].
  assert (i ∈ touched L (node_addr L i) (nlen L)) as [_ ?]%elem_of_touched; [|done].
  rewrite touched_node_block by done. by apply elem_of_singleton.
Qed.

(** The two searches answer [conflict]. *)
Lemma conflict_search st f s L A i : alloc_ok st → set_view f s L A → 0 ≤ i < nmax L →
  (mappedAny st f (λ s, CIDRAllocated s (node_block L i)) → conflict st f L i)
  ∧ (mappedAny st f (λ s, CIDROverlaps s (node_block L i)) ↔ conflict st f L i).
Proof using HNL.
  intros Hok Hv Hi. destruct (view_block f s L A i Hv Hi) as [E Hb]. destruct (Hv) as [_ HW _].
  assert (∀ l s', set_at st (l, f) = Some s' → set_ok f s') as Hsets.
  { intros l s' (c & Hc & Hs')%set_at_Some. by eapply co_sets; [eapply ao_objs|]. }
  assert (∀ l s', set_at st (l, f) = Some s' → CIDROverlaps s' (node_block L i) = true ↔
    ∃ x, uses f s' x ∧ in_block (width L) (node_addr L i) (nlen L) x) as Hov.
  { intros l s' Hs'. rewrite E, HW. apply overlaps_uses; [by eapply Hsets|done]. }
  split; [|split].
  - intros (l & s' & Hm & Hs' & Ha). rewrite E in Ha. apply allocated_uses in Ha; [|by eapply Hsets|done].
    rewrite <- E in Ha. apply (Hov l s' Hs') in Ha as (x & ? & ?). by exists l, s', x.
  - intros (l & s' & Hm & Hs' & Ha). apply (Hov l s' Hs') in Ha as (x & ? & ?). by exists l, s', x.
  - intros (l & s' & x & Hm & Hs' & Hu & Hx). exists l, s'. split_and!; [done..|]. apply (Hov l s' Hs'). by exists x.
Qed.

Lemma uses_view f s L A x : set_view f s L A →
  uses f s x ↔ ∃ i, i ∈ A ∧ in_block (width L) (node_addr L i) (nlen L) x.
Proof using.
  intros Hv. split.
  - intros (L' & A' & i & Hv' & Hi & Hx). destruct (set_view_unique _ _ _ _ _ _ Hv Hv') as [<- <-]. by exists i.
  - intros (i & Hi & Hx). by exists L, A, i.
Qed.

Lemma view_with_next f s L A n : set_view f s L A → 0 ≤ n < nmax L → set_view f (with_next n s) L A.
Proof using. intros [HL HW Hs] Hn. split; [done|done|]. by apply set_inv_with_next. Qed.

(** Moving the cursor of a set changes no conflict. *)
Lemma conflict_moved st st' l f s L A n i : set_at st (l, f) = Some s → set_view f s L A → 0 ≤ n < nmax L →
  set_replaced l f (with_next n s) st st' → conflict st' f L i ↔ conflict st f L i.
Proof using.
  intros Hat Hv Hn Hr. pose proof (view_with_next f s L A n Hv Hn) as Hv'.
  assert (∀ x, uses f (with_next n s) x ↔ uses f s x) as Huses by (intros x; by rewrite !(uses_view f _ L A)).
  unfold conflict. split; intros (k & s' & x & Hm & Hs' & Hu & Hx).
  - apply (same_mapped st st') in Hm; [|apply Hr]. destruct (decide (k = l)) as [->|Hne].
    + unfold set_at in Hs'. simpl in Hs'. rewrite (set_replaced_lookup _ _ _ _ _ Hr) in Hs'. injection Hs' as <-.
      exists l, s, x. by rewrite <- Huses.
    + exists k, s', x. split_and!; try done. unfold set_at in *. simpl in *.
      by rewrite (set_replaced_other _ _ _ _ _ k f Hr) in Hs' by congruence.
  - assert (mapped st' k) by (apply (same_mapped st st'); [apply Hr|done]). destruct (decide (k = l)) as [->|Hne].
    + rewrite Hat in Hs'. injection Hs' as <-. exists l, (with_next n s), x. rewrite Huses.
      split_and!; try done. apply (set_replaced_lookup _ _ _ _ _ Hr).
    + exists k, s', x. split_and!; try done. unfold set_at in *. simpl in *.
      by rewrite (set_replaced_other _ _ _ _ _ k f Hr) by congruence.
Qed.

(** * The allocation loop *)

(** What the walk has to get past: allocated in the set itself, or in conflict. *)
Definition taken st f L (A : gset Z) (i : Z) : Prop := i ∈ A ∨ conflict st f L i.

(** The candidate step of a round. *)
Lemma candidate_run st l f s L A j : set_at st (l, f) = Some s → set_view f s L A → 0 ≤ j < nmax L →
  (∀ k, 0 ≤ k < j → slot L (nextCandidate s) k ∈ A) → slot L (nextCandidate s) j ∉ A →
  ∃ st1, onSet (Some (l, f)) NextCandidate st = (Ok (j, inr (node_block L (slot L (nextCandidate s) j))), st1)
    ∧ set_replaced l f (with_next (slot L (nextCandidate s) (j + 1)) s) st st1.
Proof using HNL.
  intros Hat [HL HW Hs] Hj Hbelow Hfree.
  pose proof (NextCandidate_free HNL L HL A s (metrics st) j Hs Hj Hbelow Hfree) as E.
  destruct (onSet_run st l f s _ _ _ _ Hat E) as (st1 & E1 & Hr & _). by exists st1.
Qed.

Lemma alloc_ok_iter st : alloc_ok st → alloc_ok (with_iter st).
Proof using. intros []. by split. Qed.

(** The two checks of a round. *)
Lemma checks_run st f s L A i : alloc_ok st → set_view f s L A → 0 ≤ i < nmax L →
  ∃ b1 b2, cidrInAllocatedList (node_block L i) st = (Ok b1, with_iter st)
    ∧ cidrOverlapWithAllocatedList (node_block L i) (with_iter st) = (Ok b2, with_iter (with_iter st))
    ∧ (b1 || b2 = true ↔ conflict st f L i).
Proof using HNL HIL.
  intros Hok Hv Hi. destruct (view_block f s L A i Hv Hi) as [E Hb].
  destruct (conflict_search st f s L A i Hok Hv Hi) as [Hin Hov]. rewrite E in Hin, Hov |- *.
  destruct (anyMappedSet_run HNL HIL st f _ _ (λ s, CIDRAllocated s (block (fam_width f) (node_addr L i) (nlen L))) Hok Hb)
    as (b1 & E1 & H1).
  destruct (anyMappedSet_run HNL HIL (with_iter st) f _ _ (λ s, CIDROverlaps s (block (fam_width f) (node_addr L i) (nlen L))) (alloc_ok_iter st Hok) Hb)
    as (b2 & E2 & H2).
  exists b1, b2. split; [exact E1|]. split; [exact E2|]. rewrite orb_true_iff, H1, H2.
  change (mappedAny (with_iter st)) with (mappedAny st). rewrite Hov. naive_solver.
Qed.
(** What one round leaves: the walk moved on, or the block was taken. *)
Lemma set_at_replaced st st' l f s : set_replaced l f s st st' → set_at st' (l, f) = Some s.
Proof using. apply set_replaced_lookup. Qed.

Lemma set_replaced_iter l f s st st' : set_replaced l f s st st' → set_replaced l f s st (with_iter st').
Proof using. intros [[? ? ? ?] Hc]. by split. Qed.

Lemma taken_dec st f s L A i : alloc_ok st → set_view f s L A → 0 ≤ i < nmax L → taken st f L A i ∨ ¬ taken st f L A i.
Proof using HNL HIL.
  intros Hok Hv Hi. destruct (decide (i ∈ A)); [by left; left|].
  destruct (checks_run st f s L A i Hok Hv Hi) as (b1 & b2 & _ & _ & Hb).
  destruct (b1 || b2); [left; right; by apply Hb|]. right. intros [?|?%Hb]; done.
Qed.

(** Either every block is taken, or there is a first one that is not. *)
Lemma first_good st f s L A c (n : nat) : alloc_ok st → set_view f s L A →
  (∀ k, 0 ≤ k < Z.of_nat n → taken st f L A (slot L c k))
  ∨ ∃ j, 0 ≤ j < Z.of_nat n ∧ (∀ k, 0 ≤ k < j → taken st f L A (slot L c k)) ∧ ¬ taken st f L A (slot L c j).
Proof using HNL HIL.
  intros Hok Hv. destruct (Hv) as [HL _ _]. induction n as [|n IH]; [left; lia|].
  destruct IH as [Hall|(j & Hj & Hbelow & Hgood)]; [|right; exists j; split; [lia|done]].
  destruct (taken_dec st f s L A (slot L c (Z.of_nat n)) Hok Hv (slot_bound L HL _ _)) as [Ht|Hn].
  - left. intros k Hk. destruct (decide (k = Z.of_nat n)) as [->|]; [done|]. apply Hall. lia.
  - right. exists (Z.of_nat n). split; [lia|]. split; [|done]. intros k Hk. apply Hall. lia.
Qed.

Lemma round_conflict fuel evaluated st l f s L A j : alloc_ok st → set_at st (l, f) = Some s → set_view f s L A →
  evaluated < nmax L → 0 ≤ j < nmax L →
  (∀ k, 0 ≤ k < j → slot L (nextCandidate s) k ∈ A) → slot L (nextCandidate s) j ∉ A →
  conflict st f L (slot L (nextCandidate s) j) →
  ∃ st1, allocateLoop (S fuel) evaluated l (Some (l, f)) st = allocateLoop fuel (evaluated + j + 1) l (Some (l, f)) st1
    ∧ set_replaced l f (with_next (slot L (nextCandidate s) (j + 1)) s) st st1.
Proof using HNL HIL.
  intros Hok Hat Hv He Hj Hbelow Hfree Hcf. destruct (Hv) as [HL HW Hs].
  pose proof (slot_bound L HL (nextCandidate s)) as Hsl.
  destruct (candidate_run st l f s L A j Hat Hv Hj Hbelow Hfree) as (st1 & E1 & Hr1).
  pose proof (view_with_next f s L A _ Hv (Hsl (j + 1))) as Hv1.
  pose proof (set_replaced_ok _ _ _ _ _ Hok (ex_intro _ L (ex_intro _ A Hv1)) Hr1) as Hok1.
  destruct (checks_run st1 f s L A (slot L (nextCandidate s) j) Hok1 Hv (Hsl j)) as (b1 & b2 & Eb1 & Eb2 & Hb).
  rewrite (conflict_moved st st1 l f s L A _ _ Hat Hv (Hsl (j + 1)) Hr1) in Hb.
  cbn [allocateLoop]. mstep (readSet_run st l f s Hat). rewrite (sl_max L s) by apply Hs.
  destruct (Z.ltb_spec evaluated (nmax L)); [|lia]. mstep E1. mstep Eb1. destruct b1; [eauto using set_replaced_iter|].
  mstep Eb2. destruct b2; [by eauto using set_replaced_iter|]. by apply Hb in Hcf.
Qed.

Lemma round_free fuel evaluated st l f s L A j : alloc_ok st → set_at st (l, f) = Some s → set_view f s L A →
  evaluated < nmax L → 0 ≤ j < nmax L →
  (∀ k, 0 ≤ k < j → slot L (nextCandidate s) k ∈ A) → slot L (nextCandidate s) j ∉ A →
  ¬ conflict st f L (slot L (nextCandidate s) j) →
  ∃ st' s', allocateLoop (S fuel) evaluated l (Some (l, f)) st = (Ok (node_block L (slot L (nextCandidate s) j)), st')
    ∧ set_replaced l f s' st st' ∧ set_view f s' L ({[slot L (nextCandidate s) j]} ∪ A)
    ∧ params s' = params s ∧ nextCandidate s' = slot L (nextCandidate s) (j + 1).
Proof using HNL HIL.
  intros Hok Hat Hv He Hj Hbelow Hfree Hcf. destruct (Hv) as [HL HW Hs].
  pose proof (slot_bound L HL (nextCandidate s)) as Hsl.
  destruct (candidate_run st l f s L A j Hat Hv Hj Hbelow Hfree) as (st1 & E1 & Hr1).
  pose proof (view_with_next f s L A _ Hv (Hsl (j + 1))) as Hv1.
  pose proof (set_replaced_ok _ _ _ _ _ Hok (ex_intro _ L (ex_intro _ A Hv1)) Hr1) as Hok1.
  destruct (checks_run st1 f s L A (slot L (nextCandidate s) j) Hok1 Hv (Hsl j)) as (b1 & b2 & Eb1 & Eb2 & Hb).
  rewrite (conflict_moved st st1 l f s L A _ _ Hat Hv (Hsl (j + 1)) Hr1) in Hb.
  assert (b1 = false ∧ b2 = false) as [-> ->] by (destruct b1, b2; simpl in Hb; (done || by destruct Hcf; apply Hb)).
  pose proof (set_replaced_iter _ _ _ _ _ (set_replaced_iter _ _ _ _ _ Hr1)) as Hr2.
  destruct (Occupy_node_run (with_iter (with_iter st1)) l f _ L A (slot L (nextCandidate s) j)
    (set_at_replaced _ _ _ _ _ Hr2) Hv1 (Hsl j)) as (st3 & s3 & E3 & Hr3 & _ & Hv3 & Hp3 & Hn3).
  destruct (onSet_run st3 l f s3 (UpdateEvaluatedCount (evaluated + j)) _ _ _ (set_at_replaced _ _ _ _ _ Hr3) eq_refl)
    as (st4 & E4 & Hr4 & _).
  exists st4, s3. split; [|split_and!; [|done|by rewrite Hp3|by rewrite Hn3]].
  - cbn [allocateLoop]. mstep (readSet_run st l f s Hat). rewrite (sl_max L s) by apply Hs.
    destruct (Z.ltb_spec evaluated (nmax L)); [|lia].
    mstep E1. mstep Eb1. mstep Eb2. mstep E3. mstep E4. done.
  - eapply set_replaced_trans; [|exact Hr4]. by eapply set_replaced_trans.
Qed.
Lemma taken_moved st st' l f s L A n i : set_at st (l, f) = Some s → set_view f s L A → 0 ≤ n < nmax L →
  set_replaced l f (with_next n s) st st' → taken st' f L A i ↔ taken st f L A i.
Proof using. intros. unfold taken. by rewrite (conflict_moved st st' l f s L A n i). Qed.

(** The loop finds the first block that is not taken. *)
Lemma allocateLoop_found fuel evaluated st l f s L A j : alloc_ok st → set_at st (l, f) = Some s → set_view f s L A →
  0 ≤ evaluated → 0 ≤ j < nmax L - evaluated → nmax L - evaluated ≤ Z.of_nat fuel →
  (∀ k, 0 ≤ k < j → taken st f L A (slot L (nextCandidate s) k)) → ¬ taken st f L A (slot L (nextCandidate s) j) →
  ∃ st' s', allocateLoop fuel evaluated l (Some (l, f)) st = (Ok (node_block L (slot L (nextCandidate s) j)), st')
    ∧ set_replaced l f s' st st' ∧ set_view f s' L ({[slot L (nextCandidate s) j]} ∪ A)
    ∧ params s' = params s ∧ nextCandidate s' = slot L (nextCandidate s) (j + 1).
Proof using HNL HIL.
  revert evaluated st s j. induction fuel as [|fuel IH]; intros evaluated st s j Hok Hat Hv He Hj Hfuel Hbelow Hgood; [lia|].
  destruct (Hv) as [HL HW Hs]. unfold taken in Hgood.
  destruct (free_slot L HL A s (nextCandidate s) Hs (si_next _ _ _ Hs)) as (j0 & Hj0 & Hbelow0 & Hfree0).
  { pose proof (alloc_size_bound L HL A s Hs). destruct (decide (Z.of_nat (size A) = nmax L)) as [Hfull|]; [|lia].
    exfalso. apply Hgood. left. by apply (full_alloc L HL A s), (slot_bound L HL). }
  assert (j0 ≤ j) as Hle.
  { destruct (decide (j0 ≤ j)); [done|exfalso]. apply Hgood. left. apply Hbelow0. lia. }
  destruct (decide (j0 = j)) as [->|Hne].
  { apply round_free; (done || lia || idtac). intros Hcf. apply Hgood. by right. }
  assert (conflict st f L (slot L (nextCandidate s) j0)) as Hcf by (destruct (Hbelow j0); [lia|done|done]).
  destruct (round_conflict fuel evaluated st l f s L A j0 Hok Hat Hv) as (st1 & -> & Hr1); try done; try lia.
  pose proof (slot_bound L HL (nextCandidate s) (j0 + 1)) as Hsl.
  pose proof (view_with_next f s L A _ Hv Hsl) as Hv1.
  assert (∀ k, slot L (slot L (nextCandidate s) (j0 + 1)) k = slot L (nextCandidate s) (j0 + 1 + k)) as Hslot.
  { intros k. unfold slot. pose proof (nmax_pos L HL). rewrite Zplus_mod_idemp_l. f_equal. lia. }
  destruct (IH (evaluated + j0 + 1) st1 (with_next (slot L (nextCandidate s) (j0 + 1)) s) (j - j0 - 1))
    as (st' & s' & E & Hr & Hv' & Hp & Hn).
  - by eapply set_replaced_ok; [|exists L, A|].
  - by eapply set_at_replaced.
  - done.
  - lia.
  - lia.
  - lia.
  - intros k Hk. simpl. rewrite Hslot, (taken_moved st st1 l f s) by done. apply Hbelow. lia.
  - simpl. rewrite Hslot, (taken_moved st st1 l f s) by done. by replace (j0 + 1 + (j - j0 - 1)) with j by lia.
  - simpl in *. rewrite Hslot in E, Hv', Hn. replace (j0 + 1 + (j - j0 - 1)) with j in * by lia.
    replace (j0 + 1 + (j - j0 - 1 + 1)) with (j + 1) in Hn by lia.
    exists st', s'. split_and!; try done. by eapply set_replaced_trans.
Qed.

(** With every block taken the loop ends in the no-CIDRs-remaining error, and
    only the cursor moved. *)
Lemma allocateLoop_exhausted fuel evaluated st l f s L A : alloc_ok st → set_at st (l, f) = Some s → set_view f s L A →
  (∀ i, 0 ≤ i < nmax L → taken st f L A i) →
  ∃ st' n, allocateLoop fuel evaluated l (Some (l, f)) st = (Err (CIDRRangeNoCIDRsRemainingErr (Label s)), st')
    ∧ set_replaced l f (with_next n s) st st' ∧ 0 ≤ n < nmax L.
Proof using HNL HIL.
  revert evaluated st s. induction fuel as [|fuel IH]; intros evaluated st s Hok Hat Hv Hall.
  all: destruct (Hv) as [HL HW Hs]; pose proof (si_next _ _ _ Hs) as Hnx.
  all: assert (set_replaced l f (with_next (nextCandidate s) s) st st) as Hrefl
    by (destruct (set_at_obj st l f s Hat) as (c & Hc & Hcs); destruct s; by eapply set_replaced_refl).
  { exists st, (nextCandidate s). cbn [allocateLoop]. by mstep (readSet_run st l f s Hat). }
  destruct (decide (evaluated < nmax L)) as [He|He].
  2: { exists st, (nextCandidate s). cbn [allocateLoop]. mstep (readSet_run st l f s Hat).
       rewrite (sl_max L s) by apply Hs. by destruct (Z.ltb_spec evaluated (nmax L)). }
  destruct (decide (Z.of_nat (size A) = nmax L)) as [Hfull|Hnf].
  { pose proof (NextCandidate_full L A s (metrics st) Hs Hfull) as E.
    destruct (onSet_run st l f s _ _ _ _ Hat E) as (st1 & E1 & Hr1 & _).
    exists st1, (nextCandidate s). split; [|split; [|done]]; [|destruct s; exact Hr1].
    cbn [allocateLoop]. mstep (readSet_run st l f s Hat).
    rewrite (sl_max L s) by apply Hs. destruct (Z.ltb_spec evaluated (nmax L)); [|lia]. by mstep E1. }
  pose proof (alloc_size_bound L HL A s Hs).
  destruct (free_slot L HL A s (nextCandidate s) Hs Hnx) as (j & Hj & Hbelow & Hfree); [lia|].
  pose proof (slot_bound L HL (nextCandidate s)) as Hsl.
  destruct (Hall (slot L (nextCandidate s) j) (Hsl j)) as [|Hcf]; [done|].
  destruct (round_conflict fuel evaluated st l f s L A j Hok Hat Hv He Hj Hbelow Hfree Hcf) as (st1 & -> & Hr1).
  pose proof (view_with_next f s L A _ Hv (Hsl (j + 1))) as Hv1.
  destruct (IH (evaluated + j + 1) st1 (with_next (slot L (nextCandidate s) (j + 1)) s)) as (st' & n & E & Hr & Hn).
  - by eapply set_replaced_ok; [|exists L, A|].
  - by eapply set_at_replaced.
  - done.
  - intros i Hi. apply (taken_moved st st1 l f s L A _ i Hat Hv (Hsl (j + 1)) Hr1), Hall, Hi.
  - exists st', n. split_and!; [done| |apply Hn..]. exact (set_replaced_trans _ _ _ _ _ _ _ Hr1 Hr).
Qed.
(** More fuel than blocks left to look at changes nothing. *)
Lemma allocateLoop_fuel n1 n2 evaluated st l f s L A : alloc_ok st → set_at st (l, f) = Some s → set_view f s L A →
  0 ≤ evaluated → nmax L - evaluated ≤ Z.of_nat n1 → nmax L - evaluated ≤ Z.of_nat n2 →
  allocateLoop n1 evaluated l (Some (l, f)) st = allocateLoop n2 evaluated l (Some (l, f)) st.
Proof using HNL HIL.
  revert n2 evaluated st s. induction n1 as [|n1 IH]; intros n2 evaluated st s Hok Hat Hv He H1 H2.
  all: destruct (Hv) as [HL HW Hs]; pose proof (sl_max L s ltac:(apply Hs)) as Hmax.
  all: destruct n2 as [|n2]; [..|cbn [allocateLoop]; rewrite !(M_bind_Ok _ _ _ _ _ (readSet_run st l f s Hat)), Hmax];
    try (cbn [allocateLoop]; rewrite !(M_bind_Ok _ _ _ _ _ (readSet_run st l f s Hat)), ?Hmax);
    destruct (Z.ltb_spec evaluated (nmax L)); try done; try lia.
  destruct (decide (Z.of_nat (size A) = nmax L)) as [Hfull|Hnf].
  { pose proof (NextCandidate_full L A s (metrics st) Hs Hfull) as E.
    destruct (onSet_run st l f s _ _ _ _ Hat E) as (st1 & E1 & _). by rewrite !(M_bind_Ok _ _ _ _ _ E1). }
  pose proof (alloc_size_bound L HL A s Hs). pose proof (slot_bound L HL (nextCandidate s)) as Hsl.
  destruct (free_slot L HL A s (nextCandidate s) Hs (si_next _ _ _ Hs)) as (j & Hj & Hbelow & Hfree); [lia|].
  destruct (candidate_run st l f s L A j Hat Hv Hj Hbelow Hfree) as (st1 & E1 & Hr1).
  pose proof (view_with_next f s L A _ Hv (Hsl (j + 1))) as Hv1.
  pose proof (set_replaced_ok _ _ _ _ _ Hok (ex_intro _ L (ex_intro _ A Hv1)) Hr1) as Hok1.
  destruct (checks_run st1 f s L A (slot L (nextCandidate s) j) Hok1 Hv (Hsl j)) as (b1 & b2 & Eb1 & Eb2 & _).
  rewrite !(M_bind_Ok _ _ _ _ _ E1). cbn beta iota. rewrite !(M_bind_Ok _ _ _ _ _ Eb1). destruct b1.
  { eapply (IH n2 _ (with_iter st1)); [by apply alloc_ok_iter|by apply (set_at_replaced _ _ _ _ _ Hr1)|exact Hv1|lia..]. }
  rewrite !(M_bind_Ok _ _ _ _ _ Eb2). destruct b2; [|done].
  eapply (IH n2 _ (with_iter (with_iter st1)));
    [by do 2 apply alloc_ok_iter|by apply (set_at_replaced _ _ _ _ _ Hr1)|exact Hv1|lia..].
Qed.

(** [allocateCIDR] in full. *)
Lemma allocateCIDR_cases st l f s L A : alloc_ok st → set_at st (l, f) = Some s → set_view f s L A →
  (∃ j st' s', 0 ≤ j < nmax L ∧ (∀ k, 0 ≤ k < j → taken st f L A (slot L (nextCandidate s) k))
     ∧ ¬ taken st f L A (slot L (nextCandidate s) j)
     ∧ allocateCIDR l (Some (l, f)) st = (Ok (node_block L (slot L (nextCandidate s) j)), st')
     ∧ set_replaced l f s' st st' ∧ set_view f s' L ({[slot L (nextCandidate s) j]} ∪ A)
     ∧ params s' = params s ∧ nextCandidate s' = slot L (nextCandidate s) (j + 1))
  ∨ ((∀ i, 0 ≤ i < nmax L → taken st f L A i)
     ∧ ∃ st' n, allocateCIDR l (Some (l, f)) st = (Err (CIDRRangeNoCIDRsRemainingErr (Label s)), st')
       ∧ set_replaced l f (with_next n s) st st' ∧ 0 ≤ n < nmax L).
Proof using HNL HIL.
  intros Hok Hat Hv. destruct (Hv) as [HL HW Hs]. pose proof (nmax_pos L HL) as Hpos.
  assert (allocateCIDR l (Some (l, f)) st = allocateLoop (Z.to_nat (nmax L)) 0 l (Some (l, f)) st) as E.
  { unfold allocateCIDR. mstep (readSet_run st l f s Hat). by rewrite (sl_max L s) by apply Hs. }
  rewrite E. destruct (first_good st f s L A (nextCandidate s) (Z.to_nat (nmax L)) Hok Hv) as [Hall|(j & Hj & Hbelow & Hgood)].
  - right. assert (∀ i, 0 ≤ i < nmax L → taken st f L A i) as Htaken.
    { intros i Hi. specialize (Hall ((i - nextCandidate s) mod nmax L)).
      pose proof (Z.mod_pos_bound (i - nextCandidate s) (nmax L) Hpos).
      assert (slot L (nextCandidate s) ((i - nextCandidate s) mod nmax L) = i) as Es.
      { unfold slot. rewrite Zplus_mod_idemp_r. replace (nextCandidate s + (i - nextCandidate s)) with i by lia.
        by apply Z.mod_small. }
      rewrite Es in Hall. apply Hall. lia. }
    split; [done|]. by apply (allocateLoop_exhausted _ 0 st l f s L A).
  - left. destruct (allocateLoop_found (Z.to_nat (nmax L)) 0 st l f s L A j) as (st' & s' & H); try done; [lia|lia|].
    exists j, st', s'. split; [lia|]. by split_and!; try apply H.
Qed.
End allocate.
