(* ===== verification/MatchProps.v ===== *)
(** [orderedMatchingClusterCIDRs]: which ClusterCIDRs it returns and in which
    order.

    [candidates] is the specification: the ClusterCIDRs of every label whose
    selector matches the node, as queue items.  The function returns them sorted by
    the priority P0 to P4, followed by the list of the default selector. *)
From S2P Require Import Prelude GoNet CIDRTheory CIDRText NetUtils MultiCIDRSet IndexTheory IndexProps SetProps.
From S2P Require Import ContainerHeap PriorityQueue Kubernetes Allocator AllocatorInv AllocateProps.

Section matching.
Context `{HN : !NetUtils} `{HLb : !Labels} `{HC : !Cluster} `{HI : !MapIter}.
Context (HIL : MapIterLaws HI).
Implicit Types st : AllocState.

(** A terminating ClusterCIDR is offered for a release only. *)
Definition eligible (os : Store) (occupy : bool) (p : loc) : bool :=
  match os !! p with Some c => negb occupy || negb (Terminating c) | None => false end.

Definition itemsOf (os : Store) (occupy : bool) (label : string) (cnt : Z) (l : list loc) : list PriorityQueueItem :=
  (λ p, mkItem p cnt label 0) <$> filter (λ p, eligible os occupy p = true) l.

Definition labelItems (os : Store) (node : Node) (occupy : bool) (x : string * list loc) : list PriorityQueueItem :=
  match matchCIDRLabels node x.1 with
  | Ok (true, cnt) => itemsOf os occupy x.1 cnt x.2
  | _ => []
  end.

Definition candidates st (node : Node) (occupy : bool) : list PriorityQueueItem :=
  map_to_list (cidrMap st) ≫= labelItems (objs st) node occupy.

(** Every label of the map can be parsed. *)
Definition labels_ok st : Prop :=
  ∀ label, is_Some (cidrMap st !! label) → ∃ sel, labels_Parse label = inr sel.

Lemma labels_ok_match st node label : labels_ok st → is_Some (cidrMap st !! label) →
  ∃ m cnt, matchCIDRLabels node label = Ok (m, cnt).
Proof using.
  intros Hl [sel Hsel]%Hl. unfold matchCIDRLabels. rewrite Hsel.
  destruct (Requirements sel) as [reqs []]; by eexists _, _.
Qed.

Abbreviation pq_ok os := (queue_ok (elems:=fmap strip) (wf:=indexed) (ok:=item_ok os) (lt:=before os)).

Lemma item_ok_mapped st p cnt label : alloc_ok st → is_Some (objs st !! p) → item_ok (objs st) (mkItem p cnt label 0).
Proof using.
  intros Hok [c Hc]. exists c. split; [done|]. destruct (ao_objs _ Hok p c Hc) as [_ [[] Hf]]; [by left|by right].
Qed.

Lemma pushMatching_run st occupy label cnt l pq : alloc_ok st → (∀ p, p ∈ l → is_Some (objs st !! p)) →
  pq_ok (objs st) pq →
  ∃ pq', pushMatching occupy label cnt l pq st = (Ok pq', st) ∧ pq_ok (objs st) pq'
    ∧ strip <$> pq' ≡ₚ itemsOf (objs st) occupy label cnt l ++ (strip <$> pq).
Proof using.
  intros Hok. revert pq. induction l as [|p l IH]; intros pq Hl Hpq; [by exists pq|].
  destruct (Hl p) as [c Hc]; [by left|]. assert (∀ q, q ∈ l → is_Some (objs st !! q)) as Hl' by (intros q Hq; apply Hl; by right).
  assert (getObj p st = (Ok c, st)) as Eget by (unfold getObj, deref; by rewrite Hc).
  cbn [pushMatching]. mstep Eget. unfold itemsOf. rewrite filter_cons.
  assert (eligible (objs st) occupy p = negb occupy || negb (Terminating c)) as Heq by (unfold eligible; by rewrite Hc).
  destruct (negb occupy || negb (Terminating c)) eqn:Hel.
  - assert (item_ok (objs st) (strip (mkItem p cnt label 0))) as Hitem by (by apply item_ok_mapped; [|exists c]).
    destruct (Push_correct (HLaws:=PQ_laws (objs st)) pq (mkItem p cnt label 0) Hpq Hitem) as (pq1 & E1 & Hpq1 & Hp1).
    destruct (IH pq1 Hl' Hpq1) as (pq2 & E2 & Hpq2 & Hp2). exists pq2. rewrite decide_True by (by rewrite Heq).
    split; [|split; [done|]].
    + assert (get st = (Ok st, st)) as Eg by done. mstep Eg. unfold lift at 1. unfold mbind at 1, M_bind. by rewrite E1, E2.
    + rewrite Hp2, Hp1. cbn. by rewrite <- Permutation_middle.
  - rewrite decide_False by (by rewrite Heq). by apply IH.
Qed.

Lemma pushLabels_run st node occupy ls pq : alloc_ok st →
  (∀ x p, x ∈ ls → p ∈ x.2 → is_Some (objs st !! p)) →
  (∀ x, x ∈ ls → ∃ m cnt, matchCIDRLabels node x.1 = Ok (m, cnt)) → pq_ok (objs st) pq →
  ∃ pq', pushLabels node occupy ls pq st = (Ok pq', st) ∧ pq_ok (objs st) pq'
    ∧ strip <$> pq' ≡ₚ (ls ≫= labelItems (objs st) node occupy) ++ (strip <$> pq).
Proof using.
  intros Hok. revert pq. induction ls as [|[label l] ls IH]; intros pq Hls Hlab Hpq; [by exists pq|].
  destruct (Hlab (label, l)) as (m & cnt & Hm); [by left|]. simpl in Hm.
  assert (lift (matchCIDRLabels node label) st = (Ok (m, cnt), st)) as Em by (unfold lift; by rewrite Hm).
  cbn [pushLabels]. mstep Em. cbn [mbind list_bind]. unfold labelItems at 1. simpl fst. rewrite Hm.
  destruct m; cbn [negb].
  - destruct (pushMatching_run st occupy label cnt l pq Hok) as (pq1 & E1 & Hpq1 & Hp1);
      [intros p Hp; apply (Hls (label, l)); [by left|done]|done|].
    mstep E1. destruct (IH pq1) as (pq2 & E2 & Hpq2 & Hp2);
      [intros x p Hx; apply Hls; by right|intros x Hx; apply Hlab; by right|done|].
    exists pq2. split; [done|split; [done|]]. rewrite Hp2, Hp1. simpl snd. by rewrite !app_assoc, (Permutation_app_comm (_ ≫= _)).
  - apply IH; [intros x p Hx; apply Hls; by right|intros x Hx; apply Hlab; by right|done].
Qed.

(** The list the function returns for a state whose labels parse. *)
Lemma ordered_run st node occupy sel : alloc_ok st → labels_ok st →
  nodeSelectorAsSelector (Some defaultNodeSelector) = Ok sel →
  ∃ items, orderedMatchingClusterCIDRs node occupy st
      = (Ok ((item_clusterCIDR <$> items) ++ default [] (cidrMap st !! Selector_String sel)), with_iter st)
    ∧ items ≡ₚ candidates st node occupy ∧ StronglySorted (le (before (objs st))) items.
Proof using HIL.
  intros Hok Hlab Hsel. unfold orderedMatchingClusterCIDRs. mstep (rangeMap_run st).
  destruct (pushLabels_run (with_iter st) node occupy (iter_order (iters st) (cidrMap st)) []) as (pq & Epq & Hpq & Hp).
  - by apply alloc_ok_iter.
  - intros [label l] p Hx Hpl. apply (ao_mapped _ Hok). exists label, l. by rewrite <- (range_elem HIL).
  - intros [label l] Hx. apply (labels_ok_match st); [done|]. rewrite (range_elem HIL) in Hx. by eexists.
  - split; [by intros ? ?|by constructor|]. intros k Hk. simpl in Hk. lia.
  - mstep Epq. assert (get (with_iter st) = (Ok (with_iter st), with_iter st)) as Eg by done. mstep Eg.
    destruct (popAll_correct (HLaws:=PQ_laws (objs st)) (length pq) pq Hpq) as (items & E & Hperm & Hsort);
      [by rewrite length_fmap|].
    exists (strip <$> items). assert (lift (popAll (HI:=PQ_heap (objs st)) (length pq) pq) (with_iter st) = (Ok items, with_iter st)) as El
      by (unfold lift; by rewrite E).
    mstep El. assert (lift (nodeSelectorAsSelector (Some defaultNodeSelector)) (with_iter st) = (Ok sel, with_iter st)) as Es
      by (unfold lift; by rewrite Hsel).
    mstep Es. split; [|split; [|done]].
    + rewrite <- list_fmap_compose. simpl. destruct (cidrMap st !! Selector_String sel) as [l|]; simpl; [done|].
      by rewrite app_nil_r.
    + rewrite Hperm, Hp, app_nil_r. unfold candidates. simpl. by rewrite iter_perm.
Qed.

(** What a candidate is. *)
Lemma elem_of_candidates st node occupy x : x ∈ candidates st node occupy ↔
  ∃ l, cidrMap st !! selectorString x = Some l ∧ item_clusterCIDR x ∈ l ∧ index x = 0
    ∧ matchCIDRLabels node (selectorString x) = Ok (true, labelMatchCount x)
    ∧ eligible (objs st) occupy (item_clusterCIDR x) = true.
Proof using.
  unfold candidates. rewrite list_elem_of_bind. split.
  - intros ([label l] & Hx & Hl%elem_of_map_to_list). unfold labelItems in Hx. simpl in Hx.
    destruct (matchCIDRLabels node label) as [[[] cnt]| |] eqn:Hm; try by apply elem_of_nil in Hx.
    apply list_elem_of_fmap in Hx as (p & -> & [Hel Hp]%list_elem_of_filter). by exists l.
  - intros (l & Hl & Hx & Hi & Hm & Hel). exists (selectorString x, l). split; [|by apply elem_of_map_to_list].
    unfold labelItems. simpl. rewrite Hm. apply list_elem_of_fmap. exists (item_clusterCIDR x).
    split; [destruct x; simpl in *; congruence|]. by apply list_elem_of_filter.
Qed.
(** Every ClusterCIDR the function returns is mapped. *)
Lemma ordered_mapped st node occupy sel (items : list PriorityQueueItem) : items ≡ₚ candidates st node occupy →
  ∀ cc, cc ∈ (item_clusterCIDR <$> items) ++ default [] (cidrMap st !! Selector_String sel) → mapped st cc.
Proof using.
  intros Hperm cc [Hcc|Hcc]%elem_of_app.
  - apply list_elem_of_fmap in Hcc as (x & -> & Hx). rewrite Hperm in Hx.
    apply elem_of_candidates in Hx as (l & Hl & Hin & _). by exists (selectorString x), l.
  - destruct (cidrMap st !! Selector_String sel) as [l|] eqn:Hl; [|by apply elem_of_nil in Hcc].
    by exists (Selector_String sel), l.
Qed.
End matching.
