(* ===== verification/NodeProps.v ===== *)
(** Allocation for a node: [prioritizedCIDRs] walks the matching ClusterCIDRs and
    takes one block per family from the first that can give them all.

    [used st f x]: the address [x] is in a block allocated in some mapped set.
    [grows]: nothing allocated is given back, and nothing but the sets changes;
    a walk that passes over a ClusterCIDR may leave blocks of it behind, so the
    specification compares the result with the state the walk started in. *)
From S2P Require Import Prelude GoNet CIDRTheory CIDRText NetUtils MultiCIDRSet IndexTheory IndexProps SetProps.
From S2P Require Import ContainerHeap PriorityQueue Kubernetes Allocator NodeHandlers AllocatorInv AllocateProps MatchProps.

Section growth.
Context `{HC : !Cluster}.
Implicit Types st : AllocState.

Definition used st (f : family) (x : Z) : Prop :=
  ∃ l s, mapped st l ∧ set_at st (l, f) = Some s ∧ uses f s x.

(** What a ClusterCIDR object has besides its sets. *)
Definition frame (c : ClusterCIDR) : string * gmap string bool * bool := (Name c, AssociatedNodes c, Terminating c).

Definition set_grows (f : family) (s s' : MultiCIDRSet) : Prop :=
  params s' = params s ∧ ∀ L A, set_view f s L A → ∃ A', set_view f s' L A' ∧ A ⊆ A'.

Record grows st st' : Prop := {
  gr_env : same_env st st';
  gr_frame l : frame <$> objs st' !! l = frame <$> objs st !! l;
  gr_none l f : set_at st (l, f) = None → set_at st' (l, f) = None;
  gr_set l f s : set_at st (l, f) = Some s → ∃ s', set_at st' (l, f) = Some s' ∧ set_grows f s s'
}.

#[export] Instance set_grows_preorder f : PreOrder (set_grows f).
Proof.
  split.
  - intros s. split; [done|]. intros L A Hv. by exists A.
  - intros s1 s2 s3 [P12 H12] [P23 H23]. split; [congruence|]. intros L A Hv.
    destruct (H12 L A Hv) as (A2 & Hv2 & ?). destruct (H23 L A2 Hv2) as (A3 & Hv3 & ?).
    exists A3. split; [done|]. by etransitivity.
Qed.

#[export] Instance grows_preorder : PreOrder grows.
Proof.
  split.
  - intros st. split; [done|done|done|]. intros l f s Hs. exists s. split; [done|]. reflexivity.
  - intros st1 st2 st3 [] []. split; [by etransitivity|intros; congruence|by eauto|].
    intros l f s Hs. destruct (gr_set0 l f s Hs) as (s2 & Hs2 & ?). destruct (gr_set1 l f s2 Hs2) as (s3 & Hs3 & ?).
    exists s3. split; [done|]. by etransitivity.
Qed.

Lemma set_replaced_grows st st' l f s s' : set_at st (l, f) = Some s → set_replaced l f s' st st' →
  set_grows f s s' → grows st st'.
Proof using.
  intros (c & Hc & Hs)%set_at_Some Hr Hg. pose proof Hr as [Hse (c' & Hc' & E)]. simplify_eq. split.
  - done.
  - intros k. rewrite E, lookup_insert. case_decide; [|done]. subst k. rewrite Hc. simpl. by destruct f.
  - intros k g Hk. unfold set_at in *. simpl in *. destruct (decide ((k, g) = (l, f))) as [Ekg|Hne].
    + simplify_eq. rewrite Hc in Hk. simpl in Hk. congruence.
    + by rewrite (set_replaced_other _ _ _ _ _ k g Hr Hne).
  - intros k g r Hk. unfold set_at in *. simpl in *. destruct (decide ((k, g) = (l, f))) as [Ekg|Hne].
    + simplify_eq. rewrite Hc in Hk. simpl in Hk. simplify_eq. exists s'. split; [|done].
      apply (set_replaced_lookup _ _ _ _ _ Hr).
    + rewrite (set_replaced_other _ _ _ _ _ k g Hr Hne). exists r. split; [done|]. reflexivity.
Qed.

Lemma set_grows_uses f s s' x : set_grows f s s' → uses f s x → uses f s' x.
Proof using. intros [_ Hg] (L & A & i & Hv & Hi & Hx). destruct (Hg L A Hv) as (A' & Hv' & HA). exists L, A', i. set_solver. Qed.

(** Growth keeps addresses in use. *)
Lemma grows_used st st' f x : grows st st' → used st f x → used st' f x.
Proof using.
  intros Hg (l & s & Hm & Hs & Hu). destruct (gr_set _ _ Hg l f s Hs) as (s' & Hs' & Hsg).
  exists l, s'. split; [|split; [done|by eapply set_grows_uses]]. eapply same_mapped; [apply Hg|done].
Qed.

Lemma view_grows f s s' L A A' : set_view f s L A → set_view f s' L A' → A ⊆ A' → params s' = params s → set_grows f s s'.
Proof using.
  intros Hv Hv' HA Hp. split; [done|]. intros L1 A1 Hv1. destruct (set_view_unique _ _ _ _ _ _ Hv Hv1) as [<- <-].
  by exists A'.
Qed.
End growth.

Section nodes.
Context `{HN : !NetUtils} `{HLb : !Labels} `{HC : !Cluster} `{HI : !MapIter}.
Context (HNL : NetUtilsLaws HN) (HIL : MapIterLaws HI).
Implicit Types st : AllocState.

(** [b] is a node block of the set of [cc] whose addresses nothing in [st] uses
    and which [st'] records as allocated. *)
Definition fresh_block st st' (cc : loc) (f : family) (b : IPNet) : Prop :=
  ∃ s L A i, set_at st (cc, f) = Some s ∧ set_view f s L A ∧ 0 ≤ i < nmax L ∧ b = node_block L i
    ∧ (∀ x, in_block (width L) (node_addr L i) (nlen L) x → ¬ used st f x ∧ ¬ uses f s x)
    ∧ ∃ s' A', set_at st' (cc, f) = Some s' ∧ set_view f s' L A' ∧ i ∈ A'.

(** Every block of the set of [cc] is in use or shares an address with one in use. *)
Definition exhausted st (cc : loc) (f : family) : Prop :=
  ∃ s L A, set_at st (cc, f) = Some s ∧ set_view f s L A ∧ ∀ i, 0 ≤ i < nmax L → taken st f L A i.

Lemma fresh_later st0 st1 st2 cc f b : grows st0 st1 → fresh_block st1 st2 cc f b → is_Some (set_at st0 (cc, f)) →
  alloc_ok st0 → fresh_block st0 st2 cc f b.
Proof using.
  intros Hg (s1 & L & A1 & i & Hs1 & Hv1 & Hi & -> & Hfree & s2 & A2 & Hs2 & Hv2 & Hi2) [s0 Hs0] Hok.
  destruct (gr_set _ _ Hg cc f s0 Hs0) as (s1' & Hs1' & Hsg). rewrite Hs1 in Hs1'. injection Hs1' as <-.
  assert (set_ok f s0) as (L0 & A0 & Hv0).
  { apply set_at_Some in Hs0 as (c & Hc & Hcs). by eapply co_sets; [eapply ao_objs|]. }
  destruct Hsg as [Hp Hsg]. destruct (Hsg L0 A0 Hv0) as (A1' & Hv1' & HA).
  destruct (set_view_unique _ _ _ _ _ _ Hv1 Hv1') as [<- <-].
  exists s0, L, A0, i. split_and!; [done|done|apply Hi..|done| |by exists s2, A2].
  intros x Hx. destruct (Hfree x Hx) as [H1 H2]. split; intros Hu.
  - by apply H1, (grows_used st0).
  - apply H2. eapply set_grows_uses; [|exact Hu]. by split.
Qed.

Lemma not_taken_free st f s L A i : set_view f s L A → ¬ taken st f L A i → 0 ≤ i < nmax L →
  ∀ x, in_block (width L) (node_addr L i) (nlen L) x → ¬ used st f x ∧ ¬ uses f s x.
Proof using.
  intros Hv Hn Hi x Hx. destruct (Hv) as [HL _ _]. split.
  - intros (l & s' & Hm & Hs' & Hu). apply Hn. right. by exists l, s', x.
  - rewrite (uses_view f s L A) by done. intros (j & Hj & Hxj). apply Hn. left.
    apply (index_of_in_block L HL) in Hx, Hxj. congruence.
Qed.

(** One family of one ClusterCIDR. *)
Lemma allocateFamily_run st cc c f cidrs : alloc_ok st → objs st !! cc = Some c →
  ∃ r st', allocateFamily cc f cidrs st = (Ok r, st') ∧ alloc_ok st' ∧ grows st st'
    ∧ match set_at st (cc, f) with
      | None => r = Some cidrs
      | Some s => (∃ b, r = Some (cidrs ++ [b]) ∧ fresh_block st st' cc f b) ∨ (r = None ∧ exhausted st cc f)
      end.
Proof using HNL HIL.
  intros Hok Hc. assert (getObj cc st = (Ok c, st)) as Eg by (unfold getObj, deref; by rewrite Hc).
  unfold allocateFamily. mstep Eg. assert (set_at st (cc, f) = get_set f c) as Eat by (unfold set_at; simpl; by rewrite Hc).
  rewrite Eat. destruct (get_set f c) as [s|] eqn:Hs.
  2: { eexists _, st. split; [done|]. split; [done|]. split; [reflexivity|done]. }
  assert (set_ok f s) as (L & A & Hv) by (by eapply co_sets; [eapply ao_objs|]).
  pose proof (slot_bound L (sv_ok _ _ _ _ Hv) (nextCandidate s)) as Hsl.
  destruct (allocateCIDR_cases HNL HIL st cc f s L A Hok Eat Hv)
    as [(j & st' & s' & Hj & _ & Hgood & E & Hr & Hv' & Hp & _)|(Hall & st' & n & E & Hr & Hn)].
  - mstep (attempt_Ok _ _ _ _ E). eexists _, st'. split; [done|]. split; [|split].
    + eapply set_replaced_ok; [done| |exact Hr]. by eexists _, _.
    + eapply set_replaced_grows; [exact Eat|exact Hr|]. apply (view_grows f s s' L A _ Hv Hv'); [set_solver|done].
    + left. eexists. split; [done|]. exists s, L, A, (slot L (nextCandidate s) j).
      split_and!; [done|done|apply Hsl..|done|by apply (not_taken_free st f s L A)|].
      eexists s', _. split; [apply (set_replaced_lookup _ _ _ _ _ Hr)|]. split; [done|set_solver].
  - mstep (attempt_Err _ _ _ _ E). pose proof (view_with_next f s L A n Hv Hn) as Hv'. eexists _, st'. split; [done|]. split; [|split].
    + eapply set_replaced_ok; [done| |exact Hr]. by eexists _, _.
    + eapply set_replaced_grows; [exact Eat|exact Hr|]. by apply (view_grows f s _ L A A Hv Hv').
    + right. split; [done|]. by exists s, L, A.
Qed.

(** The CIDRs of one family: none without a set, else one fresh block. *)
Definition family_cidrs st st' cc f (l : list IPNet) : Prop :=
  match set_at st (cc, f) with
  | None => l = []
  | Some _ => ∃ b, l = [b] ∧ fresh_block st st' cc f b
  end.

(** The blocks [cc] gave: one per set it has, IPv4 first. *)
Definition allocated_for st st' cc (cidrs : list IPNet) : Prop :=
  ∃ l4 l6, cidrs = l4 ++ l6 ∧ family_cidrs st st' cc V4 l4 ∧ family_cidrs st st' cc V6 l6.

Lemma fresh_grows st st1 st2 cc f b : grows st1 st2 → fresh_block st st1 cc f b → fresh_block st st2 cc f b.
Proof using.
  intros Hg (s & L & A & i & Hs & Hv & Hi & -> & Hfree & s1 & A1 & Hs1 & Hv1 & Hi1).
  destruct (gr_set _ _ Hg cc f s1 Hs1) as (s2 & Hs2 & _ & Hsg). destruct (Hsg L A1 Hv1) as (A2 & Hv2 & HA).
  exists s, L, A, i. split_and!; [done|done|apply Hi..|done|done|]. exists s2, A2. split_and!; [done|done|by apply HA].
Qed.
(** The object of a mapped pointer stays, with the same sets present. *)
Lemma grows_obj st st' l : grows st st' → is_Some (objs st !! l) → is_Some (objs st' !! l).
Proof using.
  intros Hg [c Hc]. pose proof (gr_frame _ _ Hg l) as Hf. rewrite Hc in Hf. apply fmap_Some in Hf as (c' & Hc' & _). by exists c'.
Qed.

Lemma grows_present st st' l f : grows st st' → is_Some (set_at st' (l, f)) → is_Some (set_at st (l, f)).
Proof using.
  intros Hg [s' Hs']. destruct (set_at st (l, f)) as [s|] eqn:E; [by eexists|]. by rewrite (gr_none _ _ Hg l f E) in Hs'.
Qed.

(** A family's blocks are taken by that family's sets alone. *)
Lemma exhausted_same st st' cc f : (∀ l, mapped st' l → mapped st l) → (∀ l, set_at st' (l, f) = set_at st (l, f)) →
  exhausted st' cc f → exhausted st cc f.
Proof using.
  intros Hm Hset (s & L & A & Hs & Hv & Hall). exists s, L, A. split; [by rewrite <- Hset|]. split; [done|].
  intros i Hi. destruct (Hall i Hi) as [|(l & s' & x & Hl & Hs' & Hu)]; [by left|right]. exists l, s', x.
  split; [by apply Hm|]. split; [by rewrite <- Hset|done].
Qed.

Lemma fresh_not_exhausted st st' cc f b : fresh_block st st' cc f b → ¬ exhausted st cc f.
Proof using.
  intros (s & L & A & i & Hs & Hv & Hi & _ & Hfree & _) (s' & L' & A' & Hs' & Hv' & Hall). rewrite Hs in Hs'. injection Hs' as <-.
  destruct (set_view_unique _ _ _ _ _ _ Hv Hv') as [<- <-]. pose proof (sv_ok _ _ _ _ Hv) as HL.
  destruct (Hall i Hi) as [HA|(l & s' & x & Hl & Hs' & Hu & Hx)].
  - destruct (Hfree (node_addr L i)) as [_ Hn]; [apply (index_of_in_block L HL), (index_of_node_addr L HL)|].
    apply Hn, (uses_view f s L A); [done|]. exists i. split; [done|]. apply (index_of_in_block L HL), (index_of_node_addr L HL).
  - destruct (Hfree x Hx) as [Hn _]. apply Hn. by exists l, s'.
Qed.

Lemma allocated_not_exhausted st st' cc cidrs f : allocated_for st st' cc cidrs → ¬ exhausted st cc f.
Proof using.
  intros (l4 & l6 & _ & H4 & H6) Hex. pose proof Hex as (s & L & A & Hs & _).
  assert (∃ l, family_cidrs st st' cc f l) as [l Hl] by (destruct f; by eexists). unfold family_cidrs in Hl. rewrite Hs in Hl.
  destruct Hl as (b & _ & Hb). by apply fresh_not_exhausted in Hb.
Qed.

(** One family leaves the sets of the other as they are. *)
Lemma allocateFamily_other st cc c f g cidrs : alloc_ok st → objs st !! cc = Some c → f ≠ g →
  ∀ l, set_at (allocateFamily cc f cidrs st).2 (l, g) = set_at st (l, g).
Proof using HNL HIL.
  intros Hok Hc Hne l. assert (getObj cc st = (Ok c, st)) as Eg by (unfold getObj, deref; by rewrite Hc).
  unfold allocateFamily. mstep Eg. assert (set_at st (cc, f) = get_set f c) as Eat by (unfold set_at; simpl; by rewrite Hc).
  destruct (get_set f c) as [s|] eqn:Hs; [|done].
  assert (set_ok f s) as (L & A & Hv) by (by eapply co_sets; [eapply ao_objs|]).
  destruct (allocateCIDR_cases HNL HIL st cc f s L A Hok Eat Hv)
    as [(j & st' & s' & _ & _ & _ & E & Hr & _)|(_ & st' & n & E & Hr & _)].
  - mstep (attempt_Ok _ _ _ _ E). apply (set_replaced_other _ _ _ _ _ l g Hr). congruence.
  - mstep (attempt_Err _ _ _ _ E). apply (set_replaced_other _ _ _ _ _ l g Hr). congruence.
Qed.

(** One ClusterCIDR: both families, or none with a family exhausted. *)
Lemma tryClusterCIDR_run st cc : alloc_ok st → is_Some (objs st !! cc) →
  ∃ r st', tryClusterCIDR cc st = (Ok r, st') ∧ alloc_ok st' ∧ grows st st'
    ∧ match r with
      | Some (cidrs, cc') => cc' = cc ∧ allocated_for st st' cc cidrs
      | None => ∃ f, exhausted st cc f
      end.
Proof using HNL HIL.
  intros Hok [c Hc]. destruct (allocateFamily_run st cc c V4 [] Hok Hc) as (r4 & st1 & E4 & Hok1 & Hg1 & H4).
  unfold tryClusterCIDR. mstep E4.
  assert (r4 = None ∧ exhausted st cc V4 ∨ ∃ l4, r4 = Some l4 ∧ family_cidrs st st1 cc V4 l4) as [[-> Hex]|(l4 & -> & Hl4)].
  { unfold family_cidrs. destruct (set_at st (cc, V4)) as [s|]; [|right; by eexists].
    destruct H4 as [(b & -> & Hb)|[-> Hex]]; [right; exists [b]; split; [done|by exists b]|by left]. }
  { exists None, st1. split; [done|]. split; [done|]. split; [done|]. by exists V4. }
  destruct (grows_obj st st1 cc Hg1) as [c1 Hc1]; [by exists c|].
  destruct (allocateFamily_run st1 cc c1 V6 l4 Hok1 Hc1) as (r6 & st2 & E6 & Hok2 & Hg2 & H6). mstep E6.
  assert (grows st st2) as Hg by (by etransitivity).
  destruct r6 as [cidrs|].
  2: { exists None, st2. split; [done|]. split; [done|]. split; [done|].
       destruct (set_at st1 (cc, V6)); [|done]. destruct H6 as [(b & ? & _)|[_ Hex]]; [done|]. exists V6.
       eapply (exhausted_same st st1); [intros l; unfold mapped; by rewrite (se_map _ _ (gr_env _ _ Hg1))| |exact Hex].
       intros l. pose proof (allocateFamily_other st cc c V4 V6 [] Hok Hc ltac:(done) l) as Ho. by rewrite E4 in Ho. }
  exists (Some (cidrs, cc)), st2. split; [done|]. split; [done|]. split; [done|]. split; [done|].
  assert (family_cidrs st st2 cc V4 l4) as H42.
  { unfold family_cidrs in *. destruct (set_at st (cc, V4)); [|done]. destruct Hl4 as (b & -> & Hb).
    exists b. split; [done|by apply (fresh_grows st st1 st2)]. }
  destruct (set_at st1 (cc, V6)) as [s6|] eqn:E1.
  - destruct H6 as [(b & Eb & Hb)|[? _]]; [|done]. injection Eb as ->. exists l4, [b]. split; [done|]. split; [done|].
    unfold family_cidrs. destruct (grows_present st st1 cc V6 Hg1) as [s Hs]; [by exists s6|]. rewrite Hs.
    exists b. split; [done|]. eapply fresh_later; [exact Hg1|done|by exists s|done].
  - injection H6 as ->. exists l4, []. split; [by rewrite app_nil_r|]. split; [done|].
    unfold family_cidrs. destruct (set_at st (cc, V6)) as [s|] eqn:Hs; [|done].
    destruct (gr_set _ _ Hg1 cc V6 s Hs) as (s' & Hs' & _). congruence.
Qed.

Lemma allocated_later st0 st1 st2 cc cidrs : alloc_ok st0 → grows st0 st1 → allocated_for st1 st2 cc cidrs →
  allocated_for st0 st2 cc cidrs.
Proof using.
  intros Hok Hg (l4 & l6 & -> & H4 & H6). exists l4, l6. split; [done|].
  assert (∀ f l, family_cidrs st1 st2 cc f l → family_cidrs st0 st2 cc f l) as Hf; [|by split; apply Hf].
  intros f l. unfold family_cidrs. destruct (set_at st0 (cc, f)) as [s0|] eqn:H0.
  - destruct (gr_set _ _ Hg cc f s0 H0) as (s1 & -> & _). intros (b & -> & Hb). exists b. split; [done|].
    eapply fresh_later; [exact Hg|done|by exists s0|done].
  - by rewrite (gr_none _ _ Hg cc f H0).
Qed.

(** The walk over the matching ClusterCIDRs: each one passed over had, in the state
    the walk came to it in, a family without a free block. *)
Inductive passes : list loc → AllocState → AllocState → Prop :=
| passes_nil st : passes [] st st
| passes_cons cc ls f st st1 st2 : exhausted st cc f → tryClusterCIDR cc st = (Ok None, st1) → passes ls st1 st2 → passes (cc :: ls) st st2.

Lemma walk_run st ls : alloc_ok st → (∀ cc, cc ∈ ls → is_Some (objs st !! cc)) →
  ∃ r st', forReturn ls tryClusterCIDR st = (Ok r, st') ∧ alloc_ok st' ∧ grows st st'
    ∧ match r with
      | Some (cidrs, cc) => ∃ pre post st1, ls = pre ++ cc :: post ∧ passes pre st st1 ∧ alloc_ok st1 ∧ grows st st1
          ∧ tryClusterCIDR cc st1 = (Ok (Some (cidrs, cc)), st') ∧ allocated_for st1 st' cc cidrs
      | None => passes ls st st'
      end.
Proof using HNL HIL.
  revert st. induction ls as [|cc ls IH]; intros st Hok Hls.
  { exists None, st. split; [done|]. split; [done|]. split; [done|]. constructor. }
  destruct (tryClusterCIDR_run st cc Hok) as (r & st1 & E & Hok1 & Hg1 & Hr); [apply Hls; by left|]. destruct r as [[cidrs cc']|].
  - destruct Hr as [-> Ha]. rewrite (forReturn_stop _ _ _ _ _ _ E). exists (Some (cidrs, cc)), st1.
    split; [done|]. split; [done|]. split; [done|]. exists [], ls, st. split_and!; [done|constructor|done|reflexivity|done|done].
  - rewrite (forReturn_next _ _ _ _ _ E). destruct Hr as [f Hex]. destruct (IH st1 Hok1) as (r & st2 & E2 & Hok2 & Hg2 & Hr2).
    { intros k Hk. apply (grows_obj st); [done|]. apply Hls. by right. }
    exists r, st2. split; [done|]. split; [done|]. split; [by etransitivity|]. destruct r as [[cidrs k]|]; [|by econstructor].
    destruct Hr2 as (pre & post & st3 & -> & Hp & Hok3 & Hg3 & E3 & Ha). exists (cc :: pre), post, st3.
    split_and!; [done|by econstructor|done|by etransitivity|done|done].
Qed.

(** The whole of [prioritizedCIDRs]. *)
Definition unavailable (node : Node) : error := Errorf "unable to get a clusterCIDR for node %s, no available CIDRs" [node_Name node].

Lemma prioritized_walk st node sel : alloc_ok st → labels_ok st → nodeSelectorAsSelector (Some defaultNodeSelector) = Ok sel →
  ∃ ls st0 st', orderedMatchingClusterCIDRs node true st = (Ok ls, st0) ∧ alloc_ok st' ∧ grows st st' ∧
    ((∃ cidrs cc pre post st1, ls = pre ++ cc :: post ∧ passes pre st0 st1 ∧ (∀ f, ¬ exhausted st1 cc f) ∧ allocated_for st1 st' cc cidrs
        ∧ prioritizedCIDRs node st = (Ok (cidrs, cc), st') ∧ allocated_for st st' cc cidrs)
     ∨ (passes ls st0 st' ∧ prioritizedCIDRs node st = (Err (unavailable node), st'))).
Proof using HNL HIL.
  intros Hok Hlab Hsel.
  destruct (ordered_run HIL st node true sel Hok Hlab Hsel) as (items & E & Hperm & _).
  set (ls := (item_clusterCIDR <$> items) ++ default [] (cidrMap st !! Selector_String sel)) in *.
  assert (∀ cc, cc ∈ ls → is_Some (objs (with_iter st) !! cc)) as Hls.
  { intros cc Hcc. by apply (ao_mapped _ Hok), (ordered_mapped st node true sel items Hperm). }
  assert (grows st (with_iter st)) as Hgi.
  { split; [by split|done|done|]. intros l f s Hs. exists s. split; [done|reflexivity]. }
  destruct (walk_run (with_iter st) ls (alloc_ok_iter st Hok) Hls) as (r & st' & Er & Hok' & Hg & Hr).
  exists ls, (with_iter st), st'. split; [done|]. split; [done|]. split; [by etransitivity|].
  unfold prioritizedCIDRs. mstep (wrapErr_Ok (ErrorfW "unable to get a clusterCIDR for node %s: %w" [node_Name node]) _ _ _ _ E).
  mstep Er. destruct r as [[cidrs cc]|]; [left|by right].
  destruct Hr as (pre & post & st1 & Els & Hp & Hok1 & Hg1 & _ & Ha). exists cidrs, cc, pre, post, st1.
  split_and!; [done|done|intros f; by eapply allocated_not_exhausted|done|done|].
  apply (allocated_later st st1 st'); [done|by etransitivity|done].
Qed.

Lemma prioritized_run st node sel : alloc_ok st → labels_ok st → nodeSelectorAsSelector (Some defaultNodeSelector) = Ok sel →
  ∃ ls st', (orderedMatchingClusterCIDRs node true st).1 = Ok ls ∧ alloc_ok st' ∧ grows st st' ∧
    ((∃ cidrs cc, prioritizedCIDRs node st = (Ok (cidrs, cc), st') ∧ cc ∈ ls ∧ allocated_for st st' cc cidrs)
     ∨ ((∃ e, prioritizedCIDRs node st = (Err e, st')) ∧ ∃ st0, passes ls st0 st')).
Proof using HNL HIL.
  intros Hok Hlab Hsel. destruct (prioritized_walk st node sel Hok Hlab Hsel) as (ls & st0 & st' & E & Hok' & Hg & Hr).
  exists ls, st'. rewrite E. split; [done|]. split; [done|]. split; [done|].
  destruct Hr as [(cidrs & cc & pre & post & st1 & -> & _ & _ & _ & Ep & Ha)|[Hp Ep]]; [left|right].
  - exists cidrs, cc. split; [done|]. split; [apply elem_of_app; right; by left|done].
  - split; [by eexists|by exists st0].
Qed.
End nodes.
