(* ===== verification/Reference.v ===== *)
(** Concrete instances of the parameters, on which the theorems are evaluated.

    [refLabels] is a label package for the selectors "key", "key in (value)" and
    "key notin (value)"; [refCluster] an API server that answers from maps, fails
    its calls as scripted and logs them; [refIter] walks maps in key order. *)
From Stdlib Require Import Ascii.
From S2P Require Import Prelude GoNet CIDRTheory CIDRText NetUtils MultiCIDRSet ContainerHeap PriorityQueue Kubernetes Validation Allocator NodeHandlers ClusterCIDRHandlers EventHandlers.

(** * Labels *)

Definition refRequirement : Type := string * SelectionOperator * list string.

Definition refMatches (r : refRequirement) (labels : gmap string string) : bool :=
  let '(k, op, vs) := r in
  match op, labels !! k with
  | selection_In, Some v => existsb (String.eqb v) vs
  | selection_NotIn, Some v => negb (existsb (String.eqb v) vs)
  | selection_NotIn, None => true
  | selection_Exists, Some _ => true
  | selection_DoesNotExist, None => true
  | _, _ => false
  end.

Definition refRequirementString (r : refRequirement) : string :=
  let '(k, op, vs) := r in
  match op with
  | selection_In => k +:+ " in (" +:+ join "," vs +:+ ")"
  | selection_NotIn => k +:+ " notin (" +:+ join "," vs +:+ ")"
  | selection_Exists => k
  | selection_DoesNotExist => "!" +:+ k
  | selection_GreaterThan => k +:+ ">" +:+ join "," vs
  | selection_LessThan => k +:+ "<" +:+ join "," vs
  end.

(** "(v)" without its parentheses. *)
Definition unparen (s : string) : string := String.substring 1 (String.length s - 2) s.

Definition refParseRequirement (s : string) : option refRequirement :=
  match split_on " "%char s with
  | [k] => Some (k, selection_Exists, [])
  | [k; op; v] =>
      if String.eqb op "in" then Some (k, selection_In, [unparen v])
      else if String.eqb op "notin" then Some (k, selection_NotIn, [unparen v])
      else None
  | _ => None
  end.

Definition refParse (s : string) : error + list refRequirement :=
  if String.eqb s EmptyString then inr []
  else match mapM refParseRequirement (split_on ","%char s) with
       | Some l => inr l
       | None => inl (Errorf "couldn't parse the selector string" [s])
       end.

Definition refLabels : Labels := {|
  Selector := option (list refRequirement);
  Requirement := refRequirement;
  labels_Parse s := match refParse s with inl e => inl e | inr l => inr (Some l) end;
  Requirements s := match s with Some l => (l, true) | None => ([], false) end;
  Requirement_Matches := refMatches;
  NewRequirement k op vs := inr (k, op, vs);
  labels_Nothing := None;
  labels_Everything := Some [];
  labels_NewSelector := Some [];
  Selector_Add s rs := match s with Some l => Some (l ++ rs) | None => None end;
  Selector_String s := match s with Some l => join "," (refRequirementString <$> l) | None => EmptyString end
|}.

Lemma refLabels_laws : LabelsLaws refLabels.
Proof. split; try done; by intros [l|]. Qed.

(** * The API server *)

Inductive refCall : Type :=
| CallPatch (node : string) (cidrs : list string)
| CallCreate (c : v1ClusterCIDR)
| CallUpdate (c : v1ClusterCIDR)
| CallDone (q : QueueName) (key : string)
| CallForget (q : QueueName) (key : string)
| CallAddRateLimited (q : QueueName) (key : string).

Record refWorld : Type := mkWorld {
  w_nodes : gmap string Node;
  w_ccs : gmap string v1ClusterCIDR;
  w_keys : list string;
  w_results : list (option error);
  w_log : list refCall
}.

(** The next scripted result; success when the script is over. *)
Definition refCallAPI (c : refCall) (w : refWorld) : option error * refWorld :=
  match w_results w with
  | [] => (None, mkWorld (w_nodes w) (w_ccs w) (w_keys w) [] (w_log w ++ [c]))
  | r :: rs => (r, mkWorld (w_nodes w) (w_ccs w) (w_keys w) rs (w_log w ++ [c]))
  end.

Definition refLog (c : refCall) (w : refWorld) : refWorld :=
  mkWorld (w_nodes w) (w_ccs w) (w_keys w) (w_results w) (w_log w ++ [c]).

Definition refLookup {A} (m : gmap string A) (k : string) : error + A :=
  match m !! k with Some a => inr a | None => inl (ApiError "NotFound") end.

Fixpoint refBackoff (n : nat) (S : Type) (f : S → (error + bool) * S) (s : S) : option error * S :=
  match n with
  | O => (Some (Errorf "timed out waiting for the condition" []), s)
  | Datatypes.S n =>
      match f s with
      | (inl e, s) => (Some e, s)
      | (inr true, s) => (None, s)
      | (inr false, s) => refBackoff n S f s
      end
  end.

Definition refCluster : Cluster := {|
  World := refWorld;
  nodeLister_Get w := refLookup (w_nodes w);
  clusterCIDRLister_Get w := refLookup (w_ccs w);
  PatchNodeCIDRs n l := refCallAPI (CallPatch n l);
  networkClient_List w := (inr (map_to_list (w_ccs w)).*2, w);
  networkClient_Create c := refCallAPI (CallCreate c);
  networkClient_Update c := refCallAPI (CallUpdate c);
  queue_Get q w := match w_keys w with
                   | [] => (None, w)
                   | k :: ks => (Some k, mkWorld (w_nodes w) (w_ccs w) ks (w_results w) (w_log w))
                   end;
  queue_Done q k := refLog (CallDone q k);
  queue_Forget q k := refLog (CallForget q k);
  queue_AddRateLimited q k := refLog (CallAddRateLimited q k);
  ExponentialBackoff S b f s := refBackoff (Z.to_nat (Steps b)) S f s
|}.

(** Objects are their keys, with a version. *)
Definition refQueueAdd (q : QueueName) (key : string) (w : refWorld) : refWorld :=
  mkWorld (w_nodes w) (w_ccs w) (w_keys w ++ [key]) (w_results w) (w_log w).

Definition refInformers : Informers (H:=refCluster) :=
  Build_Informers refCluster (string * Z) (λ o, inr o.1) (λ o, inr o.1) (λ a b, bool_decide (a = b)) refQueueAdd.

(** * Validation *)

#[export] Instance NodeSelectorRequirement_eq_dec : EqDecision NodeSelectorRequirement.
Proof. solve_decision. Defined.
#[export] Instance NodeSelectorTerm_eq_dec : EqDecision NodeSelectorTerm.
Proof. solve_decision. Defined.
#[export] Instance NodeSelector_eq_dec : EqDecision NodeSelector.
Proof. solve_decision. Defined.
#[export] Instance ImmutableValue_eq_dec : EqDecision ImmutableValue.
Proof. solve_decision. Defined.

(** An error is a path and a message. *)
Definition refFieldErrors : FieldErrors := {|
  Path := list string;
  FieldError := list string * string;
  NewPath s := [s];
  Child p s := p ++ [s];
  Index p i := p ++ [pretty i];
  Required p msg := (p, msg);
  Forbidden p msg := (p, msg);
  Invalid p _ msg := (p, msg)
|}.

Definition refName : NameFunc := λ s _, if String.eqb s EmptyString then ["must not be empty"] else [].

Definition refApiValidation : ApiValidation (H:=refFieldErrors) :=
  Build_ApiValidation refFieldErrors refName refName "metadata.name"
    (λ cc prefix f path, (λ msg, (path ++ ["name"], msg)) <$> f (cc_Name cc) prefix)
    (λ update old path, if String.eqb (cc_Name update) (cc_Name old) then [] else [(path ++ ["name"], "field is immutable")])
    (λ new old path, if decide (new = old) then [] else [(path, "field is immutable")])
    (λ name path, if String.eqb name EmptyString then [(path, "name part must be non-empty")] else []).

(** * Map iteration *)

Definition refIter : MapIter := {| iter_order _ m := map_to_list m |}.

#[export] Instance refIter_laws : MapIterLaws refIter.
Proof. by split. Qed.
