(* ===== verification/AllocatorKeeps.v ===== *)
(** Every handler keeps the allocator's invariant, however it ends.

    [Inv] is [alloc_ok] together with a property [Wok] of the outside world: what
    the informers hand out is well formed ([node_ok], [cc_ok]), and no call of the
    controller spoils that ([world_closed]). *)
From S2P Require Import Prelude GoNet CIDRTheory CIDRText NetUtils MultiCIDRSet IndexTheory IndexProps SetProps SetConstruction.
From S2P Require Import ContainerHeap PriorityQueue Kubernetes Allocator NodeHandlers ClusterCIDRHandlers AllocatorInv AllocateProps.

(** * Well-formed inputs *)

Definition cidr_ok (n : IPNet) : Prop := ∃ f v p, valid_block (fam_width f) v p ∧ n = block (fam_width f) v p.

Section inputs.
Context `{HN : !NetUtils} `{HC : !Cluster}.

(** A text that parses at all parses to a well-formed CIDR. *)
Definition text_ok (s : string) : Prop := ∀ ip n, ParseCIDRSloppy s = inr (ip, n) → cidr_ok n.

Definition node_ok (node : Node) : Prop := Forall text_ok (PodCIDRs node).

(** The range of one family of a spec: absent, refused by the parser, too large
    an IPv6 range, or a usable geometry. *)
Definition range_ok (f : family) (hostBits : Z) (s : string) : Prop :=
  s = EmptyString ∨ ∀ ip n, ParseCIDRSloppy s = inr (ip, n) →
    ∃ v p, n = block (fam_width f) v p ∧ valid_block (fam_width f) v p ∧
      (usable (fam_width f) v p hostBits ∨ (f = V6 ∧ clusterSubnetMaxDiff < 128 - hostBits - p)).

Definition cc_ok (c : v1ClusterCIDR) : Prop :=
  range_ok V4 (PerNodeHostBits (cc_Spec c)) (spec_IPv4 (cc_Spec c))
  ∧ range_ok V6 (PerNodeHostBits (cc_Spec c)) (spec_IPv6 (cc_Spec c)).

Record world_closed (Wok : World → Prop) : Prop := {
  wc_node w k n : Wok w → nodeLister_Get w k = inr n → node_ok n;
  wc_cc w k c : Wok w → clusterCIDRLister_Get w k = inr c → cc_ok c;
  wc_list w l w' : Wok w → networkClient_List w = (inr l, w') → Forall cc_ok l;
  wc_patch n l w : Wok w → Wok (PatchNodeCIDRs n l w).2;
  wc_lists w : Wok w → Wok (networkClient_List w).2;
  wc_create c w : Wok w → Wok (networkClient_Create c w).2;
  wc_update c w : Wok w → Wok (networkClient_Update c w).2;
  wc_get q w : Wok w → Wok (queue_Get q w).2;
  wc_done q k w : Wok w → Wok (queue_Done q k w);
  wc_forget q k w : Wok w → Wok (queue_Forget q k w);
  wc_limit q k w : Wok w → Wok (queue_AddRateLimited q k w);
  wc_backoff S (P : S → Prop) b f s : (∀ s, P s → P (f s).2) → P s → P (ExponentialBackoff S b f s).2
}.
End inputs.

(** * The workers, for any invariant *)

Section worker.
Context `{HC : !Cluster} (P : AllocState → Prop).

Lemma keeps_deferred {A} g (m : M AllocState A) Q : (∀ st, P st → P (g st)) → keeps P m Q → keeps P (deferred g m) Q.
Proof using.
  intros Hg Hm st Hst. destruct (Hm st Hst) as [H1 H2]. unfold deferred. destruct (m st) as [r st']. split; [by apply Hg|done].
Qed.

Lemma worker_rule q sync :
  (∀ st, P st → P (with_world (queue_Get q (world st)).2 st)) →
  (∀ key st, P st → P (onQueue (queue_Done q key) st)) →
  (∀ key st, P st → P (onQueue (queue_Forget q key) st)) →
  (∀ key st, P st → P (onQueue (queue_AddRateLimited q key) st)) →
  (∀ key, keeps P (sync key) (λ _, True)) → keeps P (processNextWorkItem q sync) (λ _, True).
Proof using.
  intros Hget Hdone Hforget Hlimit Hsync st Hst. unfold processNextWorkItem. specialize (Hget st Hst).
  destruct (queue_Get q (world st)) as [[key|] w]; simpl in Hget; [|done].
  revert Hget. generalize (with_world w st). change (keeps P
    (deferred (onQueue (queue_Done q key))
         (r ← attempt (sync key);
          match r with
          | inl _ => modify (onQueue (queue_AddRateLimited q key))
          | inr _ => modify (onQueue (queue_Forget q key))
          end) ;; mret true) (λ _, True)).
  eapply keeps_bind; [|intros _ _; by apply keeps_ret]. apply (keeps_deferred _ _ (λ _, True)); [apply Hdone|].
  eapply keeps_bind; [by apply (keeps_attempt _ _ (λ _, True))|]. intros [e|u] _; apply keeps_modify; auto.
Qed.
End worker.

Section keeps_inv.
Context `{HN : !NetUtils} `{HLb : !Labels} `{HC : !Cluster} `{HI : !MapIter}.
Context (HNL : NetUtilsLaws HN) (Wok : World → Prop) (HW : world_closed Wok).

Definition Inv (st : AllocState) : Prop := alloc_ok st ∧ Wok (world st).

Abbreviation any := (λ _, True).

(** * Primitives *)

Lemma keeps_getObj l : keeps Inv (getObj l) cluster_ok.
Proof using.
  intros st [Ho Hw]. split; [done|]. unfold getObj, deref. simpl.
  destruct (objs st !! l) as [c|] eqn:Hc; [|done]. intros a [= <-]. by eapply ao_objs.
Qed.

Lemma objs_insert st l c c' : alloc_ok st → objs st !! l = Some c → cluster_ok c' →
  alloc_ok (with_objs (<[l := c']>) st).
Proof using.
  intros [Ho Hm Hf] Hc Hc'. split; simpl.
  - intros k d. rewrite lookup_insert. case_decide; [by intros [= <-]|apply Ho].
  - intros k Hk. rewrite lookup_insert_is_Some. destruct (decide (l = k)); [by left|]. right. split; [done|by apply Hm].
  - intros k. rewrite lookup_insert_is_Some. intros [<-|[_ Hk]]; apply Hf; [by exists c|done].
Qed.

Lemma keeps_updObj l g : (∀ c, cluster_ok c → cluster_ok (g c)) → keeps Inv (updObj l g) any.
Proof using.
  intros Hg st [Ho Hw]. unfold updObj, getObj, deref. mred. destruct (objs st !! l) as [c|] eqn:Hc; [|done].
  split; [|done]. split; [|done]. apply (objs_insert st l c); [done|done|]. apply Hg. by eapply ao_objs.
Qed.

Lemma with_nodes_ok g c : cluster_ok c → cluster_ok (with_nodes g c).
Proof using. intros [Hs Hf]. split; [intros []|]; [apply (Hs V4)|apply (Hs V6)|]. destruct Hf as [[] Hf]; [by exists V4|by exists V6]. Qed.

Lemma with_terminating_ok b c : cluster_ok c → cluster_ok (with_terminating b c).
Proof using. intros [Hs Hf]. split; [intros []|]; [apply (Hs V4)|apply (Hs V6)|]. destruct Hf as [[] Hf]; [by exists V4|by exists V6]. Qed.

(** A call of a method on a set that keeps sets well formed. *)
Lemma keeps_onSet_value {A} p (m : M SetState A) (Q : A → Prop) :
  (∀ l f s t, p = Some (l, f) → set_ok f s →
     set_ok f (m (s, t)).2.1 ∧ ∀ a, (m (s, t)).1 = Ok a → Q a) → keeps Inv (onSet p m) Q.
Proof using.
  intros Hm st [Ho Hw]. unfold onSet. destruct p as [[l f]|]; [|done].
  destruct (objs st !! l) as [c|] eqn:Hc; simpl; [|done]. destruct (get_set f c) as [s|] eqn:Hs; simpl; [|done].
  specialize (Hm l f s (metrics st) eq_refl).
  assert (set_ok f s) as Hok by (eapply co_sets; [eapply ao_objs|]; done).
  destruct (Hm Hok) as [H1 H2]. destruct (m (s, metrics st)) as [r [s' t']]. simpl in *.
  split; [|exact H2]. split; [|done].
  assert (alloc_ok (with_objs (<[l:=put_set f s' c]>) st)) as []; [|by split].
  apply (objs_insert st l c); [done|done|]. apply put_set_ok; [by eapply ao_objs|done].
Qed.

Lemma keeps_onSet {A} p (m : M SetState A) :
  (∀ l f s t, p = Some (l, f) → set_ok f s → set_ok f (m (s, t)).2.1) → keeps Inv (onSet p m) any.
Proof using. intros Hm. apply keeps_onSet_value. intros l f s t Hp Hs. split; [by eapply Hm|done]. Qed.

Lemma keeps_readSet p : keeps Inv (readSet p) any.
Proof using.
  intros st Hst. unfold readSet. destruct p as [[l f]|]; [|done]. by destruct (objs st !! l ≫= get_set f).
Qed.

Lemma keeps_rangeMap : keeps Inv rangeMap any.
Proof using. intros st [Ho Hw]. split; [|done]. split; [by apply alloc_ok_iter|done]. Qed.

Lemma keeps_callAPI f : (∀ w, Wok w → Wok (f w).2) → keeps Inv (callAPI f) any.
Proof using.
  intros Hf st [[] Hw]. specialize (Hf (world st) Hw). unfold callAPI. destruct (f (world st)) as [r w].
  split; [|done]. by split.
Qed.

Lemma keeps_recordEvent e : keeps Inv (recordEvent e) any.
Proof using. intros st [[] Hw]. by split. Qed.

Lemma keeps_getWorld : keeps Inv get (λ st, Wok (world st)).
Proof using. apply keeps_get. by intros st []. Qed.

(** * Sets *)

Lemma keeps_associated l f v p : valid_block (fam_width f) v p →
  keeps Inv (associatedCIDRSet l (block (fam_width f) v p)) (λ q, ∀ x, q = Some x → x = (l, f)).
Proof using HNL.
  intros Hb st [Ho Hw]. destruct (objs st !! l) as [c|] eqn:Hc.
  - rewrite (associatedCIDRSet_run HNL st l c f v p Hc Hb). split; [done|]. intros a [= <-] x.
    rewrite fmap_Some. by intros (? & _ & ->).
  - unfold associatedCIDRSet. rewrite (IsIPv4CIDR_valid _ _ _ Hb), (IsIPv6CIDR_valid _ _ _ Hb).
    unfold getObj, deref. destruct f; simpl; mred; by rewrite Hc.
Qed.

Lemma Occupy_set_ok f s t v p : valid_block (fam_width f) v p → set_ok f s →
  set_ok f (MultiCIDRSet.Occupy (Some (block (fam_width f) v p)) (s, t)).2.1.
Proof using HNL.
  intros Hb (L & A & [HL HWd Hs]). rewrite <- HWd in Hb |- *.
  destruct (overlaps (cluster_block L) (block (width L) v p)) eqn:Ho.
  - destruct (Occupy_inside HNL L HL A s t v p Hs Hb Ho) as (s' & t' & -> & Hs' & _). eexists L, _. by split.
  - rewrite (Occupy_outside L HL A) by done. exists L, A. by split.
Qed.

Lemma Release_set_ok f s t v p : valid_block (fam_width f) v p → set_ok f s →
  set_ok f (MultiCIDRSet.Release (Some (block (fam_width f) v p)) (s, t)).2.1.
Proof using HNL.
  intros Hb (L & A & [HL HWd Hs]). rewrite <- HWd in Hb |- *.
  destruct (overlaps (cluster_block L) (block (width L) v p)) eqn:Ho.
  - destruct (Release_inside HNL L HL A s t v p Hs Hb Ho) as (s' & t' & -> & Hs' & _). eexists L, _. by split.
  - rewrite (Release_outside L HL A) by done. exists L, A. by split.
Qed.

Lemma NextCandidate_set_ok f s t : set_ok f s → set_ok f (NextCandidate (s, t)).2.1.
Proof using HNL.
  intros (L & A & Hv). destruct (Hv) as [HL HWd Hs]. pose proof (alloc_size_bound L HL A s Hs).
  destruct (decide (Z.of_nat (size A) = nmax L)) as [Hfull|].
  - rewrite (NextCandidate_full L A) by done. by exists L, A.
  - destruct (free_slot L HL A s (nextCandidate s)) as (j & Hj & Hb & Hf); [done|apply (si_next _ _ _ Hs)|lia|].
    rewrite (NextCandidate_free HNL L HL A s t j) by done. exists L, A. apply view_with_next; [done|by apply slot_bound].
Qed.

(** A candidate that comes out of a well-formed set is well formed. *)
Lemma NextCandidate_cidr_ok f s t n c st' : set_ok f s → NextCandidate (s, t) = (Ok (n, inr c), st') → cidr_ok c.
Proof using HNL.
  intros (L & A & Hv) E. destruct (Hv) as [HL HWd Hs]. pose proof (alloc_size_bound L HL A s Hs).
  destruct (decide (Z.of_nat (size A) = nmax L)) as [Hfull|].
  - by rewrite (NextCandidate_full L A) in E by done.
  - destruct (free_slot L HL A s (nextCandidate s)) as (j & Hj & Hb & Hf); [done|apply (si_next _ _ _ Hs)|lia|].
    rewrite (NextCandidate_free HNL L HL A s t j) in E by done. injection E as <- <- <-.
    destruct (view_block f s L A (slot L (nextCandidate s) j) Hv (slot_bound L HL _ _)) as [Eb Hvb].
    rewrite Eb. by eexists f, _, _.
Qed.

Lemma keeps_Occupy l n : cidr_ok n → keeps Inv (Occupy l n) any.
Proof using HNL.
  intros (f & v & p & Hb & ->). eapply keeps_bind; [by apply keeps_associated|]. intros q Hq.
  apply keeps_wrapErr, keeps_onSet. intros l' f' s t Eq Hs. apply Hq in Eq. simplify_eq. by apply Occupy_set_ok.
Qed.

Lemma keeps_Release l n : cidr_ok n → keeps Inv (Release l n) any.
Proof using HNL.
  intros (f & v & p & Hb & ->). eapply keeps_bind; [by apply keeps_associated|]. intros q Hq.
  apply keeps_onSet. intros l' f' s t Eq Hs. apply Hq in Eq. simplify_eq. by apply Release_set_ok.
Qed.

Lemma Forall_any {A} (l : list A) : Forall any l.
Proof using. by apply Forall_forall. Qed.

Lemma keeps_filterOutServiceRange n : cidr_ok n → keeps Inv (filterOutServiceRange n) any.
Proof using HNL.
  intros Hn. eapply keeps_bind; [apply keeps_rangeMap|]. intros ls _.
  eapply keeps_forM; [apply Forall_any|]. intros [label l] _.
  eapply keeps_forM; [apply Forall_any|]. intros cc _.
  eapply keeps_bind; [apply (keeps_attempt _ _ any)|by intros; apply keeps_ret].
  destruct (Hn) as (f & v & p & Hb & E). unfold occupyServiceCIDR.
  eapply keeps_bind; [rewrite E; by apply keeps_associated|]. intros q _.
  eapply keeps_bind; [apply keeps_readSet|]. intros s _. cbn zeta. case_match; [by apply keeps_ret|].
  by apply keeps_wrapErr, keeps_Occupy.
Qed.
(** * Matching and allocation *)

Lemma keeps_anyMappedSet test n : cidr_ok n → keeps Inv (anyMappedSet test n) any.
Proof using HNL.
  intros (f & v & p & Hb & ->). eapply keeps_bind; [apply keeps_rangeMap|]. intros ls _.
  eapply keeps_bind; [|by intros; apply keeps_ret].
  eapply (keeps_forReturn _ _ _ any any); [apply Forall_any|]. intros [label l] _.
  eapply (keeps_forReturn _ _ _ any any); [apply Forall_any|]. intros cc _. unfold testMappedSet.
  eapply keeps_bind; [by eapply keeps_attempt, keeps_associated|]. intros [e|[q|]] _; [by apply keeps_ret| |by apply keeps_ret].
  eapply keeps_bind; [apply keeps_readSet|]. intros s _. case_match; by apply keeps_ret.
Qed.

Lemma keeps_pushMatching occupy label cnt l pq : keeps Inv (pushMatching occupy label cnt l pq) any.
Proof using.
  revert pq. induction l as [|p l IH]; intros pq; [by apply keeps_ret|]. cbn [pushMatching].
  eapply keeps_bind; [apply keeps_getObj|]. intros c _. case_match; [|apply IH].
  eapply keeps_bind; [apply keeps_getWorld|]. intros st _.
  eapply keeps_bind; [by apply (keeps_lift _ _ any)|]. intros pq' _. apply IH.
Qed.

Lemma keeps_pushLabels node occupy ls pq : keeps Inv (pushLabels node occupy ls pq) any.
Proof using.
  revert pq. induction ls as [|[label l] ls IH]; intros pq; [by apply keeps_ret|]. cbn [pushLabels].
  eapply keeps_bind; [by apply (keeps_lift _ _ any)|]. intros [m cnt] _. case_match; [apply IH|].
  eapply keeps_bind; [apply keeps_pushMatching|]. intros pq' _. apply IH.
Qed.

Lemma keeps_ordered node occupy : keeps Inv (orderedMatchingClusterCIDRs node occupy) any.
Proof using.
  eapply keeps_bind; [apply keeps_rangeMap|]. intros ls _.
  eapply keeps_bind; [apply keeps_pushLabels|]. intros pq _.
  eapply keeps_bind; [apply keeps_getWorld|]. intros st _.
  eapply keeps_bind; [by apply (keeps_lift _ _ any)|]. intros items _. cbn zeta.
  eapply keeps_bind; [by apply (keeps_lift _ _ any)|]. intros sel _. by apply keeps_ret.
Qed.

Lemma keeps_allocateLoop fuel evaluated l q : keeps Inv (allocateLoop fuel evaluated l q) cidr_ok.
Proof using HNL.
  revert evaluated. induction fuel as [|fuel IH]; intros evaluated; cbn [allocateLoop];
    (eapply keeps_bind; [apply keeps_readSet|]; intros s _); [apply keeps_fail|].
  case_match; [|apply keeps_fail].
  eapply (keeps_bind _ _ _ (λ r, match r with (_, inr c) => cidr_ok c | _ => True end)).
  - apply keeps_onSet_value. intros l' f s' t _ Hs'. split; [by apply NextCandidate_set_ok|].
    intros [n [e|c]] E; [done|]. destruct (NextCandidate (s', t)) as [r st'] eqn:En. simpl in E. subst r.
    by eapply NextCandidate_cidr_ok.
  - intros [n [e|c]] Hc; [apply keeps_fail|]. cbn zeta.
    eapply keeps_bind; [by apply keeps_anyMappedSet|]. intros b1 _. case_match; [apply IH|].
    eapply keeps_bind; [by apply keeps_anyMappedSet|]. intros b2 _. case_match; [apply IH|].
    eapply keeps_bind; [by apply keeps_Occupy|]. intros _ _.
    eapply keeps_bind; [apply keeps_onSet; by intros|]. intros _ _. by apply keeps_ret.
Qed.

Lemma keeps_allocateCIDR l q : keeps Inv (allocateCIDR l q) cidr_ok.
Proof using HNL. eapply keeps_bind; [apply keeps_readSet|]. intros s _. apply keeps_allocateLoop. Qed.

Lemma keeps_allocateFamily l f cidrs : Forall cidr_ok cidrs →
  keeps Inv (allocateFamily l f cidrs) (λ r, ∀ x, r = Some x → Forall cidr_ok x).
Proof using HNL.
  intros Hc. eapply keeps_bind; [apply keeps_getObj|]. intros c _. case_match; [|apply keeps_ret; by intros ? [= <-]].
  eapply keeps_bind; [apply keeps_attempt, keeps_allocateCIDR|]. intros [e|n] Hn; apply keeps_ret; [done|].
  intros x [= <-]. apply Forall_app. split; [done|by apply Forall_singleton].
Qed.

Lemma keeps_prioritizedCIDRs node : keeps Inv (prioritizedCIDRs node) (λ r, Forall cidr_ok r.1).
Proof using HNL.
  eapply keeps_bind; [apply keeps_wrapErr, keeps_ordered|]. intros l _.
  eapply keeps_bind; [eapply (keeps_forReturn _ _ _ any (λ r : list IPNet * loc, Forall cidr_ok r.1)); [apply Forall_any|]|].
  - intros cc _. eapply keeps_bind; [apply keeps_allocateFamily; by constructor|].
    intros [cidrs|] Hc; [|by apply keeps_ret].
    eapply keeps_bind; [apply keeps_allocateFamily, Hc; done|].
    intros [cidrs'|] Hc'; apply keeps_ret; [|done]. intros v [= <-]. by apply Hc'.
  - intros [v|] Hv; [apply keeps_ret; by apply Hv|apply keeps_fail].
Qed.

(** * Nodes *)

Lemma keeps_occupyLoop l node cidrs n : Forall text_ok cidrs → keeps Inv (occupyLoop l node cidrs n) any.
Proof using HNL.
  intros Ht. revert n. induction Ht as [|s cidrs Hs Ht IH]; intros n; [by apply keeps_ret|]. cbn [occupyLoop].
  destruct (ParseCIDRSloppy s) as [e|[ip c]] eqn:E; [apply keeps_fail|].
  eapply keeps_bind; [eapply (keeps_attempt _ _ any), keeps_Occupy; by eapply Hs|].
  intros [e|u] _; [by apply keeps_ret|apply IH].
Qed.

Lemma keeps_occupyCIDRs node : node_ok node → keeps Inv (occupyCIDRs node) any.
Proof using HNL.
  intros Hn. unfold occupyCIDRs. case_match; [by apply keeps_ret|].
  eapply keeps_bind; [apply keeps_ordered|]. intros l _. case_match; [apply keeps_fail|].
  eapply keeps_bind; [eapply (keeps_forReturn _ _ _ any any); [apply Forall_any|]|].
  - intros cc _. eapply keeps_bind; [by apply keeps_occupyLoop|]. intros n _. case_match; [|by apply keeps_ret].
    eapply keeps_bind; [apply keeps_updObj, with_nodes_ok|]. intros _ _. by apply keeps_ret.
  - intros [v|] _; [by apply keeps_ret|apply keeps_fail].
Qed.

Lemma keeps_releaseReserved format data node : Forall cidr_ok (reserved_CIDRs (reserved data)) →
  keeps Inv (releaseReserved format data node) any.
Proof using HNL.
  intros Hc. eapply keeps_forM; [exact Hc|]. intros n Hn.
  eapply keeps_bind; [apply keeps_getObj|]. intros c _. by apply keeps_wrapErr, keeps_Release.
Qed.

Lemma keeps_patchLoop n node cidrs l err : keeps Inv (patchLoop n node cidrs l err) any.
Proof using HW.
  revert err. induction n as [|n IH]; intros err; [by apply keeps_ret|]. cbn [patchLoop].
  eapply keeps_bind; [apply keeps_callAPI; intros w; by apply wc_patch|]. intros [e|] _; [apply IH|].
  eapply keeps_bind; [apply keeps_updObj, with_nodes_ok|]. intros _ _. by apply keeps_ret.
Qed.

Lemma keeps_updateCIDRsAllocation data : Forall cidr_ok (reserved_CIDRs (reserved data)) →
  keeps Inv (updateCIDRsAllocation data) any.
Proof using HNL HW.
  intros Hc. eapply keeps_bind; [apply keeps_getWorld|]. intros st _.
  destruct (nodeLister_Get _ _) as [e|node]; [apply keeps_fail|].
  case_match; [by apply keeps_ret|]. case_match; [by apply keeps_releaseReserved|].
  eapply keeps_bind; [apply keeps_patchLoop|]. intros [e|] _; [|by apply keeps_ret].
  eapply keeps_bind; [apply keeps_recordEvent|]. intros _ _.
  eapply keeps_bind; [case_match; [by apply keeps_releaseReserved|by apply keeps_ret]|]. intros _ _. apply keeps_fail.
Qed.

Lemma keeps_AllocateOrOccupyCIDR node : (∀ n, node = Some n → node_ok n) → keeps Inv (AllocateOrOccupyCIDR node) any.
Proof using HNL HW.
  intros Hn. destruct node as [node|]; [|by apply keeps_ret]. unfold AllocateOrOccupyCIDR.
  case_match; [by apply keeps_occupyCIDRs, Hn|].
  eapply keeps_bind; [apply keeps_attempt, keeps_prioritizedCIDRs|]. intros [e|[cidrs cc]] Hc.
  - eapply keeps_bind; [apply keeps_recordEvent|]. intros _ _. apply keeps_fail.
  - case_match; [|by apply keeps_updateCIDRsAllocation].
    eapply keeps_bind; [apply keeps_recordEvent|]. intros _ _. apply keeps_fail.
Qed.

Lemma keeps_ReleaseCIDR node : (∀ n, node = Some n → node_ok n) → keeps Inv (ReleaseCIDR node) any.
Proof using HNL.
  intros Hn. destruct node as [node|]; [|by apply keeps_ret]. unfold ReleaseCIDR.
  case_match; [by apply keeps_ret|]. eapply keeps_bind.
  - unfold allocatedClusterCIDR. eapply keeps_bind; [apply keeps_wrapErr, keeps_ordered|]. intros l _.
    eapply keeps_bind; [eapply (keeps_forReturn _ _ _ any any); [apply Forall_any|]|].
    + intros cc _. eapply keeps_bind; [apply keeps_getObj|]. intros c _. case_match; by apply keeps_ret.
    + intros [v|] _; [by apply (keeps_ret _ _ any)|apply keeps_fail].
  - intros cc _. eapply keeps_bind; [eapply keeps_forM; [by apply Hn|]|].
    + intros s Hs. simpl in Hs. destruct (ParseCIDRSloppy s) as [e|[ip c]] eqn:E; [apply keeps_fail|].
      eapply keeps_bind; [apply keeps_getObj|]. intros c' _. apply keeps_wrapErr, keeps_Release. by eapply Hs.
    + intros _ _. apply keeps_updObj, with_nodes_ok.
Qed.

Lemma keeps_syncNode key : keeps Inv (syncNode key) any.
Proof using HNL HW.
  eapply keeps_bind; [apply keeps_getWorld|]. intros st Hst.
  destruct (nodeLister_Get (world st) key) as [e|node] eqn:E; [case_match; [by apply keeps_ret|apply keeps_fail]|].
  assert (∀ n, Some node = Some n → node_ok n) as Hn by (intros n [= <-]; by apply (wc_node _ HW (world st) key)).
  case_match; [by apply keeps_ReleaseCIDR|by apply keeps_AllocateOrOccupyCIDR].
Qed.

(** What an informer may hand to the delete handler. *)
Definition deleted_ok (obj : DeletedObject) : Prop :=
  match obj with ObjNode n | ObjTombstoneNode n => ∀ x, n = Some x → node_ok x | _ => True end.

Lemma keeps_handleNodeDelete obj : deleted_ok obj → keeps Inv (handleNodeDelete obj) any.
Proof using HNL.
  intros Hobj. destruct obj as [n|n| |]; simpl in *; [..|by apply keeps_ret|by apply keeps_ret].
  all: eapply keeps_bind; [by apply (keeps_attempt _ _ any), keeps_ReleaseCIDR|]; intros; by apply keeps_ret.
Qed.
(** * ClusterCIDRs *)

Lemma newSet_ok f name v p h : usable (fam_width f) v p h → set_ok f (newSet name (fam_width f) v p h).
Proof using.
  intros Hu. exists (geometry (fam_width f) v p h), ∅. split; [by apply geometry_ok|done|by apply newSet_inv].
Qed.

Lemma keeps_newSetM f name v p h : valid_block (fam_width f) v p →
  usable (fam_width f) v p h ∨ (f = V6 ∧ clusterSubnetMaxDiff < 128 - h - p) →
  keeps Inv (newSetM name (block (fam_width f) v p) h) (set_ok f).
Proof using HNL.
  intros Hb Hu st [Ho Hw]. unfold newSetM. destruct Hu as [Hu|[-> Hd]].
  - rewrite (NewMultiCIDRSet_usable HNL) by done. split; [destruct Ho; by split|].
    intros s [= <-]. by apply newSet_ok.
  - rewrite (NewMultiCIDRSet_block HNL) by done. simpl fam_width. rewrite bool_decide_true by done.
    destruct (Z.ltb_spec clusterSubnetMaxDiff (128 - h - p)); [|lia]. split; [destruct Ho; by split|done].
Qed.

Lemma keeps_createSet f m1 m2 name s h : range_ok f h s →
  keeps Inv (createSet m1 m2 name s h) (λ r, ∀ x, r = Some x → set_ok f x).
Proof using HNL.
  intros Hr. unfold createSet. destruct (String.eqb_spec s EmptyString); [by apply keeps_ret|].
  destruct (ParseCIDRSloppy s) as [e|[ip ipn]] eqn:E; [apply keeps_fail|].
  destruct Hr as [->|Hr]; [done|]. destruct (Hr ip ipn E) as (v & p & -> & Hb & Hu).
  eapply keeps_bind; [by apply keeps_wrapErr, keeps_newSetM|]. intros x Hx. apply keeps_ret. by intros ? [= <-].
Qed.

Lemma keeps_createClusterCIDRSet c b : cc_ok c →
  keeps Inv (createClusterCIDRSet c b) (λ o, ∀ f s, get_set f o = Some s → set_ok f s).
Proof using HNL.
  intros [H4 H6]. unfold createClusterCIDRSet. eapply keeps_bind; [by apply keeps_createSet|]. intros v4 Hv4.
  eapply keeps_bind; [by apply keeps_createSet|]. intros v6 Hv6. apply keeps_ret. intros [] s Hs; [by apply Hv4|by apply Hv6].
Qed.

(** A new object is at a fresh address, which no list holds yet. *)
Lemma newObj_inv c st : Inv st → cluster_ok c → Inv (newObj c st).2 ∧ is_Some (objs (newObj c st).2 !! next_loc st).
Proof using.
  intros [[Ho Hm Hf] Hw] Hc. split; [split; [split; simpl|done]|].
  - intros k d. rewrite lookup_insert. case_decide; [by intros [= <-]|apply Ho].
  - intros k Hk. rewrite lookup_insert_is_Some. destruct (decide (next_loc st = k)); [by left|].
    right. split; [done|]. by apply Hm.
  - intros k. rewrite lookup_insert_is_Some. intros [<-|[_ Hk%Hf]]; lia.
  - simpl. rewrite lookup_insert_eq. by eexists.
Qed.

Lemma map_insert st label l : alloc_ok st → (∀ p, p ∈ l → is_Some (objs st !! p)) →
  alloc_ok (with_cidrMap (insert label l) st).
Proof using.
  intros [Ho Hm Hf] Hl. split; simpl; [done| |done]. intros p (label' & l' & Hl' & Hp).
  simpl in Hl'. rewrite lookup_insert in Hl'. case_decide; [simplify_eq; by apply Hl|]. apply Hm. by exists label', l'.
Qed.

Lemma map_delete st label : alloc_ok st → alloc_ok (with_cidrMap (delete label) st).
Proof using.
  intros [Ho Hm Hf]. split; simpl; [done| |done]. intros p (label' & l' & Hl' & Hp).
  simpl in Hl'. rewrite lookup_delete in Hl'. case_decide; [done|]. apply Hm. by exists label', l'.
Qed.

Lemma containsName_state name l st : (containsName name l st).2 = st.
Proof using.
  induction l as [|p l IH]; [done|]. cbn [containsName]. unfold getObj, deref. mred.
  destruct (objs st !! p); [|done]. by case_match.
Qed.

Lemma mapClusterCIDRSet_inv sel p st : Inv st → is_Some (objs st !! p) → Inv (mapClusterCIDRSet sel (Some p) st).2.
Proof using.
  intros [Ho Hw] Hp. unfold mapClusterCIDRSet. mred. destruct (cidrMap st !! sel) as [l|] eqn:Hl.
  - destruct Hp as [c Hc]. unfold getObj, deref. rewrite Hc.
    pose proof (containsName_state (Name c) l st). destruct (containsName (Name c) l st) as [[b|e|q] st']; simpl in *; subst; [|done..].
    destruct b; simpl; [done|]. split; [|done]. apply map_insert; [done|].
    intros q [Hq|Hq%list_elem_of_singleton]%elem_of_app; [|subst q; by exists c].
    apply (ao_mapped _ Ho). by exists sel, l.
  - simpl. split; [|done]. apply map_insert; [done|]. by intros q ->%list_elem_of_singleton.
Qed.

Lemma keeps_returnErr m Q : keeps Inv m Q → keeps Inv (returnErr m) any.
Proof using.
  intros Hm. eapply keeps_bind; [exact Hm|]. intros [e|] _; [apply keeps_fail|by apply keeps_ret].
Qed.

Lemma map_then {B} g sel p (k : M AllocState B) st : Inv st → is_Some (objs st !! p) → keeps Inv k any →
  Inv ((wrapErr g (mapClusterCIDRSet sel (Some p)) ;; k) st).2.
Proof using.
  intros Hst Hp Hk. pose proof (mapClusterCIDRSet_inv sel p st Hst Hp) as Hmap.
  unfold mbind, M_bind, wrapErr. destruct (mapClusterCIDRSet sel (Some p) st) as [[u|e|q] st2]; simpl in *; [by apply Hk|done..].
Qed.

Lemma keeps_createClusterCIDR c b : cc_ok c → keeps Inv (createClusterCIDR c b) any.
Proof using HNL HW.
  intros Hc. unfold createClusterCIDR. eapply keeps_bind; [by apply keeps_wrapErr, (keeps_lift _ _ any)|]. intros sel _.
  eapply keeps_bind; [by apply keeps_wrapErr, keeps_createClusterCIDRSet|]. intros o Ho.
  destruct (bool_decide (IPv4CIDRSet o = None) && bool_decide (IPv6CIDRSet o = None)) eqn:Hnone; [apply keeps_fail|].
  assert (cluster_ok o) as Hco.
  { split; [exact Ho|]. apply andb_false_iff in Hnone as [H%bool_decide_eq_false|H%bool_decide_eq_false];
      apply not_eq_None_Some in H; [by exists V4|by exists V6]. }
  intros st Hst. destruct (newObj_inv o st Hst Hco) as [Hst1 Hp].
  assert (newObj o st = (Ok (next_loc st), (newObj o st).2)) as En by done. mstep En.
  split; [|done]. apply map_then; [done|done|]. cbn zeta.
  case_match; apply (keeps_returnErr _ any), keeps_callAPI; intros w; [by apply wc_create|by apply wc_update].
Qed.

Lemma deleteLoop_inv name sel l i rest st : Inv st → cidrMap st !! sel = Some l →
  Inv (deleteLoop name sel l i rest st).2.
Proof using.
  revert i. induction rest as [|p rest IH]; intros i Hst Hl; [done|]. cbn [deleteLoop].
  destruct (objs st !! p) as [c|] eqn:Hc.
  2: { unfold getObj, deref. mred. by rewrite Hc. }
  assert (getObj p st = (Ok c, st)) as Eg by (unfold getObj, deref; by rewrite Hc). mstep Eg.
  case_match; [by apply IH|].
  assert (updObj p (with_terminating true) st = (Ok tt, with_objs (<[p := with_terminating true c]>) st)) as Eu
    by (unfold updObj; by mstep Eg).
  mstep Eu. destruct Hst as [Ho Hw].
  assert (alloc_ok (with_objs (<[p := with_terminating true c]>) st)) as Ho1
    by (apply (objs_insert st p c); [done|done|]; apply with_terminating_ok; by eapply ao_objs).
  case_match; [by split|]. case_match; (split; [|done]).
  - by apply map_delete.
  - apply map_insert; [done|]. intros q Hq. apply (ao_mapped _ Ho1). exists sel, l. split; [done|].
    apply elem_of_app in Hq as [Hq|Hq].
    + rewrite <- (take_drop i l). apply elem_of_app. by left.
    + rewrite <- (take_drop (S i) l). apply elem_of_app. by right.
Qed.

Lemma keeps_deleteClusterCIDR c : keeps Inv (deleteClusterCIDR c) any.
Proof using.
  unfold deleteClusterCIDR. eapply keeps_bind; [by apply keeps_wrapErr, (keeps_lift _ _ any)|]. intros sel _.
  intros st Hst. assert (get st = (Ok st, st)) as Eg by done. mstep Eg.
  destruct (cidrMap st !! sel) as [l|] eqn:Hl; [|done]. split; [by apply deleteLoop_inv|done].
Qed.

Lemma keeps_reconcileDelete c : keeps Inv (reconcileDelete c) any.
Proof using HW.
  unfold reconcileDelete. case_match; [|by apply keeps_ret].
  eapply keeps_bind; [apply keeps_deleteClusterCIDR|]. intros _ _. cbn zeta.
  apply (keeps_returnErr _ any), keeps_callAPI. intros w. by apply wc_update.
Qed.

Lemma keeps_syncClusterCIDR key : keeps Inv (syncClusterCIDR key) any.
Proof using HNL HW.
  eapply keeps_bind; [apply keeps_getWorld|]. intros st Hst.
  destruct (clusterCIDRLister_Get (world st) key) as [e|c] eqn:E; [case_match; [by apply keeps_ret|apply keeps_fail]|].
  case_match; [apply keeps_reconcileDelete|]. apply keeps_createClusterCIDR.
  by apply (wc_cc _ HW (world st) key).
Qed.

(** * Workers and start-up *)

Lemma onQueue_inv f st : (∀ w, Wok w → Wok (f w)) → Inv st → Inv (onQueue f st).
Proof using. intros Hf [[] Hw]. split; [by split|]. by apply Hf. Qed.

Lemma keeps_processNextWorkItem q sync : (∀ key, keeps Inv (sync key) any) → keeps Inv (processNextWorkItem q sync) any.
Proof using HW.
  apply worker_rule.
  - intros st [[] Hw]. split; [by split|]. by apply (wc_get _ HW).
  - intros key st. apply onQueue_inv. intros w'. by apply wc_done.
  - intros key st. apply onQueue_inv. intros w'. by apply wc_forget.
  - intros key st. apply onQueue_inv. intros w'. by apply wc_limit.
Qed.

Lemma keeps_listClusterCIDRs : keeps Inv listClusterCIDRs (λ r, ∀ l, r = Some l → Forall cc_ok l).
Proof using HW.
  intros st [Ho Hw]. unfold listClusterCIDRs.
  match goal with |- context [ExponentialBackoff ?S ?b ?f ?s] =>
    pose proof (wc_backoff _ HW S (λ x, Wok x.1 ∧ ∀ l, x.2 = Some l → Forall cc_ok l) b f s) as Hb;
    destruct (ExponentialBackoff S b f s) as [pollErr [w l]] end.
  simpl in Hb. destruct Hb as [Hw' Hl]; [|done|].
  { intros [w' l'] [Hw' _]. simpl. pose proof (wc_lists _ HW w' Hw') as H1. pose proof (wc_list _ HW w') as H2.
    destruct (networkClient_List w') as [[e|l''] w'']; simpl in *; (split; [done|]); [done|]. intros ? [= <-]. by eapply H2. }
  assert (Inv (with_world w st)) as Hst by (destruct Ho; split; [by split|done]).
  destruct pollErr; (split; [done|]); [done|]. intros a [= <-] x Hx. by apply Hl.
Qed.
End keeps_inv.
