(* ===== verification/Controller.v ===== *)
(** The controller as a transition system.

    A worker reads an object from the informer's cache, then calls a handler that
    takes [r.lock] for its whole body; the queues have locks of their own.  A run of
    the thirty node workers, the thirty ClusterCIDR workers and the informer callbacks
    is thus an interleaving of the bodies under the lock, in any order, with changes of
    the outside world (the API server, other clients, informer updates) in between,
    also between the read of an object and the handler called with it.  [step] is one
    of these: a body under the lock with any object of the type it takes
    ([step_allocate], [step_release], [step_create], [step_remove]), a whole work item
    (the case that nothing comes between the read and the handler), a callback, a
    change of the world.  [reachable] is a run from a successful start. *)
From S2P Require Import Prelude GoNet CIDRTheory CIDRText NetUtils MultiCIDRSet IndexTheory IndexProps SetProps SetConstruction.
From S2P Require Import ContainerHeap PriorityQueue Kubernetes Allocator NodeHandlers ClusterCIDRHandlers EventHandlers AllocatorInv AllocateProps AllocatorKeeps.

Section controller.
Context `{HN : !NetUtils} `{HLb : !Labels} `{HC : !Cluster} `{HI : !MapIter} `{HF : !Informers}.
Context (HNL : NetUtilsLaws HN) (Wok : World → Prop) (HW : world_closed Wok).
Context (HWadd : ∀ q key w, Wok w → Wok (queue_Add q key w)).

(** The state before the constructor has read anything. *)
Definition initState (w : World) : AllocState := mkState _ ∅ ∅ 1%positive [] [] 0 w.

(** The command line: well-formed CIDRs, and a default ClusterCIDR, if any, that
    is as well formed as the ones the API server admits. *)
Definition params_ok (params : CIDRAllocatorParams) : Prop :=
  (∀ existing l, Forall cc_ok existing → createDefaultClusterCIDR existing params = Ok l → Forall cc_ok l)
  ∧ (∀ n, ServiceCIDR params = Some n → cidr_ok n) ∧ (∀ n, SecondaryServiceCIDR params = Some n → cidr_ok n).

Definition nodes_ok (nodes : option (list Node)) : Prop := ∀ l, nodes = Some l → Forall node_ok l.

Inductive step (st : AllocState) : AllocState → Prop :=
| step_cidr r st' : processNextCIDRWorkItem st = (r, st') → step st st'
| step_node r st' : processNextNodeWorkItem st = (r, st') → step st st'
| step_allocate node r st' : node_ok node → AllocateOrOccupyCIDR (Some node) st = (r, st') → step st st'
| step_release node r st' : node_ok node → ReleaseCIDR (Some node) st = (r, st') → step st st'
| step_create c r st' : cc_ok c → reconcileCreate c st = (r, st') → step st st'
| step_remove c r st' : reconcileDelete c st = (r, st') → step st st'
| step_cidr_add obj r st' : cidrAddFunc obj st = (r, st') → step st st'
| step_cidr_update old new r st' : cidrUpdateFunc old new st = (r, st') → step st st'
| step_cidr_delete obj r st' : cidrDeleteFunc obj st = (r, st') → step st st'
| step_node_add obj r st' : nodeAddFunc obj st = (r, st') → step st st'
| step_node_update old new r st' : nodeUpdateFunc old new st = (r, st') → step st st'
| step_delete obj r st' : deleted_ok obj → handleNodeDelete obj st = (r, st') → step st st'
| step_world w : Wok w → step st (with_world w st).

Inductive reachable (params : CIDRAllocatorParams) (nodes : option (list Node)) : AllocState → Prop :=
| reach_start w st : Wok w → NewMultiCIDRRangeAllocator params nodes (initState w) = (Ok tt, st) →
    reachable params nodes st
| reach_step st st' : reachable params nodes st → step st st' → reachable params nodes st'.

Lemma init_inv w : Wok w → Inv Wok (initState w).
Proof using.
  intros Hw. split; [|done]. split; simpl.
  - by intros l c Hc%lookup_empty_Some.
  - intros l (label & lst & H & _). simpl in H. by rewrite lookup_empty in H.
  - by intros l [c Hc%lookup_empty_Some].
Qed.

Lemma keeps_New params nodes : params_ok params → nodes_ok nodes →
  keeps (Inv Wok) (NewMultiCIDRRangeAllocator params nodes) (λ _, True).
Proof using HNL HW.
  intros (Hdef & Hs1 & Hs2) Hn. unfold NewMultiCIDRRangeAllocator.
  eapply keeps_bind; [by apply keeps_listClusterCIDRs|]. intros ccs Hccs.
  assert (Forall cc_ok (default [] ccs)) as Hccs' by (destruct ccs; [by apply Hccs|by constructor]).
  eapply keeps_bind; [apply (keeps_lift _ _ (Forall cc_ok)); intros l; by apply Hdef|]. intros items Hitems.
  eapply keeps_bind.
  { eapply keeps_forM; [exact Hitems|]. intros c Hc.
    eapply keeps_bind; [by apply (keeps_attempt _ _ (λ _, True)), keeps_createClusterCIDR|].
    intros [e|u] _; [apply keeps_recordEvent|by apply keeps_ret]. }
  intros _ _. eapply keeps_bind.
  { destruct (ServiceCIDR params) as [n|]; [by apply keeps_filterOutServiceRange, Hs1|by apply keeps_ret]. }
  intros _ _. eapply keeps_bind.
  { destruct (SecondaryServiceCIDR params) as [n|]; [by apply keeps_filterOutServiceRange, Hs2|by apply keeps_ret]. }
  intros _ _. destruct nodes as [l|]; [|by apply keeps_ret].
  eapply keeps_forM; [by apply Hn|]. intros node Hnode. simpl in Hnode. case_match; [by apply keeps_ret|].
  eapply keeps_bind; [by apply (keeps_attempt _ _ (λ _, True)), keeps_occupyCIDRs|]. intros; by apply keeps_ret.
Qed.

Lemma keeps_addKey q key : keeps (Inv Wok) (addKey q key) (λ _, True).
Proof using HWadd.
  destruct key as [e|key]; [by apply keeps_ret|]. apply keeps_modify; [|done].
  intros st Hst. apply (onQueue_inv Wok); [intros w; apply HWadd|done].
Qed.

Lemma step_inv st st' : Inv Wok st → step st st' → Inv Wok st'.
Proof using HNL HW HWadd.
  assert (∀ A (m : M AllocState A) st r st', keeps (Inv Wok) m (λ _, True) → Inv Wok st → m st = (r, st') → Inv Wok st') as Hk.
  { intros A m s r s' Hm Hs E. destruct (Hm s Hs) as [H _]. by rewrite E in H. }
  intros Hst [r st1 E|r st1 E|node r st1 Hn E|node r st1 Hn E|c r st1 Hc E|c r st1 E|obj r st1 E|old new r st1 E|obj r st1 E|obj r st1 E|old new r st1 E|obj r st1 Hobj E|w Hw].
  - eapply Hk; [|exact Hst|exact E]. apply keeps_processNextWorkItem; [done|]. intros key. by apply keeps_syncClusterCIDR.
  - eapply Hk; [|exact Hst|exact E]. apply keeps_processNextWorkItem; [done|]. intros key. by apply keeps_syncNode.
  - eapply Hk; [|exact Hst|exact E]. apply keeps_AllocateOrOccupyCIDR; [done..|]. by intros n [= <-].
  - eapply Hk; [|exact Hst|exact E]. apply keeps_ReleaseCIDR; [done|]. by intros n [= <-].
  - eapply Hk; [|exact Hst|exact E]. by apply keeps_createClusterCIDR.
  - eapply Hk; [|exact Hst|exact E]. by apply keeps_reconcileDelete.
  - eapply Hk; [|exact Hst|exact E]. apply keeps_addKey.
  - eapply Hk; [|exact Hst|exact E]. unfold cidrUpdateFunc. apply keeps_if; [by apply keeps_ret|apply keeps_addKey].
  - eapply Hk; [|exact Hst|exact E]. apply keeps_addKey.
  - eapply Hk; [|exact Hst|exact E]. apply keeps_addKey.
  - eapply Hk; [|exact Hst|exact E]. apply keeps_addKey.
  - eapply Hk; [|exact Hst|exact E]. by apply keeps_handleNodeDelete.
  - destruct Hst as [[] _]. by split.
Qed.

Lemma reachable_inv params nodes st : params_ok params → nodes_ok nodes → reachable params nodes st → Inv Wok st.
Proof using HNL HW HWadd.
  intros Hp Hn Hr. induction Hr as [w st Hw E|st st' _ IH Hstep]; [|by eapply step_inv].
  destruct (keeps_New params nodes Hp Hn (initState w) (init_inv w Hw)) as [H _]. by rewrite E in H.
Qed.
End controller.
