(* ===== verification/Workers.v ===== *)
(** The worker loops and [Run] (multi_cidr_range_allocator.go).

    A worker loop runs for ever unless its queue shuts down, so [runWorker] takes a
    number of rounds and says whether the loop has ended.  [Run] blocks while the
    workers and callbacks run: it is a relation, whose middle part is any run of the
    transition system of Controller.  Callbacks that come before the caches have
    synced are steps before [Run]: it only touches the broadcaster until then. *)
From stdpp Require Import relations.
From S2P Require Import Prelude GoNet CIDRTheory CIDRText NetUtils MultiCIDRSet ContainerHeap PriorityQueue Kubernetes Allocator NodeHandlers ClusterCIDRHandlers EventHandlers AllocatorInv AllocatorKeeps Controller.

(** The rest of the work queues, the caches and the event broadcaster. *)
Class Runtime `{!Cluster} : Type := {
  queue_ShutDown : QueueName → World → World;
  queue_ShuttingDown : QueueName → World → bool;
  WaitForNamedCacheSync : World → bool * World;
  broadcaster_StartRecording : World → World;
  broadcaster_Shutdown : World → World
}.

Definition cidrUpdateWorkers : nat := 30.

Section workers.
Context `{HN : !NetUtils} `{HLb : !Labels} `{HC : !Cluster} `{HI : !MapIter} `{HF : !Informers} `{HR : !Runtime}.

(** [for next() {}]: true when the loop has ended, false when it is still running
    after [rounds] rounds. *)
Fixpoint runWorker (rounds : nat) (next : M AllocState bool) : M AllocState bool :=
  match rounds with
  | O => mret false
  | S rounds => more ← next; if more : bool then runWorker rounds next else mret true
  end.

Definition runCIDRWorker (rounds : nat) : M AllocState bool := runWorker rounds processNextCIDRWorkItem.
Definition runNodeWorker (rounds : nat) : M AllocState bool := runWorker rounds processNextNodeWorkItem.

(** The deferred calls of [Run], last one first. *)
Definition runDeferred (st : AllocState) : AllocState :=
  onQueue broadcaster_Shutdown (onQueue (queue_ShutDown cidrQueue) (onQueue (queue_ShutDown nodeQueue) st)).

(** [Run st workers st']: [workers] are the worker goroutines it started. *)
Inductive Run (Wok : World → Prop) (st : AllocState) : list QueueName → AllocState → Prop :=
| Run_unsynced w : WaitForNamedCacheSync (broadcaster_StartRecording (world st)) = (false, w) →
    Run Wok st [] (runDeferred (with_world w st))
| Run_served w st1 : WaitForNamedCacheSync (broadcaster_StartRecording (world st)) = (true, w) →
    rtc (step Wok) (with_world w st) st1 →
    Run Wok st (concat (replicate cidrUpdateWorkers [cidrQueue; nodeQueue])) (runDeferred st1).
End workers.
