(* ===== verification/WorkerProps.v ===== *)
(** What the handlers do to the work queues: they only make calls, so a relation
    that every call respects holds between the worlds before and after a handler. *)
From S2P Require Import Prelude GoNet CIDRTheory CIDRText NetUtils MultiCIDRSet ContainerHeap PriorityQueue Kubernetes Allocator NodeHandlers ClusterCIDRHandlers EventHandlers Stable AllocatorInv AllocatorKeeps Controller Workers.

Section calls.
Context `{HN : !NetUtils} `{HLb : !Labels} `{HC : !Cluster} `{HI : !MapIter}.
Implicit Types st : AllocState.

(** Every call of the handlers, but taking an item off a queue. *)
Record calls_respect (R : World → World → Prop) : Prop := {
  cr_preorder : PreOrder R;
  cr_patch n l w : R w (PatchNodeCIDRs n l w).2;
  cr_create c w : R w (networkClient_Create c w).2;
  cr_update c w : R w (networkClient_Update c w).2;
  cr_done q k w : R w (queue_Done q k w);
  cr_forget q k w : R w (queue_Forget q k w);
  cr_limit q k w : R w (queue_AddRateLimited q k w)
}.

Lemma calls_stable R w0 : calls_respect R → stable_map (λ st, R w0 (world st)).
Proof using. intros [[] ? ? ? ? ? ?]. split; [split|..]; intros; simpl in *; eauto. Qed.

(** One sync of either queue. *)
Definition sync_of (q : QueueName) : string → M AllocState unit :=
  match q with cidrQueue => syncClusterCIDR | nodeQueue => syncNode end.

Lemma sync_respects R q key st : calls_respect R → R (world st) (world (sync_of q key st).2).
Proof using.
  intros HR. pose proof (calls_stable R (world st) HR) as Hs. destruct q; simpl.
  - apply (preserves_syncClusterCIDR _ Hs). apply (cr_preorder _ HR).
  - apply (preserves_syncNode _ (sm_stable _ Hs)). apply (cr_preorder _ HR).
Qed.

(** One round of a worker: nothing, when the queue is shut down, or one sync. *)
Lemma round_respects R q st w key : calls_respect R → queue_Get q (world st) = (Some key, w) →
  let '(r, st') := processNextWorkItem q (sync_of q) st in
  R w (world st') ∧ (r = Ok true ∨ ∃ p, r = Panic p).
Proof using.
  intros HR Hg. unfold processNextWorkItem. rewrite Hg. unfold deferred.
  pose proof (sync_respects R q key (with_world w st) HR) as Hs. destruct HR as [[Hrefl Htrans] _ _ _ Hd Hf Hl].
  mred. destruct (sync_of q key (with_world w st)) as [[[]|e|p] st']; simpl in *; (split; [|by eauto]).
  - etransitivity; [exact Hs|]. etransitivity; [apply Hf|apply Hd].
  - etransitivity; [exact Hs|]. etransitivity; [apply Hl|apply Hd].
  - etransitivity; [exact Hs|]. apply Hd.
Qed.
End calls.

(** * A queue that is shut down *)

Section draining.
Context `{HN : !NetUtils} `{HLb : !Labels} `{HC : !Cluster} `{HI : !MapIter} `{HR : !Runtime}.
Implicit Types st : AllocState.

(** A work queue that is shutting down takes no more items: each one it hands out
    is one less it has [pending]. *)
Record drains (q : QueueName) (pending : World → nat) : Prop := {
  dr_get w key w' : queue_ShuttingDown q w = true → queue_Get q w = (Some key, w') →
    queue_ShuttingDown q w' = true ∧ (pending w' < pending w)%nat;
  dr_calls : calls_respect (λ w w', queue_ShuttingDown q w = true →
    queue_ShuttingDown q w' = true ∧ (pending w' ≤ pending w)%nat)
}.

(** ShutDown shuts its queue down, and nothing opens a queue again. *)
Record shuts_down : Prop := {
  sd_queue q w : queue_ShuttingDown q (queue_ShutDown q w) = true;
  sd_other q q' w : queue_ShuttingDown q w = true → queue_ShuttingDown q (queue_ShutDown q' w) = true;
  sd_broadcaster q w : queue_ShuttingDown q w = true → queue_ShuttingDown q (broadcaster_Shutdown w) = true
}.

Lemma runDeferred_shut q st : shuts_down → queue_ShuttingDown q (world (runDeferred st)) = true.
Proof using. intros [H1 H2 H3]. destruct q; simpl; apply H3; [apply H1|apply H2, H1]. Qed.

Lemma drain_run q pending rounds st : drains q pending → queue_ShuttingDown q (world st) = true →
  (pending (world st) < rounds)%nat →
  ∃ r st', runWorker rounds (processNextWorkItem q (sync_of q)) st = (r, st') ∧ (r = Ok true ∨ ∃ p, r = Panic p).
Proof using.
  intros HD. revert st. induction rounds as [|rounds IH]; intros st Hs Hlt; [lia|]. cbn [runWorker].
  destruct (queue_Get q (world st)) as [[key|] w] eqn:Hg.
  - destruct (dr_get _ _ HD _ _ _ Hs Hg) as [Hs1 Hlt1]. pose proof (round_respects _ q st w key (dr_calls _ _ HD) Hg) as Hr.
    destruct (processNextWorkItem q (sync_of q) st) as [r st1] eqn:E. destruct Hr as [Hr Hcase].
    destruct (Hr Hs1) as [Hs2 Hle]. destruct Hcase as [->|[p ->]].
    + mstep E. apply IH; [done|lia].
    + rewrite (M_bind_Panic _ _ _ _ _ E). eexists _, _. split; [done|]. right. by eexists.
  - assert (processNextWorkItem q (sync_of q) st = (Ok false, with_world w st)) as E by (unfold processNextWorkItem; by rewrite Hg).
    mstep E. eexists _, _. split; [done|by left].
Qed.
End draining.

(** * A queue in use *)

Section fifo.
Context `{HN : !NetUtils} `{HLb : !Labels} `{HC : !Cluster} `{HI : !MapIter}.
Implicit Types st : AllocState.

(** A work queue hands out its items in the order they were added. *)
Record fifo (q : QueueName) (queued : World → list string) : Prop := {
  ff_get w key keys : queued w = key :: keys → ∃ w', queue_Get q w = (Some key, w') ∧ queued w' = keys;
  ff_calls : calls_respect (λ w w', queued w `prefix_of` queued w')
}.

(** [served q queued keys st st']: on the way from [st] to [st'] the workers of [q]
    took [keys] off it and synced them; anything else may have happened in between
    that takes no item off the queue. *)
Inductive served (q : QueueName) (queued : World → list string) : list string → AllocState → AllocState → Prop :=
| served_nil st : served q queued [] st st
| served_round key w keys st st1 st2 : queue_Get q (world st) = (Some key, w) →
    processNextWorkItem q (sync_of q) st = (Ok true, st1) → served q queued keys st1 st2 → served q queued (key :: keys) st st2
| served_other keys st st1 st2 : queued (world st) `prefix_of` queued (world st1) →
    served q queued keys st1 st2 → served q queued keys st st2.

(** The first keys served are the ones that were queued. *)
Lemma served_order q queued keys st st' l : fifo q queued → served q queued keys st st' → l `prefix_of` queued (world st) →
  if decide (length keys ≤ length l)%nat then keys = take (length keys) l ∧ drop (length keys) l `prefix_of` queued (world st')
  else l `prefix_of` keys.
Proof using.
  intros HF Hs. revert l. induction Hs as [st|key w keys st st1 st2 Hg E _ IH|keys st st1 st2 Hpre _ IH]; intros l Hl.
  - by rewrite decide_True by (simpl; lia).
  - destruct l as [|k l]; [by rewrite decide_False by (simpl; lia); exists (key :: keys)|].
    destruct Hl as [tail Hl]. destruct (ff_get _ _ HF _ _ _ Hl) as (w' & Hg' & Hw'). rewrite Hg in Hg'. injection Hg' as -> ->.
    pose proof (round_respects _ q st w' k (ff_calls _ _ HF) Hg) as Hr. rewrite E in Hr. destruct Hr as [Hr _].
    specialize (IH l ltac:(etransitivity; [exists tail; exact Hw'|exact Hr])). simpl.
    repeat case_decide; try lia; [|by apply prefix_cons].
    destruct IH as [E1 E2]. split; [by f_equal|done].
  - apply IH. by etransitivity.
Qed.
(** The round that served the [i]-th key. *)
Lemma served_split q queued keys st st' i key : served q queued keys st st' → keys !! i = Some key →
  ∃ s1 w s2, served q queued (take i keys) st s1 ∧ queue_Get q (world s1) = (Some key, w)
    ∧ processNextWorkItem q (sync_of q) s1 = (Ok true, s2) ∧ served q queued (drop (S i) keys) s2 st'.
Proof using.
  intros Hs. revert i. induction Hs as [st|k w keys st st1 st2 Hg E Hs IH|keys st st1 st2 Hpre Hs IH]; intros i Hi; [done|..].
  - destruct i as [|i].
    + injection Hi as ->. exists st, w, st1. by split_and!; [apply served_nil|..].
    + destruct (IH i Hi) as (s1 & w' & s2 & H1 & H2 & H3 & H4). exists s1, w', s2. split_and!; try done. by eapply served_round.
  - destruct (IH i Hi) as (s1 & w' & s2 & H1 & H2 & H3 & H4). exists s1, w', s2. split_and!; try done. by eapply served_other.
Qed.

(** The item is synced, forgotten or queued again with a delay, and marked done. *)
Definition synced (q : QueueName) (key : string) (st st' : AllocState) : Prop :=
  match sync_of q key st with
  | (Ok _, s) => st' = onQueue (queue_Done q key) (onQueue (queue_Forget q key) s)
  | (Err _, s) => st' = onQueue (queue_Done q key) (onQueue (queue_AddRateLimited q key) s)
  | (Panic _, _) => False
  end.

Lemma round_syncs q st w key st' : queue_Get q (world st) = (Some key, w) →
  processNextWorkItem q (sync_of q) st = (Ok true, st') → synced q key (with_world w st) st'.
Proof using.
  intros Hg. unfold processNextWorkItem, synced. rewrite Hg. unfold deferred. mred.
  destruct (sync_of q key (with_world w st)) as [[[]|e|p] s]; by intros [= <-].
Qed.
End fifo.
