(* ===== verification/HandlerProps.v ===== *)
(** Running the small handlers: reading and writing an object, the loops over the
    objects of a list, a call to the API server. *)
From S2P Require Import Prelude GoNet CIDRTheory CIDRText NetUtils MultiCIDRSet ContainerHeap PriorityQueue Kubernetes Allocator NodeHandlers ClusterCIDRHandlers AllocatorInv.

Section handlers.
Context `{HN : !NetUtils} `{HLb : !Labels} `{HC : !Cluster} `{HI : !MapIter}.
Implicit Types st : AllocState.

Lemma getObj_run st p c : objs st !! p = Some c → getObj p st = (Ok c, st).
Proof using. intros Hc. unfold getObj, deref. by rewrite Hc. Qed.

Lemma updObj_run st p c g : objs st !! p = Some c → updObj p g st = (Ok tt, with_objs (<[p := g c]>) st).
Proof using. intros Hc. unfold updObj. by mstep (getObj_run st p c Hc). Qed.

(** The name of the object at an address, if there is one. *)
Definition name_at st (p : loc) : option string := Name <$> objs st !! p.

Definition del_err (name : string) : error :=
  Errorf "ClusterCIDRSet %s marked as terminating, won't be deleted until all associated nodes are deleted" [name].

(** The loop skips the objects of other names. *)
Lemma deleteLoop_skip name key l k pre rest st : (∀ q, q ∈ pre → ∃ n, name_at st q = Some n ∧ n ≠ name) →
  deleteLoop name key l k (pre ++ rest) st = deleteLoop name key l (length pre + k) rest st.
Proof using.
  revert k. induction pre as [|q pre IH]; intros k Hpre; [done|]. cbn [app deleteLoop length].
  destruct (Hpre q) as (n & Hn & Hne); [by left|]. apply fmap_Some in Hn as (c & Hc & ->).
  mstep (getObj_run st q c Hc). destruct (String.eqb_spec (Name c) name); [done|]. cbn [negb].
  rewrite IH by (intros q' Hq'; apply Hpre; by right). f_equal. lia.
Qed.

Lemma deleteLoop_hit name key l p c rest k st : objs st !! p = Some c → Name c = name →
  deleteLoop name key l k (p :: rest) st =
  let st1 := with_objs (<[p := with_terminating true c]>) st in
  if decide (AssociatedNodes c = ∅) then
    (Ok tt, with_cidrMap (if decide (length l = 1%nat) then delete key else insert key (delete k l)) st1)
  else (Err (del_err name), st1).
Proof using.
  intros Hc Hn. cbn [deleteLoop]. mstep (getObj_run st p c Hc). rewrite Hn, String.eqb_refl. cbn [negb].
  mstep (updObj_run st p c (with_terminating true) Hc). cbn zeta. case_decide as Ha.
  - rewrite Ha, map_size_empty. simpl. case_decide as El; [by rewrite El|].
    rewrite (proj2 (Nat.eqb_neq _ _) El). by rewrite delete_take_drop.
  - destruct (Nat.ltb_spec 0 (size (AssociatedNodes c))) as [|Hsz]; [done|].
    exfalso. apply Ha, map_size_empty_inv. lia.
Qed.

Lemma callAPI_run st f : callAPI f st = (Ok (f (world st)).1, with_world (f (world st)).2 st).
Proof using. unfold callAPI. by destruct (f (world st)). Qed.

(** What [if _, err := call(); err != nil { return err }] returns. *)
Definition api_result (r : option error) : exit unit := match r with None => Ok tt | Some e => Err e end.

Lemma returnErr_run st f : returnErr (callAPI f) st = (api_result (f (world st)).1, with_world (f (world st)).2 st).
Proof using. unfold returnErr. mstep (callAPI_run st f). by destruct (f (world st)).1. Qed.

Lemma containsName_run st name l : (∀ p, p ∈ l → is_Some (objs st !! p)) →
  containsName name l st = (Ok (bool_decide (Exists (λ p, name_at st p = Some name) l)), st).
Proof using.
  induction l as [|p l IH]; intros Hl; [done|]. destruct (Hl p) as [c Hc]; [by left|]. cbn [containsName].
  mstep (getObj_run st p c Hc). assert (name_at st p = Some (Name c)) as Hp by (unfold name_at; by rewrite Hc).
  destruct (String.eqb_spec name (Name c)) as [->|Hne].
  - rewrite bool_decide_true; [done|]. by left.
  - rewrite IH by (intros q Hq; apply Hl; by right). do 2 f_equal. apply bool_decide_ext.
    rewrite Exists_cons. naive_solver.
Qed.
End handlers.

(** [deleteClusterCIDR] of a mapped ClusterCIDR. *)
Lemma deleteClusterCIDR_run `{HLb : !Labels} `{HC : !Cluster} (st : AllocState) cc key pre p c rest : nodeSelectorKey cc = Ok key →
  cidrMap st !! key = Some (pre ++ p :: rest) → (∀ q, q ∈ pre → ∃ n, name_at st q = Some n ∧ n ≠ cc_Name cc) →
  objs st !! p = Some c → Name c = cc_Name cc →
  let st1 := with_objs (<[p := with_terminating true c]>) st in
  deleteClusterCIDR cc st =
    if decide (AssociatedNodes c = ∅) then
      (Ok tt, with_cidrMap (if decide (pre ++ rest = []) then delete key else insert key (pre ++ rest)) st1)
    else (Err (del_err (cc_Name cc)), st1).
Proof.
  intros Hkey Hl Hpre Hc Hn. cbn zeta. unfold deleteClusterCIDR. unfold lift. rewrite Hkey. mred. rewrite Hl.
  rewrite (deleteLoop_skip (cc_Name cc) key _ 0 pre (p :: rest) st Hpre).
  rewrite (deleteLoop_hit (cc_Name cc) key _ p c rest _ st Hc Hn). cbn zeta. case_decide; [|done].
  do 2 f_equal. rewrite Nat.add_0_r, delete_middle, length_app. simpl.
  destruct (decide ((length pre + S (length rest))%nat = 1%nat)) as [E1|E1], (decide (pre ++ rest = [])) as [E2|E2]; try done.
  - exfalso. apply E2. destruct pre, rest; simpl in *; try done; lia.
  - exfalso. apply E1. apply app_eq_nil in E2 as [-> ->]. done.
Qed.
