(* ===== verification/MapInv.v ===== *)
(** The map from selectors to ClusterCIDRs, in every reachable state.

    [shape] is what the invariant [map_ok] speaks about: the map, the names of the
    objects and the next free address.  Only creating, mapping and deleting a
    ClusterCIDR change it; every other operation keeps it because it is [stable].
    No assumption on the inputs or on the libraries is used. *)
From S2P Require Import Prelude GoNet CIDRTheory CIDRText NetUtils MultiCIDRSet ContainerHeap PriorityQueue Kubernetes Allocator NodeHandlers ClusterCIDRHandlers EventHandlers Stable AllocatorInv AllocatorKeeps Controller HandlerProps.

Section shape.
Context `{HC : !Cluster}.
Implicit Types st : AllocState.

Definition shape st : gmap string (list loc) * gmap loc string * loc := (cidrMap st, Name <$> objs st, next_loc st).

Lemma shape_update st l c c' : objs st !! l = Some c → Name c' = Name c → shape (with_objs (<[l := c']>) st) = shape st.
Proof using. intros Hc Hn. unfold shape. simpl. rewrite fmap_insert, Hn, insert_id; [done|]. by rewrite lookup_fmap, Hc. Qed.

Lemma shape_stable x : stable (λ st, shape st = x).
Proof using. split; try done. intros st l c c' <- Hc Hn. by apply (shape_update st l c). Qed.

(** The operations that keep every shape. *)
Definition frames {A} (m : M AllocState A) : Prop := ∀ x, preserves (λ st, shape st = x) m.

Lemma frames_stable {A} (m : M AllocState A) : (∀ P, stable P → preserves P m) → frames m.
Proof using. intros Hm x. apply Hm, shape_stable. Qed.
End shape.

(** * The invariant *)

Section map_ok.
Context `{HC : !Cluster}.
Implicit Types st : AllocState.

Record map_ok st : Prop := {
  mo_nonempty label l : cidrMap st !! label = Some l → l ≠ [];
  mo_names label l : cidrMap st !! label = Some l → NoDup (name_at st <$> l);
  mo_disjoint label label' l l' p : cidrMap st !! label = Some l → cidrMap st !! label' = Some l' →
    p ∈ l → p ∈ l' → label = label';
  mo_mapped p : mapped st p → is_Some (name_at st p);
  mo_fresh p : is_Some (name_at st p) → (p < next_loc st)%positive
}.

Lemma map_ok_shape st st' : shape st' = shape st → map_ok st → map_ok st'.
Proof using.
  intros [= Hm Ho Hn] [H1 H2 H3 H4 H5].
  assert (∀ p, name_at st' p = name_at st p) as Hname by (intros p; unfold name_at; by rewrite <- !lookup_fmap, Ho).
  assert (∀ p, mapped st' p ↔ mapped st p) as Hmap by (intros p; unfold mapped; by rewrite Hm).
  split.
  - intros label l. rewrite Hm. apply H1.
  - intros label l. rewrite Hm. rewrite (list_fmap_ext (name_at st') (name_at st)) by (intros; apply Hname). apply H2.
  - intros label label' l l' p. rewrite Hm. apply H3.
  - intros p. rewrite Hmap, Hname. apply H4.
  - intros p. rewrite Hname, Hn. apply H5.
Qed.

Lemma keeps_frames {A} (m : M AllocState A) : frames m → keeps map_ok m (λ _, True).
Proof using. intros Hm st Hst. split; [|done]. by apply (map_ok_shape st); [apply (Hm (shape st) st)|]. Qed.

Lemma keeps_stable {A} (m : M AllocState A) : (∀ P, stable P → preserves P m) → keeps map_ok m (λ _, True).
Proof using. intros Hm. by apply keeps_frames, frames_stable. Qed.

(** Replacing the list of a label by a part of it. *)
Lemma map_ok_shorter st label l l' : map_ok st → cidrMap st !! label = Some l → l' ≠ [] → sublist l' l →
  map_ok (with_cidrMap (insert label l') st).
Proof using.
  intros [H1 H2 H3 H4 H5] Hl Hne Hsub.
  assert (∀ k x, <[label := l']> (cidrMap st) !! k = Some x → ∃ y, cidrMap st !! k = Some y ∧ sublist x y) as Hold.
  { intros k x. rewrite lookup_insert. case_decide as Hk; [intros [= <-]; subst k; by exists l|intros Hx; by exists x]. }
  split; simpl.
  - intros k x. rewrite lookup_insert. case_decide; [by intros [= <-]|apply H1].
  - intros k x (y & Hy & Hxy)%Hold. eapply sublist_NoDup; [by apply (H2 k y)|]. by apply fmap_sublist.
  - intros k k' x x' p (y & Hy & Hxy)%Hold (y' & Hy' & Hxy')%Hold Hp Hp'.
    eapply (H3 k k' y y' p); [done|done|by apply (elem_of_sublist x)|by apply (elem_of_sublist x')].
  - intros p (k & x & (y & Hy & Hxy)%Hold & Hp). apply H4. exists k, y. split; [done|by apply (elem_of_sublist x)].
  - done.
Qed.

Lemma map_ok_unmapped st label : map_ok st → map_ok (with_cidrMap (delete label) st).
Proof using.
  intros [H1 H2 H3 H4 H5].
  assert (∀ k x, delete label (cidrMap st) !! k = Some x → cidrMap st !! k = Some x) as Hold
    by (intros k x [_ Hx]%lookup_delete_Some; done).
  split; simpl.
  - intros k x Hx%Hold. by eapply H1.
  - intros k x Hx%Hold. by eapply H2.
  - intros k k' x x' p Hx%Hold Hx'%Hold. by eapply H3.
  - intros p (k & x & Hx%Hold & Hp). apply H4. by exists k, x.
  - done.
Qed.

(** Storing a new object and appending its address to a list that lacks its name. *)
Lemma map_ok_new st c : map_ok st → map_ok (newObj c st).2 ∧ ¬ mapped (newObj c st).2 (next_loc st)
  ∧ name_at (newObj c st).2 (next_loc st) = Some (Name c).
Proof using.
  intros [H1 H2 H3 H4 H5].
  assert (¬ mapped st (next_loc st)) as Hnm by (intros H%H4%H5; lia).
  assert (∀ p, name_at (newObj c st).2 p = if decide (next_loc st = p) then Some (Name c) else name_at st p) as Hname.
  { intros p. unfold name_at. simpl. rewrite lookup_insert. by case_decide. }
  split; [split; simpl|split; [done|]].
  - done.
  - intros k x Hx. rewrite (list_fmap_ext _ (name_at st)); [by eapply H2|]. intros i p Hp. rewrite Hname.
    rewrite decide_False; [done|]. intros <-. apply Hnm. exists k, x. split; [done|]. by eapply list_elem_of_lookup_2.
  - done.
  - intros p Hp. rewrite Hname. case_decide; [by eexists|]. by apply H4.
  - intros p. rewrite Hname. case_decide as E; [subst p; lia|]. intros Hp%H5. lia.
  - rewrite Hname. by rewrite decide_True.
Qed.

Lemma map_ok_append st key p l name : map_ok st → name_at st p = Some name → ¬ mapped st p →
  default [] (cidrMap st !! key) = l → (∀ q, q ∈ l → name_at st q ≠ Some name) →
  map_ok (with_cidrMap (insert key (l ++ [p])) st).
Proof using.
  intros [H1 H2 H3 H4 H5] Hp Hnm <- Hnew.
  assert (∀ k x q, <[key := default [] (cidrMap st !! key) ++ [p]]> (cidrMap st) !! k = Some x → q ∈ x →
    (k = key ∧ q = p) ∨ ∃ y, cidrMap st !! k = Some y ∧ q ∈ y) as Hold.
  { intros k x q. rewrite lookup_insert. case_decide as Hk; [|intros Hx Hq; right; by exists x]. intros [= <-] Hq. subst k.
    apply elem_of_app in Hq as [Hq| ->%list_elem_of_singleton]; [|by left]. right.
    destruct (cidrMap st !! key) as [y|]; [by exists y|by apply elem_of_nil in Hq]. }
  split; simpl.
  - intros k x. rewrite lookup_insert. case_decide; [intros [= <-]; by destruct (default _ _)|apply H1].
  - intros k x. rewrite lookup_insert. case_decide as Hk; [|apply H2]. intros [= <-]. rewrite fmap_app. apply NoDup_app. split_and!.
    + destruct (cidrMap st !! key) as [y|] eqn:Hy; [exact (H2 key y Hy)|constructor].
    + intros n Hn Hn'. apply list_elem_of_fmap in Hn as (q & -> & Hq). simpl in Hn'. apply list_elem_of_singleton in Hn'. assert (name_at st q = name_at st p) as E by exact Hn'.
      apply (Hnew q Hq). by rewrite E.
    + apply NoDup_singleton.
  - intros k k' x x' q Hx Hx' Hq Hq'.
    destruct (Hold k x q Hx Hq) as [[Ek Eq]|(y & Hy & Hqy)], (Hold k' x' q Hx' Hq') as [[Ek' Eq']|(y' & Hy' & Hqy')]; [congruence|..].
    + subst q. destruct Hnm. by exists k', y'.
    + subst q. destruct Hnm. by exists k, y.
    + by eapply H3.
  - intros q (k & x & Hx & Hq). destruct (Hold k x q Hx Hq) as [[_ ->]|(y & Hy & Hqy)]; [by eexists|]. apply H4. by exists k, y.
  - done.
Qed.
End map_ok.

(** * Every handler *)

Section handlers.
Context `{HN : !NetUtils} `{HLb : !Labels} `{HC : !Cluster} `{HI : !MapIter} `{HF : !Informers}.
Implicit Types st : AllocState.

Abbreviation any := (λ _, True).

Lemma mapCluster_ok st key p name : map_ok st → name_at st p = Some name → ¬ mapped st p →
  map_ok (mapClusterCIDRSet key (Some p) st).2.
Proof.
  intros Hst Hp Hnm. unfold mapClusterCIDRSet. assert (get st = (Ok st, st)) as Eg by done. mstep Eg.
  destruct (cidrMap st !! key) as [l|] eqn:Hl.
  - assert (∃ c, objs st !! p = Some c ∧ Name c = name) as (c & Hc & Hn) by (by apply fmap_Some in Hp as (c & ? & ->); exists c).
    mstep (getObj_run st p c Hc). rewrite Hn.
    assert (∀ q, q ∈ l → is_Some (objs st !! q)) as Hobjs.
    { intros q Hq. apply (fmap_is_Some Name). apply (mo_mapped _ Hst). by exists key, l. }
    mstep (containsName_run st name l Hobjs). case_bool_decide as Hex; [done|]. simpl.
    apply (map_ok_append st key p l name); [done|done|done|by rewrite Hl|].
    intros q Hq Hqn. apply Hex, Exists_exists. by exists q.
  - simpl. apply (map_ok_append st key p [] name); [done|done|done|by rewrite Hl|]. by intros q ?%elem_of_nil.
Qed.

Lemma map_ok_createClusterCIDR c b : keeps map_ok (createClusterCIDR c b) any.
Proof.
  unfold createClusterCIDR. eapply keeps_bind; [apply keeps_stable; intros; preserve|]. intros key _.
  eapply keeps_bind; [apply keeps_stable; intros; by apply preserves_wrapErr, preserves_createClusterCIDRSet|]. intros o _.
  apply keeps_if; [apply keeps_fail|].
  assert (∀ (k : loc → M AllocState unit) g, (∀ p, keeps map_ok (k p) any) →
    keeps map_ok (p ← newObj o; wrapErr g (mapClusterCIDRSet key (Some p)) ;; k p) any) as Hnew.
  { intros k g Hk st Hst. destruct (map_ok_new st o Hst) as (H1 & H2 & H3).
    assert (newObj o st = (Ok (next_loc st), (newObj o st).2)) as En by done. mstep En.
    pose proof (mapCluster_ok (newObj o st).2 key (next_loc st) (Name o) H1 H3 H2) as Hm.
    unfold mbind, M_bind, wrapErr. destruct (mapClusterCIDRSet key (Some (next_loc st)) (newObj o st).2) as [[[]|e|q] st'];
      [by apply Hk|done|done]. }
  apply Hnew. intros p. apply keeps_stable. intros. preserve.
Qed.

Lemma deleteLoop_ok name key l i rest st : map_ok st → cidrMap st !! key = Some l →
  map_ok (deleteLoop name key l i rest st).2.
Proof.
  revert i. induction rest as [|p rest IH]; intros i Hst Hl; [done|]. cbn [deleteLoop].
  destruct (objs st !! p) as [c|] eqn:Hc; [|by unfold getObj, deref; mred; rewrite Hc].
  mstep (getObj_run st p c Hc). case_match; [by apply IH|].
  mstep (updObj_run st p c (with_terminating true) Hc).
  assert (map_ok (with_objs (<[p := with_terminating true c]>) st)) as Hst1
    by (eapply map_ok_shape; [|exact Hst]; by apply (shape_update st p c)).
  case_match; [done|]. case_match; simpl; [by apply map_ok_unmapped|].
  apply (map_ok_shorter _ key l); [done|done| |rewrite <- delete_take_drop; apply sublist_delete].
  pose proof (mo_nonempty _ Hst key l Hl) as Hne. intros Hnil%(f_equal length).
  rewrite length_app, length_take, length_drop in Hnil. simpl in Hnil.
  assert (length l ≠ 1%nat) by (by apply Nat.eqb_neq). destruct l; simpl in *; [done|lia].
Qed.

Lemma map_ok_reconcileDelete c : keeps map_ok (reconcileDelete c) any.
Proof.
  unfold reconcileDelete. apply keeps_if; [|by apply keeps_ret]. apply (keeps_bind _ _ _ any).
  - unfold deleteClusterCIDR. eapply keeps_bind; [apply keeps_stable; intros; preserve|]. intros key _ st Hst. split; [|done].
    assert (get st = (Ok st, st)) as Eg by done. mstep Eg.
    destruct (cidrMap st !! key) as [l|] eqn:Hl; [by apply deleteLoop_ok|done].
  - intros _ _. apply keeps_stable. intros. preserve.
Qed.

Lemma map_ok_syncClusterCIDR key : keeps map_ok (syncClusterCIDR key) any.
Proof.
  unfold syncClusterCIDR. eapply keeps_bind; [apply keeps_stable; intros; preserve|]. intros st _.
  destruct (clusterCIDRLister_Get (world st) key) as [e|c]; [apply keeps_stable; intros; preserve|].
  apply keeps_if; [apply map_ok_reconcileDelete|apply map_ok_createClusterCIDR].
Qed.

Lemma map_ok_worker q sync : (∀ key, keeps map_ok (sync key) any) → keeps map_ok (processNextWorkItem q sync) any.
Proof. intros Hsync. apply worker_rule; [intros st|intros ? st..|done]; by apply (map_ok_shape st). Qed.

Lemma map_ok_addKey q key : keeps map_ok (addKey q key) any.
Proof. destruct key as [e|key]; apply keeps_frames; by intros x st Hst. Qed.

Lemma map_ok_start params nodes : keeps map_ok (NewMultiCIDRRangeAllocator params nodes) any.
Proof.
  unfold NewMultiCIDRRangeAllocator. eapply keeps_bind.
  { apply keeps_frames. intros x st Hst. unfold listClusterCIDRs. by destruct (ExponentialBackoff _ _ _ _) as [[e|] [w l]]. }
  intros ccs _.
  eapply keeps_bind; [apply keeps_stable; intros; preserve|]. intros items _. eapply keeps_bind.
  { apply (keeps_forM _ items _ any); [by apply Forall_forall|]. intros c _. eapply keeps_bind.
    - apply (keeps_attempt _ _ any), map_ok_createClusterCIDR.
    - intros [e|u] _; apply keeps_stable; intros; preserve. }
  intros _ _. eapply keeps_bind; [|intros _ _; eapply keeps_bind; [|intros _ _]].
  - apply keeps_stable. intros. unfold filterOut. preserve. by apply preserves_filterOutServiceRange.
  - apply keeps_stable. intros. unfold filterOut. preserve. by apply preserves_filterOutServiceRange.
  - apply keeps_stable. intros. preserve. by apply preserves_occupyCIDRs.
Qed.

Lemma step_map Wok st st' : map_ok st → step Wok st st' → map_ok st'.
Proof.
  assert (∀ A (m : M AllocState A) st r st', keeps map_ok m any → map_ok st → m st = (r, st') → map_ok st') as Hk.
  { intros A m s r s' Hm Hs E. destruct (Hm s Hs) as [H _]. by rewrite E in H. }
  intros Hst [r st1 E|r st1 E|node r st1 Hn E|node r st1 Hn E|c r st1 Hc E|c r st1 E|obj r st1 E|old new r st1 E|obj r st1 E|obj r st1 E|old new r st1 E|obj r st1 Hobj E|w Hw].
  13: by apply (map_ok_shape st).
  all: eapply Hk; [|exact Hst|exact E].
  - apply map_ok_worker, map_ok_syncClusterCIDR.
  - apply map_ok_worker. intros key. apply keeps_stable; intros; by apply preserves_syncNode.
  - apply keeps_stable; intros; by apply preserves_AllocateOrOccupyCIDR.
  - apply keeps_stable; intros; by apply preserves_ReleaseCIDR.
  - apply map_ok_createClusterCIDR.
  - apply map_ok_reconcileDelete.
  - apply map_ok_addKey.
  - unfold cidrUpdateFunc. apply keeps_if; [by apply keeps_ret|apply map_ok_addKey].
  - apply map_ok_addKey.
  - apply map_ok_addKey.
  - apply map_ok_addKey.
  - apply keeps_stable; intros; by apply preserves_handleNodeDelete.
Qed.

Lemma init_map w : map_ok (initState w).
Proof.
  assert (∀ p, ¬ is_Some (name_at (initState w) p)) as Hn by (intros p; unfold name_at; simpl; rewrite lookup_empty; by intros [? ?]).
  split; simpl.
  - by intros ? ? ?%lookup_empty_Some.
  - by intros ? ? ?%lookup_empty_Some.
  - by intros ? ? ? ? ? ?%lookup_empty_Some.
  - intros p (k & l & Hl & _). simpl in Hl. by rewrite lookup_empty in Hl.
  - intros p Hp. by apply Hn in Hp.
Qed.

Lemma reachable_map Wok params nodes st : reachable Wok params nodes st → map_ok st.
Proof.
  intros Hr. induction Hr as [w st Hw E|st st' _ IH Hstep]; [|by eapply step_map].
  destruct (map_ok_start params nodes (initState w) (init_map w)) as [H _]. by rewrite E in H.
Qed.
End handlers.
