(* ===== verification/Examples.v ===== *)
(** Concrete states for the witnesses: a controller that runs on the reference
    instances, with one IPv4 ClusterCIDR, one dual-stack ClusterCIDR selected by a
    label, and two nodes.  The states are reached by running the handlers. *)
From S2P Require Import Prelude GoNet CIDRTheory CIDRText NetUtils MultiCIDRSet IndexTheory IndexProps SetProps SetConstruction.
From S2P Require Import ContainerHeap PriorityQueue Kubernetes Allocator NodeHandlers ClusterCIDRHandlers EventHandlers AllocatorInv AllocateProps MatchProps NodeProps Reference AllocatorKeeps Controller HandlerProps MapInv.

#[export] Existing Instance refNetUtils.
#[export] Existing Instance refLabels.
#[export] Existing Instance refCluster.
#[export] Existing Instance refIter.
#[export] Existing Instance refInformers.

(** * Well-formed objects, decided *)

(** A text that is a block of the family [f] with the given geometry. *)
Lemma range_ok_block f h s w v p : w = fam_width f → parseCIDR s = Some (ipOf w v, block w v p) →
  usable w v p h → range_ok f h s.
Proof.
  intros -> Hs Hu. right. intros ip n E. simpl in E. rewrite Hs in E. injection E as <- <-.
  exists v, p. split; [done|]. split; [apply Hu|by left].
Qed.

Lemma range_ok_empty f h : range_ok f h EmptyString.
Proof. by left. Qed.

Lemma text_ok_block s w v p f : w = fam_width f → parseCIDR s = Some (ipOf w v, block w v p) →
  valid_block w v p → text_ok s.
Proof.
  intros -> Hs Hb ip n E. simpl in E. rewrite Hs in E. injection E as <- <-. by exists f, v, p.
Qed.

(** * The objects *)

Definition ex_cc4 : v1ClusterCIDR :=
  mkCC "cc4" 1 "1" None [] (mkSpecCC None 4 "10.0.0.0/24" EmptyString).

Definition ex_selector : NodeSelector := mkNodeSelector [mkTerm [mkRequirement "zone" "In" ["a"]] []].

Definition ex_dual : v1ClusterCIDR :=
  mkCC "dual" 1 "1" None [] (mkSpecCC (Some ex_selector) 4 "10.1.0.0/27" "fd00::/123").

Definition ex_node (name : string) (labels : gmap string string) (cidrs : list string) : Node :=
  mkNode name labels cidrs None.

Definition ex_n1 : Node := ex_node "n1" ∅ [].
Definition ex_n2 : Node := ex_node "n2" {["zone" := "a"]} [].

Lemma ex_cc4_ok : cc_ok ex_cc4.
Proof.
  split; [|apply range_ok_empty].
  apply (range_ok_block V4 4 _ 32 (10 * 2 ^ 24) 24); [done|vm_compute; reflexivity|by_decision].
Qed.

Lemma ex_dual_ok : cc_ok ex_dual.
Proof.
  split.
  - apply (range_ok_block V4 4 _ 32 (10 * 2 ^ 24 + 2 ^ 16) 27); [done|vm_compute; reflexivity|by_decision].
  - apply (range_ok_block V6 4 _ 128 (253 * 2 ^ 120) 123); [done|vm_compute; reflexivity|by_decision].
Qed.

(** * The outside world *)

Definition refWok (w : refWorld) : Prop :=
  (∀ k n, w_nodes w !! k = Some n → node_ok n) ∧ (∀ k c, w_ccs w !! k = Some c → cc_ok c).

(** The calls of the controller change neither the nodes nor the ClusterCIDRs. *)
Definition same_objects (w w' : refWorld) : Prop := w_nodes w' = w_nodes w ∧ w_ccs w' = w_ccs w.

Lemma refCallAPI_same c w : same_objects w (refCallAPI c w).2.
Proof. unfold refCallAPI. by destruct (w_results w). Qed.

Lemma refBackoff_ok n S (P : S → Prop) f s : (∀ s, P s → P (f s).2) → P s → P (refBackoff n S f s).2.
Proof.
  intros Hf. revert s. induction n as [|n IH]; intros s Hs; [done|]. simpl. specialize (Hf s Hs).
  destruct (f s) as [[e|[]] s']; simpl in *; [done|done|by apply IH].
Qed.

Lemma refWorld_closed_if (W : refWorld → Prop) : (∀ w, W w → refWok w) → (∀ w w', same_objects w w' → W w → W w') →
  world_closed W.
Proof.
  intros Hok Hsame. split.
  - intros w k n Hw E. simpl in E. unfold refLookup in E. destruct (w_nodes w !! k) as [m|] eqn:Hm; [|done].
    injection E as <-. by eapply (Hok w).
  - intros w k c Hw E. simpl in E. unfold refLookup in E. destruct (w_ccs w !! k) as [m|] eqn:Hm; [|done].
    injection E as <-. by eapply (Hok w).
  - intros w l w' Hw E. simpl in E. injection E as <- <-. apply Forall_forall. intros c Hl.
    apply list_elem_of_fmap in Hl as ([k c'] & -> & Hk%elem_of_map_to_list). by eapply (Hok w).
  - intros. eapply Hsame; [apply refCallAPI_same|done].
  - done.
  - intros. eapply Hsame; [apply refCallAPI_same|done].
  - intros. eapply Hsame; [apply refCallAPI_same|done].
  - intros q w. simpl. destruct (w_keys w); [done|]. by apply Hsame.
  - intros q k w. by apply Hsame.
  - intros q k w. by apply Hsame.
  - intros q k w. by apply Hsame.
  - intros S P b f s Hf Hs. exact (refBackoff_ok _ S P f s Hf Hs).
Qed.

Lemma refWorld_closed : world_closed refWok.
Proof. apply refWorld_closed_if; [done|]. intros w w' [En Ec] [Hn Hc]. split; [by rewrite En|by rewrite Ec]. Qed.

Lemma refAdd_closed q key (w : World) : refWok w → refWok (queue_Add q key w).
Proof. done. Qed.

Definition ex_world : refWorld := mkWorld {["n1" := ex_n1; "n2" := ex_n2]} {["cc4" := ex_cc4; "dual" := ex_dual]}
  ["cc4"; "dual"; "n1"; "n2"] [] [].

Lemma ex_world_ok : refWok ex_world.
Proof.
  split.
  - intros k n. simpl. rewrite lookup_insert, lookup_singleton.
    repeat case_decide; intros [= <-]; by constructor.
  - intros k c. simpl. rewrite lookup_insert, lookup_singleton.
    repeat case_decide; intros [= <-]; [apply ex_cc4_ok|apply ex_dual_ok].
Qed.

(** The state after both ClusterCIDRs were reconciled. *)
Definition ex_st : AllocState :=
  (reconcileCreate ex_dual (reconcileCreate ex_cc4 (initState ex_world)).2).2.

Lemma ex_inv : Inv (HC:=refCluster) refWok ex_st.
Proof.
  apply (keeps_createClusterCIDR (HC:=refCluster) refNetUtils_laws refWok refWorld_closed ex_dual false ex_dual_ok).
  apply (keeps_createClusterCIDR (HC:=refCluster) refNetUtils_laws refWok refWorld_closed ex_cc4 false ex_cc4_ok).
  apply init_inv, ex_world_ok.
Qed.

Lemma ex_ok : alloc_ok ex_st.
Proof. apply ex_inv. Qed.
