(* ===== verification/AllocatorTheorems.v ===== *)
(** The theorems about the allocator: allocation, matching order, the queue, and
    the invariant of every reachable state. *)
From S2P Require Import Prelude GoNet CIDRTheory CIDRText NetUtils MultiCIDRSet IndexTheory IndexProps SetProps SetConstruction.
From S2P Require Import ContainerHeap PriorityQueue Kubernetes Allocator NodeHandlers ClusterCIDRHandlers EventHandlers AllocatorInv AllocateProps MatchProps NodeProps Reference AllocatorKeeps Controller HandlerProps MapInv Examples.

(** * The set of the first example ClusterCIDR *)

Definition ex_s4 : MultiCIDRSet := newSet "cc4" 32 (10 * 2 ^ 24) 24 4.
Definition ex_L4 : layout := geometry 32 (10 * 2 ^ 24) 24 4.

Lemma ex_at4 : set_at ex_st (1%positive, V4) = Some ex_s4.
Proof. vm_compute. reflexivity. Qed.

Lemma ex_view4 : set_view V4 ex_s4 ex_L4 ∅.
Proof.
  assert (usable 32 (10 * 2 ^ 24) 24 4) as Hu by by_decision.
  split; [by apply geometry_ok|done|by apply newSet_inv].
Qed.

(** C7. Soundness, completeness and frame of [allocateCIDR] on one set of a
    well-formed state.  It ends, without a panic, in one of two ways.  Either it
    returns the first block from the cursor that is neither allocated in the set
    nor shares an address with a block in use in any mapped ClusterCIDR of that
    family, and has allocated exactly that block, in that set only; or every block
    of the set is taken in this sense, it returns the no-CIDRs-remaining error and
    only the cursor of that set may have moved. *)
Theorem allocateCIDR_correct `{HN : !NetUtils} `{HC : !Cluster} `{HI : !MapIter}
  (HNL : NetUtilsLaws HN) (HIL : MapIterLaws HI) (st : AllocState) l f s L A
  (Hok : alloc_ok st) (Hat : set_at st (l, f) = Some s) (Hv : set_view f s L A) :
  (∃ j st' s', 0 ≤ j < nmax L ∧ (∀ k, 0 ≤ k < j → taken st f L A (slot L (nextCandidate s) k))
     ∧ ¬ taken st f L A (slot L (nextCandidate s) j)
     ∧ allocateCIDR l (Some (l, f)) st = (Ok (node_block L (slot L (nextCandidate s) j)), st')
     ∧ set_replaced l f s' st st' ∧ set_view f s' L ({[slot L (nextCandidate s) j]} ∪ A))
  ∨ ((∀ i, 0 ≤ i < nmax L → taken st f L A i)
     ∧ ∃ st' n, allocateCIDR l (Some (l, f)) st = (Err (CIDRRangeNoCIDRsRemainingErr (Label s)), st')
       ∧ set_replaced l f (with_next n s) st st').
Proof.
  destruct (allocateCIDR_cases HNL HIL st l f s L A Hok Hat Hv)
    as [(j & st' & s' & Hj & Hb & Hg & E & Hr & Hv' & _)|(Hall & st' & n & E & Hr & _)].
  - left. by exists j, st', s'.
  - right. split; [done|]. by exists st', n.
Qed.

Lemma allocateCIDR_correct_witness :
  alloc_ok ex_st ∧ set_at ex_st (1%positive, V4) = Some ex_s4 ∧
  ((∃ j st' s', 0 ≤ j < nmax ex_L4 ∧ (∀ k, 0 ≤ k < j → taken ex_st V4 ex_L4 ∅ (slot ex_L4 0 k))
     ∧ ¬ taken ex_st V4 ex_L4 ∅ (slot ex_L4 0 j)
     ∧ allocateCIDR 1 (Some (1%positive, V4)) ex_st = (Ok (node_block ex_L4 (slot ex_L4 0 j)), st')
     ∧ set_replaced 1 V4 s' ex_st st' ∧ set_view V4 s' ex_L4 ({[slot ex_L4 0 j]} ∪ ∅))
  ∨ ((∀ i, 0 ≤ i < nmax ex_L4 → taken ex_st V4 ex_L4 ∅ i)
     ∧ ∃ st' n, allocateCIDR 1 (Some (1%positive, V4)) ex_st = (Err (CIDRRangeNoCIDRsRemainingErr (Label ex_s4)), st')
       ∧ set_replaced 1 V4 (with_next n ex_s4) ex_st st')).
Proof.
  split; [exact ex_ok|]. split; [exact ex_at4|].
  exact (allocateCIDR_correct refNetUtils_laws refIter_laws ex_st 1%positive V4 ex_s4 ex_L4 ∅ ex_ok ex_at4 ex_view4).
Defined.

(** C8. [prioritizedCIDRs] on a well-formed state whose labels parse never panics and
    ends in one of two ways.  It walks the matching ClusterCIDRs in their order and
    takes the first that has a free block for each of its families: one block per
    family, IPv4 first, none of whose addresses was in use in any mapped ClusterCIDR,
    allocated afterwards; each ClusterCIDR before it, when the walk came to it, had a
    family without a free block.  Or it fails, and all of them had one.  Nothing
    already allocated is released and nothing but sets is changed. *)
Theorem prioritizedCIDRs_correct `{HN : !NetUtils} `{HLb : !Labels} `{HC : !Cluster} `{HI : !MapIter}
  (HNL : NetUtilsLaws HN) (HIL : MapIterLaws HI) (st : AllocState) node sel
  (Hok : alloc_ok st) (Hlab : labels_ok st) (Hsel : nodeSelectorAsSelector (Some defaultNodeSelector) = Ok sel) :
  ∃ ls st0 st', orderedMatchingClusterCIDRs node true st = (Ok ls, st0) ∧ alloc_ok st' ∧ grows st st' ∧
    ((∃ cidrs cc pre post st1, ls = pre ++ cc :: post ∧ passes pre st0 st1 ∧ (∀ f, ¬ exhausted st1 cc f) ∧ allocated_for st1 st' cc cidrs
        ∧ prioritizedCIDRs node st = (Ok (cidrs, cc), st') ∧ allocated_for st st' cc cidrs)
     ∨ (passes ls st0 st' ∧ prioritizedCIDRs node st = (Err (unavailable node), st'))).
Proof.
  exact (prioritized_walk HNL HIL st node sel Hok Hlab Hsel).
Qed.

Definition ex_default_sel : option (list refRequirement) :=
  Some [(defaultClusterCIDRKey, selection_In, [defaultClusterCIDRValue])].

Lemma ex_map : cidrMap ex_st
  = {["zone in (a)" := [2%positive]; "kubernetes.io/clusterCIDR in (default)" := [1%positive]]}.
Proof. vm_compute. reflexivity. Qed.

Lemma ex_labels : labels_ok ex_st.
Proof.
  intros label. rewrite ex_map, lookup_insert, lookup_singleton.
  repeat case_decide; subst; intros [l [= <-]]; eexists; vm_compute; reflexivity.
Qed.

Lemma prioritizedCIDRs_correct_witness :
  ∃ ls st0 st', orderedMatchingClusterCIDRs ex_n2 true ex_st = (Ok ls, st0) ∧ alloc_ok st' ∧ grows ex_st st' ∧
    ((∃ cidrs cc pre post st1, ls = pre ++ cc :: post ∧ passes pre st0 st1 ∧ (∀ f, ¬ exhausted st1 cc f) ∧ allocated_for st1 st' cc cidrs
        ∧ prioritizedCIDRs ex_n2 ex_st = (Ok (cidrs, cc), st') ∧ allocated_for ex_st st' cc cidrs)
     ∨ (passes ls st0 st' ∧ prioritizedCIDRs ex_n2 ex_st = (Err (unavailable ex_n2), st'))).
Proof.
  apply (prioritizedCIDRs_correct (HLb:=refLabels) (HC:=refCluster) refNetUtils_laws refIter_laws ex_st ex_n2 ex_default_sel ex_ok ex_labels).
  vm_compute. reflexivity.
Defined.

(** * Every reachable state *)


Definition ex_params : CIDRAllocatorParams := mkParams [] None None [].
Definition ex_started : AllocState := (NewMultiCIDRRangeAllocator ex_params (Some [ex_n1; ex_n2]) (initState ex_world)).2.

Lemma ex_reachable : reachable (HC:=refCluster) refWok ex_params (Some [ex_n1; ex_n2]) ex_started.
Proof.
  apply (reach_start (HC:=refCluster) refWok _ _ ex_world); [apply ex_world_ok|].
  unfold ex_started. assert ((NewMultiCIDRRangeAllocator ex_params (Some [ex_n1; ex_n2]) (initState ex_world)).1 = Ok tt) as E
    by (vm_compute; reflexivity).
  rewrite <- E. apply surjective_pairing.
Qed.

Lemma ex_params_ok : params_ok ex_params.
Proof. split; [by intros existing l H [= <-]|done]. Qed.

Lemma ex_nodes_ok : nodes_ok (Some [ex_n1; ex_n2]).
Proof. intros l [= <-]. repeat constructor. Qed.


(** C10. The map of every reachable state, under no assumption on the inputs: no
    selector has an empty list; the objects of a list have pairwise different
    names, so that a ClusterCIDR is mapped at most once; no object is in two lists,
    so that an address space is never handed out through two entries. *)
Theorem reachable_map_unique `{HN : !NetUtils} `{HLb : !Labels} `{HC : !Cluster} `{HI : !MapIter} `{HF : !Informers}
  (Wok : World → Prop) params nodes st (Hr : reachable Wok params nodes st) :
  ∀ label l, cidrMap st !! label = Some l →
    l ≠ [] ∧ NoDup (name_at st <$> l) ∧ (∀ p, p ∈ l → is_Some (objs st !! p))
    ∧ ∀ label' l' p, cidrMap st !! label' = Some l' → p ∈ l → p ∈ l' → label' = label ∧ l' = l.
Proof.
  pose proof (reachable_map Wok params nodes st Hr) as [H1 H2 H3 H4 _]. intros label l Hl. split_and!.
  - by eapply H1.
  - by eapply H2.
  - intros p Hp. apply (fmap_is_Some Name). apply H4. by exists label, l.
  - intros label' l' p Hl' Hp Hp'. assert (label' = label) as -> by (by eapply H3). split; [done|congruence].
Qed.

Lemma reachable_map_unique_witness :
  reachable (HC:=refCluster) refWok ex_params (Some [ex_n1; ex_n2]) ex_started ∧
  (∀ label l, cidrMap ex_started !! label = Some l →
    l ≠ [] ∧ NoDup (name_at ex_started <$> l) ∧ (∀ p, p ∈ l → is_Some (objs ex_started !! p))
    ∧ ∀ label' l' p, cidrMap ex_started !! label' = Some l' → p ∈ l → p ∈ l' → label' = label ∧ l' = l).
Proof.
  split; [exact ex_reachable|].
  exact (reachable_map_unique (HLb:=refLabels) (HC:=refCluster) refWok ex_params (Some [ex_n1; ex_n2]) ex_started ex_reachable).
Defined.

(** Termination of the loop of [allocateCIDR]: on a set of a well-formed state
    [MaxCIDRs] rounds are enough, since the counter grows in every round; any
    larger number of rounds gives the same result and state. *)
Theorem allocateLoop_terminates `{HN : !NetUtils} `{HC : !Cluster} `{HI : !MapIter}
  (HNL : NetUtilsLaws HN) (HIL : MapIterLaws HI) (st : AllocState) l f s rounds
  (Hok : alloc_ok st) (Hat : set_at st (l, f) = Some s) (Hr : MaxCIDRs s ≤ Z.of_nat rounds) :
  allocateLoop rounds 0 l (Some (l, f)) st = allocateCIDR l (Some (l, f)) st.
Proof.
  assert (set_ok f s) as (L & A & Hv) by (apply set_at_obj in Hat as (c & Hc & Hs); by eapply co_sets; [eapply ao_objs|]).
  destruct (Hv) as [HL _ Hs]. pose proof (sl_max L s ltac:(apply Hs)) as Hmax. pose proof (nmax_pos L HL).
  unfold allocateCIDR. mstep (readSet_run st l f s Hat). by apply (allocateLoop_fuel HNL HIL _ _ _ st l f s L A); try done; lia.
Qed.

Lemma allocateLoop_terminates_witness :
  MaxCIDRs ex_s4 = 16 ∧ allocateLoop 100 0 1 (Some (1%positive, V4)) ex_st = allocateCIDR 1 (Some (1%positive, V4)) ex_st.
Proof.
  split; [vm_compute; reflexivity|].
  apply (allocateLoop_terminates refNetUtils_laws refIter_laws ex_st 1%positive V4 ex_s4 100 ex_ok ex_at4).
  by_decision.
Defined.

(** * Matching *)

(** C26. [orderedMatchingClusterCIDRs]: the list is, first, the ClusterCIDRs whose
    selector the node matches with all its requirements (for an occupy only those
    not terminating), each with its match count, sorted by P0 to P4; then the list
    of the default selector.  It depends on the iteration order of the map only in
    the order of ties, reads the state and changes nothing. *)
Theorem orderedMatching_functional `{HLb : !Labels} `{HC : !Cluster} `{HI : !MapIter}
  (HIL : MapIterLaws HI) (st : AllocState) node occupy sel
  (Hok : alloc_ok st) (Hlab : labels_ok st) (Hsel : nodeSelectorAsSelector (Some defaultNodeSelector) = Ok sel) :
  ∃ items, orderedMatchingClusterCIDRs node occupy st
      = (Ok ((item_clusterCIDR <$> items) ++ default [] (cidrMap st !! Selector_String sel)), with_iter st)
    ∧ Permutation items (candidates st node occupy)
    ∧ StronglySorted (λ a b, priority (objs st) b a ≠ Lt) items
    ∧ ∀ x, x ∈ items ↔ ∃ l, cidrMap st !! selectorString x = Some l ∧ item_clusterCIDR x ∈ l ∧ index x = 0
        ∧ matchCIDRLabels node (selectorString x) = Ok (true, labelMatchCount x)
        ∧ eligible (objs st) occupy (item_clusterCIDR x) = true.
Proof.
  destruct (ordered_run HIL st node occupy sel Hok Hlab Hsel) as (items & E & Hperm & Hsort).
  exists items. split; [done|]. split; [done|]. split.
  - eapply StronglySorted_weaken; [|exact Hsort]. intros a b. unfold le, before.
    by destruct (priority (objs st) b a).
  - intros x. by rewrite Hperm, elem_of_candidates.
Qed.

Lemma orderedMatching_functional_witness :
  ∃ items, orderedMatchingClusterCIDRs ex_n2 true ex_st
      = (Ok ((item_clusterCIDR <$> items) ++ [1%positive]), with_iter ex_st)
    ∧ Permutation items [mkItem 2 1 "zone in (a)" 0].
Proof.
  destruct (orderedMatching_functional (HLb:=refLabels) (HC:=refCluster) refIter_laws ex_st ex_n2 true ex_default_sel ex_ok ex_labels)
    as (items & E & Hperm & _); [vm_compute; reflexivity|].
  exists items. split; [exact E|exact Hperm].
Defined.

(** [container/heap] on the queue's methods sorts: pushing any items whose
    ClusterCIDRs exist and have a set, and popping until the queue is empty,
    neither panics nor loses an item and yields them by the priority P0 to P4,
    whatever the order of the pushes. *)
Theorem PriorityQueue_sorts (store : Store) (items : list PriorityQueueItem) (Hok : Forall (item_ok store) items) :
  ∃ q out, pushAll (HI:=PQ_heap store) items [] = Ok q ∧ popAll (HI:=PQ_heap store) (length items) q = Ok out
    ∧ Permutation (item_clusterCIDR <$> out) (item_clusterCIDR <$> items)
    ∧ StronglySorted (λ a b, priority store b a ≠ Lt) out.
Proof.
  destruct (pushAll_correct (HLaws:=PQ_laws store) items []) as (q & Eq & Hq & Hperm).
  - split; [by intros ? ?|constructor|]. intros k Hk. simpl in Hk. lia.
  - by apply Forall_fmap.
  - destruct (popAll_correct (HLaws:=PQ_laws store) (length items) q Hq) as (out & Eo & Hp & Hs).
    { rewrite Hperm, length_app, length_fmap. simpl. lia. }
    exists q, out. split; [done|]. split; [done|]. split.
    + assert (∀ l, item_clusterCIDR <$> l = item_clusterCIDR <$> (strip <$> l)) as Hstrip
        by (intros l; by rewrite <- list_fmap_compose).
      rewrite (Hstrip out), (Hstrip items). apply fmap_Permutation. by rewrite Hp, Hperm, app_nil_r.
    + apply StronglySorted_fmap in Hs. eapply StronglySorted_weaken; [|exact Hs].
      intros x y. unfold le. rewrite before_strip. unfold before. by destruct (priority store y x).
Qed.

Definition ex_items : list PriorityQueueItem := [mkItem 1 0 "b" 0; mkItem 2 1 "a" 0; mkItem 1 2 "c" 0].

Lemma ex_item1 cnt label : item_ok (objs ex_st) (mkItem 1 cnt label 0).
Proof. apply item_ok_mapped; [exact ex_ok|]. vm_compute. by eexists. Qed.
Lemma ex_item2 cnt label : item_ok (objs ex_st) (mkItem 2 cnt label 0).
Proof. apply item_ok_mapped; [exact ex_ok|]. vm_compute. by eexists. Qed.

Lemma PriorityQueue_sorts_witness :
  Forall (item_ok (objs ex_st)) ex_items ∧
  ∃ q out, pushAll (HI:=PQ_heap (objs ex_st)) ex_items [] = Ok q ∧ popAll (HI:=PQ_heap (objs ex_st)) 3 q = Ok out
    ∧ Permutation (item_clusterCIDR <$> out) [1%positive; 2%positive; 1%positive].
Proof.
  assert (Forall (item_ok (objs ex_st)) ex_items) as Hok.
  { apply Forall_cons_2; [apply ex_item1|]. apply Forall_cons_2; [apply ex_item2|].
    apply Forall_cons_2; [apply ex_item1|]. apply Forall_nil_2. }
  split; [exact Hok|].
  destruct (PriorityQueue_sorts (objs ex_st) ex_items Hok) as (q & out & E1 & E2 & Hp & _).
  exists q, out. split; [exact E1|]. split; [exact E2|exact Hp].
Defined.

(** [Less] on every branch: with both ClusterCIDRs usable it does not panic,
    is the strict part of a total preorder (so the heap is well defined), and
    decides by P0 more matching labels, then P1 fewer allocatable CIDRs, then P2
    the longer node mask, then P3 the smaller selector text, then P4 the smaller
    CIDR text. *)
Theorem Less_priority (store : Store) a b (Ha : item_ok store a) (Hb : item_ok store b) :
  compare_laws (priority store) ∧
  itemLess store a b = Ok (
    if negb (labelMatchCount a =? labelMatchCount b) then labelMatchCount b <? labelMatchCount a
    else if negb (rank_max store a =? rank_max store b) then rank_max store a <? rank_max store b
    else if negb (rank_mask store a =? rank_mask store b) then rank_mask store b <? rank_mask store a
    else if negb (String.eqb (selectorString a) (selectorString b)) then String.ltb (selectorString a) (selectorString b)
    else String.ltb (rank_label store a) (rank_label store b)) ∧
  itemLess store a b = Ok (before store a b).
Proof.
  split; [apply priority_laws|]. split; [|by apply itemLess_priority].
  destruct (ranks_ok store a Ha) as (Ma & Na & La), (ranks_ok store b Hb) as (Mb & Nb & Lb).
  unfold itemLess. rewrite Ma, Mb, Na, Nb, La, Lb. mred.
  by repeat case_match.
Qed.

Lemma Less_priority_witness :
  itemLess (objs ex_st) (mkItem 2 1 "a" 0) (mkItem 1 1 "a" 0) = Ok (before (objs ex_st) (mkItem 2 1 "a" 0) (mkItem 1 1 "a" 0)).
Proof.
  exact (proj2 (proj2 (Less_priority (objs ex_st) (mkItem 2 1 "a" 0) (mkItem 1 1 "a" 0) (ex_item2 1 "a") (ex_item1 1 "a")))).
Defined.
