(* ===== verification/ValidationTheorems.v ===== *)
(** The theorems about validation: what is accepted, and what the controller does
    with it. *)
From S2P Require Import Prelude GoNet CIDRTheory CIDRText NetUtils MultiCIDRSet IndexTheory IndexProps SetProps SetConstruction.
From S2P Require Import ContainerHeap PriorityQueue Kubernetes Validation Allocator NodeHandlers ClusterCIDRHandlers EventHandlers AllocatorInv AllocateProps MatchProps NodeProps Reference AllocatorKeeps Controller HandlerProps MapInv Examples AllocatorTheorems.

Section accepted.
Context `{HN : !NetUtils} `{HF : !FieldErrors} `{HV : !ApiValidation}.

(** What [validateCIDRConfig] asks for. *)
Definition config_accepted (s : string) (h w : Z) (f : IPFamily) : Prop :=
  ∃ ip n, ParseCIDRSloppy s = inr (ip, n)
    ∧ match f with IPv4Protocol => IsIPv4 ip = true | IPv6Protocol => IsIPv6 ip = true end
    ∧ 4 ≤ h ≤ s32 (w - s32 (Mask_Size (IPNet_Mask n)).1).

Lemma validateCIDRConfig_nil s h w f path : validateCIDRConfig s h w f path = [] ↔ config_accepted s h w f.
Proof using.
  unfold validateCIDRConfig, config_accepted. destruct (ParseCIDRSloppy s) as [e|[ip n]].
  { split; [done|]. by intros (ip & n & ? & _). }
  cbn zeta. set (m := s32 (w - _)). rewrite !app_nil.
  assert (∀ (b : bool) (e : FieldError), (if b then [e] else []) = [] ↔ b = false) as Hif by (by intros []).
  rewrite !Hif, Z.ltb_ge, Z.ltb_ge. split.
  - intros (Hf & Hlo & Hhi). exists ip, n. split; [done|]. split; [|subst m; lia].
    destruct f; rewrite Hif in Hf; by apply negb_false_iff.
  - intros (ip' & n' & [= <- <-] & Hf & Hlo & Hhi). split; [|subst m; lia].
    destruct f; rewrite Hif; by apply negb_false_iff.
Qed.

Lemma validateEach_nil {A} (f : A → Path → list FieldError) path j l x :
  validateEach f path j l = [] → x ∈ l → ∃ path', f x path' = [].
Proof using.
  revert j. induction l as [|y l IH]; intros j; [by intros _ ?%elem_of_nil|]. cbn [validateEach].
  intros [H1 H2]%app_nil [->|Hx]%elem_of_cons; [by eexists|by eapply IH].
Qed.

(** Accepted selectors. *)
Definition flatRequirements (ns : NodeSelector) : list NodeSelectorRequirement :=
  NodeSelectorTerms ns ≫= λ t, MatchExpressions t ++ MatchFields t.

(** The label operator of a node selector operator. *)
Definition selection_of (op : string) : option SelectionOperator :=
  list_to_map (M:=gmap string SelectionOperator)
    [("In", selection_In); ("NotIn", selection_NotIn); ("Exists", selection_Exists);
     ("DoesNotExist", selection_DoesNotExist); ("Gt", selection_GreaterThan); ("Lt", selection_LessThan)] !! op.

Lemma accepted_operator r path : ValidateNodeSelectorRequirement r path = [] → is_Some (selection_of (Operator r)).
Proof using.
  unfold ValidateNodeSelectorRequirement. intros [H _]%app_nil. revert H. generalize (Operator r). intros o.
  repeat match goal with |- context [String.eqb o ?k] => destruct (String.eqb_spec o k) as [->|?]; [by eexists|] end. done.
Qed.

Lemma accepted_field_operator r path : validateNodeFieldSelectorRequirement r path = [] → is_Some (selection_of (Operator r)).
Proof using.
  unfold validateNodeFieldSelectorRequirement. intros [H _]%app_nil. revert H. generalize (Operator r). intros o.
  repeat match goal with |- context [String.eqb o ?k] => destruct (String.eqb_spec o k) as [->|?]; [by eexists|] end. done.
Qed.

Lemma accepted_terms ns path : validateNodeSelector ns path = [] →
  NodeSelectorTerms ns ≠ [] ∧ ∀ r, r ∈ flatRequirements ns → is_Some (selection_of (Operator r)).
Proof using.
  unfold validateNodeSelector. destruct (NodeSelectorTerms ns) as [|t l] eqn:E; [done|]. cbn [length Nat.eqb]. intros H.
  split; [done|]. intros r (t' & Hr & Ht)%list_elem_of_bind. rewrite E in Ht.
  destruct (validateEach_nil _ _ _ _ _ H Ht) as (path' & [H1 H2]%app_nil). apply elem_of_app in Hr as [Hr|Hr].
  - destruct (validateEach_nil _ _ _ _ _ H1 Hr) as (p & Hp). by eapply accepted_operator.
  - destruct (validateEach_nil _ _ _ _ _ H2 Hr) as (p & Hp). by eapply accepted_field_operator.
Qed.

Lemma spec_accepted spec path :
  ValidateClusterCIDRSpec spec path = [] ↔
    (∀ ns, spec_NodeSelector spec = Some ns → validateNodeSelector ns (Child path "nodeSelector") = []) ∧
    (spec_IPv4 spec ≠ EmptyString ∨ spec_IPv6 spec ≠ EmptyString) ∧
    (spec_IPv4 spec ≠ EmptyString → config_accepted (spec_IPv4 spec) (PerNodeHostBits spec) 32 IPv4Protocol) ∧
    (spec_IPv6 spec ≠ EmptyString → config_accepted (spec_IPv6 spec) (PerNodeHostBits spec) 128 IPv6Protocol).
Proof using.
  unfold ValidateClusterCIDRSpec. rewrite app_nil.
  assert ((match spec_NodeSelector spec with Some ns => validateNodeSelector ns (Child path "nodeSelector") | None => [] end) = []
    ↔ ∀ ns, spec_NodeSelector spec = Some ns → validateNodeSelector ns (Child path "nodeSelector") = []) as ->
    by (destruct (spec_NodeSelector spec); naive_solver).
  rewrite <- !(validateCIDRConfig_nil _ _ _ _ path).
  destruct (String.eqb_spec (spec_IPv4 spec) EmptyString), (String.eqb_spec (spec_IPv6 spec) EmptyString);
    simpl; rewrite ?app_nil; naive_solver.
Qed.
End accepted.

(** C34. [ValidateClusterCIDRSpec] accepts exactly the specs whose selector, if any,
    is accepted, that have an IPv4 or an IPv6 range, and whose ranges parse, are of
    the right family and have room for between 4 and all of their host bits. *)
Theorem ValidateClusterCIDRSpec_exact `{HN : !NetUtils} `{HF : !FieldErrors} `{HV : !ApiValidation} spec path :
  ValidateClusterCIDRSpec spec path = [] ↔
    (∀ ns, spec_NodeSelector spec = Some ns → validateNodeSelector ns (Child path "nodeSelector") = []) ∧
    (spec_IPv4 spec ≠ EmptyString ∨ spec_IPv6 spec ≠ EmptyString) ∧
    (spec_IPv4 spec ≠ EmptyString → config_accepted (spec_IPv4 spec) (PerNodeHostBits spec) 32 IPv4Protocol) ∧
    (spec_IPv6 spec ≠ EmptyString → config_accepted (spec_IPv6 spec) (PerNodeHostBits spec) 128 IPv6Protocol).
Proof. exact (spec_accepted spec path). Qed.

(** * What the controller makes of an accepted spec *)

Definition spec_text (f : family) (spec : ClusterCIDRSpec) : string :=
  match f with V4 => spec_IPv4 spec | V6 => spec_IPv6 spec end.
Definition fam_protocol (f : family) : IPFamily := match f with V4 => IPv4Protocol | V6 => IPv6Protocol end.

Section created.
Context `{HN : !NetUtils} `{HF : !FieldErrors} `{HV : !ApiValidation} `{HLb : !Labels} `{HC : !Cluster}.
Context (HNL : NetUtilsLaws HN).
Implicit Types st : AllocState.

(** If the text parses, it is an address of some family and the network of it;
    IPv4-mapped addresses and the other ones below [::/80] are left out. *)
Definition network_text (s : string) : Prop :=
  ∀ ip n, ParseCIDRSloppy s = inr (ip, n) → ∃ f v0 v p, ip = ipOf (fam_width f) v0 ∧ n = block (fam_width f) v p
    ∧ valid_addr (fam_width f) v0 ∧ valid_block (fam_width f) v p ∧ (f = V6 → 2 ^ 48 ≤ v).

(** An accepted range: a network of its family with room for the host bits. *)
Lemma accepted_network s h f : network_text s → config_accepted s h (fam_width f) (fam_protocol f) →
  ∃ ip v p, ParseCIDRSloppy s = inr (ip, block (fam_width f) v p) ∧ valid_block (fam_width f) v p
    ∧ 4 ≤ h ≤ fam_width f - p ∧ (f = V6 → 2 ^ 48 ≤ v).
Proof using HNL.
  intros Hs (ip & n & E & Hf & Hh). destruct (Hs ip n E) as (g & v0 & v & p & -> & -> & Hv0 & Hb & H6).
  assert (g = f) as ->.
  { destruct f; simpl in Hf; [rewrite IsIPv4_valid in Hf by done|rewrite IsIPv6_valid in Hf by done]; by destruct g. }
  exists (ipOf (fam_width f) v0), v, p. split_and!; [done|done|lia| |done].
  rewrite block_Mask, Mask_Size_CIDRMask in Hh by (apply Hb). simpl in Hh.
  assert (0 ≤ p ≤ 128 ∧ 0 ≤ fam_width f - p ≤ 128) by (destruct Hb as [_ Hp _]; destruct f; simpl in *; lia).
  unfold s32 in Hh. rewrite (Z.mod_small (p + _)) in Hh by lia. rewrite Z.mod_small in Hh by lia. lia.
Qed.

(** The set made for the text of one family. *)
Definition set_for (f : family) (h : Z) (name s : string) (x : option MultiCIDRSet) : Prop :=
  (s = EmptyString ∧ x = None) ∨
  (∃ ip v p, s ≠ EmptyString ∧ ParseCIDRSloppy s = inr (ip, block (fam_width f) v p)
     ∧ usable (fam_width f) v p h ∧ x = Some (newSet name (fam_width f) v p h)).

(** An IPv6 range with too many blocks. *)
Definition too_big (h : Z) (s : string) (e : error) : Prop :=
  ∃ ip v p, ParseCIDRSloppy s = inr (ip, block 128 v p) ∧ clusterSubnetMaxDiff < 128 - h - p
    ∧ e = CIDRSetSubNetTooBigErr (IPNet_String (block 128 v p)) (128 - h) p.

Lemma createSet_accepted m1 m2 name s h f st : network_text s →
  (s ≠ EmptyString → config_accepted s h (fam_width f) (fam_protocol f)) →
  (∃ x t, createSet m1 m2 name s h st = (Ok x, with_metrics t st) ∧ set_for f h name s x)
  ∨ (f = V6 ∧ ∃ e, createSet m1 m2 name s h st = (Err (ErrorfW m2 [] e), st) ∧ too_big h s e).
Proof using HNL.
  intros Hs Ha. unfold createSet. destruct (String.eqb_spec s EmptyString) as [->|Hne].
  { left. exists None, (metrics st). split; [by destruct st|by left]. }
  destruct (accepted_network s h f Hs (Ha Hne)) as (ip & v & p & E & Hb & Hh & H6). rewrite E.
  pose proof (NewMultiCIDRSet_block HNL name (fam_width f) v p h (metrics st) Hb) as EN.
  destruct (bool_decide (fam_width f = 128) && (clusterSubnetMaxDiff <? fam_width f - h - p)) eqn:Hbig.
  - right. apply andb_true_iff in Hbig as [Hf%bool_decide_eq_true Hd%Z.ltb_lt]. assert (f = V6) as -> by (by destruct f).
    split; [done|]. eexists. split; [|exists ip, v, p; split_and!; [exact E|exact Hd|reflexivity]].
    assert (newSetM name (block 128 v p) h st = (Err (CIDRSetSubNetTooBigErr (IPNet_String (block 128 v p)) (128 - h) p), st)) as E1
      by (unfold newSetM; simpl fam_width in EN; rewrite EN; by destruct st).
    by rewrite (M_bind_Err _ _ _ _ _ (wrapErr_Err (ErrorfW m2 []) _ _ _ _ E1)).
  - left. eexists (Some _), _. split.
    + assert (∀ x t, NewMultiCIDRSet name (block (fam_width f) v p) h (metrics st) = (Ok x, t) →
        newSetM name (block (fam_width f) v p) h st = (Ok x, with_metrics t st)) as E1 by (intros x t Ex; unfold newSetM; by rewrite Ex).
      by mstep (wrapErr_Ok (ErrorfW m2 []) _ _ _ _ (E1 _ _ EN)).
    + right. exists ip, v, p. split_and!; [done|done| |done]. apply andb_false_iff in Hbig.
      assert (4 ≤ h) by lia. split_and!; [done|lia|lia| |].
      * destruct f; simpl in *; [destruct Hb as [_ Hp _]; lia|].
        destruct Hbig as [Hbig|Hbig%Z.ltb_ge]; [done|]. unfold clusterSubnetMaxDiff in Hbig. lia.
      * intros Hw. split; [|apply H6; by destruct f].
        destruct Hbig as [Hbig|Hbig%Z.ltb_ge]; [by apply bool_decide_eq_false in Hbig|done].
Qed.

(** The range is one the invariants of the controller accept. *)
Lemma range_ok_accepted s h f : network_text s → (s ≠ EmptyString → config_accepted s h (fam_width f) (fam_protocol f)) →
  range_ok f h s.
Proof using HNL.
  intros Hs Ha. destruct (String.eqb_spec s EmptyString) as [->|Hne]; [by left|]. right.
  destruct (accepted_network s h f Hs (Ha Hne)) as (ip & v & p & -> & Hb & Hh & H6). intros ? ? [= <- <-].
  exists v, p. split; [done|]. split; [done|]. destruct (Z.le_gt_cases (fam_width f - h - p) clusterSubnetMaxDiff) as [Hd|Hd].
  - left. assert (clusterSubnetMaxDiff < 32) by done. destruct Hb as [Hv Hp Hal]. split_and!; [done|lia|lia|lia|].
    intros Hw. split; [done|]. apply H6. by destruct f.
  - destruct f; [|right; split; [done|simpl in *; lia]].
    left. assert (4 ≤ h) by lia. destruct Hb as [Hv Hp Hal]. simpl in *. split_and!; [done|lia|lia|lia|done].
Qed.
End created.

(** C35. What the controller makes of an object that validation accepts and whose
    range texts are plain: where one parses, its address and network are IPv4 ones, or
    IPv6 ones above [::/80], so none is IPv4-mapped ([network_text]).  The object is
    well formed; an internal ClusterCIDR of its name is created, with no nodes, with a
    set for exactly the families that have a text, each of the geometry asked for and
    usable, at least one; the only error is an IPv6 range with too many blocks. *)
Theorem accepted_spec_creates `{HN : !NetUtils} `{HF : !FieldErrors} `{HV : !ApiValidation} `{HC : !Cluster}
  (HNL : NetUtilsLaws HN) (st : AllocState) cc terminating path
  (Hacc : ValidateClusterCIDRSpec (cc_Spec cc) path = [])
  (H4 : network_text (spec_IPv4 (cc_Spec cc))) (H6 : network_text (spec_IPv6 (cc_Spec cc))) :
  let h := PerNodeHostBits (cc_Spec cc) in
  cc_ok cc ∧ ∃ t,
  (∃ o, createClusterCIDRSet cc terminating st = (Ok o, with_metrics t st)
    ∧ Name o = cc_Name cc ∧ Terminating o = terminating ∧ AssociatedNodes o = ∅
    ∧ (∃ f, is_Some (get_set f o)) ∧ ∀ f, set_for f h (cc_Name cc) (spec_text f (cc_Spec cc)) (get_set f o))
  ∨ (∃ e, createClusterCIDRSet cc terminating st = (Err (ErrorfW "unable to create IPv6 cidrSet: %w" [] e), with_metrics t st)
    ∧ too_big h (spec_IPv6 (cc_Spec cc)) e).
Proof.
  cbn zeta. apply spec_accepted in Hacc as (_ & Hone & Ha4 & Ha6).
  split; [split; by apply (range_ok_accepted HNL)|]. unfold createClusterCIDRSet.
  destruct (createSet_accepted HNL "unable to parse provided IPv4 CIDR: %w" "unable to create IPv4 cidrSet: %w"
    (cc_Name cc) _ (PerNodeHostBits (cc_Spec cc)) V4 st H4 Ha4) as [(x4 & t4 & E4 & Hx4)|[? _]]; [|done].
  mstep E4. set (st1 := with_metrics t4 st).
  destruct (createSet_accepted HNL "unable to parse provided IPv6 CIDR: %w" "unable to create IPv6 cidrSet: %w"
    (cc_Name cc) _ (PerNodeHostBits (cc_Spec cc)) V6 st1 H6 Ha6) as [(x6 & t6 & E6 & Hx6)|(_ & e & E6 & He)].
  - exists t6. left. mstep E6. eexists. split; [done|]. split_and!; [done..| |by intros []].
    destruct Hone as [Hne|Hne]; [exists V4|exists V6]; simpl.
    + destruct Hx4 as [[? _]|(? & ? & ? & _ & _ & _ & ->)]; [done|by eexists].
    + destruct Hx6 as [[? _]|(? & ? & ? & _ & _ & _ & ->)]; [done|by eexists].
  - exists t4. right. exists e. split; [by rewrite (M_bind_Err _ _ _ _ _ E6)|done].
Qed.

#[export] Existing Instance refFieldErrors.
#[export] Existing Instance refApiValidation.

Lemma network_text_block s f v0 v p : parseCIDR s = Some (ipOf (fam_width f) v0, block (fam_width f) v p) →
  valid_addr (fam_width f) v0 → valid_block (fam_width f) v p → (f = V6 → 2 ^ 48 ≤ v) → network_text s.
Proof.
  intros Hs Hv0 Hb H6 ip n E. simpl in E. rewrite Hs in E. injection E as <- <-. by exists f, v0, v, p.
Qed.

Lemma accepted_spec_creates_witness :
  ValidateClusterCIDRSpec (cc_Spec ex_dual) ["spec"] = [] ∧ cc_ok ex_dual ∧ ∃ t,
  (∃ o, createClusterCIDRSet ex_dual false ex_st = (Ok o, with_metrics t ex_st)
    ∧ Name o = "dual" ∧ Terminating o = false ∧ AssociatedNodes o = ∅
    ∧ (∃ f, is_Some (get_set f o)) ∧ ∀ f, set_for f 4 "dual" (spec_text f (cc_Spec ex_dual)) (get_set f o))
  ∨ (∃ e, createClusterCIDRSet ex_dual false ex_st = (Err (ErrorfW "unable to create IPv6 cidrSet: %w" [] e), with_metrics t ex_st)
    ∧ too_big 4 (spec_IPv6 (cc_Spec ex_dual)) e).
Proof.
  assert (ValidateClusterCIDRSpec (cc_Spec ex_dual) ["spec"] = []) as Hacc by (vm_compute; reflexivity).
  split; [exact Hacc|].
  apply (accepted_spec_creates (HF:=refFieldErrors) (HV:=refApiValidation) (HC:=refCluster) refNetUtils_laws ex_st ex_dual false ["spec"] Hacc).
  - apply (network_text_block _ V4 (10 * 2 ^ 24 + 2 ^ 16) (10 * 2 ^ 24 + 2 ^ 16) 27); [vm_compute; reflexivity|by_decision|by_decision|discriminate].
  - apply (network_text_block _ V6 (253 * 2 ^ 120) (253 * 2 ^ 120) 123); [vm_compute; reflexivity|by_decision|by_decision|by_decision].
Defined.

(** An IPv4-mapped text is not plain: it is accepted as an IPv4 range with 8 host bits,
    its network is an IPv6 one, and the internal ClusterCIDR cannot be created. *)
Definition ex_mapped_text : v1ClusterCIDR := mkCC "mapped" 1 "1" None [] (mkSpecCC None 8 "::ffff:a00:0/8" EmptyString).

Example mapped_text_accepted_not_created :
  ValidateClusterCIDRSpec (cc_Spec ex_mapped_text) ["spec"] = [] ∧
  (createClusterCIDRSet (HC:=refCluster) ex_mapped_text false ex_st).1
    = Err (ErrorfW "unable to create IPv4 cidrSet: %w" [] (CIDRSetSubNetTooBigErr "::/8" 120 8)).
Proof. split; vm_compute; reflexivity. Qed.

(** * Updates *)

(** An update is accepted exactly when its metadata is and the spec is the old
    one: the ranges, the host bits and the selector of a ClusterCIDR never change,
    so the internal object made from it stays the right one. *)
Theorem ValidateClusterCIDRUpdate_exact `{HF : !FieldErrors} `{HV : !ApiValidation} update old
  (Himm : ∀ a b path, ValidateImmutableField a b path = [] ↔ a = b) :
  ValidateClusterCIDRUpdate update old = [] ↔
    ValidateObjectMetaUpdate update old (NewPath "metadata") = [] ∧ cc_Spec update = cc_Spec old.
Proof.
  unfold ValidateClusterCIDRUpdate, validateClusterCIDRUpdateSpec. rewrite !app_nil, !Himm.
  destruct (cc_Spec update), (cc_Spec old). simpl. naive_solver.
Qed.

Lemma ValidateClusterCIDRUpdate_exact_witness :
  (∀ a b path, ValidateImmutableField a b path = [] ↔ a = b) ∧
  (ValidateClusterCIDRUpdate (with_finalizers ["f"] ex_dual) ex_dual = [] ↔
    ValidateObjectMetaUpdate (with_finalizers ["f"] ex_dual) ex_dual (NewPath "metadata") = []
    ∧ cc_Spec (with_finalizers ["f"] ex_dual) = cc_Spec ex_dual).
Proof.
  assert (∀ a b path, ValidateImmutableField a b path = [] ↔ a = b) as H.
  { intros a b path. simpl. by case_decide. }
  split; [exact H|]. exact (ValidateClusterCIDRUpdate_exact (HF:=refFieldErrors) (HV:=refApiValidation) _ _ H).
Defined.
