(* ===== verification/SelectorTheorems.v ===== *)
(** The theorems about node selectors: their conversion to label selectors, what
    validation guarantees about it, and the matching of labels. *)
From S2P Require Import Prelude GoNet CIDRTheory CIDRText NetUtils MultiCIDRSet Kubernetes Validation Reference.
From S2P Require Import ContainerHeap PriorityQueue Allocator NodeHandlers ClusterCIDRHandlers EventHandlers Examples ValidationTheorems.

Section selectors.
Context `{HLb : !Labels}.

Lemma appendRequirements_mapM rs l : appendRequirements rs l =
  (rs' ← mapM nodeSelectorRequirementsAsLabelRequirements l; mret (rs ++ rs')).
Proof using.
  revert rs. induction l as [|r l IH]; intros rs; simpl; [by rewrite app_nil_r|].
  destruct (nodeSelectorRequirementsAsLabelRequirements r); simpl; [|done..]. rewrite IH.
  destruct (mapM _ l); simpl; [by rewrite <- app_assoc|done..].
Qed.

Lemma mapM_app_exit {A B} (f : A → exit B) l1 l2 :
  mapM f (l1 ++ l2) = (r1 ← mapM f l1; r2 ← mapM f l2; mret (r1 ++ r2)).
Proof using.
  induction l1 as [|x l1 IH]; simpl; [by destruct (mapM f l2)|].
  destruct (f x); simpl; [|done..]. rewrite IH. destruct (mapM f l1); simpl; [|done..]. by destruct (mapM f l2).
Qed.

Lemma appendTerms_mapM rs l : appendTerms rs l =
  (rs' ← mapM nodeSelectorRequirementsAsLabelRequirements (l ≫= λ t, MatchExpressions t ++ MatchFields t); mret (rs ++ rs')).
Proof using.
  revert rs. induction l as [|t l IH]; intros rs; [simpl; by rewrite app_nil_r|]. cbn [appendTerms].
  rewrite bind_cons, !mapM_app_exit, appendRequirements_mapM.
  destruct (mapM _ (MatchExpressions t)) as [r1| |]; simpl; [|done..]. rewrite appendRequirements_mapM.
  destruct (mapM _ (MatchFields t)) as [r2| |]; simpl; [|done..]. rewrite IH.
  destruct (mapM _ (l ≫= _)) as [r3| |]; simpl; [|done..]. by rewrite <- !app_assoc.
Qed.

Lemma requirement_run r : nodeSelectorRequirementsAsLabelRequirements r =
  match selection_of (Operator r) with
  | None => Err (Errorf "%q is not a valid node selector operator" [Operator r])
  | Some op => match NewRequirement (Key r) op (Values r) with inl e => Err e | inr q => Ok q end
  end.
Proof using.
  unfold nodeSelectorRequirementsAsLabelRequirements, selection_of. generalize (Operator r); intros o. simpl.
  repeat match goal with |- context [String.eqb o ?k] => destruct (String.eqb_spec o k) as [->|?]; [reflexivity|] end.
  by rewrite !lookup_insert_ne by congruence.
Qed.

Lemma mapM_exit_ok {A B} (f : A → exit B) (P : A → B → Prop) (Q : A → error → Prop) l :
  (∀ a, a ∈ l → match f a with Ok b => P a b | Err e => Q a e | Panic _ => False end) →
  match mapM f l with
  | Ok bs => Forall2 P l bs
  | Err e => ∃ a, a ∈ l ∧ Q a e
  | Panic _ => False
  end.
Proof using.
  induction l as [|a l IH]; intros H; simpl; [by constructor|].
  pose proof (H a ltac:(by left)) as Ha. specialize (IH (λ a' Ha', H a' ltac:(by right))).
  destruct (f a) as [b|e|]; simpl; [|by exists a; split; [left|]|done].
  destruct (mapM f l) as [bs|e|]; simpl; [by constructor| |done].
  destruct IH as (a' & Hin & He). exists a'. split; [by right|done].
Qed.

(** The conversion, as one pass over all requirements. *)
Lemma nodeSelectorAsSelector_run ns : NodeSelectorTerms ns ≠ [] →
  nodeSelectorAsSelector (Some ns) =
  (rs ← mapM nodeSelectorRequirementsAsLabelRequirements (flatRequirements ns); mret (Selector_Add labels_NewSelector rs)).
Proof using.
  intros Hne. unfold nodeSelectorAsSelector, flatRequirements.
  destruct (NodeSelectorTerms ns) as [|t l] eqn:E; [done|]. cbn [length Nat.eqb].
  rewrite appendTerms_mapM. by destruct (mapM _ _).
Qed.

Lemma foldl_count {A} (p : A → bool) l n :
  foldl (λ k x, if p x then k + 1 else k) n l = n + Z.of_nat (length (filter (λ x, p x = true) l)).
Proof using.
  revert n. induction l as [|x l IH]; intros n; simpl; [lia|]. rewrite IH, filter_cons.
  case_decide as Hx; [rewrite Hx; simpl; lia|]. by destruct (p x).
Qed.

Lemma filter_all {A} (P : A → Prop) `{!∀ x, Decision (P x)} l : Forall P l → length (filter P l) = length l.
Proof using. induction 1 as [|x l Hx _ IH]; [done|]. rewrite filter_cons_True by done. simpl. by rewrite IH. Qed.
End selectors.

(** * What a converted selector selects *)

Section conjunction.
Context `{HLb : !Labels} (HL : LabelsLaws HLb).

(** A requirement of the node selector, as the label package makes it; and why not. *)
Definition converts (r : NodeSelectorRequirement) (q : Requirement) : Prop :=
  ∃ op, selection_of (Operator r) = Some op ∧ NewRequirement (Key r) op (Values r) = inr q.
Definition rejects (r : NodeSelectorRequirement) (e : error) : Prop :=
  match selection_of (Operator r) with
  | None => e = Errorf "%q is not a valid node selector operator" [Operator r]
  | Some op => NewRequirement (Key r) op (Values r) = inl e
  end.

(** As [matchCIDRLabels] reads a selector. *)
Definition selects (sel : Selector) (ls : gmap string string) : bool :=
  (Requirements sel).2 && forallb (λ q, Requirement_Matches q ls) (Requirements sel).1.

Lemma requirement_cases r :
  (∃ q, nodeSelectorRequirementsAsLabelRequirements r = Ok q ∧ converts r q) ∨
  (∃ e, nodeSelectorRequirementsAsLabelRequirements r = Err e ∧ rejects r e).
Proof using.
  rewrite requirement_run. unfold converts, rejects. destruct (selection_of (Operator r)) as [op|]; [|right; by eexists].
  destruct (NewRequirement (Key r) op (Values r)) as [e|q] eqn:E; [right|left]; eexists; (split; [done|]); [done|by exists op].
Qed.

Lemma requirements_cases l :
  (∃ rs, mapM nodeSelectorRequirementsAsLabelRequirements l = Ok rs ∧ Forall2 converts l rs) ∨
  (∃ pre r post rs e, l = pre ++ r :: post ∧ Forall2 converts pre rs ∧ rejects r e
     ∧ mapM nodeSelectorRequirementsAsLabelRequirements l = Err e).
Proof using.
  induction l as [|r l IH]; [left; by exists []|]. simpl.
  destruct (requirement_cases r) as [(q & -> & Hq)|(e & -> & He)]; simpl.
  2: { right. exists [], r, l, [], e. by repeat split. }
  destruct IH as [(rs & -> & Hrs)|(pre & r' & post & rs & e & -> & Hpre & He & ->)]; simpl.
  - left. exists (q :: rs). by repeat constructor.
  - right. exists (r :: pre), r', post, (q :: rs), e. by repeat constructor.
Qed.

Lemma converts_inj r q q' : converts r q → converts r q' → q = q'.
Proof using. intros (op & H1 & H2) (op' & H3 & H4). congruence. Qed.

Lemma converted_forall l rs (P : Requirement → Prop) : Forall2 converts l rs →
  Forall P rs ↔ ∀ r, r ∈ l → ∃ q, converts r q ∧ P q.
Proof using.
  induction 1 as [|r q l rs Hrq _ IH]; [split; [by intros _ r ?%elem_of_nil|constructor]|]. rewrite Forall_cons, IH. split.
  - intros [Hq Hl] r' [->|Hr']%elem_of_cons; [by exists q|by apply Hl].
  - intros H. split; [|intros r' Hr'; apply H; by right]. destruct (H r) as (q' & Hq' & HP); [by left|].
    by rewrite (converts_inj r q q' Hrq Hq').
Qed.

Lemma added_selects rs ls : selects (Selector_Add labels_NewSelector rs) ls = true ↔ Forall (λ q, Requirement_Matches q ls = true) rs.
Proof using HL.
  unfold selects. rewrite (add_selectable (L:=HLb)), new_selects. simpl andb.
  pose proof (add_requirements (L:=HLb) labels_NewSelector rs) as Hp. rewrite new_selects in Hp. specialize (Hp eq_refl). simpl in Hp.
  rewrite forallb_forall, <- Hp, Forall_forall. setoid_rewrite list_elem_of_In. done.
Qed.
End conjunction.

(** C36. The conversion of a node selector, on every outcome.  No selector selects no
    node; one without terms selects all.  Otherwise the requirements, expressions and
    fields of all terms in their order, are converted up to the first with an unknown
    operator or one that the label package rejects, whose error is returned; when all
    are converted, the labels selected are those that match every requirement of every
    term.  (In Kubernetes the terms of a node selector are alternatives.) *)
Theorem nodeSelectorAsSelector_conjunction `{HLb : !Labels} (HL : LabelsLaws HLb) (ns : option NodeSelector) :
  match ns with
  | None => ∃ sel, nodeSelectorAsSelector ns = Ok sel ∧ ∀ ls, selects sel ls = false
  | Some s =>
      if decide (NodeSelectorTerms s = []) then ∃ sel, nodeSelectorAsSelector ns = Ok sel ∧ ∀ ls, selects sel ls = true
      else (∃ sel, nodeSelectorAsSelector ns = Ok sel ∧ ∀ ls, selects sel ls = true ↔
              ∀ t r, t ∈ NodeSelectorTerms s → r ∈ MatchExpressions t ++ MatchFields t →
                ∃ q, converts r q ∧ Requirement_Matches q ls = true)
        ∨ (∃ pre r post rs e, flatRequirements s = pre ++ r :: post ∧ Forall2 converts pre rs ∧ rejects r e
             ∧ nodeSelectorAsSelector ns = Err e)
  end.
Proof.
  destruct ns as [s|].
  2: { exists labels_Nothing. split; [done|]. intros ls. unfold selects. by rewrite nothing_selects. }
  case_decide as E.
  { exists labels_Everything. split; [unfold nodeSelectorAsSelector; by rewrite E|]. intros ls. unfold selects. by rewrite everything_selects. }
  rewrite (nodeSelectorAsSelector_run s E).
  destruct (requirements_cases (flatRequirements s)) as [(rs & -> & Hrs)|(pre & r & post & rs & e & Ef & Hpre & He & ->)]; [left|right].
  2: { by exists pre, r, post, rs, e. }
  eexists. split; [done|]. intros ls. rewrite (added_selects HL rs ls), (converted_forall _ _ _ Hrs). unfold flatRequirements. split.
  - intros H t r Ht Hr. apply H, list_elem_of_bind. by exists t.
  - intros H r (t & Hr & Ht)%list_elem_of_bind. by apply (H t).
Qed.

Definition ex_two_terms : NodeSelector :=
  mkNodeSelector [mkTerm [mkRequirement "zone" "In" ["a"]] []; mkTerm [mkRequirement "gpu" "Exists" []] [mkRequirement "metadata.name" "In" ["n1"]]].

(** A node in the zone, without a gpu: it satisfies one of the two terms. *)
Lemma nodeSelectorAsSelector_conjunction_witness :
  (∃ sel, nodeSelectorAsSelector (H:=refLabels) (Some ex_two_terms) = Ok sel ∧ selects (HLb:=refLabels) sel {["zone" := "a"]} = false) ∧
  ((∃ sel, nodeSelectorAsSelector (H:=refLabels) (Some ex_two_terms) = Ok sel ∧ ∀ ls, selects sel ls = true ↔
      ∀ t r, t ∈ NodeSelectorTerms ex_two_terms → r ∈ MatchExpressions t ++ MatchFields t →
        ∃ q, converts r q ∧ Requirement_Matches (Labels:=refLabels) q ls = true)
   ∨ (∃ pre r post rs e, flatRequirements ex_two_terms = pre ++ r :: post ∧ Forall2 (converts (HLb:=refLabels)) pre rs ∧ rejects (HLb:=refLabels) r e
        ∧ nodeSelectorAsSelector (H:=refLabels) (Some ex_two_terms) = Err e)).
Proof.
  split; [eexists; split; vm_compute; reflexivity|].
  exact (nodeSelectorAsSelector_conjunction (HLb:=refLabels) refLabels_laws (Some ex_two_terms)).
Defined.

(** The conversion of a selector that validation accepts: every operator is
    known, so the result is the selector of the requirements the label package
    makes of them, in order, or the error it gives for one of them. *)
Theorem accepted_selector_converts `{HLb : !Labels} `{HF : !FieldErrors} `{HV : !ApiValidation} ns path
  (Hacc : validateNodeSelector ns path = []) :
  match nodeSelectorAsSelector (Some ns) with
  | Ok sel => ∃ rs, sel = Selector_Add labels_NewSelector rs
      ∧ Forall2 (λ r q, ∃ op, selection_of (Operator r) = Some op ∧ NewRequirement (Key r) op (Values r) = inr q) (flatRequirements ns) rs
  | Err e => ∃ r op, r ∈ flatRequirements ns ∧ selection_of (Operator r) = Some op ∧ NewRequirement (Key r) op (Values r) = inl e
  | Panic _ => False
  end.
Proof.
  destruct (accepted_terms ns path Hacc) as [Hne Hops]. rewrite nodeSelectorAsSelector_run by done.
  pose proof (mapM_exit_ok nodeSelectorRequirementsAsLabelRequirements
    (λ r q, ∃ op, selection_of (Operator r) = Some op ∧ NewRequirement (Key r) op (Values r) = inr q)
    (λ r e, ∃ op, selection_of (Operator r) = Some op ∧ NewRequirement (Key r) op (Values r) = inl e)
    (flatRequirements ns)) as H.
  destruct (mapM _ _) as [rs|e|]; simpl.
  - exists rs. split; [done|]. apply H. intros r Hr. rewrite requirement_run. destruct (Hops r Hr) as [op ->].
    destruct (NewRequirement _ _ _) eqn:?; by exists op.
  - destruct H as (r & Hr & op & ? & ?); [|by exists r, op]. intros r Hr. rewrite requirement_run. destruct (Hops r Hr) as [op ->].
    destruct (NewRequirement _ _ _) eqn:?; by exists op.
  - apply H. intros r Hr. rewrite requirement_run. destruct (Hops r Hr) as [op ->].
    destruct (NewRequirement _ _ _) eqn:?; by exists op.
Qed.

Lemma accepted_selector_converts_witness :
  validateNodeSelector ex_two_terms ["nodeSelector"] = [] ∧
  match nodeSelectorAsSelector (H:=refLabels) (Some ex_two_terms) with
  | Ok sel => ∃ rs, sel = Selector_Add labels_NewSelector rs
      ∧ Forall2 (λ r q, ∃ op, selection_of (Operator r) = Some op ∧ NewRequirement (Key r) op (Values r) = inr q) (flatRequirements ex_two_terms) rs
  | Err e => ∃ r op, r ∈ flatRequirements ex_two_terms ∧ selection_of (Operator r) = Some op ∧ NewRequirement (Key r) op (Values r) = inl e
  | Panic _ => False
  end.
Proof.
  assert (validateNodeSelector ex_two_terms ["nodeSelector"] = []) as Hacc by (vm_compute; reflexivity).
  split; [exact Hacc|]. exact (accepted_selector_converts (HLb:=refLabels) (HF:=refFieldErrors) (HV:=refApiValidation) ex_two_terms ["nodeSelector"] Hacc).
Defined.

(** [matchCIDRLabels]: the count is the number of requirements the labels of
    the node match, and the node matches when all do; a selector that is not
    selectable matches nothing, a text that does not parse is an error. *)
Theorem matchCIDRLabels_functional `{HLb : !Labels} (node : Node) (label : string) :
  matchCIDRLabels node label =
    match labels_Parse label with
    | inl e => Err (ErrorfW "unable to parse label to labels.Selector (label=%s): %w" [label] e)
    | inr sel =>
        let matches := λ r, Requirement_Matches r (node_Labels node) = true in
        if (Requirements sel).2 : bool
        then Ok (bool_decide (Forall matches (Requirements sel).1), Z.of_nat (length (filter matches (Requirements sel).1)))
        else Ok (false, 0)
    end.
Proof.
  unfold matchCIDRLabels. destruct (labels_Parse label) as [e|sel]; [done|].
  destruct (Requirements sel) as [reqs []]; [|done]. simpl. rewrite foldl_count. unfold mret, exit_ret. do 2 f_equal.
  rewrite Z.add_0_l. case_bool_decide as Hall; [by apply Z.eqb_eq, f_equal, filter_all|].
  apply Z.eqb_neq. intros E%Nat2Z.inj. apply Hall, Forall_forall. intros r Hr.
  destruct (decide (Requirement_Matches r (node_Labels node) = true)) as [|Hn]; [done|].
  pose proof (length_filter_lt (λ r, Requirement_Matches r (node_Labels node) = true) reqs r Hr Hn). lia.
Qed.
