(* ===== verification/ReleaseProps.v ===== *)
(** Occupying and releasing a list of CIDRs in one ClusterCIDR: the common part of
    [ReleaseCIDR], [occupyCIDRs] and [updateCIDRsAllocation].

    A CIDR is named by its family, base address and prefix length; [cover f L bs]
    are the blocks of a set of layout [L] that the CIDRs [bs] of family [f] meet. *)
From S2P Require Import Prelude GoNet CIDRTheory CIDRText NetUtils MultiCIDRSet IndexTheory IndexProps SetProps.
From S2P Require Import ContainerHeap PriorityQueue Kubernetes Allocator NodeHandlers AllocatorInv AllocateProps MatchProps NodeProps.

Definition cidr : Type := family * Z * Z.
Definition cidr_net (b : cidr) : IPNet := let '(f, v, p) := b in block (fam_width f) v p.
Definition cidr_family (b : cidr) : family := b.1.1.
Definition cidr_valid (b : cidr) : Prop := let '(f, v, p) := b in valid_block (fam_width f) v p.

Fixpoint cover (f : family) (L : layout) (bs : list cidr) : gset Z :=
  match bs with
  | [] => ∅
  | (g, v, p) :: bs => (if decide (g = f) then touched L v p else ∅) ∪ cover f L bs
  end.

Lemma elem_of_cover f L bs i : i ∈ cover f L bs ↔ ∃ v p, (f, v, p) ∈ bs ∧ i ∈ touched L v p.
Proof.
  induction bs as [|[[g v] p] bs IH]; simpl.
  - rewrite elem_of_empty. split; [done|]. intros (v & p & H & _). by apply elem_of_nil in H.
  - rewrite elem_of_union, IH. setoid_rewrite elem_of_cons. case_decide as E; [subst g|rewrite elem_of_empty]; naive_solver.
Qed.

Lemma cover_cons f L b bs : cover f L (b :: bs) = cover f L [b] ∪ cover f L bs.
Proof. destruct b as [[g v] p]. simpl. set_solver. Qed.

(** What a PodCIDR text names. *)
Definition parses `{!NetUtils} (text : string) (b : cidr) : Prop :=
  ∃ ip, ParseCIDRSloppy text = inr (ip, cidr_net b).

Section changes.
Context `{HC : !Cluster}.
Implicit Types st : AllocState.

(** From [st] to [st'] only the sets of [cc] change, and those from their
    allocated indices [A] to [g f L A]. *)
Record changed (cc : loc) (g : family → layout → gset Z → gset Z) st st' : Prop := {
  ch_env : same_env st st';
  ch_frame l : frame <$> objs st' !! l = frame <$> objs st !! l;
  ch_other l : l ≠ cc → objs st' !! l = objs st !! l;
  ch_none f : set_at st (cc, f) = None → set_at st' (cc, f) = None;
  ch_set f s L A : set_at st (cc, f) = Some s → set_view f s L A →
    ∃ s', set_at st' (cc, f) = Some s' ∧ set_view f s' L (g f L A) ∧ params s' = params s
}.

Lemma changed_refl cc st : changed cc (λ _ _ A, A) st st.
Proof using. split; try done. intros f s L A Hs Hv. by exists s. Qed.

Lemma changed_trans cc g h st1 st2 st3 : changed cc g st1 st2 → changed cc h st2 st3 →
  changed cc (λ f L A, h f L (g f L A)) st1 st3.
Proof using.
  intros [E1 F1 O1 N1 S1] [E2 F2 O2 N2 S2]. split.
  - by etransitivity.
  - intros l. by rewrite F2.
  - intros l Hl. by rewrite O2, O1.
  - auto.
  - intros f s L A Hs Hv. destruct (S1 f s L A Hs Hv) as (s1 & Hs1 & Hv1 & Hp1).
    destruct (S2 f s1 L _ Hs1 Hv1) as (s2 & Hs2 & Hv2 & Hp2). exists s2. split_and!; [done|done|congruence].
Qed.

Lemma changed_ext cc g h st st' : (∀ f L A, g f L A = h f L A) → changed cc g st st' → changed cc h st st'.
Proof using. intros E [? ? ? ? Hs]. split; try done. intros f s L A. rewrite <- E. apply Hs. Qed.

Lemma changed_iter cc g st st' : changed cc g (with_iter st) st' → changed cc g st st'.
Proof using. intros [[] ? ? ? ?]. split; [by split|done..]. Qed.

(** Replacing one set. *)
Lemma replaced_changed st st' cc f s s' L (g : gset Z → gset Z) A : set_at st (cc, f) = Some s → set_view f s L A →
  set_replaced cc f s' st st' → set_view f s' L (g A) → params s' = params s →
  changed cc (λ f' _ A, if decide (f' = f) then g A else A) st st'.
Proof using.
  intros Hat Hv Hr Hv' Hp. pose proof Hr as [Hse (c & Hc & E)]. split.
  - done.
  - intros k. rewrite E, lookup_insert. case_decide; [|done]. subst k. rewrite Hc. simpl. by destruct f.
  - intros k Hk. rewrite E. by rewrite lookup_insert_ne.
  - intros f' Hn. destruct (decide (f' = f)) as [->|Hne]; [by rewrite Hat in Hn|].
    unfold set_at in *. simpl in *. rewrite (set_replaced_other _ _ _ _ _ cc f' Hr) by congruence. done.
  - intros f' s0 L0 A0 Hs0 Hv0. case_decide as Hf.
    + subst f'. rewrite Hat in Hs0. injection Hs0 as <-. destruct (set_view_unique _ _ _ _ _ _ Hv Hv0) as [<- <-].
      exists s'. split_and!; [by eapply set_replaced_lookup|done|done].
    + exists s0. split; [|done]. unfold set_at in *. simpl in *.
      rewrite (set_replaced_other _ _ _ _ _ cc f' Hr) by congruence. done.
Qed.
End changes.

Section runs.
Context `{HN : !NetUtils} `{HC : !Cluster}.
Context (HNL : NetUtilsLaws HN).
Implicit Types st : AllocState.

(** The CIDR is well formed and meets the range of the set of its family in [cc]. *)
Definition in_range st (cc : loc) (b : cidr) : Prop :=
  cidr_valid b ∧ ∃ s, set_at st (cc, cidr_family b) = Some s ∧ overlaps (set_ClusterCIDR s) (cidr_net b) = true.

(** The second condition, decided. *)
Definition meets st (cc : loc) (b : cidr) : bool :=
  match set_at st (cc, cidr_family b) with Some s => overlaps (set_ClusterCIDR s) (cidr_net b) | None => false end.

Lemma meets_in_range st cc b : cidr_valid b → meets st cc b = true → in_range st cc b.
Proof using. intros Hb. unfold meets. destruct (set_at _ _) as [s|] eqn:Hs; [|done]. intros Ho. split; [done|by exists s]. Qed.

Lemma view_cluster f s L A : set_view f s L A → set_ClusterCIDR s = cluster_block L.
Proof using. intros [_ _ Hs]. apply (sl_cluster _ _ (si_layout _ _ _ Hs)). Qed.

Lemma at_set_ok st l f s : alloc_ok st → set_at st (l, f) = Some s → set_ok f s.
Proof using. intros Hok (c & Hc & Hs)%set_at_Some. by eapply co_sets; [eapply ao_objs|]. Qed.

Lemma changed_ok cc g st st' : alloc_ok st → changed cc g st st' → alloc_ok st'.
Proof using.
  intros Hok [Hse Hf Ho Hn Hs]. destruct (Hok) as [Hobjs Hm Hfr].
  assert (∀ l, is_Some (objs st' !! l) ↔ is_Some (objs st !! l)) as Hdom.
  { intros l. rewrite <- (fmap_is_Some frame (objs st' !! l)), Hf. by rewrite fmap_is_Some. }
  split.
  - intros l c Hc. destruct (decide (l = cc)) as [->|Hne]; [|rewrite Ho in Hc by done; by eapply Hobjs].
    destruct (proj1 (Hdom cc)) as [c0 Hc0]; [by exists c|].
    assert (∀ f, get_set f c = set_at st' (cc, f)) as Hget by (intros f; unfold set_at; simpl; by rewrite Hc).
    assert (∀ f, get_set f c0 = set_at st (cc, f)) as Hget0 by (intros f; unfold set_at; simpl; by rewrite Hc0).
    assert (∀ f s, set_at st (cc, f) = Some s → ∃ s', set_at st' (cc, f) = Some s' ∧ set_ok f s') as Hmove.
    { intros f s Hs0. destruct (at_set_ok st cc f s Hok Hs0) as (L & A & Hv).
      destruct (Hs f s L A Hs0 Hv) as (s' & Hs' & Hv' & _). exists s'. split; [done|]. by eexists _, _. }
    split.
    + intros f s. rewrite Hget. intros Hs'. destruct (set_at st (cc, f)) as [s0|] eqn:E; [|by rewrite Hn in Hs'].
      destruct (Hmove f s0 E) as (s1 & E1 & Hok1). by rewrite Hs' in E1; injection E1 as ->.
    + destruct (Hobjs cc c0 Hc0) as [_ [f [s Hf0]]]. exists f. rewrite Hget. rewrite Hget0 in Hf0.
      destruct (Hmove f s Hf0) as (s' & -> & _). by eexists.
  - intros l Hl. apply Hdom, Hm. by apply (same_mapped st st').
  - intros l Hl%Hdom%Hfr. by rewrite (se_next _ _ Hse).
Qed.

(** The range of a set is not changed by its allocations. *)
Lemma changed_in_range cc g st st' k b : alloc_ok st → changed cc g st st' → in_range st k b → in_range st' k b.
Proof using.
  intros Hok Hch [Hb (s & Hs & Ho)]. split; [done|]. destruct (decide (k = cc)) as [->|Hne].
  - destruct (at_set_ok _ _ _ _ Hok Hs) as (L & A & Hv). destruct (ch_set _ _ _ _ Hch _ s L A Hs Hv) as (s' & Hs' & Hv' & _).
    exists s'. split; [done|]. by rewrite (view_cluster _ _ _ _ Hv'), <- (view_cluster _ _ _ _ Hv).
  - exists s. split; [|done]. unfold set_at in *. simpl in *. by rewrite (ch_other _ _ _ _ Hch).
Qed.

Lemma replaced_cover (op : gset Z → gset Z → gset Z) st st' cc f v p s s' L A : (∀ A, op A ∅ = A) →
  set_at st (cc, f) = Some s → set_view f s L A → set_replaced cc f s' st st' →
  set_view f s' L (op A (touched L v p)) → params s' = params s →
  changed cc (λ g L A, op A (cover g L [(f, v, p)])) st st'.
Proof using.
  intros Hop Hs Hv Hr Hv' Hp.
  pose proof (replaced_changed st st' cc f s s' L (λ A, op A (touched L v p)) A Hs Hv Hr Hv' Hp) as [? ? ? ? Hset].
  split; try done. intros g s0 L0 A0 Hs0 Hv0. destruct (Hset g s0 L0 A0 Hs0 Hv0) as (s1 & Hs1 & Hv1 & Hp1).
  exists s1. split_and!; [done| |done]. cbn [cover]. rewrite union_empty_r_L. destruct (decide (g = f)) as [->|Hne].
  - rewrite decide_True by done. rewrite Hs in Hs0. injection Hs0 as <-.
    by destruct (set_view_unique _ _ _ _ _ _ Hv Hv0) as [<- <-].
  - rewrite decide_False by done. by rewrite Hop.
Qed.

Lemma Release_changed st cc b : alloc_ok st → in_range st cc b →
  ∃ st', Release cc (cidr_net b) st = (Ok tt, st') ∧ changed cc (λ f L A, A ∖ cover f L [b]) st st'.
Proof using HNL.
  intros Hok [Hb (s & Hs & Ho)]. destruct b as [[f v] p]. unfold cidr_family in Hs. simpl in *.
  destruct (at_set_ok _ _ _ _ Hok Hs) as (L & A & Hv). rewrite (view_cluster _ _ _ _ Hv) in Ho.
  destruct (Release_run HNL st cc f s L A v p Hs Hv Hb Ho) as (st' & s' & E & Hr & _ & Hv' & Hp & _).
  exists st'. split; [done|]. by apply (replaced_cover difference _ _ _ f v p s s' L A difference_empty_L).
Qed.

Lemma Occupy_changed st cc b : alloc_ok st → in_range st cc b →
  ∃ st', Occupy cc (cidr_net b) st = (Ok tt, st') ∧ changed cc (λ f L A, A ∪ cover f L [b]) st st'.
Proof using HNL.
  intros Hok [Hb (s & Hs & Ho)]. destruct b as [[f v] p]. unfold cidr_family in Hs. simpl in *.
  destruct (at_set_ok _ _ _ _ Hok Hs) as (L & A & Hv). rewrite (view_cluster _ _ _ _ Hv) in Ho.
  destruct (AllocateProps.Occupy_run HNL st cc f s L A v p Hs Hv Hb Ho) as (st' & s' & E & Hr & _ & Hv' & Hp & _).
  exists st'. split; [done|]. by apply (replaced_cover union _ _ _ f v p s s' L A union_empty_r_L).
Qed.

(** A loop whose body releases one CIDR. *)
Lemma release_all {A} (body : A → M AllocState unit) cc l bs st : alloc_ok st →
  Forall2 (λ x b, in_range st cc b ∧ ∀ st1 st2, is_Some (objs st1 !! cc) →
             Release cc (cidr_net b) st1 = (Ok tt, st2) → body x st1 = (Ok tt, st2)) l bs →
  ∃ st', forM_ l body st = (Ok tt, st') ∧ changed cc (λ f L A, A ∖ cover f L bs) st st'.
Proof using HNL.
  intros Hok Hl. revert st Hok Hl. revert bs. induction l as [|x l IH]; intros bs st Hok Hl.
  { apply Forall2_nil_inv_l in Hl as ->. exists st. split; [done|]. eapply changed_ext; [|apply changed_refl]. set_solver. }
  apply Forall2_cons_inv_l in Hl as (b & bs' & [Hin Hbody] & Hl & ->).
  destruct (Release_changed st cc b Hok Hin) as (st1 & E & Hch).
  assert (is_Some (objs st !! cc)) as Hcc by (destruct Hin as [_ (s & (c & Hc & _)%set_at_Some & _)]; by exists c).
  destruct (IH bs' st1) as (st2 & E2 & Hch2); [by eapply changed_ok| |].
  { eapply Forall2_impl; [exact Hl|]. intros y d [Hy Hb]. split; [|done]. by eapply changed_in_range. }
  exists st2. split; [by rewrite (forM_next _ _ _ _ _ _ (Hbody _ _ Hcc E))|].
  eapply changed_ext; [|by eapply changed_trans]. intros f L X. rewrite (cover_cons f L b bs'). set_solver.
Qed.

Lemma changed_grows cc g st st' : alloc_ok st → (∀ f L A, A ⊆ g f L A) → changed cc g st st' → grows st st'.
Proof using.
  intros Hok Hg Hch. destruct (Hch) as [Hse Hf Ho Hn Hs]. split; [done|done| |].
  - intros l f Hl. destruct (decide (l = cc)) as [->|Hne]; [by apply Hn|].
    unfold set_at in *. simpl in *. by rewrite Ho.
  - intros l f s Hl. destruct (decide (l = cc)) as [->|Hne].
    + destruct (at_set_ok _ _ _ _ Hok Hl) as (L & A & Hv). destruct (Hs f s L A Hl Hv) as (s' & Hs' & Hv' & Hp).
      exists s'. split; [done|]. by apply (view_grows f s s' L A _ Hv Hv').
    + exists s. split; [|reflexivity]. unfold set_at in *. simpl in *. by rewrite Ho.
Qed.

Lemma Occupy_outside_run st cc b s : alloc_ok st → cidr_valid b → set_at st (cc, cidr_family b) = Some s →
  overlaps (set_ClusterCIDR s) (cidr_net b) = false →
  ∃ st' e, Occupy cc (cidr_net b) st = (Err e, st') ∧ changed cc (λ _ _ A, A) st st'.
Proof using HNL.
  intros Hok Hb Hs Ho. destruct b as [[f v] p]. unfold cidr_family in Hs. simpl in *.
  destruct (at_set_ok _ _ _ _ Hok Hs) as (L & A & Hv). rewrite (view_cluster _ _ _ _ Hv) in Ho.
  destruct (Occupy_fail HNL st cc f s L A v p Hs Hv Hb Ho) as (st' & e & E & Hr & _).
  exists st', e. split; [done|]. by apply (replaced_cover (λ A _, A) st st' cc f v p s s L A).
Qed.

(** The CIDRs are allocated in [cc]. *)
Definition occupied_in st (cc : loc) (bs : list cidr) : Prop :=
  ∀ f v p, (f, v, p) ∈ bs → ∃ s L A, set_at st (cc, f) = Some s ∧ set_view f s L A
    ∧ overlaps (cluster_block L) (block (fam_width f) v p) = true ∧ touched L v p ⊆ A.

Lemma occupied_cons st st1 st2 cc b bs : alloc_ok st → in_range st cc b →
  changed cc (λ f L A, A ∪ cover f L [b]) st st1 → grows st1 st2 → occupied_in st2 cc bs → occupied_in st2 cc (b :: bs).
Proof using.
  clear HNL HN.
  intros Hok [Hb (s & Hs & Ho)] Hch Hg Hbs f v p [<-|Hin]%elem_of_cons; [|by apply Hbs].
  unfold cidr_family in Hs. simpl in *. destruct (at_set_ok _ _ _ _ Hok Hs) as (L & A & Hv).
  destruct (ch_set _ _ _ _ Hch _ s L A Hs Hv) as (s1 & Hs1 & Hv1 & _).
  destruct (gr_set _ _ Hg _ _ _ Hs1) as (s2 & Hs2 & _ & Hsg). destruct (Hsg L _ Hv1) as (A2 & Hv2 & HA).
  exists s2, L, A2. split_and!; [done|done|by rewrite <- (view_cluster _ _ _ _ Hv)|].
  etransitivity; [|exact HA]. simpl. rewrite decide_True by done. set_solver.
Qed.

(** What a ClusterCIDR does with the CIDRs [bs] of a node, in their order: it takes
    them all, refuses the first that is outside its range, or has no set for the
    family of one and the pointer to it is nil. *)
Inductive verdict : Type := Takes | Refuses | Crashes.

Fixpoint trial st (cc : loc) (bs : list cidr) : verdict :=
  match bs with
  | [] => Takes
  | b :: bs =>
      match set_at st (cc, cidr_family b) with
      | None => Crashes
      | Some s => if overlaps (set_ClusterCIDR s) (cidr_net b) then trial st cc bs else Refuses
      end
  end.

(** The first of [ls] that does not refuse. *)
Fixpoint occupier st (ls : list loc) (bs : list cidr) : option (loc * verdict) :=
  match ls with
  | [] => None
  | cc :: ls => match trial st cc bs with Refuses => occupier st ls bs | v => Some (cc, v) end
  end.

Lemma trial_grows st st' cc bs : grows st st' → trial st' cc bs = trial st cc bs.
Proof using.
  intros Hg. induction bs as [|b bs IH]; [done|]. simpl. destruct (set_at st (cc, cidr_family b)) as [s|] eqn:Hs.
  - destruct (gr_set _ _ Hg _ _ _ Hs) as (s' & -> & Hp & _). rewrite IH. replace (set_ClusterCIDR s') with (set_ClusterCIDR s); [done|].
    by apply (f_equal set_ClusterCIDR) in Hp.
  - by rewrite (gr_none _ _ Hg _ _ Hs).
Qed.

Lemma occupier_grows st st' ls bs : grows st st' → occupier st' ls bs = occupier st ls bs.
Proof using. intros Hg. induction ls as [|cc ls IH]; [done|]. simpl. by rewrite (trial_grows st st' cc bs Hg), IH. Qed.

Lemma Occupy_crashes st cc b : is_Some (objs st !! cc) → cidr_valid b → set_at st (cc, cidr_family b) = None →
  Occupy cc (cidr_net b) st = (Panic NilDereference, st).
Proof using HNL.
  intros [c Hc] Hb Hs. destruct b as [[f v] p]. unfold set_at in Hs. simpl in *. rewrite Hc in Hs. simpl in Hs.
  pose proof (associatedCIDRSet_run HNL st cc c f v p Hc Hb) as E. unfold cidr_family in Hs. simpl in Hs. rewrite Hs in E. simpl in E.
  unfold Occupy. by mstep E.
Qed.

Lemma occupyLoop_run cc node texts bs n st : alloc_ok st → is_Some (objs st !! cc) → Forall2 (λ t b, parses t b ∧ cidr_valid b) texts bs →
  ∃ r st', occupyLoop cc node texts n st = (r, st') ∧ alloc_ok st' ∧ grows st st'
    ∧ match trial st cc bs with
      | Takes => r = Ok (n + Z.of_nat (length texts)) ∧ occupied_in st' cc bs
      | Refuses => ∃ k, r = Ok k ∧ k < n + Z.of_nat (length texts)
      | Crashes => r = Panic NilDereference
      end.
Proof using HNL.
  revert bs n st. induction texts as [|t texts IH]; intros bs n st Hok Hcc Hl.
  { apply Forall2_nil_inv_l in Hl as ->. exists (Ok n), st. split; [done|]. split; [done|]. split; [reflexivity|].
    simpl. split; [f_equal; lia|]. by intros f v p ?%elem_of_nil. }
  apply Forall2_cons_inv_l in Hl as (b & bs' & [[ip Hp] Hb] & Hl & ->). cbn [occupyLoop trial]. rewrite Hp.
  destruct (set_at st (cc, cidr_family b)) as [s|] eqn:Hs.
  2: { pose proof (Occupy_crashes st cc b Hcc Hb Hs) as E. exists (Panic NilDereference), st. split; [|by split].
       assert (attempt (Occupy cc (cidr_net b)) st = (Panic NilDereference, st)) as Ea by (unfold attempt; by rewrite E).
       by rewrite (M_bind_Panic _ _ _ _ _ Ea). }
  destruct (overlaps (set_ClusterCIDR s) (cidr_net b)) eqn:Ho.
  2: { destruct (Occupy_outside_run st cc b s Hok Hb Hs Ho) as (st1 & e & E & Hg).
       exists (Ok n), st1. split; [by mstep (attempt_Err _ _ _ _ E)|].
       split; [by eapply changed_ok|]. split; [by apply (changed_grows cc _ st st1 Hok) in Hg|]. exists n. split; [done|simpl; lia]. }
  assert (in_range st cc b) as Hin by (split; [done|by exists s]).
  destruct (Occupy_changed st cc b Hok Hin) as (st1 & E & Hch). pose proof (changed_ok _ _ _ _ Hok Hch) as Hok1.
  assert (grows st st1) as Hg1 by (eapply changed_grows; [done| |exact Hch]; set_solver).
  destruct (IH bs' (n + 1) st1 Hok1 (grows_obj st st1 cc Hg1 Hcc) Hl) as (r & st2 & E2 & Hok2 & Hg2 & Hcase).
  exists r, st2. split; [by mstep (attempt_Ok _ _ _ _ E)|]. split; [done|]. split; [by etransitivity|].
  rewrite (trial_grows st st1 cc bs' Hg1) in Hcase. destruct (trial st cc bs').
  - destruct Hcase as [-> Hocc]. split; [f_equal; simpl; lia|]. by apply (occupied_cons st st1 st2).
  - destruct Hcase as (k & -> & Hk). exists k. split; [done|simpl; lia].
  - done.
Qed.

(** All CIDRs in range: it takes them. *)
Lemma in_range_takes st cc bs : Forall (in_range st cc) bs → trial st cc bs = Takes.
Proof using. clear. induction 1 as [|b bs [_ (s & Hs & Ho)] _ IH]; [done|]. simpl. by rewrite Hs, Ho. Qed.
End runs.
