(* ===== verification/HandlerTheorems.v ===== *)
(** The theorems about the handlers: ClusterCIDR creation and deletion, the work
    queues, and three behaviours in which the code departs from its comments. *)
From S2P Require Import Prelude GoNet CIDRTheory CIDRText NetUtils MultiCIDRSet IndexTheory IndexProps SetProps SetConstruction.
From S2P Require Import ContainerHeap PriorityQueue Kubernetes Allocator NodeHandlers ClusterCIDRHandlers AllocatorInv AllocateProps MatchProps NodeProps Reference AllocatorKeeps Controller Examples AllocatorTheorems HandlerProps.

(** * ClusterCIDR objects *)

(** C30. [deleteClusterCIDR] when the ClusterCIDR is mapped: the first object of
    its name in its selector's list, and no other, is marked terminating.  While a
    node is associated with it the call fails and the map keeps it; otherwise it is
    unmapped, and the label with it when it was the last of its list. *)
Theorem deleteClusterCIDR_functional `{HLb : !Labels} `{HC : !Cluster}
  (st : AllocState) cc key pre p c rest (Hkey : nodeSelectorKey cc = Ok key)
  (Hl : cidrMap st !! key = Some (pre ++ p :: rest))
  (Hpre : ∀ q, q ∈ pre → ∃ n, name_at st q = Some n ∧ n ≠ cc_Name cc)
  (Hc : objs st !! p = Some c) (Hn : Name c = cc_Name cc) :
  let st1 := with_objs (<[p := with_terminating true c]>) st in
  deleteClusterCIDR cc st =
    if decide (AssociatedNodes c = ∅) then
      (Ok tt, with_cidrMap (if decide (pre ++ rest = []) then delete key else insert key (pre ++ rest)) st1)
    else (Err (del_err (cc_Name cc)), st1).
Proof. exact (deleteClusterCIDR_run st cc key pre p c rest Hkey Hl Hpre Hc Hn). Qed.

Definition ex_obj4 : ClusterCIDR :=
  mkClusterCIDR "cc4" (Some (newSet "cc4" 32 (10 * 2 ^ 24) 24 4)) None ∅ false.

Lemma ex_obj4_at : objs ex_st !! 1%positive = Some ex_obj4.
Proof. vm_compute. reflexivity. Qed.

Lemma deleteClusterCIDR_functional_witness :
  deleteClusterCIDR ex_cc4 ex_st =
    if decide (AssociatedNodes ex_obj4 = ∅) then
      (Ok tt, with_cidrMap (if decide (@nil loc ++ @nil loc = []) then delete "kubernetes.io/clusterCIDR in (default)"
                            else insert "kubernetes.io/clusterCIDR in (default)" ([] ++ []))
                (with_objs (<[1%positive := with_terminating true ex_obj4]>) ex_st))
    else (Err (del_err "cc4"), with_objs (<[1%positive := with_terminating true ex_obj4]>) ex_st).
Proof.
  apply (deleteClusterCIDR_functional (HLb:=refLabels) (HC:=refCluster) ex_st ex_cc4
           "kubernetes.io/clusterCIDR in (default)" [] 1%positive ex_obj4 []).
  - vm_compute. reflexivity.
  - rewrite ex_map. reflexivity.
  - intros q Hq. by apply elem_of_nil in Hq.
  - exact ex_obj4_at.
  - reflexivity.
Defined.

(** [reconcileDelete]: without the finalizer nothing happens; with it, the
    finalizer is removed from the API object by one Update, and only after
    [deleteClusterCIDR] succeeded: when that fails no call is made, so the API
    server keeps the object until its nodes are gone. *)
Theorem reconcileDelete_finalizer `{HLb : !Labels} `{HC : !Cluster} (st : AllocState) cc :
  match decide (clusterCIDRFinalizer ∈ cc_Finalizers cc), deleteClusterCIDR cc st with
  | right _, _ => reconcileDelete cc st = (Ok tt, st)
  | left _, (Ok _, st') =>
      ∃ cc', ¬ (clusterCIDRFinalizer ∈ cc_Finalizers cc') ∧ cc_Name cc' = cc_Name cc ∧ cc_Spec cc' = cc_Spec cc
        ∧ (∀ f, f ≠ clusterCIDRFinalizer → (f ∈ cc_Finalizers cc' ↔ f ∈ cc_Finalizers cc))
        ∧ (let '(r, w) := networkClient_Update cc' (world st') in
           reconcileDelete cc st = (api_result r, with_world w st'))
  | left _, (Err e, st') => reconcileDelete cc st = (Err e, st')
  | left _, (Panic q, st') => reconcileDelete cc st = (Panic q, st')
  end.
Proof.
  unfold reconcileDelete. destruct (decide (clusterCIDRFinalizer ∈ cc_Finalizers cc)) as [Hf|Hf].
  2: by rewrite bool_decide_false.
  rewrite bool_decide_true by done. destruct (deleteClusterCIDR cc st) as [[u|e|q] st'] eqn:E.
  - eexists (with_finalizers _ cc). split; [|split; [done|split; [done|split]]].
    3: { mstep E. destruct u. rewrite returnErr_run.
         match goal with |- context [networkClient_Update ?c ?w] => destruct (networkClient_Update c w) as [r w'] eqn:Eu end.
         by rewrite Eu. }
    + simpl. rewrite list_elem_of_filter. naive_solver.
    + intros f Hne. simpl. rewrite list_elem_of_filter. naive_solver.
  - by rewrite (M_bind_Err _ _ _ _ _ E).
  - by rewrite (M_bind_Panic _ _ _ _ _ E).
Qed.

(** C29. [createClusterCIDR] of a well-formed object: the new internal ClusterCIDR
    is stored at a fresh address and appended to the list of its selector, unless
    that list already has one of its name, in which case the map is unchanged (so
    that re-reconciling an object never maps it twice nor resets its
    allocations); then one Create, for an object without a resource version, or
    Update is made, with the finalizer added if the object is not being deleted. *)
Theorem createClusterCIDR_functional `{HN : !NetUtils} `{HLb : !Labels} `{HC : !Cluster}
  (st st1 : AllocState) cc terminating key o (Hok : alloc_ok st1)
  (Hkey : nodeSelectorKey cc = Ok key) (Hset : createClusterCIDRSet cc terminating st = (Ok o, st1))
  (Ho : is_Some (IPv4CIDRSet o) ∨ is_Some (IPv6CIDRSet o)) :
  let st2 := (newObj o st1).2 in
  let l := default [] (cidrMap st1 !! key) in
  let st3 := if decide (Exists (λ p, name_at st1 p = Some (Name o)) l) then st2
             else with_cidrMap (insert key (l ++ [next_loc st1])) st2 in
  let cc' := if needToAddFinalizer (cc_DeletionTimestamp cc) (cc_Finalizers cc) clusterCIDRFinalizer
             then with_finalizers (cc_Finalizers cc ++ [clusterCIDRFinalizer]) cc else cc in
  let call := if String.eqb (cc_ResourceVersion cc) EmptyString then networkClient_Create cc' else networkClient_Update cc' in
  createClusterCIDR cc terminating st = (api_result (call (world st1)).1, with_world (call (world st1)).2 st3).
Proof.
  cbn zeta. unfold createClusterCIDR.
  assert (wrapErr (ErrorfW "unable to get labelSelector key: %w" []) (lift (nodeSelectorKey cc)) st = (Ok key, st)) as E1
    by (apply wrapErr_Ok; unfold lift; by rewrite Hkey).
  mstep E1. mstep (wrapErr_Ok (ErrorfW "invalid ClusterCIDR: %w" []) _ _ _ _ Hset).
  assert (bool_decide (IPv4CIDRSet o = None) && bool_decide (IPv6CIDRSet o = None) = false) as ->.
  { apply andb_false_iff. destruct Ho as [[s E]|[s E]]; [left|right]; apply bool_decide_eq_false; congruence. }
  assert (newObj o st1 = (Ok (next_loc st1), (newObj o st1).2)) as E2 by done. mstep E2.
  set (st2 := (newObj o st1).2).
  assert (objs st2 !! next_loc st1 = Some o) as Hp by (simpl; by rewrite lookup_insert_eq).
  assert (mapClusterCIDRSet key (Some (next_loc st1)) st2 = (Ok tt,
    if decide (Exists (λ p, name_at st1 p = Some (Name o)) (default [] (cidrMap st1 !! key))) then st2
    else with_cidrMap (insert key (default [] (cidrMap st1 !! key) ++ [next_loc st1])) st2)) as E3.
  { unfold mapClusterCIDRSet. assert (get st2 = (Ok st2, st2)) as Eg by done. mstep Eg.
    change (cidrMap st2) with (cidrMap st1). destruct (cidrMap st1 !! key) as [l|] eqn:Hl; simpl default.
    - mstep (getObj_run st2 _ o Hp).
      assert (∀ p, p ∈ l → p ≠ next_loc st1 ∧ is_Some (objs st1 !! p)) as Hlp.
      { intros p Hpl. assert (is_Some (objs st1 !! p)) as Hs by (apply (ao_mapped _ Hok); by exists key, l).
        split; [|done]. intros ->. apply (ao_fresh _ Hok) in Hs. lia. }
      mstep (containsName_run st2 (Name o) l ltac:(intros p Hpl; apply Hlp in Hpl as [Hne ?]; simpl; by rewrite lookup_insert_ne)).
      assert (Exists (λ p, name_at st2 p = Some (Name o)) l ↔ Exists (λ p, name_at st1 p = Some (Name o)) l) as Hex.
      { rewrite !Exists_exists. apply exist_proper. intros p.
        assert (p ∈ l → name_at st2 p = name_at st1 p) as Heq.
        { intros Hpl. destruct (Hlp p Hpl) as [Hne _]. unfold name_at. simpl. rewrite lookup_insert_ne; [done|congruence]. }
        split; intros [Hpl Hnm]; (split; [done|]); rewrite <- Hnm; [symmetry|]; by apply Heq. }
      case_decide as Hd; [rewrite bool_decide_true by (by apply Hex)|rewrite bool_decide_false by (by rewrite Hex)]; done.
    - rewrite decide_False by (by intros ?%Exists_nil). done. }
  mstep (wrapErr_Ok (ErrorfW "unable to map clusterCIDRSet: %w" []) _ _ _ _ E3). cbn zeta.
  assert (∀ b (x : v1ClusterCIDR) l, cc_ResourceVersion (if b : bool then with_finalizers l x else x) = cc_ResourceVersion x) as Hrv
    by (by intros []).
  rewrite Hrv. destruct (String.eqb (cc_ResourceVersion cc) EmptyString); rewrite returnErr_run; by case_decide.
Qed.

Definition ex_init : AllocState := initState (HC:=refCluster) ex_world.
Definition ex_st1 : AllocState := (createClusterCIDRSet ex_dual false ex_init).2.
Definition ex_objD : ClusterCIDR :=
  mkClusterCIDR "dual" (Some (newSet "dual" 32 (10 * 2 ^ 24 + 2 ^ 16) 27 4)) (Some (newSet "dual" 128 (253 * 2 ^ 120) 123 4)) ∅ false.

Lemma createClusterCIDR_functional_witness :
  createClusterCIDR ex_dual false ex_init =
    let st2 := (newObj ex_objD ex_st1).2 in
    let st3 := if decide (Exists (λ p, name_at ex_st1 p = Some "dual") []) then st2
               else with_cidrMap (insert "zone in (a)" [1%positive]) st2 in
    let call := networkClient_Update (Cluster:=refCluster) (with_finalizers [clusterCIDRFinalizer] ex_dual) in
    (api_result (call (world ex_st1)).1, with_world (call (world ex_st1)).2 st3).
Proof.
  apply (createClusterCIDR_functional (HLb:=refLabels) (HC:=refCluster) ex_init ex_st1 ex_dual false "zone in (a)" ex_objD).
  - apply (keeps_createClusterCIDRSet (HC:=refCluster) refNetUtils_laws refWok ex_dual false ex_dual_ok).
    apply init_inv, ex_world_ok.
  - vm_compute. reflexivity.
  - vm_compute. reflexivity.
  - left. by eexists.
Defined.
