(* ===== verification/DefaultTheorems.v ===== *)
(** The theorems about the default ClusterCIDR, which the command line asks for:
    which host bits it gets, and when the object is one the controller can use. *)
From S2P Require Import Prelude GoNet CIDRTheory CIDRText NetUtils MultiCIDRSet IndexTheory IndexProps SetProps SetConstruction.
From S2P Require Import ContainerHeap PriorityQueue Kubernetes Allocator NodeHandlers ClusterCIDRHandlers EventHandlers AllocatorInv AllocateProps Reference AllocatorKeeps Controller Examples AllocatorTheorems.

(** The host bits a mask size of the command line stands for. *)
Definition hostBitsOf (f : family) (size : Z) : Z := s32 (fam_width f - s32 size).

(** The object with these host bits and texts. *)
Definition defaultCC (bits : Z) (t4 t6 : string) : v1ClusterCIDR :=
  mkCC defaultClusterCIDRName 0 EmptyString None [] (mkSpecCC None bits t4 t6).

Definition single_text (f g : family) (n : IPNet) : string := if decide (f = g) then IPNet_String n else EmptyString.

(** The bits of a dual-stack object: the IPv4 ones if they are at least four and
    at most the IPv6 ones, else the IPv6 ones if they are between 4 and 32, else 4. *)
Definition dualBits (b4 b6 : Z) : Z :=
  if bool_decide (4 ≤ b4 ≤ b6) then b4 else if bool_decide (4 ≤ b6 ≤ 32) then b6 else 4.

Section default.
Context `{HN : !NetUtils} (HNL : NetUtilsLaws HN).

Lemma defaultLoop_step f v p isDualstack sizes i size cidrs spec b4 b6 :
  valid_block (fam_width f) v p → sizes !! i = Some size →
  defaultLoop isDualstack sizes i (block (fam_width f) v p :: cidrs) (spec, b4, b6) =
  let b := hostBitsOf f size in
  let n := block (fam_width f) v p in
  let spec := match f with V4 => with_IPv4 (IPNet_String n) spec | V6 => with_IPv6 (IPNet_String n) spec end in
  let spec := if negb isDualstack && (minPerNodeHostBits <? b) then with_hostBits b spec else spec in
  defaultLoop isDualstack sizes (S i) cidrs (spec, match f with V4 => b | V6 => b4 end, match f with V4 => b6 | V6 => b end).
Proof using HNL.
  intros Hb Hs. cbn [defaultLoop]. rewrite (IsIPv4CIDR_valid _ _ _ Hb), (IsIPv6CIDR_valid _ _ _ Hb).
  destruct f; cbn [fam_width]; rewrite Hs; reflexivity.
Qed.

(** A missing mask size panics. *)
Lemma defaultLoop_short f v p isDualstack sizes i cidrs acc : valid_block (fam_width f) v p → sizes !! i = None →
  defaultLoop isDualstack sizes i (block (fam_width f) v p :: cidrs) acc = Panic IndexOutOfRange.
Proof using HNL.
  intros Hb Hs. destruct acc as [[spec b4] b6]. cbn [defaultLoop].
  rewrite (IsIPv4CIDR_valid _ _ _ Hb), (IsIPv6CIDR_valid _ _ _ Hb). destruct f; cbn [fam_width]; by rewrite Hs.
Qed.
End default.

Lemma existsb_name l : existsb (λ c, String.eqb (cc_Name c) defaultClusterCIDRName) l
  = bool_decide (Exists (λ c, cc_Name c = defaultClusterCIDRName) l).
Proof.
  induction l as [|c l IH]; [done|]. cbn [existsb]. rewrite IH.
  destruct (String.eqb_spec (cc_Name c) defaultClusterCIDRName) as [E|E]; simpl.
  - symmetry. apply bool_decide_eq_true_2. by left.
  - apply bool_decide_ext. rewrite Exists_cons. naive_solver.
Qed.

Lemma Z_leb_and a b c : (a <=? b) && (b <=? c) = bool_decide (a ≤ b ≤ c).
Proof.
  case_bool_decide; [apply andb_true_iff; rewrite !Z.leb_le; lia|].
  apply andb_false_iff. rewrite !Z.leb_gt. lia.
Qed.

Section runs.
Context `{HN : !NetUtils} (HNL : NetUtilsLaws HN).
Implicit Types existing : list v1ClusterCIDR.

Lemma single_run existing s1 s2 sizes f v p size : valid_block (fam_width f) v p →
  existsb (λ c, String.eqb (cc_Name c) defaultClusterCIDRName) existing = false →
  createDefaultClusterCIDR existing (mkParams [block (fam_width f) v p] s1 s2 (size :: sizes))
  = Ok (existing ++ [defaultCC (Z.max 4 (hostBitsOf f size)) (single_text f V4 (block (fam_width f) v p))
                       (single_text f V6 (block (fam_width f) v p))]).
Proof using HNL.
  intros Hb Hex. unfold createDefaultClusterCIDR. cbn [ClusterCIDRs NodeCIDRMaskSizes length Nat.eqb]. rewrite Hex.
  rewrite (defaultLoop_step HNL f v p _ _ 0 size) by done. cbn zeta.
  unfold single_text, defaultCC, minPerNodeHostBits. destruct (Z.ltb_spec 4 (hostBitsOf f size));
    [rewrite Z.max_r by lia|rewrite Z.max_l by lia]; by destruct f.
Qed.

Lemma dual_run existing s1 s2 sizes f v p size g v' p' size' : valid_block (fam_width f) v p → valid_block (fam_width g) v' p' → f ≠ g →
  existsb (λ c, String.eqb (cc_Name c) defaultClusterCIDRName) existing = false →
  let text h := if decide (h = f) then IPNet_String (block (fam_width f) v p) else IPNet_String (block (fam_width g) v' p') in
  createDefaultClusterCIDR existing (mkParams [block (fam_width f) v p; block (fam_width g) v' p'] s1 s2 (size :: size' :: sizes))
  = Ok (existing ++ [defaultCC (match f with V4 => dualBits (hostBitsOf f size) (hostBitsOf g size')
                                      | V6 => dualBits (hostBitsOf g size') (hostBitsOf f size) end) (text V4) (text V6)]).
Proof using HNL.
  intros Hb Hb' Hfg Hex. cbn zeta. unfold createDefaultClusterCIDR. cbn [ClusterCIDRs NodeCIDRMaskSizes length Nat.eqb]. rewrite Hex.
  rewrite (defaultLoop_step HNL f v p _ _ 0 size) by done. cbn zeta.
  rewrite (defaultLoop_step HNL g v' p' _ _ 1 size') by done. cbn zeta. cbn [defaultLoop negb andb].
  destruct f, g; try done; generalize (hostBitsOf V4 size) (hostBitsOf V6 size') (hostBitsOf V6 size) (hostBitsOf V4 size');
    intros b1 b2 b3 b4; unfold dualBits, defaultCC, minPerNodeHostBits, ipv4MaxCIDRMask;
    cbn -[Z.leb andb bool_decide]; rewrite !Z_leb_and; by repeat case_bool_decide.
Qed.
End runs.

(** C37. [createDefaultClusterCIDR].  Without a cluster CIDR, or when the default
    ClusterCIDR exists, the list is unchanged.  Otherwise one object is appended:
    for one CIDR, its text and the host bits of its mask size, raised to 4; for an
    IPv4 and an IPv6 CIDR in either order, both texts and [dualBits].  A CIDR
    without a mask size of its index panics. *)
Theorem createDefaultClusterCIDR_functional `{HN : !NetUtils} (HNL : NetUtilsLaws HN) existing s1 s2
  (Hnew : Forall (λ c, cc_Name c ≠ defaultClusterCIDRName) existing) f v p g v' p' size size' sizes
  (Hb : valid_block (fam_width f) v p) (Hb' : valid_block (fam_width g) v' p') (Hfg : f ≠ g) :
  let n := block (fam_width f) v p in
  let n' := block (fam_width g) v' p' in
  let create l cidrs sizes := createDefaultClusterCIDR l (mkParams cidrs s1 s2 sizes) in
  let text h := if decide (h = f) then IPNet_String n else IPNet_String n' in
  create existing [] sizes = Ok existing ∧
  (∀ c cidrs, cc_Name c = defaultClusterCIDRName → create (existing ++ [c]) cidrs sizes = Ok (existing ++ [c])) ∧
  create existing [n] (size :: sizes)
    = Ok (existing ++ [defaultCC (Z.max 4 (hostBitsOf f size)) (single_text f V4 n) (single_text f V6 n)]) ∧
  create existing [n; n'] (size :: size' :: sizes)
    = Ok (existing ++ [defaultCC (match f with V4 => dualBits (hostBitsOf f size) (hostBitsOf g size')
                                        | V6 => dualBits (hostBitsOf g size') (hostBitsOf f size) end) (text V4) (text V6)]) ∧
  create existing [n] [] = Panic IndexOutOfRange ∧ create existing [n; n'] [size] = Panic IndexOutOfRange.
Proof.
  cbn zeta. assert (existsb (λ c, String.eqb (cc_Name c) defaultClusterCIDRName) existing = false) as Hex.
  { rewrite existsb_name. apply bool_decide_eq_false_2. rewrite Exists_exists. rewrite Forall_forall in Hnew. naive_solver. }
  split_and!; [done| |by apply single_run|by apply dual_run|..]; unfold createDefaultClusterCIDR;
    cbn [ClusterCIDRs NodeCIDRMaskSizes length Nat.eqb].
  - intros c cidrs Hc. assert (existsb (λ c, String.eqb (cc_Name c) defaultClusterCIDRName) (existing ++ [c]) = true) as ->.
    { rewrite existsb_name. apply bool_decide_eq_true_2, Exists_app. right. by left. }
    by destruct (Nat.eqb _ 0).
  - rewrite Hex. by rewrite (defaultLoop_short HNL f v p).
  - rewrite Hex, (defaultLoop_step HNL f v p _ _ 0 size) by done. cbn zeta. by rewrite (defaultLoop_short HNL g v' p').
Qed.

Lemma createDefaultClusterCIDR_functional_witness :
  Forall (λ c, cc_Name c ≠ defaultClusterCIDRName) [ex_cc4] ∧
  (let n := block 128 (253 * 2 ^ 120) 64 in
  let n' := block 32 (10 * 2 ^ 24) 8 in
  let create l cidrs sizes := createDefaultClusterCIDR l (mkParams cidrs None None sizes) in
  let text h := if decide (h = V6) then IPNet_String n else IPNet_String n' in
  create [ex_cc4] [] [] = Ok [ex_cc4] ∧
  (∀ c cidrs, cc_Name c = defaultClusterCIDRName → create ([ex_cc4] ++ [c]) cidrs [] = Ok ([ex_cc4] ++ [c])) ∧
  create [ex_cc4] [n] [80] = Ok ([ex_cc4] ++ [defaultCC (Z.max 4 (hostBitsOf V6 80)) (single_text V6 V4 n) (single_text V6 V6 n)]) ∧
  create [ex_cc4] [n; n'] [80; 24] = Ok ([ex_cc4] ++ [defaultCC (dualBits (hostBitsOf V4 24) (hostBitsOf V6 80)) (text V4) (text V6)]) ∧
  create [ex_cc4] [n] [] = Panic IndexOutOfRange ∧ create [ex_cc4] [n; n'] [80] = Panic IndexOutOfRange).
Proof.
  split; [by repeat constructor|].
  apply (createDefaultClusterCIDR_functional refNetUtils_laws [ex_cc4] None None ltac:(by repeat constructor)
           V6 (253 * 2 ^ 120) 64 V4 (10 * 2 ^ 24) 8 80 24 []).
  - by_decision.
  - by_decision.
  - intros [=].
Defined.

(** * When the controller can use it *)

(** A flag: a CIDR of the family with a mask size at least the CIDR's and with four
    host bits left. *)
Definition flag_ok (f : family) (v p size : Z) : Prop :=
  valid_block (fam_width f) v p ∧ p ≤ size ≤ fam_width f - 4 ∧ (f = V6 → 2 ^ 48 ≤ v).

(** The flags [--cluster-cidr] and [--node-cidr-mask-size*]. *)
Inductive flags_ok : list IPNet → list Z → Prop :=
| flags_none sizes : flags_ok [] sizes
| flags_single f v p size sizes : flag_ok f v p size → flags_ok [block (fam_width f) v p] (size :: sizes)
| flags_dual f v p size g v' p' size' sizes : flag_ok f v p size → flag_ok g v' p' size' → f ≠ g →
    flags_ok [block (fam_width f) v p; block (fam_width g) v' p'] (size :: size' :: sizes).

Lemma hostBitsOf_flag f v p size : flag_ok f v p size → hostBitsOf f size = fam_width f - size ∧ 4 ≤ fam_width f - size ≤ fam_width f - p.
Proof.
  intros (Hb & Hs & _). assert (0 ≤ p) by apply Hb. split; [|lia]. unfold hostBitsOf, s32.
  destruct f; simpl in *; rewrite (Z.mod_small (size + _)) by lia; rewrite Z.mod_small by lia; lia.
Qed.

(** Any number of host bits from 4 to the flag's is fine. *)
Lemma range_ok_flag `{HN : !NetUtils} (HNL : NetUtilsLaws HN) f v p size h : flag_ok f v p size → 4 ≤ h ≤ fam_width f - p →
  range_ok f h (IPNet_String (block (fam_width f) v p)).
Proof.
  intros (Hb & Hs & H6) Hh. right. rewrite (ParseCIDRSloppy_String _ _ _ Hb). intros ? ? [= <- <-]. exists v, p.
  split; [done|]. split; [done|]. assert (clusterSubnetMaxDiff < 32) by done. pose proof (vb_len _ _ _ Hb) as Hp.
  destruct (Z.le_gt_cases (fam_width f - h - p) clusterSubnetMaxDiff) as [Hd|Hd].
  - left. split_and!; [done|lia|lia|lia|]. intros Hw. split; [done|]. apply H6. by destruct f.
  - destruct f; [|right; split; [done|simpl in *; lia]].
    left. simpl in *. split_and!; [done|lia|lia|lia|done].
Qed.

Lemma dualBits_bounds b4 b6 : 4 ≤ b4 ≤ 32 → 4 ≤ b6 → dualBits b4 b6 = Z.min b4 b6.
Proof. intros H4 H6. unfold dualBits. repeat case_bool_decide; lia. Qed.

(** C38. The flags of a command line in which each CIDR has a mask size at least its
    own that leaves four host bits, one CIDR or one of each family: the objects the
    constructor works on are well formed when those of the API server are, the
    default ClusterCIDR included, and creating it does not panic. *)
Theorem sensible_flags_ok `{HN : !NetUtils} (HNL : NetUtilsLaws HN) params existing
  (Hflags : flags_ok (ClusterCIDRs params) (NodeCIDRMaskSizes params)) (Hex : Forall cc_ok existing) :
  ∃ l, createDefaultClusterCIDR existing params = Ok l ∧ Forall cc_ok l ∧ (l = existing ∨ ∃ c, l = existing ++ [c]).
Proof.
  destruct params as [cidrs s1 s2 sizes]. simpl in Hflags.
  destruct (existsb (λ c, String.eqb (cc_Name c) defaultClusterCIDRName) existing) eqn:E.
  { exists existing. split; [|split; [done|by left]]. unfold createDefaultClusterCIDR. rewrite E. by destruct (Nat.eqb _ 0). }
  destruct Hflags as [sizes|f v p size sizes Hf|f v p size g v' p' size' sizes Hf Hg Hfg].
  - exists existing. split; [done|]. split; [done|by left].
  - destruct (hostBitsOf_flag _ _ _ _ Hf) as [Eh Hh]. eexists. split; [by apply (single_run HNL), E; apply Hf|].
    split; [|right; by eexists]. apply Forall_app. split; [done|]. constructor; [|constructor]. rewrite Z.max_r by lia. rewrite Eh.
    assert (∀ g, range_ok g (fam_width f - size) (single_text f g (block (fam_width f) v p))) as Hr.
    { intros g. unfold single_text. case_decide as Eg; [subst g; by apply (range_ok_flag HNL f v p size)|by left]. }
    split; apply Hr.
  - destruct (hostBitsOf_flag _ _ _ _ Hf) as [Eh Hh], (hostBitsOf_flag _ _ _ _ Hg) as [Eh' Hh'].
    eexists. split; [by apply (dual_run HNL); [apply Hf|apply Hg|..]|]. split; [|right; by eexists].
    apply Forall_app. split; [done|]. constructor; [|constructor]. rewrite Eh, Eh'.
    assert (0 ≤ size ∧ 0 ≤ size') by (split; [destruct Hf as (Hb & ? & _)|destruct Hg as (Hb & ? & _)]; pose proof (vb_len _ _ _ Hb); lia).
    pose proof (λ h, range_ok_flag HNL f v p size h Hf) as H1. pose proof (λ h, range_ok_flag HNL g v' p' size' h Hg) as H2.
    split; destruct f, g; try done; simpl in *; rewrite dualBits_bounds by lia; first [apply H1|apply H2]; lia.
Qed.

Definition ex_flags : CIDRAllocatorParams := mkParams [block 32 (10 * 2 ^ 24) 8; block 128 (253 * 2 ^ 120) 64] None None [24; 80].

Lemma sensible_flags_ok_witness :
  flags_ok (ClusterCIDRs ex_flags) (NodeCIDRMaskSizes ex_flags) ∧
  ∃ l, createDefaultClusterCIDR [ex_cc4] ex_flags = Ok l ∧ Forall cc_ok l ∧ (l = [ex_cc4] ∨ ∃ c, l = [ex_cc4] ++ [c]).
Proof.
  assert (flags_ok (ClusterCIDRs ex_flags) (NodeCIDRMaskSizes ex_flags)) as Hf.
  { apply (flags_dual V4 (10 * 2 ^ 24) 8 24 V6 (253 * 2 ^ 120) 64 80); [..|intros [=]].
    - split_and!; [by_decision|by_decision|by_decision|intros [=]].
    - split_and!; by_decision. }
  split; [exact Hf|]. apply (sensible_flags_ok refNetUtils_laws ex_flags [ex_cc4] Hf). constructor; [apply ex_cc4_ok|constructor].
Defined.
