(* ===== verification/NodeTheorems.v ===== *)
(** The theorems about the node handlers: occupying, releasing and patching the
    CIDRs of a node, and the work-queue protocol. *)
From S2P Require Import Prelude GoNet CIDRTheory CIDRText NetUtils MultiCIDRSet IndexTheory IndexProps SetProps SetConstruction.
From S2P Require Import ContainerHeap PriorityQueue Kubernetes Allocator NodeHandlers ClusterCIDRHandlers AllocatorInv AllocateProps MatchProps NodeProps Reference AllocatorKeeps Controller Examples AllocatorTheorems ReleaseProps HandlerProps HandlerTheorems.

Section runs.
Context `{HN : !NetUtils} `{HLb : !Labels} `{HC : !Cluster} `{HI : !MapIter}.
Context (HNL : NetUtilsLaws HN) (HIL : MapIterLaws HI).
Implicit Types st : AllocState.

(** The first of [ls] the node is associated with. *)
Definition associated st (name : string) (cc : loc) : bool :=
  match objs st !! cc with Some c => default false (AssociatedNodes c !! name) | None => false end.

Definition no_association (name : string) : error := Errorf "no clusterCIDR found associated with node: %s" [name].

Lemma association_run st name (ls : list loc) : (∀ cc, cc ∈ ls → is_Some (objs st !! cc)) →
  forReturn ls (λ clusterCIDR, c ← getObj clusterCIDR;
    if default false (AssociatedNodes c !! name) then mret (Some clusterCIDR) else mret None) st
  = (Ok (find (associated st name) ls), st).
Proof using.
  induction ls as [|cc ls IH]; intros Hls; [done|]. destruct (Hls cc) as [c Hc]; [by left|].
  assert (associated st name cc = default false (AssociatedNodes c !! name)) as Ea by (unfold associated; by rewrite Hc).
  cbn [find]. rewrite Ea. destruct (default false (AssociatedNodes c !! name)) eqn:Hd.
  - erewrite forReturn_stop; [done|]. mstep (getObj_run st cc c Hc). by rewrite Hd.
  - erewrite forReturn_next; [apply IH; intros k Hk; apply Hls; by right|]. mstep (getObj_run st cc c Hc). by rewrite Hd.
Qed.

Lemma allocated_run st node sel : alloc_ok st → labels_ok st → nodeSelectorAsSelector (Some defaultNodeSelector) = Ok sel →
  ∃ ls, (orderedMatchingClusterCIDRs node false st).1 = Ok ls ∧ allocatedClusterCIDR node st
    = (match find (associated st (node_Name node)) ls with
       | Some cc => Ok cc
       | None => Err (no_association (node_Name node))
       end, with_iter st).
Proof using HIL.
  intros Hok Hlab Hsel. destruct (ordered_run HIL st node false sel Hok Hlab Hsel) as (items & E & Hperm & _).
  eexists. rewrite E. split; [done|]. unfold allocatedClusterCIDR.
  mstep (wrapErr_Ok (ErrorfW "unable to get a clusterCIDR for node %s: %w" [node_Name node]) _ _ _ _ E).
  rewrite (M_bind_Ok _ _ _ _ _ (association_run (with_iter st) (node_Name node) _
    (λ cc Hcc, ao_mapped _ Hok cc (ordered_mapped st node false sel items Hperm cc Hcc)))).
  change (associated (with_iter st)) with (associated st). by destruct (find _ _).
Qed.

Lemma release_run st node sel cc bs : alloc_ok st → labels_ok st →
  nodeSelectorAsSelector (Some defaultNodeSelector) = Ok sel →
  PodCIDRs node ≠ [] → (allocatedClusterCIDR node st).1 = Ok cc →
  Forall2 (λ t b, parses t b ∧ in_range st cc b) (PodCIDRs node) bs →
  associated st (node_Name node) cc = true ∧
  ∃ st1 c, changed cc (λ f L A, A ∖ cover f L bs) st st1 ∧ objs st1 !! cc = Some c ∧
    ReleaseCIDR (Some node) st = (Ok tt, with_objs (<[cc := with_nodes (delete (node_Name node)) c]>) st1).
Proof using HNL HIL.
  intros Hok Hlab Hsel Hne Hcc Hbs.
  destruct (allocated_run st node sel Hok Hlab Hsel) as (ls & _ & E). rewrite E in Hcc.
  destruct (find _ ls) as [cc'|] eqn:Hf; [|done]. injection Hcc as ->. apply find_some in Hf as [_ Ha].
  split; [done|]. set (st0 := with_iter st) in *.
  unfold ReleaseCIDR. destruct (Nat.eqb_spec (length (PodCIDRs node)) 0) as [Hl|_]; [by apply nil_length_inv in Hl|].
  mstep E. match goal with |- context [forM_ (PodCIDRs node) ?f] =>
    destruct (release_all HNL f cc (PodCIDRs node) bs st0 (alloc_ok_iter st Hok)) as (st1 & E1 & Hch) end.
  { eapply Forall2_impl; [exact Hbs|]. intros t b [[ip Hp] Hin]. split; [done|]. intros s1 s2 [d Hd] Er.
    rewrite Hp. mstep (getObj_run s1 cc d Hd). by apply wrapErr_Ok. }
  assert (∃ c, objs st1 !! cc = Some c) as [c Hc].
  { pose proof (ch_frame _ _ _ _ Hch cc) as Hfr. unfold associated in Ha. simpl in Hfr.
    destruct (objs st !! cc) as [c0|]; [|done]. apply fmap_Some in Hfr as (c & Hc & _). by exists c. }
  exists st1, c. split; [by apply changed_iter|]. split; [done|]. mstep E1. by apply updObj_run.
Qed.
End runs.

(** * Releasing *)

(** C18. [ReleaseCIDR] of a node associated with a ClusterCIDR: every PodCIDR is
    given back to the set of its family in that ClusterCIDR, and only blocks that
    meet a PodCIDR become free; then the node's association is removed.  Nothing
    else changes. *)
Theorem ReleaseCIDR_functional `{HN : !NetUtils} `{HLb : !Labels} `{HC : !Cluster} `{HI : !MapIter}
  (HNL : NetUtilsLaws HN) (HIL : MapIterLaws HI) (st : AllocState) node sel cc bs
  (Hok : alloc_ok st) (Hlab : labels_ok st) (Hsel : nodeSelectorAsSelector (Some defaultNodeSelector) = Ok sel)
  (Hne : PodCIDRs node ≠ []) (Hcc : (allocatedClusterCIDR node st).1 = Ok cc)
  (Hbs : Forall2 (λ t b, parses t b ∧ in_range st cc b) (PodCIDRs node) bs) :
  associated st (node_Name node) cc = true ∧
  ∃ st1 c, changed cc (λ f L A, A ∖ cover f L bs) st st1 ∧ objs st1 !! cc = Some c ∧
    ReleaseCIDR (Some node) st = (Ok tt, with_objs (<[cc := with_nodes (delete (node_Name node)) c]>) st1).
Proof. exact (release_run HNL HIL st node sel cc bs Hok Hlab Hsel Hne Hcc Hbs). Qed.

(** The state after a CIDR was allocated to the first node. *)
Definition ex_alloc : AllocState := (AllocateOrOccupyCIDR (Some ex_n1) ex_st).2.
Definition ex_n1' : Node := ex_node "n1" ∅ ["10.0.0.0/28"].

Lemma ex_alloc_ok : alloc_ok ex_alloc.
Proof.
  apply (keeps_AllocateOrOccupyCIDR (HC:=refCluster) refNetUtils_laws refWok refWorld_closed (Some ex_n1)).
  - intros n [= <-]. constructor.
  - exact ex_inv.
Qed.

Lemma ex_alloc_labels : labels_ok ex_alloc.
Proof. assert (cidrMap ex_alloc = cidrMap ex_st) as E by (vm_compute; reflexivity). intros label. rewrite E. apply ex_labels. Qed.

Lemma ReleaseCIDR_functional_witness :
  (allocatedClusterCIDR ex_n1' ex_alloc).1 = Ok 1%positive ∧ associated ex_alloc "n1" 1 = true ∧
  ∃ st1 c, changed 1 (λ f L A, A ∖ cover f L [(V4, 10 * 2 ^ 24, 28)]) ex_alloc st1 ∧ objs st1 !! 1%positive = Some c ∧
    ReleaseCIDR (Some ex_n1') ex_alloc = (Ok tt, with_objs (<[1%positive := with_nodes (delete "n1") c]>) st1).
Proof.
  assert ((allocatedClusterCIDR ex_n1' ex_alloc).1 = Ok 1%positive) as Hcc by (vm_compute; reflexivity).
  split; [exact Hcc|].
  apply (ReleaseCIDR_functional (HLb:=refLabels) (HC:=refCluster) refNetUtils_laws refIter_laws ex_alloc ex_n1' ex_default_sel 1%positive
           [(V4, 10 * 2 ^ 24, 28)] ex_alloc_ok ex_alloc_labels).
  - vm_compute. reflexivity.
  - discriminate.
  - exact Hcc.
  - constructor; [|constructor]. split; [|apply meets_in_range; [by_decision|]].
    + eexists. vm_compute. reflexivity.
    + vm_compute. reflexivity.
Defined.

(** * Occupying *)

Section occupying.
Context `{HN : !NetUtils} `{HLb : !Labels} `{HC : !Cluster} `{HI : !MapIter}.
Context (HNL : NetUtilsLaws HN) (HIL : MapIterLaws HI).
Implicit Types st : AllocState.

Definition associate (name : string) (cc : loc) (st : AllocState) : AllocState :=
  with_objs (alter (with_nodes (insert name true)) cc) st.

Lemma updObj_associate st cc c name : objs st !! cc = Some c →
  updObj cc (with_nodes (insert name true)) st = (Ok tt, associate name cc st).
Proof using.
  intros Hc. rewrite (updObj_run st cc c _ Hc). unfold associate, with_objs. do 2 f_equal.
  apply map_eq. intros l. rewrite lookup_alter, lookup_insert. case_decide as E; [subst l; by rewrite Hc|done].
Qed.

(** The walk of [occupyCIDRs] over the ClusterCIDRs. *)
Definition occupyBody (node : Node) (clusterCIDR : loc) : M AllocState (option unit) :=
  occupiedCount ← occupyLoop clusterCIDR node (PodCIDRs node) 0;
  if occupiedCount =? Z.of_nat (length (PodCIDRs node)) then
    updObj clusterCIDR (with_nodes (insert (node_Name node) true)) ;; mret (Some tt)
  else mret None.

Lemma occupy_walk st node bs (ls : list loc) : alloc_ok st → (∀ cc, cc ∈ ls → is_Some (objs st !! cc)) →
  Forall2 (λ t b, parses t b ∧ cidr_valid b) (PodCIDRs node) bs →
  ∃ st1, alloc_ok st1 ∧ grows st st1 ∧
    match occupier st ls bs with
    | None => forReturn ls (occupyBody node) st = (Ok None, st1)
    | Some (cc, Takes) => is_Some (objs st1 !! cc) ∧ forReturn ls (occupyBody node) st = (Ok (Some tt), associate (node_Name node) cc st1)
        ∧ occupied_in st1 cc bs
    | Some (_, _) => forReturn ls (occupyBody node) st = (Panic NilDereference, st1)
    end.
Proof using HNL.
  intros Hok Hls Hbs. revert st Hok Hls. induction ls as [|cc ls IH]; intros st Hok Hls.
  { exists st. split; [done|]. split; [reflexivity|done]. }
  pose proof (Hls cc ltac:(by left)) as Hcc.
  destruct (occupyLoop_run HNL cc node (PodCIDRs node) bs 0 st Hok Hcc Hbs) as (r & st1 & E & Hok1 & Hg1 & Hcase).
  destruct (grows_obj st st1 cc Hg1 Hcc) as [c1 Hc1]. cbn [occupier]. destruct (trial st cc bs).
  - destruct Hcase as [-> Hocc]. exists st1. split; [done|]. split; [done|]. split; [by exists c1|]. split; [|done]. apply forReturn_stop.
    unfold occupyBody. mstep E. rewrite Z.add_0_l, Z.eqb_refl. by mstep (updObj_associate st1 cc c1 (node_Name node) Hc1).
  - destruct Hcase as (k & -> & Hk). destruct (IH st1 Hok1) as (st2 & Hok2 & Hg2 & Hr).
    { intros k' Hk'. apply (grows_obj st); [done|]. apply Hls. by right. }
    rewrite (occupier_grows st st1 ls bs Hg1) in Hr. exists st2. split; [done|]. split; [by etransitivity|].
    rewrite (forReturn_next cc ls (occupyBody node) st st1); [done|].
    unfold occupyBody. mstep E. by destruct (Z.eqb_spec k (Z.of_nat (length (PodCIDRs node)))); [lia|].
  - subst r. exists st1. split; [done|]. split; [done|]. cbn [forReturn].
    assert (occupyBody node cc st = (Panic NilDereference, st1)) as Eb by (unfold occupyBody; by rewrite (M_bind_Panic _ _ _ _ _ E)).
    by rewrite (M_bind_Panic _ _ _ _ _ Eb).
Qed.

(** The whole of [occupyCIDRs]. *)
Definition not_occupied (node : Node) (ls : list loc) : error :=
  if Nat.eqb (length ls) 0 then Errorf "could not occupy cidrs: %v, No matching ClusterCIDRs found" [fmtSlice (PodCIDRs node)]
  else Errorf "could not occupy cidrs: %v after %d attempts" [fmtSlice (PodCIDRs node); pretty (Z.of_nat (length ls))].

Lemma occupyCIDRs_run st node sel bs : alloc_ok st → labels_ok st → nodeSelectorAsSelector (Some defaultNodeSelector) = Ok sel →
  PodCIDRs node ≠ [] → Forall2 (λ t b, parses t b ∧ cidr_valid b) (PodCIDRs node) bs →
  ∃ ls st1, (orderedMatchingClusterCIDRs node true st).1 = Ok ls ∧ (∀ cc, cc ∈ ls → mapped st cc) ∧ alloc_ok st1 ∧ grows st st1 ∧
    match occupier st ls bs with
    | None => occupyCIDRs node st = (Err (not_occupied node ls), st1)
    | Some (cc, Takes) => cc ∈ ls ∧ occupyCIDRs node st = (Ok tt, associate (node_Name node) cc st1) ∧ occupied_in st1 cc bs
    | Some (_, _) => occupyCIDRs node st = (Panic NilDereference, st1)
    end.
Proof using HNL HIL.
  intros Hok Hlab Hsel Hne Hbs. destruct (ordered_run HIL st node true sel Hok Hlab Hsel) as (items & E & Hperm & _).
  set (ls := (item_clusterCIDR <$> items) ++ default [] (cidrMap st !! Selector_String sel)) in *.
  assert (∀ cc, cc ∈ ls → mapped st cc) as Hm by (by apply (ordered_mapped st node true sel items Hperm)).
  assert (grows st (with_iter st)) as Hgi.
  { split; [by split|done|done|]. intros l f s Hs. exists s. split; [done|reflexivity]. }
  destruct (occupy_walk (with_iter st) node bs ls (alloc_ok_iter st Hok)) as (st1 & Hok1 & Hg & Hr); [|done|].
  { intros cc Hcc. by apply (ao_mapped _ Hok), Hm. }
  rewrite (occupier_grows st (with_iter st) ls bs Hgi) in Hr.
  exists ls, st1. rewrite E. split; [done|]. split; [done|]. split; [done|]. split; [by etransitivity|]. unfold occupyCIDRs, not_occupied.
  destruct (Nat.eqb_spec (length (PodCIDRs node)) 0) as [Hl|_]; [by apply nil_length_inv in Hl|]. mstep E. fold ls.
  change (λ clusterCIDR, occupyLoop clusterCIDR node (PodCIDRs node) 0 ≫= _) with (occupyBody node).
  destruct (Nat.eqb_spec (length ls) 0) as [Hl|_].
  { apply nil_length_inv in Hl. rewrite Hl in Hr |- *. simpl in Hr. by injection Hr as <-. }
  destruct (occupier st ls bs) as [[cc []]|] eqn:Eo; [|by rewrite (M_bind_Panic _ _ _ _ _ Hr)..|by mstep Hr].
  destruct Hr as (_ & Ew & Ho). split; [|by split; [mstep Ew|]]. clear -Eo. induction ls as [|k ls IH]; [done|]. simpl in Eo.
  destruct (trial st k bs); [injection Eo as ->; by left|right; by apply IH|done].
Qed.
End occupying.

(** C27. [occupyCIDRs] of a node whose PodCIDRs parse to [bs], on every outcome.  The
    matching ClusterCIDRs are tried in their order.  The first that does not refuse
    decides: when it has all PodCIDRs in range the node is associated with it and
    every block they meet is allocated in its sets; when it has no set for the family
    of one, before one that is out of range, the call panics.  If all refuse, each
    having a PodCIDR outside its range, the call fails.  Nothing allocated before is
    released, and no other association changes. *)
Theorem occupyCIDRs_correct `{HN : !NetUtils} `{HLb : !Labels} `{HC : !Cluster} `{HI : !MapIter}
  (HNL : NetUtilsLaws HN) (HIL : MapIterLaws HI) (st : AllocState) node sel bs
  (Hok : alloc_ok st) (Hlab : labels_ok st) (Hsel : nodeSelectorAsSelector (Some defaultNodeSelector) = Ok sel)
  (Hne : PodCIDRs node ≠ []) (Hbs : Forall2 (λ t b, parses t b ∧ cidr_valid b) (PodCIDRs node) bs) :
  ∃ ls st1, (orderedMatchingClusterCIDRs node true st).1 = Ok ls ∧ (∀ cc, cc ∈ ls → mapped st cc) ∧ alloc_ok st1 ∧ grows st st1 ∧
    match occupier st ls bs with
    | None => occupyCIDRs node st = (Err (not_occupied node ls), st1)
    | Some (cc, Takes) => cc ∈ ls ∧ occupyCIDRs node st = (Ok tt, associate (node_Name node) cc st1) ∧ occupied_in st1 cc bs
    | Some (_, _) => occupyCIDRs node st = (Panic NilDereference, st1)
    end.
Proof.
  exact (occupyCIDRs_run HNL HIL st node sel bs Hok Hlab Hsel Hne Hbs).
Qed.

Definition ex_n3 : Node := ex_node "n3" ∅ ["10.0.0.32/28"].

Lemma occupyCIDRs_correct_witness :
  ∃ ls st1, (orderedMatchingClusterCIDRs ex_n3 true ex_st).1 = Ok ls ∧ (∀ cc, cc ∈ ls → mapped ex_st cc) ∧ alloc_ok st1 ∧ grows ex_st st1 ∧
    match occupier ex_st ls [(V4, 10 * 2 ^ 24 + 32, 28)] with
    | None => occupyCIDRs ex_n3 ex_st = (Err (not_occupied ex_n3 ls), st1)
    | Some (cc, Takes) => cc ∈ ls ∧ occupyCIDRs ex_n3 ex_st = (Ok tt, associate "n3" cc st1) ∧ occupied_in st1 cc [(V4, 10 * 2 ^ 24 + 32, 28)]
    | Some (_, _) => occupyCIDRs ex_n3 ex_st = (Panic NilDereference, st1)
    end.
Proof.
  apply (occupyCIDRs_correct (HLb:=refLabels) (HC:=refCluster) refNetUtils_laws refIter_laws ex_st ex_n3 ex_default_sel
           [(V4, 10 * 2 ^ 24 + 32, 28)] ex_ok ex_labels).
  - vm_compute. reflexivity.
  - discriminate.
  - constructor; [|constructor]. split; [eexists; vm_compute; reflexivity|by_decision].
Defined.

(** * Patching *)

Section patching.
Context `{HN : !NetUtils} `{HC : !Cluster}.
Context (HNL : NetUtilsLaws HN).
Implicit Types st : AllocState.

(** The world after [k] patches, and the error of the next one. *)
Fixpoint patched (name : string) (cidrs : list string) (k : nat) (w : World) : World :=
  match k with O => w | S k => patched name cidrs k (PatchNodeCIDRs name cidrs w).2 end.
Definition patch_err (name : string) (cidrs : list string) (k : nat) (w : World) : option error :=
  (PatchNodeCIDRs name cidrs (patched name cidrs k w)).1.

Lemma patchLoop_success n k node cidrs cc c err st : (k < n)%nat → objs st !! cc = Some c →
  (∀ j, (j < k)%nat → patch_err (node_Name node) cidrs j (world st) ≠ None) →
  patch_err (node_Name node) cidrs k (world st) = None →
  patchLoop n node cidrs cc err st
  = (Ok None, associate (node_Name node) cc (with_world (patched (node_Name node) cidrs (S k) (world st)) st)).
Proof using.
  revert k err st. induction n as [|n IH]; intros k err st Hk Hc Hfail Hok; [lia|]. cbn [patchLoop].
  mstep (callAPI_run st (PatchNodeCIDRs (node_Name node) cidrs)). destruct k as [|k].
  - unfold patch_err in Hok. simpl in Hok. rewrite Hok.
    by mstep (updObj_associate (with_world (PatchNodeCIDRs (node_Name node) cidrs (world st)).2 st) cc c (node_Name node) Hc).
  - pose proof (Hfail 0%nat ltac:(lia)) as H0. unfold patch_err in H0. simpl in H0.
    destruct (PatchNodeCIDRs (node_Name node) cidrs (world st)).1 as [e|]; [|done].
    rewrite (IH k); [done|lia|done| |done]. intros j Hj. apply (Hfail (S j)). lia.
Qed.

Lemma patchLoop_S n node cidrs cc err :
  patchLoop (S n) node cidrs cc err = (err ← callAPI (PatchNodeCIDRs (node_Name node) cidrs);
    match err with
    | None => updObj cc (with_nodes (insert (node_Name node) true)) ;; mret None
    | Some _ => patchLoop n node cidrs cc err
    end).
Proof using. done. Qed.

Lemma patchLoop_failure n node cidrs cc err st :
  (∀ j, (j < S n)%nat → patch_err (node_Name node) cidrs j (world st) ≠ None) →
  patchLoop (S n) node cidrs cc err st
  = (Ok (patch_err (node_Name node) cidrs n (world st)), with_world (patched (node_Name node) cidrs (S n) (world st)) st).
Proof using.
  revert err st. induction n as [|n IH]; intros err st Hfail; rewrite patchLoop_S;
    mstep (callAPI_run st (PatchNodeCIDRs (node_Name node) cidrs));
    pose proof (Hfail 0%nat ltac:(lia)) as H0; unfold patch_err in H0; simpl in H0;
    destruct (PatchNodeCIDRs (node_Name node) cidrs (world st)).1 as [e|] eqn:E; try done.
  - unfold patch_err. simpl. by rewrite E.
  - rewrite (IH (Some e)); [done|]. intros j Hj. apply (Hfail (S j)). lia.
Qed.

(** The comparison of the two lists. *)
Lemma same_texts (a b : list string) :
  Nat.eqb (length a) (length b) && forallb (λ '(x, y), String.eqb x y) (zip a b) = bool_decide (a = b).
Proof using.
  revert b. induction a as [|x a IH]; intros [|y b]; try done. specialize (IH b). simpl in *.
  destruct (String.eqb_spec x y) as [->|Hne]; simpl.
  - rewrite IH. apply bool_decide_ext. split; [by intros ->|congruence].
  - rewrite andb_false_r, bool_decide_false by congruence. done.
Qed.

Lemma releaseReserved_run format name cc bs node st : alloc_ok st → is_Some (objs st !! cc) → Forall (in_range st cc) bs →
  ∃ st', releaseReserved format (mkMultiReserved (mkReserved (cidr_net <$> bs) name) cc) node st = (Ok tt, st')
    ∧ changed cc (λ f L A, A ∖ cover f L bs) st st'.
Proof using HNL.
  intros Hok Hcc Hbs. unfold releaseReserved. simpl. apply (release_all HNL); [done|]. apply Forall2_fmap_l, Forall_Forall2_diag.
  eapply Forall_impl; [exact Hbs|]. intros b Hb. split; [done|]. intros s1 s2 [d Hd] E. mstep (getObj_run s1 cc d Hd).
  by apply wrapErr_Ok.
Qed.

(** The outcome of [updateCIDRsAllocation] after a reservation of [bs] in [cc]. *)
Definition update_outcome (name : string) (cc : loc) (bs : list cidr) st (r : exit unit) st' : Prop :=
  let texts := ipnetToStringList (cidr_net <$> bs) in
  match nodeLister_Get (world st) name with
  | inl e => r = Err e ∧ st' = st
  | inr node =>
      let err k := patch_err (node_Name node) texts k (world st) in
      if decide (PodCIDRs node = texts) then r = Ok tt ∧ st' = st
      else if decide (PodCIDRs node = []) then
        (∃ k, (k < 3)%nat ∧ (∀ j, (j < k)%nat → err j ≠ None) ∧ err k = None ∧ r = Ok tt
           ∧ st' = associate (node_Name node) cc (with_world (patched (node_Name node) texts (S k) (world st)) st))
        ∨ (∃ e, (∀ j, (j < 3)%nat → err j ≠ None) ∧ err 2%nat = Some e ∧ r = Err e ∧
             let st1 := with_event (NodeStatusChange (node_Name node) "CIDRAssignmentFailed")
                          (with_world (patched (node_Name node) texts 3 (world st)) st) in
             if IsServerTimeout e then st' = st1 else changed cc (λ f L A, A ∖ cover f L bs) st1 st')
      else r = Ok tt ∧ changed cc (λ f L A, A ∖ cover f L bs) st st'
  end.

(** The tries before the first that succeeds, if one does. *)
Lemma first_success (err : nat → option error) n :
  (∃ k, (k < n)%nat ∧ (∀ j, (j < k)%nat → err j ≠ None) ∧ err k = None) ∨ (∀ j, (j < n)%nat → err j ≠ None).
Proof using.
  induction n as [|n [(k & Hk & H)|Hall]]; [right; lia|left; exists k; split; [lia|done]|].
  destruct (err n) as [e|] eqn:E; [right|left; exists n; split; [lia|done]]. intros j Hj. destruct (decide (j = n)) as [->|]; [by rewrite E|]. apply Hall. lia.
Qed.

Lemma update_run st name cc bs : alloc_ok st → is_Some (objs st !! cc) → Forall (in_range st cc) bs → bs ≠ [] →
  ∃ r st', updateCIDRsAllocation (mkMultiReserved (mkReserved (cidr_net <$> bs) name) cc) st = (r, st') ∧ update_outcome name cc bs st r st'.
Proof using HNL.
  intros Hok [c Hc] Hbs Hne. unfold update_outcome. set (texts := ipnetToStringList (cidr_net <$> bs)). cbn zeta.
  assert (texts ≠ []) as Htx by (by destruct bs).
  assert (length (cidr_net <$> bs) = length texts) as Hlen by (unfold texts, ipnetToStringList; by rewrite !length_fmap).
  unfold updateCIDRsAllocation. change (Z.to_nat cidrUpdateRetries) with 3%nat. cbn [reserved_CIDRs reserved_nodeName reserved reserved_clusterCIDR]. fold texts.
  assert (get st = (Ok st, st)) as Eg by done. rewrite (M_bind_Ok _ _ _ _ _ Eg).
  destruct (nodeLister_Get (world st) name) as [e|node]; [by eexists _, _|]. rewrite Hlen, same_texts. case_decide as Hd.
  { rewrite bool_decide_true by done. by eexists _, _. }
  rewrite bool_decide_false by done. case_decide as Hn.
  2: { destruct (Nat.eqb_spec (length (PodCIDRs node)) 0) as [Hl|_]; [by apply nil_length_inv in Hl|].
       destruct (releaseReserved_run "failed to release cidr %s from clusterCIDR %s for node: %s: %w" name cc bs node st)
         as (st' & E & Hch); [done|by exists c|done|]. by exists (Ok tt), st'. }
  rewrite Hn. cbn [length Nat.eqb negb]. cbn iota.
  destruct (first_success (λ k, patch_err (node_Name node) texts k (world st)) 3) as [(k & Hk & Hfail & Hsucc)|Hfail].
  { eexists _, _. split; [by mstep (patchLoop_success 3 k node texts cc c None st Hk Hc Hfail Hsucc)|]. left. by exists k. }
  destruct (patch_err (node_Name node) texts 2 (world st)) as [e|] eqn:He; [|by destruct (Hfail 2%nat); [lia|]].
  mstep (patchLoop_failure 2 node texts cc None st Hfail). rewrite He.
  set (st1 := with_event _ _). assert (RecordNodeStatusChange node "CIDRAssignmentFailed"
    (with_world (patched (node_Name node) texts 3 (world st)) st) = (Ok tt, st1)) as Ev by done.
  mstep Ev. destruct (IsServerTimeout e) eqn:Et; simpl negb; cbn iota.
  { exists (Err e), st1. split; [done|]. right. exists e. by rewrite Et. }
  assert (alloc_ok st1) as Hok1 by (destruct Hok; by split).
  destruct (releaseReserved_run "failed to release cidr %q from clusterCIDR %q for node: %q: %w" name cc bs node st1 Hok1)
    as (st' & E & Hch); [by exists c|exact Hbs|]. exists (Err e), st'. split; [by mstep E|]. right. exists e. by rewrite Et.
Qed.
End patching.

(** C28. [updateCIDRsAllocation] after a reservation of [bs] in the ClusterCIDR
    [cc], on every branch.  When the lister fails its error is returned and the
    reservation stays.  A node that has those CIDRs already is left alone; one
    that has others gets nothing and the reservation is given back.  Else the node
    is patched at most three times: after the first success it is associated with
    [cc]; when all fail the failure is recorded as an event, the last error is
    returned, and the reservation is given back unless that error is a server
    timeout, when the patch may have been applied. *)
Theorem updateCIDRsAllocation_functional `{HN : !NetUtils} `{HC : !Cluster} (HNL : NetUtilsLaws HN)
  (st : AllocState) name cc bs
  (Hok : alloc_ok st) (Hcc : is_Some (objs st !! cc)) (Hbs : Forall (in_range st cc) bs) (Hne : bs ≠ []) :
  let data := mkMultiReserved (mkReserved (cidr_net <$> bs) name) cc in
  let texts := ipnetToStringList (cidr_net <$> bs) in
  ∃ r st', updateCIDRsAllocation data st = (r, st') ∧
  match nodeLister_Get (world st) name with
  | inl e => r = Err e ∧ st' = st
  | inr node =>
      let err k := patch_err (node_Name node) texts k (world st) in
      if decide (PodCIDRs node = texts) then r = Ok tt ∧ st' = st
      else if decide (PodCIDRs node = []) then
        (∃ k, (k < 3)%nat ∧ (∀ j, (j < k)%nat → err j ≠ None) ∧ err k = None ∧ r = Ok tt
           ∧ st' = associate (node_Name node) cc (with_world (patched (node_Name node) texts (S k) (world st)) st))
        ∨ (∃ e, (∀ j, (j < 3)%nat → err j ≠ None) ∧ err 2%nat = Some e ∧ r = Err e ∧
             let st1 := with_event (NodeStatusChange (node_Name node) "CIDRAssignmentFailed")
                          (with_world (patched (node_Name node) texts 3 (world st)) st) in
             if IsServerTimeout e then st' = st1 else changed cc (λ f L A, A ∖ cover f L bs) st1 st')
      else r = Ok tt ∧ changed cc (λ f L A, A ∖ cover f L bs) st st'
  end.
Proof.
  exact (update_run HNL st name cc bs Hok Hcc Hbs Hne).
Qed.

Lemma updateCIDRsAllocation_functional_witness :
  ∃ r st', updateCIDRsAllocation (mkMultiReserved (mkReserved [block 32 (10 * 2 ^ 24) 28] "n1") 1) ex_st = (r, st') ∧
    update_outcome "n1" 1 [(V4, 10 * 2 ^ 24, 28)] ex_st r st'.
Proof.
  apply (updateCIDRsAllocation_functional (HC:=refCluster) refNetUtils_laws ex_st "n1" 1 [(V4, 10 * 2 ^ 24, 28)] ex_ok).
  - exists ex_obj4. exact ex_obj4_at.
  - constructor; [|constructor]. apply meets_in_range; [by_decision|]. vm_compute. reflexivity.
  - discriminate.
Defined.

(** * From the work item to the patch *)

Lemma allocated_nonempty `{HC : !Cluster} (st st' : AllocState) cc cidrs : alloc_ok st → mapped st cc →
  allocated_for st st' cc cidrs → cidrs ≠ [].
Proof.
  intros Hok Hm (l4 & l6 & -> & H4 & H6) [-> ->]%app_eq_nil.
  destruct (ao_mapped _ Hok cc Hm) as [c Hc]. destruct (ao_objs _ Hok cc c Hc) as [_ [f [s Hs]]].
  assert (set_at st (cc, f) = Some s) as Hat by (unfold set_at; simpl; by rewrite Hc).
  unfold family_cidrs in *. destruct f; rewrite Hat in *; [destruct H4 as (b & ? & _)|destruct H6 as (b & ? & _)]; done.
Qed.

(** The matching ClusterCIDRs are mapped. *)
Lemma matching_mapped `{HLb : !Labels} `{HC : !Cluster} `{HI : !MapIter} (HIL : MapIterLaws HI) (st : AllocState) node occupy sel ls : alloc_ok st → labels_ok st →
  nodeSelectorAsSelector (Some defaultNodeSelector) = Ok sel →
  (orderedMatchingClusterCIDRs node occupy st).1 = Ok ls → ∀ cc, cc ∈ ls → mapped st cc.
Proof using.
  intros Hok Hlab Hsel E cc Hcc. destruct (ordered_run HIL st node occupy sel Hok Hlab Hsel) as (items & E' & Hperm & _).
  rewrite E' in E. injection E as <-. by apply (ordered_mapped st node occupy sel items Hperm).
Qed.

(** The blocks of an allocation as CIDRs in the range of their ClusterCIDR. *)
Lemma allocated_bs `{HC : !Cluster} (st st' : AllocState) cc cidrs : grows st st' → allocated_for st st' cc cidrs →
  ∃ bs, cidrs = cidr_net <$> bs ∧ Forall (in_range st' cc) bs.
Proof.
  intros Hg (l4 & l6 & -> & H4 & H6).
  assert (∀ f l, family_cidrs st st' cc f l → ∃ bs, l = cidr_net <$> bs ∧ Forall (in_range st' cc) bs) as Hf.
  { intros f l. unfold family_cidrs. destruct (set_at st (cc, f)); [|intros ->; by exists []].
    intros (b & -> & s & L & A & i & Hs & Hv & Hi & -> & _ & s' & A' & Hs' & Hv' & _). destruct (view_block f s L A i Hv Hi) as [E Hb].
    exists [(f, node_addr L i, nlen L)]. split; [simpl; by rewrite <- E|]. constructor; [|constructor]. split; [exact Hb|].
    exists s'. split; [exact Hs'|]. rewrite (view_cluster _ _ _ _ Hv'). simpl. rewrite <- E.
    apply node_block_in_cluster; [apply Hv|done]. }
  destruct (Hf V4 l4 H4) as (b4 & -> & ?), (Hf V6 l6 H6) as (b6 & -> & ?). exists (b4 ++ b6). split; [by rewrite fmap_app|by apply Forall_app].
Qed.

(** C17. [AllocateOrOccupyCIDR] of a node without PodCIDRs, on every outcome.  Either
    the first matching ClusterCIDR that has a free block for each of its families
    gives them, each one before it having a family without when the walk came to it:
    at least one block, none of whose addresses was in use; then the outcome is that
    of [updateCIDRsAllocation] for exactly these blocks ([update_outcome]): the node is
    patched with their texts and associated, or all three patches fail, or what the
    lister shows by then forbids it.  Or all matching ClusterCIDRs have a family
    without a free block, the node is not patched, the event CIDRNotAvailable is
    recorded and the call fails. *)
Theorem AllocateOrOccupyCIDR_allocates `{HN : !NetUtils} `{HLb : !Labels} `{HC : !Cluster} `{HI : !MapIter}
  (HNL : NetUtilsLaws HN) (HIL : MapIterLaws HI) (st : AllocState) node sel
  (Hok : alloc_ok st) (Hlab : labels_ok st) (Hsel : nodeSelectorAsSelector (Some defaultNodeSelector) = Ok sel)
  (Hnil : PodCIDRs node = []) :
  ∃ ls st0 st', orderedMatchingClusterCIDRs node true st = (Ok ls, st0) ∧ alloc_ok st' ∧ grows st st' ∧
    ((∃ bs cc pre post st1, ls = pre ++ cc :: post ∧ passes pre st0 st1 ∧ (∀ f, ¬ exhausted st1 cc f)
        ∧ allocated_for st st' cc (cidr_net <$> bs) ∧ bs ≠ [] ∧
        ∃ r st2, AllocateOrOccupyCIDR (Some node) st = (r, st2) ∧ update_outcome (node_Name node) cc bs st' r st2)
     ∨ (passes ls st0 st' ∧ AllocateOrOccupyCIDR (Some node) st
        = (Err (ErrorfW "failed to get cidrs for node %s: %w" [node_Name node] (unavailable node)),
           with_event (NodeStatusChange (node_Name node) "CIDRNotAvailable") st'))).
Proof.
  destruct (prioritized_walk HNL HIL st node sel Hok Hlab Hsel) as (ls & st0 & st' & El & Hok' & Hg & Hr).
  exists ls, st0, st'. split; [done|]. split; [done|]. split; [done|]. unfold AllocateOrOccupyCIDR. rewrite Hnil.
  cbn [length Nat.ltb Nat.leb]. destruct Hr as [(cidrs & cc & pre & post & st1 & Els & Hp & Hex & _ & E & Ha)|[Hp E]]; [left|right].
  2: { split; [done|]. by mstep (attempt_Err _ _ _ _ E). }
  assert (mapped st cc) as Hm.
  { eapply (matching_mapped HIL); [done..|by rewrite El|]. rewrite Els. apply elem_of_app. right. by left. }
  pose proof (allocated_nonempty st st' cc cidrs Hok Hm Ha) as Hne. destruct (allocated_bs st st' cc cidrs Hg Ha) as (bs & -> & Hbs).
  exists bs, cc, pre, post, st1. split_and!; [done|done|done|done|by intros ->|].
  mstep (attempt_Ok _ _ _ _ E). destruct (Nat.eqb_spec (length (cidr_net <$> bs)) 0) as [Hl|_]; [by apply nil_length_inv in Hl|].
  apply (update_run HNL); [done|by apply (grows_obj st), (ao_mapped _ Hok)|done|by intros ->].
Qed.

Lemma AllocateOrOccupyCIDR_allocates_witness :
  ∃ ls st0 st', orderedMatchingClusterCIDRs ex_n2 true ex_st = (Ok ls, st0) ∧ alloc_ok st' ∧ grows ex_st st' ∧
    ((∃ bs cc pre post st1, ls = pre ++ cc :: post ∧ passes pre st0 st1 ∧ (∀ f, ¬ exhausted st1 cc f)
        ∧ allocated_for ex_st st' cc (cidr_net <$> bs) ∧ bs ≠ [] ∧
        ∃ r st2, AllocateOrOccupyCIDR (Some ex_n2) ex_st = (r, st2) ∧ update_outcome "n2" cc bs st' r st2)
     ∨ (passes ls st0 st' ∧ AllocateOrOccupyCIDR (Some ex_n2) ex_st
        = (Err (ErrorfW "failed to get cidrs for node %s: %w" ["n2"] (unavailable ex_n2)),
           with_event (NodeStatusChange "n2" "CIDRNotAvailable") st'))).
Proof.
  apply (AllocateOrOccupyCIDR_allocates (HLb:=refLabels) (HC:=refCluster) refNetUtils_laws refIter_laws ex_st ex_n2 ex_default_sel ex_ok ex_labels).
  - vm_compute. reflexivity.
  - reflexivity.
Defined.

(** * The work queues *)

(** A worker's turn, for both queues: a shut-down queue stops the worker.
    Else the key taken is marked done exactly once, also when the handler panics;
    a handler that succeeds has its key forgotten, one that fails has it queued
    again with a delay, and the worker goes on. *)
Theorem processNextWorkItem_protocol `{HC : !Cluster} (q : QueueName) sync (st : AllocState) :
  match queue_Get q (world st) with
  | (None, w) => processNextWorkItem q sync st = (Ok false, with_world w st)
  | (Some key, w) =>
      match sync key (with_world w st) with
      | (Ok _, st') => processNextWorkItem q sync st = (Ok true, onQueue (λ w, queue_Done q key (queue_Forget q key w)) st')
      | (Err _, st') => processNextWorkItem q sync st = (Ok true, onQueue (λ w, queue_Done q key (queue_AddRateLimited q key w)) st')
      | (Panic p, st') => processNextWorkItem q sync st = (Panic p, onQueue (queue_Done q key) st')
      end
  end.
Proof.
  unfold processNextWorkItem. destruct (queue_Get q (world st)) as [[key|] w]; [|done].
  unfold deferred. destruct (sync key (with_world w st)) as [[[]|e|p] st'] eqn:E; mred; by rewrite E.
Qed.
