(* ===== verification/IsolationTheorems.v ===== *)
(** Isolation: what is handed out to different nodes never overlaps.

    [run st0 st live]: from [st0] the allocator has reached [st] by allocations,
    releases and steps that give nothing back, in any order; [live] are the CIDRs
    handed out and not released since, with the ClusterCIDR each came from. *)
From S2P Require Import Prelude GoNet CIDRTheory CIDRText NetUtils MultiCIDRSet IndexTheory IndexProps SetProps SetConstruction.
From S2P Require Import ContainerHeap PriorityQueue Kubernetes Allocator NodeHandlers ClusterCIDRHandlers EventHandlers AllocatorInv AllocateProps MatchProps NodeProps Reference AllocatorKeeps Controller HandlerProps MapInv Examples AllocatorTheorems ReleaseProps HandlerTheorems NodeTheorems.

(** No IP address is contained in both. *)
Definition disjoint_nets (a b : IPNet) : Prop :=
  ∀ w x, valid_addr w x → ¬ (Contains a (ipOf w x) = true ∧ Contains b (ipOf w x) = true).

#[export] Instance disjoint_nets_sym : Symmetric disjoint_nets.
Proof. intros a b H w x Hx [? ?]. by apply (H w x). Qed.

(** [Contains] is membership in the block, for addresses of both widths. *)
Lemma Contains_in_block w v p w' x : valid_block w v p → valid_addr w' x →
  Contains (block w v p) (ipOf w' x) = true → w' = w ∧ in_block w v p x.
Proof.
  intros Hb Hx. pose proof Hb as [Hv Hp Ha]. destruct (decide (w' = w)) as [->|Hne].
  - rewrite Contains_block by done. rewrite bool_decide_eq_true. intros E. split; [done|].
    unfold in_block. pose proof (pow2_pos (w - p)). pose proof (Z.div_mod x (2 ^ (w - p))).
    pose proof (Z.div_mod v (2 ^ (w - p))). pose proof (Z.mod_pos_bound x (2 ^ (w - p))). lia.
  - unfold Contains. rewrite networkNumberAndMask_block by (done || lia). rewrite default_To4_ipOf, !ipOf_length by done.
    rewrite bool_decide_false; [done|]. destruct Hv as ([->| ->] & _), Hx as ([->| ->] & _); done.
Qed.

(** A list whose elements are pairwise related, in both orders. *)
Section pairwise.
Context {A : Type} (R : A → A → Prop) `{!Symmetric R}.

Lemma ForallOrdPairs_app l1 l2 : ForallOrdPairs R (l1 ++ l2) ↔
  ForallOrdPairs R l1 ∧ ForallOrdPairs R l2 ∧ ∀ a b, a ∈ l1 → b ∈ l2 → R a b.
Proof using.
  induction l1 as [|x l1 IH]; simpl.
  - split; [intros H; split_and!; [constructor|done|by intros a b ?%elem_of_nil]|naive_solver].
  - split.
    + intros H. inversion H as [|? ? Hx Hl]; subst. apply Forall_app in Hx as [Hx1 Hx2]. apply IH in Hl as (H1 & H2 & H12).
      split_and!; [by constructor|done|]. intros a b [->|Ha]%elem_of_cons Hb; [|by apply H12].
      rewrite Forall_forall in Hx2. by apply Hx2.
    + intros (H1 & H2 & H12). inversion H1 as [|? ? Hx Hl]; subst. constructor.
      * apply Forall_app. split; [done|]. apply Forall_forall. intros b Hb. apply H12; [by left|done].
      * apply IH. split_and!; [done..|]. intros a b Ha. apply H12. by right.
Qed.

Lemma ForallOrdPairs_perm l1 l2 : l1 ≡ₚ l2 → ForallOrdPairs R l1 → ForallOrdPairs R l2.
Proof using Type*.
  induction 1 as [|x l1 l2 Hp IH|x y l|]; [done| | |by eauto].
  - intros H. inversion H as [|? ? Hx Hl]; subst. constructor; [by rewrite <- Hp|by apply IH].
  - intros H. inversion H as [|? ? Hx Hl]; subst. inversion Hl as [|? ? Hy Hl']; subst.
    apply Forall_cons in Hx as [Hxy Hx]. constructor; [|by constructor]. constructor; [by symmetry|done].
Qed.
End pairwise.

Lemma choose_list {A B} (P : A → B → Prop) l : (∀ a, a ∈ l → ∃ b, P a b) → ∃ bs, Forall2 P l bs.
Proof.
  induction l as [|a l IH]; intros H; [by exists []|]. destruct (H a) as [b Hb]; [by left|].
  destruct IH as [bs Hbs]; [intros a' Ha'; apply H; by right|]. exists (b :: bs). by constructor.
Qed.

(** * Blocks handed out *)

Section held.
Context `{HN : !NetUtils} `{HLb : !Labels} `{HC : !Cluster} `{HI : !MapIter}.
Context (HNL : NetUtilsLaws HN) (HIL : MapIterLaws HI).
Implicit Types st : AllocState.

(** [b] is a node block that the set of the mapped ClusterCIDR [cc] records as allocated. *)
Definition held st (cc : loc) (b : IPNet) : Prop :=
  ∃ f s L A i, mapped st cc ∧ set_at st (cc, f) = Some s ∧ set_view f s L A ∧ i ∈ A ∧ b = node_block L i.

(** A grant: CIDRs and the ClusterCIDR they are from. *)
Definition grant : Type := loc * list IPNet.
Definition held_grant st (g : grant) : Prop := ∀ b, b ∈ g.2 → held st g.1 b.
Definition nets (live : list grant) : list IPNet := live ≫= snd.

Lemma view_bound f s L A i : set_view f s L A → i ∈ A → 0 ≤ i < nmax L.
Proof using. intros [_ _ Hs]. apply (si_bound _ _ _ Hs). Qed.

(** The addresses of a held block are in use. *)
Lemma held_used st cc b w x : held st cc b → valid_addr w x → Contains b (ipOf w x) = true →
  ∃ f, w = fam_width f ∧ used st f x.
Proof using.
  intros (f & s & L & A & i & Hm & Hs & Hv & Hi & ->) Hx Hc.
  destruct (view_block f s L A i Hv (view_bound _ _ _ _ _ Hv Hi)) as [E Hb].
  rewrite E in Hc. apply Contains_in_block in Hc as [-> Hin]; [|done..].
  exists f. split; [done|]. exists cc, s. split_and!; [done..|]. apply (uses_view f s L A x Hv). exists i.
  rewrite (sv_width _ _ _ _ Hv). by split.
Qed.

Lemma fresh_held st st' cc f b : mapped st' cc → fresh_block st st' cc f b → held st' cc b.
Proof using.
  intros Hm (s & L & A & i & _ & Hv & Hi & -> & _ & s' & A' & Hs' & Hv' & Hi'). by exists f, s', L, A', i.
Qed.

(** A fresh block shares no address with a held one. *)
Lemma fresh_disjoint st st' cc f b cc' b' : fresh_block st st' cc f b → held st cc' b' → disjoint_nets b b'.
Proof using.
  intros (s & L & A & i & Hs & Hv & Hi & -> & Hfree & _) Hb' w x Hx [H1 H2].
  destruct (view_block f s L A i Hv Hi) as [E Hb]. rewrite E in H1.
  apply Contains_in_block in H1 as [-> Hin]; [|done..].
  destruct (held_used st cc' b' _ x Hb' Hx H2) as (g & Hg & Hu).
  assert (g = f) as -> by (by destruct f, g). destruct (Hfree x) as [Hn _]; [by rewrite (sv_width _ _ _ _ Hv)|by apply Hn].
Qed.

Lemma fresh_unused st st' cc f g b x : fresh_block st st' cc g b → used st f x → valid_addr (fam_width f) x →
  ¬ Contains b (ipOf (fam_width f) x) = true.
Proof using.
  intros (s & L & A & i & Hs & Hv & Hi & -> & Hfree & _) Hu Hx Hc. destruct (view_block g s L A i Hv Hi) as [E Hb]. rewrite E in Hc.
  apply Contains_in_block in Hc as [Hw Hin]; [|done..]. assert (f = g) as <- by (by destruct f, g).
  rewrite <- (sv_width _ _ _ _ Hv) in Hin. by destruct (Hfree x Hin) as [Hn _].
Qed.

Lemma families_disjoint st st1 st2 st3 cc b4 b6 : fresh_block st st1 cc V4 b4 → fresh_block st2 st3 cc V6 b6 → disjoint_nets b4 b6.
Proof using.
  intros (s & L & A & i & _ & Hv & Hi & -> & _) (s' & L' & A' & i' & _ & Hv' & Hi' & -> & _) w x Hx [H1 H2].
  destruct (view_block _ s L A i Hv Hi) as [E Hb], (view_block _ s' L' A' i' Hv' Hi') as [E' Hb'].
  rewrite E in H1. rewrite E' in H2. apply Contains_in_block in H1 as [Hw1 _]; [|done..].
  apply Contains_in_block in H2 as [Hw2 _]; [|done..]. simpl in *. congruence.
Qed.

Lemma grows_mapped st st' l : grows st st' → mapped st l → mapped st' l.
Proof using. intros Hg. apply (same_mapped st st'), Hg. Qed.

Lemma grows_held st st' cc b : grows st st' → held st cc b → held st' cc b.
Proof using.
  intros Hg (f & s & L & A & i & Hm & Hs & Hv & Hi & ->). destruct (gr_set _ _ Hg cc f s Hs) as (s' & Hs' & _ & H).
  destruct (H L A Hv) as (A' & Hv' & HA). exists f, s', L, A', i. split_and!; [by eapply grows_mapped|done|done|by apply HA|done].
Qed.

(** What one allocation adds. *)
Lemma allocated_fresh st st' cc cidrs b : allocated_for st st' cc cidrs → b ∈ cidrs → ∃ f, fresh_block st st' cc f b.
Proof using.
  intros (l4 & l6 & -> & H4 & H6) [Hb|Hb]%elem_of_app; unfold family_cidrs in *.
  - destruct (set_at st (cc, V4)); [|rewrite H4 in Hb; by apply elem_of_nil in Hb].
    destruct H4 as (b4 & -> & Hf). apply list_elem_of_singleton in Hb as ->. by exists V4.
  - destruct (set_at st (cc, V6)); [|rewrite H6 in Hb; by apply elem_of_nil in Hb].
    destruct H6 as (b6 & -> & Hf). apply list_elem_of_singleton in Hb as ->. by exists V6.
Qed.

Lemma allocated_disjoint st st' cc cidrs : allocated_for st st' cc cidrs → ForallOrdPairs disjoint_nets cidrs.
Proof using.
  intros (l4 & l6 & -> & H4 & H6). unfold family_cidrs in *.
  destruct (set_at st (cc, V4)) as [s4|]; [destruct H4 as (b4 & -> & Hf4)|subst l4];
    (destruct (set_at st (cc, V6)) as [s6|]; [destruct H6 as (b6 & -> & Hf6)|subst l6]); simpl; repeat constructor.
  by eapply families_disjoint.
Qed.

(** A held block, as the CIDR its text names. *)
Lemma held_cidr st cc b : held st cc b → ∃ c : cidr, parses (IPNet_String b) c ∧ in_range st cc c ∧ cidr_net c = b
  ∧ ∀ L s A, set_at st (cc, cidr_family c) = Some s → set_view (cidr_family c) s L A →
      ∃ i, 0 ≤ i < nmax L ∧ b = node_block L i ∧ touched L c.1.2 c.2 = {[i]}.
Proof using HNL.
  intros (f & s & L & A & i & Hm & Hs & Hv & Hi & ->). pose proof (view_bound _ _ _ _ _ Hv Hi) as Hb.
  destruct (view_block f s L A i Hv Hb) as [E Hvb]. exists (f, node_addr L i, nlen L). split_and!.
  - exists (ipOf (fam_width f) (node_addr L i)). simpl. rewrite E. by apply ParseCIDRSloppy_String.
  - split; [done|]. exists s. split; [done|]. simpl. rewrite (view_cluster f s L A Hv), <- E.
    apply node_block_in_cluster; [apply Hv|done].
  - by simpl.
  - intros L' s' A' Hs' Hv'. unfold cidr_family in *. simpl in *. rewrite Hs in Hs'. injection Hs' as <-.
    destruct (set_view_unique _ _ _ _ _ _ Hv Hv') as [<- <-]. exists i. split_and!; [apply Hb..|done|].
    apply touched_node_block; [apply Hv|done].
Qed.

(** A block contains an address. *)
Lemma held_not_self st cc b : held st cc b → ¬ disjoint_nets b b.
Proof using.
  intros (f & s & L & A & i & Hm & Hs & Hv & Hi & ->) Hd.
  destruct (view_block f s L A i Hv (view_bound _ _ _ _ _ Hv Hi)) as [E [Ha Hp _]].
  apply (Hd _ _ Ha). rewrite E, Contains_block by done. split; by apply bool_decide_eq_true.
Qed.

(** Releasing keeps every held block that is disjoint from the released ones. *)
Lemma changed_held st st' cc cs cc' b' : changed cc (λ f L A, A ∖ cover f L cs) st st' →
  (∀ c, c ∈ cs → ∀ L s A, set_at st (cc, cidr_family c) = Some s → set_view (cidr_family c) s L A →
     ∃ i, 0 ≤ i < nmax L ∧ ¬ (b' = node_block L i) ∧ touched L c.1.2 c.2 = {[i]}) →
  held st cc' b' → held st' cc' b'.
Proof using.
  intros Hch Hcs (f & s & L & A & i & Hm & Hs & Hv & Hi & ->).
  assert (mapped st' cc') as Hm' by (apply (same_mapped st st'); [apply Hch|done]).
  destruct (decide (cc' = cc)) as [->|Hne].
  - destruct (ch_set _ _ _ _ Hch f s L A Hs Hv) as (s' & Hs' & Hv' & _). exists f, s', L, (A ∖ cover f L cs), i.
    split_and!; [done..| |done]. apply elem_of_difference. split; [done|]. rewrite elem_of_cover.
    intros (v & p & Hc & Ht). destruct (Hcs (f, v, p) Hc L s A Hs Hv) as (j & Hj & Hne & Et). simpl in Et.
    rewrite Et in Ht. apply elem_of_singleton in Ht as ->. by apply Hne.
  - exists f, s, L, A, i. split_and!; [done| |done..]. unfold set_at in *. simpl in *. by rewrite (ch_other _ _ _ _ Hch).
Qed.

(** Changing an object's associations. *)
Lemma nodes_held st cc c g cc' b : objs st !! cc = Some c → held (with_objs (<[cc := with_nodes g c]>) st) cc' b ↔ held st cc' b.
Proof using.
  intros Hc. unfold held. assert (∀ l f, set_at (with_objs (<[cc := with_nodes g c]>) st) (l, f) = set_at st (l, f)) as E.
  { intros l f. unfold set_at. simpl. rewrite lookup_insert. case_decide; [|done]. subst l. rewrite Hc. by destruct f. }
  by setoid_rewrite E.
Qed.

Lemma release_keeps st node sel cc cidrs : alloc_ok st → labels_ok st →
  nodeSelectorAsSelector (Some defaultNodeSelector) = Ok sel →
  PodCIDRs node = ipnetToStringList cidrs → (allocatedClusterCIDR node st).1 = Ok cc → held_grant st (cc, cidrs) →
  ∃ st', ReleaseCIDR (Some node) st = (Ok tt, st') ∧ alloc_ok st' ∧ labels_ok st' ∧
    ∀ cc' b', held st cc' b' → (∀ b, b ∈ cidrs → disjoint_nets b b') → held st' cc' b'.
Proof using HNL HIL.
  intros Hok Hlab Hsel Htexts Hcc Hheld. destruct (decide (cidrs = [])) as [->|Hne].
  { exists st. unfold ReleaseCIDR. by rewrite Htexts. }
  assert (∃ cs, Forall2 (λ b c, parses (IPNet_String b) c ∧ in_range st cc c ∧ cidr_net c = b
    ∧ ∀ L s A, set_at st (cc, cidr_family c) = Some s → set_view (cidr_family c) s L A →
        ∃ i, 0 ≤ i < nmax L ∧ b = node_block L i ∧ touched L c.1.2 c.2 = {[i]}) cidrs cs) as [cs Hcs].
  { apply choose_list. intros b Hb. by apply (held_cidr st cc b), Hheld. }
  destruct (release_run HNL HIL st node sel cc cs Hok Hlab Hsel) as (_ & st1 & c & Hch & Hc & E); [|done| |].
  { rewrite Htexts. by destruct cidrs. }
  { rewrite Htexts. apply Forall2_fmap_l. eapply Forall2_impl; [exact Hcs|]. naive_solver. }
  assert (alloc_ok st1) as Hok1 by (by eapply changed_ok).
  eexists. split; [exact E|]. split; [by apply (objs_insert st1 cc c), with_nodes_ok, (ao_objs _ Hok1 cc)|]. split.
  { intros label. simpl. rewrite (se_map _ _ (ch_env _ _ _ _ Hch)). apply Hlab. }
  intros cc' b' Hb' Hd. apply nodes_held; [done|]. eapply (changed_held st st1 cc cs); [exact Hch| |done].
  intros d Hin L s A Hs Hv. apply list_elem_of_lookup_1 in Hin as [k Hk].
  destruct (Forall2_lookup_r _ _ _ _ _ Hcs Hk) as (b & Hbk & _ & _ & _ & Ht). destruct (Ht L s A Hs Hv) as (i & Hi & -> & Et).
  exists i. split_and!; [apply Hi..| |done]. intros ->. eapply held_not_self; [exact Hb'|]. apply Hd. by eapply list_elem_of_lookup_2.
Qed.
End held.

(** * Runs *)

Section runs.
Context `{HN : !NetUtils} `{HLb : !Labels} `{HC : !Cluster} `{HI : !MapIter}.

Inductive run (st0 : AllocState) : AllocState → list grant → Prop :=
| run_start : run st0 st0 []
| run_allocate st live node cidrs cc st' : run st0 st live →
    prioritizedCIDRs node st = (Ok (cidrs, cc), st') → run st0 st' ((cc, cidrs) :: live)
| run_unavailable st live node e st' : run st0 st live →
    prioritizedCIDRs node st = (Err e, st') → run st0 st' live
| run_release st live node cc cidrs r st' live' : run st0 st live →
    live ≡ₚ (cc, cidrs) :: live' → PodCIDRs node = ipnetToStringList cidrs →
    (allocatedClusterCIDR node st).1 = Ok cc → ReleaseCIDR (Some node) st = (r, st') → run st0 st' live'
| run_other st live st' : run st0 st live → alloc_ok st' → labels_ok st' →
    (∀ g, g ∈ live → held_grant st' g) → run st0 st' live.

Record isolated (st : AllocState) (live : list grant) : Prop := {
  is_ok : alloc_ok st;
  is_labels : labels_ok st;
  is_held g : g ∈ live → held_grant st g;
  is_disjoint : ForallOrdPairs disjoint_nets (nets live)
}.

Lemma grows_labels st st' : grows st st' → labels_ok st → labels_ok st'.
Proof using. intros Hg Hlab label. rewrite (se_map _ _ (gr_env _ _ Hg)). apply Hlab. Qed.

Lemma elem_of_nets live b : b ∈ nets live ↔ ∃ g, g ∈ live ∧ b ∈ g.2.
Proof using. unfold nets. rewrite list_elem_of_bind. naive_solver. Qed.

Lemma allocate_isolated (HNL : NetUtilsLaws HN) (HIL : MapIterLaws HI) st live node sel r st' : isolated st live →
  nodeSelectorAsSelector (Some defaultNodeSelector) = Ok sel → prioritizedCIDRs node st = (r, st') →
  isolated st' (match r with Ok (cidrs, cc) => (cc, cidrs) :: live | _ => live end).
Proof using.
  intros [Hok Hlab Hheld Hdis] Hsel E. destruct (prioritized_run HNL HIL st node sel Hok Hlab Hsel) as (ls & st1 & El & Hok1 & Hg & Hr).
  assert (∀ g, g ∈ live → held_grant st1 g) as Hheld1 by (intros g Hgl b Hb; eapply grows_held; [exact Hg|by apply Hheld]).
  pose proof (grows_labels _ _ Hg Hlab) as Hlab1. destruct Hr as [(cidrs & cc & E1 & Hcc & Ha)|[[e E1] _]]; rewrite E1 in E; injection E as <- <-.
  2: by split.
  assert (mapped st1 cc) as Hm by (eapply grows_mapped, matching_mapped; done).
  split; [done..| |].
  - intros g [->|Hgl]%elem_of_cons; [|by apply Hheld1]. intros b Hb.
    destruct (allocated_fresh _ _ _ _ b Ha Hb) as [f Hf]. by eapply fresh_held.
  - unfold nets. simpl. apply ForallOrdPairs_app. split_and!; [by eapply allocated_disjoint|done|].
    intros a b Hina (g & Hgl & Hb)%elem_of_nets. destruct (allocated_fresh _ _ _ _ a Ha Hina) as [f Hf].
    eapply fresh_disjoint; [exact Hf|]. by apply (Hheld g Hgl).
Qed.

Lemma release_isolated (HNL : NetUtilsLaws HN) (HIL : MapIterLaws HI) st live node cc cidrs r st' live' sel : isolated st live →
  nodeSelectorAsSelector (Some defaultNodeSelector) = Ok sel → live ≡ₚ (cc, cidrs) :: live' →
  PodCIDRs node = ipnetToStringList cidrs → (allocatedClusterCIDR node st).1 = Ok cc →
  ReleaseCIDR (Some node) st = (r, st') → isolated st' live'.
Proof using.
  intros [Hok Hlab Hheld Hdis] Hsel Hp Ht Hcc E.
  destruct (release_keeps HNL HIL st node sel cc cidrs Hok Hlab Hsel Ht Hcc) as (st1 & E1 & Hok1 & Hlab1 & Hkeep).
  { apply Hheld. rewrite Hp. by left. }
  rewrite E1 in E. injection E as <- <-.
  apply (ForallOrdPairs_perm _ _ (nets ((cc, cidrs) :: live'))) in Hdis; [|unfold nets; by rewrite Hp].
  unfold nets in Hdis. simpl in Hdis. apply ForallOrdPairs_app in Hdis as (_ & Hdis & Hcross).
  split; [done..| |done]. intros g Hg b Hb. apply Hkeep; [apply (Hheld g); [rewrite Hp; by right|done]|].
  intros a Ha. apply Hcross; [done|]. apply elem_of_nets. by exists g.
Qed.
End runs.

(** Isolation.  However allocations, failed allocations, releases and steps
    that give nothing back follow one another from a well-formed state, no IP
    address is in two of the CIDRs handed out and not released since, be they of
    one node or of two, from one ClusterCIDR or from overlapping ones; and each
    of them is still recorded as allocated in the ClusterCIDR it came from. *)
Theorem allocations_isolated `{HN : !NetUtils} `{HLb : !Labels} `{HC : !Cluster} `{HI : !MapIter}
  (HNL : NetUtilsLaws HN) (HIL : MapIterLaws HI) (st0 st : AllocState) live sel
  (Hok : alloc_ok st0) (Hlab : labels_ok st0) (Hsel : nodeSelectorAsSelector (Some defaultNodeSelector) = Ok sel)
  (Hrun : run st0 st live) :
  ForallOrdPairs disjoint_nets (nets live) ∧ alloc_ok st ∧ ∀ cc cidrs b, (cc, cidrs) ∈ live → b ∈ cidrs → held st cc b.
Proof.
  assert (isolated st live) as [? _ Hheld ?].
  { induction Hrun as [|st live node cidrs cc st' _ IH E|st live node e st' _ IH E|st live node cc cidrs r st' live' _ IH Hp Ht Hcc E|st live st' _ IH].
    - split; [done..| |constructor]. by intros g ?%elem_of_nil.
    - exact (allocate_isolated HNL HIL _ _ _ _ _ _ IH Hsel E).
    - exact (allocate_isolated HNL HIL _ _ _ _ _ _ IH Hsel E).
    - exact (release_isolated HNL HIL _ _ _ _ _ _ _ _ _ IH Hsel Hp Ht Hcc E).
    - destruct IH. by split. }
  split_and!; [done..|]. intros cc cidrs b Hg Hb. by apply (Hheld (cc, cidrs)).
Qed.

(** Both nodes get CIDRs, the second from the dual-stack ClusterCIDR. *)
Definition ex_run1 : AllocState := (prioritizedCIDRs ex_n1 ex_st).2.
Definition ex_run2 : AllocState := (prioritizedCIDRs ex_n2 ex_run1).2.
Definition ex_live : list grant :=
  [(2%positive, [block 32 (10 * 2 ^ 24 + 2 ^ 16) 28; block 128 (253 * 2 ^ 120) 124]); (1%positive, [block 32 (10 * 2 ^ 24) 28])].

Lemma ex_run : run (HLb:=refLabels) (HC:=refCluster) ex_st ex_run2 ex_live.
Proof.
  eapply run_allocate; [eapply run_allocate; [apply run_start|]|].
  - rewrite (surjective_pairing (prioritizedCIDRs ex_n1 ex_st)).
    assert ((prioritizedCIDRs ex_n1 ex_st).1 = Ok ([block 32 (10 * 2 ^ 24) 28], 1%positive)) as -> by (vm_compute; reflexivity).
    reflexivity.
  - fold ex_run1. rewrite (surjective_pairing (prioritizedCIDRs ex_n2 ex_run1)).
    assert ((prioritizedCIDRs ex_n2 ex_run1).1 = Ok ([block 32 (10 * 2 ^ 24 + 2 ^ 16) 28; block 128 (253 * 2 ^ 120) 124], 2%positive)) as ->
      by (vm_compute; reflexivity).
    reflexivity.
Qed.

Lemma allocations_isolated_witness :
  run (HLb:=refLabels) (HC:=refCluster) ex_st ex_run2 ex_live ∧ ForallOrdPairs disjoint_nets (nets ex_live) ∧
  alloc_ok ex_run2 ∧ ∀ cc cidrs b, (cc, cidrs) ∈ ex_live → b ∈ cidrs → held ex_run2 cc b.
Proof.
  split; [exact ex_run|].
  apply (allocations_isolated (HLb:=refLabels) (HC:=refCluster) refNetUtils_laws refIter_laws ex_st ex_run2 ex_live ex_default_sel ex_ok ex_labels).
  - vm_compute. reflexivity.
  - exact ex_run.
Defined.
