(* ===== verification/Retention.v ===== *)
(** What a handler can take away.

    [loses N bs st st']: from [st] to [st'] at most blocks that meet the CIDRs [bs]
    are given back and at most the nodes [N] lose an association, and a ClusterCIDR
    stays mapped while another node is associated with it.  [Kept N bs st0] is the
    property a handler started in [st0] keeps at each of its steps, whatever its
    result: an error or a panic in the middle takes no more away. *)
From S2P Require Import Prelude GoNet CIDRTheory CIDRText NetUtils MultiCIDRSet IndexTheory IndexProps SetProps SetConstruction.
From S2P Require Import ContainerHeap PriorityQueue Kubernetes Allocator NodeHandlers ClusterCIDRHandlers EventHandlers Stable AllocatorInv AllocateProps MatchProps NodeProps AllocatorKeeps HandlerProps ReleaseProps HandlerTheorems NodeTheorems IsolationTheorems.

Lemma subseteq_diff (A B C : gset Z) : A ⊆ B → A ∖ C ⊆ B.
Proof. set_solver. Qed.
Lemma diff_more (A B C D : gset Z) : C ⊆ D → A ∖ C ⊆ B → A ∖ D ⊆ B.
Proof. set_solver. Qed.

Section loses.
Context `{HC : !Cluster}.
Implicit Types st : AllocState.

Record loses (N : list string) (bs : list cidr) st st' : Prop := {
  ls_set l f s L A : set_at st (l, f) = Some s → set_view f s L A →
    ∃ s' A', set_at st' (l, f) = Some s' ∧ set_view f s' L A' ∧ A ∖ cover f L bs ⊆ A';
  ls_assoc n l : n ∉ N → associated st n l = true → associated st' n l = true;
  ls_mapped n l : n ∉ N → associated st n l = true → mapped st l → mapped st' l
}.

#[export] Instance loses_preorder N bs : PreOrder (loses N bs).
Proof using.
  split.
  - intros st. split; [|done|done]. intros l f s L A Hs Hv. exists s, A. split_and!; [done|done|set_solver].
  - intros st1 st2 st3 [S1 A1 M1] [S2 A2 M2]. split; [|by eauto|by eauto]. intros l f s L A Hs Hv.
    destruct (S1 l f s L A Hs Hv) as (s2 & B & Hs2 & Hv2 & HB). destruct (S2 l f s2 L B Hs2 Hv2) as (s3 & C & Hs3 & Hv3 & HC3).
    exists s3, C. split_and!; [done|done|set_solver].
Qed.

Lemma cover_mono f L bs bs' : bs ⊆ bs' → cover f L bs ⊆ cover f L bs'.
Proof using. intros Hb i. rewrite !elem_of_cover. intros (v & p & Hin & Hi). exists v, p. split; [by apply Hb|done]. Qed.

Lemma loses_more N N' bs bs' st st' : N ⊆ N' → bs ⊆ bs' → loses N bs st st' → loses N' bs' st st'.
Proof using.
  intros HN Hb [Hs Ha Hm]. split.
  - intros l f s L A H1 H2. destruct (Hs l f s L A H1 H2) as (s' & A' & H3 & H4 & H5). exists s', A'.
    split_and!; [done|done|]. pose proof (cover_mono f L bs bs' Hb). set_solver.
  - intros n l Hn. apply Ha. set_solver.
  - intros n l Hn. apply Hm. set_solver.
Qed.

(** Only the objects and the map count. *)
Lemma loses_same N bs st st1 st2 : objs st2 = objs st1 → cidrMap st2 = cidrMap st1 → loses N bs st st1 → loses N bs st st2.
Proof using.
  intros Ho Hm [Hs Ha Hp]. split.
  - intros l f. unfold set_at. rewrite Ho. apply Hs.
  - intros n l. unfold associated. rewrite Ho. apply Ha.
  - intros n l. unfold mapped. rewrite Hm. apply Hp.
Qed.

Lemma frame_associated st st' n l : frame <$> objs st' !! l = frame <$> objs st !! l → associated st' n l = associated st n l.
Proof using.
  unfold associated. destruct (objs st !! l) as [c|], (objs st' !! l) as [c'|]; simpl; try done.
  unfold frame. by intros [= _ -> _].
Qed.

Lemma frames_loses N bs st st' : same_env st st' → (∀ l, frame <$> objs st' !! l = frame <$> objs st !! l) →
  (∀ l f s L A, set_at st (l, f) = Some s → set_view f s L A →
    ∃ s' A', set_at st' (l, f) = Some s' ∧ set_view f s' L A' ∧ A ∖ cover f L bs ⊆ A') → loses N bs st st'.
Proof using.
  intros He Hf Hs. split; [done|..].
  - intros n l _. by rewrite (frame_associated st st').
  - intros n l _ _. by apply (same_mapped st st').
Qed.

Lemma grows_loses N bs st st' : grows st st' → loses N bs st st'.
Proof using.
  intros [He Hf _ Hs]. apply frames_loses; [done..|]. intros l f s L A H1 H2.
  destruct (Hs l f s H1) as (s' & Hs' & _ & H). destruct (H L A H2) as (A' & Hv' & HA). exists s', A'. split_and!; [done|done|set_solver].
Qed.

Lemma changed_loses N bs cc g st st' : (∀ f L A, A ∖ cover f L bs ⊆ g f L A) → changed cc g st st' → loses N bs st st'.
Proof using.
  intros Hg [He Hf Ho _ Hs]. apply frames_loses; [done..|]. intros l f s L A H1 H2. destruct (decide (l = cc)) as [->|Hne].
  - destruct (Hs f s L A H1 H2) as (s' & Hs' & Hv' & _). by exists s', (g f L A).
  - exists s, A. unfold set_at in *. simpl in *. rewrite Ho by done. split_and!; [done|done|set_solver].
Qed.

(** Changing the nodes of an object keeps the sets. *)
Lemma set_at_nodes st cc c g p : objs st !! cc = Some c → set_at (with_objs (<[cc := with_nodes g c]>) st) p = set_at st p.
Proof using.
  intros Hc. destruct p as [l f]. unfold set_at. simpl. rewrite lookup_insert. case_decide as E; [|done]. subst l. rewrite Hc. by destruct f.
Qed.

Lemma nodes_loses N bs st cc c g : objs st !! cc = Some c →
  (∀ n, n ∉ N → default false (AssociatedNodes c !! n) = true → default false (g (AssociatedNodes c) !! n) = true) →
  loses N bs st (with_objs (<[cc := with_nodes g c]>) st).
Proof using.
  intros Hc Hg. split; [..|done].
  - intros l f s L A Hs Hv. rewrite (set_at_nodes st cc c g (l, f) Hc). exists s, A. split_and!; [done|done|set_solver].
  - intros n l Hn. unfold associated. simpl. rewrite lookup_insert. case_decide as E; [|done]. subst l. rewrite Hc. by apply Hg.
Qed.
End loses.

(** * Occupying and releasing one CIDR, in any ClusterCIDR *)

Section effects.
Context `{HN : !NetUtils} `{HC : !Cluster} (HNL : NetUtilsLaws HN).
Implicit Types st : AllocState.

(** Whatever set the ClusterCIDR has, and whether or not it exists. *)
Lemma set_call_cases st l b : alloc_ok st → cidr_valid b →
  associatedCIDRSet l (cidr_net b) st = (Panic NilDereference, st) ∨ associatedCIDRSet l (cidr_net b) st = (Ok None, st)
  ∨ ∃ s, set_at st (l, cidr_family b) = Some s.
Proof using HNL.
  intros Hok Hb. destruct b as [[f v] p]. unfold cidr_family, set_at. simpl in *. destruct (objs st !! l) as [c|] eqn:Hc.
  - right. rewrite (associatedCIDRSet_run HNL st l c f v p Hc Hb). destruct (get_set f c) as [s|] eqn:Hs; [right; exists s|left; done].
    simpl. exact Hs.
  - left. unfold associatedCIDRSet. rewrite (IsIPv4CIDR_valid _ _ _ Hb), (IsIPv6CIDR_valid _ _ _ Hb).
    unfold getObj, deref. destruct f; simpl; mred; by rewrite Hc.
Qed.

Lemma Occupy_effect st l b : alloc_ok st → cidr_valid b →
  ∃ g, (∀ f L A, A ⊆ g f L A) ∧ changed l g st (Occupy l (cidr_net b) st).2.
Proof using HNL.
  intros Hok Hb. assert (∀ A : gset Z, A ⊆ A) as Hid by set_solver.
  destruct (set_call_cases st l b Hok Hb) as [E|[E|[s Hs]]].
  - exists (λ _ _ A, A). split; [done|]. unfold Occupy. rewrite (M_bind_Panic _ _ _ _ _ E). apply changed_refl.
  - exists (λ _ _ A, A). split; [done|]. unfold Occupy. mstep E. apply changed_refl.
  - destruct (overlaps (set_ClusterCIDR s) (cidr_net b)) eqn:Ho.
    + destruct (Occupy_changed HNL st l b Hok) as (st' & E & Hch); [split; [done|by exists s]|].
      rewrite E. eexists. split; [|exact Hch]. set_solver.
    + destruct (Occupy_outside_run HNL st l b s Hok Hb Hs Ho) as (st' & e & E & Hch). rewrite E. eexists. split; [|exact Hch]. done.
Qed.

Lemma Release_effect st l b : alloc_ok st → cidr_valid b →
  ∃ g, (∀ f L A, A ∖ cover f L [b] ⊆ g f L A) ∧ changed l g st (Release l (cidr_net b) st).2.
Proof using HNL.
  intros Hok Hb. assert (∀ f L (A : gset Z), A ∖ cover f L [b] ⊆ A) as Hid by set_solver.
  destruct (set_call_cases st l b Hok Hb) as [E|[E|[s Hs]]].
  - exists (λ _ _ A, A). split; [done|]. unfold Release. rewrite (M_bind_Panic _ _ _ _ _ E). apply changed_refl.
  - exists (λ _ _ A, A). split; [done|]. unfold Release. mstep E. apply changed_refl.
  - destruct (overlaps (set_ClusterCIDR s) (cidr_net b)) eqn:Ho.
    + destruct (Release_changed HNL st l b Hok) as (st' & E & Hch); [split; [done|by exists s]|].
      rewrite E. eexists. split; [|exact Hch]. done.
    + exists (λ _ _ A, A). split; [done|]. destruct b as [[f v] p]. unfold cidr_family in Hs. simpl in *.
      destruct (at_set_ok _ _ _ _ Hok Hs) as (L & A & Hv). rewrite (view_cluster _ _ _ _ Hv) in Ho.
      pose proof Hv as [HL HW Hinv]. rewrite <- HW in Ho, Hb.
      pose proof (Release_outside L HL A s (metrics st) v p Hinv Hb Ho) as E. rewrite HW in E.
      destruct (onSet_run st l f s _ _ _ _ Hs E) as (st' & E' & Hr & _). rewrite HW in Hb.
      assert (Release l (block (fam_width f) v p) st = (Err (out_of_range_err L v p), st')) as ->.
      { unfold Release. mstep (associated_set HNL st l f s v p Hs Hb). exact E'. }
      by apply (replaced_cover (λ A _, A) st st' l f v p s s L A).
Qed.
End effects.

(** * Occupying, for any property it cannot break *)

(** [P] survives more allocated blocks, more associations and the start of a loop. *)
Record occupy_closed `{HLb : !Labels} `{HC : !Cluster} (P : AllocState → Prop) : Prop := {
  oc_ok st : P st → alloc_ok st;
  oc_labels st : P st → labels_ok st;
  oc_changed st st' l g : (∀ f L A, A ⊆ g f L A) → changed l g st st' → P st → P st';
  oc_iter st : P st → P (with_iter st);
  oc_assoc st cc c n : objs st !! cc = Some c → P st → P (with_objs (<[cc := with_nodes (insert n true) c]>) st)
}.

Section occupying.
Context `{HN : !NetUtils} `{HLb : !Labels} `{HC : !Cluster} `{HI : !MapIter}.
Context (HNL : NetUtilsLaws HN) (P : AllocState → Prop) (HP : occupy_closed P).
Implicit Types st : AllocState.

Lemma cidr_ok_valid n : cidr_ok n → ∃ b, cidr_valid b ∧ n = cidr_net b.
Proof using. intros (f & v & p & Hb & ->). by exists (f, v, p). Qed.

Lemma closed_Occupy l n : cidr_ok n → preserves P (Occupy l n).
Proof using HNL HP.
  intros (b & Hb & ->)%cidr_ok_valid st Hst. destruct (Occupy_effect HNL st l b) as (g & Hg & Hch); [by apply (oc_ok _ HP)|done|].
  by apply (oc_changed _ HP st _ l g).
Qed.

Lemma closed_associate cc n : preserves P (updObj cc (with_nodes (insert n true))).
Proof using HP.
  intros st Hst. destruct (objs st !! cc) as [c|] eqn:Hc; [|unfold updObj, getObj, deref; mred; by rewrite Hc].
  rewrite (updObj_run st cc c _ Hc). by apply (oc_assoc _ HP).
Qed.

Lemma closed_filterOut n : cidr_ok n → preserves P (filterOutServiceRange n).
Proof using HNL HP.
  intros Hn. unfold filterOutServiceRange. apply preserves_bind; [intros st; apply (oc_iter _ HP)|intros ls].
  apply preserves_forM. intros [label l]. apply preserves_forM. intros cc.
  apply preserves_bind; [apply preserves_attempt|by intros; auto with stable]. unfold occupyServiceCIDR.
  apply preserves_bind; [unfold associatedCIDRSet; preserve|intros q]. apply preserves_bind; [auto with stable|intros s]. cbn zeta.
  case_match; [auto with stable|]. by apply preserves_wrapErr, closed_Occupy.
Qed.

Lemma closed_occupyLoop l node cidrs n : Forall text_ok cidrs → preserves P (occupyLoop l node cidrs n).
Proof using HNL HP.
  intros Ht. revert n. induction Ht as [|t cidrs Ht _ IH]; intros n; cbn [occupyLoop]; [auto with stable|].
  destruct (ParseCIDRSloppy t) as [e|[ip c]] eqn:E; [auto with stable|]. apply preserves_bind.
  - apply preserves_attempt, closed_Occupy. by eapply Ht.
  - intros [e|u]; [auto with stable|apply IH].
Qed.

Context (HIL : MapIterLaws HI) (sel : Selector) (Hsel : nodeSelectorAsSelector (Some defaultNodeSelector) = Ok sel).

Lemma closed_ordered node occupy : preserves P (orderedMatchingClusterCIDRs node occupy).
Proof using HP HIL Hsel.
  intros st Hst. destruct (ordered_run HIL st node occupy sel) as (items & E & _); [by apply (oc_ok _ HP)|by apply (oc_labels _ HP)|done|].
  rewrite E. by apply (oc_iter _ HP).
Qed.

Lemma closed_occupyCIDRs node : node_ok node → preserves P (occupyCIDRs node).
Proof using HNL HP HIL Hsel.
  intros Hn. unfold occupyCIDRs. case_match; [auto with stable|]. apply preserves_bind; [apply closed_ordered|intros ls].
  case_match; [auto with stable|]. apply preserves_bind; [|by intros [u|]; auto with stable].
  apply preserves_forReturn. intros cc. apply preserves_bind; [by apply closed_occupyLoop|intros k].
  case_match; [|auto with stable]. apply preserves_bind; [apply closed_associate|by intros; auto with stable].
Qed.
End occupying.

(** * One rule per operation *)

Section kept.
Context `{HN : !NetUtils} `{HLb : !Labels} `{HC : !Cluster} `{HI : !MapIter}.
Context (HNL : NetUtilsLaws HN) (HIL : MapIterLaws HI).
Context (sel : Selector) (Hsel : nodeSelectorAsSelector (Some defaultNodeSelector) = Ok sel).
Implicit Types st : AllocState.

Definition Kept (N : list string) (bs : list cidr) st0 st : Prop := alloc_ok st ∧ labels_ok st ∧ loses N bs st0 st.

Context (N : list string) (bs : list cidr) (st0 : AllocState).
Abbreviation P := (Kept N bs st0).

Lemma kept_refl : alloc_ok st0 → labels_ok st0 → P st0.
Proof using. intros Hok Hlab. split_and!; [done|done|reflexivity]. Qed.

Lemma kept_same st st' : objs st' = objs st → cidrMap st' = cidrMap st → next_loc st' = next_loc st → P st → P st'.
Proof using.
  intros Ho Hm Hn ([Hobj Hmap Hfr] & Hlab & Hl). split_and!.
  - split; [intros l c; rewrite Ho; apply Hobj|intros l; unfold mapped; rewrite Hm, Ho; apply Hmap|intros l; rewrite Ho, Hn; apply Hfr].
  - intros label. rewrite Hm. apply Hlab.
  - by apply (loses_same N bs st0 st).
Qed.

Lemma kept_changed st st' cc g : (∀ f L A, A ∖ cover f L bs ⊆ g f L A) → changed cc g st st' → P st → P st'.
Proof using.
  intros Hg Hch (Hok & Hlab & Hl). split_and!; [by eapply changed_ok| |].
  - intros label. rewrite (se_map _ _ (ch_env _ _ _ _ Hch)). apply Hlab.
  - etransitivity; [exact Hl|]. by eapply changed_loses.
Qed.

Lemma kept_grows st st' : alloc_ok st' → grows st st' → P st → P st'.
Proof using.
  intros Hok' Hg (Hok & Hlab & Hl). split_and!; [done|by eapply grows_labels|]. etransitivity; [exact Hl|by apply grows_loses].
Qed.

Lemma insert_true (n m : string) (nodes : gmap string bool) : default false (nodes !! m) = true → default false (<[n := true]> nodes !! m) = true.
Proof using. rewrite lookup_insert. by case_decide. Qed.

Lemma kept_nodes cc g : (∀ c n, n ∉ N → default false (AssociatedNodes c !! n) = true → default false (g (AssociatedNodes c) !! n) = true) →
  preserves P (updObj cc (with_nodes g)).
Proof using.
  intros Hg st Hst. destruct (objs st !! cc) as [c|] eqn:Hc; [|unfold updObj, getObj, deref; mred; by rewrite Hc].
  rewrite (updObj_run st cc c _ Hc). destruct Hst as (Hok & Hlab & Hl). split_and!.
  - apply (objs_insert st cc c); [done|done|]. by apply with_nodes_ok, (ao_objs _ Hok cc).
  - exact Hlab.
  - etransitivity; [exact Hl|]. apply nodes_loses; [done|]. apply Hg.
Qed.

Lemma kept_dissociate cc n : n ∈ N → preserves P (updObj cc (with_nodes (delete n))).
Proof using. intros Hn. apply kept_nodes. intros c m Hm Ha. by rewrite lookup_delete_ne by (by intros ->). Qed.

Lemma kept_callAPI f : preserves P (callAPI f).
Proof using. apply preserves_callAPI. intros st. by apply kept_same. Qed.
Lemma kept_event e : preserves P (recordEvent e).
Proof using. apply preserves_modify. intros st. by apply kept_same. Qed.

Lemma kept_closed : occupy_closed P.
Proof using.
  split.
  - by intros st [].
  - by intros st (_ & ? & _).
  - intros st st' l g Hg Hch. eapply kept_changed; [|exact Hch]. intros f L A. by apply subseteq_diff.
  - intros st. by apply kept_same.
  - intros st cc c n Hc Hst. pose proof (kept_nodes cc (insert n true)) as Hn. specialize (Hn (λ c m _ Hm, insert_true n m _ Hm) st Hst).
    by rewrite (updObj_run st cc c _ Hc) in Hn.
Qed.

Lemma kept_Release l b : cidr_valid b → b ∈ bs → preserves P (Release l (cidr_net b)).
Proof using HNL.
  intros Hb Hin st Hst. destruct (Release_effect HNL st l b) as (g & Hg & Hch); [apply Hst|done|].
  eapply kept_changed; [|exact Hch|done]. intros f L A.
  eapply diff_more; [|apply Hg]. apply cover_mono. by intros x ->%list_elem_of_singleton.
Qed.

(** * The handlers of nodes *)

Lemma kept_allocated node : preserves P (allocatedClusterCIDR node).
Proof using HIL Hsel.
  unfold allocatedClusterCIDR. apply preserves_bind; [apply preserves_wrapErr, (closed_ordered _ kept_closed HIL sel Hsel)|intros ls]. preserve.
Qed.

(** Releasing a node gives back its PodCIDRs and ends its association, at most. *)
Lemma kept_ReleaseCIDR node : node_Name node ∈ N →
  (∀ t ip n, t ∈ PodCIDRs node → ParseCIDRSloppy t = inr (ip, n) → ∃ b, b ∈ bs ∧ cidr_valid b ∧ n = cidr_net b) →
  preserves P (ReleaseCIDR (Some node)).
Proof using HNL HIL Hsel.
  intros Hn Hbs. unfold ReleaseCIDR. case_match; [auto with stable|].
  apply preserves_bind; [apply kept_allocated|intros cc]. apply preserves_bind; [|intros _; by apply kept_dissociate].
  revert Hbs. generalize (PodCIDRs node) as l. intros l Hbs. induction l as [|t l IH]; [by apply preserves_ret|]. cbn [forM_].
  apply preserves_bind; [|intros _; apply IH; intros t' ip n Ht'; apply Hbs; by right].
  destruct (ParseCIDRSloppy t) as [e|[ip n]] eqn:E; [auto with stable|].
  destruct (Hbs t ip n) as (b & Hin & Hb & ->); [by left|done|].
  apply preserves_bind; [auto with stable|intros c]. by apply preserves_wrapErr, kept_Release.
Qed.
End kept.

(** * Giving back what was just taken *)

Section reserved.
Context `{HN : !NetUtils} `{HLb : !Labels} `{HC : !Cluster} `{HI : !MapIter}.
Context (HNL : NetUtilsLaws HN).
Implicit Types st : AllocState.

(** A fresh block as a CIDR: it is in range, and it meets no block allocated before. *)
Lemma fresh_cidr st st' cc f b : grows st st' → fresh_block st st' cc f b →
  ∃ c, b = cidr_net c ∧ in_range st' cc c ∧
    ∀ g s L A i, set_at st (cc, g) = Some s → set_view g s L A → i ∈ A → i ∉ cover g L [c].
Proof using.
  intros Hg (s & L & A & i & Hs & Hv & Hi & -> & Hfree & s' & A' & Hs' & Hv' & Hi').
  destruct (view_block f s L A i Hv Hi) as [E Hb]. exists (f, node_addr L i, nlen L). split; [exact E|]. split.
  - split; [exact Hb|]. exists s'. split; [exact Hs'|]. rewrite (view_cluster _ _ _ _ Hv'). simpl. rewrite <- E.
    apply node_block_in_cluster; [apply Hv|done].
  - intros g s1 L1 A1 j Hs1 Hv1 Hj (v & p & Hin & Ht)%elem_of_cover. apply list_elem_of_singleton in Hin. simplify_eq.
    destruct (set_view_unique _ _ _ _ _ _ Hv Hv1) as [<- <-].
    rewrite (touched_node_block L (sv_ok _ _ _ _ Hv) i Hi) in Ht. apply elem_of_singleton in Ht as ->.
    assert (in_block (width L) (node_addr L i) (nlen L) (node_addr L i)) as Hx
      by (apply (index_of_in_block L (sv_ok _ _ _ _ Hv)), index_of_node_addr, Hv).
    destruct (Hfree _ Hx) as [_ Hn]. apply Hn. apply (uses_view f s L A _ Hv). by exists i.
Qed.

Lemma allocated_cidrs st st' cc cidrs : grows st st' → allocated_for st st' cc cidrs →
  ∃ cs, cidrs = cidr_net <$> cs ∧ Forall (in_range st' cc) cs ∧
    ∀ f s L A i, set_at st (cc, f) = Some s → set_view f s L A → i ∈ A → i ∉ cover f L cs.
Proof using.
  intros Hg Ha. assert (∀ b, b ∈ cidrs → ∃ f, fresh_block st st' cc f b) as Hf by (intros b; by apply allocated_fresh).
  clear Ha. induction cidrs as [|b l IH].
  - exists []. split_and!; [done|constructor|]. intros f s L A i _ _ _. apply not_elem_of_empty.
  - destruct IH as (cs & -> & Hin & Hd); [intros b' Hb'; apply Hf; by right|]. destruct (Hf b) as [f Hb]; [by left|].
    destruct (fresh_cidr st st' cc f b Hg Hb) as (c & -> & Hc & Hcd). exists (c :: cs). split_and!; [done|by constructor|].
    intros g s L A i Hs Hv Hi. rewrite cover_cons, elem_of_union. intros [Hx|Hx]; [by eapply Hcd|by eapply Hd].
Qed.

(** Between the allocation and the release the sets stay as they are. *)
Definition same_sets st1 st2 : Prop :=
  Kept [] [] st1 st2 ∧ ∀ p, set_at st2 p = set_at st1 p.

Lemma same_sets_patch st1 n node cidrs cc err : preserves (same_sets st1) (patchLoop n node cidrs cc err).
Proof using.
  assert (∀ p c g st, objs st !! p = Some c → ∀ q, set_at (with_objs (<[p := with_nodes g c]>) st) q = set_at st q) as Hset
    by (intros; by apply set_at_nodes).
  revert err. induction n as [|n IH]; intros err; cbn [patchLoop]; [auto with stable|]. apply preserves_bind.
  - apply preserves_callAPI. intros st [Hk Hs]. split; [by apply (kept_same [] [] st1 st)|done].
  - intros [e|]; [apply IH|]. apply preserves_bind; [|by intros; auto with stable]. intros st [Hk Hs].
    split; [by apply (closed_associate _ (kept_closed [] [] st1))|]. intros q. destruct (objs st !! cc) as [c|] eqn:Hc.
    + rewrite (updObj_run st cc c _ Hc). simpl. by rewrite (Hset cc c).
    + unfold updObj, getObj, deref. mred. by rewrite Hc.
Qed.

Lemma same_sets_in_range st1 st2 cc c : same_sets st1 st2 → in_range st1 cc c → in_range st2 cc c.
Proof using. intros [_ Hs] [Hc (s & H & Ho)]. split; [done|]. exists s. by rewrite Hs. Qed.

(** Releasing the blocks of an allocation takes nothing else away. *)
Lemma undo_kept N bs st0 st st1 st2 st3 cc cs : Kept N bs st0 st → alloc_ok st1 → grows st st1 → same_sets st1 st2 →
  (∀ f s L A i, set_at st (cc, f) = Some s → set_view f s L A → i ∈ A → i ∉ cover f L cs) →
  changed cc (λ f L A, A ∖ cover f L cs) st2 st3 → Kept N bs st0 st3.
Proof using.
  intros (Hok & Hlab & Hl) Hok1 Hg [(Hok2 & Hlab2 & Hl2) Hs2] Hd Hch. split_and!; [by eapply changed_ok| |].
  - intros label. rewrite (se_map _ _ (ch_env _ _ _ _ Hch)). apply Hlab2.
  - etransitivity; [exact Hl|]. apply (loses_more [] N [] bs); [apply list_subseteq_nil|apply list_subseteq_nil|].
    assert (loses [] cs st2 st3) as Hl3 by (by eapply changed_loses; [|exact Hch]).
    pose proof (grows_loses [] [] st st1 Hg) as Hl1. split.
    + intros l f s L A Hs Hv. destruct (ls_set _ _ _ _ Hl1 l f s L A Hs Hv) as (s1 & A1 & Hs1 & Hv1 & HA1).
      rewrite <- Hs2 in Hs1. destruct (decide (l = cc)) as [->|Hne].
      * destruct (ch_set _ _ _ _ Hch f s1 L A1 Hs1 Hv1) as (s3 & Hs3 & Hv3 & _). exists s3, (A1 ∖ cover f L cs).
        split_and!; [done..|]. intros i [Hi _]%elem_of_difference. apply elem_of_difference.
        split; [apply HA1; apply elem_of_difference; split; [done|apply not_elem_of_empty]|by apply (Hd f s L A)].
      * exists s1, A1. split_and!; [|done..]. unfold set_at in *. simpl in *. by rewrite (ch_other _ _ _ _ Hch).
    + intros n l Hn Ha. apply (ls_assoc _ _ _ _ Hl3 n l Hn), (ls_assoc _ _ _ _ Hl2 n l Hn), (ls_assoc _ _ _ _ Hl1 n l Hn), Ha.
    + intros n l Hn Ha Hm. pose proof (ls_assoc _ _ _ _ Hl1 n l Hn Ha) as Ha1. pose proof (ls_assoc _ _ _ _ Hl2 n l Hn Ha1) as Ha2.
      apply (ls_mapped _ _ _ _ Hl3 n l Hn Ha2), (ls_mapped _ _ _ _ Hl2 n l Hn Ha1), (ls_mapped _ _ _ _ Hl1 n l Hn Ha), Hm.
Qed.

Lemma same_sets_refl st : alloc_ok st → labels_ok st → same_sets st st.
Proof using. intros Hok Hlab. split; [by apply kept_refl|done]. Qed.

Lemma same_sets_kept N bs st0 st st1 st2 : Kept N bs st0 st → grows st st1 → same_sets st1 st2 → Kept N bs st0 st2.
Proof using.
  intros (Hok & Hlab & Hl) Hg [(Hok2 & Hlab2 & Hl2) _]. split_and!; [done..|]. etransitivity; [exact Hl|].
  transitivity st1; [by apply grows_loses|]. eapply loses_more; [apply list_subseteq_nil..|exact Hl2].
Qed.

Lemma release_undo N bs st0 st st1 st2 cc cs name node format : Kept N bs st0 st → alloc_ok st1 → grows st st1 → same_sets st1 st2 →
  cs ≠ [] → Forall (in_range st1 cc) cs →
  (∀ f s L A i, set_at st (cc, f) = Some s → set_view f s L A → i ∈ A → i ∉ cover f L cs) →
  ∃ st3, releaseReserved format (mkMultiReserved (mkReserved (cidr_net <$> cs) name) cc) node st2 = (Ok tt, st3) ∧ Kept N bs st0 st3.
Proof using HNL.
  intros Hk Hok1 Hg H12 Hne Hin Hd. assert (Forall (in_range st2 cc) cs) as Hin2
    by (eapply Forall_impl; [exact Hin|]; intros c; by apply same_sets_in_range).
  assert (is_Some (objs st2 !! cc)) as Hcc.
  { destruct cs as [|c cs]; [done|]. apply Forall_cons in Hin2 as [[_ (s & (o & Ho & _)%set_at_Some & _)] _]. by exists o. }
  pose proof (proj1 (proj1 H12)) as Hok2.
  destruct (releaseReserved_run HNL format name cc cs node st2 Hok2 Hcc Hin2) as (st3 & E & Hch).
  exists st3. split; [exact E|]. by apply (undo_kept N bs st0 st st1 st2 st3 cc cs).
Qed.

(** [updateCIDRsAllocation] of blocks that were free, on every branch. *)
Lemma update_kept N bs st0 st st1 cc cidrs name : Kept N bs st0 st → alloc_ok st1 → grows st st1 → labels_ok st1 →
  allocated_for st st1 cc cidrs → cidrs ≠ [] →
  Kept N bs st0 (updateCIDRsAllocation (mkMultiReserved (mkReserved cidrs name) cc) st1).2.
Proof using HNL.
  intros Hk Hok1 Hg Hlab1 Ha Hne. destruct (allocated_cidrs st st1 cc cidrs Hg Ha) as (cs & -> & Hin & Hd).
  assert (cs ≠ []) as Hne' by (by destruct cs).
  pose proof (same_sets_refl st1 Hok1 Hlab1) as H11. pose proof (same_sets_kept N bs st0 st st1 st1 Hk Hg H11) as Hk1.
  unfold updateCIDRsAllocation. assert (get st1 = (Ok st1, st1)) as Eg by done. mstep Eg.
  cbn [reserved reserved_nodeName reserved_CIDRs reserved_clusterCIDR].
  destruct (nodeLister_Get _ _) as [e|node]; [done|]. case_match; [done|]. case_match.
  { destruct (release_undo N bs st0 st st1 st1 cc cs name node "failed to release cidr %s from clusterCIDR %s for node: %s: %w" Hk Hok1 Hg H11 Hne' Hin Hd)
      as (st3 & E & H3). by rewrite E. }
  pose proof (same_sets_patch st1 (Z.to_nat cidrUpdateRetries) node (ipnetToStringList (cidr_net <$> cs)) cc None st1 H11) as H12.
  destruct (patchLoop _ _ _ _ _ _) as [[[e|]|e|q] st2] eqn:E; simpl in H12.
  2,3,4: unfold mbind, M_bind; rewrite E; by eapply same_sets_kept.
  mstep E. assert (same_sets st1 (with_event (NodeStatusChange (node_Name node) "CIDRAssignmentFailed") st2)) as H13.
  { destruct H12 as [H1 H2]. split; [by apply (kept_same [] [] st1 st2)|done]. }
  assert (RecordNodeStatusChange node "CIDRAssignmentFailed" st2
    = (Ok tt, with_event (NodeStatusChange (node_Name node) "CIDRAssignmentFailed") st2)) as Er by done.
  mstep Er. destruct (negb (IsServerTimeout e)); [|by eapply same_sets_kept].
  destruct (release_undo N bs st0 st st1 _ cc cs name node "failed to release cidr %q from clusterCIDR %q for node: %q: %w" Hk Hok1 Hg H13 Hne' Hin Hd)
    as (st3 & E3 & H3). by mstep E3.
Qed.

Context (HIL : MapIterLaws HI) (sel : Selector) (Hsel : nodeSelectorAsSelector (Some defaultNodeSelector) = Ok sel).

(** The allocation branch: what it took, or nothing lost. *)
Lemma kept_AllocateOrOccupyCIDR N bs st0 node : node_ok node → preserves (Kept N bs st0) (AllocateOrOccupyCIDR (Some node)).
Proof using HNL HIL Hsel.
  intros Hn st Hst. unfold AllocateOrOccupyCIDR. case_match; [by apply (closed_occupyCIDRs HNL _ (kept_closed N bs st0) HIL sel Hsel)|].
  destruct (prioritized_run HNL HIL st node sel) as (ls & st1 & El & Hok1 & Hg & Hr); [apply Hst|apply Hst|done|].
  pose proof (grows_labels _ _ Hg (proj1 (proj2 Hst))) as Hlab1.
  destruct Hr as [(cidrs & cc & E & Hcc & Ha)|[[e E] _]].
  - mstep (attempt_Ok _ _ _ _ E). destruct (Nat.eqb_spec (length cidrs) 0) as [Hl|Hl].
    + unfold RecordNodeStatusChange, recordEvent, modify, fail, mbind, M_bind. simpl.
      by apply (kept_same N bs st0 st1); [..|by eapply kept_grows].
    + apply (update_kept N bs st0 st st1); try done. intros ->. by apply Hl.
  - mstep (attempt_Err _ _ _ _ E). unfold RecordNodeStatusChange, recordEvent, modify, fail, mbind, M_bind. simpl.
    by apply (kept_same N bs st0 st1); [..|by eapply kept_grows].
Qed.
End reserved.

(** * The handlers of ClusterCIDRs *)

Section clustercidrs.
Context `{HN : !NetUtils} `{HLb : !Labels} `{HC : !Cluster} `{HI : !MapIter}.
Context (HNL : NetUtilsLaws HN).
Context (N : list string) (bs : list cidr) (st0 : AllocState).
Abbreviation P := (Kept N bs st0).
Implicit Types st : AllocState.

(** A handler that keeps [R] and, on the states of [P1], returns values with [Q]. *)
Lemma keeps_value {A} (P1 R : AllocState → Prop) (m : M AllocState A) Q : keeps P1 m Q → preserves R m →
  (∀ st, R st → P1 st) → keeps R m Q.
Proof using. intros Hm Hp Hi st Hst. split; [by apply Hp|]. by apply (Hm st), Hi. Qed.

Lemma kept_createClusterCIDRSet c b : preserves P (createClusterCIDRSet c b).
Proof using.
  assert (∀ name n h, preserves P (newSetM name n h)) as Hn.
  { intros name n h st. intros Hst. unfold newSetM. destruct (NewMultiCIDRSet name n h (metrics st)). by apply (kept_same N bs st0 st). }
  assert (∀ m1 m2 name t h, preserves P (createSet m1 m2 name t h)) as Hs by (intros; unfold createSet; preserve; apply Hn).
  unfold createClusterCIDRSet. preserve; apply Hs.
Qed.

(** A new object takes the place of none. *)
Lemma new_loses c st : alloc_ok st → loses N bs st (newObj c st).2.
Proof using.
  intros Hok. assert (∀ l, is_Some (objs st !! l) → objs (newObj c st).2 !! l = objs st !! l) as Hold.
  { intros l Hl. simpl. rewrite lookup_insert_ne; [done|]. intros <-. apply (ao_fresh _ Hok) in Hl. lia. }
  assert (∀ p s, set_at st p = Some s → set_at (newObj c st).2 p = Some s) as Hset.
  { intros [l f] s (d & Hd & Hs)%set_at_Some. apply set_at_Some. exists d. by rewrite Hold. }
  split; [| |done].
  - intros l f s L A Hs Hv. exists s, A. split_and!; [by apply Hset|done|by apply subseteq_diff].
  - intros n l _. unfold associated. destruct (objs st !! l) as [d|] eqn:Hd; [|done]. rewrite Hold by (by exists d). by rewrite Hd.
Qed.

Lemma kept_newObj c st : cluster_ok c → P st → P (newObj c st).2 ∧ is_Some (objs (newObj c st).2 !! next_loc st).
Proof using.
  intros Hc (Hok & Hlab & Hl). destruct (newObj_inv (λ _, True) c st) as [[Hok1 _] Hp]; [done|done|].
  split; [|done]. split_and!; [done..|]. etransitivity; [exact Hl|by apply new_loses].
Qed.

(** Changing the list of a label: what is associated must stay in it. *)
Lemma kept_insert st label l : P st → (∃ sel, labels_Parse label = inr sel) → (∀ p, p ∈ l → is_Some (objs st !! p)) →
  (∀ p n, p ∈ default [] (cidrMap st !! label) → associated st n p = true → p ∈ l) → P (with_cidrMap (insert label l) st).
Proof using.
  intros (Hok & Hlab & Hl) Hsel Hobj Hkeep. split_and!.
  - by apply map_insert.
  - intros k. simpl. rewrite lookup_insert. case_decide as E; [by subst k|apply Hlab].
  - etransitivity; [exact Hl|]. split; [|done|].
    + intros p f s L A Hs Hv. exists s, A. split_and!; [done|done|by apply subseteq_diff].
    + intros n p _ Ha (k & x & Hx & Hp). destruct (decide (k = label)) as [->|Hne].
      * exists label, l. simpl. rewrite lookup_insert_eq. split; [done|]. apply (Hkeep p n); [by rewrite Hx|done].
      * exists k, x. simpl. by rewrite lookup_insert_ne.
Qed.

Lemma kept_delete st label : P st → (∀ p n, p ∈ default [] (cidrMap st !! label) → associated st n p = false) →
  P (with_cidrMap (delete label) st).
Proof using.
  intros (Hok & Hlab & Hl) Hnone. split_and!.
  - by apply map_delete.
  - intros k [x Hx]. simpl in Hx. rewrite lookup_delete in Hx. case_decide; [done|]. apply Hlab. by exists x.
  - etransitivity; [exact Hl|]. split; [|done|].
    + intros p f s L A Hs Hv. exists s, A. split_and!; [done|done|by apply subseteq_diff].
    + intros n p _ Ha (k & x & Hx & Hp). destruct (decide (k = label)) as [->|Hne].
      * rewrite (Hnone p n) in Ha; [done|]. by rewrite Hx.
      * exists k, x. simpl. by rewrite lookup_delete_ne.
Qed.

Lemma kept_map key p st : P st → (∃ sel, labels_Parse key = inr sel) → is_Some (objs st !! p) → P (mapClusterCIDRSet key (Some p) st).2.
Proof using.
  intros Hst Hsel [c Hc]. unfold mapClusterCIDRSet. assert (get st = (Ok st, st)) as Eg by done. mstep Eg.
  destruct (cidrMap st !! key) as [l|] eqn:Hl.
  - mstep (getObj_run st p c Hc). assert (∀ q, q ∈ l → is_Some (objs st !! q)) as Hobj.
    { intros q Hq. apply (ao_mapped _ (proj1 Hst)). by exists key, l. }
    mstep (containsName_run st (Name c) l Hobj). case_bool_decide; [done|]. simpl. apply kept_insert; [done|done| |].
    + intros q [Hq| ->%list_elem_of_singleton]%elem_of_app; [by apply Hobj|by exists c].
    + intros q n. rewrite Hl. simpl. intros Hq _. apply elem_of_app. by left.
  - simpl. apply kept_insert; [done|done| |].
    + by intros q ->%list_elem_of_singleton; exists c.
    + intros q n. rewrite Hl. by intros ?%elem_of_nil.
Qed.

Lemma kept_createClusterCIDR c b : cc_ok c → (∀ key, nodeSelectorKey c = Ok key → ∃ sel, labels_Parse key = inr sel) →
  preserves P (createClusterCIDR c b).
Proof using HNL.
  intros Hc Hkey. unfold createClusterCIDR. destruct (nodeSelectorKey c) as [key|e|q] eqn:Ek; [|by intros st Hst..].
  destruct (Hkey key eq_refl) as [s Hs]. apply preserves_keeps.
  eapply (keeps_bind _ _ _ (λ k, k = key)); [apply keeps_wrapErr, (keeps_lift _ _ (λ k, k = key)); by intros a [= <-]|]. intros k ->.
  eapply keeps_bind.
  { apply keeps_wrapErr, (keeps_value (Inv (λ _, True)) P); [by apply keeps_createClusterCIDRSet|apply kept_createClusterCIDRSet|].
    intros st Hst. split; [apply Hst|done]. }
  intros o Ho. destruct (bool_decide (IPv4CIDRSet o = None) && bool_decide (IPv6CIDRSet o = None)) eqn:Hnone; [apply keeps_fail|].
  assert (cluster_ok o) as Hco.
  { split; [exact Ho|]. apply andb_false_iff in Hnone as [H%bool_decide_eq_false|H%bool_decide_eq_false];
      apply not_eq_None_Some in H; [by exists V4|by exists V6]. }
  apply preserves_keeps. intros st Hst. destruct (kept_newObj o st Hco Hst) as [Hst1 Hp].
  assert (newObj o st = (Ok (next_loc st), (newObj o st).2)) as En by done. mstep En. cbn zeta.
  pose proof (kept_map key (next_loc st) (newObj o st).2 Hst1 ltac:(by exists s) Hp) as Hm. unfold mbind at 1, M_bind, wrapErr.
  destruct (mapClusterCIDRSet key (Some (next_loc st)) (newObj o st).2) as [[u|e|q] st2]; simpl in Hm; [|done..].
  revert st2 Hm. case_match; apply preserves_returnErr, kept_callAPI.
Qed.

(** The object that is unmapped has no associated node. *)
Lemma kept_deleteLoop name label l rest pre st : P st → cidrMap st !! label = Some l → l = pre ++ rest →
  P (deleteLoop name label l (length pre) rest st).2.
Proof using.
  intros Hst Hl. revert pre. induction rest as [|p rest IH]; intros pre Hsplit; [done|]. cbn [deleteLoop].
  destruct (objs st !! p) as [c|] eqn:Hc; [|unfold getObj, deref; mred; by rewrite Hc].
  mstep (getObj_run st p c Hc). case_match.
  { specialize (IH (pre ++ [p])). rewrite length_app, Nat.add_comm in IH. apply IH. by rewrite <- app_assoc. }
  mstep (updObj_run st p c (with_terminating true) Hc). set (st1 := with_objs _ st).
  assert (P st1) as Hst1.
  { destruct Hst as (Hok & Hlab & Hlo). split_and!.
    - apply (objs_insert st p c); [done|done|]. by apply with_terminating_ok, (ao_objs _ Hok p).
    - exact Hlab.
    - etransitivity; [exact Hlo|]. assert (∀ k f, set_at st1 (k, f) = set_at st (k, f)) as Hset.
      { intros k f. unfold set_at. simpl. rewrite lookup_insert. case_decide as E; [|done]. subst k. rewrite Hc. by destruct f. }
      split; [| |done].
      + intros k f s L A Hs Hv. rewrite Hset. exists s, A. split_and!; [done|done|by apply subseteq_diff].
      + intros n k _. unfold associated. simpl. rewrite lookup_insert. case_decide as E; [|done]. subst k. by rewrite Hc. }
  destruct (Nat.ltb_spec 0 (size (AssociatedNodes c))) as [|Hsz]; [done|].
  assert (AssociatedNodes c = ∅) as Hnone by (apply map_size_empty_inv; lia).
  assert (∀ n, associated st1 n p = false) as Hfalse.
  { intros n. unfold associated. simpl. rewrite lookup_insert_eq. simpl. by rewrite Hnone, lookup_empty. }
  case_match eqn:E.
  - apply Nat.eqb_eq in E. simpl. apply kept_delete; [done|]. intros q n. simpl. rewrite Hl. simpl.
    subst l. rewrite length_app in E. simpl in E. destruct pre; [|simpl in E; lia]. destruct rest; [|simpl in E; lia].
    by intros ->%list_elem_of_singleton.
  - simpl. apply kept_insert; [done|apply (proj1 (proj2 Hst)); by exists l| |].
    + intros q Hq. apply (ao_mapped _ (proj1 Hst1)). exists label, l. split; [done|]. rewrite <- delete_take_drop in Hq.
      eapply elem_of_submseteq; [exact Hq|]. apply sublist_submseteq, sublist_delete.
    + intros q n. simpl. rewrite Hl. simpl. intros Hq Ha. assert (q ≠ p) as Hne by (intros ->; by rewrite Hfalse in Ha).
      subst l. rewrite take_app_length, (drop_app_ge pre), Nat.sub_succ_l, Nat.sub_diag by lia. simpl. rewrite drop_0.
      apply elem_of_app in Hq as [Hq|[->|Hq]%elem_of_cons]; [apply elem_of_app; by left|done|apply elem_of_app; by right].
Qed.

Lemma kept_reconcileDelete c : preserves P (reconcileDelete c).
Proof using.
  unfold reconcileDelete. case_match; [|by intros st Hst]. apply preserves_bind; [|intros _; apply preserves_returnErr, kept_callAPI].
  unfold deleteClusterCIDR. apply preserves_bind; [preserve|]. intros label st Hst.
  assert (get st = (Ok st, st)) as Eg by done. mstep Eg. destruct (cidrMap st !! label) as [l|] eqn:Hl; [|done].
  by apply (kept_deleteLoop _ _ l l []).
Qed.

(** * Work items *)

Context (HIL : MapIterLaws HI) (sel : Selector) (Hsel : nodeSelectorAsSelector (Some defaultNodeSelector) = Ok sel).

(** The PodCIDRs of a node that its release may give back. *)
Definition podCIDRs_within (node : Node) : Prop :=
  ∀ t ip n, t ∈ PodCIDRs node → ParseCIDRSloppy t = inr (ip, n) → ∃ b, b ∈ bs ∧ cidr_valid b ∧ n = cidr_net b.

End clustercidrs.
