(* ===== verification/Records.v ===== *)
(** The records of the nodes' CIDRs, and the runs of the controller they are kept along.

    [records] has, for a node and a ClusterCIDR it is associated with, the CIDRs it
    was last granted from it or found with in it.  [isolates st recs] says that these
    are exactly the associations of [st], that what is recorded is allocated, and that
    no address is recorded for two nodes.  [system] are the runs: sequences of the
    critical sections under [r.lock], each with any node or ClusterCIDR object, as the
    informer's cache had it at some time before. *)
From S2P Require Import Prelude GoNet CIDRTheory CIDRText NetUtils MultiCIDRSet IndexTheory IndexProps SetProps SetConstruction.
From S2P Require Import ContainerHeap PriorityQueue Kubernetes Allocator NodeHandlers ClusterCIDRHandlers EventHandlers Stable AllocatorInv AllocateProps MatchProps NodeProps AllocatorKeeps HandlerProps ReleaseProps HandlerTheorems NodeTheorems IsolationTheorems Retention.

Abbreviation records := (gmap (string * loc) (list IPNet)).

(** What the informers show, besides [world_closed]: a node under its name, and
    ClusterCIDRs whose selector text the label package can parse back. *)
Definition readable `{HN : !NetUtils} `{HLb : !Labels} (c : v1ClusterCIDR) : Prop :=
  cc_ok c ∧ ∀ k, nodeSelectorKey c = Ok k → ∃ sel, labels_Parse k = inr sel.

Record world_named `{HLb : !Labels} `{HC : !Cluster} (Wok : World → Prop) : Prop := {
  wn_node w key node : Wok w → nodeLister_Get w key = inr node → node_Name node = key;
  wn_key w key c k : Wok w → clusterCIDRLister_Get w key = inr c → nodeSelectorKey c = Ok k → ∃ sel, labels_Parse k = inr sel
}.

Section system.
Context `{HN : !NetUtils} `{HLb : !Labels} `{HC : !Cluster} `{HI : !MapIter}.
Implicit Types (st : AllocState) (recs : records).

(** * The records along a section *)

Definition podNets (node : Node) : list IPNet :=
  omap (λ t, match ParseCIDRSloppy t with inr (_, n) => Some n | inl _ => None end) (PodCIDRs node).

(** The ClusterCIDR in which [occupyCIDRs] puts the node: its loops, returning the pointer. *)
Definition occupant (node : Node) st : option loc :=
  match (ls ← orderedMatchingClusterCIDRs node true;
         forReturn ls (λ clusterCIDR,
           occupiedCount ← occupyLoop clusterCIDR node (PodCIDRs node) 0;
           mret (if occupiedCount =? Z.of_nat (length (PodCIDRs node)) then Some clusterCIDR else None))) st with
  | (Ok r, _) => r
  | _ => None
  end.

(** What [AllocateOrOccupyCIDR] gives the node when it succeeds: for a node without
    PodCIDRs the blocks patched into it, unless the lister shows CIDRs by then; for
    one with PodCIDRs these. *)
Definition gained (node : Node) st : option (loc * list IPNet) :=
  if decide (PodCIDRs node = []) then
    match (prioritizedCIDRs node st).1, nodeLister_Get (world st) (node_Name node) with
    | Ok (cidrs, cc), inr node' => if decide (PodCIDRs node' = []) then Some (cc, cidrs) else None
    | _, _ => None
    end
  else (λ cc, (cc, podNets node)) <$> occupant node st.

Definition noted (node : Node) st recs : records :=
  match (AllocateOrOccupyCIDR (Some node) st).1, gained node st with
  | Ok _, Some (cc, cidrs) => <[(node_Name node, cc) := cidrs]> recs
  | _, _ => recs
  end.

(** A record goes with its association. *)
Definition settled st recs : records := filter (λ '(k, _), associated st k.1 k.2 = true) recs.

(** * What the objects show *)

Definition shows (node : Node) (bs : list cidr) : Prop := Forall2 (λ t b, parses t b ∧ cidr_valid b) (PodCIDRs node) bs.

(** The mapped ClusterCIDRs that a CIDR of the list overlaps have node blocks of its size. *)
Definition block_sized st (l : list cidr) : Prop :=
  ∀ cc f v p s, mapped st cc → (f, v, p) ∈ l → set_at st (cc, f) = Some s →
    overlaps (set_ClusterCIDR s) (block (fam_width f) v p) = true → NodeMaskSize s = p.

Definition foreign recs (bs : list cidr) : Prop :=
  ForallOrdPairs disjoint_nets (cidr_net <$> bs) ∧
  ∀ k l b c, recs !! k = Some l → b ∈ l → c ∈ bs → disjoint_nets (cidr_net c) b.

(** A node object with PodCIDRs that comes to be occupied: its CIDRs have the block
    size of the ClusterCIDRs they overlap, and are recorded for this node, or share
    no address with each other and with any record. *)
Definition arrives st recs (node : Node) : Prop :=
  PodCIDRs node ≠ [] → ∃ bs, shows node bs ∧ block_sized st bs ∧
    ((∃ cc, recs !! (node_Name node, cc) = Some (cidr_net <$> bs)) ∨ foreign recs bs).

(** A node object that is released while a node of its name is associated: its
    PodCIDRs are recorded for that node. *)
Definition leaves recs (node : Node) : Prop :=
  PodCIDRs node ≠ [] → ∀ cc, is_Some (recs !! (node_Name node, cc)) →
    ∃ bs cc', shows node bs ∧ recs !! (node_Name node, cc') = Some (cidr_net <$> bs).

Inductive system (Wok : World → Prop) st0 recs0 : AllocState → records → Prop :=
| sys_start : system Wok st0 recs0 st0 recs0
| sys_allocate st recs node r st' : system Wok st0 recs0 st recs → node_ok node → arrives st recs node →
    AllocateOrOccupyCIDR (Some node) st = (r, st') → system Wok st0 recs0 st' (noted node st recs)
| sys_release st recs node r st' : system Wok st0 recs0 st recs → node_ok node → leaves recs node →
    ReleaseCIDR (Some node) st = (r, st') → system Wok st0 recs0 st' (settled st' recs)
| sys_create st recs c r st' : system Wok st0 recs0 st recs → readable c →
    reconcileCreate c st = (r, st') → system Wok st0 recs0 st' recs
| sys_delete st recs c r st' : system Wok st0 recs0 st recs →
    reconcileDelete c st = (r, st') → system Wok st0 recs0 st' recs
| sys_world st recs w : system Wok st0 recs0 st recs → Wok w → system Wok st0 recs0 (with_world w st) recs.

Record isolates st recs : Prop := {
  il_assoc n cc : associated st n cc = true ↔ is_Some (recs !! (n, cc));
  il_held n cc l b : recs !! (n, cc) = Some l → b ∈ l → held st cc b;
  il_apart n m cc cc' l l' b b' : recs !! (n, cc) = Some l → recs !! (m, cc') = Some l' → n ≠ m → b ∈ l → b' ∈ l' → disjoint_nets b b';
  il_own n cc cc' l l' : recs !! (n, cc) = Some l → recs !! (n, cc') = Some l' → l = l' ∨ ∀ b b', b ∈ l → b' ∈ l' → disjoint_nets b b';
  il_self n cc l : recs !! (n, cc) = Some l → ForallOrdPairs disjoint_nets l
}.
End system.

(** * What is held *)

(** Two blocks that overlap contain the base of one of them. *)
Lemma overlaps_share w v1 p1 v2 p2 : valid_block w v1 p1 → valid_block w v2 p2 → overlaps (block w v1 p1) (block w v2 p2) = true →
  ∃ x, valid_addr w x ∧ Contains (block w v1 p1) (ipOf w x) = true ∧ Contains (block w v2 p2) (ipOf w x) = true.
Proof.
  intros V1 V2 Ho. apply (overlaps_div w v1 p1 v2 p2 V1 V2) in Ho. destruct V1 as [A1 L1 _], V2 as [A2 L2 _].
  destruct Ho as [Ho|Ho]; [exists v2|exists v1]; (split; [done|]); rewrite !Contains_block by done; by rewrite !bool_decide_eq_true.
Qed.

(** Aligned blocks of one size with a common address start at the same place. *)
Lemma aligned_same h v u x : 0 ≤ h → v mod 2 ^ h = 0 → u mod 2 ^ h = 0 → v ≤ x < v + 2 ^ h → u ≤ x < u + 2 ^ h → v = u.
Proof.
  intros Hh Hv Hu Hx Hx'. pose proof (pow2_pos h Hh). apply Z.mod_divide in Hv as [a ->]; [|lia]. apply Z.mod_divide in Hu as [b ->]; [|lia].
  assert (a = b) as -> by nia. done.
Qed.

(** A CIDR of the size of the node blocks that overlaps the cluster CIDR is one of
    the node blocks. *)
Lemma sized_block L v : layout_ok L → valid_block (width L) v (nlen L) →
  overlaps (cluster_block L) (block (width L) v (nlen L)) = true →
  ∃ i, i ∈ touched L v (nlen L) ∧ block (width L) v (nlen L) = node_block L i.
Proof.
  intros HL Hv (x & Hc & Hx)%overlaps_spec; [|apply HL|done]. pose proof (index_of_bound L HL x Hc) as Hi.
  exists (index_of L x). split.
  - apply elem_of_touched. split; [done|]. apply (touches_spec L HL); [done..|]. by exists x.
  - pose proof (node_block_valid L HL _ Hi) as Hn. pose proof (proj2 (index_of_in_block L HL x _) eq_refl) as Hxn. unfold node_block.
    f_equal. apply (aligned_same (width L - nlen L) _ _ x); [apply (hostbits_nonneg L HL)|apply Hv|apply Hn|exact Hx|exact Hxn].
Qed.

Section held.
Context `{HN : !NetUtils} `{HLb : !Labels} `{HC : !Cluster} `{HI : !MapIter}.
Implicit Types (st : AllocState) (recs : records).

Lemma shows_valid node bs c : shows node bs → c ∈ bs → cidr_valid c.
Proof using. intros Hs [i Hi]%list_elem_of_lookup_1. by destruct (Forall2_lookup_r _ _ _ _ _ Hs Hi) as (t & _ & _ & ?). Qed.

Lemma shows_node_ok node bs : shows node bs → node_ok node.
Proof using.
  unfold node_ok, shows. intros Hl. eapply Forall2_Forall_l; [exact Hl|]. apply Forall_forall. intros [[f v] p] _ t [[ip Hp] Hv] ip' n E.
  rewrite Hp in E. injection E as <- <-. by exists f, v, p.
Qed.

(** The parsed PodCIDRs of a node. *)
Lemma podCIDRs_parsed node : node_ok node →
  ∃ bs, podCIDRs_within bs node ∧ ∀ c, c ∈ bs → cidr_valid c ∧ ∃ t ip, t ∈ PodCIDRs node ∧ ParseCIDRSloppy t = inr (ip, cidr_net c).
Proof using.
  unfold node_ok, podCIDRs_within. generalize (PodCIDRs node) as l. induction l as [|t l IH]; intros Hl.
  { exists []. split; [by intros ? ? ? ?%elem_of_nil|by intros ? ?%elem_of_nil]. }
  apply Forall_cons in Hl as [Ht Hl]. destruct (IH Hl) as (bs & H1 & H2).
  assert (∀ c, c ∈ bs → cidr_valid c ∧ ∃ t0 ip, t0 ∈ t :: l ∧ ParseCIDRSloppy t0 = inr (ip, cidr_net c)) as H2'.
  { intros c Hc. destruct (H2 c Hc) as (Hv & t0 & ip & Hin & E). split; [done|]. exists t0, ip. split; [by right|done]. }
  destruct (ParseCIDRSloppy t) as [e|[ip n]] eqn:E.
  - exists bs. split; [|done]. intros t0 ip0 n0 [->|Hin]%elem_of_cons E0; [congruence|by eapply H1].
  - destruct (Ht ip n E) as (f & v & p & Hv & ->). exists ((f, v, p) :: bs). split.
    + intros t0 ip0 n0 [->|Hin]%elem_of_cons E0.
      * rewrite E in E0. injection E0 as <- <-. exists (f, v, p). split; [by left|done].
      * destruct (H1 t0 ip0 n0 Hin E0) as (b & Hb & ?). exists b. split; [by right|done].
    + intros c [->|Hc]%elem_of_cons; [|by apply H2']. split; [done|]. exists t, ip. split; [by left|done].
Qed.

Lemma shows_nets node bs : shows node bs → podNets node = cidr_net <$> bs.
Proof using.
  unfold shows, podNets. induction 1 as [|t b l bs [[ip Hp] _] _ IH]; [done|]. cbn [omap list_omap]. by rewrite Hp, IH.
Qed.

(** Blocks that meet no CIDR that is given back stay held. *)
Lemma held_kept bs st st' cc b : loses [] bs st st' → mapped st' cc →
  (∀ c, c ∈ bs → cidr_valid c ∧ disjoint_nets (cidr_net c) b) → held st cc b → held st' cc b.
Proof using.
  intros Hl Hm' Hbs (f & s & L & A & i & Hm & Hs & Hv & Hi & ->).
  destruct (ls_set _ _ _ _ Hl cc f s L A Hs Hv) as (s' & A' & Hs' & Hv' & HA). exists f, s', L, A', i.
  split_and!; [done|done|done| |done]. apply HA, elem_of_difference. split; [done|].
  intros (v & p & Hin & Ht)%elem_of_cover. destruct (Hbs _ Hin) as [Hc Hd]. simpl in Hc.
  pose proof (view_bound _ _ _ _ _ Hv Hi) as Hb.
  apply elem_of_touched in Ht as [_ Ht]. unfold touches in Ht. destruct (view_block f s L A i Hv Hb) as [E Hvb].
  rewrite E, (sv_width _ _ _ _ Hv) in Ht. destruct (overlaps_share _ _ _ _ _ Hvb Hc Ht) as (x & Hx & H1 & H2).
  apply (Hd (fam_width f) x Hx). simpl. by rewrite E.
Qed.

Lemma associate_held name cc st cc' b : held st cc' b → held (associate name cc st) cc' b.
Proof using.
  intros (f & s & L & A & i & Hm & Hs & Hr). exists f, s, L, A, i. split; [done|]. split; [|done].
  apply set_at_Some in Hs as (c & Hc & Hs). apply set_at_Some. simpl. rewrite lookup_alter. case_decide as E.
  - subst cc'. rewrite Hc. eexists. split; [done|]. by destruct f.
  - by exists c.
Qed.

Lemma associate_associated name cc st : is_Some (objs st !! cc) → associated (associate name cc st) name cc = true.
Proof using. intros [c Hc]. unfold associated. simpl. rewrite lookup_alter_eq, Hc. simpl. by rewrite lookup_insert_eq. Qed.

Lemma associate_other name cc st n k : (n, k) ≠ (name, cc) → associated (associate name cc st) n k = associated st n k.
Proof using.
  intros Hne. unfold associated. simpl. rewrite lookup_alter. case_decide as E; [|done]. subst k.
  destruct (objs st !! cc) as [c|]; [|done]. simpl. by rewrite lookup_insert_ne by congruence.
Qed.

(** Recorded CIDRs of the size of the blocks are held. *)
Lemma occupied_held st l cc b : block_sized st l → mapped st cc → occupied_in st cc l → b ∈ l → cidr_valid b → held st cc (cidr_net b).
Proof using.
  intros Hsz Hm Ho Hb Hval. destruct b as [[f v] p]. destruct (Ho f v p Hb) as (s & L & A & Hs & Hv & Hov & HA).
  pose proof (sv_ok _ _ _ _ Hv) as HL. pose proof (sv_width _ _ _ _ Hv) as HW.
  assert (NodeMaskSize s = p) as <- by (apply (Hsz cc f v p s Hm Hb Hs); by rewrite (view_cluster _ _ _ _ Hv)).
  rewrite (sl_node _ _ (si_layout _ _ _ (sv_inv _ _ _ _ Hv))) in *. simpl in *. rewrite <- HW in *.
  destruct (sized_block L v HL Hval Hov) as (i & Hi & Ei). exists f, s, L, A, i. split_and!; [done..|by apply HA|done].
Qed.

Lemma grows_sized st st' l : grows st st' → block_sized st l → block_sized st' l.
Proof using.
  intros Hg Hsz cc f v p s' Hm Hin Hs' Ho. destruct (grows_present st st' cc f Hg) as [s Hs]; [by exists s'|].
  destruct (gr_set _ _ Hg _ _ _ Hs) as (s1 & Hs1 & Hp & _). rewrite Hs' in Hs1. injection Hs1 as <-.
  pose proof (f_equal set_ClusterCIDR Hp) as Ec. pose proof (f_equal NodeMaskSize Hp) as En. simpl in Ec, En. rewrite En.
  apply (Hsz cc f v p s); [by apply (same_mapped st st'); [apply Hg|]|done|done|by rewrite <- Ec].
Qed.

(** A held CIDR lies in the range of its ClusterCIDR. *)
Lemma held_in_range st cc c : held st cc (cidr_net c) → cidr_valid c → in_range st cc c.
Proof using.
  intros (f & s & L & A & i & Hm & Hs & Hv & Hi & E) Hc. destruct c as [[g v] p]. pose proof (view_bound _ _ _ _ _ Hv Hi) as Hb.
  destruct (view_block f s L A i Hv Hb) as [En Hvb]. rewrite En in E. simpl in E, Hc.
  assert (g = f) as ->.
  { apply (block_inj _ v p _ (node_addr L i) (nlen L)) in E as (Ew & _); [|done..]. by destruct f, g. }
  split; [done|]. exists s. split; [done|]. rewrite (view_cluster f s L A Hv). simpl. rewrite E, <- En.
  apply node_block_in_cluster; [apply Hv|done].
Qed.
End held.

(** * The records after an allocation *)

Section allocating.
Context `{HN : !NetUtils} `{HLb : !Labels} `{HC : !Cluster} `{HI : !MapIter}.
Context (HNL : NetUtilsLaws HN) (HIL : MapIterLaws HI) (sel : Selector) (Hsel : nodeSelectorAsSelector (Some defaultNodeSelector) = Ok sel).
Implicit Types (st : AllocState) (recs : records).

Definition same_assoc st st' : Prop := ∀ n l, associated st' n l = associated st n l.

#[local] Instance same_assoc_preorder : PreOrder same_assoc.
Proof using. split; [by intros st n l|]. intros s1 s2 s3 H1 H2 n l. by rewrite H2. Qed.

Lemma frames_assoc st st' : (∀ l, frame <$> objs st' !! l = frame <$> objs st !! l) → same_assoc st st'.
Proof using. intros Hf n l. by apply frame_associated. Qed.

Lemma grows_assoc st st' : grows st st' → same_assoc st st'.
Proof using. intros Hg. apply frames_assoc, Hg. Qed.

Lemma changed_assoc cc g st st' : changed cc g st st' → same_assoc st st'.
Proof using. intros Hch. apply frames_assoc, Hch. Qed.

Lemma isolates_same st st' recs : loses [] [] st st' → same_assoc st st' → isolates st recs → isolates st' recs.
Proof using.
  intros Hl Ha [Has Hh Hd Ho Hs]. split; [intros n cc; by rewrite Ha| |done..]. intros n cc l b Hr Hb.
  assert (associated st n cc = true) as Hn by (apply Has; by exists l).
  apply (held_kept [] st); [done| |by intros c ?%elem_of_nil|by eapply Hh].
  apply (ls_mapped _ _ _ _ Hl n); [apply not_elem_of_nil|done|]. destruct (Hh n cc l b Hr Hb) as (f & s & L & A & i & Hm & _). exact Hm.
Qed.

(** CIDRs that may be recorded for the node. *)
Definition fits recs (name : string) (l : list IPNet) : Prop :=
  ForallOrdPairs disjoint_nets l ∧
  ∀ n cc l', recs !! (n, cc) = Some l' → (n = name ∧ l' = l) ∨ ∀ b b', b ∈ l → b' ∈ l' → disjoint_nets b b'.

Lemma isolates_noted st st' recs name cc l : loses [] [] st st' → isolates st recs → fits recs name l →
  (∀ n k, associated st' n k = true ↔ associated st n k = true ∨ (n, k) = (name, cc)) →
  (∀ b, b ∈ l → held st' cc b) → isolates st' (<[(name, cc) := l]> recs).
Proof using.
  intros Hl [Has Hh Hd Ho Hs] [Hself Hfit] Ha Hheld. split.
  - intros n k. rewrite Ha, Has, lookup_insert_is_Some'. naive_solver.
  - intros n k l' b. rewrite lookup_insert. case_decide as E; [injection E as <- <-; intros [= <-]; apply Hheld|]. intros Hr Hb.
    assert (associated st n k = true) as Hn by (apply Has; by exists l').
    apply (held_kept [] st); [done| |by intros c ?%elem_of_nil|by eapply Hh].
    apply (ls_mapped _ _ _ _ Hl n); [apply not_elem_of_nil|done|]. by destruct (Hh n k l' b Hr Hb) as (f & s & L & A & i & Hm & _).
  - intros n m k k' l1 l2 b b'. rewrite !lookup_insert. repeat case_decide; simplify_eq; intros H1 H2 Hne Hb Hb'; simplify_eq.
    + destruct (Hfit _ _ _ H2) as [[]|Hx]; [congruence|by apply Hx].
    + destruct (Hfit _ _ _ H1) as [[]|Hx]; [congruence|symmetry; by apply Hx].
    + by apply (Hd n m k k' l1 l2).
  - intros n k k' l1 l2. rewrite !lookup_insert. repeat case_decide; simplify_eq; intros H1 H2; simplify_eq.
    + by left.
    + destruct (Hfit _ _ _ H2) as [[_ ->]|Hx]; [by left|by right].
    + destruct (Hfit _ _ _ H1) as [[_ ->]|Hx]; [by left|right]. intros b b' Hb Hb'. symmetry. by apply Hx.
    + by apply (Ho n k k').
  - intros n k l'. rewrite lookup_insert. case_decide; [by intros [= <-]|apply Hs].
Qed.

Lemma associate_cases st name cc n k : is_Some (objs st !! cc) →
  associated (associate name cc st) n k = true ↔ associated st n k = true ∨ (n, k) = (name, cc).
Proof using.
  intros Hcc. destruct (decide ((n, k) = (name, cc))) as [[= -> ->]|Hne]; [|rewrite associate_other by done; naive_solver].
  rewrite associate_associated by done. naive_solver.
Qed.

(** Fresh blocks fit: none shares an address with what is held. *)
Lemma fresh_fits st st' recs name cc l : isolates st recs → allocated_for st st' cc l → fits recs name l.
Proof using.
  intros His Ha. split; [by eapply allocated_disjoint|]. intros n k l' Hr. right. intros b b' Hb Hb'.
  destruct (allocated_fresh _ _ _ _ b Ha Hb) as [f Hf]. eapply fresh_disjoint; [exact Hf|]. by eapply il_held.
Qed.

Lemma arrived_fits st recs name bs : isolates st recs →
  (∃ cc, recs !! (name, cc) = Some (cidr_net <$> bs)) ∨ foreign recs bs → fits recs name (cidr_net <$> bs).
Proof using.
  intros His [[cc Hr]|[Hd Hf]].
  - split; [by eapply il_self|]. intros n k l' Hr'. destruct (decide (n = name)) as [->|Hne].
    + destruct (il_own _ _ His _ _ _ _ _ Hr' Hr) as [->|Hx]; [by left|right]. intros b b' Hb Hb'. symmetry. by apply Hx.
    + right. intros b b' Hb Hb'. eapply (il_apart _ _ His name n); [done..|congruence|done|done].
  - split; [done|]. intros n k l' Hr'. right. intros b b' Hb Hb'. apply list_elem_of_fmap in Hb as (c & -> & Hc). by eapply Hf.
Qed.

(** A node without PodCIDRs. *)
Lemma allocate_nil Wok (HWn : world_named Wok) st recs node : alloc_ok st → labels_ok st → Wok (world st) → isolates st recs → node_ok node →
  PodCIDRs node = [] → isolates (AllocateOrOccupyCIDR (Some node) st).2 (noted node st recs).
Proof using HNL HIL Hsel.
  intros Hok Hlab Hw His Hn Hnil.
  pose proof (kept_AllocateOrOccupyCIDR HNL HIL sel Hsel [] [] st node Hn st (kept_refl [] [] st Hok Hlab)) as (_ & _ & Hl).
  destruct (prioritized_walk HNL HIL st node sel Hok Hlab Hsel) as (ls & st0 & st1 & El & Hok1 & Hg & Hr).
  unfold noted, gained. rewrite decide_True by done. unfold AllocateOrOccupyCIDR in *. rewrite Hnil in *. cbn [length Nat.ltb Nat.leb] in *.
  destruct Hr as [(cidrs & cc & pre & post & st2 & Els & _ & _ & _ & E & Ha)|[_ E]].
  2: { rewrite (M_bind_Ok _ _ _ _ _ (attempt_Err _ _ _ _ E)) in *. simpl in *. apply (isolates_same st); [done| |done]. by apply grows_assoc in Hg. }
  assert (mapped st cc) as Hm.
  { eapply (matching_mapped HIL); [done..|by rewrite El|]. rewrite Els. apply elem_of_app. right. by left. }
  pose proof (allocated_nonempty st st1 cc cidrs Hok Hm Ha) as Hne. destruct (allocated_bs st st1 cc cidrs Hg Ha) as (bs & -> & Hbs).
  assert (is_Some (objs st1 !! cc)) as Hcc by (by apply (grows_obj st), (ao_mapped _ Hok)).
  rewrite (M_bind_Ok _ _ _ _ _ (attempt_Ok _ _ _ _ E)) in *. rewrite E. cbn [fst].
  destruct (Nat.eqb_spec (length (cidr_net <$> bs)) 0) as [Hlen|_]; [by apply nil_length_inv in Hlen|].
  destruct (update_run HNL st1 (node_Name node) cc bs Hok1 Hcc Hbs ltac:(by intros ->)) as (r & st' & Eu & Hout).
  rewrite Eu in *. simpl in Hl |- *. unfold update_outcome in Hout. rewrite (se_world _ _ (gr_env _ _ Hg)) in Hout.
  pose proof (grows_assoc _ _ Hg) as Hga.
  destruct (nodeLister_Get (world st) (node_Name node)) as [e|node'] eqn:En.
  { destruct Hout as [-> ->]. by apply (isolates_same st). }
  pose proof (wn_node _ HWn _ _ _ Hw En) as Ename. case_decide as Htx.
  { destruct Hout as [-> ->]. rewrite decide_False by (rewrite Htx; by destruct bs). by apply (isolates_same st). }
  case_decide as Hnil'.
  2: { destruct Hout as [-> Hch]. apply (isolates_same st); [done| |done]. etransitivity; [exact Hga|by eapply changed_assoc]. }
  destruct Hout as [(k & _ & _ & _ & -> & ->)|(e & _ & _ & -> & Hend)].
  - rewrite Ename in *. apply (isolates_noted st); [done|done|by eapply fresh_fits| |].
    + intros n l. rewrite associate_cases by done. by rewrite <- (Hga n l).
    + intros b Hb. apply associate_held. destruct (allocated_fresh _ _ _ _ b Ha Hb) as [f Hf].
      change (held st1 cc b). eapply fresh_held; [|exact Hf]. by eapply grows_mapped.
  - apply (isolates_same st); [done| |done]. etransitivity; [exact Hga|]. destruct (IsServerTimeout e); [by subst st'|].
    by apply changed_assoc in Hend.
Qed.

(** A node with PodCIDRs. *)
Lemma occupant_walk st node bs (ls : list loc) : alloc_ok st → (∀ cc, cc ∈ ls → is_Some (objs st !! cc)) → shows node bs →
  (forReturn ls (λ clusterCIDR,
     occupiedCount ← occupyLoop clusterCIDR node (PodCIDRs node) 0;
     mret (if occupiedCount =? Z.of_nat (length (PodCIDRs node)) then Some clusterCIDR else None)) st).1
  = match occupier st ls bs with Some (cc, Takes) => Ok (Some cc) | None => Ok None | Some _ => Panic NilDereference end.
Proof using HNL.
  intros Hok Hls Hbs. revert st Hok Hls. induction ls as [|cc ls IH]; intros st Hok Hls; [done|].
  pose proof (Hls cc ltac:(by left)) as Hcc. set (body := λ clusterCIDR, _) in *.
  destruct (occupyLoop_run HNL cc node (PodCIDRs node) bs 0 st Hok Hcc Hbs) as (r & st1 & E & Hok1 & Hg1 & Hcase).
  cbn [occupier]. destruct (trial st cc bs).
  - destruct Hcase as [-> _]. erewrite forReturn_stop; [done|]. unfold body. mstep E. by rewrite Z.add_0_l, Z.eqb_refl.
  - destruct Hcase as (k & -> & Hk). rewrite (forReturn_next cc ls body st st1).
    + rewrite (IH st1 Hok1); [by rewrite (occupier_grows st st1 ls bs Hg1)|]. intros k' Hk'. apply (grows_obj st); [done|]. apply Hls. by right.
    + unfold body. mstep E. by destruct (Z.eqb_spec k (Z.of_nat (length (PodCIDRs node)))); [lia|].
  - subst r. cbn [forReturn]. assert (body cc st = (Panic NilDereference, st1)) as Eb by (unfold body; by rewrite (M_bind_Panic _ _ _ _ _ E)).
    by rewrite (M_bind_Panic _ _ _ _ _ Eb).
Qed.

Lemma occupant_run st node bs ls : alloc_ok st → labels_ok st → shows node bs → (orderedMatchingClusterCIDRs node true st).1 = Ok ls →
  occupant node st = match occupier st ls bs with Some (cc, Takes) => Some cc | _ => None end.
Proof using HNL HIL Hsel.
  intros Hok Hlab Hbs El. destruct (ordered_run HIL st node true sel Hok Hlab Hsel) as (items & E & Hperm & _). rewrite E in El.
  injection El as El. unfold occupant. rewrite (M_bind_Ok _ _ _ _ _ E), El.
  pose proof (occupant_walk (with_iter st) node bs ls (alloc_ok_iter st Hok)) as Hw.
  rewrite (occupier_grows st (with_iter st)) in Hw.
  2: { split; [by split|done|done|]. intros l f s Hs. exists s. split; [done|reflexivity]. }
  destruct (forReturn _ _ _) as [r s]. simpl in Hw. rewrite Hw; [by destruct (occupier st ls bs) as [[? []]|]| |done].
  intros cc Hcc. apply (ao_mapped _ Hok), (ordered_mapped st node true sel items Hperm). by rewrite El.
Qed.

Lemma allocate_shown st recs node bs : alloc_ok st → labels_ok st → isolates st recs → PodCIDRs node ≠ [] → shows node bs →
  block_sized st bs → fits recs (node_Name node) (cidr_net <$> bs) →
  isolates (AllocateOrOccupyCIDR (Some node) st).2 (noted node st recs).
Proof using HNL HIL Hsel.
  intros Hok Hlab His Hne Hbs Hsz Hfit. pose proof (shows_node_ok _ _ Hbs) as Hn.
  pose proof (kept_AllocateOrOccupyCIDR HNL HIL sel Hsel [] [] st node Hn st (kept_refl [] [] st Hok Hlab)) as (_ & _ & Hl).
  destruct (occupyCIDRs_run HNL HIL st node sel bs Hok Hlab Hsel Hne Hbs) as (ls & st1 & El & Hm & Hok1 & Hg & Hr).
  unfold noted, gained. rewrite decide_False by done. rewrite (occupant_run st node bs ls Hok Hlab Hbs El).
  assert (AllocateOrOccupyCIDR (Some node) st = occupyCIDRs node st) as Ea.
  { unfold AllocateOrOccupyCIDR. destruct (Nat.ltb_spec 0 (length (PodCIDRs node))) as [|Hlen]; [done|].
    destruct Hne. apply nil_length_inv. lia. }
  rewrite Ea in *. pose proof (grows_assoc _ _ Hg) as Hga. destruct (occupier st ls bs) as [[cc []]|].
  - destruct Hr as (Hcc & Er & Hocc). rewrite Er in *. simpl in Hl |- *. rewrite (shows_nets _ _ Hbs).
    pose proof (grows_mapped st st1 cc Hg (Hm cc Hcc)) as Hm1.
    apply (isolates_noted st); [done|done|done| |].
    + intros n k. rewrite associate_cases by (by apply (ao_mapped _ Hok1)). by rewrite <- (Hga n k).
    + intros b (c & -> & Hc)%list_elem_of_fmap. apply associate_held.
      apply (occupied_held st1 bs); [by apply (grows_sized st)|done|done|done|by eapply shows_valid].
  - rewrite Hr in *. simpl in *. by apply (isolates_same st).
  - rewrite Hr in *. simpl in *. by apply (isolates_same st).
  - rewrite Hr in *. simpl in *. by apply (isolates_same st).
Qed.

Lemma allocate_isolates Wok (HWn : world_named Wok) st recs node r st' : alloc_ok st → labels_ok st → Wok (world st) → isolates st recs →
  node_ok node → arrives st recs node → AllocateOrOccupyCIDR (Some node) st = (r, st') → isolates st' (noted node st recs).
Proof using HNL HIL Hsel.
  intros Hok Hlab Hw His Hn Harr E. replace st' with (AllocateOrOccupyCIDR (Some node) st).2 by (by rewrite E).
  destruct (decide (PodCIDRs node = [])) as [Hnil|Hne]; [by eapply allocate_nil|].
  destruct (Harr Hne) as (bs & Hbs & Hsz & Hcase). eapply allocate_shown; [done..|by eapply arrived_fits].
Qed.
End allocating.

(** * The records after a release *)

Lemma diff_chain (A B C D E : gset Z) : A ∖ C ⊆ B → B ∖ D ⊆ E → A ∖ (C ∪ D) ⊆ E.
Proof. set_solver. Qed.

Section releasing.
Context `{HN : !NetUtils} `{HLb : !Labels} `{HC : !Cluster} `{HI : !MapIter}.
Context (HNL : NetUtilsLaws HN) (HIL : MapIterLaws HI) (sel : Selector) (Hsel : nodeSelectorAsSelector (Some defaultNodeSelector) = Ok sel).
Implicit Types (st : AllocState) (recs : records).

(** No association is new. *)
Definition fewer st st' : Prop := ∀ n l, associated st' n l = true → associated st n l = true.

Lemma settled_assoc st st' recs n cc : (∀ n cc, associated st n cc = true ↔ is_Some (recs !! (n, cc))) → fewer st st' →
  associated st' n cc = true ↔ is_Some (settled st' recs !! (n, cc)).
Proof using.
  intros Has Hf. unfold settled. split.
  - intros Ha. destruct (proj1 (Has n cc) (Hf _ _ Ha)) as [l Hl]. exists l. apply map_lookup_filter_Some. by split.
  - intros [l [_ Ha]%map_lookup_filter_Some]. exact Ha.
Qed.

Lemma settled_sub st recs k l : settled st recs !! k = Some l → recs !! k = Some l ∧ associated st k.1 k.2 = true.
Proof using. unfold settled. by intros [? ?]%map_lookup_filter_Some. Qed.

Lemma settled_same st st' recs : isolates st recs → same_assoc st st' → settled st' recs = recs.
Proof using.
  intros His Ha. unfold settled. apply map_filter_id. intros [n k] l Hr. simpl. rewrite Ha. apply (il_assoc _ _ His). by exists l.
Qed.

(** The loop of [ReleaseCIDR], whatever becomes of it: at most blocks that the CIDRs
    meet are freed, in this one ClusterCIDR. *)
Definition releaseBody (node : Node) (clusterCIDR : loc) (t : string) : M AllocState unit :=
  match ParseCIDRSloppy t with
  | inl err => fail (ErrorfW "failed to parse CIDR %q on Node %q: %w" [t; node_Name node] err)
  | inr (_, podCIDR) =>
      c ← getObj clusterCIDR;
      wrapErr (ErrorfW "failed to release cidr %q from clusterCIDR %q for node %q: %w" [t; Name c; node_Name node])
        (Release clusterCIDR podCIDR)
  end.

Lemma releaseBody_effect node cc t b st : alloc_ok st → is_Some (objs st !! cc) → parses t b → cidr_valid b →
  ∃ g r st', releaseBody node cc t st = (r, st') ∧ (∀ f L A, A ∖ cover f L [b] ⊆ g f L A) ∧ changed cc g st st'.
Proof using HNL.
  intros Hok [c Hc] [ip Hp] Hb. unfold releaseBody. rewrite Hp. mstep (getObj_run st cc c Hc).
  destruct (Release_effect HNL st cc b Hok Hb) as (g & Hg & Hch). exists g. unfold wrapErr.
  destruct (Release cc (cidr_net b) st) as [[u|e|p] st']; by eexists _, st'.
Qed.

Lemma releaseLoop_effect node cc texts bs st : alloc_ok st → is_Some (objs st !! cc) →
  Forall2 (λ t b, parses t b ∧ cidr_valid b) texts bs →
  ∃ g r st', forM_ texts (releaseBody node cc) st = (r, st') ∧ (∀ f L A, A ∖ cover f L bs ⊆ g f L A) ∧ changed cc g st st'.
Proof using HNL.
  intros Hok Hcc Hbs. revert st Hok Hcc. induction Hbs as [|t b texts bs [Hp Hb] _ IH]; intros st Hok Hcc.
  { exists (λ _ _ A, A), (Ok tt), st. split; [done|]. split; [intros f L A; apply subseteq_diff; reflexivity|apply changed_refl]. }
  destruct (releaseBody_effect node cc t b st Hok Hcc Hp Hb) as (g & r & st1 & E & Hg & Hch). cbn [forM_].
  assert (∀ f L A, A ∖ cover f L (b :: bs) ⊆ g f L A) as Hg'.
  { intros f L A. rewrite cover_cons. eapply diff_more; [|apply Hg]. apply union_subseteq_l. }
  destruct r as [[]|e|p]; [|by exists g, (Err e), st1; rewrite (M_bind_Err _ _ _ _ _ E)|by exists g, (Panic p), st1; rewrite (M_bind_Panic _ _ _ _ _ E)].
  destruct (IH st1) as (h & r & st2 & E2 & Hh & Hch2); [by eapply changed_ok| |].
  { pose proof (ch_frame _ _ _ _ Hch cc) as Hf. destruct Hcc as [c Hc]. rewrite Hc in Hf. apply fmap_Some in Hf as (c' & -> & _). by eexists. }
  exists (λ f L A, h f L (g f L A)), r, st2. split; [by rewrite (M_bind_Ok _ _ _ _ _ E)|]. split; [|by eapply changed_trans].
  intros f L A. rewrite cover_cons. apply (diff_chain A (g f L A)); [apply Hg|apply Hh].
Qed.

(** What stays recorded stays held: the sets of one ClusterCIDR lose blocks that the
    CIDRs meet, and the associations with it that are left have none of these. *)
Lemma isolates_settled st st1 st' recs cc0 bs g : isolates st recs → (∀ f L A, A ∖ cover f L bs ⊆ g f L A) → changed cc0 g st st1 →
  cidrMap st' = cidrMap st1 → (∀ p, set_at st' p = set_at st1 p) → fewer st1 st' → (∀ c, c ∈ bs → cidr_valid c) →
  (∀ n l c b, recs !! (n, cc0) = Some l → associated st' n cc0 = true → c ∈ bs → b ∈ l → disjoint_nets (cidr_net c) b) →
  isolates st' (settled st' recs).
Proof using.
  intros His Hg Hch Em Es Hf Hbs Hd.
  assert (fewer st st') as Hf' by (intros n l Ha; rewrite <- (changed_assoc _ _ _ _ Hch n l); by apply Hf).
  pose proof His as [Has Hh Hap Ho Hs]. split.
  - intros n cc. by apply (settled_assoc st).
  - intros n cc l b [Hr Ha]%settled_sub Hb. simpl in Ha. pose proof (Hh n cc l b Hr Hb) as Hhb.
    assert (held st1 cc b) as (f & s & L & A & i & Hm & Hs1 & Hrest).
    { destruct (decide (cc = cc0)) as [->|Hne].
      - apply (held_kept bs st); [by eapply changed_loses| | |done].
        + destruct Hhb as (f & s & L & A & i & Hm & _). by apply (same_mapped st st1); [apply Hch|].
        + intros c Hc. split; [by apply Hbs|by eapply Hd].
      - destruct Hhb as (f & s & L & A & i & Hm & Hs1 & Hrest). exists f, s, L, A, i. split; [by apply (same_mapped st st1); [apply Hch|]|].
        split; [|done]. unfold set_at in *. simpl in *. by rewrite (ch_other _ _ _ _ Hch). }
    exists f, s, L, A, i. split; [unfold mapped in *; by rewrite Em|]. by rewrite Es.
  - intros n m k k' l l' b b' [Hr _]%settled_sub [Hr' _]%settled_sub. by apply (Hap n m k k').
  - intros n k k' l l' [Hr _]%settled_sub [Hr' _]%settled_sub. by apply (Ho n k k').
  - intros n k l [Hr _]%settled_sub. by apply (Hs n k).
Qed.

Lemma shows_in_range st cc node bs : shows node bs → Forall (in_range st cc) bs → Forall2 (λ t b, parses t b ∧ in_range st cc b) (PodCIDRs node) bs.
Proof using. unfold shows. induction 1 as [|t b l bs [Hp _] _ IH]; [constructor|]. intros [Hb Hbs]%Forall_cons. constructor; [done|by apply IH]. Qed.

Definition dissociate (name : string) (cc : loc) (c : ClusterCIDR) st : AllocState :=
  with_objs (<[cc := with_nodes (delete name) c]>) st.

Lemma dissociate_fewer name cc c st : objs st !! cc = Some c → fewer st (dissociate name cc c st) ∧ associated (dissociate name cc c st) name cc = false.
Proof using.
  intros Hc. unfold fewer, associated. simpl. split; [|by rewrite lookup_insert_eq; simpl; rewrite lookup_delete_eq].
  intros n l. rewrite lookup_insert. case_decide as E; [|done]. subst l. rewrite Hc. simpl. rewrite lookup_delete. by case_decide.
Qed.

Lemma isolates_dissociated st st1 recs name cc0 bs g c : isolates st recs → (∀ f L A, A ∖ cover f L bs ⊆ g f L A) → changed cc0 g st st1 →
  objs st1 !! cc0 = Some c → (∀ c, c ∈ bs → cidr_valid c) →
  (∀ n l c b, n ≠ name → recs !! (n, cc0) = Some l → c ∈ bs → b ∈ l → disjoint_nets (cidr_net c) b) →
  isolates (dissociate name cc0 c st1) (settled (dissociate name cc0 c st1) recs).
Proof using.
  intros His Hg Hch Hc Hbs Hd. destruct (dissociate_fewer name cc0 c st1 Hc) as [Hf Hno].
  apply (isolates_settled st st1 _ recs cc0 bs g); [done..| |done|done|].
  - intros p. by apply set_at_nodes.
  - intros n l c' b Hr Ha. apply (Hd n l c' b); [|done]. intros ->. congruence.
Qed.

Lemma release_isolates st recs node r st' : alloc_ok st → labels_ok st → isolates st recs → leaves recs node →
  ReleaseCIDR (Some node) st = (r, st') → isolates st' (settled st' recs).
Proof using HNL HIL Hsel.
  intros Hok Hlab His Hlv E. assert (same_assoc st (with_iter st)) as Hia by done.
  unfold ReleaseCIDR in E. destruct (Nat.eqb_spec (length (PodCIDRs node)) 0) as [Hlen|Hlen].
  { injection E as _ <-. by rewrite (settled_same st st). }
  assert (PodCIDRs node ≠ []) as Hne by (intros Hnil; by rewrite Hnil in Hlen).
  destruct (allocated_run HIL st node sel Hok Hlab Hsel) as (ls & _ & Ea).
  destruct (find _ ls) as [cc0|] eqn:Hf.
  2: { rewrite (M_bind_Err _ _ _ _ _ Ea) in E. injection E as _ <-. rewrite (settled_same st) by done.
       apply (isolates_same st); [apply (loses_same [] [] st st); [done|done|reflexivity]|done|done]. }
  apply find_some in Hf as [_ Ha0]. destruct (proj1 (il_assoc _ _ His _ _) Ha0) as [l0 Hl0].
  destruct (Hlv Hne cc0) as (bs & cc' & Hbs & Hr'); [by exists l0|].
  assert (∀ c, c ∈ bs → cidr_valid c) as Hval by (intros c; by apply (shows_valid node)).
  assert (∀ n l c b, n ≠ node_Name node → recs !! (n, cc0) = Some l → c ∈ bs → b ∈ l → disjoint_nets (cidr_net c) b) as Hapart.
  { intros n l c b Hn Hr Hc Hb. eapply (il_apart _ _ His (node_Name node) n); [exact Hr'|exact Hr|congruence| |done].
    apply list_elem_of_fmap. by exists c. }
  assert (is_Some (objs st !! cc0)) as Hobj by (unfold associated in Ha0; by destruct (objs st !! cc0)).
  destruct (il_own _ _ His _ _ _ _ _ Hl0 Hr') as [->|Hdis].
  - destruct (release_run HNL HIL st node sel cc0 bs Hok Hlab Hsel Hne) as (_ & st1 & c & Hch & Hc & Er); [by rewrite Ea| |].
    { apply shows_in_range; [done|]. apply Forall_forall. intros c Hc. apply held_in_range; [|by apply Hval].
      eapply (il_held _ _ His); [exact Hl0|]. apply list_elem_of_fmap. by exists c. }
    unfold ReleaseCIDR in Er. rewrite (proj2 (Nat.eqb_neq _ _) Hlen), E in Er. injection Er as _ ->.
    by apply (isolates_dissociated st st1 recs (node_Name node) cc0 bs (λ f L A, A ∖ cover f L bs)).
  - rewrite (M_bind_Ok _ _ _ _ _ Ea) in E. change (λ cidr, match ParseCIDRSloppy cidr with inl _ => _ | inr _ => _ end) with (releaseBody node cc0) in E.
    destruct (releaseLoop_effect node cc0 (PodCIDRs node) bs (with_iter st) (alloc_ok_iter st Hok) Hobj Hbs) as (g & q & st1 & El & Hg & Hch%changed_iter).
    assert (is_Some (objs st1 !! cc0)) as [c Hc].
    { pose proof (ch_frame _ _ _ _ Hch cc0) as Hfr. destruct Hobj as [c Hc]. rewrite Hc in Hfr. apply fmap_Some in Hfr as (c' & -> & _). by eexists. }
    assert (st' = dissociate (node_Name node) cc0 c st1 ∨ st' = st1) as [->| ->].
    { destruct q as [[]|e|p]; [rewrite (M_bind_Ok _ _ _ _ _ El), (updObj_run st1 cc0 c _ Hc) in E; injection E as _ <-; by left| |];
        [rewrite (M_bind_Err _ _ _ _ _ El) in E|rewrite (M_bind_Panic _ _ _ _ _ El) in E]; injection E as _ <-; by right. }
    + by apply (isolates_dissociated st st1 recs (node_Name node) cc0 bs g).
    + apply (isolates_settled st st1 st1 recs cc0 bs g); [done..|by intros n l|done|]. intros n l c' b Hr _ Hc' Hb.
      destruct (decide (n = node_Name node)) as [->|Hn]; [|by eapply Hapart]. rewrite Hl0 in Hr. injection Hr as <-.
      symmetry. apply Hdis; [done|]. apply list_elem_of_fmap. by exists c'.
Qed.

(** * The sections of ClusterCIDRs make and drop no association *)

Lemma fewer_frame st0 st st' : (∀ l, AssociatedNodes <$> objs st' !! l = AssociatedNodes <$> objs st !! l ∨ AssociatedNodes <$> objs st' !! l = Some ∅) →
  fewer st0 st → fewer st0 st'.
Proof using.
  intros Hl Hf n l Ha. apply Hf. unfold associated in *. destruct (Hl l) as [E|E]; destruct (objs st' !! l) as [c|]; [|done| |done].
  - destruct (objs st !! l) as [d|]; simpl in E; [|done]. by injection E as <-.
  - simpl in E. injection E as E. by rewrite E, lookup_empty in Ha.
Qed.

Lemma fewer_same st0 st st' : objs st' = objs st → fewer st0 st → fewer st0 st'.
Proof using. intros Ho. apply fewer_frame. intros l. left. by rewrite Ho. Qed.

Lemma fewer_createClusterCIDR st0 c b : preserves (fewer st0) (createClusterCIDR c b).
Proof using.
  unfold createClusterCIDR. apply preserves_bind; [preserve|intros key].
  apply (proj2 (preserves_keeps (fewer st0) _)).
  assert (∀ name n h, preserves (fewer st0) (newSetM name n h)) as Hnew.
  { intros name n h st Hst. unfold newSetM. destruct (NewMultiCIDRSet name n h (metrics st)). by apply (fewer_same st0 st). }
  assert (∀ m1 m2 name t h, preserves (fewer st0) (createSet m1 m2 name t h)) as Hcs by (intros; unfold createSet; preserve; apply Hnew).
  eapply (keeps_bind _ _ _ (λ o, AssociatedNodes o = ∅)).
  { apply keeps_wrapErr. unfold createClusterCIDRSet. cbn zeta. eapply keeps_bind; [apply preserves_keeps, Hcs|intros v4 _].
    eapply keeps_bind; [apply preserves_keeps, Hcs|intros v6 _]. by apply keeps_ret. }
  intros o Ho. apply preserves_keeps. case_match; [auto with stable|]. apply preserves_bind.
  - intros st Hst. apply (fewer_frame st0 st); [|done]. intros l. simpl. rewrite lookup_insert. case_decide; [right; simpl; by rewrite Ho|by left].
  - intros p. apply preserves_bind; [apply preserves_wrapErr|intros _; case_match; apply preserves_returnErr, preserves_callAPI; intros st; by apply fewer_same].
    assert (∀ name l, preserves (fewer st0) (containsName name l)) as Hcn.
    { intros name l. induction l as [|x l IH]; cbn [containsName]; preserve. }
    unfold mapClusterCIDRSet. preserve; try apply Hcn; apply preserves_modify; intros st; by apply fewer_same.
Qed.

Lemma fewer_filterOut st0 cidr : preserves (fewer st0) (filterOut cidr).
Proof using.
  assert (preserves (fewer st0) rangeMap) as Hr by (intros st; by apply fewer_same).
  assert (∀ A p (m : M SetState A), preserves (fewer st0) (onSet p m)) as Hon.
  { intros A p m st Hst. unfold onSet. destruct p as [[l f]|]; [|done]. destruct (objs st !! l) as [c|] eqn:Hc; [|done]. simpl.
    destruct (get_set f c) as [s|] eqn:Hs; [|done]. simpl. destruct (m (s, metrics st)) as [r [s' t']]. simpl.
    apply (fewer_frame st0 st); [|done]. intros k. left. simpl. rewrite lookup_insert. case_decide as E; [|done]. subst k. rewrite Hc. by destruct f. }
  destruct cidr as [n|]; [|by intros st Hst]. unfold filterOut, filterOutServiceRange, occupyServiceCIDR, Allocator.Occupy, associatedCIDRSet.
  preserve; apply Hr || apply Hon.
Qed.

Lemma fewer_deleteLoop st0 name key l i rest : preserves (fewer st0) (deleteLoop name key l i rest).
Proof using.
  revert i. induction rest as [|p rest IH]; intros i; cbn [deleteLoop]; [auto with stable|].
  apply preserves_bind; [auto with stable|intros c]. case_match; [apply IH|]. apply preserves_bind.
  - intros st Hst. destruct (objs st !! p) as [d|] eqn:Hd; [|unfold updObj, getObj, deref; mred; by rewrite Hd].
    rewrite (updObj_run st p d _ Hd). apply (fewer_frame st0 st); [|done]. intros k. left. simpl. rewrite lookup_insert.
    case_decide as E; [subst k; by rewrite Hd|done].
  - intros _. preserve; apply preserves_modify; intros st; by apply fewer_same.
Qed.

Lemma fewer_reconcileDelete st0 c : preserves (fewer st0) (reconcileDelete c).
Proof using.
  unfold reconcileDelete, deleteClusterCIDR. case_match; [|by intros st Hst].
  apply preserves_bind; [|intros _; apply preserves_returnErr, preserves_callAPI; intros st; by apply fewer_same].
  apply preserves_bind; [preserve|intros key]. apply preserves_bind; [auto with stable|intros st].
  case_match; [apply fewer_deleteLoop|auto with stable].
Qed.

Lemma clustercidr_isolates st recs (m : M AllocState unit) r st' : alloc_ok st → labels_ok st →
  preserves (Kept [] [] st) m → preserves (fewer st) m → isolates st recs → m st = (r, st') → isolates st' recs.
Proof using.
  intros Hok Hlab Hk Hf His E. destruct (Hk st (kept_refl [] [] st Hok Hlab)) as (_ & _ & Hl). pose proof (Hf st (λ n l H, H)) as Hst.
  rewrite E in Hl, Hst. simpl in *. apply (isolates_same st); [done| |done]. intros n l. apply eq_iff_eq_true. split; [apply Hst|].
  intros Ha. by apply (ls_assoc _ _ _ _ Hl n l); [apply not_elem_of_nil|].
Qed.
End releasing.
