(* ===== verification/SystemTheorems.v ===== *)
(** Isolation over whole runs of the controller ([system], Records.v), and the turns of
    the workers as parts of such a run. *)
From S2P Require Import Prelude GoNet CIDRTheory CIDRText NetUtils MultiCIDRSet IndexTheory IndexProps SetProps SetConstruction.
From S2P Require Import ContainerHeap PriorityQueue Kubernetes Allocator NodeHandlers ClusterCIDRHandlers EventHandlers Stable AllocatorInv AllocateProps MatchProps NodeProps Reference AllocatorKeeps Controller HandlerProps MapInv Examples AllocatorTheorems ReleaseProps HandlerTheorems NodeTheorems IsolationTheorems Retention Records.

Section steps.
Context `{HN : !NetUtils} `{HLb : !Labels} `{HC : !Cluster} `{HI : !MapIter}.
Context (HNL : NetUtilsLaws HN) (HIL : MapIterLaws HI) (sel : Selector) (Hsel : nodeSelectorAsSelector (Some defaultNodeSelector) = Ok sel).
Context (Wok : World → Prop) (HW : world_closed Wok) (HWn : world_named Wok).
Implicit Types (st : AllocState) (recs : records).

Record sys_inv st recs : Prop := {
  si_inv : Inv Wok st;
  si_labels : labels_ok st;
  si_isolates : isolates st recs
}.

Lemma keeps_end {A} (P : AllocState → Prop) (m : M AllocState A) Q st r st' : keeps P m Q → P st → m st = (r, st') → P st'.
Proof using. intros Hm Hst E. destruct (Hm st Hst) as [H _]. by rewrite E in H. Qed.

Lemma kept_labels N bs st (m : M AllocState unit) r st' : alloc_ok st → labels_ok st → preserves (Kept N bs st) m → m st = (r, st') → labels_ok st'.
Proof using. intros Hok Hlab Hm E. pose proof (Hm st (kept_refl N bs st Hok Hlab)) as (_ & H & _). by rewrite E in H. Qed.

Lemma allocate_inv st recs node r st' : sys_inv st recs → node_ok node → arrives st recs node →
  AllocateOrOccupyCIDR (Some node) st = (r, st') → sys_inv st' (noted node st recs).
Proof using HNL HIL Hsel HW HWn.
  intros [[Hok Hw] Hlab His] Hn Harr E. split.
  - eapply (keeps_end (Inv Wok)); [apply (keeps_AllocateOrOccupyCIDR HNL Wok HW (Some node)); by intros ? [= <-]|by split|exact E].
  - eapply (kept_labels [] []); [exact Hok|exact Hlab|apply (kept_AllocateOrOccupyCIDR HNL HIL sel Hsel [] [] st node Hn)|exact E].
  - by eapply (allocate_isolates HNL HIL sel Hsel Wok HWn).
Qed.

Lemma release_inv st recs node r st' : sys_inv st recs → node_ok node → leaves recs node →
  ReleaseCIDR (Some node) st = (r, st') → sys_inv st' (settled st' recs).
Proof using HNL HIL Hsel.
  intros [[Hok Hw] Hlab His] Hn Hlv E. destruct (podCIDRs_parsed node Hn) as (bs & Hin & _). split.
  - eapply (keeps_end (Inv Wok)); [apply (keeps_ReleaseCIDR HNL Wok (Some node)); by intros ? [= <-]|by split|exact E].
  - eapply (kept_labels [node_Name node] bs); [exact Hok|exact Hlab| |exact E].
    apply (kept_ReleaseCIDR HNL HIL sel Hsel); [by left|exact Hin].
  - by eapply (release_isolates HNL HIL sel Hsel).
Qed.

Lemma create_inv st recs c r st' : sys_inv st recs → readable c → reconcileCreate c st = (r, st') → sys_inv st' recs.
Proof using HNL HW.
  intros [[Hok Hw] Hlab His] [Hc Hk] E.
  assert (preserves (Kept [] [] st) (reconcileCreate c)) as Hkept by (by apply kept_createClusterCIDR). split.
  - eapply (keeps_end (Inv Wok)); [by apply (keeps_createClusterCIDR HNL Wok HW c false)|by split|exact E].
  - by eapply (kept_labels [] []); [exact Hok|exact Hlab|exact Hkept|exact E].
  - eapply clustercidr_isolates; [exact Hok|exact Hlab|exact Hkept|apply (fewer_createClusterCIDR st c false)|exact His|exact E].
Qed.

Lemma delete_inv st recs c r st' : sys_inv st recs → reconcileDelete c st = (r, st') → sys_inv st' recs.
Proof using HW.
  intros [[Hok Hw] Hlab His] E. split.
  - eapply (keeps_end (Inv Wok)); [by apply (keeps_reconcileDelete Wok HW c)|by split|exact E].
  - eapply (kept_labels [] []); [exact Hok|exact Hlab|apply kept_reconcileDelete|exact E].
  - eapply clustercidr_isolates; [exact Hok|exact Hlab|apply kept_reconcileDelete|apply fewer_reconcileDelete|exact His|exact E].
Qed.

Lemma world_inv st recs w : sys_inv st recs → Wok w → sys_inv (with_world w st) recs.
Proof using. intros [[[] _] Hlab [? ? ? ? ?]] Hw. split; [split; [by split|done]|done|by split]. Qed.

Lemma system_inv st0 recs0 st recs : sys_inv st0 recs0 → system Wok st0 recs0 st recs → sys_inv st recs.
Proof using HNL HIL Hsel HW HWn.
  intros H0 Hrun. induction Hrun; [done|by eapply allocate_inv|by eapply release_inv|by eapply create_inv|by eapply delete_inv|by apply world_inv].
Qed.
End steps.


(** n1 and n2 are served, a deletion of the ClusterCIDR of n2 is tried in vain, n1 is
    released when it is being deleted, n4 arrives with the CIDR n1 had, and then the
    delete callback releases n1 again. *)
Definition ex_dual_deleted : v1ClusterCIDR :=
  mkCC "dual" 2 "2" (Some 1) [clusterCIDRFinalizer] (cc_Spec ex_dual).
Definition ex_n1_deleted : Node := mkNode "n1" ∅ ["10.0.0.0/28"] (Some 1).
Definition ex_n4 : Node := ex_node "n4" ∅ ["10.0.0.0/28"].
Definition ex_world_deleted : refWorld :=
  mkWorld {["n1" := ex_n1_deleted; "n2" := ex_n2]} {["cc4" := ex_cc4; "dual" := ex_dual_deleted]} [] [] [].

Definition refNamed (w : refWorld) : Prop := refWok w ∧ (∀ k n, w_nodes w !! k = Some n → node_Name n = k) ∧
  (∀ k c key, w_ccs w !! k = Some c → nodeSelectorKey (H:=refLabels) c = Ok key → ∃ sel, labels_Parse (Labels:=refLabels) key = inr sel).

Lemma refNamed_closed : world_closed (HC:=refCluster) refNamed.
Proof.
  apply refWorld_closed_if; [by intros w []|]. intros w w' [En Ec] ([Hn Hc] & Hname & Hkey). unfold refNamed, refWok. rewrite En, Ec. done.
Qed.

Lemma refNamed_named : world_named (HLb:=refLabels) (HC:=refCluster) refNamed.
Proof.
  split.
  - intros w k n (_ & Hn & _) E. simpl in E. unfold refLookup in E. destruct (w_nodes w !! k) as [m|] eqn:Hm; [|done].
    injection E as <-. by apply Hn.
  - intros w k c key (_ & _ & Hk) E. simpl in E. unfold refLookup in E. destruct (w_ccs w !! k) as [m|] eqn:Hm; [|done].
    injection E as <-. by eapply Hk.
Qed.

Lemma ex_key c key : nodeSelectorKey (H:=refLabels) c = Ok key → spec_NodeSelector (cc_Spec c) = None ∨ spec_NodeSelector (cc_Spec c) = Some ex_selector →
  ∃ sel, labels_Parse (Labels:=refLabels) key = inr sel.
Proof.
  intros E [Hs|Hs]; unfold nodeSelectorKey in E; rewrite Hs in E; vm_compute in E; injection E as <-; eexists; vm_compute; reflexivity.
Qed.

Lemma ex_named n1 d : node_ok n1 → node_Name n1 = "n1" → cc_ok d → spec_NodeSelector (cc_Spec d) = Some ex_selector →
  ∀ ks, refNamed (mkWorld {["n1" := n1; "n2" := ex_n2]} {["cc4" := ex_cc4; "dual" := d]} ks [] []).
Proof.
  intros Hok Hname Hd Hs ks. split; [split|split]; simpl.
  - intros k n. rewrite lookup_insert, lookup_singleton. repeat case_decide; intros [= <-]; [done|by constructor].
  - intros k c. rewrite lookup_insert, lookup_singleton. repeat case_decide; intros [= <-]; [apply ex_cc4_ok|done].
  - intros k n. rewrite lookup_insert, lookup_singleton. repeat case_decide; intros [= <-]; by subst.
  - intros k c key. rewrite lookup_insert, lookup_singleton. repeat case_decide; intros [= <-] E; [by apply (ex_key ex_cc4); [|left]|].
    by apply (ex_key d); [|right].
Qed.

Lemma ex_n1_deleted_ok : node_ok ex_n1_deleted.
Proof.
  constructor; [|constructor]. apply (text_ok_block _ 32 (10 * 2 ^ 24) 28 V4); [done|vm_compute; reflexivity|by_decision].
Qed.

Lemma disjoint_blocks w v p w' v' p' : valid_block w v p → valid_block w' v' p' →
  (w ≠ w' ∨ overlaps (block w v p) (block w' v' p') = false) → disjoint_nets (block w v p) (block w' v' p').
Proof.
  intros Hb Hb' Hd u x Hx [H1 H2]. apply Contains_in_block in H1 as [-> H1]; [|done..].
  apply Contains_in_block in H2 as [-> H2]; [|done..]. destruct Hd as [|Ho]; [done|].
  assert (overlaps (block w' v p) (block w' v' p') = true); [|congruence]. apply overlaps_spec; [done..|by exists x].
Qed.

(** A call, with its result as computed. *)
Lemma call_result {S A} (m : M S A) (s : S) r : (m s).1 = r → m s = (r, (m s).2).
Proof. intros <-. apply surjective_pairing. Qed.


Definition ex_block : cidr := (V4, 10 * 2 ^ 24, 28).
Definition ex_sys1 : AllocState := (AllocateOrOccupyCIDR (Some ex_n1) ex_st).2.
Definition ex_sys2 : AllocState := (AllocateOrOccupyCIDR (Some ex_n2) ex_sys1).2.
Definition ex_sys3 : AllocState := with_world (HC:=refCluster) ex_world_deleted ex_sys2.
Definition ex_sys4 : AllocState := (reconcileDelete ex_dual_deleted ex_sys3).2.
Definition ex_sys5 : AllocState := (ReleaseCIDR (Some ex_n1_deleted) ex_sys4).2.
Definition ex_sys6 : AllocState := (AllocateOrOccupyCIDR (Some ex_n4) ex_sys5).2.
Definition ex_sys7 : AllocState := (ReleaseCIDR (Some ex_n1_deleted) ex_sys6).2.

Definition ex_rec2 : list IPNet := [block 32 (10 * 2 ^ 24 + 2 ^ 16) 28; block 128 (253 * 2 ^ 120) 124].
Definition ex_recs2 : records := noted ex_n2 ex_sys1 (noted ex_n1 ex_st ∅).
Definition ex_recs5 : records := settled ex_sys5 ex_recs2.
Definition ex_recs7 : records := settled ex_sys7 (noted ex_n4 ex_sys5 ex_recs5).

Lemma ex_recs2_eq : ex_recs2 = <[("n2", 2%positive) := ex_rec2]> (<[("n1", 1%positive) := [cidr_net ex_block]]> ∅).
Proof. vm_compute. reflexivity. Qed.
Lemma ex_recs5_eq : ex_recs5 = <[("n2", 2%positive) := ex_rec2]> ∅.
Proof. vm_compute. reflexivity. Qed.
Lemma ex_recs6_eq : noted ex_n4 ex_sys5 ex_recs5 = <[("n4", 1%positive) := [cidr_net ex_block]]> (<[("n2", 2%positive) := ex_rec2]> ∅).
Proof. vm_compute. reflexivity. Qed.

Lemma ex_shows node : PodCIDRs node = ["10.0.0.0/28"] → shows node [ex_block].
Proof. unfold shows. intros ->. constructor; [|constructor]. split; [eexists; vm_compute; reflexivity|by_decision]. Qed.

(** Both ClusterCIDRs have blocks of 28 bits. *)
Lemma ex_sized (st : AllocState (H:=refCluster)) (l : list cidr) :
  map_to_list (cidrMap st) = [("kubernetes.io/clusterCIDR in (default)", [1%positive]); ("zone in (a)", [2%positive])] →
  NodeMaskSize <$> set_at st (1%positive, V4) = Some 28 → NodeMaskSize <$> set_at st (2%positive, V4) = Some 28 →
  (∀ f v p, (f, v, p) ∈ l → f = V4 ∧ p = 28) → block_sized st l.
Proof.
  intros E E1 E2 Hl cc f v p s (label & lst & Hc & Hin) [-> ->]%Hl Hs _.
  apply elem_of_map_to_list in Hc. rewrite E in Hc.
  apply elem_of_cons in Hc as [[= -> ->]|Hc]; [|apply list_elem_of_singleton in Hc as [= -> ->]];
    apply list_elem_of_singleton in Hin as ->; rewrite Hs in *; [by injection E1|by injection E2].
Qed.

Lemma ex_arrives : arrives ex_sys5 ex_recs5 ex_n4.
Proof.
  intros _. exists [ex_block]. split; [by apply ex_shows|]. split.
  - apply ex_sized; [vm_compute; reflexivity..|]. by intros f v p [= -> -> ->]%list_elem_of_singleton.
  - right. split; [by repeat constructor|]. intros k l b c. rewrite ex_recs5_eq, lookup_insert, lookup_empty. case_decide; [|done].
    intros [= <-] Hb ->%list_elem_of_singleton. unfold ex_rec2 in Hb.
    apply elem_of_cons in Hb as [->|Hb]; [|apply list_elem_of_singleton in Hb as ->]; (apply disjoint_blocks; [by_decision|by_decision|]);
      [right; vm_compute; reflexivity|by left].
Qed.

Lemma ex_granted : system (HLb:=refLabels) (HC:=refCluster) refNamed ex_st ∅ ex_sys2 ex_recs2.
Proof.
  eapply sys_allocate; [eapply sys_allocate; [apply sys_start|..]|..]; try apply surjective_pairing; solve [constructor|intros Hne; by destruct Hne].
Qed.

Lemma ex_leaves : leaves ex_recs2 ex_n1_deleted.
Proof.
  intros _ cc _. exists [ex_block], 1%positive. split; [by apply ex_shows|].
  rewrite ex_recs2_eq. rewrite lookup_insert_ne by done. by rewrite lookup_insert_eq.
Qed.

Lemma ex_system : system (HLb:=refLabels) (HC:=refCluster) refNamed ex_st ∅ ex_sys7 ex_recs7.
Proof.
  assert (system (HLb:=refLabels) (HC:=refCluster) refNamed ex_st ∅ ex_sys4 ex_recs2) as H4.
  { eapply sys_delete; [|apply surjective_pairing]. eapply sys_world; [exact ex_granted|].
    apply (ex_named ex_n1_deleted ex_dual_deleted ex_n1_deleted_ok eq_refl ex_dual_ok eq_refl). }
  assert (system (HLb:=refLabels) (HC:=refCluster) refNamed ex_st ∅ ex_sys5 ex_recs5) as H5
    by (eapply sys_release; [exact H4|exact ex_n1_deleted_ok|exact ex_leaves|apply surjective_pairing]).
  assert (system (HLb:=refLabels) (HC:=refCluster) refNamed ex_st ∅ ex_sys6 (noted ex_n4 ex_sys5 ex_recs5)) as H6
    by (eapply sys_allocate; [exact H5|exact ex_n1_deleted_ok|exact ex_arrives|apply surjective_pairing]).
  eapply sys_release; [exact H6|exact ex_n1_deleted_ok| |apply surjective_pairing].
  intros _ cc. rewrite ex_recs6_eq, !lookup_insert_ne, lookup_empty by done. by intros [? ?].
Qed.

Lemma isolates_empty `{HC : !Cluster} (st : AllocState) : (∀ n cc, associated st n cc = false) → isolates st ∅.
Proof. intros Hn. split; intros *; rewrite ?lookup_empty; [rewrite Hn; split; [done|by intros [? ?]]|done..]. Qed.

Lemma ex_unassociated n cc : associated ex_st n cc = false.
Proof.
  destruct (associated ex_st n cc) eqn:Ha; [|done]. exfalso. unfold associated in Ha. destruct (objs ex_st !! cc) as [c|] eqn:Hc; [|done].
  apply elem_of_map_to_list in Hc.
  assert (AssociatedNodes <$> (map_to_list (objs ex_st)).*2 = [∅; ∅]) as E by (vm_compute; reflexivity).
  assert (AssociatedNodes c ∈ AssociatedNodes <$> (map_to_list (objs ex_st)).*2) as Hin
    by (apply list_elem_of_fmap; exists c; split; [reflexivity|]; apply list_elem_of_fmap; exists (cc, c); split; [reflexivity|exact Hc]).
  rewrite E in Hin. clear Hc E. assert (AssociatedNodes c = ∅) as En.
  { apply elem_of_cons in Hin as [En|Hin]; [exact En|]. apply list_elem_of_singleton in Hin as En. exact En. }
  rewrite En, lookup_empty in Ha. discriminate Ha.
Qed.

Lemma ex_st_named : Inv (HC:=refCluster) refNamed ex_st.
Proof.
  assert (refNamed ex_world) as ([H1 H2] & H3 & H4) by exact (ex_named ex_n1 ex_dual (Forall_nil_2 _) eq_refl ex_dual_ok eq_refl _).
  assert (w_nodes (world ex_st) = w_nodes ex_world) as En by (vm_compute; reflexivity).
  assert (w_ccs (world ex_st) = w_ccs ex_world) as Ec by (vm_compute; reflexivity).
  split; [exact ex_ok|]. unfold refNamed, refWok. rewrite En, Ec. exact (conj (conj H1 H2) (conj H3 H4)).
Qed.


(** * Workers *)

(** What a worker does with its key when the handler has returned, and its own result. *)
Definition closed_item `{HC : !Cluster} (q : QueueName) (key : string) (res : exit unit) (w : World) : World :=
  queue_Done q key (match res with Ok _ => queue_Forget q key w | Err _ => queue_AddRateLimited q key w | Panic _ => w end).
Definition turn_result (res : exit unit) : exit bool := match res with Panic p => Panic p | _ => Ok true end.

Section turns.
Context `{HN : !NetUtils} `{HLb : !Labels} `{HC : !Cluster} `{HI : !MapIter}.
Context (Wok : World → Prop) (HW : world_closed Wok).
Implicit Types (st : AllocState) (recs : records).

Lemma turn_run q sync st key w : queue_Get q (world st) = (Some key, w) →
  let s := sync key (with_world w st) in
  processNextWorkItem q sync st = (turn_result s.1, with_world (closed_item q key s.1 (world s.2)) s.2).
Proof using.
  intros Eq. pose proof (processNextWorkItem_protocol q sync st) as Hp. rewrite Eq in Hp. cbn zeta.
  by destruct (sync key (with_world w st)) as [[u|e|p] s].
Qed.

Lemma closed_item_ok q key res w : Wok w → Wok (closed_item q key res w).
Proof using HW.
  intros Hw. apply (wc_done _ HW). destruct res; [by apply (wc_forget _ HW)|by apply (wc_limit _ HW)|done].
Qed.

(** The section of the work item of a node, and the records after it. *)
Definition node_section (node : Node) : M AllocState unit :=
  if IsZero (node_DeletionTimestamp node) then AllocateOrOccupyCIDR (Some node) else ReleaseCIDR (Some node).
Definition section_ok st recs (node : Node) : Prop :=
  if IsZero (node_DeletionTimestamp node) then arrives st recs node else leaves recs node.
Definition section_records (node : Node) st recs : records :=
  if IsZero (node_DeletionTimestamp node) then noted node st recs else settled (ReleaseCIDR (Some node) st).2 recs.

Lemma node_section_system st0 recs0 st recs node : system Wok st0 recs0 st recs → node_ok node → section_ok st recs node →
  system Wok st0 recs0 (node_section node st).2 (section_records node st recs).
Proof using.
  unfold section_ok, node_section, section_records. intros Hr Hn Hs. destruct (IsZero _).
  - eapply sys_allocate; [exact Hr|done|done|apply surjective_pairing].
  - eapply sys_release; [exact Hr|done|done|apply surjective_pairing].
Qed.

(** The same for a ClusterCIDR. *)
Definition cidr_section (c : v1ClusterCIDR) : M AllocState unit :=
  if IsZero (cc_DeletionTimestamp c) then reconcileCreate c else reconcileDelete c.

Lemma cidr_section_system st0 recs0 st recs c : system Wok st0 recs0 st recs → readable c →
  system Wok st0 recs0 (cidr_section c st).2 recs.
Proof using.
  unfold cidr_section. intros Hr Hc. destruct (IsZero _).
  - eapply sys_create; [exact Hr|done|apply surjective_pairing].
  - eapply sys_delete; [exact Hr|apply surjective_pairing].
Qed.

Definition missing (e : error) : exit unit := if IsNotFound e then Ok tt else Err e.

Lemma syncNode_section key st : syncNode key st = match nodeLister_Get (world st) key with inl e => (missing e, st) | inr node => node_section node st end.
Proof using.
  unfold syncNode, node_section, missing. assert (get st = (Ok st, st)) as Eg by done. mstep Eg.
  destruct (nodeLister_Get (world st) key) as [e|node]; [by destruct (IsNotFound e)|by destruct (IsZero _)].
Qed.

Lemma syncClusterCIDR_section key st :
  syncClusterCIDR key st = match clusterCIDRLister_Get (world st) key with inl e => (missing e, st) | inr c => cidr_section c st end.
Proof using.
  unfold syncClusterCIDR, cidr_section, missing. assert (get st = (Ok st, st)) as Eg by done. mstep Eg.
  destruct (clusterCIDRLister_Get (world st) key) as [e|c]; [by destruct (IsNotFound e)|by destruct (IsZero _)].
Qed.
End turns.

(** C4. A turn of a worker, exactly, and as a part of such a run.  A queue that is shut
    down stops the worker.  Else the key taken off is looked up: for a node one section
    runs, a release when the node is being deleted and an allocation otherwise; for a
    ClusterCIDR a deletion or a creation; when the lookup fails none runs, and an
    object not found counts as a success.  Afterwards the key is forgotten after a
    success, queued again with a delay after an error, and marked done in every case,
    a panic included, which goes on to the caller; after anything else the worker goes
    on.  From a state of a run this is a run, with the records of the section. *)
Theorem worker_turns_refine `{HN : !NetUtils} `{HLb : !Labels} `{HC : !Cluster} `{HI : !MapIter}
  (HNL : NetUtilsLaws HN) (HIL : MapIterLaws HI) (Wok : World → Prop) (HW : world_closed Wok) (HWn : world_named Wok)
  (st0 st : AllocState) (recs0 recs : records) sel
  (Hsel : nodeSelectorAsSelector (Some defaultNodeSelector) = Ok sel)
  (Hinv : Inv Wok st0) (Hlab : labels_ok st0) (H0 : isolates st0 recs0) (Hrun : system Wok st0 recs0 st recs) :
  match queue_Get nodeQueue (world st) with
  | (None, w) => processNextNodeWorkItem st = (Ok false, with_world w st)
  | (Some key, w) =>
      let st1 := with_world w st in
      match nodeLister_Get w key with
      | inl e => processNextNodeWorkItem st = (Ok true, with_world (closed_item nodeQueue key (missing e) w) st)
      | inr node =>
          let s := (if IsZero (node_DeletionTimestamp node) then AllocateOrOccupyCIDR (Some node) else ReleaseCIDR (Some node)) st1 in
          let st' := with_world (closed_item nodeQueue key s.1 (world s.2)) s.2 in
          processNextNodeWorkItem st = (turn_result s.1, st') ∧
          (section_ok st1 recs node → system Wok st0 recs0 st' (section_records node st1 recs))
      end
  end ∧
  match queue_Get cidrQueue (world st) with
  | (None, w) => processNextCIDRWorkItem st = (Ok false, with_world w st)
  | (Some key, w) =>
      match clusterCIDRLister_Get w key with
      | inl e => processNextCIDRWorkItem st = (Ok true, with_world (closed_item cidrQueue key (missing e) w) st)
      | inr c =>
          let s := (if IsZero (cc_DeletionTimestamp c) then reconcileCreate c else reconcileDelete c) (with_world w st) in
          let st' := with_world (closed_item cidrQueue key s.1 (world s.2)) s.2 in
          processNextCIDRWorkItem st = (turn_result s.1, st') ∧ system Wok st0 recs0 st' recs
      end
  end.
Proof.
  assert (∀ st recs, system Wok st0 recs0 st recs → Wok (world st)) as Hok.
  { intros s rs Hr. by apply (system_inv HNL HIL sel Hsel Wok HW HWn st0 recs0 s rs). }
  assert (∀ q key res s rs, system Wok st0 recs0 s rs → system Wok st0 recs0 (with_world (closed_item q key res (world s)) s) rs) as Hclose.
  { intros q key res s rs Hr. apply sys_world; [done|]. apply (closed_item_ok Wok HW). by apply (Hok _ rs). }
  assert (∀ q key w, queue_Get q (world st) = (key, w) → Wok w) as Hget.
  { intros q key w Eq. replace w with (queue_Get q (world st)).2 by (by rewrite Eq). by apply (wc_get _ HW), (Hok _ recs). }
  split.
  - destruct (queue_Get nodeQueue (world st)) as [[key|] w] eqn:Eq.
    2: { pose proof (processNextWorkItem_protocol nodeQueue syncNode st) as Hp. by rewrite Eq in Hp. }
    cbn zeta. pose proof (turn_run nodeQueue syncNode st key w Eq) as Ht. cbn zeta in Ht. rewrite syncNode_section in Ht. simpl in Ht.
    destruct (nodeLister_Get w key) as [e|node] eqn:En.
    { simpl in Ht. unfold processNextNodeWorkItem. rewrite Ht. by destruct (missing e) eqn:Em; unfold missing in Em; destruct (IsNotFound e). }
    split; [exact Ht|]. intros Hs. apply Hclose.
    apply (node_section_system Wok st0 recs0 (with_world w st) recs node); [apply sys_world; [done|by eapply Hget]| |done].
    apply (wc_node _ HW w key); [by eapply Hget|done].
  - destruct (queue_Get cidrQueue (world st)) as [[key|] w] eqn:Eq.
    2: { pose proof (processNextWorkItem_protocol cidrQueue syncClusterCIDR st) as Hp. by rewrite Eq in Hp. }
    pose proof (turn_run cidrQueue syncClusterCIDR st key w Eq) as Ht. cbn zeta in Ht. rewrite syncClusterCIDR_section in Ht. simpl in Ht.
    destruct (clusterCIDRLister_Get w key) as [e|c] eqn:Ec.
    { simpl in Ht. unfold processNextCIDRWorkItem. rewrite Ht. by destruct (missing e) eqn:Em; unfold missing in Em; destruct (IsNotFound e). }
    split; [exact Ht|]. apply Hclose. apply (cidr_section_system Wok st0 recs0 (with_world w st) recs c); [apply sys_world; [done|by eapply Hget]|].
    split; [apply (wc_cc _ HW w key); [by eapply Hget|done]|]. intros k Hk. by eapply (wn_key _ HWn w key); [eapply Hget|..].
Qed.

Lemma second_result {A B} {p : A * B} {a b} : p = (a, b) → p.2 = b.
Proof. by intros ->. Qed.

(** A node worker that finds a deleted node. *)
Definition ex_turns : AllocState :=
  with_world (HC:=refCluster) (mkWorld {["n1" := ex_n1_deleted; "n2" := ex_n2]} {["cc4" := ex_cc4; "dual" := ex_dual_deleted]} ["n1"] [] []) ex_sys2.

Lemma ex_turns_reached : system (HLb:=refLabels) (HC:=refCluster) refNamed ex_st ∅ ex_turns ex_recs2.
Proof.
  eapply sys_world; [exact ex_granted|].
  apply (ex_named ex_n1_deleted ex_dual_deleted ex_n1_deleted_ok eq_refl ex_dual_ok eq_refl).
Qed.

Lemma worker_turns_refine_witness :
  (processNextNodeWorkItem ex_turns).1 = Ok true ∧
  system (HLb:=refLabels) (HC:=refCluster) refNamed ex_st ∅ (processNextNodeWorkItem ex_turns).2 ex_recs5.
Proof.
  split; [vm_compute; reflexivity|].
  destruct (worker_turns_refine (HLb:=refLabels) (HC:=refCluster) refNetUtils_laws refIter_laws refNamed refNamed_closed refNamed_named
    ex_st ex_turns ∅ ex_recs2 ex_default_sel ltac:(vm_compute; reflexivity) ex_st_named ex_labels
    (isolates_empty ex_st ex_unassociated) ex_turns_reached) as [H _].
  assert (queue_Get (Cluster:=refCluster) nodeQueue (world ex_turns) = (Some "n1", ex_world_deleted)) as Eq by (vm_compute; reflexivity).
  rewrite Eq in H. assert (nodeLister_Get (Cluster:=refCluster) ex_world_deleted "n1" = inr ex_n1_deleted) as En by (vm_compute; reflexivity).
  cbn zeta in H. rewrite En in H. destruct H as [E H]. rewrite (second_result E).
  assert (section_records ex_n1_deleted (with_world (HC:=refCluster) ex_world_deleted ex_turns) ex_recs2 = ex_recs5) as Er by (vm_compute; reflexivity).
  rewrite <- Er. apply H. exact ex_leaves.
Defined.
