(* ===== verification/RestartTheorems.v ===== *)
(** The restart of the controller: the constructor reads the ClusterCIDRs and the
    nodes back, and what it finds in the nodes stays theirs.

    [advances st st'] is what the loop over the nodes does: allocated blocks and
    associations are added, nothing else changes. *)
From S2P Require Import Prelude GoNet CIDRTheory CIDRText NetUtils MultiCIDRSet IndexTheory IndexProps SetProps SetConstruction.
From S2P Require Import ContainerHeap PriorityQueue Kubernetes Allocator NodeHandlers ClusterCIDRHandlers EventHandlers Stable AllocatorInv AllocateProps MatchProps NodeProps Reference AllocatorKeeps Controller HandlerProps MapInv Examples AllocatorTheorems ReleaseProps HandlerTheorems NodeTheorems IsolationTheorems Retention Records SystemTheorems.

Section advances.
Context `{HC : !Cluster}.
Implicit Types st : AllocState.

Record advances st st' : Prop := {
  ad_map : cidrMap st' = cidrMap st;
  ad_term l : Terminating <$> objs st' !! l = Terminating <$> objs st !! l;
  ad_assoc n l : associated st n l = true → associated st' n l = true;
  ad_none l f : set_at st (l, f) = None → set_at st' (l, f) = None;
  ad_set l f s : set_at st (l, f) = Some s → ∃ s', set_at st' (l, f) = Some s' ∧ set_grows f s s'
}.

#[export] Instance advances_preorder : PreOrder advances.
Proof using.
  split.
  - intros st. split; try done. intros l f s Hs. exists s. split; [done|reflexivity].
  - intros st1 st2 st3 [M1 T1 A1 N1 S1] [M2 T2 A2 N2 S2]. split; [congruence|intros l; by rewrite T2|by auto|by auto|].
    intros l f s Hs. destruct (S1 l f s Hs) as (s2 & Hs2 & G1). destruct (S2 l f s2 Hs2) as (s3 & Hs3 & G2).
    exists s3. split; [done|by etransitivity].
Qed.

Lemma frame_term st st' l : frame <$> objs st' !! l = frame <$> objs st !! l →
  Terminating <$> objs st' !! l = Terminating <$> objs st !! l.
Proof using. destruct (objs st !! l), (objs st' !! l); simpl; try done. unfold frame. by intros [= _ _ ->]. Qed.

Lemma grows_advances st st' : grows st st' → advances st st'.
Proof using.
  intros [He Hf Hn Hs]. split; [apply He|intros l; by apply frame_term| |done|done].
  intros n l. by rewrite (frame_associated st st').
Qed.

Lemma associate_advances st n cc c : objs st !! cc = Some c → advances st (with_objs (<[cc := with_nodes (insert n true) c]>) st).
Proof using.
  intros Hc. assert (∀ l f, set_at (with_objs (<[cc := with_nodes (insert n true) c]>) st) (l, f) = set_at st (l, f)) as Hset
    by (intros l f; by apply set_at_nodes).
  split; [done| | |intros l f; by rewrite Hset|].
  - intros l. simpl. rewrite lookup_insert. case_decide as E; [|done]. subst l. by rewrite Hc.
  - intros m l. unfold associated. simpl. rewrite lookup_insert. case_decide as E; [|done]. subst l. rewrite Hc. simpl.
    rewrite lookup_insert. by case_decide.
  - intros l f s Hs. rewrite Hset. exists s. split; [done|reflexivity].
Qed.

Lemma advances_mapped st st' l : advances st st' → mapped st' l ↔ mapped st l.
Proof using. intros Ha. unfold mapped. by rewrite (ad_map _ _ Ha). Qed.

Lemma advances_eligible st st' occupy l : advances st st' → eligible (objs st') occupy l = eligible (objs st) occupy l.
Proof using.
  intros Ha. pose proof (ad_term _ _ Ha l) as Ht. unfold eligible. by destruct (objs st !! l), (objs st' !! l); simplify_eq/=; rewrite ?Ht.
Qed.

(** The ranges are those of before. *)
Lemma advances_in_range st st' cc b : alloc_ok st → advances st st' → in_range st' cc b → in_range st cc b.
Proof using.
  intros Hok Ha [Hb (s' & Hs' & Ho)]. split; [done|]. destruct (set_at st (cc, cidr_family b)) as [s|] eqn:Hs.
  - destruct (at_set_ok _ _ _ _ Hok Hs) as (L & A & Hv). destruct (ad_set _ _ Ha _ _ _ Hs) as (s1 & Hs1 & _ & Hg).
    rewrite Hs' in Hs1. injection Hs1 as <-. destruct (Hg L A Hv) as (A' & Hv' & _). exists s. split; [done|].
    by rewrite (view_cluster _ _ _ _ Hv), <- (view_cluster _ _ _ _ Hv').
  - by rewrite (ad_none _ _ Ha _ _ Hs) in Hs'.
Qed.

Lemma advances_loses N bs st st' : advances st st' → loses N bs st st'.
Proof using.
  intros Ha. split.
  - intros l f s L A Hs Hv. destruct (ad_set _ _ Ha l f s Hs) as (s' & Hs' & _ & Hg). destruct (Hg L A Hv) as (A' & Hv' & HA).
    exists s', A'. split_and!; [done|done|by apply subseteq_diff].
  - intros n l _. apply (ad_assoc _ _ Ha).
  - intros n l _ _. by apply advances_mapped.
Qed.

(** What is occupied stays occupied. *)
Lemma occupied_kept N st st' cc bs : loses N [] st st' → occupied_in st cc bs → occupied_in st' cc bs.
Proof using.
  intros Hl Ho f v p Hin. destruct (Ho f v p Hin) as (s & L & A & Hs & Hv & Hov & HA).
  destruct (ls_set _ _ _ _ Hl cc f s L A Hs Hv) as (s' & A' & Hs' & Hv' & HA'). exists s', L, A'. split_and!; [done..|].
  simpl in HA'. rewrite difference_empty_L in HA'. by etransitivity.
Qed.
End advances.

(** * One node *)

Section node.
Context `{HN : !NetUtils} `{HLb : !Labels} `{HC : !Cluster} `{HI : !MapIter}.
Context (HNL : NetUtilsLaws HN) (HIL : MapIterLaws HI) (sel : Selector) (Hsel : nodeSelectorAsSelector (Some defaultNodeSelector) = Ok sel).
Implicit Types st : AllocState.

Definition Advanced st0 st : Prop := alloc_ok st ∧ labels_ok st ∧ advances st0 st.

Lemma advanced_closed st0 : occupy_closed (Advanced st0).
Proof using.
  split.
  - by intros st [].
  - by intros st (_ & ? & _).
  - intros st st' l g Hg Hch (Hok & Hlab & Ha). pose proof (changed_grows l g st st' Hok Hg Hch) as Hgr.
    split_and!; [by eapply changed_ok|by eapply grows_labels|]. etransitivity; [exact Ha|by apply grows_advances].
  - intros st (Hok & Hlab & []). split_and!; [by apply alloc_ok_iter|done|by split].
  - intros st cc c n Hc (Hok & Hlab & Ha). split_and!; [|done|etransitivity; [exact Ha|by apply associate_advances]].
    apply (objs_insert st cc c); [done|done|]. by apply with_nodes_ok, (ao_objs _ Hok cc).
Qed.

(** The ClusterCIDRs a node with PodCIDRs is tried with. *)
Definition offered st (node : Node) (cc : loc) : Prop := ∃ ls, (orderedMatchingClusterCIDRs node true st).1 = Ok ls ∧ cc ∈ ls.

Lemma offered_spec st node cc : alloc_ok st → labels_ok st →
  offered st node cc ↔ (∃ x, x ∈ candidates st node true ∧ item_clusterCIDR x = cc) ∨ cc ∈ default [] (cidrMap st !! Selector_String sel).
Proof using HIL Hsel.
  intros Hok Hlab. destruct (ordered_run HIL st node true sel Hok Hlab Hsel) as (items & E & Hperm & _). unfold offered. rewrite E. split.
  - intros (ls & [= <-] & [Hcc|Hcc]%elem_of_app); [left|by right]. apply list_elem_of_fmap in Hcc as (x & -> & Hx). exists x.
    split; [by rewrite <- Hperm|done].
  - intros Hcc. eexists. split; [done|]. apply elem_of_app. destruct Hcc as [(x & Hx & <-)|Hcc]; [left|by right].
    apply list_elem_of_fmap. exists x. split; [done|by rewrite Hperm].
Qed.

Lemma advances_offered st st' node cc : alloc_ok st → labels_ok st → alloc_ok st' → labels_ok st' → advances st st' →
  offered st' node cc → offered st node cc.
Proof using HIL Hsel.
  intros Hok Hlab Hok' Hlab' Ha. rewrite !offered_spec by done. rewrite (ad_map _ _ Ha). intros [(x & Hx & Hcc)|Hcc]; [left|by right].
  exists x. split; [|done]. apply elem_of_candidates in Hx as (l & Hl & Hin & Hi & Hm & Hel). apply elem_of_candidates. exists l.
  rewrite (ad_map _ _ Ha) in Hl. by rewrite (advances_eligible st st') in Hel.
Qed.

(** A node whose PodCIDRs all lie in one of them. *)
Lemma occupyCIDRs_outcome st st' node bs cc r : alloc_ok st → labels_ok st → PodCIDRs node ≠ [] →
  Forall2 (λ t b, parses t b ∧ cidr_valid b) (PodCIDRs node) bs → offered st node cc → Forall (in_range st cc) bs →
  occupyCIDRs node st = (r, st') → (∀ p, r ≠ Panic p) →
  ∃ cc', mapped st' cc' ∧ associated st' (node_Name node) cc' = true ∧ occupied_in st' cc' bs.
Proof using HNL HIL Hsel.
  intros Hok Hlab Hne Hbs (ls & El & Hcc) Hin E Hnp.
  destruct (occupyCIDRs_run HNL HIL st node sel bs Hok Hlab Hsel Hne Hbs) as (ls' & st1 & El' & Hm & Hok1 & Hg & Hr).
  rewrite El' in El. injection El as ->.
  assert (occupier st ls bs ≠ None) as Hsome.
  { clear -Hcc Hin. apply in_range_takes in Hin. induction Hcc as [ls|cc k ls _ IH]; simpl; [by rewrite Hin|].
    destruct (trial st k bs); [done|by apply IH|done]. }
  destruct (occupier st ls bs) as [[cc' []]|]; [|rewrite Hr in E; injection E as <- _; by destruct (Hnp NilDereference)..|done].
  destruct Hr as (Hcc' & Er & Hocc). rewrite Er in E. injection E as <- <-. exists cc'.
  pose proof (grows_mapped st st1 cc' Hg (Hm cc' Hcc')) as Hm1. destruct (ao_mapped _ Hok1 cc' Hm1) as [c Hc]. split_and!.
  - exact Hm1.
  - apply associate_associated. by exists c.
  - apply (occupied_kept [] st1); [|done]. pose proof (updObj_associate st1 cc' c (node_Name node) Hc) as Eu.
    rewrite (updObj_run st1 cc' c _ Hc) in Eu. apply (f_equal snd) in Eu. simpl snd in Eu. rewrite <- Eu. by apply advances_loses, associate_advances.
Qed.
End node.

(** * The constructor *)

Section start.
Context `{HN : !NetUtils} `{HLb : !Labels} `{HC : !Cluster} `{HI : !MapIter}.
Context (HNL : NetUtilsLaws HN) (HIL : MapIterLaws HI) (sel : Selector) (Hsel : nodeSelectorAsSelector (Some defaultNodeSelector) = Ok sel).
Implicit Types st : AllocState.

Definition nodeBody (node : Node) : M AllocState unit :=
  if Nat.eqb (length (PodCIDRs node)) 0 then mret tt else attempt (occupyCIDRs node) ;; mret tt.

(** The PodCIDRs of the node are recorded, in a ClusterCIDR it is associated with. *)
Definition reserved_for st (node : Node) (bs : list cidr) (cc : loc) : Prop :=
  mapped st cc ∧ associated st (node_Name node) cc = true ∧ occupied_in st cc bs.

(** Some ClusterCIDR that is offered to the node has all its PodCIDRs in range. *)
Definition servable st (node : Node) (bs : list cidr) : Prop := ∃ cc, offered st node cc ∧ Forall (in_range st cc) bs.

Lemma servable_back st st' node bs : alloc_ok st → labels_ok st → Advanced st st' → servable st' node bs → servable st node bs.
Proof using HIL Hsel.
  intros Hok Hlab (Hok' & Hlab' & Ha) (cc & Ho & Hin). exists cc. split; [by apply (advances_offered HIL sel Hsel st st')|].
  eapply Forall_impl; [exact Hin|]. intros b. by apply advances_in_range.
Qed.

Lemma reserved_later N st st' node bs cc : node_Name node ∉ N → loses N [] st st' → reserved_for st node bs cc → reserved_for st' node bs cc.
Proof using.
  intros Hn Hl (Hm & Ha & Ho). split_and!; [by apply (ls_mapped _ _ _ _ Hl (node_Name node))|by apply (ls_assoc _ _ _ _ Hl)|].
  by apply (occupied_kept N st st').
Qed.

Lemma nodes_loop nodes st st' : alloc_ok st → labels_ok st → Forall node_ok nodes → forM_ nodes nodeBody st = (Ok tt, st') →
  Advanced st st' ∧ ∀ node bs, node ∈ nodes → PodCIDRs node ≠ [] → Forall2 (λ t b, parses t b ∧ cidr_valid b) (PodCIDRs node) bs →
    servable st' node bs → ∃ cc, reserved_for st' node bs cc.
Proof using HNL HIL Hsel.
  intros Hok Hlab Hns. revert st Hok Hlab. induction Hns as [|node nodes Hn Hns IH]; intros st Hok Hlab E.
  { injection E as <-. split; [split_and!; [done|done|reflexivity]|]. by intros node bs ?%elem_of_nil. }
  cbn [forM_] in E. apply M_bind_inv in E as ([] & st1 & E1 & E2).
  assert (Advanced st st1) as H1.
  { assert (preserves (Advanced st) (nodeBody node)) as Hp.
    { unfold nodeBody. case_match; [auto with stable|]. apply preserves_bind; [apply preserves_attempt|by intros; auto with stable].
      by apply (closed_occupyCIDRs HNL _ (advanced_closed st) HIL sel Hsel). }
    specialize (Hp st). rewrite E1 in Hp. apply Hp. split_and!; [done|done|reflexivity]. }
  destruct (IH st1 (proj1 H1) (proj1 (proj2 H1)) E2) as [H2 Hnodes]. split.
  { split_and!; [apply H2|apply H2|]. transitivity st1; [apply H1|apply H2]. }
  intros node' bs [->|Hin]%elem_of_cons Hne Hbs Hs; [|by eapply Hnodes].
  destruct (servable_back st1 st' node bs (proj1 H1) (proj1 (proj2 H1)) H2 Hs) as (cc1 & Ho1 & Hin1).
  destruct (servable_back st st1 node bs Hok Hlab H1) as (cc & Ho & Hincc); [by exists cc1|].
  unfold nodeBody in E1. destruct (Nat.eqb_spec (length (PodCIDRs node)) 0) as [Hl|_]; [by apply nil_length_inv in Hl|].
  destruct (occupyCIDRs node st) as [r st2] eqn:Eo.
  assert ((∀ p, r ≠ Panic p) ∧ st2 = st1) as [Hnp ->].
  { unfold attempt, mbind, M_bind in E1. rewrite Eo in E1.
    destruct r as [u|e|q]; [injection E1 as <-..|discriminate E1]; (split; [by intros p|done]). }
  destruct (occupyCIDRs_outcome HNL HIL sel Hsel st st1 node bs cc r Hok Hlab Hne Hbs Ho Hincc Eo Hnp) as (cc' & Hm & Ha & Hocc).
  exists cc'. apply (reserved_later [] st1 st'); [apply not_elem_of_nil|apply advances_loses, H2|done].
Qed.

(** Up to the loop over the nodes the state is well formed. *)
Lemma init_kept w : Kept [] [] (initState w) (initState w).
Proof using.
  apply kept_refl; [split|]; simpl.
  - by intros l c Hc%lookup_empty_Some.
  - intros l (label & lst & H & _). simpl in H. by rewrite lookup_empty in H.
  - by intros l [c Hc%lookup_empty_Some].
  - intros label. simpl. rewrite lookup_empty. by intros [? ?].
Qed.

Lemma start_kept (items : list v1ClusterCIDR) st0 : Forall readable items →
  keeps (Kept [] [] st0) (forM_ items (λ clusterCIDR,
    r ← attempt (reconcileBootstrap clusterCIDR);
    match r with inl err => recordEvent (InvalidClusterCIDR (cc_Name clusterCIDR) err) | inr _ => mret tt end)) (λ _, True).
Proof using HNL.
  intros Hi. eapply keeps_forM; [exact Hi|]. intros c [Hc Hk]. apply preserves_keeps, preserves_bind.
  - apply preserves_attempt. by apply kept_createClusterCIDR.
  - intros [e|u]; [apply kept_event|auto with stable].
Qed.

Lemma filterOut_kept cidr st0 : (∀ n, cidr = Some n → cidr_ok n) → preserves (Kept [] [] st0) (filterOut cidr).
Proof using HNL.
  intros Hc. destruct cidr as [n|]; [|by intros st Hst]. by apply (closed_filterOut HNL _ (kept_closed [] [] st0)), Hc.
Qed.

Lemma step_kept {A} st0 (m : M AllocState A) st a st' : preserves (Kept [] [] st0) m → m st = (Ok a, st') → Kept [] [] st0 st → Kept [] [] st0 st'.
Proof using. intros Hm E Hst. specialize (Hm st Hst). by rewrite E in Hm. Qed.

Lemma preserves_end {A} (P : AllocState → Prop) (m : M AllocState A) st r st' : preserves P m → P st → m st = (r, st') → P st'.
Proof using. intros Hm Hst E. specialize (Hm st Hst). by rewrite E in Hm. Qed.

(** The loop over the nodes starts in a well-formed state without associations. *)
Lemma New_split params nodes w st' :
  (∀ l st1 items, listClusterCIDRs (initState w) = (Ok l, st1) → createDefaultClusterCIDR (default [] l) params = Ok items → Forall readable items) →
  (∀ n, ServiceCIDR params = Some n → cidr_ok n) → (∀ n, SecondaryServiceCIDR params = Some n → cidr_ok n) →
  NewMultiCIDRRangeAllocator params (Some nodes) (initState w) = (Ok tt, st') →
  ∃ st, alloc_ok st ∧ labels_ok st ∧ (∀ n cc, associated st n cc = false) ∧ forM_ nodes nodeBody st = (Ok tt, st').
Proof using HNL.
  intros Hitems Hs1 Hs2 E. unfold NewMultiCIDRRangeAllocator in E. set (s0 := initState w) in *.
  pose proof (init_kept w) as H0. fold s0 in H0.
  apply M_bind_inv in E as (l & st1 & E1 & E). apply M_bind_inv in E as (items & st2 & E2 & E).
  unfold lift in E2. injection E2 as E2 <-.
  assert (Kept [] [] s0 st1 ∧ fewer s0 st1) as [H1 F1].
  { unfold listClusterCIDRs in E1. destruct (ExponentialBackoff _ _ _ _) as [[e|] [w' l']]; [done|]. injection E1 as _ <-.
    split; [by apply (kept_same [] [] s0 s0)|done]. }
  pose proof (Hitems l st1 items E1 E2) as Hi. apply M_bind_inv in E as ([] & st3 & E3 & E).
  assert (Kept [] [] s0 st3) as H3 by (eapply step_kept; [|exact E3|exact H1]; apply preserves_keeps; exact (start_kept items s0 Hi)).
  apply M_bind_inv in E as ([] & st4 & E4 & E). apply M_bind_inv in E as ([] & st5 & E5 & E).
  assert (Kept [] [] s0 st4) as H4 by (eapply step_kept; [|exact E4|exact H3]; by apply filterOut_kept).
  assert (Kept [] [] s0 st5) as (Hok & Hlab & _) by (eapply step_kept; [|exact E5|exact H4]; by apply filterOut_kept).
  exists st5. split; [done|]. split; [done|]. split; [|exact E].
  assert (fewer s0 st3) as F3.
  { eapply (preserves_end (fewer s0)); [|exact F1|exact E3]. apply preserves_forM. intros c. apply preserves_bind.
    - apply preserves_attempt, fewer_createClusterCIDR.
    - intros [e|u]; [|auto with stable]. apply preserves_modify. intros st. by apply fewer_same. }
  assert (fewer s0 st4) as F4 by (eapply (preserves_end (fewer s0)); [|exact F3|exact E4]; apply fewer_filterOut).
  assert (fewer s0 st5) as F5 by (eapply (preserves_end (fewer s0)); [|exact F4|exact E5]; apply fewer_filterOut).
  intros n cc. destruct (associated st5 n cc) eqn:Ha; [|done]. apply F5 in Ha. unfold associated in Ha. simpl in Ha. by rewrite lookup_empty in Ha.
Qed.

Lemma New_outcome params nodes w st' :
  (∀ l st1 items, listClusterCIDRs (initState w) = (Ok l, st1) → createDefaultClusterCIDR (default [] l) params = Ok items → Forall readable items) →
  (∀ n, ServiceCIDR params = Some n → cidr_ok n) → (∀ n, SecondaryServiceCIDR params = Some n → cidr_ok n) → Forall node_ok nodes →
  NewMultiCIDRRangeAllocator params (Some nodes) (initState w) = (Ok tt, st') →
  alloc_ok st' ∧ labels_ok st' ∧
  ∀ node bs, node ∈ nodes → PodCIDRs node ≠ [] → Forall2 (λ t b, parses t b ∧ cidr_valid b) (PodCIDRs node) bs →
    servable st' node bs → ∃ cc, reserved_for st' node bs cc.
Proof using HNL HIL Hsel.
  intros Hitems Hs1 Hs2 Hns E. destruct (New_split params nodes w st' Hitems Hs1 Hs2 E) as (st & Hok & Hlab & _ & El).
  destruct (nodes_loop nodes st st' Hok Hlab Hns El) as [(? & ? & _) Hnodes]. done.
Qed.

(** An address of a recorded PodCIDR within the ClusterCIDR is in use. *)
Lemma occupied_used st cc bs f v p s x : mapped st cc → occupied_in st cc bs → (f, v, p) ∈ bs → cidr_valid (f, v, p) →
  set_at st (cc, f) = Some s → valid_addr (fam_width f) x → Contains (set_ClusterCIDR s) (ipOf (fam_width f) x) = true →
  Contains (block (fam_width f) v p) (ipOf (fam_width f) x) = true → used st f x.
Proof using.
  intros Hm Hocc Hin Hb Hs Hx Hc Hxb. destruct (Hocc f v p Hin) as (s' & L & A & Hs' & Hv & _ & HA).
  rewrite Hs in Hs'. injection Hs' as <-. pose proof (sv_ok _ _ _ _ Hv) as HL. pose proof (sv_width _ _ _ _ Hv) as HW.
  rewrite (view_cluster _ _ _ _ Hv) in Hc. unfold cluster_block in Hc. rewrite HW in Hc.
  apply Contains_in_block in Hc as [_ Hc]; [|rewrite <- HW; apply HL|done].
  apply Contains_in_block in Hxb as [_ Hxb]; [|done|done].
  exists cc, s. split_and!; [done|done|]. apply (uses_view f s L A x Hv). exists (index_of L x).
  split; [|by apply (index_of_in_block L HL)]. apply HA, elem_of_touched.
  assert (0 ≤ index_of L x < nmax L) as Hi by (apply (index_of_bound L HL); by rewrite HW).
  split; [done|]. apply (touches_spec L HL); [by rewrite HW|done|]. exists x. split; [done|by rewrite HW].
Qed.
End start.

(** C5. The restart.  When the constructor returns, with ClusterCIDRs it can read,
    every node of the list whose PodCIDRs all lie in a ClusterCIDR offered to it is
    associated with a mapped ClusterCIDR that records every block they meet as
    allocated.  From then on, as long as nothing is given back and the node keeps its
    association, no CIDR handed out contains an address of its PodCIDRs in the range
    of that ClusterCIDR. *)
Theorem restart_safe `{HN : !NetUtils} `{HLb : !Labels} `{HC : !Cluster} `{HI : !MapIter}
  (HNL : NetUtilsLaws HN) (HIL : MapIterLaws HI) params nodes (w : World) (st' : AllocState) sel node bs
  (Hsel : nodeSelectorAsSelector (Some defaultNodeSelector) = Ok sel)
  (Hitems : ∀ l st1 items, listClusterCIDRs (initState w) = (Ok l, st1) →
    createDefaultClusterCIDR (default [] l) params = Ok items → Forall readable items)
  (Hs1 : ∀ n, ServiceCIDR params = Some n → cidr_ok n) (Hs2 : ∀ n, SecondaryServiceCIDR params = Some n → cidr_ok n)
  (Hns : Forall node_ok nodes) (E : NewMultiCIDRRangeAllocator params (Some nodes) (initState w) = (Ok tt, st'))
  (Hin : node ∈ nodes) (Hne : PodCIDRs node ≠ []) (Hbs : Forall2 (λ t b, parses t b ∧ cidr_valid b) (PodCIDRs node) bs)
  (Hserv : servable st' node bs) :
  ∃ cc, reserved_for st' node bs cc ∧
    ∀ st2 node2 cidrs cc2 st3, alloc_ok st2 → labels_ok st2 → loses [] [] st' st2 →
      prioritizedCIDRs node2 st2 = (Ok (cidrs, cc2), st3) →
      ∀ f v p b s x, (f, v, p) ∈ bs → b ∈ cidrs → valid_addr (fam_width f) x →
        set_at st2 (cc, f) = Some s → Contains (set_ClusterCIDR s) (ipOf (fam_width f) x) = true →
        Contains (block (fam_width f) v p) (ipOf (fam_width f) x) = true → Contains b (ipOf (fam_width f) x) = false.
Proof.
  destruct (New_outcome HNL HIL sel Hsel params nodes w st' Hitems Hs1 Hs2 Hns E) as (Hok & Hlab & Hnodes).
  destruct (Hnodes node bs Hin Hne Hbs Hserv) as [cc Hcc]. exists cc. split; [done|].
  intros st2 node2 cidrs cc2 st3 Hok2 Hlab2 Hl Hp f v p b s x Hbin Hb Hx Hs Hc Hxb.
  destruct (reserved_later [] st' st2 node bs cc (not_elem_of_nil _) Hl Hcc) as (Hm & _ & Hocc).
  assert (cidr_valid (f, v, p)) as Hv.
  { apply list_elem_of_lookup_1 in Hbin as [i Hi]. by destruct (Forall2_lookup_r _ _ _ _ _ Hbs Hi) as (t & _ & _ & ?). }
  pose proof (occupied_used st2 cc bs f v p s x Hm Hocc Hbin Hv Hs Hx Hc Hxb) as Hu.
  destruct (prioritized_run HNL HIL st2 node2 sel Hok2 Hlab2 Hsel) as (ls & st4 & _ & _ & _ & [(cidrs' & cc' & E3 & _ & Ha)|[[e E3] _]]);
    rewrite E3 in Hp; [|done]. injection Hp as -> -> ->.
  destruct (allocated_fresh _ _ _ _ b Ha Hb) as [g (s1 & L & A & i & _ & Hv1 & Hi & -> & Hfree & _)].
  apply not_true_iff_false. intros Hbx. destruct (view_block g s1 L A i Hv1 Hi) as [Eb Hvb]. rewrite Eb in Hbx.
  apply Contains_in_block in Hbx as [Ew Hbx]; [|done..]. assert (f = g) as <- by (by destruct f, g).
  rewrite <- (sv_width _ _ _ _ Hv1) in Hbx. by destruct (Hfree x Hbx) as [Hn _].
Qed.

(** A restart that finds node n8 with the second block of its ClusterCIDR. *)
Definition ex_n8 : Node := ex_node "n8" ∅ ["10.0.0.16/28"].
Definition ex_restart_w : refWorld := mkWorld {["n8" := ex_n8]} {["cc4" := ex_cc4]} [] [] [].
Definition ex_restart : AllocState := (NewMultiCIDRRangeAllocator ex_params (Some [ex_n8]) (initState (HC:=refCluster) ex_restart_w)).2.

Lemma ex_n8_parses : Forall2 (λ t b, parses t b ∧ cidr_valid b) ["10.0.0.16/28"] [(V4, 10 * 2 ^ 24 + 16, 28)].
Proof. constructor; [|constructor]. split; [eexists; vm_compute; reflexivity|by_decision]. Qed.

Lemma ex_n8_ok : node_ok ex_n8.
Proof. constructor; [|constructor]. apply (text_ok_block _ 32 (10 * 2 ^ 24 + 16) 28 V4); [done|vm_compute; reflexivity|by_decision]. Qed.

Lemma ex_n8_servable : servable ex_restart ex_n8 [(V4, 10 * 2 ^ 24 + 16, 28)].
Proof.
  exists 1%positive. split.
  - exists [1%positive]. split; [vm_compute; reflexivity|by left].
  - constructor; [|constructor]. apply meets_in_range; [by_decision|]. vm_compute. reflexivity.
Qed.

Lemma ex_restart_items (l : option (list v1ClusterCIDR)) st1 items : listClusterCIDRs (initState (HC:=refCluster) ex_restart_w) = (Ok l, st1) →
  createDefaultClusterCIDR (default [] l) ex_params = Ok items → Forall (readable (HLb:=refLabels)) items.
Proof.
  assert ((listClusterCIDRs (initState (HC:=refCluster) ex_restart_w)).1 = Ok (Some [ex_cc4])) as E by (vm_compute; reflexivity).
  intros E1 E2. rewrite E1 in E. injection E as ->. simpl in E2. injection E2 as <-. constructor; [|constructor].
  split; [exact ex_cc4_ok|]. intros k Hk. apply (ex_key ex_cc4 k Hk). by left.
Qed.

Lemma restart_safe_witness :
  (NewMultiCIDRRangeAllocator ex_params (Some [ex_n8]) (initState (HC:=refCluster) ex_restart_w)).1 = Ok tt ∧
  ∃ cc, reserved_for ex_restart ex_n8 [(V4, 10 * 2 ^ 24 + 16, 28)] cc.
Proof.
  assert ((NewMultiCIDRRangeAllocator ex_params (Some [ex_n8]) (initState (HC:=refCluster) ex_restart_w)).1 = Ok tt) as E by (vm_compute; reflexivity).
  split; [exact E|].
  assert (nodeSelectorAsSelector (H:=refLabels) (Some defaultNodeSelector) = Ok ex_default_sel) as Hsel by (vm_compute; reflexivity).
  destruct (restart_safe (HLb:=refLabels) (HC:=refCluster) refNetUtils_laws refIter_laws ex_params [ex_n8] ex_restart_w ex_restart ex_default_sel
    ex_n8 [(V4, 10 * 2 ^ 24 + 16, 28)] Hsel ex_restart_items) as (cc & Hcc & _).
  - by intros n [=].
  - by intros n [=].
  - constructor; [exact ex_n8_ok|constructor].
  - exact (call_result _ _ _ E).
  - by left.
  - discriminate.
  - exact ex_n8_parses.
  - exact ex_n8_servable.
  - exists cc. exact Hcc.
Defined.

(** * A block shared after a restart *)

(** Two ClusterCIDRs over one range, with blocks of two sizes; the wider one is
    created when m1 and m2 have their CIDRs from the other. *)
Definition ex_wide : v1ClusterCIDR := mkCC "a" 1 "1" None [] (mkSpecCC None 5 "10.0.0.0/27" EmptyString).
Definition ex_narrow : v1ClusterCIDR := mkCC "b" 1 "1" None [] (mkSpecCC None 4 "10.0.0.0/27" EmptyString).
Definition ex_m (name : string) (cidrs : list string) (deleted : Timestamp) : Node := mkNode name ∅ cidrs deleted.

(** The first life of the controller. *)
Definition ex_life1 : AllocState :=
  (NewMultiCIDRRangeAllocator ex_params (Some []) (initState (HC:=refCluster)
     (mkWorld {["m1" := ex_m "m1" [] None; "m2" := ex_m "m2" [] None]} {["b" := ex_narrow]} [] [] []))).2.
Definition ex_life1_log : list refCall := w_log (world (syncNode "m2" (syncNode "m1" ex_life1).2).2).

(** The second one, in which m1 is deleted and m3 is added. *)
Definition ex_m12 : list Node := [ex_m "m1" ["10.0.0.0/28"] None; ex_m "m2" ["10.0.0.16/28"] None].
Definition ex_life2_w : refWorld := mkWorld ∅ {["a" := ex_wide; "b" := ex_narrow]} [] [] [].
Definition ex_life2 : AllocState := (NewMultiCIDRRangeAllocator ex_params (Some ex_m12) (initState (HC:=refCluster) ex_life2_w)).2.
Definition ex_life2_world : refWorld :=
  mkWorld {["m1" := ex_m "m1" ["10.0.0.0/28"] (Some 1); "m2" := ex_m "m2" ["10.0.0.16/28"] None; "m3" := ex_m "m3" [] None]}
    {["a" := ex_wide; "b" := ex_narrow]} [] [] [].
Definition ex_life2_end : AllocState :=
  (syncNode "m3" (syncNode "m1" (with_world (HC:=refCluster) ex_life2_world ex_life2)).2).2.

(** A restart can lead to an overlap.  The nodes m1 and m2 get adjacent blocks of
    one ClusterCIDR; a second ClusterCIDR with wider blocks over the same range is
    created; after a restart both nodes are recorded in the wider one, in the same
    block.  Releasing m1 gives the whole block back, and the next node is patched
    with it, although m2, still associated, has a part of it. *)
Example restart_shares_block :
  ex_life1_log = [CallUpdate (with_finalizers [clusterCIDRFinalizer] ex_narrow); CallPatch "m1" ["10.0.0.0/28"]; CallPatch "m2" ["10.0.0.16/28"]] ∧
  (λ c, map_to_list (AssociatedNodes c)) <$> objs ex_life2 !! 1%positive = Some [("m1", true); ("m2", true)] ∧
  w_log (world ex_life2_end) = [CallPatch "m3" ["10.0.0.0/27"]] ∧
  associated ex_life2_end "m1" 1 = false ∧ associated ex_life2_end "m2" 1 = true.
Proof. split_and!; vm_compute; reflexivity. Qed.

(** C6. Two nodes in one block.  Let two nodes be associated with a ClusterCIDR and a
    block of it meet CIDRs of both (their CIDRs being smaller than its blocks, as can
    be after a restart), and let no other ClusterCIDR use its addresses.  Releasing the
    first node succeeds and ends its association alone; the block, which has addresses
    of the CIDR of the second, still associated node, is then free: once every other
    block is taken, it is what the next allocation hands out. *)
Theorem release_frees_shared_block `{HN : !NetUtils} `{HLb : !Labels} `{HC : !Cluster} `{HI : !MapIter}
  (HNL : NetUtilsLaws HN) (HIL : MapIterLaws HI) (st : AllocState) node other sel cc bs f v p s L A i
  (Hok : alloc_ok st) (Hlab : labels_ok st) (Hsel : nodeSelectorAsSelector (Some defaultNodeSelector) = Ok sel)
  (Hne : PodCIDRs node ≠ []) (Hcc : (allocatedClusterCIDR node st).1 = Ok cc)
  (Hbs : Forall2 (λ t b, parses t b ∧ in_range st cc b) (PodCIDRs node) bs)
  (Hother : other ≠ node_Name node) (Ha : associated st other cc = true)
  (Hs : set_at st (cc, f) = Some s) (Hv : set_view f s L A) (Hb : valid_block (fam_width f) v p) (HA : touched L v p ⊆ A)
  (Hi : i ∈ cover f L bs) (Hi' : i ∈ touched L v p)
  (Hfree : ∀ l s' x, mapped st l → l ≠ cc → set_at st (l, f) = Some s' → uses f s' x → ¬ in_block (width L) (node_addr L i) (nlen L) x) :
  ∃ st' s', ReleaseCIDR (Some node) st = (Ok tt, st') ∧
    associated st' (node_Name node) cc = false ∧ associated st' other cc = true ∧
    set_at st' (cc, f) = Some s' ∧ set_view f s' L (A ∖ cover f L bs) ∧ ¬ taken st' f L (A ∖ cover f L bs) i ∧
    ¬ disjoint_nets (node_block L i) (block (fam_width f) v p) ∧
    ((∀ j, 0 ≤ j < nmax L → j ≠ i → taken st' f L (A ∖ cover f L bs) j) →
       ∃ st2, allocateCIDR cc (Some (cc, f)) st' = (Ok (node_block L i), st2)).
Proof.
  destruct (release_run HNL HIL st node sel cc bs Hok Hlab Hsel Hne Hcc Hbs) as (_ & st1 & c & Hch & Hc & E).
  destruct (ch_set _ _ _ _ Hch f s L A Hs Hv) as (s' & Hs' & Hv' & _). pose proof (sv_ok _ _ _ _ Hv) as HL.
  fold (dissociate (node_Name node) cc c st1) in E. set (st' := dissociate (node_Name node) cc c st1) in *.
  assert (∀ q, set_at st' q = set_at st1 q) as Hset by (intros q; by apply set_at_nodes).
  assert (alloc_ok st') as Hok'.
  { pose proof (changed_ok _ _ _ _ Hok Hch) as Hok1. by apply (objs_insert st1 cc c), with_nodes_ok, (ao_objs _ Hok1 cc). }
  pose proof (view_bound _ _ _ _ _ Hv (HA _ Hi')) as Hbound.
  assert (¬ taken st' f L (A ∖ cover f L bs) i) as Hnt.
  { intros [[_ Hn]%elem_of_difference|(l & s2 & x & Hm & Hs2 & Hu & Hx)]; [done|]. rewrite Hset in Hs2. destruct (decide (l = cc)) as [->|Hne'].
    - rewrite Hs' in Hs2. injection Hs2 as <-. apply (uses_view f s' L _ x Hv') in Hu as (k & [_ Hk]%elem_of_difference & Hxk).
      apply (index_of_in_block L HL) in Hx, Hxk. congruence.
    - apply (Hfree l s2 x); [by apply (same_mapped st st1); [apply Hch|]|done| |done|done].
      unfold set_at in *. simpl in *. by rewrite <- (ch_other _ _ _ _ Hch). }
  exists st', s'. split; [exact E|]. split; [by apply dissociate_fewer|]. split.
  { rewrite <- (frame_associated st st1) in Ha by apply Hch. unfold associated in *. simpl. rewrite lookup_insert_eq, Hc in *. simpl.
    by rewrite lookup_delete_ne. }
  split; [by rewrite Hset|]. split; [done|]. split; [done|]. split.
  - intros Hd. apply elem_of_touched in Hi' as [_ Ht]. unfold touches in Ht. destruct (view_block f s L A i Hv Hbound) as [En Hvb].
    rewrite En, (sv_width _ _ _ _ Hv) in Ht. destruct (overlaps_share _ _ _ _ _ Hvb Hb Ht) as (x & Hx & H1 & H2).
    rewrite <- En in H1. by apply (Hd (fam_width f) x Hx).
  - intros Hall. rewrite <- Hset in Hs'.
    destruct (allocateCIDR_cases HNL HIL st' cc f s' L _ Hok' Hs' Hv') as [(j & st2 & s2 & Hj & _ & Hgood & Ealloc & _)|[Hfull _]];
      [|by destruct Hnt; apply Hfull].
    exists st2. rewrite Ealloc. do 2 f_equal. pose proof (slot_bound L HL (nextCandidate s') j) as Hsl.
    destruct (decide (slot L (nextCandidate s') j = i)) as [->|Hne']; [done|]. by destruct Hgood; apply Hall.
Qed.

(** The state after that restart. *)
Lemma ex_life2_items (l : option (list v1ClusterCIDR)) st1 items :
  listClusterCIDRs (initState (HC:=refCluster) ex_life2_w) = (Ok l, st1) →
  createDefaultClusterCIDR (default [] l) ex_params = Ok items → Forall (readable (HLb:=refLabels)) items.
Proof.
  assert ((listClusterCIDRs (initState (HC:=refCluster) ex_life2_w)).1 = Ok (Some [ex_wide; ex_narrow])) as E
    by (vm_compute; reflexivity).
  intros E1 E2. rewrite E1 in E. injection E as ->. simpl in E2. injection E2 as <-.
  constructor; [|constructor; [|constructor]]; (split; [split; [|apply range_ok_empty]|intros k Hk; eapply ex_key; [exact Hk|by left]]).
  - apply (range_ok_block V4 5 _ 32 (10 * 2 ^ 24) 27); [done|vm_compute; reflexivity|by_decision].
  - apply (range_ok_block V4 4 _ 32 (10 * 2 ^ 24) 27); [done|vm_compute; reflexivity|by_decision].
Qed.

Lemma ex_m_ok name t d v : parseCIDR t = Some (ipOf 32 v, block 32 v 28) → valid_block 32 v 28 → node_ok (ex_m name [t] d).
Proof. intros E Hv. constructor; [|constructor]. by apply (text_ok_block _ 32 v 28 V4). Qed.

Lemma ex_life2_ok : alloc_ok ex_life2 ∧ labels_ok ex_life2.
Proof.
  assert ((NewMultiCIDRRangeAllocator ex_params (Some ex_m12) (initState (HC:=refCluster) ex_life2_w)).1
    = Ok tt) as E by (vm_compute; reflexivity).
  destruct (New_outcome (HLb:=refLabels) (HC:=refCluster) refNetUtils_laws refIter_laws ex_default_sel ltac:(vm_compute; reflexivity)
    ex_params ex_m12 ex_life2_w ex_life2 ex_life2_items ltac:(by intros n [=]) ltac:(by intros n [=])) as (Hok & Hlab & _); [|exact (call_result _ _ _ E)|exact (conj Hok Hlab)].
  constructor; [|constructor; [|constructor]];
    [apply (ex_m_ok _ _ _ (10 * 2 ^ 24))|apply (ex_m_ok _ _ _ (10 * 2 ^ 24 + 16))]; solve [vm_compute; reflexivity|by_decision].
Qed.

(** The geometry of a set. *)
Lemma view_layout f s L A w v p n : set_view f s L A → set_ClusterCIDR s = block w v p → valid_block w v p → NodeMaskSize s = n → L = mkLayout w v p n.
Proof.
  intros [HL HW Hs] Ec Hv <-. pose proof (si_layout _ _ _ Hs) as Hl. rewrite (sl_cluster _ _ Hl) in Ec.
  apply block_inj in Ec as (E1 & E2 & E3); [|apply HL|done]. rewrite (sl_node _ _ Hl). destruct L. simpl in *. by subst.
Qed.

Definition ex_wideL : layout := mkLayout 32 (10 * 2 ^ 24) 27 27.

Lemma ex_life2_view : ∃ s A, set_at ex_life2 (1%positive, V4) = Some s ∧ set_view V4 s ex_wideL A ∧ 0 ∈ A.
Proof.
  destruct (set_at ex_life2 (1%positive, V4)) as [s|] eqn:Hs; [|exfalso; revert Hs; vm_compute; discriminate].
  destruct (at_set_ok _ _ _ _ (proj1 ex_life2_ok) Hs) as (L & A & Hv).
  assert (L = ex_wideL) as ->.
  { apply (view_layout V4 s L A); [done| |by_decision|].
    - assert (set_ClusterCIDR <$> set_at ex_life2 (1%positive, V4) = Some (block 32 (10 * 2 ^ 24) 27)) as E by (vm_compute; reflexivity).
      rewrite Hs in E. by injection E.
    - assert (NodeMaskSize <$> set_at ex_life2 (1%positive, V4) = Some 27) as E by (vm_compute; reflexivity).
      rewrite Hs in E. by injection E. }
  exists s, A. split; [done|]. split; [done|]. destruct Hv as [HL HW Hi].
  apply (lookup_key ex_wideL HL A s 0 Hi); [by_decision|].
  assert (bool_decide (is_Some (set_at ex_life2 (1%positive, V4) ≫= λ s, allocatedCIDRMap s !! key ex_wideL 0)) = true) as E by (vm_compute; reflexivity).
  apply bool_decide_eq_true in E. by rewrite Hs in E.
Qed.

(** The other ClusterCIDR has no block allocated. *)
Lemma ex_life2_free l s x : mapped ex_life2 l → l ≠ 1%positive → set_at ex_life2 (l, V4) = Some s → uses V4 s x → False.
Proof.
  intros (label & lst & Hc & Hin) Hne Hs (L & A & i & [_ _ Hi] & HA & _).
  assert (map_to_list (cidrMap ex_life2) = [("kubernetes.io/clusterCIDR in (default)", [1%positive; 2%positive])]) as E by (vm_compute; reflexivity).
  apply elem_of_map_to_list in Hc. rewrite E in Hc. apply list_elem_of_singleton in Hc as [= -> ->].
  apply elem_of_cons in Hin as [->|Hin]; [by destruct Hne|]. apply list_elem_of_singleton in Hin as ->. clear Hne E.
  assert (allocatedCIDRs <$> set_at ex_life2 (2%positive, V4) = Some 0) as E2 by (vm_compute; reflexivity).
  rewrite Hs in E2. injection E2 as E2. rewrite (si_count _ _ _ Hi) in E2.
  clear Hs. assert (size A = 0%nat) as Hz by lia. apply size_empty_inv in Hz. by apply Hz, elem_of_empty in HA.
Qed.

Lemma release_frees_shared_block_witness :
  ∃ st' s' A, ReleaseCIDR (Some (ex_m "m1" ["10.0.0.0/28"] (Some 1))) ex_life2 = (Ok tt, st') ∧
    associated st' "m1" 1 = false ∧ associated st' "m2" 1 = true ∧
    set_at st' (1%positive, V4) = Some s' ∧ set_view V4 s' ex_wideL A ∧
    ∃ st2, allocateCIDR 1 (Some (1%positive, V4)) st' = (Ok (node_block ex_wideL 0), st2).
Proof.
  destruct ex_life2_view as (s & A & Hs & Hv & HA).
  destruct (release_frees_shared_block (HLb:=refLabels) (HC:=refCluster) refNetUtils_laws refIter_laws ex_life2
    (ex_m "m1" ["10.0.0.0/28"] (Some 1)) "m2" ex_default_sel 1%positive [(V4, 10 * 2 ^ 24, 28)] V4 (10 * 2 ^ 24 + 16) 28 s ex_wideL A 0
    (proj1 ex_life2_ok) (proj2 ex_life2_ok)) as (st' & s' & E & H1 & H2 & H3 & H4 & _ & _ & H5).
  - vm_compute. reflexivity.
  - discriminate.
  - vm_compute. reflexivity.
  - constructor; [|constructor]. split; [eexists; vm_compute; reflexivity|]. apply meets_in_range; [by_decision|]. vm_compute. reflexivity.
  - discriminate.
  - vm_compute. reflexivity.
  - exact Hs.
  - exact Hv.
  - by_decision.
  - assert (touched ex_wideL (10 * 2 ^ 24 + 16) 28 = {[0]}) as -> by (vm_compute; reflexivity). intros j ->%elem_of_singleton. exact HA.
  - vm_compute. reflexivity.
  - vm_compute. reflexivity.
  - intros l s' x Hm Hne Hs' Hu. destruct (ex_life2_free l s' x Hm Hne Hs' Hu).
  - exists st', s', (A ∖ cover V4 ex_wideL [(V4, 10 * 2 ^ 24, 28)]). split_and!; [exact E|exact H1|exact H2|exact H3|exact H4|].
    apply H5. intros j Hj Hne. change (0 ≤ j < 1) in Hj. lia.
Defined.
