(* ===== verification/LifecycleTheorems.v ===== *)
(** From a restart on: the start-up of the controller and the run that follows.

    [bs] gives the parsed PodCIDRs of the nodes that the constructor lists, by node
    name; [found] are the records it starts with: for each association it makes, the
    PodCIDRs of the node. *)
From S2P Require Import Prelude GoNet CIDRTheory CIDRText NetUtils MultiCIDRSet IndexTheory IndexProps SetProps SetConstruction.
From S2P Require Import ContainerHeap PriorityQueue Kubernetes Allocator NodeHandlers ClusterCIDRHandlers EventHandlers Stable AllocatorInv AllocateProps MatchProps NodeProps Reference AllocatorKeeps Controller HandlerProps MapInv Examples AllocatorTheorems ReleaseProps HandlerTheorems NodeTheorems IsolationTheorems Retention Records SystemTheorems RestartTheorems.

(** Pairs of a flattened list: within a part and across two parts. *)
Lemma ForallOrdPairs_bind_within {A B} (R : B → B → Prop) (f : A → list B) l x :
  ForallOrdPairs R (l ≫= f) → x ∈ l → ForallOrdPairs R (f x).
Proof.
  induction l as [|y l IH]; [by intros _ ?%elem_of_nil|]. rewrite bind_cons. intros (Hy & Hl & _)%ForallOrdPairs_app [->|Hx]%elem_of_cons; auto.
Qed.

Lemma ForallOrdPairs_bind_across {A B} (R : B → B → Prop) `{!Symmetric R} (f : A → list B) l x y a b :
  ForallOrdPairs R (l ≫= f) → x ∈ l → y ∈ l → x ≠ y → a ∈ f x → b ∈ f y → R a b.
Proof.
  induction l as [|z l IH]; [by intros _ ?%elem_of_nil|]. rewrite bind_cons.
  intros (_ & Hl & Hc)%ForallOrdPairs_app [->|Hx]%elem_of_cons [->|Hy]%elem_of_cons Hn Ha Hb; [done| | |by apply IH].
  - apply Hc; [done|]. apply list_elem_of_bind. by exists y.
  - symmetry. apply Hc; [done|]. apply list_elem_of_bind. by exists x.
Qed.

(** * The records the constructor starts with *)

Section found.
Context `{HC : !Cluster}.
Implicit Types (st : AllocState) (nodes : list Node) (bs : string → list cidr).

Definition found st nodes bs : records :=
  settled st (list_to_map (nodes ≫= λ node, (λ cc, ((node_Name node, cc), cidr_net <$> bs (node_Name node))) <$> (map_to_list (objs st)).*1)).

Lemma found_spec st nodes bs n cc l : found st nodes bs !! (n, cc) = Some l ↔
  associated st n cc = true ∧ (∃ node, node ∈ nodes ∧ node_Name node = n) ∧ l = cidr_net <$> bs n.
Proof using.
  unfold found. set (ls := nodes ≫= _).
  assert (∀ k l, (k, l) ∈ ls → (∃ node, node ∈ nodes ∧ node_Name node = k.1) ∧ l = cidr_net <$> bs k.1) as Hls.
  { intros k l' (node & Hk & Hin)%list_elem_of_bind. apply list_elem_of_fmap in Hk as (c & [= -> ->] & _). split; [by exists node|done]. }
  split.
  - intros [Hl Ha]%settled_sub. apply elem_of_list_to_map_2, Hls in Hl as [? ?]. done.
  - intros (Ha & (node & Hin & <-) & ->). unfold settled. apply map_lookup_filter_Some. split; [|done].
    destruct (list_to_map ls !! (node_Name node, cc)) as [l'|] eqn:El; [by apply elem_of_list_to_map_2, Hls in El as [_ ->]|].
    exfalso. apply not_elem_of_list_to_map_2 in El. apply El. apply list_elem_of_fmap. exists ((node_Name node, cc), cidr_net <$> bs (node_Name node)).
    split; [done|]. apply list_elem_of_bind. exists node. split; [|done]. apply list_elem_of_fmap. exists cc. split; [done|].
    unfold associated in Ha. destruct (objs st !! cc) as [c|] eqn:Hc; [|done]. apply list_elem_of_fmap. exists (cc, c). split; [done|].
    by apply elem_of_map_to_list.
Qed.

(** Every association is that of a listed node, whose PodCIDRs are allocated there. *)
Definition from_nodes st nodes bs : Prop :=
  ∀ n cc, associated st n cc = true → (∃ node, node ∈ nodes ∧ node_Name node = n) ∧ mapped st cc ∧ occupied_in st cc (bs n).

Lemma found_isolates st nodes bs : from_nodes st nodes bs →
  (∀ node, node ∈ nodes → (∀ c, c ∈ bs (node_Name node) → cidr_valid c) ∧ block_sized st (bs (node_Name node))) →
  ForallOrdPairs disjoint_nets (nodes ≫= λ node, cidr_net <$> bs (node_Name node)) → isolates st (found st nodes bs).
Proof using.
  intros Hfrom Hbs Hd. split.
  - intros n cc. split.
    + intros Ha. exists (cidr_net <$> bs n). apply found_spec. by destruct (Hfrom n cc Ha) as [? _].
    + by intros [l [Ha _]%found_spec].
  - intros n cc l b (Ha & (node & Hin & <-) & ->)%found_spec (c & -> & Hc)%list_elem_of_fmap.
    destruct (Hfrom _ _ Ha) as (_ & Hm & Hocc), (Hbs node Hin) as [Hval Hsz]. apply (occupied_held st (bs (node_Name node))); [done..|by apply Hval].
  - intros n m cc cc' l l' b b' (_ & (x & Hx & <-) & ->)%found_spec (_ & (y & Hy & <-) & ->)%found_spec Hne Hb Hb'.
    apply (ForallOrdPairs_bind_across disjoint_nets _ _ x y b b' Hd); [done..|congruence|done|done].
  - intros n cc cc' l l' (_ & _ & ->)%found_spec (_ & _ & ->)%found_spec. by left.
  - intros n cc l (_ & (x & Hx & <-) & ->)%found_spec. by eapply (ForallOrdPairs_bind_within _ _ _ x Hd).
Qed.
End found.

(** * The loop over the nodes *)

Section lifecycle.
Context `{HN : !NetUtils} `{HLb : !Labels} `{HC : !Cluster} `{HI : !MapIter}.
Context (HNL : NetUtilsLaws HN) (HIL : MapIterLaws HI) (sel : Selector) (Hsel : nodeSelectorAsSelector (Some defaultNodeSelector) = Ok sel).
Context (nodes : list Node) (bs : string → list cidr).
Implicit Types st : AllocState.

Lemma from_same st st' : loses [] [] st st' → same_assoc st st' → from_nodes st nodes bs → from_nodes st' nodes bs.
Proof using.
  intros Hl Hsa Hf n cc Ha. rewrite Hsa in Ha. destruct (Hf n cc Ha) as (Hn & Hm & Ho). split; [done|]. split.
  - by apply (ls_mapped _ _ _ _ Hl n); [apply not_elem_of_nil|..].
  - by apply (occupied_kept [] st).
Qed.

Lemma from_body node st st' : alloc_ok st → labels_ok st → node ∈ nodes → shows node (bs (node_Name node)) →
  nodeBody node st = (Ok tt, st') → from_nodes st nodes bs → from_nodes st' nodes bs ∧ alloc_ok st' ∧ labels_ok st'.
Proof using HNL HIL Hsel.
  intros Hok Hlab Hin Hbs E Hf. unfold nodeBody in E. destruct (Nat.eqb_spec (length (PodCIDRs node)) 0) as [Hl|Hl].
  { by injection E as <-. }
  assert (PodCIDRs node ≠ []) as Hne by (intros Hnil; by rewrite Hnil in Hl).
  destruct (occupyCIDRs_run HNL HIL st node sel _ Hok Hlab Hsel Hne Hbs) as (ls & st1 & El & Hm & Hok1 & Hg & Hr).
  pose proof (grows_labels _ _ Hg Hlab) as Hlab1.
  assert (from_nodes st1 nodes bs) as Hf1 by (apply (from_same st); [by apply grows_loses|by apply grows_assoc|done]).
  destruct (occupier st ls (bs (node_Name node))) as [[cc []]|].
  - destruct Hr as (Hcc & Er & Hocc). rewrite (M_bind_Ok _ _ _ _ _ (attempt_Ok _ _ _ _ Er)) in E. injection E as <-.
    pose proof (grows_mapped st st1 cc Hg (Hm cc Hcc)) as Hm1. destruct (ao_mapped _ Hok1 cc Hm1) as [c Hc].
    pose proof (updObj_associate st1 cc c (node_Name node) Hc) as Eu. rewrite (updObj_run st1 cc c _ Hc) in Eu.
    apply (f_equal snd) in Eu. simpl snd in Eu. split.
    + assert (loses [] [] st1 (associate (node_Name node) cc st1)) as Hlo by (rewrite <- Eu; by apply advances_loses, associate_advances).
      intros n k. rewrite associate_cases by (by exists c). intros [Ha|[= -> ->]].
      * destruct (Hf1 n k Ha) as (Hn & Hmk & Ho). split; [done|]. split; [done|]. by apply (occupied_kept [] st1).
      * split; [by exists node|]. split; [done|]. by apply (occupied_kept [] st1).
    + rewrite <- Eu. split; [|done]. apply (objs_insert st1 cc c); [done|done|]. by apply with_nodes_ok, (ao_objs _ Hok1 cc).
  - unfold attempt, mbind, M_bind in E. rewrite Hr in E. discriminate.
  - unfold attempt, mbind, M_bind in E. rewrite Hr in E. discriminate.
  - unfold attempt, mbind, M_bind in E. rewrite Hr in E. by injection E as <-.
Qed.

Lemma from_loop l st st' : alloc_ok st → labels_ok st → (∀ node, node ∈ l → node ∈ nodes ∧ shows node (bs (node_Name node))) →
  forM_ l nodeBody st = (Ok tt, st') → from_nodes st nodes bs → from_nodes st' nodes bs.
Proof using HNL HIL Hsel.
  revert st. induction l as [|node l IH]; intros st Hok Hlab Hl E Hf; [by injection E as <-|].
  cbn [forM_] in E. apply M_bind_inv in E as ([] & st1 & E1 & E2). destruct (Hl node) as [Hin Hbs]; [by left|].
  destruct (from_body node st st1 Hok Hlab Hin Hbs E1 Hf) as (Hf1 & Hok1 & Hlab1).
  apply (IH st1); [done|done| |done|done]. intros m Hm. apply Hl. by right.
Qed.
End lifecycle.

(** C1. Isolation from the start of the controller on.  Let the constructor return,
    with ClusterCIDRs it can read, and let the PodCIDRs of the nodes it listed share no
    address and have the size of the blocks of every ClusterCIDR they overlap.  Then
    the records it starts with are its associations, among them one for each node
    whose PodCIDRs lie in a ClusterCIDR offered to it.  Through every run of critical
    sections from there on, with any node and ClusterCIDR objects that satisfy
    [arrives] and [leaves] where PodCIDRs are occupied or released, the state is well
    formed, no address is recorded for two nodes, every association has its record,
    and every CIDR recorded is allocated: for the nodes from before the start and
    those served since alike. *)
Theorem lifecycle_isolated `{HN : !NetUtils} `{HLb : !Labels} `{HC : !Cluster} `{HI : !MapIter}
  (HNL : NetUtilsLaws HN) (HIL : MapIterLaws HI) (Wok : World → Prop) (HW : world_closed Wok) (HWn : world_named Wok)
  params nodes (w : World) (st0 : AllocState) sel (bs : string → list cidr)
  (Hsel : nodeSelectorAsSelector (Some defaultNodeSelector) = Ok sel) (Hw : Wok w) (Hp : params_ok params)
  (Hitems : ∀ l st1 items, listClusterCIDRs (initState w) = (Ok l, st1) →
    createDefaultClusterCIDR (default [] l) params = Ok items → Forall readable items)
  (E : NewMultiCIDRRangeAllocator params (Some nodes) (initState w) = (Ok tt, st0))
  (Hparse : ∀ node, node ∈ nodes → shows node (bs (node_Name node)))
  (Hsize : ∀ node, node ∈ nodes → block_sized st0 (bs (node_Name node)))
  (Hapart : ForallOrdPairs disjoint_nets (nodes ≫= λ node, cidr_net <$> bs (node_Name node))) :
  (∀ node, node ∈ nodes → PodCIDRs node ≠ [] → servable st0 node (bs (node_Name node)) →
     ∃ cc, found st0 nodes bs !! (node_Name node, cc) = Some (cidr_net <$> bs (node_Name node))) ∧
  ∀ st recs, system Wok st0 (found st0 nodes bs) st recs → alloc_ok st ∧ isolates st recs.
Proof.
  assert (Forall node_ok nodes) as Hns.
  { apply Forall_forall. intros node Hin. by eapply shows_node_ok, Hparse. }
  destruct Hp as (Hp1 & Hs1 & Hs2).
  destruct (New_outcome HNL HIL sel Hsel params nodes w st0 Hitems Hs1 Hs2 Hns E) as (Hok & Hlab & Hres).
  destruct (New_split HNL params nodes w st0 Hitems Hs1 Hs2 E) as (st5 & Hok5 & Hlab5 & Hno & El).
  assert (from_nodes st0 nodes bs) as Hfrom.
  { apply (from_loop HNL HIL sel Hsel nodes bs nodes st5); [done..| |exact El|].
    - intros node Hin. split; [done|by apply Hparse].
    - intros n cc. by rewrite Hno. }
  destruct (keeps_New HNL Wok HW params (Some nodes) (conj Hp1 (conj Hs1 Hs2)) ltac:(by intros l [= <-]) (initState w) (init_inv Wok w Hw)) as [Hinv _].
  rewrite E in Hinv. split.
  - intros node Hin Hne Hserv. destruct (Hres node (bs (node_Name node)) Hin Hne (Hparse node Hin) Hserv) as (cc & _ & Ha & _).
    exists cc. apply found_spec. split; [done|]. split; [by exists node|done].
  - intros st recs Hrun. destruct (system_inv HNL HIL sel Hsel Wok HW HWn st0 (found st0 nodes bs) st recs) as [[Ho _] _ Hi]; [|done|done].
    split; [done|done|]. apply found_isolates; [done| |done]. intros node Hin. split; [|by apply Hsize].
    intros c. by eapply shows_valid, Hparse.
Qed.

(** Two nodes found at the start, and two served afterwards. *)
Definition ex_n7 : Node := ex_node "n7" ∅ ["10.0.0.0/28"].
Definition ex_started2 : AllocState := (NewMultiCIDRRangeAllocator ex_params (Some [ex_n7; ex_n8]) (initState (HC:=refCluster) ex_world)).2.
Definition ex_found (name : string) : list cidr :=
  if decide (name = "n7") then [(V4, 10 * 2 ^ 24, 28)] else if decide (name = "n8") then [(V4, 10 * 2 ^ 24 + 16, 28)] else [].

Lemma ex_started2_items (l : option (list v1ClusterCIDR)) st1 items : listClusterCIDRs (initState (HC:=refCluster) ex_world) = (Ok l, st1) →
  createDefaultClusterCIDR (default [] l) ex_params = Ok items → Forall (readable (HLb:=refLabels)) items.
Proof.
  assert ((listClusterCIDRs (initState (HC:=refCluster) ex_world)).1 = Ok (Some [ex_cc4; ex_dual])) as E by (vm_compute; reflexivity).
  intros E1 E2. rewrite E1 in E. injection E as ->. simpl in E2. injection E2 as <-.
  constructor; [|constructor; [|constructor]]; (split; [exact ex_cc4_ok || exact ex_dual_ok|]); intros k Hk.
  - apply (ex_key ex_cc4 k Hk). by left.
  - apply (ex_key ex_dual k Hk). by right.
Qed.

Lemma ex_found_parses node : node ∈ [ex_n7; ex_n8] → Forall2 (λ t b, parses t b ∧ cidr_valid b) (PodCIDRs node) (ex_found (node_Name node)).
Proof.
  intros [->|[->|?%elem_of_nil]%elem_of_cons]%elem_of_cons; [|exact ex_n8_parses|done].
  constructor; [|constructor]. split; [eexists; vm_compute; reflexivity|by_decision].
Qed.

Lemma ex_found_apart : ForallOrdPairs disjoint_nets ([ex_n7; ex_n8] ≫= λ node, cidr_net <$> ex_found (node_Name node)).
Proof.
  constructor; [constructor; [|constructor]|constructor; constructor].
  apply disjoint_blocks; [by_decision|by_decision|right; vm_compute; reflexivity].
Qed.

Definition ex_n7_deleted : Node := mkNode "n7" ∅ ["10.0.0.0/28"] (Some 1).
Definition ex_life_a : AllocState := (ReleaseCIDR (Some ex_n7_deleted) ex_started2).2.
Definition ex_life_b : AllocState := (AllocateOrOccupyCIDR (Some ex_n1) ex_life_a).2.
Definition ex_life_c : AllocState := (ReleaseCIDR (Some ex_n7_deleted) ex_life_b).2.
Definition ex_found_recs : records := found ex_started2 [ex_n7; ex_n8] ex_found.
Definition ex_life_recs : records := settled ex_life_c (noted ex_n1 ex_life_a (settled ex_life_a ex_found_recs)).

Lemma ex_life_recs_b : noted ex_n1 ex_life_a (settled ex_life_a ex_found_recs)
  = <[("n1", 1%positive) := [cidr_net ex_block]]> (<[("n8", 1%positive) := [block 32 (10 * 2 ^ 24 + 16) 28]]> ∅).
Proof. vm_compute. reflexivity. Qed.

(** n7 is released, n1 gets its block, and the delete callback releases n7 again. *)
Lemma ex_life_run : system (HLb:=refLabels) (HC:=refCluster) refNamed ex_started2 ex_found_recs ex_life_c ex_life_recs.
Proof.
  assert (node_ok ex_n7_deleted) as Hn by exact ex_n1_deleted_ok.
  eapply sys_release; [|exact Hn| |apply surjective_pairing].
  - eapply sys_allocate; [|by constructor|intros Hne; by destruct Hne|apply surjective_pairing].
    eapply sys_release; [apply sys_start|exact Hn| |apply surjective_pairing].
    intros _ cc _. exists [ex_block], 1%positive. split; [by apply ex_shows|]. vm_compute. reflexivity.
  - intros _ cc. rewrite ex_life_recs_b, !lookup_insert_ne, lookup_empty by done. by intros [? ?].
Qed.

Lemma ex_found_sized node : node ∈ [ex_n7; ex_n8] → block_sized ex_started2 (ex_found (node_Name node)).
Proof.
  intros Hn. apply ex_sized; [vm_compute; reflexivity..|]. intros f v p.
  apply elem_of_cons in Hn as [->|Hn]; [|apply list_elem_of_singleton in Hn as ->]; by intros [= -> -> ->]%list_elem_of_singleton.
Qed.

Lemma lifecycle_isolated_witness :
  ex_found_recs !! ("n7", 1%positive) = Some [cidr_net ex_block] ∧
  ex_life_recs !! ("n1", 1%positive) = Some [cidr_net ex_block] ∧ isolates ex_life_c ex_life_recs.
Proof.
  split; [vm_compute; reflexivity|]. split; [vm_compute; reflexivity|].
  assert (refNamed ex_world) as Hw by exact (ex_named ex_n1 ex_dual (Forall_nil_2 _) eq_refl ex_dual_ok eq_refl _).
  assert ((NewMultiCIDRRangeAllocator ex_params (Some [ex_n7; ex_n8]) (initState (HC:=refCluster) ex_world)).1 = Ok tt) as E by (vm_compute; reflexivity).
  destruct (lifecycle_isolated (HLb:=refLabels) (HC:=refCluster) refNetUtils_laws refIter_laws refNamed refNamed_closed refNamed_named
    ex_params [ex_n7; ex_n8] ex_world ex_started2 ex_default_sel ex_found ltac:(vm_compute; reflexivity) Hw ex_params_ok ex_started2_items
    (call_result _ _ _ E) ex_found_parses) as [_ H].
  - exact ex_found_sized.
  - exact ex_found_apart.
  - apply (H ex_life_c ex_life_recs). exact ex_life_run.
Defined.
