(* ===== verification/ServiceTheorems.v ===== *)
(** The service range: [filterOutServiceRange] marks its blocks in every mapped
    ClusterCIDR, and while these stay marked no node is given an address of it from
    the range of such a ClusterCIDR. *)
From S2P Require Import Prelude GoNet CIDRTheory CIDRText NetUtils MultiCIDRSet IndexTheory IndexProps SetProps SetConstruction.
From S2P Require Import ContainerHeap PriorityQueue Kubernetes Allocator NodeHandlers ClusterCIDRHandlers EventHandlers AllocatorInv AllocateProps MatchProps NodeProps Reference AllocatorKeeps Controller HandlerProps MapInv Examples AllocatorTheorems ReleaseProps HandlerTheorems NodeTheorems IsolationTheorems Retention.

Section marks.
Context `{HC : !Cluster} (f : family) (v p : Z).
Implicit Types st : AllocState.

(** Nothing but blocks the range meets is marked. *)
Record marks st st' : Prop := {
  mk_grows : grows st st';
  mk_ok : alloc_ok st → alloc_ok st';
  mk_set l g s L A : set_at st (l, g) = Some s → set_view g s L A →
    ∃ s' A', set_at st' (l, g) = Some s' ∧ set_view g s' L A' ∧ A ⊆ A' ∧ A' ⊆ A ∪ cover g L [(f, v, p)]
}.

#[export] Instance marks_preorder : PreOrder marks.
Proof using.
  split.
  - intros st. split; [reflexivity|done|]. intros l g s L A Hs Hv. exists s, A. split_and!; [done..|set_solver].
  - intros st1 st2 st3 [G1 O1 S1] [G2 O2 S2]. split; [by etransitivity|auto|]. intros l g s L A Hs Hv.
    destruct (S1 l g s L A Hs Hv) as (s2 & A2 & Hs2 & Hv2 & ? & ?). destruct (S2 l g s2 L A2 Hs2 Hv2) as (s3 & A3 & Hs3 & Hv3 & ? & ?).
    exists s3, A3. split_and!; [done..|set_solver|set_solver].
Qed.

(** The set of [l] has all blocks the range meets. *)
Definition marked st (l : loc) : Prop :=
  ∀ s L A, set_at st (l, f) = Some s → set_view f s L A → touched L v p ⊆ A.

Lemma marked_grows st st' l : alloc_ok st → grows st st' → marked st l → marked st' l.
Proof using.
  intros Hok Hg Hl s' L' A' Hs' Hv'. destruct (grows_present st st' l f Hg) as [s Hs]; [by eexists|].
  destruct (at_set_ok _ _ _ _ Hok Hs) as (L & A & Hv). destruct (gr_set _ _ Hg l f s Hs) as (s1 & Hs1 & _ & H).
  rewrite Hs' in Hs1. injection Hs1 as <-. destruct (H L A Hv) as (A1 & Hv1 & HA).
  destruct (set_view_unique _ _ _ _ _ _ Hv' Hv1) as [-> ->]. etransitivity; [by eapply Hl|done].
Qed.

End marks.

Section service.
Context `{HN : !NetUtils} `{HLb : !Labels} `{HC : !Cluster} `{HI : !MapIter}.
Context (HNL : NetUtilsLaws HN) (HIL : MapIterLaws HI).
Implicit Types st : AllocState.
Context (f : family) (v p : Z) (Hb : valid_block (fam_width f) v p).

(** No block is touched by a range outside the set's. *)
Lemma touched_outside L : layout_ok L → width L = fam_width f → overlaps (cluster_block L) (block (fam_width f) v p) = false →
  touched L v p = ∅.
Proof using Hb.
  intros HL HW Ho. apply set_eq. intros i. rewrite elem_of_touched, elem_of_empty by done. split; [|done].
  intros [Hi Ht]. rewrite <- HW in Hb. apply (touches_spec L HL v p i Hb Hi) in Ht as (x & Hx & Hxb).
  assert (overlaps (cluster_block L) (block (fam_width f) v p) = true) as E; [|congruence].
  rewrite <- HW. unfold cluster_block. apply overlaps_spec; [apply HL|done|]. exists x. split; [|done].
  unfold in_block. rewrite cluster_size by done. unfold index_of in Hx.
  pose proof (pow2_pos _ (hostbits_nonneg L HL)). pose proof (Z.div_mod (x - base L) (2 ^ hostbits L)).
  pose proof (Z.mod_pos_bound (x - base L) (2 ^ hostbits L)). nia.
Qed.

(** One ClusterCIDR. *)
Lemma occupyService_run st cc : alloc_ok st → is_Some (set_at st (cc, f)) →
  ∃ st', occupyServiceCIDR cc (block (fam_width f) v p) st = (Ok tt, st') ∧ marks f v p st st' ∧ marked f v p st' cc.
Proof using HNL Hb.
  clear HIL HI. intros Hok [s Hs]. destruct (at_set_ok _ _ _ _ Hok Hs) as (L & A & Hv). unfold occupyServiceCIDR.
  mstep (associated_set HNL st cc f s v p Hs Hb). mstep (readSet_run st cc f s Hs). cbn zeta.
  rewrite <- negb_orb. fold (overlaps (set_ClusterCIDR s) (block (fam_width f) v p)).
  destruct (overlaps (set_ClusterCIDR s) (block (fam_width f) v p)) eqn:Ho; cbn [negb].
  - destruct (Occupy_changed HNL st cc (f, v, p) Hok) as (st' & E & Hch); [split; [done|by exists s]|].
    exists st'. split; [by apply wrapErr_Ok|]. split.
    + split; [eapply changed_grows; [done| |exact Hch]; set_solver|intros _; by eapply changed_ok|].
      intros l g s0 L0 A0 Hs0 Hv0. destruct (decide (l = cc)) as [->|Hne].
      * destruct (ch_set _ _ _ _ Hch g s0 L0 A0 Hs0 Hv0) as (s1 & Hs1 & Hv1 & _). exists s1, (A0 ∪ cover g L0 [(f, v, p)]).
        split_and!; [done..|set_solver|done].
      * exists s0, A0. unfold set_at in *. simpl in *. rewrite (ch_other _ _ _ _ Hch) by done. split_and!; [done..|set_solver].
    + intros s1 L1 A1 Hs1 Hv1. destruct (ch_set _ _ _ _ Hch f s L A Hs Hv) as (s2 & Hs2 & Hv2 & _).
      rewrite Hs1 in Hs2. injection Hs2 as <-. destruct (set_view_unique _ _ _ _ _ _ Hv1 Hv2) as [-> ->].
      intros i Hi. apply elem_of_union_r, elem_of_cover. exists v, p. split; [by left|done].
  - exists st. split; [done|]. split; [reflexivity|]. intros s1 L1 A1 Hs1 Hv1. rewrite Hs in Hs1. injection Hs1 as <-.
    rewrite (view_cluster f s L1 A1 Hv1) in Ho. rewrite touched_outside; [set_solver|apply Hv1|apply Hv1|done].
Qed.

(** A list of ClusterCIDRs, then the lists of the map. *)
Definition markList (l : list loc) : M AllocState unit :=
  forM_ l (λ clusterCIDR, attempt (occupyServiceCIDR clusterCIDR (block (fam_width f) v p)) ;; mret tt).

Lemma markList_run l st : alloc_ok st → (∀ cc, cc ∈ l → is_Some (set_at st (cc, f))) →
  ∃ st', markList l st = (Ok tt, st') ∧ marks f v p st st' ∧ ∀ cc, cc ∈ l → marked f v p st' cc.
Proof using HNL Hb.
  revert st. induction l as [|cc l IH]; intros st Hok Hl.
  { exists st. split; [done|]. split; [reflexivity|]. by intros cc ?%elem_of_nil. }
  destruct (occupyService_run st cc Hok) as (st1 & E & Hm & Hcc); [apply Hl; by left|].
  destruct (IH st1) as (st2 & E2 & Hm2 & Hl2); [by apply Hm| |].
  { intros k Hk. destruct (Hl k) as [s Hs]; [by right|]. destruct (gr_set _ _ (mk_grows _ _ _ _ _ Hm) k f s Hs) as (s' & Hs' & _). by exists s'. }
  exists st2. split; [|split; [by etransitivity|]].
  - unfold markList. erewrite forM_next; [exact E2|]. by mstep (attempt_Ok _ _ _ _ E).
  - intros k [->|Hk]%elem_of_cons; [|by apply Hl2]. eapply marked_grows; [|apply Hm2|done]. by apply Hm.
Qed.

Lemma markLists_run (ls : list (string * list loc)) st : alloc_ok st → (∀ label l cc, (label, l) ∈ ls → cc ∈ l → is_Some (set_at st (cc, f))) →
  ∃ st', forM_ ls (λ '(_, l), markList l) st = (Ok tt, st') ∧ marks f v p st st'
    ∧ ∀ label l cc, (label, l) ∈ ls → cc ∈ l → marked f v p st' cc.
Proof using HNL Hb.
  revert st. induction ls as [|[label l] ls IH]; intros st Hok Hl.
  { exists st. split; [done|]. split; [reflexivity|]. by intros label l cc ?%elem_of_nil. }
  destruct (markList_run l st Hok) as (st1 & E & Hm & Hcc); [intros cc Hcc; eapply Hl; [by left|done]|].
  destruct (IH st1) as (st2 & E2 & Hm2 & Hl2); [by apply Hm| |].
  { intros la lk k Hla Hk. destruct (Hl la lk k) as [s Hs]; [by right|done|].
    destruct (gr_set _ _ (mk_grows _ _ _ _ _ Hm) k f s Hs) as (s' & Hs' & _). by exists s'. }
  exists st2. split; [by erewrite forM_next|]. split; [by etransitivity|].
  intros la lk k [[= -> ->]|Hla]%elem_of_cons Hk; [|by eapply Hl2]. eapply marked_grows; [|apply Hm2|by apply Hcc]. by apply Hm.
Qed.

Lemma marks_iter st : marks f v p st (with_iter st).
Proof using.
  split; [|intros ?; by apply alloc_ok_iter|].
  - split; [by split|done|done|]. intros l g s Hs. exists s. split; [done|reflexivity].
  - intros l g s L A Hs Hv. exists s, A. split; [done|]. split; [done|]. split; [done|apply union_subseteq_l].
Qed.

Lemma filterOut_run st : alloc_ok st → (∀ l, mapped st l → is_Some (set_at st (l, f))) →
  ∃ st', filterOutServiceRange (block (fam_width f) v p) st = (Ok tt, st') ∧ marks f v p st st' ∧ ∀ l, mapped st l → marked f v p st' l.
Proof using HNL HIL Hb.
  intros Hok Hall. pose proof (marks_iter st) as Hi.
  destruct (markLists_run (iter_order (iters st) (cidrMap st)) (with_iter st)) as (st' & E & Hm & Hl).
  { by apply alloc_ok_iter. }
  { intros label l cc Hl%(range_elem HIL) Hcc. apply Hall. by exists label, l. }
  exists st'. split; [|split; [by etransitivity|]].
  - unfold filterOutServiceRange. mstep (rangeMap_run st). exact E.
  - intros cc (label & l & Hlab & Hcc). eapply Hl; [by apply (range_elem HIL)|done].
Qed.

(** A ClusterCIDR without a set of the family: the nil pointer is read. *)
Lemma occupyService_panics st cc : is_Some (objs st !! cc) → set_at st (cc, f) = None →
  occupyServiceCIDR cc (block (fam_width f) v p) st = (Panic NilDereference, st).
Proof using HNL Hb.
  clear HIL HI. intros [c Hc] Hs. unfold set_at in Hs. simpl in Hs. rewrite Hc in Hs. simpl in Hs.
  pose proof (associatedCIDRSet_run HNL st cc c f v p Hc Hb) as E. rewrite Hs in E. simpl in E. unfold occupyServiceCIDR. by mstep E.
Qed.

Definition lacking st (cc : loc) : Prop := is_Some (objs st !! cc) ∧ set_at st (cc, f) = None.

Lemma lacking_marks st st' cc : marks f v p st st' → lacking st cc → lacking st' cc.
Proof using.
  intros Hm [Hc Hs]. split; [by apply (grows_obj st); [apply Hm|]|]. by apply (gr_none _ _ (mk_grows _ _ _ _ _ Hm)).
Qed.

Lemma markList_panics l st : alloc_ok st → (∀ cc, cc ∈ l → is_Some (objs st !! cc)) → (∃ cc, cc ∈ l ∧ lacking st cc) →
  ∃ st', markList l st = (Panic NilDereference, st') ∧ marks f v p st st'.
Proof using HNL Hb.
  revert st. induction l as [|cc l IH]; intros st Hok Hl (k & Hk & Hlk); [by apply elem_of_nil in Hk|].
  destruct (set_at st (cc, f)) as [s|] eqn:Hs.
  - destruct (occupyService_run st cc Hok) as (st1 & E & Hm & _); [by exists s|].
    destruct (IH st1) as (st2 & E2 & Hm2); [by apply Hm| | |].
    + intros k' Hk'. apply (grows_obj st); [apply Hm|apply Hl; by right].
    + exists k. split; [|by apply (lacking_marks st)]. apply elem_of_cons in Hk as [->|]; [|done]. destruct Hlk. congruence.
    + exists st2. split; [|by etransitivity]. unfold markList. erewrite forM_next; [exact E2|]. by mstep (attempt_Ok _ _ _ _ E).
  - exists st. split; [|reflexivity]. pose proof (occupyService_panics st cc (Hl cc ltac:(by left)) Hs) as E.
    unfold markList. cbn [forM_]. unfold attempt, mbind, M_bind. by rewrite E.
Qed.

Lemma markLists_panics (ls : list (string * list loc)) st : alloc_ok st → (∀ label l cc, (label, l) ∈ ls → cc ∈ l → is_Some (objs st !! cc)) →
  (∃ label l cc, (label, l) ∈ ls ∧ cc ∈ l ∧ lacking st cc) →
  ∃ st', forM_ ls (λ '(_, l), markList l) st = (Panic NilDereference, st') ∧ marks f v p st st'.
Proof using HNL Hb.
  revert st. induction ls as [|[label l] ls IH]; intros st Hok Hl (la & lk & k & Hla & Hk & Hlk); [by apply elem_of_nil in Hla|].
  assert (∀ cc, cc ∈ l → is_Some (objs st !! cc)) as Hobj by (intros cc Hcc; eapply Hl; [by left|done]).
  destruct (decide (Exists (λ cc, set_at st (cc, f) = None) l)) as [(cc & Hcc & Hs)%Exists_exists|Hall].
  - destruct (markList_panics l st Hok Hobj) as (st1 & E & Hm); [exists cc; split; [done|by split; [apply Hobj|]]|].
    exists st1. split; [|done]. cbn [forM_]. by rewrite (M_bind_Panic _ _ _ _ _ E).
  - destruct (markList_run l st Hok) as (st1 & E & Hm & _).
    { intros cc Hcc. apply not_eq_None_Some. intros Hs. apply Hall, Exists_exists. by exists cc. }
    destruct (IH st1) as (st2 & E2 & Hm2); [by apply Hm| | |].
    + intros la' lk' k' Hla' Hk'. apply (grows_obj st); [apply Hm|]. eapply Hl; [by right|done].
    + apply elem_of_cons in Hla as [[= -> ->]|Hla]; [|exists la, lk, k; split_and!; [done|done|by apply (lacking_marks st)]].
      destruct Hall. apply Exists_exists. exists k. split; [done|apply Hlk].
    + exists st2. split; [|by etransitivity]. by erewrite forM_next.
Qed.

Lemma filterOut_panics st l : alloc_ok st → mapped st l → set_at st (l, f) = None →
  ∃ st', filterOutServiceRange (block (fam_width f) v p) st = (Panic NilDereference, st') ∧ marks f v p st st'.
Proof using HNL HIL Hb.
  intros Hok Hm Hs. pose proof (ao_mapped _ Hok l Hm) as Hobj.
  destruct (markLists_panics (iter_order (iters st) (cidrMap st)) (with_iter st)) as (st' & E & Hmk).
  - by apply alloc_ok_iter.
  - intros label l' cc Hl%(range_elem HIL) Hcc. apply (ao_mapped _ Hok). by exists label, l'.
  - destruct Hm as (label & lst & Hl & Hin). exists label, lst, l. split; [by apply (range_elem HIL)|]. by split.
  - exists st'. split; [|by etransitivity; [apply marks_iter|]]. unfold filterOutServiceRange. mstep (rangeMap_run st). exact E.
Qed.

(** A marked address in the range of its ClusterCIDR is in use as long as its blocks
    are not given back. *)
Lemma marked_used N bs st st' l s L A x : mapped st' l → set_at st (l, f) = Some s → set_view f s L A → touched L v p ⊆ A →
  loses N bs st st' → cover f L bs ## touched L v p → valid_addr (fam_width f) x →
  Contains (block (fam_width f) v p) (ipOf (fam_width f) x) = true → Contains (set_ClusterCIDR s) (ipOf (fam_width f) x) = true → used st' f x.
Proof using Hb.
  intros Hm Hs Hv HA Hl Hd Hx Hxb Hxc. destruct (ls_set _ _ _ _ Hl l f s L A Hs Hv) as (s' & A' & Hs' & Hv' & HA').
  pose proof (sv_ok _ _ _ _ Hv) as HL. pose proof (sv_width _ _ _ _ Hv) as HW. rewrite (view_cluster _ _ _ _ Hv) in Hxc.
  unfold cluster_block in Hxc. rewrite HW in Hxc. apply Contains_in_block in Hxc as [_ Hxc]; [|rewrite <- HW; apply HL|done].
  apply Contains_in_block in Hxb as [_ Hxb]; [|done|done].
  exists l, s'. split; [done|]. split; [done|]. apply (uses_view f s' L A' x Hv'). exists (index_of L x).
  split; [|by apply (index_of_in_block L HL)]. assert (0 ≤ index_of L x < nmax L) as Hi by (apply (index_of_bound L HL); by rewrite HW).
  assert (index_of L x ∈ touched L v p) as Ht.
  { apply elem_of_touched. split; [done|]. apply (touches_spec L HL); [by rewrite HW|done|]. exists x. split; [done|by rewrite HW]. }
  apply HA', elem_of_difference. split; [by apply HA|]. intros Hc. by apply (Hd (index_of L x)).
Qed.
End service.

(** C16. The service range.  On a well-formed state [filterOutServiceRange] panics when
    a mapped ClusterCIDR has no set of the range's family.  When all have one, it
    succeeds, marks in each of them exactly the blocks the range shares an address
    with, and changes nothing else.  In any well-formed state later on, as far as a
    ClusterCIDR mapped then is still mapped and no CIDR given back since meets one of
    its blocks that the range meets, no CIDR allocated to a node, from whatever
    ClusterCIDR, contains an address of the service range in its range. *)
Theorem service_range_reserved `{HN : !NetUtils} `{HLb : !Labels} `{HC : !Cluster} `{HI : !MapIter}
  (HNL : NetUtilsLaws HN) (HIL : MapIterLaws HI) (st : AllocState) f v p sel
  (Hok : alloc_ok st) (Hsel : nodeSelectorAsSelector (Some defaultNodeSelector) = Ok sel) (Hb : valid_block (fam_width f) v p) :
  (∀ l, mapped st l → set_at st (l, f) = None →
     ∃ st1, filterOutServiceRange (block (fam_width f) v p) st = (Panic NilDereference, st1)) ∧
  ((∀ l, mapped st l → is_Some (set_at st (l, f))) →
   ∃ st1, filterOutServiceRange (block (fam_width f) v p) st = (Ok tt, st1) ∧ marks f v p st st1 ∧
    (∀ l s L A, mapped st l → set_at st (l, f) = Some s → set_view f s L A →
       ∃ s1, set_at st1 (l, f) = Some s1 ∧ set_view f s1 L (A ∪ touched L v p)) ∧
    ∀ N bs st2 node cidrs cc st3, alloc_ok st2 → labels_ok st2 → loses N bs st1 st2 → prioritizedCIDRs node st2 = (Ok (cidrs, cc), st3) →
      ∀ l s L A x b, mapped st l → mapped st2 l → set_at st (l, f) = Some s → set_view f s L A → cover f L bs ## touched L v p →
        valid_addr (fam_width f) x → Contains (block (fam_width f) v p) (ipOf (fam_width f) x) = true →
        Contains (set_ClusterCIDR s) (ipOf (fam_width f) x) = true → b ∈ cidrs → Contains b (ipOf (fam_width f) x) = false).
Proof.
  split.
  { intros l Hm Hs. destruct (filterOut_panics HNL HIL f v p Hb st l Hok Hm Hs) as (st1 & E & _). by exists st1. }
  intros Hall. destruct (filterOut_run HNL HIL f v p Hb st Hok Hall) as (st1 & E & Hm & Hmk). exists st1. split; [done|]. split; [done|].
  assert (∀ l s L A, mapped st l → set_at st (l, f) = Some s → set_view f s L A →
    ∃ s1, set_at st1 (l, f) = Some s1 ∧ set_view f s1 L (A ∪ touched L v p)) as Hmarked.
  { intros l s L A Hl Hs Hv. destruct (mk_set _ _ _ _ _ Hm l f s L A Hs Hv) as (s1 & A1 & Hs1 & Hv1 & H1 & H2).
    exists s1. split; [done|]. replace (A ∪ touched L v p) with A1; [done|].
    pose proof (Hmk l Hl s1 L A1 Hs1 Hv1) as H3. simpl in H2. rewrite decide_True, union_empty_r_L in H2 by done. set_solver. }
  split; [exact Hmarked|]. intros N bs st2 node cidrs cc st3 Hok2 Hlab2 Hlo E2 l s L A x b Hl Hl2 Hs Hv Hd Hx Hxb Hxc Hbin.
  destruct (Hmarked l s L A Hl Hs Hv) as (s1 & Hs1 & Hv1).
  assert (used st2 f x) as Hu.
  { eapply (marked_used f v p Hb N bs st1 st2 l s1 L); [done|done|exact Hv1|apply union_subseteq_r|done|done|done|done|].
    by rewrite (view_cluster _ _ _ _ Hv1), <- (view_cluster _ _ _ _ Hv). }
  destruct (prioritized_run HNL HIL st2 node sel Hok2 Hlab2 Hsel) as (ls & st4 & El & _ & _ & [(cidrs' & cc' & E3 & Hcc & Ha)|[[e E3] _]]);
    rewrite E3 in E2; [|done]. injection E2 as -> -> ->. apply not_true_iff_false. intros Hbx.
  destruct (allocated_fresh _ _ _ _ b Ha Hbin) as [g Hf]. by apply (fresh_unused _ _ _ _ _ _ _ Hf Hu Hx Hbx).
Qed.

Lemma ex_all_v4 : ∀ l, mapped ex_st l → is_Some (set_at ex_st (l, V4)).
Proof.
  intros l (label & lst & Hl & Hin). rewrite ex_map, lookup_insert, lookup_singleton in Hl.
  repeat case_decide; try discriminate Hl; injection Hl as <-; apply list_elem_of_singleton in Hin as ->.
  - by_decision.
  - exists ex_s4. exact ex_at4.
Qed.

(** The range has the first block of the IPv4 ClusterCIDR; n1 is given the second. *)
Definition ex_reserved : AllocState := (filterOutServiceRange (block 32 (10 * 2 ^ 24) 28) ex_st).2.

Lemma service_range_reserved_witness :
  (∀ l, mapped ex_st l → is_Some (set_at ex_st (l, V4))) ∧
  (prioritizedCIDRs (HLb:=refLabels) (HC:=refCluster) ex_n1 ex_reserved).1 = Ok ([block 32 (10 * 2 ^ 24 + 16) 28], 1%positive) ∧
  ∃ st1, filterOutServiceRange (block 32 (10 * 2 ^ 24) 28) ex_st = (Ok tt, st1) ∧ marks V4 (10 * 2 ^ 24) 28 ex_st st1 ∧
    (∀ l s L A, mapped ex_st l → set_at ex_st (l, V4) = Some s → set_view V4 s L A →
       ∃ s1, set_at st1 (l, V4) = Some s1 ∧ set_view V4 s1 L (A ∪ touched L (10 * 2 ^ 24) 28)).
Proof.
  split; [exact ex_all_v4|]. split; [vm_compute; reflexivity|].
  destruct (service_range_reserved (HLb:=refLabels) (HC:=refCluster) refNetUtils_laws refIter_laws ex_st V4 (10 * 2 ^ 24) 28 ex_default_sel
           ex_ok ltac:(vm_compute; reflexivity) ltac:(by_decision)) as [_ H].
  destruct (H ex_all_v4) as (st1 & H1 & H2 & H3 & _). exists st1. split; [exact H1|]. split; [exact H2|exact H3].
Defined.
