(* ===== verification/InformerFactory.v ===== *)
(** Packages [externalversions] and [informers/.../clustercidr/v1]
    (src/pkg/client/informers/externalversions): the shared informer factory, its
    options, and the typed and generic access to the informer of ClusterCIDRs.

    The informers of client-go are the class [Cache], a parameter.  The factory is
    one object behind a pointer that its group, version and informer accessors
    share, so they are methods of one state [FactoryState].  A method holds the lock
    for its whole body or, like [WaitForCacheSync] and [Shutdown], for the part that
    touches the maps. *)
From stdpp Require Import relations.
From S2P Require Import Prelude.

(** * client-go *)

Class Cache : Type := {
  Interface : Type;
  ListOptions : Type;
  Context : Type;
  context_Background : Context;
  StopCh : Type;
  TransformFunc : Type;
  SharedIndexInformer : Type;
  Indexer : Type;
  ListerWatcher : Type;
  (* The state of the informers and of the goroutines that run them. *)
  CacheWorld : Type;
  ClusterCIDRs_List : Interface → Context → ListOptions → CacheWorld → exit string * CacheWorld;
  ClusterCIDRs_Watch : Interface → Context → ListOptions → CacheWorld → exit string * CacheWorld;
  ToListWatcherWithWatchListSemantics :
    (ListOptions → M CacheWorld string) * (ListOptions → M CacheWorld string)
      * (Context → ListOptions → M CacheWorld string) * (Context → ListOptions → M CacheWorld string)
      → Interface → ListerWatcher;
  NewSharedIndexInformer : ListerWatcher → string → Z → list string → CacheWorld → SharedIndexInformer * CacheWorld;
  Informer_SetTransform : SharedIndexInformer → option TransformFunc → CacheWorld → CacheWorld;
  Informer_GetIndexer : SharedIndexInformer → Indexer;
  Informer_Run : SharedIndexInformer → StopCh → CacheWorld → CacheWorld;
  cache_WaitForCacheSync : StopCh → SharedIndexInformer → CacheWorld → bool * CacheWorld
}.

(** * The factory *)

(** Package [clustercidr/v1], register.go. *)
Record GroupVersion : Type := mkGV { gv_Group : string; gv_Version : string }.
Record GroupVersionResource : Type := mkGVR { gvr_Group : string; gvr_Version : string; gvr_Resource : string }.
Record GroupResource : Type := mkGR { gr_Group : string; gr_Resource : string }.
Definition WithResource (gv : GroupVersion) (resource : string) : GroupVersionResource := mkGVR (gv_Group gv) (gv_Version gv) resource.
Definition gvr_GroupResource (r : GroupVersionResource) : GroupResource := mkGR (gvr_Group r) (gvr_Resource r).

Definition GroupName : string := "networking.x-k8s.io".
Definition SchemeGroupVersion : GroupVersion := mkGV GroupName "v1".
Definition v1_Resource (resource : string) : GroupResource := gvr_GroupResource (WithResource SchemeGroupVersion resource).

#[export] Instance gvr_eq_dec : EqDecision GroupVersionResource.
Proof. solve_decision. Defined.

Definition reflect_Type : Type := string.
Definition NamespaceAll : string := EmptyString.
Definition NamespaceIndex : string := "namespace".

Section factory.
Context `{HCa : !Cache}.

Definition TweakListOptionsFunc : Type := ListOptions → ListOptions.
Definition NewInformerFunc : Type := Interface → Z → CacheWorld → SharedIndexInformer * CacheWorld.

Record sharedInformerFactory : Type := mkFactory {
  client : Interface;
  namespace : string;
  tweakListOptions : option TweakListOptionsFunc;
  defaultResync : Z;
  customResync : gmap reflect_Type Z;
  transform : option TransformFunc;
  informers : gmap reflect_Type SharedIndexInformer;
  startedInformers : gmap reflect_Type bool;
  wg : nat;
  shuttingDown : bool
}.

Definition SharedInformerOption : Type := sharedInformerFactory → sharedInformerFactory.

(** [resyncConfig] as the types of its keys with their values, in the order of the
    range: two keys of one type overwrite each other. *)
Definition WithCustomResyncConfig (resyncConfig : list (reflect_Type * Z)) : SharedInformerOption := λ f,
  mkFactory (client f) (namespace f) (tweakListOptions f) (defaultResync f)
    (foldl (λ m kv, <[kv.1 := kv.2]> m) (customResync f) resyncConfig)
    (transform f) (informers f) (startedInformers f) (wg f) (shuttingDown f).
Definition WithTweakListOptions (t : option TweakListOptionsFunc) : SharedInformerOption := λ f,
  mkFactory (client f) (namespace f) t (defaultResync f) (customResync f) (transform f) (informers f) (startedInformers f) (wg f) (shuttingDown f).
Definition WithNamespace (ns : string) : SharedInformerOption := λ f,
  mkFactory (client f) ns (tweakListOptions f) (defaultResync f) (customResync f) (transform f) (informers f) (startedInformers f) (wg f) (shuttingDown f).
Definition WithTransform (t : option TransformFunc) : SharedInformerOption := λ f,
  mkFactory (client f) (namespace f) (tweakListOptions f) (defaultResync f) (customResync f) t (informers f) (startedInformers f) (wg f) (shuttingDown f).

Definition NewSharedInformerFactoryWithOptions (c : Interface) (resync : Z) (options : list SharedInformerOption) : sharedInformerFactory :=
  foldl (λ factory opt, opt factory) (mkFactory c NamespaceAll None resync ∅ None ∅ ∅ 0 false) options.
Definition NewSharedInformerFactory (c : Interface) (resync : Z) : sharedInformerFactory :=
  NewSharedInformerFactoryWithOptions c resync [].
Definition NewFilteredSharedInformerFactory (c : Interface) (resync : Z) (ns : string) (t : option TweakListOptionsFunc) : sharedInformerFactory :=
  NewSharedInformerFactoryWithOptions c resync [WithNamespace ns; WithTweakListOptions t].

(** A goroutine the factory started: it runs an informer until [StopCh] is closed. *)
Definition Goroutine : Type := reflect_Type * SharedIndexInformer * StopCh.

(** The factory, the goroutines it has launched so far, those still running, and
    the state of client-go. *)
Record FactoryState : Type := mkFS {
  factory : sharedInformerFactory;
  launched : list Goroutine;
  running : list Goroutine;
  cacheWorld : CacheWorld
}.

Definition with_factory (g : sharedInformerFactory → sharedInformerFactory) (st : FactoryState) : FactoryState :=
  mkFS (g (factory st)) (launched st) (running st) (cacheWorld st).
Definition with_cacheWorld (w : CacheWorld) (st : FactoryState) : FactoryState :=
  mkFS (factory st) (launched st) (running st) w.
Definition with_informers (g : gmap reflect_Type SharedIndexInformer → gmap reflect_Type SharedIndexInformer) (f : sharedInformerFactory) : sharedInformerFactory :=
  mkFactory (client f) (namespace f) (tweakListOptions f) (defaultResync f) (customResync f) (transform f) (g (informers f)) (startedInformers f) (wg f) (shuttingDown f).
Definition with_started (g : gmap reflect_Type bool → gmap reflect_Type bool) (f : sharedInformerFactory) : sharedInformerFactory :=
  mkFactory (client f) (namespace f) (tweakListOptions f) (defaultResync f) (customResync f) (transform f) (informers f) (g (startedInformers f)) (wg f) (shuttingDown f).
Definition with_wg (g : nat → nat) (f : sharedInformerFactory) : sharedInformerFactory :=
  mkFactory (client f) (namespace f) (tweakListOptions f) (defaultResync f) (customResync f) (transform f) (informers f) (startedInformers f) (g (wg f)) (shuttingDown f).
Definition with_shuttingDown (f : sharedInformerFactory) : sharedInformerFactory :=
  mkFactory (client f) (namespace f) (tweakListOptions f) (defaultResync f) (customResync f) (transform f) (informers f) (startedInformers f) (wg f) true.

(** A map of booleans read at an absent key is false. *)
Definition isStarted (f : sharedInformerFactory) (t : reflect_Type) : bool := default false (startedInformers f !! t).

(** [go func() { defer f.wg.Done(); informer.Run(stopCh) }()] *)
Definition goRun (t : reflect_Type) (informer : SharedIndexInformer) (stopCh : StopCh) (st : FactoryState) : FactoryState :=
  mkFS (factory st) (launched st ++ [(t, informer, stopCh)]) ((t, informer, stopCh) :: running st)
    (Informer_Run informer stopCh (cacheWorld st)).

(** The body of the loop of [Start]. *)
Definition startInformer (stopCh : StopCh) (p : reflect_Type * SharedIndexInformer) : M FactoryState unit :=
  st ← get;
  if negb (isStarted (factory st) p.1) then
    modify (with_factory (with_wg S)) ;;
    modify (goRun p.1 p.2 stopCh) ;;
    modify (with_factory (with_started (insert p.1 true)))
  else mret tt.

(** [order] is the order of the range over [f.informers]. *)
Definition Start (order : list (reflect_Type * SharedIndexInformer)) (stopCh : StopCh) : M FactoryState unit :=
  st ← get;
  if shuttingDown (factory st) then mret tt else forM_ order (startInformer stopCh).

Definition InformerFor (informerType : reflect_Type) (newFunc : NewInformerFunc) : M FactoryState SharedIndexInformer :=
  st ← get;
  match informers (factory st) !! informerType with
  | Some informer => mret informer
  | None =>
      let resyncPeriod := default (defaultResync (factory st)) (customResync (factory st) !! informerType) in
      let '(informer, w) := newFunc (client (factory st)) resyncPeriod (cacheWorld st) in
      modify (with_cacheWorld (Informer_SetTransform informer (transform (factory st)) w)) ;;
      modify (with_factory (with_informers (insert informerType informer))) ;;
      mret informer
  end.

(** The part of [WaitForCacheSync] under the lock. *)
Definition startedSnapshot (f : sharedInformerFactory) : gmap reflect_Type SharedIndexInformer :=
  filter (λ p, isStarted f p.1 = true) (informers f).

(** Its loop; [order] is the order of the range over the snapshot. *)
Fixpoint waitLoop (stopCh : StopCh) (order : list (reflect_Type * SharedIndexInformer)) (res : gmap reflect_Type bool)
    : M FactoryState (gmap reflect_Type bool) :=
  match order with
  | [] => mret res
  | (t, informer) :: order =>
      st ← get;
      let '(b, w) := cache_WaitForCacheSync stopCh informer (cacheWorld st) in
      modify (with_cacheWorld w) ;;
      waitLoop stopCh order (<[t := b]> res)
  end.

Definition WaitForCacheSync (range : gmap reflect_Type SharedIndexInformer → list (reflect_Type * SharedIndexInformer))
    (stopCh : StopCh) : M FactoryState (gmap reflect_Type bool) :=
  st ← get;
  waitLoop stopCh (range (startedSnapshot (factory st))) ∅.

(** The part of [Shutdown] under the lock. *)
Definition markShutdown : M FactoryState unit := modify (with_factory with_shuttingDown).

(** A goroutine returns: [defer f.wg.Done()]. *)
Definition goroutineEnds (i : nat) (st : FactoryState) : FactoryState :=
  mkFS (with_wg pred (factory st)) (launched st) (delete i (running st)) (cacheWorld st).

(** * The informer of ClusterCIDRs *)

Record ClusterCIDRInformer : Type := mkClusterCIDRInformer { cci_tweakListOptions : option TweakListOptionsFunc }.
Record group : Type := mkGroup { group_namespace : string; group_tweak : option TweakListOptionsFunc }.
Record version : Type := mkVersion { version_namespace : string; version_tweak : option TweakListOptionsFunc }.

Definition Networking (f : sharedInformerFactory) : group := mkGroup (namespace f) (tweakListOptions f).
Definition V1 (g : group) : version := mkVersion (group_namespace g) (group_tweak g).
Definition ClusterCIDRs (v : version) : ClusterCIDRInformer := mkClusterCIDRInformer (version_tweak v).

Definition ClusterCIDR_Type : reflect_Type := "*v1.ClusterCIDR".

(** [if tweakListOptions != nil { tweakListOptions(&options) }] *)
Definition tweaked (t : option TweakListOptionsFunc) (options : ListOptions) : ListOptions :=
  match t with Some f => f options | None => options end.

Definition NewFilteredClusterCIDRInformer (c : Interface) (resyncPeriod : Z) (indexers : list string) (t : option TweakListOptionsFunc)
    : CacheWorld → SharedIndexInformer * CacheWorld :=
  NewSharedIndexInformer
    (ToListWatcherWithWatchListSemantics
       (λ options, ClusterCIDRs_List c context_Background (tweaked t options),
        λ options, ClusterCIDRs_Watch c context_Background (tweaked t options),
        λ ctx options, ClusterCIDRs_List c ctx (tweaked t options),
        λ ctx options, ClusterCIDRs_Watch c ctx (tweaked t options)) c)
    ClusterCIDR_Type resyncPeriod indexers.

Definition NewClusterCIDRInformer (c : Interface) (resyncPeriod : Z) (indexers : list string)
    : CacheWorld → SharedIndexInformer * CacheWorld :=
  NewFilteredClusterCIDRInformer c resyncPeriod indexers None.

Definition defaultInformer (i : ClusterCIDRInformer) : NewInformerFunc := λ c resyncPeriod,
  NewFilteredClusterCIDRInformer c resyncPeriod [NamespaceIndex] (cci_tweakListOptions i).

Definition ClusterCIDRInformer_Informer (i : ClusterCIDRInformer) : M FactoryState SharedIndexInformer :=
  InformerFor ClusterCIDR_Type (defaultInformer i).

(** A lister reads the indexer of the shared informer. *)
Record clusterCIDRLister : Type := mkLister { lister_indexer : Indexer; lister_resource : GroupResource }.
Definition NewClusterCIDRLister (indexer : Indexer) : clusterCIDRLister := mkLister indexer (v1_Resource "clustercidr").

Definition ClusterCIDRInformer_Lister (i : ClusterCIDRInformer) : M FactoryState clusterCIDRLister :=
  informer ← ClusterCIDRInformer_Informer i;
  mret (NewClusterCIDRLister (Informer_GetIndexer informer)).

(** * Generic access *)

Record genericInformer : Type := mkGenericInformer { gen_informer : SharedIndexInformer; gen_resource : GroupResource }.

Definition ForResource (resource : GroupVersionResource) : M FactoryState genericInformer :=
  st ← get;
  if decide (resource = WithResource SchemeGroupVersion "clustercidrs") then
    informer ← ClusterCIDRInformer_Informer (ClusterCIDRs (V1 (Networking (factory st))));
    mret (mkGenericInformer informer (gvr_GroupResource resource))
  else fail (Errorf "no informer found for %v" [gvr_Group resource; gvr_Version resource; gvr_Resource resource]).

(** The indexer and the resource of the lister it gives. *)
Definition genericInformer_Informer (g : genericInformer) : SharedIndexInformer := gen_informer g.
Definition genericInformer_Lister (g : genericInformer) : Indexer * GroupResource :=
  (Informer_GetIndexer (genericInformer_Informer g), gen_resource g).

(** * Runs of the factory *)

(** One of its methods, called by anyone, or the end of a goroutine it started. *)
Inductive fstep (st : FactoryState) : FactoryState → Prop :=
| fs_InformerFor t newFunc r st' : InformerFor t newFunc st = (r, st') → fstep st st'
| fs_Start order stopCh r st' : order ≡ₚ map_to_list (informers (factory st)) → Start order stopCh st = (r, st') → fstep st st'
| fs_Wait range stopCh r st' : WaitForCacheSync range stopCh st = (r, st') → fstep st st'
| fs_Shutdown r st' : markShutdown st = (r, st') → fstep st st'
| fs_ends i g : running st !! i = Some g → fstep st (goroutineEnds i st)
| fs_world w : fstep st (with_cacheWorld w st).

(** [Shutdown] marks the factory and waits until the counter is zero. *)
Inductive Shutdown (st : FactoryState) : FactoryState → Prop :=
| Shutdown_returns r st1 st2 : markShutdown st = (r, st1) → rtc fstep st1 st2 → wg (factory st2) = 0%nat → Shutdown st st2.

Definition newFactoryState (c : Interface) (resync : Z) (options : list SharedInformerOption) (w : CacheWorld) : FactoryState :=
  mkFS (NewSharedInformerFactoryWithOptions c resync options) [] [] w.
End factory.
