(* ===== verification/InformerProps.v ===== *)
(** The invariant of the informer factory and what its methods do to it. *)
From stdpp Require Import relations.
From S2P Require Import Prelude InformerFactory.

Section props.
Context `{HCa : !Cache}.
Implicit Types st : FactoryState.

Definition types (l : list Goroutine) : list reflect_Type := (λ g, g.1.1) <$> l.

(** Each started informer was launched once and is the one of its type; the wait
    group counts the goroutines that run. *)
Record factory_ok st : Prop := {
  fo_once : NoDup (types (launched st));
  fo_started t : isStarted (factory st) t = true ↔ t ∈ types (launched st);
  fo_mapped t i s : (t, i, s) ∈ launched st → informers (factory st) !! t = Some i;
  fo_running : running st ⊆+ launched st;
  fo_wg : wg (factory st) = length (running st)
}.

(** What never changes: goroutines are added at the end and none once [Shutdown] was
    called; the informer of a type stays. *)
Record extends st st' : Prop := {
  ex_launched : launched st `prefix_of` launched st';
  ex_informers : informers (factory st) ⊆ informers (factory st');
  ex_shutdown : shuttingDown (factory st) = true →
    shuttingDown (factory st') = true ∧ launched st' = launched st ∧ running st' ⊆+ running st
}.

#[export] Instance extends_preorder : PreOrder extends.
Proof using.
  split; [by intros st|]. intros s1 s2 s3 [H1 H2 H3] [H4 H5 H6]. split; [by etransitivity|by etransitivity|].
  intros H. destruct (H3 H) as (H7 & <- & H8). destruct (H6 H7) as (H9 & H10 & H11). split_and!; [done|done|by etransitivity].
Qed.

(** An option sets up the factory and does not touch its informers. *)
Definition configures (opt : SharedInformerOption) : Prop := ∀ f,
  informers (opt f) = informers f ∧ startedInformers (opt f) = startedInformers f ∧ wg (opt f) = wg f ∧ shuttingDown (opt f) = shuttingDown f.

Lemma With_configures :
  (∀ l, configures (WithCustomResyncConfig l)) ∧ (∀ t, configures (WithTweakListOptions t))
  ∧ (∀ ns, configures (WithNamespace ns)) ∧ (∀ t, configures (WithTransform t)).
Proof using. by repeat split. Qed.

Lemma new_factory_ok c resync options w : Forall configures options → factory_ok (newFactoryState c resync options w).
Proof using.
  intros Ho. assert (∀ f, let f' := foldl (λ factory opt, opt factory) f options in
    informers f' = informers f ∧ startedInformers f' = startedInformers f ∧ wg f' = wg f ∧ shuttingDown f' = shuttingDown f) as H.
  { induction Ho as [|opt options Hopt Ho IH]; intros f; [done|]. simpl.
    destruct (Hopt f) as (<- & <- & <- & <-). apply IH. }
  destruct (H (mkFactory c NamespaceAll None resync ∅ None ∅ ∅ 0 false)) as (_ & H2 & H3 & _).
  split; simpl; [constructor| |by intros ? ? ? ?%elem_of_nil|constructor|done].
  intros t. unfold isStarted, NewSharedInformerFactoryWithOptions. rewrite H2. split; [done|by intros ?%elem_of_nil].
Qed.

(** * Start *)

Lemma filter_agree {A} (P Q : A → Prop) `{!∀ x, Decision (P x), !∀ x, Decision (Q x)} l :
  Forall (λ x, P x ↔ Q x) l → filter P l = filter Q l.
Proof using.
  induction 1 as [|x l Hx Hl IH]; [done|]. destruct (decide (P x)).
  - rewrite !filter_cons_True by tauto. by f_equal.
  - by rewrite !filter_cons_False by tauto.
Qed.

Definition launches st (stopCh : StopCh) (order : list (reflect_Type * SharedIndexInformer)) : list Goroutine :=
  (λ p, (p.1, p.2, stopCh)) <$> filter (λ p, isStarted (factory st) p.1 = false) order.

Lemma types_launches st stopCh order t : t ∈ types (launches st stopCh order) ↔ t ∈ order.*1 ∧ isStarted (factory st) t = false.
Proof using.
  unfold types, launches. rewrite <-list_fmap_compose, !list_elem_of_fmap. split.
  - intros ([t' i] & -> & [H1 H2]%list_elem_of_filter). split; [by exists (t', i)|done].
  - intros (([t' i] & -> & Hin) & H). exists (t', i). split; [done|]. by apply list_elem_of_filter.
Qed.

(** The state after the loop of [Start]: the informers not started before. *)
Record started st stopCh order st' : Prop := {
  sd_launched : launched st' = launched st ++ launches st stopCh order;
  sd_running : running st' = reverse (launches st stopCh order) ++ running st;
  sd_informers : informers (factory st') = informers (factory st);
  sd_started t : isStarted (factory st') t = isStarted (factory st) t || bool_decide (t ∈ order.*1);
  sd_wg : wg (factory st') = (wg (factory st) + length (launches st stopCh order))%nat;
  sd_shutdown : shuttingDown (factory st') = shuttingDown (factory st)
}.

Lemma startInformer_skip st stopCh p : isStarted (factory st) p.1 = true → startInformer stopCh p st = (Ok tt, st).
Proof using. intros H. unfold startInformer. mred. by rewrite H. Qed.

Lemma startInformer_new st stopCh p : isStarted (factory st) p.1 = false →
  startInformer stopCh p st = (Ok tt, with_factory (with_started (insert p.1 true)) (goRun p.1 p.2 stopCh (with_factory (with_wg S) st))).
Proof using. intros H. unfold startInformer. mred. by rewrite H. Qed.

Lemma start_loop st stopCh order : NoDup order.*1 →
  ∃ st', forM_ order (startInformer stopCh) st = (Ok tt, st') ∧ started st stopCh order st'.
Proof using.
  revert st. induction order as [|[t i] order IH]; intros st Hnd.
  - exists st. split; [done|]. split; try done; simpl; [by rewrite app_nil_r|intros t; by rewrite orb_false_r].
  - rewrite fmap_cons in Hnd. apply NoDup_cons in Hnd as [Ht Hnd]. simpl in Ht. destruct (isStarted (factory st) t) eqn:Hs.
    + destruct (IH st Hnd) as (st' & E & [H1 H2 H3 H4 H5 H6]). exists st'.
      split; [by rewrite (forM_next _ _ _ _ _ _ (startInformer_skip _ _ (t, i) Hs))|].
      assert (launches st stopCh ((t, i) :: order) = launches st stopCh order) as Hl.
      { unfold launches. rewrite filter_cons_False; [done|]. simpl. by rewrite Hs. }
      split; rewrite ?Hl; try done. intros t'. rewrite H4. simpl.
      destruct (decide (t' = t)) as [->|Hne]; [by rewrite Hs|]. f_equal. apply bool_decide_ext. set_solver.
    + pose proof (startInformer_new st stopCh (t, i) Hs) as E1. simpl in E1. set (st1 := with_factory _ _) in E1.
      destruct (IH st1 Hnd) as (st' & E & [H1 H2 H3 H4 H5 H6]). exists st'.
      split; [by rewrite (forM_next _ _ _ _ _ _ E1)|].
      assert (∀ t', isStarted (factory st1) t' = isStarted (factory st) t' || bool_decide (t' = t)) as Hst1.
      { intros t'. unfold isStarted, st1. simpl. destruct (decide (t' = t)) as [->|Hne].
        - by rewrite lookup_insert_eq, bool_decide_eq_true_2, orb_true_r.
        - by rewrite lookup_insert_ne, bool_decide_eq_false_2, orb_false_r. }
      assert (launches st stopCh ((t, i) :: order) = (t, i, stopCh) :: launches st1 stopCh order) as Hl.
      { unfold launches. rewrite filter_cons_True by done. simpl. f_equal. f_equal. apply filter_agree.
        apply Forall_forall. intros [t' i'] Hin. simpl. rewrite Hst1, bool_decide_eq_false_2; [by rewrite orb_false_r|].
        intros ->. apply Ht. apply list_elem_of_fmap. by exists (t, i'). }
      split; rewrite ?Hl, ?H1, ?H2, ?H3, ?H5, ?H6; simpl.
      * by rewrite <-app_assoc.
      * by rewrite reverse_cons, <-app_assoc.
      * done.
      * intros t'. rewrite H4, Hst1, <-orb_assoc. f_equal. rewrite <-bool_decide_or. apply bool_decide_ext. set_solver.
      * lia.
      * done.
Qed.

Lemma started_ok st stopCh order st' : NoDup order.*1 → (∀ t i, (t, i) ∈ order → informers (factory st) !! t = Some i) →
  started st stopCh order st' → factory_ok st → factory_ok st'.
Proof using.
  intros Hnd Hmap [H1 H2 H3 H4 H5 H6] [F1 F2 F3 F4 F5]. split.
  - rewrite H1. unfold types. rewrite fmap_app. apply NoDup_app. split_and!; [done| |].
    + intros t Ht1 [_ Ht2]%types_launches. apply F2 in Ht1. congruence.
    + unfold launches. rewrite <-list_fmap_compose. revert Hnd. clear. induction order as [|[t i] order IH]; [constructor|].
      intros [Ht Hnd]%NoDup_cons. destruct (decide (isStarted (factory st) (t, i).1 = false)).
      * rewrite filter_cons_True by done. cbn [fmap list_fmap]. constructor; [|by apply IH].
        intros ([t' i'] & E & [_ Hin]%list_elem_of_filter)%list_elem_of_fmap. simpl in E. subst t'. apply Ht. apply list_elem_of_fmap. by exists (t, i').
      * rewrite filter_cons_False by done. by apply IH.
  - intros t. rewrite H4, H1. unfold types. rewrite fmap_app, elem_of_app. fold (types (launched st)). fold (types (launches st stopCh order)).
    rewrite types_launches, <-F2, orb_true_iff, bool_decide_eq_true. destruct (isStarted (factory st) t); intuition congruence.
  - intros t i s. rewrite H1, H3. intros [Hin|Hin]%elem_of_app; [by eapply F3|].
    apply list_elem_of_fmap in Hin as ([t' i'] & [= -> -> ->] & [_ Hin]%list_elem_of_filter). by apply Hmap.
  - rewrite H1, H2. rewrite reverse_Permutation, (Permutation_app_comm (launches _ _ _)). by apply submseteq_app.
  - rewrite H5, H2, length_app, length_reverse, F5. lia.
Qed.

(** * Runs *)

Lemma InformerFor_spec t newFunc st :
  ∃ i st', InformerFor t newFunc st = (Ok i, st') ∧ informers (factory st') = <[t := i]> (informers (factory st))
    ∧ (∀ i', informers (factory st) !! t = Some i' → i' = i ∧ st' = st)
    ∧ launched st' = launched st ∧ running st' = running st ∧ wg (factory st') = wg (factory st)
    ∧ startedInformers (factory st') = startedInformers (factory st) ∧ shuttingDown (factory st') = shuttingDown (factory st).
Proof using.
  unfold InformerFor. mred. destruct (informers (factory st) !! t) as [i|] eqn:Hi.
  - exists i, st. rewrite insert_id by done. naive_solver.
  - destruct (newFunc _ _ _) as [i w]. eexists i, _. split; [reflexivity|]. by split_and!.
Qed.

Lemma waitLoop_frame stopCh order res st : ∃ r w, waitLoop stopCh order res st = (Ok r, with_cacheWorld w st).
Proof using.
  revert res st. induction order as [|[t i] order IH]; intros res st; [exists res, (cacheWorld st); by destruct st|].
  cbn [waitLoop]. mred. destruct (cache_WaitForCacheSync stopCh i (cacheWorld st)) as [b w].
  destruct (IH (<[t:=b]> res) (with_cacheWorld w st)) as (r & w' & E). exists r, w'. etransitivity; [exact E|done].
Qed.

Lemma fstep_ok st st' : factory_ok st → fstep st st' → factory_ok st' ∧ extends st st'.
Proof using.
  intros Hok Hs. destruct Hs as [t newFunc r st' E|order stopCh r st' Ho E|range stopCh r st' E|r st' E|i g Hg|w].
  - destruct (InformerFor_spec t newFunc st) as (i & st1 & E' & Hi & Hsame & Hl & Hr & Hw & Hst & Hsd).
    rewrite E in E'. injection E' as _ ->. destruct (informers (factory st) !! t) as [i'|] eqn:Ht.
    { assert (i' = i) as -> by (destruct (Hsame i' eq_refl) as [-> _]; done). by destruct (Hsame i eq_refl) as [_ ->]. }
    destruct Hok as [F1 F2 F3 F4 F5]. split; [|split; rewrite ?Hl, ?Hr, ?Hi, ?Hsd; try done; by apply insert_subseteq].
    split; rewrite ?Hl, ?Hr, ?Hw; try done; [unfold isStarted; by rewrite Hst|].
    intros t' i' s Hin. rewrite Hi. apply F3 in Hin. rewrite lookup_insert_ne; [done|]. intros ->. congruence.
  - unfold Start in E. revert E. mred. destruct (shuttingDown (factory st)) eqn:Hsd; [by intros [= _ <-]|]. intros E.
    assert (NoDup order.*1) as Hnd by (rewrite Ho; apply NoDup_fst_map_to_list).
    destruct (start_loop st stopCh order Hnd) as (st1 & E' & Hst). rewrite E in E'. injection E' as -> ->. split.
    + eapply started_ok; [done| |done|done]. intros t i Hin. rewrite Ho in Hin. by apply elem_of_map_to_list.
    + destruct Hst as [H1 _ H3 _ _ H6]. split; rewrite ?H1, ?H3, ?H6; [by eexists|done|by rewrite Hsd].
  - unfold WaitForCacheSync in E. revert E. mred. destruct (waitLoop_frame stopCh (range (startedSnapshot (factory st))) ∅ st) as (r' & w & ->).
    intros [= _ <-]. split; [by destruct Hok|by split].
  - injection E as _ <-. split; [by destruct Hok|by split].
  - destruct Hok as [F1 F2 F3 F4 F5]. pose proof (delete_Permutation _ _ _ Hg) as Hp.
    split; [|split; simpl; [done..|]; intros ?; split_and!; [done..|]; rewrite Hp at 2; by apply submseteq_cons]. split; simpl; try done.
    + etransitivity; [|exact F4]. rewrite Hp at 2. by apply submseteq_cons.
    + apply Permutation_length in Hp. simpl in Hp. lia.
  - split; [by destruct Hok|by split].
Qed.

Lemma frun_ok st st' : factory_ok st → rtc fstep st st' → factory_ok st' ∧ extends st st'.
Proof using.
  intros Hok Hs. revert Hok. induction Hs as [st|st s1 s2 H _ IH]; intros Hok; [by split|].
  destruct (fstep_ok _ _ Hok H) as [Hok1 He]. destruct (IH Hok1) as [Hok2 He2]. split; [done|]. by etransitivity.
Qed.
End props.
