(* ===== verification/InformerTheorems.v ===== *)
(** The theorems about the informer factory. *)
From stdpp Require Import relations.
From S2P Require Import Prelude InformerFactory InformerProps.

(** * A reference client-go: informers are numbered, nothing ever syncs. *)
#[export] Instance refCache : Cache := {|
  Interface := unit; ListOptions := string; Context := unit; context_Background := tt; StopCh := nat; TransformFunc := unit;
  SharedIndexInformer := nat; Indexer := nat; ListerWatcher := unit; CacheWorld := nat;
  ClusterCIDRs_List _ _ o w := (Ok o, w); ClusterCIDRs_Watch _ _ o w := (Ok o, w);
  ToListWatcherWithWatchListSemantics _ _ := tt;
  NewSharedIndexInformer _ _ _ _ w := (w, S w);
  Informer_SetTransform _ _ w := w; Informer_GetIndexer i := i; Informer_Run _ _ w := w;
  cache_WaitForCacheSync _ _ w := (false, w)
|}.

(** A factory whose informer of ClusterCIDRs was asked for and started. *)
Definition ex_options : list SharedInformerOption := [WithNamespace "ns"; WithTransform (Some tt)].
Definition ex_new : FactoryState := newFactoryState tt 30 ex_options 7%nat.
Definition ex_informer : ClusterCIDRInformer := ClusterCIDRs (V1 (Networking (factory ex_new))).
Definition ex_asked : FactoryState := (ClusterCIDRInformer_Informer ex_informer ex_new).2.
Definition ex_started : FactoryState := (Start [(ClusterCIDR_Type, 7%nat)] 1%nat ex_asked).2.

Lemma ex_configures : Forall configures ex_options.
Proof. destruct With_configures as (_ & _ & H1 & H2). by repeat constructor. Qed.

Lemma ex_runs : rtc fstep ex_new ex_started.
Proof.
  apply (rtc_l _ _ ex_asked); [by eapply fs_InformerFor, surjective_pairing|].
  apply rtc_once. eapply fs_Start; [|apply surjective_pairing]. reflexivity.
Qed.

(** C15. The informer factory, however its methods are called and its goroutines end:
    an informer is run at most once, and it is the one registered for its type; the
    wait group counts the goroutines that run.  [Start], with the map in any order,
    runs exactly the informers that no earlier [Start] ran, and does nothing once
    [Shutdown] was called.  When [Shutdown] returns every goroutine has ended, and
    none is started any more. *)
Theorem informers_start_once `{HCa : !Cache} c resync options w st
  (Hopt : Forall configures options) (Hrun : rtc fstep (newFactoryState c resync options w) st) :
  NoDup (types (launched st))
  ∧ (∀ t i s, (t, i, s) ∈ launched st → informers (factory st) !! t = Some i)
  ∧ running st ⊆+ launched st ∧ wg (factory st) = length (running st)
  ∧ (∀ order stopCh, order ≡ₚ map_to_list (informers (factory st)) →
      ∃ st', Start order stopCh st = (Ok tt, st') ∧
        if shuttingDown (factory st) then st' = st
        else launched st' = launched st ++ launches st stopCh order
          ∧ ∀ t i, informers (factory st') !! t = Some i → ∃ s, (t, i, s) ∈ launched st')
  ∧ (∀ st1 st2, Shutdown st st1 → rtc fstep st1 st2 → running st2 = [] ∧ launched st2 = launched st).
Proof.
  destruct (frun_ok _ _ (new_factory_ok c resync options w Hopt) Hrun) as [Hok _]. pose proof Hok as [F1 F2 F3 F4 F5].
  split_and!; [done..| |].
  - intros order stopCh Ho. unfold Start. mred. destruct (shuttingDown (factory st)); [by eexists|].
    assert (NoDup order.*1) as Hnd by (rewrite Ho; apply NoDup_fst_map_to_list).
    destruct (start_loop st stopCh order Hnd) as (st' & E & Hst). exists st'. split; [exact E|]. split; [apply Hst|].
    assert (factory_ok st') as Hok'.
    { eapply started_ok; [done| |done|done]. intros t i Hin. rewrite Ho in Hin. by apply elem_of_map_to_list. }
    intros t i Hi. assert (t ∈ types (launched st')) as Ht.
    { apply (fo_started _ Hok'). rewrite (sd_started _ _ _ _ Hst), bool_decide_eq_true_2; [by rewrite orb_true_r|].
      rewrite (sd_informers _ _ _ _ Hst) in Hi. rewrite Ho. apply list_elem_of_fmap. exists (t, i). split; [done|]. by apply elem_of_map_to_list. }
    apply list_elem_of_fmap in Ht as ([[t' i'] s] & -> & Hin). exists s. simpl in *.
    rewrite (fo_mapped _ Hok' _ _ _ Hin) in Hi. by injection Hi as ->.
  - intros st1 st2 [r sm st1' Hm Hrun1 Hwg] Hrun2. injection Hm as _ <-.
    destruct (fstep_ok st (with_factory with_shuttingDown st) Hok (fs_Shutdown _ _ _ eq_refl)) as [Hokm _].
    destruct (frun_ok _ _ Hokm Hrun1) as [Hok1 [_ _ He1]]. destruct (He1 eq_refl) as (Hs1 & Hl1 & _).
    destruct (frun_ok _ _ Hok1 Hrun2) as [_ [_ _ He2]]. destruct (He2 Hs1) as (_ & Hl2 & Hr2).
    rewrite Hl2, Hl1. split; [|done]. rewrite (fo_wg _ Hok1) in Hwg. apply nil_length_inv in Hwg. rewrite Hwg in Hr2.
    by apply submseteq_nil_r.
Qed.

Lemma informers_start_once_witness :
  Forall configures ex_options ∧ rtc fstep ex_new ex_started ∧ launched ex_started = [(ClusterCIDR_Type, 7%nat, 1%nat)]
  ∧ NoDup (types (launched ex_started)).
Proof.
  split; [exact ex_configures|]. split; [exact ex_runs|]. split; [reflexivity|].
  exact (proj1 (informers_start_once (HCa:=refCache) tt 30 ex_options 7%nat ex_started ex_configures ex_runs)).
Defined.

(** The informer of ClusterCIDRs is shared.  Asked for the first time it is made
    by client-go with the factory's client, its filter, the namespace index and the
    resync period set for the type, if any, and is given the factory's transform.
    From then on, whatever else happens, the typed accessor, the lister and
    [ForResource] give that informer or its indexer and change nothing, while
    [ForResource] of any other resource fails. *)
Theorem clusterCIDR_informer_shared `{HCa : !Cache} c resync options w st
  (Hopt : Forall configures options) (Hrun : rtc fstep (newFactoryState c resync options w) st) :
  let cc f := ClusterCIDRs (V1 (Networking f)) in
  let f := factory st in
  ∃ i st1, ClusterCIDRInformer_Informer (cc f) st = (Ok i, st1)
  ∧ match informers f !! ClusterCIDR_Type with
    | Some i' => i = i' ∧ st1 = st
    | None =>
        let '(i', w') := NewFilteredClusterCIDRInformer (client f)
          (default (defaultResync f) (customResync f !! ClusterCIDR_Type)) [NamespaceIndex] (tweakListOptions f) (cacheWorld st) in
        i = i' ∧ cacheWorld st1 = Informer_SetTransform i (transform f) w'
    end
  ∧ ∀ st2, rtc fstep st1 st2 →
      ClusterCIDRInformer_Informer (cc (factory st2)) st2 = (Ok i, st2)
      ∧ ClusterCIDRInformer_Lister (cc (factory st2)) st2 = (Ok (mkLister (Informer_GetIndexer i) (mkGR GroupName "clustercidr")), st2)
      ∧ ∀ r, ForResource r st2 =
          if decide (r = mkGVR GroupName "v1" "clustercidrs") then (Ok (mkGenericInformer i (mkGR GroupName "clustercidrs")), st2)
          else (Err (Errorf "no informer found for %v" [gvr_Group r; gvr_Version r; gvr_Resource r]), st2).
Proof.
  intros cc f. destruct (frun_ok _ _ (new_factory_ok c resync options w Hopt) Hrun) as [Hok _].
  destruct (InformerFor_spec ClusterCIDR_Type (defaultInformer (cc f)) st) as (i & st1 & E & Hi & Hsame & _).
  exists i, st1. split; [exact E|]. split.
  - subst f. destruct (informers (factory st) !! ClusterCIDR_Type) as [i'|] eqn:Hc.
    + by destruct (Hsame i' eq_refl) as [-> ->].
    + revert E. unfold ClusterCIDRInformer_Informer, InformerFor. mred. rewrite Hc. unfold defaultInformer, cc. simpl.
      destruct (NewFilteredClusterCIDRInformer _ _ _ _ _) as [i' w']. by intros [= <- <-].
  - intros st2 Hrun2. destruct (fstep_ok st st1 Hok (fs_InformerFor _ _ _ _ _ E)) as [Hok1 _].
    destruct (frun_ok _ _ Hok1 Hrun2) as [_ [_ Hinf _]].
    assert (informers (factory st2) !! ClusterCIDR_Type = Some i) as Hi2.
    { eapply lookup_weaken; [|exact Hinf]. by rewrite Hi, lookup_insert_eq. }
    assert (∀ t, ClusterCIDRInformer_Informer t st2 = (Ok i, st2)) as HI.
    { intros t. unfold ClusterCIDRInformer_Informer, InformerFor. mred. by rewrite Hi2. }
    split; [apply HI|]. split.
    + unfold ClusterCIDRInformer_Lister. by mstep (HI (cc (factory st2))).
    + intros r. unfold ForResource. mstep (eq_refl : get st2 = (Ok st2, st2)). unfold WithResource, SchemeGroupVersion. simpl.
      destruct (decide _) as [->|]; [|done]. by mstep (HI (cc (factory st2))).
Qed.

Lemma clusterCIDR_informer_shared_witness :
  rtc fstep ex_new ex_started ∧ ∃ i st1, ClusterCIDRInformer_Informer ex_informer ex_started = (Ok i, st1) ∧ (i = 7%nat ∧ st1 = ex_started).
Proof.
  split; [exact ex_runs|].
  destruct (clusterCIDR_informer_shared (HCa:=refCache) tt 30 ex_options 7%nat ex_started ex_configures ex_runs) as (i & st1 & E & H & _).
  exists i, st1. split; [exact E|exact H].
Defined.
