(* ===== verification/DeepCopy.v ===== *)
(** Package [clustercidr/v1], zz_generated.deepcopy.go
    (src/pkg/apis/clustercidr/v1): deep copies of the API objects in memory, and the
    edits of the copies in multi_cidr_range_allocator.go.

    Memory is a finite map from addresses to cells; a slice is the address of its
    backing array and a length, so slices and pointers can alias.  [object_value]
    reads the value [v1ClusterCIDR] that the rest of the development works with.
    The deep copies of apimachinery and of k8s.io/api are the class [CopyFunctions]. *)
From S2P Require Import Prelude GoNet CIDRTheory CIDRText NetUtils MultiCIDRSet Kubernetes.

(** * Memory *)

Definition addr : Type := positive.

(** A nil slice is [None]. *)
Definition slice : Type := option (addr * nat).

Record goRequirement : Type := mkGoRequirement { go_Key : string; go_Operator : string; go_Values : slice }.
Record goTerm : Type := mkGoTerm { go_MatchExpressions : slice; go_MatchFields : slice }.
Record goNodeSelector : Type := mkGoNodeSelector { go_NodeSelectorTerms : slice }.

Record TypeMeta : Type := mkTypeMeta { Kind : string; APIVersion : string }.
Record goObjectMeta : Type := mkGoObjectMeta {
  om_Name : string;
  om_Generation : Z;
  om_ResourceVersion : string;
  om_DeletionTimestamp : option addr;
  om_Finalizers : slice
}.
Record goListMeta : Type := mkGoListMeta { lm_ResourceVersion : string; lm_Continue : string; lm_RemainingItemCount : option addr }.

Record goClusterCIDRSpec : Type := mkGoSpec {
  go_NodeSelector : option addr;
  go_PerNodeHostBits : Z;
  go_IPv4 : string;
  go_IPv6 : string
}.
Record goClusterCIDR : Type := mkGoClusterCIDR {
  go_TypeMeta : TypeMeta;
  go_ObjectMeta : goObjectMeta;
  go_Spec : goClusterCIDRSpec
}.
Record goClusterCIDRList : Type := mkGoList {
  list_TypeMeta : TypeMeta;
  list_ListMeta : goListMeta;
  list_Items : slice
}.

Inductive cell : Type :=
| CInt (z : Z)
| CStrings (l : list string)
| CRequirements (l : list goRequirement)
| CTerms (l : list goTerm)
| CSelector (x : goNodeSelector)
| CSpec (x : goClusterCIDRSpec)
| CClusterCIDR (x : goClusterCIDR)
| CItems (l : list goClusterCIDR)
| CList (x : goClusterCIDRList).

Abbreviation Memory := (gmap addr cell).

Definition zeroSpec : goClusterCIDRSpec := mkGoSpec None 0 "" "".
Definition zeroClusterCIDR : goClusterCIDR := mkGoClusterCIDR (mkTypeMeta "" "") (mkGoObjectMeta "" 0 "" None None) zeroSpec.
Definition zeroList : goClusterCIDRList := mkGoList (mkTypeMeta "" "") (mkGoListMeta "" "" None) None.

(** [new] and [make]: a cell at an unused address. *)
Definition alloc (c : cell) : M Memory addr := λ m, let a := fresh (dom m) in (Ok a, <[a := c]> m).
Definition load {A} (as_A : cell → option A) (a : addr) : M Memory A := λ m,
  match m !! a ≫= as_A with Some x => (Ok x, m) | None => (Panic NilDereference, m) end.
Definition store (a : addr) (c : cell) : M Memory unit := modify (insert a c).

Definition as_int (c : cell) : option Z := match c with CInt z => Some z | _ => None end.
Definition as_strings (c : cell) : option (list string) := match c with CStrings l => Some l | _ => None end.
Definition as_requirements (c : cell) : option (list goRequirement) := match c with CRequirements l => Some l | _ => None end.
Definition as_terms (c : cell) : option (list goTerm) := match c with CTerms l => Some l | _ => None end.
Definition as_selector (c : cell) : option goNodeSelector := match c with CSelector x => Some x | _ => None end.
Definition as_spec (c : cell) : option goClusterCIDRSpec := match c with CSpec x => Some x | _ => None end.
Definition as_object (c : cell) : option goClusterCIDR := match c with CClusterCIDR x => Some x | _ => None end.
Definition as_items (c : cell) : option (list goClusterCIDR) := match c with CItems l => Some l | _ => None end.
Definition as_list (c : cell) : option goClusterCIDRList := match c with CList x => Some x | _ => None end.

(** * The values in memory *)

(** The elements of a slice, each read with [value]. *)
Definition slice_value {A V} (as_A : cell → option (list A)) (value : Memory → A → option V) (m : Memory) (s : slice) : option (list V) :=
  match s with
  | None => Some []
  | Some (a, n) => l ← m !! a ≫= as_A; guard (n ≤ length l)%nat;; mapM (value m) (take n l)
  end.
Definition pointer_value {A V} (as_A : cell → option A) (value : Memory → A → option V) (m : Memory) (p : option addr) : option (option V) :=
  match p with
  | None => Some None
  | Some a => x ← m !! a ≫= as_A; Some <$> value m x
  end.
Definition plain {A} (m : Memory) (x : A) : option A := Some x.

Definition requirement_value (m : Memory) (r : goRequirement) : option NodeSelectorRequirement :=
  mkRequirement (go_Key r) (go_Operator r) <$> slice_value as_strings plain m (go_Values r).
Definition term_value (m : Memory) (t : goTerm) : option NodeSelectorTerm :=
  e ← slice_value as_requirements requirement_value m (go_MatchExpressions t);
  mkTerm e <$> slice_value as_requirements requirement_value m (go_MatchFields t).
Definition selector_value (m : Memory) (s : goNodeSelector) : option NodeSelector :=
  mkNodeSelector <$> slice_value as_terms term_value m (go_NodeSelectorTerms s).
Definition meta_value (m : Memory) (o : goObjectMeta) : option (string * Z * string * Timestamp * list string) :=
  t ← pointer_value as_int plain m (om_DeletionTimestamp o);
  pair (om_Name o, om_Generation o, om_ResourceVersion o, t) <$> slice_value as_strings plain m (om_Finalizers o).
Definition listMeta_value (m : Memory) (o : goListMeta) : option (string * string * option Z) :=
  pair (lm_ResourceVersion o, lm_Continue o) <$> pointer_value as_int plain m (lm_RemainingItemCount o).
Definition spec_value (m : Memory) (s : goClusterCIDRSpec) : option ClusterCIDRSpec :=
  sel ← pointer_value as_selector selector_value m (go_NodeSelector s);
  Some (mkSpecCC sel (go_PerNodeHostBits s) (go_IPv4 s) (go_IPv6 s)).
Definition object_value (m : Memory) (c : goClusterCIDR) : option (TypeMeta * v1ClusterCIDR) :=
  '(name, generation, version, deleted, finalizers) ← meta_value m (go_ObjectMeta c);
  s ← spec_value m (go_Spec c);
  Some (go_TypeMeta c, mkCC name generation version deleted finalizers s).
(** A nil list of items is told from an empty one. *)
Definition list_value (m : Memory) (l : goClusterCIDRList)
    : option (TypeMeta * (string * string * option Z) * option (list (TypeMeta * v1ClusterCIDR))) :=
  meta ← listMeta_value m (list_ListMeta l);
  items ← slice_value as_items object_value m (list_Items l);
  Some (list_TypeMeta l, meta, match list_Items l with None => None | Some _ => Some items end).

(** [copy] writes to [*out] a value equal to the one at [*in], in memory that was not
    in use before, and touches nothing else: the copy reads its value in the new
    cells alone. *)
Definition copies {X V} (value : Memory → X → option V) (copy : X → M Memory X) : Prop :=
  ∀ m x v, value m x = Some v → ∃ x' m', copy x m = (Ok x', m') ∧ m ⊆ m' ∧ value (m' ∖ m) x' = Some v.

Class CopyFunctions : Type := {
  ObjectMeta_DeepCopyInto : goObjectMeta → M Memory goObjectMeta;
  ListMeta_DeepCopyInto : goListMeta → M Memory goListMeta;
  NodeSelector_DeepCopyInto : goNodeSelector → M Memory goNodeSelector
}.
Class CopyLaws (F : CopyFunctions) : Prop := {
  copies_ObjectMeta : copies meta_value ObjectMeta_DeepCopyInto;
  copies_ListMeta : copies listMeta_value ListMeta_DeepCopyInto;
  copies_NodeSelector : copies selector_value NodeSelector_DeepCopyInto
}.

(** * Deep copies

    [DeepCopyInto] gives the struct it leaves in [*out]. *)
Section deepcopy.
Context `{HCF : !CopyFunctions}.

(** [out := new(A); in.DeepCopyInto(out)] *)
Definition copyCell {A} (as_A : cell → option A) (zero : A) (to_cell : A → cell) (copy : A → M Memory A) (in_ : addr) : M Memory addr :=
  out ← alloc (to_cell zero);
  x ← load as_A in_;
  x' ← copy x;
  store out (to_cell x') ;;
  mret out.

Definition Spec_DeepCopyInto (in_ : goClusterCIDRSpec) : M Memory goClusterCIDRSpec :=
  match go_NodeSelector in_ with
  | None => mret in_
  | Some p =>
      out ← copyCell as_selector (mkGoNodeSelector None) CSelector NodeSelector_DeepCopyInto p;
      mret (mkGoSpec (Some out) (go_PerNodeHostBits in_) (go_IPv4 in_) (go_IPv6 in_))
  end.

Definition ClusterCIDR_DeepCopyInto (in_ : goClusterCIDR) : M Memory goClusterCIDR :=
  objectMeta ← ObjectMeta_DeepCopyInto (go_ObjectMeta in_);
  spec ← Spec_DeepCopyInto (go_Spec in_);
  mret (mkGoClusterCIDR (go_TypeMeta in_) objectMeta spec).

(** The loop over the items: element [i] of the array [a] is copied into [out]. *)
Definition copyItem (a out : addr) (i : nat) : M Memory unit :=
  l ← load as_items a;
  x ← lift (match l !! i with Some x => Ok x | None => Panic IndexOutOfRange end);
  x' ← ClusterCIDR_DeepCopyInto x;
  l' ← load as_items out;
  store out (CItems (<[i := x']> l')).

Definition ClusterCIDRList_DeepCopyInto (in_ : goClusterCIDRList) : M Memory goClusterCIDRList :=
  listMeta ← ListMeta_DeepCopyInto (list_ListMeta in_);
  match list_Items in_ with
  | None => mret (mkGoList (list_TypeMeta in_) listMeta None)
  | Some (a, n) =>
      out ← alloc (CItems (replicate n zeroClusterCIDR));
      forM_ (seq 0 n) (copyItem a out) ;;
      mret (mkGoList (list_TypeMeta in_) listMeta (Some (out, n)))
  end.

(** The [DeepCopy] methods: nil for nil, else [new] and [DeepCopyInto]. *)
Definition deepCopyOf {A} (as_A : cell → option A) (zero : A) (to_cell : A → cell) (copy : A → M Memory A)
    (in_ : option addr) : M Memory (option addr) :=
  match in_ with
  | None => mret None
  | Some a => out ← copyCell as_A zero to_cell copy a; mret (Some out)
  end.
Definition Spec_DeepCopy : option addr → M Memory (option addr) := deepCopyOf as_spec zeroSpec CSpec Spec_DeepCopyInto.
Definition ClusterCIDR_DeepCopy : option addr → M Memory (option addr) := deepCopyOf as_object zeroClusterCIDR CClusterCIDR ClusterCIDR_DeepCopyInto.
Definition ClusterCIDRList_DeepCopy : option addr → M Memory (option addr) := deepCopyOf as_list zeroList CList ClusterCIDRList_DeepCopyInto.

(** [DeepCopyObject] as a [runtime.Object]: a nil pointer gives a nil interface. *)
Definition ClusterCIDR_DeepCopyObject (in_ : option addr) : M Memory (option addr) :=
  c ← ClusterCIDR_DeepCopy in_;
  match c with Some c => mret (Some c) | None => mret None end.
Definition ClusterCIDRList_DeepCopyObject (in_ : option addr) : M Memory (option addr) :=
  c ← ClusterCIDRList_DeepCopy in_;
  match c with Some c => mret (Some c) | None => mret None end.

(** * The edits of the copies *)

(** [append] writes in place when the array has room, or moves to a new array, whose
    spare capacity the runtime chooses. *)
Definition appendString (spare : nat) (s : slice) (x : string) : M Memory slice :=
  match s with
  | None => a ← alloc (CStrings (x :: replicate spare "")); mret (Some (a, 1%nat))
  | Some (a, n) =>
      l ← load as_strings a;
      if decide (n < length l)%nat then store a (CStrings (<[n := x]> l)) ;; mret (Some (a, S n))
      else a' ← alloc (CStrings (take n l ++ x :: replicate spare "")); mret (Some (a', S n))
  end.

(** [slices.DeleteFunc] moves the elements it keeps to the front of the same array
    and clears the rest of the slice. *)
Definition deleteStrings (del : string → Prop) `{!∀ s, Decision (del s)} (s : slice) : M Memory slice :=
  match s with
  | None => mret None
  | Some (a, n) =>
      l ← load as_strings a;
      let kept := filter (λ s, ¬ del s) (take n l) in
      store a (CStrings (kept ++ replicate (n - length kept) "" ++ drop n l)) ;;
      mret (Some (a, length kept))
  end.

Definition with_go_finalizers (s : slice) (c : goClusterCIDR) : goClusterCIDR :=
  let o := go_ObjectMeta c in
  mkGoClusterCIDR (go_TypeMeta c)
    (mkGoObjectMeta (om_Name o) (om_Generation o) (om_ResourceVersion o) (om_DeletionTimestamp o) s) (go_Spec c).

(** [x.Finalizers = edit(x.Finalizers)] *)
Definition editFinalizers (edit : slice → M Memory slice) (a : addr) : M Memory unit :=
  c ← load as_object a;
  s ← edit (om_Finalizers (go_ObjectMeta c));
  c ← load as_object a;
  store a (CClusterCIDR (with_go_finalizers s c)).

(** [if err, c := ...]: a pointer that is dereferenced. *)
Definition deref (p : option addr) : M Memory addr :=
  match p with Some a => mret a | None => crash NilDereference end.

(** [needToAddFinalizer] on the object in memory. *)
Definition needToAddFinalizerAt (c : goClusterCIDR) (finalizer : string) : M Memory bool :=
  m ← get;
  match slice_value as_strings plain m (om_Finalizers (go_ObjectMeta c)) with
  | Some finalizers => mret (bool_decide (om_DeletionTimestamp (go_ObjectMeta c) = None) && negb (bool_decide (finalizer ∈ finalizers)))
  | None => crash NilDereference
  end.

(** What [createClusterCIDR] sends to the API server. *)
Definition updatedClusterCIDR (spare : nat) (clusterCIDR : addr) : M Memory addr :=
  updated ← (p ← ClusterCIDR_DeepCopy (Some clusterCIDR); deref p);
  c ← load as_object clusterCIDR;
  b ← needToAddFinalizerAt c clusterCIDRFinalizer;
  (if b : bool then editFinalizers (λ s, appendString spare s clusterCIDRFinalizer) updated else mret tt) ;;
  mret updated.

(** What [reconcileDelete] sends to the API server. *)
Definition cccCopy (clusterCIDR : addr) : M Memory addr :=
  cccCopy ← (p ← ClusterCIDR_DeepCopy (Some clusterCIDR); deref p);
  editFinalizers (deleteStrings (λ s, s = clusterCIDRFinalizer)) cccCopy ;;
  mret cccCopy.
End deepcopy.
