(* ===== verification/DeepCopyProps.v ===== *)
(** Deep copies leave the memory in use alone and lie outside of it. *)
From S2P Require Import Prelude GoNet CIDRTheory CIDRText NetUtils MultiCIDRSet Kubernetes DeepCopy.

(** * Memories *)

Lemma diff_mono_l (m1 m2 m : Memory) : m1 ⊆ m2 → m1 ∖ m ⊆ m2 ∖ m.
Proof.
  intros H. apply map_subseteq_spec. intros a c [H1 H2]%lookup_difference_Some. apply lookup_difference_Some.
  split; [by eapply lookup_weaken|done].
Qed.

Lemma diff_mono_r (m m1 m2 : Memory) : m1 ⊆ m2 → m ∖ m2 ⊆ m ∖ m1.
Proof.
  intros H. apply map_subseteq_spec. intros a c [H1 H2]%lookup_difference_Some. apply lookup_difference_Some.
  split; [done|]. by eapply lookup_weaken_None.
Qed.

Lemma diff_subseteq (m1 m2 : Memory) : m1 ∖ m2 ⊆ m1.
Proof. apply map_subseteq_spec. by intros a c [H _]%lookup_difference_Some. Qed.

Lemma diff_insert (m1 m : Memory) a c : m !! a = None → <[a := c]> m1 ∖ m = <[a := c]> (m1 ∖ m).
Proof.
  intros Ha. apply map_eq. intros b. destruct (decide (b = a)) as [->|Hb].
  - rewrite lookup_difference, Ha, !lookup_insert_eq. done.
  - rewrite lookup_insert_ne, !lookup_difference by done. by rewrite lookup_insert_ne.
Qed.

Lemma fresh_None (m : Memory) : m !! fresh (dom m) = None.
Proof. apply not_elem_of_dom, is_fresh. Qed.

(** Overwriting a cell that the smaller memory does not have. *)
Lemma insert_over (m1 m2 : Memory) a c : m1 ⊆ m2 → m1 !! a = None → m1 ⊆ <[a := c]> m2.
Proof. intros H Ha. by apply insert_subseteq_r. Qed.

(** * Reading *)

Definition mono {X V} (value : Memory → X → option V) : Prop :=
  ∀ m1 m2 x v, m1 ⊆ m2 → value m1 x = Some v → value m2 x = Some v.

Lemma mono_plain {A} : mono (@plain A).
Proof. by intros m1 m2 x v _. Qed.

Lemma cell_mono {A} (as_A : cell → option A) (m1 m2 : Memory) a x : m1 ⊆ m2 → m1 !! a ≫= as_A = Some x → m2 !! a ≫= as_A = Some x.
Proof. intros H (c & Hc & Hx)%bind_Some. apply bind_Some. exists c. split; [by eapply lookup_weaken|done]. Qed.

Lemma slice_value_inv {A V} (as_A : cell → option (list A)) (value : Memory → A → option V) m a n vs :
  slice_value as_A value m (Some (a, n)) = Some vs ↔
  ∃ l, m !! a ≫= as_A = Some l ∧ (n ≤ length l)%nat ∧ mapM (value m) (take n l) = Some vs.
Proof.
  unfold slice_value. rewrite bind_Some. split.
  - intros (l & Hl & H). exists l. case_guard; [done|discriminate].
  - intros (l & Hl & Hn & H). exists l. split; [done|]. by rewrite option_guard_True.
Qed.

Lemma mono_slice {A V} (as_A : cell → option (list A)) (value : Memory → A → option V) : mono value → mono (slice_value as_A value).
Proof.
  intros Hv m1 m2 [[a n]|] vs H; [|done]. rewrite !slice_value_inv. intros (l & Hl & Hn & Hvs).
  exists l. split_and!; [by eapply cell_mono|done|]. apply mapM_Some. apply mapM_Some in Hvs.
  eapply Forall2_impl; [exact Hvs|]. intros x v. by apply Hv.
Qed.

Lemma mono_pointer {A V} (as_A : cell → option A) (value : Memory → A → option V) : mono value → mono (pointer_value as_A value).
Proof.
  intros Hv m1 m2 [a|] v H; [|done]. unfold pointer_value. rewrite !bind_Some. intros (x & Hx & (v' & Hv' & ->)%fmap_Some).
  exists x. split; [by eapply cell_mono|]. by rewrite (Hv _ _ _ _ H Hv').
Qed.

Lemma mono_requirement : mono requirement_value.
Proof.
  intros m1 m2 r v H (vs & Hvs & ->)%fmap_Some. unfold requirement_value.
  by rewrite (mono_slice _ _ mono_plain _ _ _ _ H Hvs).
Qed.

Lemma mono_term : mono term_value.
Proof.
  intros m1 m2 r v H (e & He & (f & Hf & ->)%fmap_Some)%bind_Some. unfold term_value.
  by rewrite (mono_slice _ _ mono_requirement _ _ _ _ H He), (mono_slice _ _ mono_requirement _ _ _ _ H Hf).
Qed.

Lemma mono_selector : mono selector_value.
Proof. intros m1 m2 r v H (ts & Hts & ->)%fmap_Some. unfold selector_value. by rewrite (mono_slice _ _ mono_term _ _ _ _ H Hts). Qed.

Lemma mono_meta : mono meta_value.
Proof.
  intros m1 m2 r v H (t & Ht & (f & Hf & ->)%fmap_Some)%bind_Some. unfold meta_value.
  by rewrite (mono_pointer _ _ mono_plain _ _ _ _ H Ht), (mono_slice _ _ mono_plain _ _ _ _ H Hf).
Qed.

Lemma mono_listMeta : mono listMeta_value.
Proof. intros m1 m2 r v H (t & Ht & ->)%fmap_Some. unfold listMeta_value. by rewrite (mono_pointer _ _ mono_plain _ _ _ _ H Ht). Qed.

Lemma mono_spec : mono spec_value.
Proof.
  intros m1 m2 r v H (s & Hs & [= <-])%bind_Some. unfold spec_value. by rewrite (mono_pointer _ _ mono_selector _ _ _ _ H Hs).
Qed.

Lemma object_value_inv m c v : object_value m c = Some v ↔
  ∃ name generation version deleted finalizers s, meta_value m (go_ObjectMeta c) = Some (name, generation, version, deleted, finalizers)
    ∧ spec_value m (go_Spec c) = Some s ∧ v = (go_TypeMeta c, mkCC name generation version deleted finalizers s).
Proof.
  unfold object_value. rewrite bind_Some. split.
  - intros ([[[[name gen] ver] del] fin] & Hm & (s & Hs & [= <-])%bind_Some). by eauto 10.
  - intros (name & gen & ver & del & fin & s & Hm & Hs & ->). eexists. split; [exact Hm|]. simpl. by rewrite Hs.
Qed.

Lemma mono_object : mono object_value.
Proof.
  intros m1 m2 c v H. rewrite !object_value_inv. intros (name & gen & ver & del & fin & s & Hm & Hs & ->).
  exists name, gen, ver, del, fin, s. split_and!; [by eapply mono_meta|by eapply mono_spec|done].
Qed.

(** * Copying *)

Section copying.
Context `{HCF : !CopyFunctions} (HCL : CopyLaws HCF).

Lemma alloc_spec c m : ∃ a, alloc c m = (Ok a, <[a := c]> m) ∧ m !! a = None.
Proof using. eexists. split; [reflexivity|apply fresh_None]. Qed.

Lemma load_spec {A} (as_A : cell → option A) a x m : m !! a ≫= as_A = Some x → load as_A a m = (Ok x, m).
Proof using. intros H. unfold load. by rewrite H. Qed.

(** The new cell and what its struct refers to, [mx], are apart from each other. *)
Lemma copyCell_spec {A V} (as_A : cell → option A) zero to_cell copy (value : Memory → A → option V) a m x v :
  copies value copy → mono value → m !! a ≫= as_A = Some x → value m x = Some v →
  ∃ out x' m0 m1, copyCell as_A zero to_cell copy a m = (Ok out, <[out := to_cell x']> m1)
    ∧ m !! out = None ∧ m0 = <[out := to_cell zero]> m ∧ m0 ⊆ m1 ∧ copy x m0 = (Ok x', m1) ∧ value (m1 ∖ m0) x' = Some v.
Proof using.
  intros Hcopy Hmono Hx Hv. destruct (alloc_spec (to_cell zero) m) as (out & Ea & Hout).
  assert (m ⊆ <[out := to_cell zero]> m) as Hsub by (by apply insert_subseteq).
  destruct (Hcopy (<[out := to_cell zero]> m) x v) as (x' & m1 & Ec & Hsub1 & Hv1); [by eapply Hmono|].
  exists out, x', (<[out := to_cell zero]> m), m1. split; [|done]. unfold copyCell. mstep Ea.
  mstep (load_spec as_A a x _ (cell_mono _ _ _ _ _ Hsub Hx)). by mstep Ec.
Qed.

(** What [copyCell] has made, as seen from the memory before it. *)
Lemma copyCell_apart {A} (to_cell : A → cell) (m m0 m1 : Memory) out zero x' :
  m !! out = None → m0 = <[out := to_cell zero]> m → m0 ⊆ m1 →
  m ⊆ <[out := to_cell x']> m1 ∧ (<[out := to_cell x']> m1 ∖ m) !! out = Some (to_cell x')
  ∧ m1 ∖ m0 ⊆ <[out := to_cell x']> m1 ∖ m.
Proof using.
  intros Hout -> Hsub. assert (m ⊆ m1) as Hm by (etransitivity; [by apply insert_subseteq|exact Hsub]). split_and!.
  - by apply insert_over.
  - by rewrite diff_insert, lookup_insert_eq.
  - rewrite diff_insert by done. apply insert_over; [by apply diff_mono_r, insert_subseteq|].
    apply lookup_difference_None. right. rewrite lookup_insert_eq. by eexists.
Qed.

Lemma copies_Spec : copies spec_value Spec_DeepCopyInto.
Proof using HCL.
  intros m s v Hs. unfold spec_value in Hs. apply bind_Some in Hs as (sel & Hsel & [= <-]).
  unfold Spec_DeepCopyInto. destruct (go_NodeSelector s) as [p|] eqn:Hp; simpl in Hsel.
  - apply bind_Some in Hsel as (x & Hx & (sel' & Hsel & ->)%fmap_Some).
    destruct (copyCell_spec as_selector (mkGoNodeSelector None) CSelector NodeSelector_DeepCopyInto selector_value p m x sel'
      copies_NodeSelector mono_selector Hx Hsel) as (out & x' & m0 & m1 & E & Hout & Hm0 & Hsub & _ & Hv).
    destruct (copyCell_apart CSelector m m0 m1 out _ x' Hout Hm0 Hsub) as (H1 & H2 & H3).
    eexists _, _. split; [by mstep E|]. split; [exact H1|]. unfold spec_value. simpl. rewrite H2. simpl.
    by rewrite (mono_selector _ _ _ _ H3 Hv).
  - injection Hsel as <-. eexists _, m. split; [reflexivity|]. split; [done|]. unfold spec_value. by rewrite Hp.
Qed.

(** The metadata and the spec of the copy lie in different parts, [mM] and [mS]. *)
Lemma ClusterCIDR_DeepCopyInto_spec m c name gen ver del fin s :
  meta_value m (go_ObjectMeta c) = Some (name, gen, ver, del, fin) → spec_value m (go_Spec c) = Some s →
  ∃ c' m', ClusterCIDR_DeepCopyInto c m = (Ok c', m') ∧ m ⊆ m' ∧ go_TypeMeta c' = go_TypeMeta c ∧
  ∃ mM mS, mM ⊆ m' ∖ m ∧ mS ⊆ m' ∖ m ∧ mM ##ₘ mS
    ∧ meta_value mM (go_ObjectMeta c') = Some (name, gen, ver, del, fin) ∧ spec_value mS (go_Spec c') = Some s.
Proof using HCL.
  intros Hm Hs. destruct (copies_ObjectMeta m _ _ Hm) as (o' & m1 & E1 & Hsub1 & Hm').
  destruct (copies_Spec m1 _ _ (mono_spec _ _ _ _ Hsub1 Hs)) as (s' & m2 & E2 & Hsub2 & Hs').
  eexists _, m2. split; [unfold ClusterCIDR_DeepCopyInto; mstep E1; by mstep E2|]. split; [by etransitivity|]. split; [done|].
  exists (m1 ∖ m), (m2 ∖ m1). split_and!; simpl; [by apply diff_mono_l|by apply diff_mono_r| |done|done].
  apply map_disjoint_spec. intros a c1 c2 [H1 _]%lookup_difference_Some [_ H2]%lookup_difference_Some. congruence.
Qed.

Lemma copies_ClusterCIDR : copies object_value ClusterCIDR_DeepCopyInto.
Proof using HCL.
  intros m c v (name & gen & ver & del & fin & s & Hm & Hs & ->)%object_value_inv.
  destruct (ClusterCIDR_DeepCopyInto_spec m c _ _ _ _ _ _ Hm Hs) as (c' & m' & E & Hsub & Ht & mM & mS & H1 & H2 & _ & Hm' & Hs').
  exists c', m'. split_and!; [done|done|]. apply object_value_inv. exists name, gen, ver, del, fin, s.
  split_and!; [by apply (mono_meta _ _ _ _ H1)|by apply (mono_spec _ _ _ _ H2)|by rewrite Ht].
Qed.

(** * The list *)

(** The new cells but for the array itself. *)
Definition newCells (out : addr) (m m' : Memory) : Memory := delete out (m' ∖ m).

Lemma newCells_store out c m m' : m !! out = None → newCells out m (<[out := c]> m') = newCells out m m'.
Proof using. intros H. unfold newCells. by rewrite diff_insert, delete_insert_eq. Qed.

Lemma newCells_mono out m m1 m2 : m1 ⊆ m2 → newCells out m m1 ⊆ newCells out m m2.
Proof using. intros H. by apply delete_mono, diff_mono_l. Qed.

Lemma newCells_latest out m m1 m2 : m ⊆ m1 → is_Some (m1 !! out) → m2 ∖ m1 ⊆ newCells out m m2.
Proof using.
  intros H [c Hc]. apply map_subseteq_spec. intros a c' [H1 H2]%lookup_difference_Some. unfold newCells.
  rewrite lookup_delete_ne by congruence. apply lookup_difference_Some. split; [done|]. by eapply lookup_weaken_None.
Qed.

Lemma copyItems_spec m out a l vs n : m !! a ≫= as_items = Some l → (n ≤ length l)%nat →
  Forall2 (λ x v, object_value m x = Some v) (take n l) vs → m !! out = None →
  ∀ r k done mk, (k + r = n)%nat → length done = k → m ⊆ mk → mk !! out = Some (CItems (done ++ replicate r zeroClusterCIDR)) →
    Forall2 (λ x v, object_value (newCells out m mk) x = Some v) done (take k vs) →
  ∃ done' m', forM_ (seq k r) (copyItem a out) mk = (Ok tt, m') ∧ m ⊆ m' ∧ m' !! out = Some (CItems done') ∧ length done' = n
    ∧ Forall2 (λ x v, object_value (newCells out m m') x = Some v) done' vs.
Proof using HCL.
  intros Ha Hn Hvs Hout. pose proof (Forall2_length _ _ _ Hvs) as Hlen. rewrite length_take in Hlen.
  induction r as [|r IH]; intros k done mk Hk Hd Hsub Ho Hdone.
  { exists done, mk. rewrite app_nil_r in Ho. rewrite take_ge in Hdone by lia. split_and!; [done..|lia|done]. }
  destruct (lookup_lt_is_Some_2 l k ltac:(lia)) as [x Hx]. destruct (lookup_lt_is_Some_2 vs k ltac:(lia)) as [v Hv].
  assert (object_value m x = Some v) as Hxv.
  { refine (Forall2_lookup_lr _ _ _ k x v Hvs _ Hv). by rewrite lookup_take_lt by lia. }
  destruct (copies_ClusterCIDR mk x v (mono_object _ _ _ _ Hsub Hxv)) as (x' & m' & E & Hsub' & Hx').
  assert (m' !! out = Some (CItems (done ++ replicate (S r) zeroClusterCIDR))) as Ho' by (by eapply lookup_weaken).
  set (m3 := <[out := CItems (done ++ x' :: replicate r zeroClusterCIDR)]> m').
  assert (copyItem a out k mk = (Ok tt, m3)) as E3.
  { unfold copyItem. mstep (load_spec as_items a l mk (cell_mono _ _ _ _ _ Hsub Ha)). rewrite Hx.
    mstep (eq_refl : lift (Ok x) mk = (Ok x, mk)). mstep E.
    mstep (load_spec as_items out _ m' (f_equal (λ o, o ≫= as_items) Ho')). unfold store, modify. do 2 f_equal.
    unfold m3. do 2 f_equal. subst k. by rewrite insert_app_r_alt, Nat.sub_diag by lia. }
  cbn [seq]. rewrite (forM_next _ _ _ _ _ _ E3). apply (IH (S k) (done ++ [x']) m3); [lia|rewrite length_app; simpl; lia| | |].
  - apply insert_over; [by etransitivity|done].
  - unfold m3. by rewrite lookup_insert_eq, <-app_assoc.
  - unfold m3. rewrite newCells_store by done. erewrite take_S_r by done. apply Forall2_app.
    + eapply Forall2_impl; [exact Hdone|]. intros y w. by apply mono_object, newCells_mono.
    + constructor; [|constructor]. eapply mono_object; [|exact Hx']. apply newCells_latest; [done|by eexists].
Qed.

Lemma copies_ClusterCIDRList : copies list_value ClusterCIDRList_DeepCopyInto.
Proof using HCL.
  intros m li v (meta & Hm & (items & Hi & [= <-])%bind_Some)%bind_Some.
  destruct (copies_ListMeta m _ _ Hm) as (lm & m1 & E1 & Hsub1 & Hlm). unfold ClusterCIDRList_DeepCopyInto.
  destruct (list_Items li) as [[a n]|] eqn:Hli.
  - apply slice_value_inv in Hi as (l & Ha & Hn & Hvs). apply mapM_Some in Hvs.
    destruct (alloc_spec (CItems (replicate n zeroClusterCIDR)) m1) as (out & Ea & Hout).
    destruct (copyItems_spec m1 out a l items n (cell_mono _ _ _ _ _ Hsub1 Ha) Hn) with (r := n) (k := 0%nat) (done := @nil goClusterCIDR)
      (mk := <[out := CItems (replicate n zeroClusterCIDR)]> m1) as (done' & m2 & E2 & Hsub2 & Ho & Hl & Hd); try done.
    { eapply Forall2_impl; [exact Hvs|]. intros x v. by apply (mono_object m m1). }
    { by apply insert_subseteq. }
    { by rewrite lookup_insert_eq. }
    eexists _, m2. split; [mstep E1; mstep Ea; by mstep E2|]. split; [by etransitivity|]. unfold list_value. simpl.
    rewrite (mono_listMeta _ _ _ _ (diff_mono_l _ _ m Hsub2) Hlm). simpl.
    assert ((m2 ∖ m) !! out = Some (CItems done')) as Ho'.
    { apply lookup_difference_Some. split; [done|]. by eapply lookup_weaken_None. }
    rewrite Ho'. simpl. rewrite option_guard_True by lia. rewrite take_ge by lia.
    assert (mapM (object_value (m2 ∖ m)) done' = Some items) as ->; [|done]. apply mapM_Some.
    eapply Forall2_impl; [exact Hd|]. intros x v. apply (mono_object (newCells out m1 m2)). etransitivity; [apply delete_subseteq|by apply diff_mono_r].
  - injection Hi as <-. eexists _, m1. split; [by mstep E1|]. split; [done|]. unfold list_value. simpl. by rewrite Hlm.
Qed.

(** * The methods *)

(** [DeepCopy]: nil for nil, else a pointer to a new cell with a struct of the same
    value, with nothing else changed. *)
Lemma deepCopyOf_spec {A V} (as_A : cell → option A) zero to_cell copy (value : Memory → A → option V) a m x v :
  (∀ y, as_A (to_cell y) = Some y) → copies value copy → mono value → m !! a ≫= as_A = Some x → value m x = Some v →
  ∃ out x' m', deepCopyOf as_A zero to_cell copy (Some a) m = (Ok (Some out), m') ∧ m ⊆ m'
    ∧ (m' ∖ m) !! out ≫= as_A = Some x' ∧ value (m' ∖ m) x' = Some v.
Proof using.
  intros Has Hcopy Hmono Hx Hv.
  destruct (copyCell_spec as_A zero to_cell copy value a m x v Hcopy Hmono Hx Hv) as (out & x' & m0 & m1 & E & Hout & Hm0 & Hsub & _ & Hv').
  destruct (copyCell_apart to_cell m m0 m1 out zero x' Hout Hm0 Hsub) as (H1 & H2 & H3).
  exists out, x', (<[out:=to_cell x']> m1). split; [unfold deepCopyOf; by mstep E|]. split_and!; [done|by rewrite H2; simpl|by eapply Hmono].
Qed.
End copying.

(** * Editing a copy *)

Lemma mapM_plain {A} m (l : list A) : mapM (plain m) l = Some l.
Proof. apply mapM_Some. by induction l; constructor. Qed.

Lemma strings_value m s l : slice_value as_strings plain m s = Some l ↔
  (s = None ∧ l = []) ∨ ∃ a n l0, s = Some (a, n) ∧ m !! a = Some (CStrings l0) ∧ (n ≤ length l0)%nat ∧ l = take n l0.
Proof.
  destruct s as [[a n]|]; [rewrite slice_value_inv|simpl; naive_solver]. split.
  - intros (l0 & (c & Hc & Hl0)%bind_Some & Hn & E). rewrite mapM_plain in E. injection E as <-.
    destruct c; try discriminate. injection Hl0 as ->. right. by eauto 10.
  - intros [[? _]|(a' & n' & l0 & [= <- <-] & Ha & Hn & ->)]; [done|]. exists l0. rewrite Ha, mapM_plain. done.
Qed.

(** An edit of the strings that lie in [mM] leaves the rest of memory alone. *)
Record framed (mM m m2 : Memory) : Prop := {
  fr_rest X : X ⊆ m → X ##ₘ mM → X ⊆ m2;
  fr_int t z : m !! t = Some (CInt z) → m2 !! t = Some (CInt z)
}.

Lemma framed_store mM m a l c : mM ⊆ m → mM !! a = Some (CStrings l) → framed mM m (<[a := c]> m).
Proof.
  intros Hsub Ha. split.
  - intros X HX Hd. apply insert_over; [done|]. destruct (X !! a) eqn:E; [|done]. by destruct (map_disjoint_spec X mM) as [H _]; destruct (H Hd a _ _ E Ha).
  - intros t z Ht. rewrite lookup_insert_ne; [done|]. intros ->. rewrite (lookup_weaken _ _ _ _ Ha Hsub) in Ht. done.
Qed.

Lemma framed_alloc mM m a c : m !! a = None → framed mM m (<[a := c]> m).
Proof.
  intros Ha. assert (m ⊆ <[a := c]> m) by (by apply insert_subseteq). split.
  - intros X HX _. by etransitivity.
  - intros t z Ht. by eapply lookup_weaken.
Qed.

Definition edits (edit : slice → M Memory slice) (f : list string → list string) : Prop :=
  ∀ mM m s l, mM ⊆ m → slice_value as_strings plain mM s = Some l →
    ∃ s' m2, edit s m = (Ok s', m2) ∧ slice_value as_strings plain m2 s' = Some (f l) ∧ framed mM m m2.

Lemma edits_append spare x : edits (λ s, appendString spare s x) (λ l, l ++ [x]).
Proof.
  intros mM m s l Hsub. rewrite strings_value. intros [[-> ->]|(a & n & l0 & -> & Ha & Hn & ->)].
  - destruct (alloc_spec (CStrings (x :: replicate spare "")) m) as (a & E & Hf). eexists _, _. split; [unfold appendString; by mstep E|].
    split; [|by apply framed_alloc]. apply strings_value. right. eexists _, _, _. split; [done|].
    rewrite lookup_insert_eq. split; [done|]. split; [simpl; lia|done].
  - pose proof (lookup_weaken _ _ _ _ Ha Hsub) as Ham. unfold appendString.
    mstep (load_spec as_strings a l0 m ltac:(by rewrite Ham)). destruct (decide (n < length l0)%nat) as [Hlt|Hge].
    + eexists _, _. split; [reflexivity|]. split; [|by eapply framed_store]. apply strings_value. right. eexists _, _, _. split; [done|].
      rewrite lookup_insert_eq. split; [done|]. rewrite length_insert. split; [lia|].
      rewrite take_S_r with (x := x) by (by apply list_lookup_insert_eq). by rewrite take_insert_ge by lia.
    + destruct (alloc_spec (CStrings (take n l0 ++ x :: replicate spare "")) m) as (a' & E & Hf). eexists _, _. split; [by mstep E|].
      split; [|by apply framed_alloc]. apply strings_value. right. eexists _, _, _. split; [done|].
      rewrite lookup_insert_eq. split; [done|]. rewrite length_app, length_take. simpl. split; [lia|].
      rewrite take_app_ge by (rewrite length_take; lia). rewrite length_take. by replace (S n - (n `min` length l0))%nat with 1%nat by lia.
Qed.

Lemma edits_delete (del : string → Prop) `{!∀ s, Decision (del s)} : edits (deleteStrings del) (filter (λ s, ¬ del s)).
Proof.
  intros mM m s l Hsub. rewrite strings_value. intros [[-> ->]|(a & n & l0 & -> & Ha & Hn & ->)].
  - exists None, m. split; [done|]. split; [done|]. by split.
  - pose proof (lookup_weaken _ _ _ _ Ha Hsub) as Ham. unfold deleteStrings.
    mstep (load_spec as_strings a l0 m ltac:(by rewrite Ham)). eexists _, _. split; [reflexivity|].
    split; [|by eapply framed_store]. apply strings_value. right. eexists _, _, _. split; [done|].
    rewrite lookup_insert_eq. split; [done|]. rewrite length_app. split; [lia|]. by rewrite take_app_length.
Qed.

Lemma meta_value_inv m o name gen ver del fin : meta_value m o = Some (name, gen, ver, del, fin) ↔
  om_Name o = name ∧ om_Generation o = gen ∧ om_ResourceVersion o = ver
  ∧ pointer_value as_int plain m (om_DeletionTimestamp o) = Some del ∧ slice_value as_strings plain m (om_Finalizers o) = Some fin.
Proof.
  unfold meta_value. rewrite bind_Some. split.
  - intros (t & Ht & (f & Hf & [= -> -> -> -> ->])%fmap_Some). done.
  - intros (<- & <- & <- & Ht & Hf). exists del. split; [done|]. by rewrite Hf.
Qed.

Lemma timestamp_framed mM m m2 t d : framed mM m m2 → pointer_value as_int plain m t = Some d → pointer_value as_int plain m2 t = Some d.
Proof.
  intros [_ Hf]. destruct t as [a|]; [|done]. simpl. intros (x & (c & Hc & Hx)%bind_Some & E)%bind_Some.
  destruct c; try discriminate. injection Hx as ->. by rewrite (Hf _ _ Hc).
Qed.

(** Overwriting the struct of an object leaves strings and times as they are. *)
Lemma store_object_reads m u c c' : m !! u = Some (CClusterCIDR c) →
  (∀ s, slice_value as_strings plain (<[u := CClusterCIDR c']> m) s = slice_value as_strings plain m s)
  ∧ ∀ t, pointer_value as_int plain (<[u := CClusterCIDR c']> m) t = pointer_value as_int plain m t.
Proof.
  intros Hu. split.
  - intros [[a n]|]; [|done]. simpl. destruct (decide (a = u)) as [->|Hne]; [by rewrite lookup_insert_eq, Hu|by rewrite lookup_insert_ne].
  - intros [a|]; [|done]. simpl. destruct (decide (a = u)) as [->|Hne]; [by rewrite lookup_insert_eq, Hu|by rewrite lookup_insert_ne].
Qed.

Lemma editFinalizers_spec edit f u c mM m name gen ver del fin : edits edit f →
  m !! u = Some (CClusterCIDR c) → mM ⊆ m → mM !! u = None → meta_value mM (go_ObjectMeta c) = Some (name, gen, ver, del, fin) →
  ∃ c' m', editFinalizers edit u m = (Ok tt, m') ∧ m' !! u = Some (CClusterCIDR c')
    ∧ go_TypeMeta c' = go_TypeMeta c ∧ go_Spec c' = go_Spec c ∧ meta_value m' (go_ObjectMeta c') = Some (name, gen, ver, del, f fin)
    ∧ ∀ X, X ⊆ m → X ##ₘ mM → X !! u = None → X ⊆ m'.
Proof.
  intros Hedit Hu Hsub HuM (Hn & Hg & Hv & Hd & Hf)%meta_value_inv.
  destruct (Hedit mM m _ _ Hsub Hf) as (s' & m2 & E & Hs' & Hfr).
  assert (m2 !! u = Some (CClusterCIDR c)) as Hu2.
  { eapply (lookup_weaken {[u := CClusterCIDR c]}); [by rewrite lookup_singleton_eq|]. apply (fr_rest _ _ _ Hfr).
    - by apply map_singleton_subseteq_l.
    - by apply map_disjoint_singleton_l. }
  exists (with_go_finalizers s' c), (<[u := CClusterCIDR (with_go_finalizers s' c)]> m2). split_and!.
  - unfold editFinalizers. mstep (load_spec as_object u c m ltac:(by rewrite Hu)). mstep E.
    by mstep (load_spec as_object u c m2 ltac:(by rewrite Hu2)).
  - by rewrite lookup_insert_eq.
  - done.
  - done.
  - destruct (store_object_reads m2 u c (with_go_finalizers s' c) Hu2) as [H1 H2]. apply meta_value_inv. split_and!; [done..| |].
    + rewrite H2. eapply timestamp_framed; [exact Hfr|]. eapply mono_pointer; [apply mono_plain|exact Hsub|done].
    + by rewrite H1.
  - intros X HX Hdisj HXu. apply insert_over; [by apply (fr_rest _ _ _ Hfr)|done].
Qed.

(** The copy of an object, part by part: its struct at [u], its metadata in [mM],
    its spec in [mS]. *)
Lemma ClusterCIDR_DeepCopy_spec `{HCF : !CopyFunctions} (HCL : CopyLaws HCF) m a c name gen ver del fin s :
  m !! a = Some (CClusterCIDR c) → meta_value m (go_ObjectMeta c) = Some (name, gen, ver, del, fin) → spec_value m (go_Spec c) = Some s →
  ∃ u c' m' mM mS, ClusterCIDR_DeepCopy (Some a) m = (Ok (Some u), m') ∧ m ⊆ m' ∧ m !! u = None
    ∧ m' !! u = Some (CClusterCIDR c') ∧ go_TypeMeta c' = go_TypeMeta c ∧ mM ⊆ m' ∧ mS ⊆ m'
    ∧ m ##ₘ mM ∧ mS ##ₘ mM ∧ mM !! u = None ∧ mS !! u = None
    ∧ meta_value mM (go_ObjectMeta c') = Some (name, gen, ver, del, fin) ∧ spec_value mS (go_Spec c') = Some s.
Proof.
  intros Ha Hm Hs. assert (object_value m c = Some (go_TypeMeta c, mkCC name gen ver del fin s)) as Hc.
  { apply object_value_inv. by exists name, gen, ver, del, fin, s. }
  destruct (copyCell_spec as_object zeroClusterCIDR CClusterCIDR ClusterCIDR_DeepCopyInto object_value a m c _
    (copies_ClusterCIDR HCL) mono_object ltac:(by rewrite Ha) Hc) as (u & c' & m0 & m1 & E & Hu & Hm0 & Hsub & Ec & _).
  assert (m ⊆ m0) as Hsub0 by (subst m0; by apply insert_subseteq).
  destruct (ClusterCIDR_DeepCopyInto_spec HCL m0 c name gen ver del fin s (mono_meta _ _ _ _ Hsub0 Hm) (mono_spec _ _ _ _ Hsub0 Hs))
    as (c'' & m1' & E' & _ & Ht & mM & mS & HM & HS & HMS & HMv & HSv).
  rewrite Ec in E'. injection E' as <- <-.
  destruct (copyCell_apart CClusterCIDR m m0 m1 u zeroClusterCIDR c' Hu Hm0 Hsub) as (H1 & H2 & H3).
  assert (∀ X, X ⊆ m1 ∖ m0 → X ⊆ <[u:=CClusterCIDR c']> m1 ∧ m ##ₘ X ∧ X !! u = None) as HX.
  { intros X HX. split_and!.
    - etransitivity; [exact HX|]. etransitivity; [exact H3|apply diff_subseteq].
    - apply map_disjoint_spec. intros b x y Hx Hy. eapply lookup_weaken in Hy; [|exact HX]. apply lookup_difference_Some in Hy as [_ Hy].
      by rewrite (lookup_weaken _ _ _ _ Hx Hsub0) in Hy.
    - destruct (X !! u) as [y|] eqn:Ey; [|done]. eapply lookup_weaken in Ey; [|exact HX]. apply lookup_difference_Some in Ey as [_ Ey].
      subst m0. by rewrite lookup_insert_eq in Ey. }
  destruct (HX mM HM) as (HM1 & HM2 & HM3). destruct (HX mS HS) as (HS1 & _ & HS3).
  exists u, c', (<[u:=CClusterCIDR c']> m1), mM, mS. split; [unfold ClusterCIDR_DeepCopy, deepCopyOf; by mstep E|].
  split_and!; [done|done|by rewrite lookup_insert_eq|done|done|done|done|by symmetry|done|done|done|done].
Qed.

(** Copying an object and editing the finalizers of the copy. *)
Lemma copy_then_edit `{HCF : !CopyFunctions} (HCL : CopyLaws HCF) edit f m a c t v : edits edit f →
  m !! a = Some (CClusterCIDR c) → object_value m c = Some (t, v) →
  ∃ u c1 m1 c2 m2, ClusterCIDR_DeepCopy (Some a) m = (Ok (Some u), m1) ∧ m ⊆ m1 ∧ m !! u = None
    ∧ m1 !! u = Some (CClusterCIDR c1) ∧ object_value m1 c1 = Some (t, v)
    ∧ editFinalizers edit u m1 = (Ok tt, m2) ∧ m ⊆ m2
    ∧ m2 !! u = Some (CClusterCIDR c2) ∧ object_value m2 c2 = Some (t, with_finalizers (f (cc_Finalizers v)) v).
Proof.
  intros Hedit Ha (name & gen & ver & del & fin & s & Hm & Hs & [= -> ->])%object_value_inv.
  destruct (ClusterCIDR_DeepCopy_spec HCL m a c _ _ _ _ _ _ Ha Hm Hs)
    as (u & c1 & m1 & mM & mS & E & Hsub & Hu & Hu1 & Ht & HM & HS & HmM & HSM & HMu & HSu & HMv & HSv).
  destruct (editFinalizers_spec edit f u c1 mM m1 name gen ver del fin Hedit Hu1 HM HMu HMv) as (c2 & m2 & E2 & Hu2 & Ht2 & Hsp & Hm2 & Hframe).
  exists u, c1, m1, c2, m2. split_and!; try done.
  - apply object_value_inv. exists name, gen, ver, del, fin, s. rewrite Ht. split_and!; [by apply (mono_meta _ _ _ _ HM)|by apply (mono_spec _ _ _ _ HS)|done].
  - by apply Hframe.
  - apply object_value_inv. exists name, gen, ver, del, (f fin), s. rewrite Ht2, Ht, Hsp.
    split_and!; [done| |done]. eapply mono_spec; [|exact HSv]. by apply Hframe.
Qed.

Lemma mono_list : mono list_value.
Proof.
  intros m1 m2 l v H (meta & Hm & (items & Hi & [= <-])%bind_Some)%bind_Some. unfold list_value.
  by rewrite (mono_listMeta _ _ _ _ H Hm); simpl; rewrite (mono_slice _ _ mono_object _ _ _ _ H Hi).
Qed.

(** [needToAddFinalizer] of the object in memory is that of its value. *)
Lemma needToAddFinalizerAt_spec m m1 c t cc finalizer : m ⊆ m1 → object_value m c = Some (t, cc) →
  needToAddFinalizerAt c finalizer m1 = (Ok (needToAddFinalizer (cc_DeletionTimestamp cc) (cc_Finalizers cc) finalizer), m1).
Proof.
  intros Hsub (name & gen & ver & del & fin & s & (_ & _ & _ & Hd & Hf)%meta_value_inv & _ & [= -> ->])%object_value_inv. simpl.
  unfold needToAddFinalizerAt. mred. rewrite (mono_slice _ _ mono_plain _ _ _ _ Hsub Hf). unfold needToAddFinalizer. do 3 f_equal.
  apply bool_decide_ext. destruct (om_DeletionTimestamp (go_ObjectMeta c)) as [a|]; simpl in Hd; [|by injection Hd as <-].
  apply bind_Some in Hd as (x & _ & [= <-]). done.
Qed.
