(* ===== verification/DeepCopyTheorems.v ===== *)
(** The theorems about deep copies, and reference copy functions for the witnesses:
    they read a value and write it to new memory. *)
From S2P Require Import Prelude GoNet CIDRTheory CIDRText NetUtils MultiCIDRSet Kubernetes DeepCopy DeepCopyProps.

(** * Writing values to new memory *)

Definition writes {X V} (value : Memory → X → option V) (write : V → M Memory X) : Prop :=
  ∀ m v, ∃ x m', write v m = (Ok x, m') ∧ m ⊆ m' ∧ value (m' ∖ m) x = Some v.

Fixpoint writeAll {X V} (write : V → M Memory X) (l : list V) : M Memory (list X) :=
  match l with [] => mret [] | v :: l => x ← write v; xs ← writeAll write l; mret (x :: xs) end.

Lemma writeAll_spec {X V} (value : Memory → X → option V) write l m : mono value → writes value write →
  ∃ xs m', writeAll write l m = (Ok xs, m') ∧ m ⊆ m' ∧ Forall2 (λ x v, value (m' ∖ m) x = Some v) xs l.
Proof.
  intros Hmono Hw. revert m. induction l as [|v l IH]; intros m; [by exists [], m|]. cbn [writeAll].
  destruct (Hw m v) as (x & m1 & E1 & H1 & Hx). destruct (IH m1) as (xs & m2 & E2 & H2 & Hxs).
  exists (x :: xs), m2. split; [mstep E1; by mstep E2|]. split; [by etransitivity|]. constructor.
  - eapply Hmono; [|exact Hx]. by apply diff_mono_l.
  - eapply Forall2_impl; [exact Hxs|]. intros y w. apply Hmono. by apply diff_mono_r.
Qed.

Definition writeSlice {X V} (to_cell : list X → cell) (write : V → M Memory X) (l : list V) : M Memory slice :=
  xs ← writeAll write l; a ← alloc (to_cell xs); mret (Some (a, length xs)).

Lemma writes_slice {X V} (as_X : cell → option (list X)) to_cell (value : Memory → X → option V) write :
  (∀ l, as_X (to_cell l) = Some l) → mono value → writes value write → writes (slice_value as_X value) (writeSlice to_cell write).
Proof.
  intros Has Hmono Hw m l. destruct (writeAll_spec value write l m Hmono Hw) as (xs & m1 & E1 & H1 & Hxs).
  destruct (alloc_spec (to_cell xs) m1) as (a & Ea & Ha). eexists _, _. split; [unfold writeSlice; mstep E1; by mstep Ea|].
  assert (m !! a = None) as Hma by (by eapply lookup_weaken_None). split; [by apply insert_over|].
  apply slice_value_inv. exists xs. rewrite diff_insert, lookup_insert_eq by done. split; [apply Has|]. split; [done|].
  rewrite take_ge by done. apply mapM_Some. eapply Forall2_impl; [exact Hxs|]. intros x v. apply Hmono. apply insert_over; [done|].
  apply lookup_difference_None. by left.
Qed.

Lemma writes_map {X Y V W} (value : Memory → X → option V) (write : V → M Memory X) (value' : Memory → Y → option W) (f : W → V) (g : W → X → Y) :
  writes value write → (∀ m w x, value m x = Some (f w) → value' m (g w x) = Some w) →
  writes value' (λ w, x ← write (f w); mret (g w x)).
Proof.
  intros Hw Hg m w. destruct (Hw m (f w)) as (x & m1 & E & H & Hx). exists (g w x), m1. split; [by mstep E|]. split; [done|by apply Hg].
Qed.

Lemma writes_pair {X1 X2 Y V1 V2 W} (value1 : Memory → X1 → option V1) write1 (value2 : Memory → X2 → option V2) write2
    (value' : Memory → Y → option W) (f1 : W → V1) (f2 : W → V2) (g : W → X1 → X2 → Y) :
  mono value1 → mono value2 → writes value1 write1 → writes value2 write2 →
  (∀ m w x1 x2, value1 m x1 = Some (f1 w) → value2 m x2 = Some (f2 w) → value' m (g w x1 x2) = Some w) →
  writes value' (λ w, x1 ← write1 (f1 w); x2 ← write2 (f2 w); mret (g w x1 x2)).
Proof.
  intros Hm1 Hm2 Hw1 Hw2 Hg m w. destruct (Hw1 m (f1 w)) as (x1 & m1 & E1 & H1 & Hx1). destruct (Hw2 m1 (f2 w)) as (x2 & m2 & E2 & H2 & Hx2).
  exists (g w x1 x2), m2. split; [mstep E1; by mstep E2|]. split; [by etransitivity|]. apply Hg.
  - eapply Hm1; [|exact Hx1]. by apply diff_mono_l.
  - eapply Hm2; [|exact Hx2]. by apply diff_mono_r.
Qed.

Lemma writes_plain {A} : writes (@plain A) mret.
Proof. intros m v. by exists v, m. Qed.

Definition writeInt (t : option Z) : M Memory (option addr) :=
  match t with None => mret None | Some z => a ← alloc (CInt z); mret (Some a) end.

Lemma writes_int : writes (pointer_value as_int plain) writeInt.
Proof.
  intros m [z|]; [|by exists None, m]. destruct (alloc_spec (CInt z) m) as (a & Ea & Ha).
  eexists _, _. split; [unfold writeInt; by mstep Ea|]. split; [by apply insert_subseteq|]. simpl.
  by rewrite diff_insert, lookup_insert_eq.
Qed.

Definition writeStrings : list string → M Memory slice := writeSlice CStrings mret.
Definition writeRequirement (r : NodeSelectorRequirement) : M Memory goRequirement :=
  x ← writeStrings (Values r); mret (mkGoRequirement (Key r) (Operator r) x).
Definition writeTerm (t : NodeSelectorTerm) : M Memory goTerm :=
  x1 ← writeSlice CRequirements writeRequirement (MatchExpressions t);
  x2 ← writeSlice CRequirements writeRequirement (MatchFields t); mret (mkGoTerm x1 x2).
Definition writeSelector (s : NodeSelector) : M Memory goNodeSelector :=
  x ← writeSlice CTerms writeTerm (NodeSelectorTerms s); mret (mkGoNodeSelector x).
Definition writeMeta (v : string * Z * string * Timestamp * list string) : M Memory goObjectMeta :=
  t ← writeInt v.1.2; f ← writeStrings v.2; mret (mkGoObjectMeta v.1.1.1.1 v.1.1.1.2 v.1.1.2 t f).
Definition writeListMeta (v : string * string * option Z) : M Memory goListMeta :=
  t ← writeInt v.2; mret (mkGoListMeta v.1.1 v.1.2 t).

Lemma writes_strings : writes (slice_value as_strings plain) writeStrings.
Proof. apply writes_slice; [done|apply mono_plain|apply writes_plain]. Qed.

Lemma writes_requirement : writes requirement_value writeRequirement.
Proof.
  apply (writes_map (slice_value as_strings plain) _ requirement_value Values (λ r x, mkGoRequirement (Key r) (Operator r) x) writes_strings).
  intros m [k o vs] x H. unfold requirement_value. simpl in *. by rewrite H.
Qed.

Lemma writes_term : writes term_value writeTerm.
Proof.
  assert (writes (slice_value as_requirements requirement_value) (writeSlice CRequirements writeRequirement)) as H.
  { apply writes_slice; [done|apply mono_requirement|apply writes_requirement]. }
  apply (writes_pair (slice_value as_requirements requirement_value) _ (slice_value as_requirements requirement_value) _
    term_value MatchExpressions MatchFields (λ _, mkGoTerm)); [apply mono_slice, mono_requirement..|done|done|].
  intros m [e f] x1 x2 H1 H2. unfold term_value. simpl in *. rewrite H1. simpl. by rewrite H2.
Qed.

Lemma writes_selector : writes selector_value writeSelector.
Proof.
  apply (writes_map (slice_value as_terms term_value) (writeSlice CTerms writeTerm) selector_value NodeSelectorTerms (λ _, mkGoNodeSelector)).
  - apply writes_slice; [done|apply mono_term|apply writes_term].
  - intros m [ts] x H. unfold selector_value. simpl in *. by rewrite H.
Qed.

Lemma writes_meta : writes meta_value writeMeta.
Proof.
  apply (writes_pair (pointer_value as_int plain) writeInt (slice_value as_strings plain) writeStrings meta_value
    (λ v, v.1.2) snd (λ v t f, mkGoObjectMeta v.1.1.1.1 v.1.1.1.2 v.1.1.2 t f)).
  - apply mono_pointer, mono_plain.
  - apply mono_slice, mono_plain.
  - apply writes_int.
  - apply writes_strings.
  - intros m [[[[name gen] ver] del] fin] x1 x2 H1 H2. apply meta_value_inv. by split_and!.
Qed.

Lemma writes_listMeta : writes listMeta_value writeListMeta.
Proof.
  apply (writes_map (pointer_value as_int plain) writeInt listMeta_value snd (λ v t, mkGoListMeta v.1.1 v.1.2 t) writes_int).
  intros m [[r c] n] x H. unfold listMeta_value. simpl in *. by rewrite H.
Qed.

Definition rewriteValue {X V} (value : Memory → X → option V) (write : V → M Memory X) (x : X) : M Memory X := λ m,
  match value m x with Some v => write v m | None => (Panic NilDereference, m) end.

Lemma rewrite_copies {X V} (value : Memory → X → option V) write : writes value write → copies value (rewriteValue value write).
Proof. intros Hw m x v Hv. unfold rewriteValue. rewrite Hv. apply Hw. Qed.

#[export] Instance refCopies : CopyFunctions := {|
  ObjectMeta_DeepCopyInto := rewriteValue meta_value writeMeta;
  ListMeta_DeepCopyInto := rewriteValue listMeta_value writeListMeta;
  NodeSelector_DeepCopyInto := rewriteValue selector_value writeSelector
|}.
Lemma refCopyLaws : CopyLaws refCopies.
Proof. split; apply rewrite_copies; [apply writes_meta|apply writes_listMeta|apply writes_selector]. Qed.

(** An object being deleted with two finalizers in an array with room for three, and
    a selector whose values share that array. *)
Definition ex_cell : goClusterCIDR :=
  mkGoClusterCIDR (mkTypeMeta "ClusterCIDR" "v1")
    (mkGoObjectMeta "a" 2 "7" (Some 2%positive) (Some (1%positive, 2%nat))) (mkGoSpec (Some 5%positive) 8 "10.0.0.0/16" "").
Definition ex_memory : Memory :=
  <[1%positive := CStrings ["other"; clusterCIDRFinalizer; ""]]>
  (<[2%positive := CInt 5]>
  (<[3%positive := CRequirements [mkGoRequirement "zone" "In" (Some (1%positive, 1%nat))]]>
  (<[4%positive := CTerms [mkGoTerm (Some (3%positive, 1%nat)) None]]>
  (<[5%positive := CSelector (mkGoNodeSelector (Some (4%positive, 1%nat)))]>
  (<[6%positive := CClusterCIDR ex_cell]> ∅))))).
Definition ex_object : v1ClusterCIDR :=
  mkCC "a" 2 "7" (Some 5) ["other"; clusterCIDRFinalizer]
    (mkSpecCC (Some (mkNodeSelector [mkTerm [mkRequirement "zone" "In" ["other"]] []])) 8 "10.0.0.0/16" "").

Lemma ex_object_value : ex_memory !! 6%positive = Some (CClusterCIDR ex_cell)
  ∧ object_value ex_memory ex_cell = Some (mkTypeMeta "ClusterCIDR" "v1", ex_object).
Proof. split; [reflexivity|]. vm_compute. reflexivity. Qed.

(** * The theorems *)

(** C39. The deep copies of a ClusterCIDR and of a list of them, given that those of
    the types they contain are right: the result is a pointer to a new cell, the copy
    has the value of the original (a nil list of items stays nil), all of it lies in
    memory that was not in use before, and nothing that was in use changes.  The copy
    of nil is nil. *)
Theorem DeepCopyObject_copies `{HCF : !CopyFunctions} (HCL : CopyLaws HCF) (m : Memory) :
  (∀ a c v, m !! a = Some (CClusterCIDR c) → object_value m c = Some v →
    ∃ out c' m', ClusterCIDR_DeepCopyObject (Some a) m = (Ok (Some out), m') ∧ m ⊆ m'
      ∧ (m' ∖ m) !! out = Some (CClusterCIDR c') ∧ object_value (m' ∖ m) c' = Some v)
  ∧ (∀ a l v, m !! a = Some (CList l) → list_value m l = Some v →
    ∃ out l' m', ClusterCIDRList_DeepCopyObject (Some a) m = (Ok (Some out), m') ∧ m ⊆ m'
      ∧ (m' ∖ m) !! out = Some (CList l') ∧ list_value (m' ∖ m) l' = Some v)
  ∧ (∀ a s v, m !! a = Some (CSpec s) → spec_value m s = Some v →
    ∃ out s' m', Spec_DeepCopy (Some a) m = (Ok (Some out), m') ∧ m ⊆ m'
      ∧ (m' ∖ m) !! out = Some (CSpec s') ∧ spec_value (m' ∖ m) s' = Some v)
  ∧ ClusterCIDR_DeepCopyObject None m = (Ok None, m) ∧ ClusterCIDRList_DeepCopyObject None m = (Ok None, m) ∧ Spec_DeepCopy None m = (Ok None, m).
Proof.
  split_and!; try done.
  - intros a c v Ha Hv. destruct (deepCopyOf_spec as_object zeroClusterCIDR CClusterCIDR ClusterCIDR_DeepCopyInto object_value a m c v)
      as (out & c' & m' & E & Hsub & (k & Hk & Hc)%bind_Some & Hv'); [done|by apply copies_ClusterCIDR|apply mono_object|by rewrite Ha|done|].
    destruct k; try discriminate. injection Hc as ->. exists out, c', m'. split; [|done]. unfold ClusterCIDR_DeepCopyObject. by mstep E.
  - intros a c v Ha Hv. destruct (deepCopyOf_spec as_list zeroList CList ClusterCIDRList_DeepCopyInto list_value a m c v)
      as (out & c' & m' & E & Hsub & (k & Hk & Hc)%bind_Some & Hv'); [done|by apply copies_ClusterCIDRList|apply mono_list|by rewrite Ha|done|].
    destruct k; try discriminate. injection Hc as ->. exists out, c', m'. split; [|done]. unfold ClusterCIDRList_DeepCopyObject. by mstep E.
  - intros a c v Ha Hv. destruct (deepCopyOf_spec as_spec zeroSpec CSpec Spec_DeepCopyInto spec_value a m c v)
      as (out & c' & m' & E & Hsub & (k & Hk & Hc)%bind_Some & Hv'); [done|by apply copies_Spec|apply mono_spec|by rewrite Ha|done|].
    destruct k; try discriminate. injection Hc as ->. by exists out, c', m'.
Qed.

Lemma DeepCopyObject_copies_witness :
  CopyLaws refCopies ∧ ∃ out c' m', ClusterCIDR_DeepCopyObject (Some 6%positive) ex_memory = (Ok (Some out), m') ∧ ex_memory ⊆ m'
    ∧ (m' ∖ ex_memory) !! out = Some (CClusterCIDR c') ∧ object_value (m' ∖ ex_memory) c' = Some (mkTypeMeta "ClusterCIDR" "v1", ex_object).
Proof.
  split; [exact refCopyLaws|]. exact (proj1 (DeepCopyObject_copies refCopyLaws ex_memory) 6%positive ex_cell _ (proj1 ex_object_value) (proj2 ex_object_value)).
Defined.

(** C14. The handlers edit the finalizers of a copy, with [append] and with
    [slices.DeleteFunc], which write to the array of the slice they are given.  The
    object they were handed by the informer cache, and everything else in memory, is
    left as it was, even where it shares arrays; and what they send to the API server
    is the value that [createClusterCIDR] and [reconcileDelete] of this development
    send: the object with the finalizer added, when it is to be added, or removed. *)
Theorem finalizer_edits_isolated `{HCF : !CopyFunctions} (HCL : CopyLaws HCF) (m : Memory) a c t cc spare
  (Ha : m !! a = Some (CClusterCIDR c)) (Hc : object_value m c = Some (t, cc)) :
  (∃ u c' m', updatedClusterCIDR spare a m = (Ok u, m') ∧ m ⊆ m' ∧ m !! u = None ∧ m' !! u = Some (CClusterCIDR c')
    ∧ object_value m' c' = Some (t, if needToAddFinalizer (cc_DeletionTimestamp cc) (cc_Finalizers cc) clusterCIDRFinalizer
                                    then with_finalizers (cc_Finalizers cc ++ [clusterCIDRFinalizer]) cc else cc))
  ∧ (∃ u c' m', cccCopy a m = (Ok u, m') ∧ m ⊆ m' ∧ m !! u = None ∧ m' !! u = Some (CClusterCIDR c')
    ∧ object_value m' c' = Some (t, with_finalizers (filter (λ s, s ≠ clusterCIDRFinalizer) (cc_Finalizers cc)) cc)).
Proof.
  split.
  - destruct (copy_then_edit HCL _ _ m a c t cc (edits_append spare clusterCIDRFinalizer) Ha Hc)
      as (u & c1 & m1 & c2 & m2 & E1 & H1 & Hu & Hc1 & Hv1 & E2 & H2 & Hc2 & Hv2).
    unfold updatedClusterCIDR. rewrite (M_bind_Ok _ _ m u m1) by (by mstep E1).
    mstep (load_spec as_object a c m1 ltac:(by rewrite (lookup_weaken _ _ _ _ Ha H1))).
    rewrite (M_bind_Ok _ _ m1 _ m1 (needToAddFinalizerAt_spec m m1 c t cc clusterCIDRFinalizer H1 Hc)).
    destruct (needToAddFinalizer _ _ _).
    + mstep E2. by exists u, c2, m2.
    + by exists u, c1, m1.
  - destruct (copy_then_edit HCL _ _ m a c t cc (edits_delete (λ s, s = clusterCIDRFinalizer)) Ha Hc)
      as (u & c1 & m1 & c2 & m2 & E1 & H1 & Hu & Hc1 & Hv1 & E2 & H2 & Hc2 & Hv2).
    unfold cccCopy. rewrite (M_bind_Ok _ _ m u m1) by (by mstep E1). mstep E2. by exists u, c2, m2.
Qed.

Lemma finalizer_edits_isolated_witness :
  CopyLaws refCopies ∧ ∃ u c' m', cccCopy 6%positive ex_memory = (Ok u, m') ∧ ex_memory ⊆ m' ∧ ex_memory !! u = None
    ∧ m' !! u = Some (CClusterCIDR c') ∧ object_value m' c' = Some (mkTypeMeta "ClusterCIDR" "v1", with_finalizers ["other"] ex_object).
Proof.
  split; [exact refCopyLaws|].
  exact (proj2 (finalizer_edits_isolated refCopyLaws ex_memory 6%positive ex_cell _ ex_object 0%nat (proj1 ex_object_value) (proj2 ex_object_value))).
Defined.
