(* ===== verification/Clientset.v ===== *)
(** Packages [versioned] and [clustercidr/v1] (src/pkg/client/clientset/versioned):
    the constructors of the clientset and of its client for ClusterCIDRs.

    A [rest.Config] is passed by pointer but every constructor copies it first
    ([configShallowCopy], [config]), so it is a value here.  client-go's transports,
    REST clients and rate limiters are the class [Rest]; [RestWorld] is the state
    they share, where a new rate limiter is made. *)
From S2P Require Import Prelude InformerFactory.

Class Rest : Type := {
  RestWorld : Type;
  RateLimiter : Type;
  Serializer : Type;
  HTTPClient : Type;
  RESTClient : Type;
  DiscoveryClient : Type;
  RestOptions : Type
}.

Section clientset.
Context `{HRe : !Rest}.

(** The fields the constructors use; [QPS], a float32, in units of 2^-149.
    [OtherOptions] are the remaining ones, which they copy. *)
Record Config : Type := mkConfig {
  cfg_APIPath : string;
  cfg_GroupVersion : option GroupVersion;
  cfg_NegotiatedSerializer : option Serializer;
  UserAgent : string;
  QPS : Z;
  Burst : Z;
  cfg_RateLimiter : option RateLimiter;
  OtherOptions : RestOptions
}.

Class RestFunctions : Type := {
  DefaultKubernetesUserAgent : string;
  CodecFactoryWithoutConversion : Serializer;
  HTTPClientFor : Config → M RestWorld HTTPClient;
  NewTokenBucketRateLimiter : Z → Z → RestWorld → RateLimiter * RestWorld;
  RESTClientForConfigAndClient : Config → HTTPClient → M RestWorld RESTClient;
  NewDiscoveryClientForConfigAndClient : Config → HTTPClient → M RestWorld DiscoveryClient;
  NewDiscoveryClient : RESTClient → DiscoveryClient
}.
Context `{HRF : !RestFunctions}.

Definition with_UserAgent (s : string) (c : Config) : Config :=
  mkConfig (cfg_APIPath c) (cfg_GroupVersion c) (cfg_NegotiatedSerializer c) s (QPS c) (Burst c) (cfg_RateLimiter c) (OtherOptions c).
Definition with_RateLimiter (r : option RateLimiter) (c : Config) : Config :=
  mkConfig (cfg_APIPath c) (cfg_GroupVersion c) (cfg_NegotiatedSerializer c) (UserAgent c) (QPS c) (Burst c) r (OtherOptions c).
Definition with_api (path : string) (gv : GroupVersion) (s : Serializer) (c : Config) : Config :=
  mkConfig path (Some gv) (Some s) (UserAgent c) (QPS c) (Burst c) (cfg_RateLimiter c) (OtherOptions c).

(** [if config.UserAgent == "" { config.UserAgent = rest.DefaultKubernetesUserAgent() }] *)
Definition defaultUserAgent (c : Config) : Config :=
  if String.eqb (UserAgent c) EmptyString then with_UserAgent DefaultKubernetesUserAgent c else c.

(** * The client of networking.x-k8s.io/v1; nil pointers are [None] *)

Record NetworkingV1Client : Type := mkNetworkingV1Client { restClient : RESTClient }.

Definition setConfigDefaults (config : Config) : Config :=
  defaultUserAgent (with_api "/apis" SchemeGroupVersion CodecFactoryWithoutConversion config).

Definition NetworkingV1_NewForConfigAndClient (c : Config) (h : HTTPClient) : M RestWorld NetworkingV1Client :=
  client ← RESTClientForConfigAndClient (setConfigDefaults c) h;
  mret (mkNetworkingV1Client client).

Definition NetworkingV1_NewForConfig (c : Config) : M RestWorld NetworkingV1Client :=
  let config := setConfigDefaults c in
  httpClient ← HTTPClientFor config;
  NetworkingV1_NewForConfigAndClient config httpClient.

(** [if err != nil { panic(err) }]: the value of the panic, [err] or that of a
    run-time panic. *)
Definition orDie {A} (m : M RestWorld A) (w : RestWorld) : ((error + panic) + A) * RestWorld :=
  match m w with
  | (Ok a, w) => (inr a, w)
  | (Err e, w) => (inl (inl e), w)
  | (Panic p, w) => (inl (inr p), w)
  end.

Definition NetworkingV1_NewForConfigOrDie (c : Config) : RestWorld → ((error + panic) + NetworkingV1Client) * RestWorld :=
  orDie (NetworkingV1_NewForConfig c).

Definition NetworkingV1_New (c : RESTClient) : NetworkingV1Client := mkNetworkingV1Client c.

Definition NetworkingV1Client_RESTClient (c : option NetworkingV1Client) : option RESTClient := restClient <$> c.

(** The arguments of [gentype.NewClientWithList]: resource, REST client, namespace. *)
Record clusterCIDRs : Type := mkClusterCIDRs { client_resource : string; client_rest : option RESTClient; client_namespace : string }.
Definition newClusterCIDRs (c : option NetworkingV1Client) : clusterCIDRs :=
  mkClusterCIDRs "clustercidrs" (NetworkingV1Client_RESTClient c) EmptyString.

(** * The clientset *)

Record Clientset : Type := mkClientset { cs_DiscoveryClient : DiscoveryClient; cs_networkingV1 : NetworkingV1Client }.

Definition Clientset_NetworkingV1 (c : Clientset) : NetworkingV1Client := cs_networkingV1 c.
Definition Clientset_Discovery (c : option Clientset) : option DiscoveryClient := cs_DiscoveryClient <$> c.

Definition burstError : error :=
  Errorf "burst is required to be greater than 0 when RateLimiter is not set and QPS is set to greater than 0" [].

(** The rate limiter [NewForConfigAndClient] puts in its copy of the config. *)
Definition withLimiter (c : Config) : M RestWorld Config := λ w,
  match cfg_RateLimiter c with
  | None =>
      if 0 <? QPS c then
        if Burst c <=? 0 then (Err burstError, w)
        else let '(r, w) := NewTokenBucketRateLimiter (QPS c) (Burst c) w in (Ok (with_RateLimiter (Some r) c), w)
      else (Ok c, w)
  | Some _ => (Ok c, w)
  end.

Definition NewForConfigAndClient (c : Config) (httpClient : HTTPClient) : M RestWorld Clientset :=
  configShallowCopy ← withLimiter c;
  networkingV1 ← NetworkingV1_NewForConfigAndClient configShallowCopy httpClient;
  discoveryClient ← NewDiscoveryClientForConfigAndClient configShallowCopy httpClient;
  mret (mkClientset discoveryClient networkingV1).

Definition NewForConfig (c : Config) : M RestWorld Clientset :=
  let configShallowCopy := defaultUserAgent c in
  httpClient ← HTTPClientFor configShallowCopy;
  NewForConfigAndClient configShallowCopy httpClient.

Definition NewForConfigOrDie (c : Config) : RestWorld → ((error + panic) + Clientset) * RestWorld := orDie (NewForConfig c).

Definition Clientset_New (c : RESTClient) : Clientset := mkClientset (NewDiscoveryClient c) (NetworkingV1_New c).
End clientset.
