(* ===== verification/FakeClientset.v ===== *)
(** The registration of the API types with runtime schemes (register.go of
    src/pkg/apis/clustercidr/v1 and of the packages [scheme] and [fake] under
    src/pkg/client/clientset/versioned) and the clientset for tests of package [fake].

    apimachinery's schemes are the class [SchemeRuntime], client-go's object tracker
    and reactor chain the class [FakeTesting].  A value made by [&T{}] lives at an
    address, so that the parts of one clientset share its [testing.Fake]. *)
From S2P Require Import Prelude InformerFactory DeepCopy Clientset.

(** * Schemes *)

Record GroupVersionKind : Type := mkGVK { gvk_Group : string; gvk_Version : string; gvk_Kind : string }.
Record GroupKind : Type := mkGK { gk_Group : string; gk_Kind : string }.
Definition WithKind (gv : GroupVersion) (kind : string) : GroupVersionKind := mkGVK (gv_Group gv) (gv_Version gv) kind.
Definition gvk_GroupKind (k : GroupVersionKind) : GroupKind := mkGK (gvk_Group k) (gvk_Kind k).

Definition v1_Kind (kind : string) : GroupKind := gvk_GroupKind (WithKind SchemeGroupVersion kind).

(** The Go types that are registered. *)
Inductive GoType : Type := TypeClusterCIDR | TypeClusterCIDRList.

(** Functions without an error return can still panic. *)
Class SchemeRuntime : Type := {
  Scheme : Type;
  NewScheme : Scheme;
  AddKnownTypes : GroupVersion → list GoType → Scheme → option panic * Scheme;
  AddToGroupVersion : GroupVersion → Scheme → option panic * Scheme;
  SchemeBuilder_AddToScheme : list (M Scheme unit) → M Scheme unit
}.

(** "AddToScheme applies all the stored functions to the scheme. A non-nil error
    indicates that one function failed and the attempt was abandoned." *)
Class SchemeRuntimeLaws (R : SchemeRuntime) : Prop := {
  builder_nil s : SchemeBuilder_AddToScheme [] s = (Ok tt, s);
  builder_cons f fs s : SchemeBuilder_AddToScheme (f :: fs) s = (f ;; SchemeBuilder_AddToScheme fs) s
}.

(** The value of a panic: that of [panic(err)], or a run-time panic. *)
Definition panicValue : Type := error + panic.

(** Running [m] where its caller does [if err != nil { panic(err) }];
    [utilruntime.Must] is such a caller. *)
Definition Must {S A} (m : M S A) (s : S) : (panicValue + A) * S :=
  match m s with
  | (Ok a, s) => (inr a, s)
  | (Err e, s) => (inl (inl e), s)
  | (Panic p, s) => (inl (inr p), s)
  end.

Section schemes.
Context `{HSR : !SchemeRuntime}.

Definition noError (f : Scheme → option panic * Scheme) : M Scheme unit := λ s,
  match f s with
  | (None, s) => (Ok tt, s)
  | (Some p, s) => (Panic p, s)
  end.

Definition addKnownTypes : M Scheme unit :=
  noError (AddKnownTypes SchemeGroupVersion [TypeClusterCIDR; TypeClusterCIDRList]) ;;
  noError (AddToGroupVersion SchemeGroupVersion) ;;
  mret tt.

(** [SchemeBuilder] and [AddToScheme] of package [clustercidr/v1]. *)
Definition v1_SchemeBuilder : list (M Scheme unit) := [addKnownTypes].
Definition v1_AddToScheme : M Scheme unit := SchemeBuilder_AddToScheme v1_SchemeBuilder.

(** The package variables that hold a scheme; codecs keep the pointer, so they
    see what is registered later. *)
Inductive SchemeVar : Type := scheme_Scheme | fake_scheme.
Record CodecFactory : Type := NewCodecFactory { codecs_scheme : SchemeVar }.
Record ParameterCodecOf : Type := NewParameterCodec { parameters_scheme : SchemeVar }.

Definition Schemes : Type := SchemeVar → Scheme.
Definition initialSchemes : Schemes := λ _, NewScheme.

#[export] Instance SchemeVar_eq_dec : EqDecision SchemeVar.
Proof. solve_decision. Defined.

Definition onScheme {A} (v : SchemeVar) (f : Scheme → A * Scheme) (s : Schemes) : A * Schemes :=
  let '(r, x) := f (s v) in (r, λ u, if decide (u = v) then x else s u).

(** Package [scheme]. *)
Definition scheme_Codecs : CodecFactory := NewCodecFactory scheme_Scheme.
Definition scheme_ParameterCodec : ParameterCodecOf := NewParameterCodec scheme_Scheme.
Definition scheme_localSchemeBuilder : list (M Scheme unit) := [v1_AddToScheme].
Definition scheme_AddToScheme : M Scheme unit := SchemeBuilder_AddToScheme scheme_localSchemeBuilder.
Definition scheme_init : Schemes → (panicValue + unit) * Schemes :=
  onScheme scheme_Scheme (Must (noError (AddToGroupVersion (mkGV EmptyString "v1")) ;; scheme_AddToScheme)).

(** Package [fake]. *)
Definition fake_codecs : CodecFactory := NewCodecFactory fake_scheme.
Definition fake_localSchemeBuilder : list (M Scheme unit) := [v1_AddToScheme].
Definition fake_AddToScheme : M Scheme unit := SchemeBuilder_AddToScheme fake_localSchemeBuilder.
Definition fake_init : Schemes → (panicValue + unit) * Schemes :=
  onScheme fake_scheme (Must (noError (AddToGroupVersion (mkGV EmptyString "v1")) ;; fake_AddToScheme)).
End schemes.

(** * The clientset for tests *)

Class FakeTesting : Type := {
  TestingWorld : Type;
  ObjectTracker : Type;
  Fake : Type;
  RuntimeObject : Type;
  Action : Type;
  WatchInterface : Type;
  WatchListOptions : Type;
  ReactionFunc : Type;
  zeroListOptions : WatchListOptions;
  NewObjectTracker : SchemeVar → CodecFactory → TestingWorld → ObjectTracker * TestingWorld;
  Tracker_Add : ObjectTracker → RuntimeObject → TestingWorld → option error * TestingWorld;
  Tracker_Watch : ObjectTracker → GroupVersionResource → string → WatchListOptions → TestingWorld →
    (error + WatchInterface) * TestingWorld;
  ObjectReaction : ObjectTracker → ReactionFunc;
  Action_GetResource : Action → GroupVersionResource;
  Action_GetNamespace : Action → string;
  WatchActionImpl_ListOptions : Action → option WatchListOptions;
  zeroFake : Fake;
  AddReactor : string → string → ReactionFunc → Fake → Fake;
  AddWatchReactor : string → (Action → TestingWorld → (bool * option WatchInterface * option error) * TestingWorld) → Fake → Fake;
  (** [gentype.ToPointerSlice], [gentype.FromPointerSlice] *)
  ToPointerSlice : slice → M Memory (list addr);
  FromPointerSlice : list addr → M Memory slice
}.

Section fake.
Context `{HFT : !FakeTesting}.

(** The objects at their addresses, and the state of client-go's trackers. *)
Record FakeState : Type := mkFakeState {
  fs_world : TestingWorld;
  fs_fakes : gmap addr Fake;
  fs_next : addr
}.

Definition with_fs_world (w : TestingWorld) (s : FakeState) : FakeState := mkFakeState w (fs_fakes s) (fs_next s).
Definition with_fs_fakes (g : gmap addr Fake → gmap addr Fake) (s : FakeState) : FakeState := mkFakeState (fs_world s) (g (fs_fakes s)) (fs_next s).

(** [Clientset] by the addresses of its parts; a [FakeDiscovery] is its [Fake]. *)
Record FakeClientset : Type := mkFakeClientset {
  fcs_Fake : addr;
  fcs_discovery : option addr;
  fcs_tracker : ObjectTracker
}.

Definition fcs_Discovery (c : FakeClientset) : option addr := fcs_discovery c.
Definition fcs_Tracker (c : FakeClientset) : ObjectTracker := fcs_tracker c.
Definition IsWatchListSemanticsUnSupported (c : FakeClientset) : bool := true.

Definition onWorld {A} (f : TestingWorld → A * TestingWorld) : M FakeState A := λ s,
  let '(a, w) := f (fs_world s) in (Ok a, with_fs_world w s).

(** The loop over the objects. *)
Fixpoint addObjects (o : ObjectTracker) (objects : list RuntimeObject) : M FakeState unit :=
  match objects with
  | [] => mret tt
  | obj :: objects =>
      err ← onWorld (Tracker_Add o obj);
      match err with
      | Some err => fail err
      | None => addObjects o objects
      end
  end.

(** The function given to [AddWatchReactor]. *)
Definition watchReaction (o : ObjectTracker) (action : Action) (w : TestingWorld)
    : (bool * option WatchInterface * option error) * TestingWorld :=
  let opts := default zeroListOptions (WatchActionImpl_ListOptions action) in
  match Tracker_Watch o (Action_GetResource action) (Action_GetNamespace action) opts w with
  | (inl err, w) => ((false, None, Some err), w)
  | (inr watch, w) => ((true, Some watch, None), w)
  end.

(** [&Clientset{tracker: o}] and its embedded [Fake]. *)
Definition newFake : M FakeState addr := λ s,
  (Ok (fs_next s), mkFakeState (fs_world s) (<[fs_next s := zeroFake]> (fs_fakes s)) (Pos.succ (fs_next s))).

Definition NewSimpleClientset (objects : list RuntimeObject) : FakeState → (panicValue + FakeClientset) * FakeState :=
  Must
    (o ← onWorld (NewObjectTracker fake_scheme fake_codecs);
     addObjects o objects ;;
     p ← newFake;
     let cs := mkFakeClientset p None o in
     let cs := mkFakeClientset (fcs_Fake cs) (Some (fcs_Fake cs)) (fcs_tracker cs) in
     modify (with_fs_fakes (alter (AddReactor "*" "*" (ObjectReaction o)) (fcs_Fake cs))) ;;
     modify (with_fs_fakes (alter (AddWatchReactor "*" (watchReaction o)) (fcs_Fake cs))) ;;
     mret cs).

(** Package [clustercidr/v1/fake]. *)
Record FakeNetworkingV1 : Type := mkFakeNetworkingV1 { fnv_Fake : addr }.

Definition fcs_NetworkingV1 (c : FakeClientset) : FakeNetworkingV1 := mkFakeNetworkingV1 (fcs_Fake c).

(** An interface value that holds a nil pointer: it is not nil itself. *)
Definition fnv_RESTClient {RESTClient} (c : FakeNetworkingV1) : option (option RESTClient) :=
  let ret : option RESTClient := None in Some ret.

Definition with_list_ListMeta (m : goListMeta) (l : goClusterCIDRList) : goClusterCIDRList := mkGoList (list_TypeMeta l) m (list_Items l).
Definition with_list_Items (x : slice) (l : goClusterCIDRList) : goClusterCIDRList := mkGoList (list_TypeMeta l) (list_ListMeta l) x.

(** The arguments of [gentype.NewFakeClientWithList]. *)
Record fakeClusterCIDRs : Type := mkFakeClusterCIDRs {
  fcc_Fake : addr;
  fcc_namespace : string;
  fcc_resource : GroupVersionResource;
  fcc_kind : GroupVersionKind;
  fcc_newObject : goClusterCIDR;
  fcc_newList : goClusterCIDRList;
  fcc_copyListMeta : goClusterCIDRList → goClusterCIDRList → goClusterCIDRList;
  fcc_getItems : goClusterCIDRList → M Memory (list addr);
  fcc_setItems : goClusterCIDRList → list addr → M Memory goClusterCIDRList;
  fcc_client : FakeNetworkingV1
}.

Definition newFakeClusterCIDRs (fake : FakeNetworkingV1) : fakeClusterCIDRs :=
  mkFakeClusterCIDRs (fnv_Fake fake) EmptyString
    (WithResource SchemeGroupVersion "clustercidrs")
    (WithKind SchemeGroupVersion "ClusterCIDR")
    zeroClusterCIDR
    zeroList
    (λ dst src, with_list_ListMeta (list_ListMeta src) dst)
    (λ list, ToPointerSlice (list_Items list))
    (λ list items, x ← FromPointerSlice items; mret (with_list_Items x list))
    fake.

Definition fnv_ClusterCIDRs (c : FakeNetworkingV1) : fakeClusterCIDRs := newFakeClusterCIDRs c.
End fake.

(** * Theorems *)

Section registration.
Context `{HSR : !SchemeRuntime} (HSL : SchemeRuntimeLaws HSR).

Lemma onScheme_run {A} v (f : Scheme → A * Scheme) (s : Schemes) r x : f (s v) = (r, x) →
  ∃ s', onScheme v f s = (r, s') ∧ s' v = x ∧ ∀ u, u ≠ v → s' u = s u.
Proof using.
  intros E. unfold onScheme. rewrite E. eexists. split; [done|]. split; [by rewrite decide_True|]. intros u Hu. by rewrite decide_False.
Qed.

(** What an [init] does to its scheme, call by call. *)
Definition registration : Scheme → (panicValue + unit) * Scheme :=
  Must (noError (AddToGroupVersion (mkGV EmptyString "v1")) ;;
        noError (AddKnownTypes SchemeGroupVersion [TypeClusterCIDR; TypeClusterCIDRList]) ;;
        noError (AddToGroupVersion SchemeGroupVersion)).

Lemma bind_ret {S} (m : M S unit) s : (m ;; mret tt) s = m s.
Proof. unfold mbind, M_bind, mret, M_ret. by destruct (m s) as [[[]| |] ?]. Qed.

Lemma builder_one f s : SchemeBuilder_AddToScheme [f] s = f s.
Proof using HSL.
  rewrite builder_cons. unfold mbind, M_bind. destruct (f s) as [[[]| |] s1]; [|done..]. by rewrite builder_nil.
Qed.

Lemma addKnownTypes_run s : addKnownTypes s =
  (noError (AddKnownTypes SchemeGroupVersion [TypeClusterCIDR; TypeClusterCIDRList]) ;; noError (AddToGroupVersion SchemeGroupVersion)) s.
Proof using. unfold addKnownTypes. unfold mbind at 1 3, M_bind. destruct (noError _ s) as [[[]| |] s1]; [|done..]. apply bind_ret. Qed.

Lemma AddToScheme_run s : SchemeBuilder_AddToScheme [v1_AddToScheme] s = addKnownTypes s.
Proof using HSL. rewrite builder_one. unfold v1_AddToScheme, v1_SchemeBuilder. apply builder_one. Qed.

Lemma init_run s : Must (noError (AddToGroupVersion (mkGV EmptyString "v1")) ;; SchemeBuilder_AddToScheme [v1_AddToScheme]) s = registration s.
Proof using HSL.
  unfold registration, Must. unfold mbind at 1 2, M_bind. destruct (noError _ s) as [[[]| |] s1]; [|done..].
  by rewrite AddToScheme_run, addKnownTypes_run.
Qed.
End registration.

(** Both packages register the two types of the API group, in the same way, each in
    its own scheme: the fake clientset decodes what the real one does. *)
Theorem schemes_register_alike `{HSR : !SchemeRuntime} (HSL : SchemeRuntimeLaws HSR) :
  let s1 := (scheme_init initialSchemes).2 in
  let s2 := (fake_init s1).2 in
  (scheme_init initialSchemes).1 = (registration NewScheme).1 ∧ (fake_init s1).1 = (registration NewScheme).1 ∧
  s2 scheme_Scheme = (registration NewScheme).2 ∧ s2 fake_scheme = (registration NewScheme).2.
Proof.
  destruct (registration NewScheme) as [r x] eqn:E.
  destruct (onScheme_run scheme_Scheme (Must (noError (AddToGroupVersion (mkGV EmptyString "v1")) ;; scheme_AddToScheme)) initialSchemes r x)
    as (s1 & E1 & H1 & N1); [by rewrite <- E; apply (init_run HSL)|].
  destruct (onScheme_run fake_scheme (Must (noError (AddToGroupVersion (mkGV EmptyString "v1")) ;; fake_AddToScheme)) s1 r x)
    as (s2 & E2 & H2 & N2); [rewrite N1 by done; rewrite <- E; apply (init_run HSL)|].
  cbn zeta. unfold scheme_init, fake_init. rewrite E1. cbn [fst snd]. rewrite E2. cbn [fst snd]. by rewrite (N2 scheme_Scheme).
Qed.

Section clientset.
Context `{HFT : !FakeTesting}.

(** Adding objects one by one, up to the first that is refused. *)
Fixpoint tracked (o : ObjectTracker) (objects : list RuntimeObject) (w : TestingWorld) : option error * TestingWorld :=
  match objects with
  | [] => (None, w)
  | obj :: objects =>
      match Tracker_Add o obj w with
      | (Some err, w) => (Some err, w)
      | (None, w) => tracked o objects w
      end
  end.

Lemma addObjects_run o objects s : addObjects o objects s =
  match tracked o objects (fs_world s) with
  | (None, w) => (Ok tt, with_fs_world w s)
  | (Some e, w) => (Err e, with_fs_world w s)
  end.
Proof using.
  revert s. induction objects as [|obj l IH]; intros s; [by destruct s|]. cbn [addObjects tracked]. unfold onWorld at 1, mbind at 1, M_bind.
  destruct (Tracker_Add o obj (fs_world s)) as [[e|] w]; [done|]. by rewrite IH.
Qed.
End clientset.

(** [NewSimpleClientset] gives the tracker the objects in order.  It panics with the
    error of the first one the tracker refuses; else the new clientset, its discovery
    client and its ClusterCIDR client share one new [Fake] that sends every action to
    the tracker, and the clientsets made before are as they were. *)
Theorem NewSimpleClientset_functional `{HFT : !FakeTesting} (objects : list RuntimeObject) (s : FakeState) :
  let '(o, w0) := NewObjectTracker fake_scheme fake_codecs (fs_world s) in
  match tracked o objects w0 with
  | (Some e, w) => NewSimpleClientset objects s = (inl (inl e), with_fs_world w s)
  | (None, w) =>
      ∃ cs s', NewSimpleClientset objects s = (inr cs, s') ∧ fs_world s' = w ∧ fcs_Tracker cs = o
        ∧ fs_fakes s' = <[fcs_Fake cs := AddWatchReactor "*" (watchReaction o) (AddReactor "*" "*" (ObjectReaction o) zeroFake)]> (fs_fakes s)
        ∧ fcs_Discovery cs = Some (fcs_Fake cs) ∧ fcc_Fake (fnv_ClusterCIDRs (fcs_NetworkingV1 cs)) = fcs_Fake cs
        ∧ fcs_Fake cs = fs_next s
  end.
Proof.
  destruct (NewObjectTracker fake_scheme fake_codecs (fs_world s)) as [o w0] eqn:Eo.
  assert (onWorld (NewObjectTracker fake_scheme fake_codecs) s = (Ok o, with_fs_world w0 s)) as Ew by (unfold onWorld; by rewrite Eo).
  pose proof (addObjects_run o objects (with_fs_world w0 s)) as Ea. cbn [fs_world with_fs_world] in Ea.
  unfold NewSimpleClientset, Must. rewrite (M_bind_Ok _ _ _ _ _ Ew). cbn beta.
  destruct (tracked o objects w0) as [[e|] w].
  - by rewrite (M_bind_Err _ _ _ _ _ Ea).
  - rewrite (M_bind_Ok _ _ _ _ _ Ea). eexists _, _. split; [reflexivity|]. cbn. split_and!; [done..| |done|done|done].
    by rewrite !alter_insert_eq.
Qed.
