(* ===== verification/Process.v ===== *)
(** The process: src/main.go, pkg/leaderelection, pkg/signals, pkg/util/server.

    A function of this file returns, exits the process with a code, or panics
    ([outcome]); [P] is the monad of such functions over the state of the process.
    [main] runs up to the call that blocks, the leader election or [Run]; what
    happens then is a run over the events of the election and the signals, or
    [runControllers], which ends in the relation [Run].  Flags, environment,
    kubeconfig, the Kubernetes clients and the lock are the class [Platform]. *)
From stdpp Require Import relations.
From S2P Require Import Prelude GoNet CIDRTheory CIDRText NetUtils MultiCIDRSet ContainerHeap PriorityQueue Kubernetes Allocator NodeHandlers ClusterCIDRHandlers EventHandlers.
From S2P Require Import AllocatorInv AllocatorKeeps Controller Workers InformerFactory Clientset.

(** * Outcomes *)

Inductive outcome (A : Type) : Type :=
| Done (a : A)
| Exited (code : Z)
| Crashed.
Arguments Done {A} _.
Arguments Exited {A} _.
Arguments Crashed {A}.

Definition P (S A : Type) : Type := S → outcome A * S.

Section P.
Context {S : Type}.
#[export] Instance P_ret : MRet (P S) := λ A a s, (Done a, s).
#[export] Instance P_bind : MBind (P S) := λ A B f m s,
  match m s with
  | (Done a, s') => f a s'
  | (Exited c, s') => (Exited c, s')
  | (Crashed, s') => (Crashed, s')
  end.
Definition os_Exit {A} (code : Z) : P S A := λ s, (Exited code, s).

Definition p_modify (f : S → S) : P S unit := λ s, (Done tt, f s).

(** [x, err := f(); if err != nil { log; FlushAndExit(..., code) }] *)
Definition orExit {E A} (code : Z) (r : E + A) : P S A :=
  match r with inl _ => os_Exit code | inr a => mret a end.

(** A method on a part of the state, whose error ends the process with [code]. *)
Definition runM {T A} (code : Z) (gets : S → T) (sets : T → S → S) (m : M T A) : P S A := λ s,
  match m (gets s) with
  | (Ok a, t) => (Done a, sets t s)
  | (Err _, t) => (Exited code, sets t s)
  | (Panic _, t) => (Crashed, sets t s)
  end.
End P.

(** klog.Fatalf exits with 255. *)
Definition fatalCode : Z := 255.

(** * The configuration *)

(** Durations in nanoseconds. *)
Record LeaderElectionConfig : Type := mkLEConfig {
  EnableLeaderElection : bool;
  LeaderElectionID : string;
  LeaderElectionNamespace : string;
  LeaseDuration : Z;
  RenewDeadline : Z;
  RetryPeriod : Z;
  ResourceLock : string;
  ResourceName : string
}.
Record config : Type := mkConfiguration {
  ApiServerURL : string;
  Kubeconfig : string;
  HealthProbeAddr : string;
  WebserverBindAddr : string;
  LeaderElectionCfg : LeaderElectionConfig
}.

(** The config [main] starts from: leader election on, all else zero. *)
Definition initialConfig : config := mkConfiguration "" "" "" "" (mkLEConfig true "" "" 0 0 0 "" "").

Definition bindingAddress (cfg : config) : string :=
  if negb (String.eqb (HealthProbeAddr cfg) EmptyString) then HealthProbeAddr cfg else WebserverBindAddr cfg.

(** An error of the flags package, with its type, or any other one. *)
Inductive flagsErr : Type :=
| flags_Error (isErrHelp : bool)
| otherErr (msg : string).

(** * Signals *)

Inductive Signal : Type := SIGINT | SIGTERM | OtherSignal.
(** [shutdownSignals] of signal_posix.go. *)
Definition shutdownSignals : list Signal := [SIGINT; SIGTERM].
#[export] Instance Signal_eq_dec : EqDecision Signal.
Proof. solve_decision. Defined.

(** * The probe server *)

Inductive Handler : Type := healthHandler | metricsHandler.
(** The routes of [StartWebServer]. *)
Definition webRoutes : list (string * Handler) := [("/readyz", healthHandler); ("/healthz", healthHandler); ("/metrics", metricsHandler)].
Definition StatusOK : Z := 200.
(** [makeHealthHandler]: the status it writes. *)
Definition makeHealthHandler : Z := StatusOK.

Record Server : Type := mkServer {
  Addr : string;
  Routes : list (string * Handler);
  ReadTimeout : Z;
  WriteTimeout : Z;
  IdleTimeout : Z
}.
(** In nanoseconds. *)
Definition serverTimeout : Z := 5 * 10 ^ 9.
Definition newServer (addr : string) : Server := mkServer addr webRoutes serverTimeout serverTimeout serverTimeout.

(** The goroutine of [StartWebServer]: [server.ListenAndServe] is called again
    whenever it returns, until the context is done, and the server is shut down.  An
    error is reported unless it is nil or [ErrServerClosed]. *)
Inductive ServeResult : Type := ServeNil | ErrServerClosed | ServeError (msg : string).
Inductive ServeReport : Type := StartingFailed (msg : string) | StoppingFailed (msg : string).
Definition serve (results : list ServeResult) (shutdown : option string) : list ServeReport :=
  omap (λ r, match r with ServeError msg => Some (StartingFailed msg) | _ => None end) results
  ++ match shutdown with Some msg => [StoppingFailed msg] | None => [] end.

(** * The metrics of multicidrset/metrics.go

    A package variable each, registered by [init]; the registry is a parameter. *)
Inductive MetricType : Type := CounterVec | GaugeVec | HistogramVec (start factor count : Z).
Record MetricDesc : Type := mkDesc { Subsystem : string; MetricName : string; Help : string; MetricKind : MetricType; LabelNames : list string }.
Definition nodeIpamSubsystem : string := "node_ipam_controller".
Definition metricDesc (name help : string) (k : MetricType) : MetricDesc :=
  mkDesc nodeIpamSubsystem name help k ["clusterCIDR"; "clusterCIDRName"].
Definition cidrSetAllocations : MetricDesc :=
  metricDesc "multicidrset_cidrs_allocations_total" "Counter measuring total number of CIDR allocations." CounterVec.
Definition cidrSetReleases : MetricDesc :=
  metricDesc "multicidrset_cidrs_releases_total" "Counter measuring total number of CIDR releases." CounterVec.
Definition cidrSetMaxCidrs : MetricDesc :=
  metricDesc "multicidrset_max_cidrs" "Maximum number of CIDRs that can be allocated." GaugeVec.
Definition cidrSetUsage : MetricDesc :=
  metricDesc "multicidrset_usage_cidrs" "Gauge measuring percentage of allocated CIDRs." GaugeVec.
Definition cidrSetAllocationTriesPerRequest : MetricDesc :=
  metricDesc "multicidrset_allocation_tries_per_request" "Histogram measuring CIDR allocation tries per request." (HistogramVec 1 5 5).
Definition metrics_init {R} (MustRegister : MetricDesc → M R unit) : M R unit :=
  forM_ [cidrSetAllocations; cidrSetReleases; cidrSetMaxCidrs; cidrSetUsage; cidrSetAllocationTriesPerRequest] MustRegister.

Section process.
Context `{HN : !NetUtils} `{HLb : !Labels} `{HC : !Cluster} `{HI : !MapIter} `{HF : !Informers} `{HR : !Runtime}.
Context `{HCa : !Cache} `{HRe : !Rest} `{HRF : !RestFunctions}.

Class Platform : Type := {
  os_Args : list string;
  os_Getenv : string → string;
  GetHostname : string → error + string;
  (* The config it fills in is returned with the error. *)
  flags_ParseArgs : config → list string → option flagsErr * config;
  logsapi_ValidateAndApply : option error;
  BuildConfigFromFlags : string → string → error + Config;
  KubeClient : Type;
  kubernetes_NewForConfig : Config → error + KubeClient;
  Nodes_List : KubeClient → World → (error + list Node) * World;
  ResourceLockInterface : Type;
  resourcelock_New : string → string → string → KubeClient → string → error + ResourceLockInterface;
  (* The clientset as the client of an informer factory. *)
  as_Interface : Clientset → Interface;
  ctx_Done : StopCh;
  (* The order in which the factory ranges over its informers. *)
  range_informers : gmap reflect_Type SharedIndexInformer → list (reflect_Type * SharedIndexInformer)
}.
Context `{HPl : !Platform}.

(** What the process did outside of itself, in order. *)
Inductive Action : Type :=
| StartedWebServer (server : Server)
| RunOrDie (id : string) (lock : ResourceLockInterface) (cfg : LeaderElectionConfig)
| StartedKubeInformers
| StartedSharedInformers.

(** [signalHandler]: [onlyOneSignalHandler] is closed; [signalsRead]: the signals
    its goroutine has received; [cancelled]: the context of [main]. *)
Record ProcessState : Type := mkPS {
  actions : list Action;
  signalHandler : bool;
  signalsRead : nat;
  cancelled : bool;
  restWorld : RestWorld;
  factoryState : option FactoryState;
  allocState : AllocState
}.
Definition act (a : Action) : P ProcessState unit := p_modify (λ s,
  mkPS (actions s ++ [a]) (signalHandler s) (signalsRead s) (cancelled s) (restWorld s) (factoryState s) (allocState s)).
Definition with_signalHandler (s : ProcessState) : ProcessState :=
  mkPS (actions s) true (signalsRead s) (cancelled s) (restWorld s) (factoryState s) (allocState s).
Definition with_signalsRead (n : nat) (s : ProcessState) : ProcessState :=
  mkPS (actions s) (signalHandler s) n (cancelled s) (restWorld s) (factoryState s) (allocState s).
Definition cancel (s : ProcessState) : ProcessState :=
  mkPS (actions s) (signalHandler s) (signalsRead s) true (restWorld s) (factoryState s) (allocState s).
Definition with_restWorld (w : RestWorld) (s : ProcessState) : ProcessState :=
  mkPS (actions s) (signalHandler s) (signalsRead s) (cancelled s) w (factoryState s) (allocState s).
Definition with_factoryState (f : option FactoryState) (s : ProcessState) : ProcessState :=
  mkPS (actions s) (signalHandler s) (signalsRead s) (cancelled s) (restWorld s) f (allocState s).
Definition with_allocState (a : AllocState) (s : ProcessState) : ProcessState :=
  mkPS (actions s) (signalHandler s) (signalsRead s) (cancelled s) (restWorld s) (factoryState s) a.

Definition load : option flagsErr * config := flags_ParseArgs initialConfig os_Args.

(** [close] of a closed channel panics. *)
Definition SetupSignalHandler : P ProcessState unit := λ s,
  if signalHandler s then (Crashed, s) else (Done tt, with_signalHandler s).

Definition StartWebServer (addr : string) : P ProcessState unit := act (StartedWebServer (newServer addr)).

(** * Leader election *)

Definition lockID (leaderElectionID : string) : P ProcessState string :=
  if Nat.ltb 0 (String.length leaderElectionID) then mret leaderElectionID
  else orExit fatalCode (GetHostname (os_Getenv "POD_NAME")).

Definition lockNamespace (leaderElectionNamespace : string) : P ProcessState string :=
  if Nat.ltb 0 (String.length leaderElectionNamespace) then mret leaderElectionNamespace
  else
    let ns := os_Getenv "POD_NAMESPACE" in
    if String.eqb ns EmptyString then os_Exit fatalCode else mret ns.

(** Up to the call of [RunOrDie], which blocks. *)
Definition StartLeaderElection (kubeClient : KubeClient) (cfg : LeaderElectionConfig) : P ProcessState unit :=
  id ← lockID (LeaderElectionID cfg);
  namespace ← lockNamespace (LeaderElectionNamespace cfg);
  rl ← orExit fatalCode (resourcelock_New (ResourceLock cfg) namespace (ResourceName cfg) kubeClient id);
  act (RunOrDie id rl cfg).

(** * The controllers *)

Definition resyncSeconds : Z := 30.
Definition defaultResyncPeriod : Z := resyncSeconds * 10 ^ 9.
Definition emptyParams : CIDRAllocatorParams := mkParams [] None None [].

(** A method of the informer factory; nil before it is made. *)
Definition onFactory {A} (m : M FactoryState A) : P ProcessState A := λ s,
  match factoryState s with
  | None => (Crashed, s)
  | Some f =>
      match m f with
      | (Ok a, f) => (Done a, with_factoryState (Some f) s)
      | (Err _, f) => (Exited 1, with_factoryState (Some f) s)
      | (Panic _, f) => (Crashed, with_factoryState (Some f) s)
      end
  end.

(** [runControllers] up to [nodeIpamController.Run].  The constructor of the
    allocator asks for the informer of ClusterCIDRs before anything else. *)
Definition startControllers (kubeClient : KubeClient) (cfg : Config) (initCache : CacheWorld) : P ProcessState unit :=
  cidrClient ← runM 1 restWorld with_restWorld (NewForConfig cfg);
  p_modify (with_factoryState (Some (newFactoryState (as_Interface cidrClient) defaultResyncPeriod [] initCache))) ;;
  nodes ← runM 1 allocState with_allocState (λ st,
    let '(r, w) := Nodes_List kubeClient (world st) in
    (match r with inl e => Err e | inr l => Ok l end, with_world w st));
  onFactory (st ← get; ClusterCIDRInformer_Lister (ClusterCIDRs (V1 (Networking (factory st))))) ;;
  runM 1 allocState with_allocState (NewMultiCIDRRangeAllocator emptyParams (Some nodes)) ;;
  act StartedKubeInformers ;;
  onFactory (st ← get; Start (range_informers (informers (factory st))) ctx_Done) ;;
  act StartedSharedInformers.

(** [runControllers]: the controllers are started and [Run] returns. *)
Inductive runControllers (Wok : World → Prop) (kubeClient : KubeClient) (cfg : Config) (initCache : CacheWorld) (s : ProcessState) : ProcessState → Prop :=
| runControllers_returns s1 workers st : startControllers kubeClient cfg initCache s = (Done tt, s1) →
    Run Wok (allocState s1) workers st →
    runControllers Wok kubeClient cfg initCache s (with_allocState st s1).

(** * main *)

(** What [main] blocks on. *)
Inductive Blocked : Type :=
| OnElection (kubeClient : KubeClient) (cfg : Config)
| OnControllers (kubeClient : KubeClient) (cfg : Config).

Definition main : P ProcessState Blocked :=
  let '(err, nodeIpamCfg) := load in
  match err with
  | Some (flags_Error isErrHelp) => os_Exit (if isErrHelp : bool then 0 else 1)
  | Some (otherErr _) => os_Exit 1
  | None =>
      match logsapi_ValidateAndApply with
      | Some _ => os_Exit 1
      | None =>
          SetupSignalHandler ;;
          StartWebServer (bindingAddress nodeIpamCfg) ;;
          kubeClientCfg ← orExit 1 (BuildConfigFromFlags (ApiServerURL nodeIpamCfg) (Kubeconfig nodeIpamCfg));
          kubeClient ← orExit 1 (kubernetes_NewForConfig kubeClientCfg);
          if EnableLeaderElection (LeaderElectionCfg nodeIpamCfg) then
            StartLeaderElection kubeClient (LeaderElectionCfg nodeIpamCfg) ;;
            mret (OnElection kubeClient kubeClientCfg)
          else mret (OnControllers kubeClient kubeClientCfg)
      end
  end.

(** * The running process *)

(** The goroutine of [SetupSignalHandler]: the first signal cancels the context, the
    second one exits.  Signals that are not registered do not reach it. *)
Definition onSignal (sig : Signal) : P ProcessState unit := λ s,
  if decide (sig ∈ shutdownSignals) then
    match signalsRead s with
    | O => (Done tt, cancel (with_signalsRead 1 s))
    | _ => (Exited 1, s)
    end
  else (Done tt, s).

(** What [RunOrDie] tells [main]. *)
Inductive ElectionEvent : Type :=
| OnStartedLeading
| OnStoppedLeading
| OnNewLeader (identity : string).

(** The callbacks [StartLeaderElection] registers; new leaders are only logged. *)
Definition onElection (kubeClient : KubeClient) (cfg : Config) (initCache : CacheWorld) (e : ElectionEvent) : P ProcessState unit :=
  match e with
  | OnStartedLeading => startControllers kubeClient cfg initCache
  | OnStoppedLeading => p_modify cancel
  | OnNewLeader _ => mret tt
  end.

Inductive ProcessEvent : Type := Elected (e : ElectionEvent) | Signalled (sig : Signal).

(** A run of the process blocked in the election, over the events it sees. *)
Fixpoint runElection (kubeClient : KubeClient) (cfg : Config) (initCache : CacheWorld) (l : list ProcessEvent) : P ProcessState unit :=
  match l with
  | [] => mret tt
  | Elected e :: l => onElection kubeClient cfg initCache e ;; runElection kubeClient cfg initCache l
  | Signalled sig :: l => onSignal sig ;; runElection kubeClient cfg initCache l
  end.
End process.
