(* ===== verification/WorkerTheorems.v ===== *)
(** The theorems about the workers: they serve their queue in order and end when it
    is shut down. *)
From S2P Require Import Prelude GoNet CIDRTheory CIDRText NetUtils MultiCIDRSet IndexTheory IndexProps SetProps SetConstruction.
From S2P Require Import ContainerHeap PriorityQueue Kubernetes Allocator NodeHandlers ClusterCIDRHandlers EventHandlers Stable AllocatorInv AllocateProps MatchProps NodeProps Reference AllocatorKeeps Controller Workers WorkerProps HandlerProps MapInv Examples AllocatorTheorems.

(** * The reference queue

    It hands out its keys in order and never takes any: it is shut down. *)
#[export] Instance refRuntime : Runtime := Build_Runtime refCluster (λ _ w, w) (λ _ _, true) (λ w, (true, w)) (λ w, w) (λ w, w).

Lemma refCallAPI_keys c w : w_keys (refCallAPI c w).2 = w_keys w.
Proof. unfold refCallAPI. by destruct (w_results w). Qed.

(** No call changes the keys. *)
Lemma refCalls (R : list string → list string → Prop) : PreOrder R →
  calls_respect (HC:=refCluster) (λ w w', R (w_keys w) (w_keys w')).
Proof.
  intros [Hr Ht]. split; [split; [intros w; apply Hr|intros w1 w2 w3; apply Ht]|..]; intros;
    try change (PatchNodeCIDRs ?n ?l) with (refCallAPI (CallPatch n l));
    cbn -[refCallAPI]; rewrite ?refCallAPI_keys; apply Hr.
Qed.

Lemma refFifo q : fifo (HC:=refCluster) q w_keys.
Proof.
  split; [|apply (refCalls prefix), _]. intros w key keys E. simpl. rewrite E. by eexists.
Qed.

Lemma refDrains q : drains (HC:=refCluster) q (λ w, length (w_keys w)).
Proof.
  split.
  - intros w key w' _ E. simpl in E. split; [done|]. destruct (w_keys w); [done|]. injection E as <- <-. simpl. lia.
  - pose proof (refCalls (λ l l', length l' ≤ length l)%nat) as H. destruct H as [[Hr Ht] H1 H2 H3 H4 H5 H6].
    { split; [intros l; done|intros l1 l2 l3; lia]. }
    split; [split; [by intros w|intros w1 w2 w3 H12 H23 Hs; split; [done|]; destruct (H12 Hs), (H23 Hs); lia]|..]; intros; (split; [done|]);
      [apply H1|apply H2|apply H3|apply H4|apply H5|apply H6].
Qed.

Lemma refShuts : shuts_down.
Proof. by split. Qed.

(** Two nodes are waiting. *)
Definition ex_waiting : AllocState := with_world (mkWorld (w_nodes ex_world) (w_ccs ex_world) ["n1"; "n2"] [] []) ex_st.
Definition ex_served : AllocState := (processNextNodeWorkItem ex_waiting).2.

Lemma ex_round : processNextWorkItem nodeQueue (sync_of nodeQueue) ex_waiting = (Ok true, ex_served).
Proof.
  unfold ex_served, processNextNodeWorkItem. rewrite (surjective_pairing (processNextWorkItem nodeQueue (sync_of nodeQueue) ex_waiting)).
  assert ((processNextWorkItem nodeQueue (sync_of nodeQueue) ex_waiting).1 = Ok true) as -> by (vm_compute; reflexivity).
  reflexivity.
Qed.

(** C11. Liveness: an item in a work queue is served.  Let the queue hand out its
    items in order.  However worker rounds of the queue alternate with anything that
    takes no item off it (rounds of the other queue, callbacks, other clients), and
    whatever the handlers do, with their errors and retries: as long as fewer than
    [i + 1] rounds have been made a worker that takes its turn gets an item and goes
    on afterwards, unless its handler panics; and the [i + 1]-st round syncs the item
    that was at place [i], which is then done, and queued again if the sync failed. *)
Theorem key_eventually_served `{HN : !NetUtils} `{HLb : !Labels} `{HC : !Cluster} `{HI : !MapIter}
  q (queued : World → list string) (HF : fifo q queued) (st st' : AllocState) i key keys
  (Hkey : queued (world st) !! i = Some key) (Hrun : served q queued keys st st') :
  if decide (length keys ≤ i)%nat then
    (∃ key' w, queue_Get q (world st') = (Some key', w))
    ∧ ∃ r st'', processNextWorkItem q (sync_of q) st' = (r, st'') ∧ (r = Ok true ∨ ∃ p, r = Panic p)
  else ∃ s1 w s2, served q queued (take i keys) st s1 ∧ queue_Get q (world s1) = (Some key, w)
    ∧ synced q key (with_world w s1) s2 ∧ served q queued (drop (S i) keys) s2 st'.
Proof.
  pose proof (served_order q queued keys st st' (queued (world st)) HF Hrun ltac:(done)) as H.
  pose proof (lookup_lt_Some _ _ _ Hkey) as Hi. destruct (decide (length keys ≤ i)%nat) as [Hlen|Hlen].
  - rewrite decide_True in H by lia. destruct H as [_ [tail Ht]].
    destruct (drop (length keys) (queued (world st))) as [|k l] eqn:Hd.
    { apply (f_equal length) in Hd. rewrite length_drop in Hd. simpl in Hd. lia. }
    destruct (ff_get _ _ HF _ _ _ Ht) as (w & Hg & _). split; [by eexists _, _|].
    pose proof (round_respects _ q st' w k (ff_calls _ _ HF) Hg) as Hr. destruct (processNextWorkItem _ _ _) as [r st''].
    exists r, st''. by destruct Hr.
  - assert (keys !! i = Some key) as Hk.
    { destruct (decide _) as [Hlen'|Hlen'] in H; [|by eapply prefix_lookup_Some].
      destruct H as [-> _]. by rewrite lookup_take_lt by lia. }
    destruct (served_split _ _ _ _ _ _ _ Hrun Hk) as (s1 & w & s2 & H1 & H2 & H3 & H4).
    exists s1, w, s2. split_and!; [done|done|by eapply round_syncs|done].
Qed.

Lemma ex_served_run : served (HC:=refCluster) nodeQueue w_keys ["n1"] ex_waiting ex_served.
Proof. eapply served_round; [reflexivity|exact ex_round|apply served_nil]. Qed.

Lemma key_eventually_served_witness :
  fifo (HC:=refCluster) nodeQueue w_keys ∧ w_keys (world ex_waiting) !! 1%nat = Some "n2"
  ∧ served (HC:=refCluster) nodeQueue w_keys ["n1"] ex_waiting ex_served
  ∧ (∃ key' w, queue_Get nodeQueue (world ex_served) = (Some key', w))
  ∧ ∃ r st'', processNextWorkItem nodeQueue (sync_of nodeQueue) ex_served = (r, st'') ∧ (r = Ok true ∨ ∃ p, r = Panic p).
Proof.
  split; [apply refFifo|]. split; [reflexivity|]. split; [exact ex_served_run|].
  exact (key_eventually_served (HLb:=refLabels) (HC:=refCluster) nodeQueue w_keys (refFifo nodeQueue) ex_waiting ex_served 1 "n2" ["n1"]
           eq_refl ex_served_run).
Defined.

(** C12. Termination of the workers.  When [Run] returns, for whatever reason, both
    work queues are shut down; and a worker of a queue that is shut down ends (or
    crashes in a handler) within one round more than the items the queue has left,
    whatever the handlers do. *)
Theorem workers_terminate `{HN : !NetUtils} `{HLb : !Labels} `{HC : !Cluster} `{HI : !MapIter} `{HF : !Informers} `{HR : !Runtime}
  (pending : QueueName → World → nat) (HD : ∀ q, drains q (pending q)) (HS : shuts_down) :
  (∀ Wok st workers st' q, Run Wok st workers st' → queue_ShuttingDown q (world st') = true) ∧
  ∀ (st : AllocState) rounds,
    (queue_ShuttingDown cidrQueue (world st) = true → (pending cidrQueue (world st) < rounds)%nat →
       ∃ r st', runCIDRWorker rounds st = (r, st') ∧ (r = Ok true ∨ ∃ p, r = Panic p)) ∧
    (queue_ShuttingDown nodeQueue (world st) = true → (pending nodeQueue (world st) < rounds)%nat →
       ∃ r st', runNodeWorker rounds st = (r, st') ∧ (r = Ok true ∨ ∃ p, r = Panic p)).
Proof.
  split.
  - intros Wok st workers st' q [w _|w st1 _ _]; by apply runDeferred_shut.
  - intros st rounds. split; [apply (drain_run cidrQueue (pending cidrQueue))|apply (drain_run nodeQueue (pending nodeQueue))]; apply HD.
Qed.

Lemma workers_terminate_witness :
  (∀ q, drains (HC:=refCluster) q (λ w, length (w_keys w))) ∧
  ∃ r st', runNodeWorker 3 ex_waiting = (r, st') ∧ (r = Ok true ∨ ∃ p, r = Panic p).
Proof.
  split; [exact refDrains|].
  apply (proj2 (workers_terminate (HLb:=refLabels) (HC:=refCluster) (HF:=refInformers) (λ _ w, length (w_keys w)) refDrains refShuts) ex_waiting 3%nat).
  - reflexivity.
  - apply Nat.ltb_lt. vm_compute. reflexivity.
Defined.
