(* ===== verification/ProcessTheorems.v ===== *)
(** The theorems about the process: how [main] ends, what a standby replica does, and
    the controllers it starts. *)
From stdpp Require Import relations.
From S2P Require Import Prelude GoNet CIDRTheory CIDRText NetUtils MultiCIDRSet ContainerHeap PriorityQueue Kubernetes Allocator NodeHandlers ClusterCIDRHandlers EventHandlers.
From S2P Require Import AllocatorInv AllocatorKeeps Controller Workers InformerFactory InformerProps Clientset Process Reference Examples AllocatorTheorems WorkerTheorems InformerTheorems.

(** * Running the process monad *)

Section rules.
Context {S : Type}.

Lemma P_bind_inv {A B} (m : P S A) (f : A → P S B) s b s' : (m ≫= f) s = (Done b, s') → ∃ a s1, m s = (Done a, s1) ∧ f a s1 = (Done b, s').
Proof. unfold mbind, P_bind. destruct (m s) as [[a|c|] s1]; naive_solver. Qed.

Lemma P_bind_Done {A B} (m : P S A) (f : A → P S B) s a s1 : m s = (Done a, s1) → (m ≫= f) s = f a s1.
Proof. intros E. unfold mbind, P_bind. by rewrite E. Qed.

Lemma runM_inv {T A} code (gets : S → T) sets (m : M T A) s a s' : runM code gets sets m s = (Done a, s') →
  ∃ t, m (gets s) = (Ok a, t) ∧ s' = sets t s.
Proof. unfold runM. destruct (m (gets s)) as [[x|e|p] t]; intros [= -> <-]. by exists t. Qed.

(** [ends codes m]: if [m] ends the process, it is with one of [codes]. *)
Definition ends (codes : list Z) {A} (m : P S A) : Prop := ∀ s c s', m s = (Exited c, s') → c ∈ codes.

Lemma ends_bind codes {A B} (m : P S A) (f : A → P S B) : ends codes m → (∀ a, ends codes (f a)) → ends codes (m ≫= f).
Proof.
  intros Hm Hf s c s'. unfold mbind, P_bind. pose proof (Hm s) as H. destruct (m s) as [[a|c'|] s1]; [apply Hf| |done].
  intros [= -> ->]. by eapply H.
Qed.
Lemma ends_ret codes {A} (a : A) : ends codes (mret a).
Proof. by intros s c s'. Qed.
Lemma ends_exit codes {A} c : c ∈ codes → ends codes (os_Exit c : P S A).
Proof. by intros H s c' s' [= <- _]. Qed.
Lemma ends_orExit codes {E A} c (r : E + A) : c ∈ codes → ends codes (orExit c r).
Proof. intros H. destruct r; [by apply ends_exit|apply ends_ret]. Qed.
Lemma ends_modify codes (f : S → S) : ends codes (p_modify f).
Proof. by intros s c s'. Qed.
Lemma ends_runM codes {T A} c (gets : S → T) sets (m : M T A) : c ∈ codes → ends codes (runM c gets sets m).
Proof. intros H s c' s'. unfold runM. by destruct (m (gets s)) as [[] ?]; intros [= <- _]. Qed.
Lemma ends_if codes {A} (b : bool) (m1 m2 : P S A) : ends codes m1 → ends codes m2 → ends codes (if b then m1 else m2).
Proof. by destruct b. Qed.
End rules.

Create HintDb ends.
#[export] Hint Resolve ends_bind ends_ret ends_exit ends_orExit ends_modify ends_runM ends_if : ends.

Ltac by_member := unfold fatalCode; rewrite !elem_of_cons; tauto.
(** The process has ended with a code. *)
Ltac ended := cbn; split; [done|]; split; [split; congruence|]; split; [by_member|done].

(** * A reference platform *)

#[export] Instance refRest : Rest := {|
  RestWorld := nat; RateLimiter := nat; Serializer := unit; HTTPClient := unit; RESTClient := unit; DiscoveryClient := unit; RestOptions := unit
|}.
#[export] Instance refRestFunctions : RestFunctions := {|
  DefaultKubernetesUserAgent := "agent"; CodecFactoryWithoutConversion := tt;
  HTTPClientFor _ w := (Ok tt, w);
  NewTokenBucketRateLimiter _ _ w := (w, S w);
  RESTClientForConfigAndClient _ _ w := (Ok tt, w);
  NewDiscoveryClientForConfigAndClient _ _ w := (Ok tt, w);
  NewDiscoveryClient _ := tt
|}.
Definition ex_config : config := mkConfiguration "" "" "" ":8081" (mkLEConfig true "" "" 15 10 2 "leases" "node-ipam-controller").
Definition ex_rest : Config := mkConfig "" None None "" 0 0 None tt.
#[export] Instance refPlatform : Platform (HC:=refCluster) := {|
  os_Args := ["ipam"];
  os_Getenv s := if String.eqb s "POD_NAMESPACE" then "kube-system" else "";
  GetHostname _ := inr "host-a";
  flags_ParseArgs _ _ := (None, ex_config);
  logsapi_ValidateAndApply := None;
  BuildConfigFromFlags _ _ := inr ex_rest;
  KubeClient := unit;
  kubernetes_NewForConfig _ := inr tt;
  Nodes_List _ w := (inr [ex_n1; ex_n2], w);
  ResourceLockInterface := unit;
  resourcelock_New _ _ _ _ _ := inr tt;
  as_Interface _ := tt;
  ctx_Done := 1%nat;
  range_informers m := map_to_list m
|}.

(** * main *)

Section outcomes.
Context `{HN : !NetUtils} `{HLb : !Labels} `{HC : !Cluster} `{HI : !MapIter}.
Context `{HCa : !Cache} `{HRe : !Rest} `{HRF : !RestFunctions} `{HPl : !Platform}.
Implicit Types s : ProcessState.

(** The controllers have not been touched. *)
Definition untouched s s' : Prop := allocState s' = allocState s ∧ factoryState s' = factoryState s ∧ restWorld s' = restWorld s.

(** The identity and the lock the election runs with. *)
Definition elects (le : LeaderElectionConfig) (kubeClient : KubeClient) (a : Action) : Prop :=
  ∃ id namespace lock, a = RunOrDie id lock le ∧ namespace ≠ ""
    ∧ resourcelock_New (ResourceLock le) namespace (ResourceName le) kubeClient id = inr lock
    ∧ (if decide (LeaderElectionID le = "") then GetHostname (os_Getenv "POD_NAME") = inr id else id = LeaderElectionID le)
    ∧ namespace = (if decide (LeaderElectionNamespace le = "") then os_Getenv "POD_NAMESPACE" else LeaderElectionNamespace le).

Lemma length_empty (x : string) : Nat.ltb 0 (String.length x) = negb (bool_decide (x = "")).
Proof using. by destruct x. Qed.

Lemma StartLeaderElection_outcome kubeClient le s :
  let '(r, s') := StartLeaderElection kubeClient le s in untouched s s' ∧
  match r with
  | Done _ => ∃ a, elects le kubeClient a ∧ actions s' = actions s ++ [a] ∧ signalHandler s' = signalHandler s
  | Exited c => c = fatalCode
  | Crashed => False
  end.
Proof using.
  assert (untouched s s) as Hs by done.
  unfold StartLeaderElection, lockID, lockNamespace, elects. rewrite !length_empty.
  unfold mbind, P_bind, orExit, os_Exit, mret, P_ret, act, p_modify.
  destruct (decide (LeaderElectionID le = "")) as [E1|E1]; [rewrite (bool_decide_eq_true_2 _ E1)|rewrite (bool_decide_eq_false_2 _ E1)]; simpl;
    [destruct (GetHostname _) as [e|id] eqn:Eh; [by split|]|];
    (destruct (decide (LeaderElectionNamespace le = "")) as [E2|E2]; [rewrite (bool_decide_eq_true_2 _ E2)|rewrite (bool_decide_eq_false_2 _ E2)]; simpl;
      [destruct (String.eqb_spec (os_Getenv "POD_NAMESPACE") ""); [by split|]|]);
    (destruct (resourcelock_New _ _ _ _ _) as [e|lock] eqn:El; [by split|]); (split; [done|]);
    (eexists; split; [by eexists _, _, lock|done]).
Qed.
End outcomes.

(** C40. How [main] ends, started once: it never panics, exits with 0 exactly when the
    flags ask for help, and with 255 only for want of an identity, a namespace or a
    lock for the election.  When it gets to run, the signal handler is installed and
    one web server listens on the probe address, if that is set, and on the other one
    otherwise; with leader election it runs with the configured identity or else the
    host name, and with a namespace.  It starts no controller before that. *)
Theorem main_outcomes `{HC : !Cluster} `{HCa : !Cache} `{HRe : !Rest} `{HRF : !RestFunctions} `{HPl : !Platform}
  (s : ProcessState) (Hs : signalHandler s = false) :
  let '(r, s') := main s in
  let cfg := load.2 in let le := LeaderElectionCfg cfg in
  untouched s s' ∧
  match r with
  | Crashed => False
  | Exited c => (c = 0 ↔ load.1 = Some (flags_Error true)) ∧ c ∈ [0; 1; 255] ∧ (c = 255 → EnableLeaderElection le = true)
  | Done b => load.1 = None ∧ signalHandler s' = true
      ∧ ∃ addr rest, actions s' = actions s ++ StartedWebServer (newServer addr) :: rest
        ∧ addr = (if decide (HealthProbeAddr cfg = "") then WebserverBindAddr cfg else HealthProbeAddr cfg)
        ∧ if EnableLeaderElection le
          then ∃ kubeClient kubeCfg a, b = OnElection kubeClient kubeCfg ∧ elects le kubeClient a ∧ rest = [a]
          else ∃ kubeClient kubeCfg, b = OnControllers kubeClient kubeCfg ∧ rest = []
  end.
Proof.
  assert (untouched s s) as Hu by done. unfold main. destruct load as [err cfg]. cbn [fst snd].
  destruct err as [[[]|msg]|]; [ended|ended|ended|].
  destruct logsapi_ValidateAndApply; [ended|].
  assert (SetupSignalHandler s = (Done tt, with_signalHandler s)) as Es by (unfold SetupSignalHandler; by rewrite Hs).
  rewrite (P_bind_Done _ _ _ _ _ Es). set (s2 := (act (StartedWebServer (newServer (bindingAddress cfg))) (with_signalHandler s)).2).
  rewrite (P_bind_Done (StartWebServer (bindingAddress cfg)) _ (with_signalHandler s) tt s2 eq_refl). assert (untouched s s2) as Hu2 by done.
  destruct (BuildConfigFromFlags _ _) as [e|kubeCfg]; [ended|]. rewrite (P_bind_Done (orExit 1 (inr kubeCfg)) _ s2 kubeCfg s2 eq_refl).
  destruct (kubernetes_NewForConfig kubeCfg) as [e|kubeClient]; [ended|]. rewrite (P_bind_Done (orExit 1 (inr kubeClient)) _ s2 kubeClient s2 eq_refl).
  assert (bindingAddress cfg = if decide (HealthProbeAddr cfg = "") then WebserverBindAddr cfg else HealthProbeAddr cfg) as Haddr.
  { unfold bindingAddress. destruct (String.eqb_spec (HealthProbeAddr cfg) ""); [by rewrite decide_True|by rewrite decide_False]. }
  destruct (EnableLeaderElection (LeaderElectionCfg cfg)) eqn:Hle.
  - pose proof (StartLeaderElection_outcome kubeClient (LeaderElectionCfg cfg) s2) as H. unfold mbind, P_bind.
    destruct (StartLeaderElection kubeClient (LeaderElectionCfg cfg) s2) as [[[]|c|] s3]; destruct H as [Hu3 H]; [| |done].
    + destruct H as (a & Ha & Hact & Hsig). split; [exact Hu3|]. split; [done|]. split; [exact Hsig|]. exists (bindingAddress cfg), [a].
      split; [rewrite Hact; simpl; by rewrite <-app_assoc|]. split; [exact Haddr|]. by exists kubeClient, kubeCfg, a.
    + subst c. split; [exact Hu3|]. split_and!; [done|by_member|done].
  - split; [exact Hu2|]. split; [done|]. split; [done|]. exists (bindingAddress cfg), []. split; [done|]. split; [exact Haddr|].
    by exists kubeClient, kubeCfg.
Qed.

Definition ex_process : ProcessState (HC:=refCluster) := mkPS [] false 0 false 0%nat None (initState ex_world).

Lemma main_outcomes_witness :
  signalHandler ex_process = false ∧ (main ex_process).1 = Done (OnElection tt ex_rest) ∧ untouched ex_process (main ex_process).2.
Proof.
  split; [reflexivity|]. split; [reflexivity|]. pose proof (main_outcomes ex_process eq_refl) as H. exact (proj1 H).
Defined.

(** * A standby replica *)

Definition starts_leading (e : ProcessEvent) : bool := match e with Elected OnStartedLeading => true | _ => false end.
Definition stops_leading (e : ProcessEvent) : bool := match e with Elected OnStoppedLeading => true | _ => false end.
Definition shuts_down_signal (e : ProcessEvent) : bool := match e with Signalled sig => bool_decide (sig ∈ shutdownSignals) | _ => false end.
(** The number of registered signals among the events. *)
Definition signals (l : list ProcessEvent) : nat := length (filter (λ e, shuts_down_signal e = true) l).

Lemma signals_cons e l : signals (e :: l) = ((if shuts_down_signal e then 1 else 0) + signals l)%nat.
Proof. unfold signals. rewrite filter_cons. destruct (shuts_down_signal e); reflexivity. Qed.

Lemma standby_run `{HN : !NetUtils} `{HLb : !Labels} `{HC : !Cluster} `{HI : !MapIter} `{HCa : !Cache} `{HRe : !Rest} `{HRF : !RestFunctions} `{HPl : !Platform}
  kubeClient cfg initCache l (s : ProcessState) : Forall (λ e, starts_leading e = false) l → (signalsRead s ≤ 1)%nat →
  let '(r, s') := runElection kubeClient cfg initCache l s in
  untouched s s' ∧ actions s' = actions s
  ∧ (if decide (2 ≤ signalsRead s + signals l)%nat then r = Exited 1
     else r = Done tt ∧ cancelled s' = cancelled s || Nat.ltb 0 (signals l) || existsb stops_leading l).
Proof.
  intros Hl. revert s. induction Hl as [|e l He Hl IH]; intros s Hs.
  { cbn. split; [done|]. split; [done|]. rewrite decide_False by (unfold signals; cbn; lia). by rewrite !orb_false_r. }
  assert (∀ s1, untouched s s1 → actions s1 = actions s → (signalsRead s1 ≤ 1)%nat →
    signalsRead s1 = (signalsRead s + if shuts_down_signal e then 1 else 0)%nat →
    cancelled s1 = cancelled s || shuts_down_signal e || stops_leading e →
    let '(r, s') := runElection kubeClient cfg initCache l s1 in untouched s s' ∧ actions s' = actions s
    ∧ (if decide (2 ≤ signalsRead s + signals (e :: l))%nat then r = Exited 1
       else r = Done tt ∧ cancelled s' = cancelled s || Nat.ltb 0 (signals (e :: l)) || existsb stops_leading (e :: l))) as Hnext.
  { intros s1 (U1 & U2 & U3) Hact Hle Hn Hc. specialize (IH s1 Hle). destruct (runElection _ _ _ l s1) as [r s2].
    destruct IH as ((V1 & V2 & V3) & Hact2 & H). split; [by split_and!; etransitivity|]. split; [by etransitivity|].
    rewrite signals_cons. rewrite Hn in H. destruct (shuts_down_signal e); repeat case_decide; try lia; try done.
    - destruct H as [-> ->]. split; [done|]. rewrite Hc. simpl. by rewrite !orb_true_r.
    - destruct H as [-> ->]. split; [done|]. rewrite Hc, orb_false_r. simpl.
      destruct (cancelled s), (stops_leading e), (Nat.ltb 0 (signals l)), (existsb stops_leading l); reflexivity. }
  destruct e as [[]|sig]; [done|..]; cbn [runElection].
  - rewrite (P_bind_Done (onElection kubeClient cfg initCache OnStoppedLeading) _ s tt (cancel s) eq_refl).
    apply Hnext; try done; cbn; rewrite ?orb_true_r, ?orb_false_r; first [done | lia].
  - rewrite (P_bind_Done (onElection kubeClient cfg initCache (OnNewLeader identity)) _ s tt s eq_refl).
    apply Hnext; try done; cbn; rewrite ?orb_true_r, ?orb_false_r; first [done | lia].
  - unfold mbind, P_bind, onSignal. destruct (decide (sig ∈ shutdownSignals)) as [Hsig|Hsig].
    + assert (shuts_down_signal (Signalled sig) = true) as Hd by (by apply bool_decide_eq_true).
      destruct (signalsRead s) as [|n] eqn:En.
      * apply Hnext; rewrite ?Hd; try done; cbn; rewrite ?orb_true_r, ?orb_false_r; first [done | lia].
      * split; [done|]. split; [done|]. rewrite decide_True; [done|]. rewrite signals_cons, Hd. lia.
    + assert (shuts_down_signal (Signalled sig) = false) as Hd by (by apply bool_decide_eq_false).
      apply Hnext; rewrite ?Hd; try done; cbn; rewrite ?orb_true_r, ?orb_false_r; first [done | lia].
Qed.

(** A replica that is not elected is passive: over any events of the election
    and any signals, until it starts leading, it starts no informer, makes no call and
    keeps the allocator as it was.  The first SIGINT or SIGTERM, or the end of the
    election, cancels the context and does nothing else; the second signal ends the
    process with 1. *)
Theorem standby_passive `{HN : !NetUtils} `{HLb : !Labels} `{HC : !Cluster} `{HI : !MapIter} `{HCa : !Cache} `{HRe : !Rest} `{HRF : !RestFunctions} `{HPl : !Platform}
  kubeClient cfg initCache l (s : ProcessState) (Hl : Forall (λ e, starts_leading e = false) l) (Hs : signalsRead s = 0%nat) :
  let '(r, s') := runElection kubeClient cfg initCache l s in
  untouched s s' ∧ actions s' = actions s
  ∧ (if decide (2 ≤ signals l)%nat then r = Exited 1
     else r = Done tt ∧ cancelled s' = cancelled s || Nat.ltb 0 (signals l) || existsb stops_leading l).
Proof. pose proof (standby_run kubeClient cfg initCache l s Hl) as H. rewrite Hs in H. apply H. lia. Qed.

Lemma standby_passive_witness :
  (runElection (tt : KubeClient) ex_rest 0%nat [Elected (OnNewLeader "host-b"); Signalled SIGTERM; Signalled SIGINT] ex_process).1 = Exited 1
  ∧ untouched ex_process (runElection (tt : KubeClient) ex_rest 0%nat [Elected (OnNewLeader "host-b"); Signalled SIGTERM; Signalled SIGINT] ex_process).2.
Proof.
  split; [reflexivity|].
  pose proof (standby_passive (HLb:=refLabels) (HC:=refCluster) (tt : KubeClient) ex_rest 0%nat [Elected (OnNewLeader "host-b"); Signalled SIGTERM; Signalled SIGINT] ex_process
    ltac:(by repeat constructor) eq_refl) as H. exact (proj1 H).
Defined.

(** * The controllers *)

Section controllers.
Context `{HN : !NetUtils} `{HLb : !Labels} `{HC : !Cluster} `{HI : !MapIter} `{HF : !Informers} `{HR : !Runtime}.
Context `{HCa : !Cache} `{HRe : !Rest} `{HRF : !RestFunctions} `{HPl : !Platform}.
Implicit Types s : ProcessState.

Lemma onFactory_inv {A} (m : M FactoryState A) s a s' f : onFactory m s = (Done a, s') → factoryState s = Some f →
  ∃ f', m f = (Ok a, f') ∧ s' = with_factoryState (Some f') s.
Proof using. unfold onFactory. intros E Hf. rewrite Hf in E. destruct (m f) as [[x|e|p] f']; try discriminate. injection E as -> <-. by exists f'. Qed.

Lemma empty_params_ok : params_ok emptyParams.
Proof using. split; [by intros existing l H [= <-]|done]. Qed.

Lemma ends_onFactory {A} (m : M FactoryState A) : ends [1] (onFactory m).
Proof using. intros s c s'. unfold onFactory. destruct (factoryState s); [|done]. destruct (m _) as [[] ?]; intros [= <- _]. by_member. Qed.

(** What the controllers have done when they get to [Run]. *)
Lemma startControllers_inv kubeClient cfg initCache s s' : startControllers kubeClient cfg initCache s = (Done tt, s') →
  ∃ nodes w st, Nodes_List kubeClient (world (allocState s)) = (inr nodes, w)
  ∧ NewMultiCIDRRangeAllocator emptyParams (Some nodes) (with_world w (allocState s)) = (Ok tt, st) ∧ allocState s' = st
  ∧ actions s' = actions s ++ [StartedKubeInformers; StartedSharedInformers]
  ∧ ∃ cs lister f1 f2, let f0 := newFactoryState (as_Interface cs) defaultResyncPeriod [] initCache in
    ClusterCIDRInformer_Lister (ClusterCIDRs (V1 (Networking (factory f0)))) f0 = (Ok lister, f1)
    ∧ Start (range_informers (informers (factory f1))) ctx_Done f1 = (Ok tt, f2) ∧ factoryState s' = Some f2.
Proof using.
  unfold startControllers. intros (cs & s1 & (rw & _ & ->)%runM_inv & E)%P_bind_inv.
  apply P_bind_inv in E as ([] & s2 & [= <-] & E). apply P_bind_inv in E as (nodes & s3 & (st3 & E3 & ->)%runM_inv & E).
  apply P_bind_inv in E as (lister & s4 & E4 & E). eapply onFactory_inv in E4 as (f1 & E4 & ->); [|reflexivity].
  apply P_bind_inv in E as ([] & s5 & (st5 & E5 & ->)%runM_inv & E). apply P_bind_inv in E as ([] & s6 & [= <-] & E).
  apply P_bind_inv in E as ([] & s7 & E7 & E). eapply onFactory_inv in E7 as (f2 & E7 & ->); [|reflexivity].
  injection E as <-. simpl in *. destruct (Nodes_List kubeClient (world (allocState s))) as [[e|nodes'] w] eqn:En; [discriminate|].
  injection E3 as -> <-. exists nodes, w, st5. split; [done|]. split; [exact E5|]. split; [done|]. split; [by rewrite <-app_assoc|].
  exists cs, lister, f1, f2. done.
Qed.

(** The informer that is running afterwards. *)
Lemma factory_started c resync initCache order lister f1 f2 :
  ClusterCIDRInformer_Lister (ClusterCIDRs (V1 (Networking (factory (newFactoryState c resync [] initCache))))) (newFactoryState c resync [] initCache) = (Ok lister, f1) →
  order ≡ₚ map_to_list (informers (factory f1)) → Start order ctx_Done f1 = (Ok tt, f2) →
  ∃ i, lister = NewClusterCIDRLister (Informer_GetIndexer i) ∧ informers (factory f2) = {[ClusterCIDR_Type := i]}
    ∧ launched f2 = [(ClusterCIDR_Type, i, ctx_Done)] ∧ running f2 = launched f2.
Proof using.
  set (f0 := newFactoryState _ _ _ _). unfold ClusterCIDRInformer_Lister.
  destruct (InformerFor_spec ClusterCIDR_Type (defaultInformer (ClusterCIDRs (V1 (Networking (factory f0))))) f0)
    as (i & f1' & E & Hi & _ & Hl & Hr & _ & Hst & Hsd).
  intros E1 Ho Es. rewrite (M_bind_Ok _ _ _ _ _ (E : ClusterCIDRInformer_Informer _ f0 = _)) in E1. injection E1 as <- <-.
  assert (informers (factory f1') = {[ClusterCIDR_Type := i]}) as Hi1 by (by rewrite Hi).
  rewrite Hi1, map_to_list_singleton in Ho. apply Permutation_singleton_r in Ho as ->.
  destruct (start_loop f1' ctx_Done [(ClusterCIDR_Type, i)] ltac:(by apply NoDup_singleton)) as (f2' & E2 & [S1 S2 S3 _ _ _]).
  assert (Start [(ClusterCIDR_Type, i)] ctx_Done f1' = (Ok tt, f2')) as E2'.
  { unfold Start. mred. rewrite Hsd. exact E2. }
  rewrite E2' in Es. injection Es as <-. exists i. split; [done|]. split; [by rewrite S3|].
  assert (launches f1' ctx_Done [(ClusterCIDR_Type, i)] = [(ClusterCIDR_Type, i, ctx_Done)]) as HL.
  { unfold launches, isStarted. by rewrite Hst. }
  rewrite S1, S2, HL, Hl, Hr. done.
Qed.
End controllers.

(** C13. The process puts the components together.  When the controllers of the binary
    have been started, the allocator is in a state that is reachable without a default
    ClusterCIDR and without service ranges; exactly one informer of the factory runs,
    the one of ClusterCIDRs, whose indexer the lister of the allocator reads.  Whatever
    the workers, the callbacks and the outside world do until [Run] returns, the state
    is well formed in between and at the end. *)
Theorem process_starts `{HN : !NetUtils} `{HLb : !Labels} `{HC : !Cluster} `{HI : !MapIter} `{HF : !Informers} `{HR : !Runtime}
  `{HCa : !Cache} `{HRe : !Rest} `{HRF : !RestFunctions} `{HPl : !Platform}
  (HNL : NetUtilsLaws HN) (Wok : World → Prop) (HW : world_closed Wok) (HWadd : ∀ q key w, Wok w → Wok (queue_Add q key w))
  (HWnodes : ∀ kubeClient w nodes w', Wok w → Nodes_List kubeClient w = (inr nodes, w') → Wok w' ∧ Forall node_ok nodes)
  (HWsync : ∀ w, Wok w → Wok (WaitForNamedCacheSync (broadcaster_StartRecording w)).2)
  (Hrange : ∀ m, range_informers m ≡ₚ map_to_list m)
  kubeClient cfg initCache w (s s' : ProcessState) (Hs : allocState s = initState w) (Hw : Wok w)
  (Hstart : startControllers kubeClient cfg initCache s = (Done tt, s')) :
  (∃ nodes, reachable Wok emptyParams (Some nodes) (allocState s'))
  ∧ (∃ f i, factoryState s' = Some f ∧ informers (factory f) = {[ClusterCIDR_Type := i]}
      ∧ launched f = [(ClusterCIDR_Type, i, ctx_Done)] ∧ running f = launched f)
  ∧ (∀ st, rtc (step Wok) (allocState s') st → alloc_ok st)
  ∧ ∀ s'', runControllers Wok kubeClient cfg initCache s s'' → alloc_ok (allocState s'').
Proof.
  destruct (startControllers_inv kubeClient cfg initCache s s' Hstart)
    as (nodes & w1 & st & En & Enew & Hst & _ & cs & lister & f1 & f2 & El & Es & Hf).
  rewrite Hs in En, Enew. simpl in En. destruct (HWnodes _ _ _ _ Hw En) as [Hw1 Hnodes].
  assert (nodes_ok (Some nodes)) as Hno by (by intros l [= <-]).
  assert (reachable Wok emptyParams (Some nodes) (allocState s')) as Hreach.
  { rewrite Hst. eapply (reach_start Wok _ _ w1); [done|]. exact Enew. }
  assert (∀ st1 st2, reachable Wok emptyParams (Some nodes) st1 → rtc (step Wok) st1 st2 → Inv Wok st2) as Hinv.
  { intros st1 st2 H1 H2. apply (reachable_inv HNL Wok HW HWadd emptyParams (Some nodes)); [apply empty_params_ok|done|].
    revert H1. induction H2 as [|st1 st2 st3 H12 _ IH]; intros H1; [done|]. apply IH. by eapply reach_step. }
  split; [by exists nodes|]. split.
  { destruct (factory_started _ _ _ _ _ _ _ El (Hrange _) Es) as (i & _ & H). by exists f2, i. }
  split; [intros st' H; by apply (Hinv (allocState s') st')|].
  intros s'' [s1 workers st' E Hrun]. rewrite Hstart in E. injection E as <-. simpl.
  assert (∀ st, Inv Wok st → alloc_ok (runDeferred st)) as Hdef by (intros st0 [[] _]; by split).
  destruct Hrun as [w2 Ew|w2 st1 Ew Hrun].
  - apply Hdef. apply (Hinv (with_world w2 (allocState s'))); [|done]. eapply reach_step; [exact Hreach|]. apply step_world.
    replace w2 with (WaitForNamedCacheSync (broadcaster_StartRecording (world (allocState s')))).2 by (by rewrite Ew).
    apply HWsync. by destruct (Hinv _ _ Hreach (rtc_refl _ _)).
  - apply Hdef. eapply (Hinv (with_world w2 (allocState s'))); [|exact Hrun]. eapply reach_step; [exact Hreach|]. apply step_world.
    replace w2 with (WaitForNamedCacheSync (broadcaster_StartRecording (world (allocState s')))).2 by (by rewrite Ew).
    apply HWsync. by destruct (Hinv _ _ Hreach (rtc_refl _ _)).
Qed.

Lemma ex_nodes_listed (kubeClient : KubeClient) (w : World) nodes w' : refWok w → Nodes_List kubeClient w = (inr nodes, w') → refWok w' ∧ Forall node_ok nodes.
Proof. intros Hw [= <- <-]. split; [done|]. by apply ex_nodes_ok. Qed.

Definition ex_running : ProcessState := (startControllers (tt : KubeClient) ex_rest 0%nat ex_process).2.

Lemma ex_startControllers : startControllers (tt : KubeClient) ex_rest 0%nat ex_process = (Done tt, ex_running).
Proof.
  assert ((startControllers (tt : KubeClient) ex_rest 0%nat ex_process).1 = Done tt) as E by (vm_compute; reflexivity).
  unfold ex_running. rewrite <-E. apply surjective_pairing.
Qed.

Lemma process_starts_witness :
  startControllers (tt : KubeClient) ex_rest 0%nat ex_process = (Done tt, ex_running)
  ∧ ∃ nodes, reachable (HC:=refCluster) refWok emptyParams (Some nodes) (allocState ex_running).
Proof.
  split; [exact ex_startControllers|].
  exact (proj1 (process_starts (HLb:=refLabels) (HC:=refCluster) refNetUtils_laws refWok refWorld_closed refAdd_closed ex_nodes_listed
    (λ w H, H) (λ m, reflexivity _) (tt : KubeClient) ex_rest 0%nat ex_world ex_process ex_running eq_refl ex_world_ok ex_startControllers)).
Defined.

(** * The clientset *)

(** The clients for ClusterCIDRs and for discovery share one rate limiter: the one of
    the config, or a new one when QPS is positive, for which Burst has to be positive
    too; requests for ClusterCIDRs go to /apis/networking.x-k8s.io/v1. *)
Theorem clientset_shares_limiter `{HRe : !Rest} `{HRF : !RestFunctions} c w :
  match NewForConfig c w with
  | (Ok cs, w') => ∃ h w1 w2 w3 limiter, let c' := with_RateLimiter limiter (defaultUserAgent c) in
      HTTPClientFor (defaultUserAgent c) w = (Ok h, w1)
      ∧ match cfg_RateLimiter c with
        | Some r => limiter = Some r ∧ w2 = w1
        | None => if 0 <? QPS c then 0 < Burst c ∧ ∃ r, limiter = Some r ∧ NewTokenBucketRateLimiter (QPS c) (Burst c) w1 = (r, w2)
                  else limiter = None ∧ w2 = w1
        end
      ∧ RESTClientForConfigAndClient (setConfigDefaults c') h w2 = (Ok (restClient (cs_networkingV1 cs)), w3)
      ∧ NewDiscoveryClientForConfigAndClient c' h w3 = (Ok (cs_DiscoveryClient cs), w')
      ∧ cfg_RateLimiter (setConfigDefaults c') = limiter ∧ cfg_GroupVersion (setConfigDefaults c') = Some (mkGV GroupName "v1")
  | (Err e, _) => True
  | (Panic _, _) => True
  end.
Proof.
  assert (∀ c0 : Config, with_RateLimiter (cfg_RateLimiter c0) c0 = c0) as Hid by (by intros []).
  assert (cfg_RateLimiter (defaultUserAgent c) = cfg_RateLimiter c ∧ QPS (defaultUserAgent c) = QPS c ∧ Burst (defaultUserAgent c) = Burst c)
    as (Hl & Hq & Hb) by (unfold defaultUserAgent; by destruct (String.eqb _ _)).
  assert (∀ c0 : Config, cfg_RateLimiter (setConfigDefaults c0) = cfg_RateLimiter c0 ∧ cfg_GroupVersion (setConfigDefaults c0) = Some (mkGV GroupName "v1")) as Hset
    by (intros c0; unfold setConfigDefaults, defaultUserAgent; simpl; by destruct (String.eqb _ _)).
  destruct (NewForConfig c w) as [[cs|e|p] w'] eqn:E; [|done..].
  apply M_bind_inv in E as (h & w1 & Eh & (c2 & w2 & E2 & (net & w3 & (rc & w3' & Er & [= <- <-])%M_bind_inv & (d & w4 & Ed & [= <- <-])%M_bind_inv)%M_bind_inv)%M_bind_inv).
  assert (∃ limiter, c2 = with_RateLimiter limiter (defaultUserAgent c) ∧
    match cfg_RateLimiter c with
    | Some r => limiter = Some r ∧ w2 = w1
    | None => if 0 <? QPS c then 0 < Burst c ∧ ∃ r, limiter = Some r ∧ NewTokenBucketRateLimiter (QPS c) (Burst c) w1 = (r, w2)
              else limiter = None ∧ w2 = w1
    end) as (limiter & -> & Hlim).
  { revert E2. unfold withLimiter. rewrite Hl, Hq, Hb. destruct (cfg_RateLimiter c) as [r|] eqn:Ec.
    - intros [= <- <-]. exists (Some r). by rewrite <-Hl, Hid, Hl.
    - destruct (0 <? QPS c); [|intros [= <- <-]; exists None; by rewrite <-Hl, Hid, Hl].
      destruct (Burst c <=? 0) eqn:Eb; [done|]. destruct (NewTokenBucketRateLimiter _ _ w1) as [r w2'] eqn:En. intros [= <- <-].
      exists (Some r). split; [done|]. apply Z.leb_gt in Eb. split; [done|]. by exists r. }
  destruct (Hset (with_RateLimiter limiter (defaultUserAgent c))) as [H1 H2].
  exists h, w1, w2, w3', limiter. by split_and!.
Qed.
