(* ===== verification/FaultTheorems.v ===== *)
(** Behaviours in which the code departs from its comments, each as a theorem
    about the model, with a concrete run. *)
From S2P Require Import Prelude GoNet CIDRTheory CIDRText NetUtils MultiCIDRSet IndexTheory IndexProps SetProps SetConstruction.
From S2P Require Import ContainerHeap PriorityQueue Kubernetes Allocator NodeHandlers ClusterCIDRHandlers Stable AllocatorInv AllocateProps MatchProps NodeProps Reference AllocatorKeeps Controller Examples AllocatorTheorems ReleaseProps HandlerProps HandlerTheorems NodeTheorems IsolationTheorems Retention Records SystemTheorems RestartTheorems.

(** C31. A ClusterCIDR without a set of the CIDR's family: [associatedCIDRSet]
    returns a nil pointer without an error, and [Occupy], [Release] and
    [occupyServiceCIDR] call a method on it or read a field of it, and panic,
    before any write. *)
Theorem missing_family_panics `{HN : !NetUtils} `{HC : !Cluster} (HNL : NetUtilsLaws HN)
  (st : AllocState) cc c f v p (Hc : objs st !! cc = Some c) (Hf : get_set f c = None) (Hb : valid_block (fam_width f) v p) :
  Occupy cc (block (fam_width f) v p) st = (Panic NilDereference, st) ∧
  Release cc (block (fam_width f) v p) st = (Panic NilDereference, st) ∧
  occupyServiceCIDR cc (block (fam_width f) v p) st = (Panic NilDereference, st).
Proof.
  pose proof (associatedCIDRSet_run HNL st cc c f v p Hc Hb) as E. rewrite Hf in E. simpl in E.
  unfold Occupy, Release, occupyServiceCIDR. split; [|split]; by mstep E.
Qed.

(** A node that already has an IPv6 PodCIDR, in a controller whose only matching
    ClusterCIDR is IPv4. *)
Definition ex_n6 : Node := ex_node "n6" ∅ ["fd00:1::/124"].

Lemma missing_family_panics_witness :
  Occupy 1 (block 128 (253 * 2 ^ 120 + 2 ^ 96) 124) ex_st = (Panic NilDereference, ex_st) ∧
  (AllocateOrOccupyCIDR (Some ex_n6) ex_st).1 = Panic NilDereference ∧
  (NewMultiCIDRRangeAllocator (mkParams [] (Some (block 128 (254 * 2 ^ 120) 112)) None []) None ex_init).1 = Panic NilDereference.
Proof.
  split; [|split; vm_compute; reflexivity].
  assert (valid_block (fam_width V6) (253 * 2 ^ 120 + 2 ^ 96) 124) as Hb by by_decision.
  exact (proj1 (missing_family_panics (HC:=refCluster) refNetUtils_laws ex_st 1 ex_obj4 V6 _ _ ex_obj4_at eq_refl Hb)).
Defined.

Section leak.
Context `{HN : !NetUtils} `{HC : !Cluster} `{HI : !MapIter}.
Context (HNL : NetUtilsLaws HN) (HIL : MapIterLaws HI).
Implicit Types st : AllocState.

Lemma grows_conflict st st' f L i : grows st st' → conflict st f L i → conflict st' f L i.
Proof using.
  intros Hg (l & s & x & Hm & Hs & Hu & Hx). destruct (gr_set _ _ Hg l f s Hs) as (s' & Hs' & Hsg).
  exists l, s', x. split_and!; [by apply (same_mapped st st'); [apply Hg|]|done|by eapply set_grows_uses|done].
Qed.

Lemma replaced_exhausted st st' cc s s' L A : set_at st (cc, V4) = Some s → set_view V4 s L A →
  set_replaced cc V4 s' st st' → set_grows V4 s s' → exhausted st cc V6 → exhausted st' cc V6.
Proof using.
  intros Hs Hv Hr Hsg (s6 & L6 & A6 & H6 & Hv6 & Hall). exists s6, L6, A6. split; [|split; [done|]].
  - unfold set_at in *. simpl in *. by rewrite (set_replaced_other _ _ _ _ _ cc V6 Hr).
  - intros i Hi. destruct (Hall i Hi) as [|Hcf]; [by left|right]. eapply grows_conflict; [|exact Hcf].
    by apply (set_replaced_grows st st' cc V4 s s').
Qed.
(** A set that has no block left, by its counter. *)
Lemma full_exhausted st cc f s : alloc_ok st → set_at st (cc, f) = Some s → allocatedCIDRs s = MaxCIDRs s → exhausted st cc f.
Proof using.
  intros Hok Hs Hfull. destruct (at_set_ok st cc f s Hok Hs) as (L & A & Hv). destruct (Hv) as [HL _ Hi].
  exists s, L, A. split; [done|]. split; [done|]. intros i Hib. left. apply (full_alloc L HL A s); [done| |done].
  by rewrite <- (si_count _ _ _ Hi), Hfull, (sl_max L s) by apply Hi.
Qed.

Lemma replaced_frame l f s st st' k : set_replaced l f s st st' → frame <$> objs st' !! k = frame <$> objs st !! k.
Proof using.
  intros [_ (c & Hc & ->)]. rewrite lookup_insert. case_decide; [|done]. subst k. rewrite Hc. simpl. by destruct f.
Qed.
End leak.

(** C33. A dual-stack ClusterCIDR with a free IPv4 block and no free IPv6 block:
    the walk passes over it and leaves the IPv4 block allocated, associated with
    no node, so that no release gives it back. *)
Theorem dual_stack_leak `{HN : !NetUtils} `{HC : !Cluster} `{HI : !MapIter}
  (HNL : NetUtilsLaws HN) (HIL : MapIterLaws HI) (st : AllocState) cc s L A i
  (Hok : alloc_ok st) (Hs : set_at st (cc, V4) = Some s) (Hv : set_view V4 s L A)
  (Hi : 0 ≤ i < nmax L) (Hfree : ¬ taken st V4 L A i) (Hfull : exhausted st cc V6) :
  ∃ st' s' j, tryClusterCIDR cc st = (Ok None, st') ∧ ¬ (j ∈ A) ∧ 0 ≤ j < nmax L
    ∧ set_at st' (cc, V4) = Some s' ∧ set_view V4 s' L ({[j]} ∪ A)
    ∧ (∀ l, frame <$> objs st' !! l = frame <$> objs st !! l).
Proof.
  destruct (allocateCIDR_cases HNL HIL st cc V4 s L A Hok Hs Hv)
    as [(j & st1 & s1 & Hj & _ & Hgood & E & Hr & Hv1 & Hp & _)|(Hall & _)]; [|by destruct Hfree; apply Hall].
  set (b := slot L (nextCandidate s) j) in *. pose proof (slot_bound L (sv_ok _ _ _ _ Hv) (nextCandidate s) j) as Hbnd.
  assert (set_grows V4 s s1) as Hsg by (apply (view_grows V4 s s1 L A _ Hv Hv1); [set_solver|done]).
  pose proof (replaced_exhausted st st1 cc s s1 L A Hs Hv Hr Hsg Hfull) as Hfull1.
  assert (alloc_ok st1) as Hok1 by (eapply set_replaced_ok; [done| |exact Hr]; by eexists _, _).
  destruct (set_at_obj _ _ _ _ Hs) as (c & Hc & Hcs).
  destruct Hfull1 as (s6 & L6 & A6 & H6 & Hv6 & Hall6). destruct (set_at_obj _ _ _ _ H6) as (c6 & Hc6 & Hcs6).
  destruct (allocateCIDR_cases HNL HIL st1 cc V6 s6 L6 A6 Hok1 H6 Hv6)
    as [(k & st2 & s2 & Hk & _ & Hgood6 & _)|(_ & st2 & n & E2 & Hr2 & Hn)].
  { destruct Hgood6. apply Hall6, (slot_bound L6 (sv_ok _ _ _ _ Hv6)). }
  pose proof (set_replaced_lookup _ _ _ _ _ Hr) as Hat1.
  exists st2, s1, b. split; [|split_and!].
  - assert (allocateFamily cc V4 [] st = (Ok (Some [node_block L b]), st1)) as E4.
    { unfold allocateFamily. mstep (getObj_run st cc c Hc). rewrite Hcs. by mstep (attempt_Ok _ _ _ _ E). }
    assert (allocateFamily cc V6 [node_block L b] st1 = (Ok None, st2)) as E6.
    { unfold allocateFamily. mstep (getObj_run st1 cc c6 Hc6). rewrite Hcs6. by mstep (attempt_Err _ _ _ _ E2). }
    unfold tryClusterCIDR. mstep E4. by mstep E6.
  - intros Hb. apply Hgood. by left.
  - apply Hbnd.
  - apply Hbnd.
  - unfold set_at. simpl. rewrite (set_replaced_other _ _ _ _ _ cc V4 Hr2) by done. exact Hat1.
  - exact Hv1.
  - intros l. rewrite (replaced_frame _ _ _ _ _ l Hr2). by rewrite (replaced_frame _ _ _ _ _ l Hr).
Qed.

(** In the witness, the IPv6 range has one block and a service CIDR occupies it. *)
Definition ex_leaky : v1ClusterCIDR :=
  mkCC "leaky" 1 "1" None [] (mkSpecCC None 4 "10.2.0.0/27" "fd01::/124").

Lemma ex_leaky_ok : cc_ok ex_leaky.
Proof.
  split.
  - apply (range_ok_block V4 4 _ 32 (10 * 2 ^ 24 + 2 ^ 17) 27); [done|vm_compute; reflexivity|by_decision].
  - apply (range_ok_block V6 4 _ 128 (253 * 2 ^ 120 + 2 ^ 112) 124); [done|vm_compute; reflexivity|by_decision].
Qed.

Definition ex_full : AllocState :=
  (Occupy 1 (block 128 (253 * 2 ^ 120 + 2 ^ 112) 124) (reconcileCreate ex_leaky ex_init).2).2.
Definition ex_leak4 : MultiCIDRSet := newSet "leaky" 32 (10 * 2 ^ 24 + 2 ^ 17) 27 4.
Definition ex_leakL : layout := geometry 32 (10 * 2 ^ 24 + 2 ^ 17) 27 4.

Lemma ex_full_ok : alloc_ok ex_full.
Proof.
  apply (keeps_Occupy (HC:=refCluster) refNetUtils_laws refWok 1).
  - exists V6, (253 * 2 ^ 120 + 2 ^ 112), 124. split; [by_decision|reflexivity].
  - apply (keeps_createClusterCIDR (HC:=refCluster) refNetUtils_laws refWok refWorld_closed ex_leaky false ex_leaky_ok).
    apply init_inv, ex_world_ok.
Qed.

Lemma ex_leak_view : set_view V4 ex_leak4 ex_leakL ∅.
Proof.
  assert (usable 32 (10 * 2 ^ 24 + 2 ^ 17) 27 4) as Hu by by_decision.
  split; [exact (geometry_ok _ _ _ _ Hu)|reflexivity|exact (newSet_inv "leaky" _ _ _ _ Hu)].
Qed.

Lemma ex_leak_at : set_at ex_full (1%positive, V4) = Some ex_leak4.
Proof. vm_compute. reflexivity. Qed.

Lemma ex_leak_free : ¬ taken ex_full V4 ex_leakL ∅ 0.
Proof.
  intros [H|(l & s & x & (label & ls & Hl & Hm) & Hs & Hu & _)]; [by apply elem_of_empty in H|].
  assert (cidrMap ex_full = {["kubernetes.io/clusterCIDR in (default)" := [1%positive]]}) as E by (vm_compute; reflexivity).
  rewrite E, lookup_singleton in Hl. case_decide; [|discriminate Hl]. injection Hl as <-.
  apply list_elem_of_singleton in Hm as ->. rewrite ex_leak_at in Hs. injection Hs as <-.
  apply (uses_view V4 ex_leak4 ex_leakL ∅ x ex_leak_view) in Hu as (i & Hi & _). by apply elem_of_empty in Hi.
Qed.

Lemma ex_full_taken : exhausted ex_full 1 V6.
Proof.
  destruct (set_at ex_full (1%positive, V6)) as [s|] eqn:Hs.
  - apply (full_exhausted ex_full 1 V6 s ex_full_ok Hs).
    assert ((λ s, (allocatedCIDRs s, MaxCIDRs s)) <$> set_at ex_full (1%positive, V6) = Some (1, 1)) as E
      by (vm_compute; reflexivity).
    rewrite Hs in E. simpl in E. congruence.
  - assert (bool_decide (is_Some (set_at ex_full (1%positive, V6))) = true) as E by (vm_compute; reflexivity).
    by rewrite Hs in E.
Qed.

Lemma dual_stack_leak_witness :
  ∃ st' s' j, tryClusterCIDR 1 ex_full = (Ok None, st') ∧ ¬ (j ∈ (∅ : gset Z)) ∧ 0 ≤ j < nmax ex_leakL
    ∧ set_at st' (1%positive, V4) = Some s' ∧ set_view V4 s' ex_leakL ({[j]} ∪ ∅)
    ∧ (∀ l, frame <$> objs st' !! l = frame <$> objs ex_full !! l).
Proof.
  assert (0 ≤ 0 < nmax ex_leakL) as Hi by by_decision.
  exact (dual_stack_leak (HC:=refCluster) refNetUtils_laws refIter_laws ex_full 1 ex_leak4 ex_leakL ∅ 0 ex_full_ok
           ex_leak_at ex_leak_view Hi ex_leak_free ex_full_taken).
Defined.

(** A terminating ClusterCIDR and the list for an occupy or an allocation:
    it is offered exactly when it is mapped under the default selector, since the
    list of that selector is appended as it is. *)
Theorem terminating_offered `{HLb : !Labels} `{HC : !Cluster} `{HI : !MapIter} (HIL : MapIterLaws HI)
  (st : AllocState) node sel p c ls st'
  (Hok : alloc_ok st) (Hlab : labels_ok st) (Hsel : nodeSelectorAsSelector (Some defaultNodeSelector) = Ok sel)
  (Hp : objs st !! p = Some c) (Ht : Terminating c = true)
  (E : orderedMatchingClusterCIDRs node true st = (Ok ls, st')) :
  p ∈ ls ↔ ∃ l, cidrMap st !! Selector_String sel = Some l ∧ p ∈ l.
Proof.
  destruct (ordered_run HIL st node true sel Hok Hlab Hsel) as (items & E' & Hperm & _). rewrite E' in E. injection E as <- _.
  rewrite elem_of_app, list_elem_of_fmap. split.
  - intros [(x & -> & Hx)|Hd].
    + rewrite Hperm in Hx. apply elem_of_candidates in Hx as (l & _ & _ & _ & _ & Hel).
      unfold eligible in Hel. by rewrite Hp, Ht in Hel.
    + destruct (cidrMap st !! Selector_String sel) as [l|]; [by exists l|by apply elem_of_nil in Hd].
  - intros (l & -> & Hl). by right.
Qed.

(** A modified ClusterCIDR without a selector, read at start-up. *)
Definition ex_modified : v1ClusterCIDR :=
  mkCC "modified" 2 "1" None [] (mkSpecCC None 4 "10.3.0.0/27" EmptyString).

Lemma ex_modified_ok : cc_ok ex_modified.
Proof.
  split; [|apply range_ok_empty].
  apply (range_ok_block V4 4 _ 32 (10 * 2 ^ 24 + 3 * 2 ^ 16) 27); [done|vm_compute; reflexivity|by_decision].
Qed.

Definition ex_term : AllocState := (reconcileBootstrap ex_modified ex_init).2.
Definition ex_term_obj : ClusterCIDR :=
  mkClusterCIDR "modified" (Some (newSet "modified" 32 (10 * 2 ^ 24 + 3 * 2 ^ 16) 27 4)) None ∅ true.

Lemma ex_term_ok : alloc_ok ex_term.
Proof.
  apply (keeps_createClusterCIDR (HC:=refCluster) refNetUtils_laws refWok refWorld_closed ex_modified true ex_modified_ok).
  apply init_inv, ex_world_ok.
Qed.

Lemma ex_term_map : cidrMap ex_term = {["kubernetes.io/clusterCIDR in (default)" := [1%positive]]}.
Proof. vm_compute. reflexivity. Qed.

Lemma ex_term_labels : labels_ok ex_term.
Proof.
  intros label. rewrite ex_term_map, lookup_singleton. case_decide; intros [l Hl]; [|discriminate Hl].
  subst label. eexists. vm_compute. reflexivity.
Qed.

Lemma terminating_offered_witness :
  ∃ ls st', orderedMatchingClusterCIDRs ex_n1 true ex_term = (Ok ls, st') ∧
    (1%positive ∈ ls ↔ ∃ l, cidrMap ex_term !! "kubernetes.io/clusterCIDR in (default)" = Some l ∧ 1%positive ∈ l).
Proof.
  assert (orderedMatchingClusterCIDRs ex_n1 true ex_term = (Ok [1%positive], with_iter ex_term)) as E by (vm_compute; reflexivity).
  assert (objs ex_term !! 1%positive = Some ex_term_obj) as Hp by (vm_compute; reflexivity).
  assert (nodeSelectorAsSelector (H:=refLabels) (Some defaultNodeSelector) = Ok ex_default_sel) as Hsel by (vm_compute; reflexivity).
  exists [1%positive], (with_iter ex_term). split; [exact E|].
  exact (terminating_offered (HLb:=refLabels) (HC:=refCluster) refIter_laws ex_term ex_n1 ex_default_sel 1 ex_term_obj _ _
    ex_term_ok ex_term_labels Hsel Hp eq_refl E).
Defined.

(** A ClusterCIDR with a selector that is being deleted while node n7 uses one of
    its blocks, in the world a restarted controller reads. *)
Definition ex_deleting : v1ClusterCIDR :=
  mkCC "deleting" 2 "1" (Some 5) [clusterCIDRFinalizer] (mkSpecCC (Some ex_selector) 4 "10.4.0.0/27" EmptyString).
Definition ex_n7 : Node := ex_node "n7" {["zone" := "a"]} ["10.4.0.0/28"].
Definition ex_restart_world : refWorld :=
  mkWorld {["n7" := ex_n7]} {["deleting" := ex_deleting]} ["deleting"] [] [].
Definition ex_restarted : AllocState :=
  (NewMultiCIDRRangeAllocator ex_params (Some [ex_n7]) (initState (HC:=refCluster) ex_restart_world)).2.

(** * A ClusterCIDR that start-up maps as terminating *)

Section forgotten.
Context `{HN : !NetUtils} `{HLb : !Labels} `{HC : !Cluster} `{HI : !MapIter}.
Context (HNL : NetUtilsLaws HN) (HIL : MapIterLaws HI) (sel : Selector) (Hsel : nodeSelectorAsSelector (Some defaultNodeSelector) = Ok sel).
Implicit Types st : AllocState.

(** What [reconcileBootstrap] stores. *)
Lemma bootstrap_object c st st' : reconcileBootstrap c st = (Ok tt, st') →
  frame <$> objs st' !! next_loc st = Some (cc_Name c, ∅, 1 <? cc_Generation c).
Proof using.
  unfold reconcileBootstrap. cbn zeta. generalize (1 <? cc_Generation c) as b. intros b. unfold createClusterCIDR. intros E.
  apply M_bind_inv in E as (key & st1 & E1 & E). apply wrapErr_inv in E1. injection E1 as _ <-.
  apply M_bind_inv in E as (o & st2 & E2 & E). apply wrapErr_inv in E2.
  assert (frame o = (cc_Name c, ∅, b) ∧ next_loc st2 = next_loc st) as [Ho Hn].
  { assert (∀ name n h, preserves (λ s, next_loc s = next_loc st) (newSetM name n h)) as Hnew.
    { intros name n h s Hs. unfold newSetM. by destruct (NewMultiCIDRSet name n h (metrics s)). }
    assert (∀ m1 m2 name t h, preserves (λ s, next_loc s = next_loc st) (createSet m1 m2 name t h)) as Hcs by (intros; unfold createSet; preserve; apply Hnew).
    unfold createClusterCIDRSet in E2. cbn zeta in E2. apply M_bind_inv in E2 as (v4 & s1 & E3 & E2). apply M_bind_inv in E2 as (v6 & s2 & E4 & E2).
    injection E2 as <- <-. split; [done|]. eapply (preserves_end (λ s, next_loc s = next_loc st)); [apply Hcs| |exact E4].
    by eapply (preserves_end (λ s, next_loc s = next_loc st)); [apply Hcs| |exact E3]. }
  destruct (bool_decide (IPv4CIDRSet o = None) && bool_decide (IPv6CIDRSet o = None)); [done|].
  apply M_bind_inv in E as (p & st3 & E3 & E). injection E3 as <- <-. apply M_bind_inv in E as ([] & st4 & E4 & E). apply wrapErr_inv in E4.
  set (P := λ s : AllocState, frame <$> objs s !! next_loc st = Some (cc_Name c, ∅, b)).
  assert (P st4) as H4.
  { eapply (preserves_end P); [| |exact E4].
    - assert (∀ name l, preserves P (containsName name l)) as Hcn by (intros name l; induction l as [|x l IH]; cbn [containsName]; preserve).
      unfold mapClusterCIDRSet. preserve; try apply Hcn; apply preserves_modify; by intros s.
    - unfold P. simpl. rewrite Hn, lookup_insert_eq. simpl. by rewrite Ho. }
  cbn zeta in E. eapply (preserves_end P); [|exact H4|exact E]. case_match; apply preserves_returnErr, preserves_callAPI; by intros s.
Qed.

(** The loop over the nodes leaves a terminating ClusterCIDR of another list than
    the default one as it is. *)
Definition untouched st0 (cc : loc) st : Prop :=
  Advanced st0 st ∧ frame <$> objs st !! cc = frame <$> objs st0 !! cc ∧ ∀ q, name_at st q = name_at st0 q.

Lemma not_offered st0 st node cc o : alloc_ok st0 → labels_ok st0 → frame <$> objs st0 !! cc = Some (o, true) →
  (∀ l, cidrMap st0 !! Selector_String sel = Some l → cc ∉ l) → Advanced st0 st → ¬ offered st node cc.
Proof using HIL Hsel.
  intros Hok Hlab Hf Hdef (Hok' & Hlab' & Ha) Ho. apply (advances_offered HIL sel Hsel st0 st) in Ho; [|done..].
  apply (offered_spec HIL sel Hsel) in Ho as [(x & Hx & <-)|Hd]; [| |done..].
  - apply elem_of_candidates in Hx as (l & _ & _ & _ & _ & He). unfold eligible in He. apply fmap_Some in Hf as (c & Hc & Hf).
    rewrite Hc in He. destruct o. unfold frame in Hf. injection Hf as _ _ Ht. by rewrite <- Ht in He.
  - destruct (cidrMap st0 !! Selector_String sel) as [l|] eqn:El; [by apply (Hdef l)|by apply elem_of_nil in Hd].
Qed.

Lemma grows_names st st' q : grows st st' → name_at st' q = name_at st q.
Proof using.
  intros Hg. pose proof (gr_frame _ _ Hg q) as Hf. unfold name_at. destruct (objs st !! q), (objs st' !! q); try done.
  unfold frame in Hf. simpl in *. by injection Hf as -> _ _.
Qed.

Lemma untouched_loop st0 cc o nodes st st' : alloc_ok st0 → labels_ok st0 → frame <$> objs st0 !! cc = Some (o, true) →
  (∀ l, cidrMap st0 !! Selector_String sel = Some l → cc ∉ l) → (∀ node, node ∈ nodes → ∃ bs, shows node bs) →
  untouched st0 cc st → forM_ nodes nodeBody st = (Ok tt, st') → untouched st0 cc st'.
Proof using HNL HIL Hsel.
  intros Hok0 Hlab0 Hf0 Hdef. revert st. induction nodes as [|node nodes IH]; intros st Hns Hst E; [by injection E as <-|].
  cbn [forM_] in E. apply M_bind_inv in E as ([] & st1 & E1 & E2). apply (IH st1); [intros m Hm; apply Hns; by right| |exact E2]. clear IH E2.
  destruct (Hns node) as [bs Hbs]; [by left|]. unfold nodeBody in E1. destruct (Nat.eqb_spec (length (PodCIDRs node)) 0) as [Hl|Hl]; [by injection E1 as <-|].
  assert (PodCIDRs node ≠ []) as Hne by (intros Hnil; by rewrite Hnil in Hl). destruct Hst as ((Hok & Hlab & Ha) & Hf & Hname).
  destruct (occupyCIDRs_run HNL HIL st node sel bs Hok Hlab Hsel Hne Hbs) as (ls & st2 & El & Hm & Hok2 & Hg & Hr).
  assert (untouched st0 cc st2) as H2.
  { split; [split_and!; [done|by eapply grows_labels|etransitivity; [exact Ha|by apply grows_advances]]|].
    split; [by rewrite (gr_frame _ _ Hg)|]. intros q. by rewrite (grows_names st st2). }
  destruct (occupier st ls bs) as [[cc' []]|].
  2,3: by (unfold attempt, mbind, M_bind in E1; rewrite Hr in E1).
  2: { unfold attempt, mbind, M_bind in E1. rewrite Hr in E1. by injection E1 as <-. }
  destruct Hr as (Hcc & Er & _). rewrite (M_bind_Ok _ _ _ _ _ (attempt_Ok _ _ _ _ Er)) in E1. injection E1 as <-.
  assert (cc' ≠ cc) as Hne'.
  { intros ->. eapply (not_offered st0 st node cc o); [done..| |by exists ls]. by split_and!. }
  pose proof (grows_mapped st st2 cc' Hg (Hm cc' Hcc)) as Hm2. destruct (ao_mapped _ Hok2 cc' Hm2) as [c Hc].
  destruct H2 as ((_ & Hlab2 & Ha2) & Hf2 & Hn2). pose proof (updObj_associate st2 cc' c (node_Name node) Hc) as Eu.
  rewrite (updObj_run st2 cc' c _ Hc) in Eu. apply (f_equal snd) in Eu. simpl snd in Eu. rewrite <- Eu. split; [split_and!|split].
  - apply (objs_insert st2 cc' c); [done|done|]. by apply with_nodes_ok, (ao_objs _ Hok2 cc').
  - done.
  - etransitivity; [exact Ha2|by apply associate_advances].
  - simpl. by rewrite lookup_insert_ne.
  - intros q. rewrite <- Hn2. unfold name_at. simpl. rewrite lookup_insert. case_decide as E; [|done]. subst q. by rewrite Hc.
Qed.
End forgotten.

(** C32. A restart forgets the nodes of a ClusterCIDR whose generation is above one
    (its spec was changed, or it is being deleted).  [reconcileBootstrap] stores it as
    terminating and without nodes.  If it is then mapped, the only one of its name, in
    the list of a selector other than the default one, the loop over the nodes that
    exist associates none with it, whatever PodCIDRs they have; so the next work item
    that deletes it does not fail, unmaps it, and sends the update that removes the
    finalizer. *)
Theorem restart_forgets_nodes `{HN : !NetUtils} `{HLb : !Labels} `{HC : !Cluster} `{HI : !MapIter}
  (HNL : NetUtilsLaws HN) (HIL : MapIterLaws HI) (s0 s1 st st' : AllocState) c nodes sel key pre post
  (Hsel : nodeSelectorAsSelector (Some defaultNodeSelector) = Ok sel)
  (Hboot : reconcileBootstrap c s0 = (Ok tt, s1)) (Hgen : 1 < cc_Generation c)
  (Hok : alloc_ok st) (Hlab : labels_ok st) (Hst : frame <$> objs st !! next_loc s0 = frame <$> objs s1 !! next_loc s0)
  (Hkey : nodeSelectorKey c = Ok key) (Hdef : key ≠ Selector_String sel)
  (Hl : cidrMap st !! key = Some (pre ++ next_loc s0 :: post)) (Hdup : next_loc s0 ∉ pre ++ post)
  (Hpre : ∀ q, q ∈ pre → ∃ n, name_at st q = Some n ∧ n ≠ cc_Name c)
  (Honce : ∀ label l, cidrMap st !! label = Some l → next_loc s0 ∈ l → label = key)
  (Hns : ∀ node, node ∈ nodes → ∃ bs, shows node bs) (E : forM_ nodes nodeBody st = (Ok tt, st'))
  (Hfin : clusterCIDRFinalizer ∈ cc_Finalizers c) :
  frame <$> objs s1 !! next_loc s0 = Some (cc_Name c, ∅, true) ∧
  (∀ n, associated st' n (next_loc s0) = false) ∧
  ∃ st'', let cleared := with_finalizers (filter (λ s, s ≠ clusterCIDRFinalizer) (cc_Finalizers c)) c in
    reconcileDelete c st' = (api_result (networkClient_Update cleared (world st')).1, st'') ∧
    world st'' = (networkClient_Update cleared (world st')).2 ∧ ¬ mapped st'' (next_loc s0).
Proof.
  pose proof (bootstrap_object c s0 s1 Hboot) as Hb. rewrite (proj2 (Z.ltb_lt _ _) Hgen) in Hb. rewrite Hb in Hst. set (cc := next_loc s0) in *.
  assert (untouched st cc st') as ((Hok' & _ & Ha) & Hf & Hname).
  { apply (untouched_loop HNL HIL sel Hsel st cc (cc_Name c, ∅) nodes st); [done|done|done| |done| |exact E].
    - intros l Hd Hin. apply Hdef. symmetry. by eapply Honce.
    - split; [split_and!; [done|done|reflexivity]|done]. }
  rewrite Hst in Hf. pose proof Hf as Hf'. apply fmap_Some in Hf as (o & Ho & Hfo). unfold frame in Hfo. injection Hfo as En Ea Et.
  split; [exact Hb|]. split.
  { intros n. unfold associated. rewrite Ho, <- Ea. by rewrite lookup_empty. }
  pose proof (deleteClusterCIDR_run st' c key pre cc o post Hkey) as Hd. rewrite (ad_map _ _ Ha) in Hd. specialize (Hd Hl).
  cbn zeta in Hd. rewrite decide_True in Hd by done. unfold reconcileDelete. rewrite bool_decide_true by done.
  assert (deleteClusterCIDR c st' = (Ok tt, with_cidrMap (if decide (pre ++ post = []) then delete key else insert key (pre ++ post))
    (with_objs (<[cc := with_terminating true o]>) st'))) as Ed.
  { apply Hd; [|done|done]. intros q Hq. rewrite Hname. by apply Hpre. }
  mstep Ed. cbn zeta. rewrite returnErr_run. eexists. split; [reflexivity|]. split; [done|]. intros (label & l & Hlab' & Hin). simpl in Hlab'.
  assert (∀ label l, label ≠ key → cidrMap st' !! label = Some l → cc ∉ l) as Hother.
  { intros la lk Hne Hla Hinl. rewrite (ad_map _ _ Ha) in Hla. by apply Hne, (Honce la lk). }
  destruct (decide (label = key)) as [->|Hne]; case_decide as Hnil; simpl in Hlab'.
  - by rewrite lookup_delete_eq in Hlab'.
  - rewrite lookup_insert_eq in Hlab'. injection Hlab' as <-. done.
  - rewrite lookup_delete_ne in Hlab' by done. by apply (Hother label l).
  - rewrite lookup_insert_ne in Hlab' by done. by apply (Hother label l).
Qed.

(** The run of a restarted controller: the ClusterCIDR is unmapped and loses its
    finalizer, although n7 still has its PodCIDR. *)
Example ex_restart_forgets :
  (NewMultiCIDRRangeAllocator ex_params (Some [ex_n7]) (initState (HC:=refCluster) ex_restart_world)).1 = Ok tt ∧
  (λ c, (Terminating c, map_to_list (AssociatedNodes c))) <$> objs ex_restarted !! 1%positive = Some (true, []) ∧
  (processNextCIDRWorkItem ex_restarted).1 = Ok true ∧
  cidrMap (processNextCIDRWorkItem ex_restarted).2 = ∅.
Proof. split_and!; vm_compute; reflexivity. Qed.

Definition ex_boot0 : AllocState := initState (HC:=refCluster) ex_restart_world.
Definition ex_boot : AllocState := (reconcileBootstrap ex_deleting ex_boot0).2.
Definition ex_boot_end : AllocState := (forM_ [ex_n7] nodeBody ex_boot).2.

Lemma ex_deleting_ok : cc_ok ex_deleting.
Proof.
  split; [|apply range_ok_empty].
  apply (range_ok_block V4 4 _ 32 (10 * 2 ^ 24 + 4 * 2 ^ 16) 27); [done|vm_compute; reflexivity|by_decision].
Qed.

Lemma ex_boot_ok : alloc_ok ex_boot.
Proof.
  apply (keeps_createClusterCIDR (HC:=refCluster) refNetUtils_laws refNamed refNamed_closed ex_deleting true ex_deleting_ok).
  apply init_inv. split; [split|split]; simpl; intros k x; rewrite lookup_singleton; case_decide; try discriminate.
  - intros [= <-]. constructor; [|constructor]. apply (text_ok_block _ 32 (10 * 2 ^ 24 + 4 * 2 ^ 16) 28 V4); [done|vm_compute; reflexivity|by_decision].
  - intros [= <-]. exact ex_deleting_ok.
  - intros [= <-]. by subst k.
  - intros key [= <-] Hk. apply (ex_key ex_deleting key Hk). by right.
Qed.

Lemma ex_boot_map : cidrMap ex_boot = {["zone in (a)" := [1%positive]]}.
Proof. vm_compute. reflexivity. Qed.

Lemma ex_boot_labels : labels_ok ex_boot.
Proof.
  intros label. rewrite ex_boot_map, lookup_singleton. case_decide; intros [l Hl]; [|discriminate Hl].
  subst label. eexists. vm_compute. reflexivity.
Qed.

Lemma ex_boot_run : reconcileBootstrap (HLb:=refLabels) (HC:=refCluster) ex_deleting ex_boot0 = (Ok tt, ex_boot) ∧
  forM_ [ex_n7] (nodeBody (HLb:=refLabels) (HC:=refCluster)) ex_boot = (Ok tt, ex_boot_end).
Proof.
  assert ((reconcileBootstrap (HLb:=refLabels) (HC:=refCluster) ex_deleting ex_boot0).1 = Ok tt) as E0 by (vm_compute; reflexivity).
  assert ((forM_ [ex_n7] (nodeBody (HLb:=refLabels) (HC:=refCluster)) ex_boot).1 = Ok tt) as E1 by (vm_compute; reflexivity).
  split; [exact (call_result _ _ _ E0)|exact (call_result _ _ _ E1)].
Qed.

Lemma restart_forgets_nodes_witness :
  (∀ n, associated ex_boot_end n 1 = false) ∧
  ∃ st'', reconcileDelete ex_deleting ex_boot_end = (Ok tt, st'') ∧ ¬ mapped st'' 1%positive.
Proof.
  destruct (restart_forgets_nodes (HLb:=refLabels) (HC:=refCluster) refNetUtils_laws refIter_laws ex_boot0 ex_boot ex_boot ex_boot_end
    ex_deleting [ex_n7] ex_default_sel "zone in (a)" [] []) as (_ & H & st'' & E & _ & Hm).
  - vm_compute. reflexivity.
  - exact (proj1 ex_boot_run).
  - reflexivity.
  - exact ex_boot_ok.
  - exact ex_boot_labels.
  - reflexivity.
  - vm_compute. reflexivity.
  - vm_compute. discriminate.
  - rewrite ex_boot_map. reflexivity.
  - apply not_elem_of_nil.
  - intros q Hq. by apply elem_of_nil in Hq.
  - intros label l. rewrite ex_boot_map, lookup_singleton. case_decide; [done|discriminate].
  - intros node ->%list_elem_of_singleton. exists [(V4, 10 * 2 ^ 24 + 4 * 2 ^ 16, 28)]. constructor; [|constructor].
    split; [eexists; vm_compute; reflexivity|by_decision].
  - exact (proj2 ex_boot_run).
  - left.
  - split; [exact H|]. exists st''. split; [|exact Hm]. rewrite E.
    assert ((networkClient_Update (Cluster:=refCluster) (with_finalizers [] ex_deleting) (world ex_boot_end)).1 = None) as Eu by (vm_compute; reflexivity).
    change (filter (λ s, s ≠ clusterCIDRFinalizer) (cc_Finalizers ex_deleting)) with (@nil string). by rewrite Eu.
Defined.

(** A node with one PodCIDR in the range of its ClusterCIDR and one outside. *)
Definition ex_half : Node := ex_node "half" ∅ ["10.0.0.0/28"; "10.9.0.0/28"].
Definition ex_half_st : AllocState := (occupyCIDRs ex_half ex_st).2.

(** A failed occupy is not undone: the first PodCIDR stays allocated, the next node
    is given the block after it, and no association is left by which a deletion of
    the node could give it back. *)
Theorem partial_occupancy_leaks :
  (occupyCIDRs ex_half ex_st).1 = Err (Errorf "could not occupy cidrs: %v after %d attempts" [fmtSlice (PodCIDRs ex_half); "1"]) ∧
  allocatedCIDRs <$> set_at ex_st (1%positive, V4) = Some 0 ∧
  allocatedCIDRs <$> set_at ex_half_st (1%positive, V4) = Some 1 ∧
  (λ c, map_to_list (AssociatedNodes c)) <$> objs ex_half_st !! 1%positive = Some [] ∧
  allocatedCIDRs <$> set_at (ReleaseCIDR (Some ex_half) ex_half_st).2 (1%positive, V4) = Some 1 ∧
  (prioritizedCIDRs ex_n1 ex_half_st).1 = Ok ([block 32 (10 * 2 ^ 24 + 16) 28], 1%positive).
Proof. split_and!; vm_compute; reflexivity. Qed.

(** A service range in no ClusterCIDR of the start, and a ClusterCIDR that is created
    over it afterwards. *)
Definition ex_service : CIDRAllocatorParams := mkParams [] (Some (block 32 (10 * 2 ^ 24) 28)) None [].
Definition ex_late : AllocState :=
  with_world (HC:=refCluster) (mkWorld {["n1" := ex_n1]} {["cc4" := ex_cc4]} [] [] [])
    (NewMultiCIDRRangeAllocator ex_service (Some []) (initState (HC:=refCluster) (mkWorld ∅ ∅ [] [] []))).2.

(** The service ranges are filtered out in the constructor only: a node is patched
    with the service range itself. *)
Theorem late_range_hands_out_service :
  (NewMultiCIDRRangeAllocator ex_service (Some []) (initState (HC:=refCluster) (mkWorld ∅ ∅ [] [] []))).1 = Ok tt ∧
  (syncClusterCIDR "cc4" ex_late).1 = Ok tt ∧
  w_log (world (syncNode "n1" (syncClusterCIDR "cc4" ex_late).2).2)
    = [CallUpdate (with_finalizers [clusterCIDRFinalizer] ex_cc4); CallPatch "n1" ["10.0.0.0/28"]] ∧
  IPNet_String (block 32 (10 * 2 ^ 24) 28) = "10.0.0.0/28".
Proof. split_and!; vm_compute; reflexivity. Qed.
